(* ===== verification/_CoqProject ===== *)
-Q . S2P
Prelude.v
F64.v
BTreeSet.v
Types.v
Events.v
Externals.v
LockTable.v
Exporter.v
EventJson.v
EventTests.v
TipProgram.v
Costs.v
Common.v
RustString.v
ReplayLog.v
ReplaySegments.v
ReplayParse.v
TestBridge.v
Outstanding.v
Drains.v
Strays.v
Histories.v
Polling.v
JitoThread.v
IntervalStream.v
JitoSession.v
BatchScheduler.v
BatchInvariant.v
BatchHandlers.v
BatchExecute.v
BatchIngest.v
BatchSlot.v
BatchChecks.v
BatchReach.v
BatchPoll.v
BatchLeaks.v
ModelWorld.v
BatchTests.v
BatchWitness.v
AuctionLocks.v
AuctionEngine.v
AuctionBatches.v
AuctionState.v
AuctionScheduler.v
AuctionScoring.v
AuctionHandlers.v
AuctionExecute.v
AuctionInvariant.v
AuctionReturns.v
AuctionIngest.v
AuctionSlot.v
AuctionChecks.v
AuctionRounds.v
AuctionReach.v
AuctionPoll.v
AuctionLeaks.v
ReplayBench.v
ReplayLayout.v
ReplayWitness.v
AuctionTests.v
ComparativeBench.v
TestWorld.v
TestRuns.v
ReplayRuns.v
Host.v
Startup.v
Process.v
ConfigFile.v
AuctionWitness.v
AuctionReachWitness.v
HostWitness.v
