(* ===== verification/Prelude.v ===== *)
(** * Sched-Archive: verification library

    The repository holds two block schedulers for a Solana validator (Agave)
    that run outside of it and talk to it over shared memory: the batch
    scheduler and the auction batch scheduler, a library they share, and a
    process that hosts one of them.  A scheduler is a single-threaded state
    machine: [poll] takes in progress messages, worker responses, TPU
    transactions and Jito packets and bundles, has the transactions checked by
    worker 0, and as leader sends the best of them, or bundles, to the
    execution workers within locks and a budget of compute units (CUs).

    ** The files

    Shared (src/schedulers/common, and what is not in the repository):
    - [Prelude]: outcomes ([Res]: a value, a panic, or no end), the state monad
      [M] and its weakest preconditions [wp], record updates, machine integers
      in both build profiles (overflow panics or wraps), list lemmas;
    - [F64]: Rust's [f64] on the kernel's IEEE 754 arithmetic;
    - [BTreeSet]: Rust's [Ord] as a class with laws, [BTreeSet] as sorted list;
    - [Types]: [PriorityId] (common/src/shared.rs), [BundleId], Jito updates
      (common/src/jito/jito_thread.rs), views of bridge data;
    - [Events]: events, per-slot statistics (common/src/events), metric names;
    - [Externals]: the interfaces to Agave, the Solana crates, channels, clock
      and containers: a class of operations each, and a class of laws that
      states their documented behaviour;
    - [TipProgram] (common/src/jito/tip_program.rs), [Costs] (common/src/lib.rs,
      tx_costs.rs; priorities and tips), [Common] (calls of the bridge, the
      share of the block a round may fill);
    - [Outstanding] (ghost lists of executions), [Drains] (the drains of the
      bridge as invariant rules over what has arrived, and the frame of a
      handler), [Strays] (the rules about transactions of the bridge that no
      collection of a scheduler has) and [Histories] (polls as sequences of
      handlers), [Polling]: the interface [Handlers] of a
      scheduler to its poll, and the phases both polls share, proved against it;
    - [IntervalStream] (common/src/interval_stream.rs);
    - [JitoThread] and [JitoSession] (common/src/jito/jito_thread.rs): the
      handlers of the streams; the sessions, over an arbitrary network.

    The batch scheduler (schedulers/batch-scheduler/src/lib.rs):
    - [LockTable]: [AccountLockers], [can_lock], [lock], [unlock], refined
      against sets of grants;
    - [BatchScheduler]: the state record and one definition per method, closure
      or loop body, in the order of the source;
    - [BatchInvariant]: the invariant [Inv O] that ties the state to the
      executions [O] in flight; [BatchHandlers] (responses), [BatchExecute]
      (scheduling), [BatchIngest] (TPU, Jito), [BatchSlot] (slot roll, tip
      receiver) and [BatchChecks] (check requests): each handler keeps it, has
      the effect its statement spells out, and dies of no assertion;
    - [BatchReach]: the handlers as steps of a state machine, and what holds in
      every reachable state; [BatchPoll]: a whole [poll], its drains included;
      [BatchLeaks]: whatever the handlers did, with no assumption on what the
      workers answer, no transaction of the bridge is forgotten but by a first
      check that comes back unprocessed.

    The auction scheduler (schedulers/auction-batch-scheduler/src):
    - [AuctionLocks], [AuctionEngine]: auction_engine.rs (lock manager; prices,
      entropy, CU allocation, batches, scorer, engine);
    - [AuctionBatches]: what [build_batches], [build_bundle_batch] and
      [find_best_batch] compute; [AuctionState]: locks, CU allocation and demand
      windows over any sequence of operations;
    - [AuctionScheduler]: lib.rs, as [BatchScheduler];
    - [AuctionScoring] (priorities, remaining CUs, the recheck loop),
      [AuctionHandlers] (ends of executions), [AuctionExecute] (scheduling of a
      transaction and of a bundle);
    - [AuctionInvariant]: the invariant [AInv O], as [Inv O] above;
      [AuctionReturns] (responses), [AuctionIngest] (TPU, Jito), [AuctionSlot]
      (slot roll, tip receiver), [AuctionChecks] (check requests) and
      [AuctionRounds] (rounds of scheduling): each handler keeps it;
      [AuctionReach]: the handlers as steps, and the reachable states;
      [AuctionPoll]: a whole [poll]; [AuctionLeaks]: as [BatchLeaks].

    The process (external-scheduler/src): [Host] has the configuration, what
    becomes of it, the poll loops and the exit code (config_store.rs,
    scheduler_thread.rs, main.rs); [Startup] the way from a configuration to a
    scheduler that can be polled; [Process] the threads, the tasks and the signal
    as steps that interleave; [ConfigFile] how a configuration is read, and
    the two files of etc/; [Exporter] the task that writes the events to a log
    server; [EventJson] the JSON of an event (the attributes of
    common/src/events/model.rs).

    The tests and the benchmarks:
    - [TestBridge]: the validator's end of the bridge
      (external-scheduler/benches/bench_bridge.rs), which the tests use, too;
    - [BatchTests], [AuctionTests], [EventTests]: the tests in the two crates'
      lib.rs and in model.rs, as programs over the same interfaces;
    - [TestWorld]: a world for them, with an encoding of transactions, a base58
      and RFC 3339 text, [ln] and [exp]; [TestRuns]: the tests, run;
    - [RustString], [ReplayLog], [ReplayBench]: replay_bench.rs (the functions of
      [str] it calls; the log and its windows, slots and ticks; the replay);
      [ReplaySegments], [ReplayParse] and [ReplayLayout]: what they compute;
    - [ComparativeBench]: comparative_bench.rs; [ReplayWitness] and [ReplayRuns]:
      a log, read and replayed, and a part of the comparative benchmark.

    [ModelWorld] has concrete instances of all interfaces, with their laws;
    [BatchWitness], [AuctionWitness] and [AuctionReachWitness] run the two
    schedulers in that world, [HostWitness] the Jito thread, the interval stream
    and the process.  They instantiate every property that has hypotheses on a
    state of the run, and prove by computation the defects found that need no
    more than an example.

    ** How the code is rendered

    A method that takes [&mut self] and the bridge is a program of [M (St D W)]:
    the scheduler's record [D] and the world [W] are its state, a panic or an
    endless loop its other outcomes.  A closure or a loop body with a life of
    its own is a definition of its own.  Integers are [Z] with the operation's
    width written out; [usize] lengths of collections are [nat].  Addresses and
    transaction keys are [N].  HashMaps are [gmap]; where the order of a
    HashMap's values matters (a floating point sum) it is a parameter.
    [EventEmitter]'s log line, [info!] and [warn!] are left out.

    ** What is proved

    - Batch scheduler: conflicting executions are never in flight together
      unless they are of one batch; the CU counter, the executing keys and the
      locks are those of the executions in flight, in every reachable state;
      what a scheduling round starts is the best candidate, within the budget,
      and the block's share is kept; the effect of each handler on each branch:
      a bundle is stored as a whole or leaves nothing behind, in the scheduler or
      in the bridge, and so do the two transactions by which the scheduler becomes
      the tip receiver; check requests end; the lock table refines a set of
      grants, panics included; every transaction of the bridge is in a
      collection, executing, or asked for in a check request that was handed to
      the bridge ([SentLog]) and not answered yet, but for a first check that
      comes back unprocessed; a whole poll ends,
      dies of no assertion and keeps the invariant, if the workers answer what
      they were asked, the validator and the Jito thread are there, and the
      collections have room for what arrives at once.
    - Auction: in every reachable state transactions that execute with their
      locks do not conflict, the counters, keys and locks are those of the
      executions in flight, and every field is well-formed; a round keeps the
      block's share; which transaction is picked; a bundle starts whole or leaves
      the locks alone; what the end of an execution does; check requests end
      unless the transaction to recheck is gone, and so does a whole poll; no
      transaction is forgotten, as above; first fit, the partition and the
      bounds of batches; the range of priorities and penalties for every
      floating point state, NaN and infinities included; CU accounting without
      overflow.
    - Around them: what the Jito thread sends, whatever the network does, and
      that a scheduler starts with it; when start-up succeeds, and that it leads
      to a reachable state and a scheduler that already runs with its
      configuration; that the process ends, however its threads interleave, if
      they all heed the shutdown, and whose error it reports; that the exporter,
      wherever it is, has neither reordered nor repeated events and has lost one
      per connection at most, and that it ends by a shutdown only; that an event
      can be told from its JSON.
    - The repository's tests, as examples: the model does in each what the test
      expects of the code.  This is the check of the translation against its
      authors' intent.
    - Replay: a log is read as it was written, its times compared with the
      calendar; what is replayed, the log with the synthetic transactions, is
      laid out in windows, slots and ticks that partition it, without a panic.
    - Defects: the interval stream forgets to be woken; the recheck loop of the
      auction scheduler and [drain_jito] after a shutdown never end; the
      remaining-CU subtraction underflows; the replay loses the batch it finds
      with its last look at the queue; and the examples at the end of the
      witness files.

    ** Fuel

    [while] and [loop] take fuel, and running out is [Hang].  [wp] excludes
    [Hang], so a [wp] theorem is one of termination, too.
    [BatchChecks.schedule_checks_ends] holds for fuel above the number of
    transactions left to check.  No fuel is enough for the auction's
    [schedule_checks] once the transaction to recheck is gone
    ([AuctionScoring.schedule_checks_spins]); that is the only case
    ([AuctionChecks.auction_schedule_checks_ends]).  [drain_jito] takes one
    round more than there are messages; [BatchPoll.poll_inv] and
    [AuctionPoll.auction_poll_inv] have the fuel for a whole poll ([eventually]:
    some fuel, and any more).  The tests have fuel for 300 rounds of a loop, and
    end with it; [Exporter.exporter_log] holds for any fuel, as the exporter runs
    until it is cancelled: when the fuel is used up, so many rounds or events
    have been gone through.

    ** What is not modelled

    Of the process: arguments, the syntax of TOML and the panic hook; of the
    benches, the reports they print and the bridge's shared memory.  A poll and a
    session are sequential programs: a signal or a thread that ends in the middle
    of one is seen as a change of the world between two of its calls.  The
    Protocol Buffers of jito-protos are generated code.  Everything is as of one
    commit; log lines are left out. *)

From stdpp Require Export base gmap sets list strings.
From Stdlib Require Export ZArith Lia.

Declare Scope rust_scope.
#[global] Open Scope Z_scope.
#[global] Open Scope rust_scope.

(** ** Outcomes of Rust code

    A Rust function returns, panics, or runs forever.  [Hang] is what a fuelled
    loop answers when its fuel runs out; the header says what fuel each loop
    needs. *)

Inductive Panic :=
| PUnwrap (site : string)
| PAssert (site : string)
| PUnreachable (site : string)
| POverflow (site : string)
| PExternal (site : string).

Inductive Res (A : Type) :=
| Ok (a : A)
| Panicked (p : Panic)
| Hang.
Arguments Ok {A} _.
Arguments Panicked {A} _.
Arguments Hang {A}.

#[global] Instance Panic_eq_dec : EqDecision Panic.
Proof. solve_decision. Defined.

#[global] Instance Res_ret : MRet Res := λ A a, Ok a.
#[global] Instance Res_bind : MBind Res := λ A B f m,
  match m with
  | Ok a => f a
  | Panicked p => Panicked p
  | Hang => Hang
  end.

(** ** The state monad with panics

    [M S A] is a Rust function body with a mutable state [S]: it produces a
    value and the new state, or panics (the state is then gone: the process
    dies), or hangs. *)

Definition M (S A : Type) : Type := S → Res (A * S).

#[global] Instance M_ret {S} : MRet (M S) := λ A a s, Ok (a, s).
Definition bindM {S A B} (m : M S A) (f : A → M S B) : M S B := λ s,
  match m s with
  | Ok (a, s') => f a s'
  | Panicked p => Panicked p
  | Hang => Hang
  end.

Notation "'let*' x ':=' m 'in' k" := (bindM m (λ x, k))
  (at level 10, x name, m at level 200, k at level 200) : rust_scope.
Notation "'let*' ' x ':=' m 'in' k" := (bindM m (λ x, k))
  (at level 10, x strict pattern, m at level 200, k at level 200) : rust_scope.
Notation "m ;; k" := (bindM m (λ _, k)) : rust_scope.

Section Primitives.
Context {S : Type}.

Definition panic {A} (p : Panic) : M S A := λ _, Panicked p.
Definition hang {A} : M S A := λ _, Hang.
Definition get : M S S := λ s, Ok (s, s).
Definition gets {A} (f : S → A) : M S A := λ s, Ok (f s, s).
Definition modify (f : S → S) : M S unit := λ s, Ok (tt, f s).
Definition of_res {A} (r : Res A) : M S A := λ s,
  match r with
  | Ok a => Ok (a, s)
  | Panicked p => Panicked p
  | Hang => Hang
  end.

(** A state transition that also answers ([f] of type [S → A * S]). *)
Definition step {A} (f : S → A * S) : M S A := λ s, Ok (f s).

(** [Option::unwrap] / [expect] / a failing index. *)
Definition unwrap {A} (site : string) (o : option A) : M S A :=
  match o with
  | Some a => mret a
  | None => panic (PUnwrap site)
  end.

(** [assert!]. *)
Definition assert (site : string) (b : bool) : M S unit :=
  if b then mret tt else panic (PAssert site).

Definition when (b : bool) (m : M S unit) : M S unit :=
  if b then m else mret tt.

(** [for x in l { body }]. *)
Fixpoint for_each {A} (l : list A) (body : A → M S unit) : M S unit :=
  match l with
  | [] => mret tt
  | x :: l' => body x ;; for_each l' body
  end.
End Primitives.

(** [for x in l { body }] where the body may [break]. *)
Inductive Flow := Continue | Break.

Section Loops.
Context {S : Type}.

Fixpoint for_break {A} (l : list A) (body : A → M S Flow) : M S unit :=
  match l with
  | [] => mret tt
  | x :: l' =>
      let* c := body x in
      match c with
      | Continue => for_break l' body
      | Break => mret tt
      end
  end.

(** The same with a local variable that the body updates. *)
Fixpoint for_acc {A B} (l : list A) (b : B) (body : A → B → M S (Flow * B)) : M S B :=
  match l with
  | [] => mret b
  | x :: l' =>
      let* ' (c, b') := body x b in
      match c with
      | Continue => for_acc l' b' body
      | Break => mret b'
      end
  end.

(** [loop { body }] with fuel: [body] says whether to go round again. *)
Fixpoint loop_fuel (fuel : nat) (body : M S Flow) : M S unit :=
  match fuel with
  | O => hang
  | Datatypes.S n =>
      let* c := body in
      match c with
      | Continue => loop_fuel n body
      | Break => mret tt
      end
  end.
End Loops.

(** ** Weakest preconditions

    [wp E m Q s]: run from [s], [m] either returns with [Q] or dies with one of
    the panics in [E]; it never hangs.  With [E := no_panic] it says that the
    code returns. *)

Definition wp {S A} (E : Panic → Prop) (m : M S A) (Q : A → S → Prop) (s : S) : Prop :=
  match m s with
  | Ok (a, s') => Q a s'
  | Panicked p => E p
  | Hang => False
  end.

Definition no_panic : Panic → Prop := λ _, False.

Section WpRules.
Context {S : Type} (E : Panic → Prop).

Lemma wp_ret {A} (a : A) Q (s : S) : Q a s → wp E (mret a) Q s.
Proof. done. Qed.

Lemma wp_bind {A B} (m : M S A) (f : A → M S B) Q s :
  wp E m (λ a s', wp E (f a) Q s') s → wp E (bindM m f) Q s.
Proof.
  unfold wp, bindM. destruct (m s) as [[a s']|p|]; done.
Qed.

Lemma wp_bind_inv {A B} (m : M S A) (f : A → M S B) Q s :
  wp E (bindM m f) Q s → wp E m (λ a s', wp E (f a) Q s') s.
Proof.
  unfold wp, bindM. destruct (m s) as [[a s']|p|]; done.
Qed.

Lemma wp_mono {A} (m : M S A) (Q Q' : A → S → Prop) s :
  wp E m Q s → (∀ a s', Q a s' → Q' a s') → wp E m Q' s.
Proof. unfold wp. destruct (m s) as [[a s']|p|]; naive_solver. Qed.

(** The postcondition may speak of the run. *)
Lemma wp_run {A} (m : M S A) Q s :
  wp E m Q s → wp E m (λ a s', m s = Ok (a, s') ∧ Q a s') s.
Proof. unfold wp. by destruct (m s) as [[a s']|p|]. Qed.

Lemma wp_weaken {A} (E' : Panic → Prop) (m : M S A) Q s :
  wp E' m Q s → (∀ p, E' p → E p) → wp E m Q s.
Proof. unfold wp. destruct (m s) as [[a s']|p|]; naive_solver. Qed.

Lemma wp_get Q (s : S) : Q s s → wp E get Q s.
Proof. done. Qed.

Lemma wp_gets {A} (f : S → A) Q s : Q (f s) s → wp E (gets f) Q s.
Proof. done. Qed.

Lemma wp_modify (f : S → S) Q s : Q tt (f s) → wp E (modify f) Q s.
Proof. done. Qed.

Lemma wp_step {A} (f : S → A * S) Q s : Q (f s).1 (f s).2 → wp E (step f) Q s.
Proof. unfold wp, step. by destruct (f s). Qed.

Lemma wp_unwrap {A} site (o : option A) Q (s : S) :
  (o = None → E (PUnwrap site)) → (∀ a, o = Some a → Q a s) → wp E (unwrap site o) Q s.
Proof. destruct o; unfold wp; simpl; naive_solver. Qed.

Lemma wp_assert site b Q (s : S) :
  (b = false → E (PAssert site)) → (b = true → Q tt s) → wp E (assert site b) Q s.
Proof. destruct b; unfold wp; simpl; naive_solver. Qed.

Lemma wp_when b (m : M S unit) Q s :
  (b = true → wp E m Q s) → (b = false → Q tt s) → wp E (when b m) Q s.
Proof. destruct b; simpl; naive_solver. Qed.

(** Rule of [for]: an invariant indexed by what is left to visit. *)
Lemma wp_for_each {A} (l : list A) body (I : list A → S → Prop) (s : S) :
  I l s →
  (∀ x l' s, I (x :: l') s → wp E (body x) (λ _ s', I l' s') s) →
  wp E (for_each l body) (λ _ s', I [] s') s.
Proof.
  intros HI Hstep. revert s HI. induction l as [|x l' IH]; intros s HI; simpl.
  { done. }
  apply wp_bind. eapply wp_mono; [by apply Hstep|]. intros ? s' HI'. by apply IH.
Qed.

Lemma wp_for_break {A} (l : list A) body (I : list A → S → Prop) (Q : S → Prop) (s : S) :
  I l s →
  (∀ s, I [] s → Q s) →
  (∀ x l' s, I (x :: l') s →
     wp E (body x) (λ c s', match c with Continue => I l' s' | Break => Q s' end) s) →
  wp E (for_break l body) (λ _ s', Q s') s.
Proof.
  intros HI Hnil Hstep. revert s HI. induction l as [|x l' IH]; intros s HI; simpl.
  { by apply Hnil. }
  apply wp_bind. eapply wp_mono; [by apply Hstep|].
  intros c s' HI'. destruct c; [by apply IH | done].
Qed.

Lemma wp_for_acc {A B} (l : list A) (b : B) body (I : list A → B → S → Prop)
    (Q : B → S → Prop) (s : S) :
  I l b s →
  (∀ b s, I [] b s → Q b s) →
  (∀ x l' b s, I (x :: l') b s →
     wp E (body x b) (λ cb s', match cb with
                               | (Continue, b') => I l' b' s'
                               | (Break, b') => Q b' s' end) s) →
  wp E (for_acc l b body) Q s.
Proof.
  intros HI Hnil Hstep. revert b s HI. induction l as [|x l' IH]; intros b s HI; simpl.
  { by apply Hnil. }
  apply wp_bind. eapply wp_mono; [by apply Hstep|].
  intros [[] b'] s' HI'; [by apply IH | done].
Qed.

(** Rule of [loop]: a measure that every round decreases bounds the fuel. *)
Lemma wp_loop_fuel body (I : S → Prop) (Q : S → Prop) (μ : S → nat) fuel (s : S) :
  I s → (μ s < fuel)%nat →
  (∀ s, I s → wp E body (λ c s', match c with
                               | Continue => I s' ∧ (μ s' < μ s)%nat
                               | Break => Q s' end) s) →
  wp E (loop_fuel fuel body) (λ _ s', Q s') s.
Proof.
  intros HI Hμ Hstep. revert s HI Hμ. induction fuel as [|n IH]; intros s HI Hμ; [lia|].
  simpl. apply wp_bind. eapply wp_mono; [by apply Hstep|].
  intros c s' Hc. destruct c; [|done]. destruct Hc as [HI' Hlt]. apply IH; [done|lia].
Qed.
End WpRules.

(** [wlp m Q s]: where [m] returns from [s], it does so with [Q]; for code that
    may run forever. *)
Definition wlp {S A} (m : M S A) (Q : A → S → Prop) (s : S) : Prop :=
  ∀ a s', m s = Ok (a, s') → Q a s'.

Section WlpRules.
Context {S : Type}.

Lemma wlp_wp {A} E (m : M S A) Q s : wp E m Q s → wlp m Q s.
Proof. unfold wp, wlp. intros Hm a s' Heq. by rewrite Heq in Hm. Qed.

Lemma wlp_bind {A B} (m : M S A) (f : A → M S B) Q s :
  wlp m (λ a s', wlp (f a) Q s') s → wlp (bindM m f) Q s.
Proof.
  unfold wlp, bindM. intros Hm b s'. destruct (m s) as [[a s1]|p|] eqn:Heq; [|done..]. by apply Hm.
Qed.

Lemma wlp_mono {A} (m : M S A) (Q Q' : A → S → Prop) s :
  wlp m Q s → (∀ a s', Q a s' → Q' a s') → wlp m Q' s.
Proof. unfold wlp. naive_solver. Qed.

(** Rule of [loop] where it may run forever. *)
Lemma wlp_loop_fuel body (I Q : S → Prop) fuel (s : S) :
  I s → (∀ s, I s → wlp body (λ c s', match c with Continue => I s' | Break => Q s' end) s) →
  wlp (loop_fuel fuel body) (λ _ s', Q s') s.
Proof.
  intros HI Hstep. revert s HI. induction fuel as [|n IH]; intros s HI; [by intros a s'|].
  simpl. apply wlp_bind. eapply wlp_mono; [by apply Hstep|]. intros [] s' Hs; [by apply IH|].
  by intros a s'' [= <- <-].
Qed.

Lemma wlp_when b (m : M S unit) Q s :
  (b = true → wlp m Q s) → (b = false → Q tt s) → wlp (when b m) Q s.
Proof. destruct b; intros Ht Hf; [by apply Ht|]. intros a s' [= <- <-]. by apply Hf. Qed.

(** Rule of [for]: an invariant indexed by what is left to visit. *)
Lemma wlp_for_each {A} (l : list A) body (I : list A → S → Prop) (s : S) :
  I l s →
  (∀ x l' s, I (x :: l') s → wlp (body x) (λ _ s', I l' s') s) →
  wlp (for_each l body) (λ _ s', I [] s') s.
Proof.
  intros HI Hstep. revert s HI. induction l as [|x l' IH]; intros s HI; simpl.
  { by intros a s' [= <- <-]. }
  apply wlp_bind. eapply wlp_mono; [by apply Hstep|]. intros ? s' HI'. by apply IH.
Qed.

(** Total correctness where [b] holds, partial correctness anyway. *)
Definition wpb {A} (b : bool) (E : Panic → Prop) (m : M S A) (Q : A → S → Prop) (s : S) : Prop :=
  if b then wp E m Q s else wlp m Q s.

Lemma wpb_wp {A} b E (m : M S A) Q s : wp E m Q s → wpb b E m Q s.
Proof. destruct b; [done|apply wlp_wp]. Qed.

Lemma wpb_bind {A B} b E (m : M S A) (f : A → M S B) Q s :
  wpb b E m (λ a s', wpb b E (f a) Q s') s → wpb b E (bindM m f) Q s.
Proof. destruct b; [apply wp_bind|apply wlp_bind]. Qed.

Lemma wpb_mono {A} b E (m : M S A) (Q Q' : A → S → Prop) s :
  wpb b E m Q s → (∀ a s', Q a s' → Q' a s') → wpb b E m Q' s.
Proof. destruct b; [apply wp_mono|apply wlp_mono]. Qed.

(** The fuel must be enough for total correctness only. *)
Lemma wpb_loop_fuel b E body (I Q : S → Prop) (μ : S → nat) fuel (s : S) :
  I s → (b = true → μ s < fuel)%nat →
  (∀ s, I s → wpb b E body (λ c s', match c with
                                    | Continue => I s' ∧ (μ s' < μ s)%nat
                                    | Break => Q s' end) s) →
  wpb b E (loop_fuel fuel body) (λ _ s', Q s') s.
Proof.
  intros HI Hμ Hstep. revert s HI Hμ. induction fuel as [|n IH]; intros s HI Hμ.
  { destruct b; [specialize (Hμ eq_refl); lia|by intros a s']. }
  simpl. apply wpb_bind. eapply wpb_mono; [by apply Hstep|].
  intros [] s' Hs; [|by apply wpb_wp]. destruct Hs as [HI' Hlt]. apply IH; [done|]. intros Hb. specialize (Hμ Hb). lia.
Qed.
End WlpRules.

(** ** Enough fuel

    [eventually E m Q s]: with enough fuel [m] is correct.  A computation that
    needs fuel can be followed by others when more fuel does not change what it
    does once it ends. *)
Definition eventually {S A} (E : Panic → Prop) (m : nat → M S A) (Q : A → S → Prop) (s : S) : Prop :=
  ∃ n, ∀ fuel, (n ≤ fuel)%nat → wp E (m fuel) Q s.

Definition stable {S A} (m : nat → M S A) : Prop :=
  ∀ n k s, (n ≤ k)%nat → m n s ≠ Hang → m k s = m n s.

Section Fuel.
Context {S : Type} (E : Panic → Prop).

Lemma eventually_const {A} (m : M S A) Q s : wp E m Q s → eventually E (λ _, m) Q s.
Proof. by exists O. Qed.

Lemma eventually_bind {A B} (m : nat → M S A) (f : A → nat → M S B) Q s :
  stable m → eventually E m (λ a s', eventually E (f a) Q s') s →
  eventually E (λ fuel, bindM (m fuel) (λ a, f a fuel)) Q s.
Proof.
  intros Hm [n Hn]. specialize (Hn n (le_n n)) as Hwp. unfold wp in Hwp.
  destruct (m n s) as [[a s']|p|] eqn:Heq; [| |done].
  - destruct Hwp as [n' Hn']. exists (n `max` n')%nat. intros fuel Hf. unfold wp, bindM.
    rewrite (Hm n fuel), Heq by (done || lia || by rewrite Heq). apply Hn'. lia.
  - exists n. intros fuel Hf. unfold wp, bindM. by rewrite (Hm n fuel), Heq by (done || by rewrite Heq).
Qed.

Lemma eventually_bind_const {A B} (m : M S A) (f : A → nat → M S B) Q s :
  wp E m (λ a s', eventually E (f a) Q s') s → eventually E (λ fuel, bindM m (λ a, f a fuel)) Q s.
Proof. intros Hm. apply (eventually_bind (λ _, m)); [by intros n k|by apply eventually_const]. Qed.

Lemma stable_loop_fuel (body : M S Flow) : stable (λ fuel, loop_fuel fuel body).
Proof.
  intros n. induction n as [|n IH]; intros k s Hk; [done|]. destruct k as [|k]; [lia|]. simpl.
  unfold bindM. destruct (body s) as [[[] s']|p|]; [|done..]. intros Hn. apply IH; [lia|done].
Qed.

Lemma stable_const {A} (m : M S A) : stable (λ _, m).
Proof. by intros n k s. Qed.

Lemma stable_bind {A B} (m : nat → M S A) (f : A → nat → M S B) :
  stable m → (∀ a, stable (f a)) → stable (λ fuel, bindM (m fuel) (λ a, f a fuel)).
Proof.
  intros Hm Hf n k s Hk. unfold bindM. destruct (m n s) as [[a s']|p|] eqn:Heq; [| |done].
  - rewrite (Hm n k), Heq by (done || by rewrite Heq). by apply Hf.
  - by rewrite (Hm n k), Heq by (done || by rewrite Heq).
Qed.

(** Two runs that end agree. *)
Lemma stable_agree {A} (m : nat → M S A) n k s x y : stable m → m n s = Ok x → m k s = Ok y → x = y.
Proof.
  intros Hm Hx Hy. destruct (Nat.le_ge_cases n k) as [Hk|Hk].
  - rewrite (Hm n k), Hx in Hy by (done || by rewrite Hx). by injection Hy.
  - rewrite (Hm k n), Hy in Hx by (done || by rewrite Hy). by injection Hx.
Qed.
End Fuel.

(** [wp] is monotone in its postcondition, so it can be used under rewriting. *)
#[global] Instance wp_proper {S A} E (m : M S A) :
  Proper (pointwise_relation A (pointwise_relation S impl) ==> eq ==> impl) (wp E m).
Proof. intros Q Q' HQ s s' <- Hwp. eapply wp_mono; [done|]. intros. by apply HQ. Qed.

(** ** Machine integers

    Unsigned integers of [w] bits are [Z]s in [0, 2^w).  Plain [+] and [-]
    follow the profile: with overflow checks they panic, without they wrap;
    [overflow_checks] is the profile's setting (Cargo.toml: off in [release],
    on in [paranoid] and in test builds). *)

Class Profile := overflow_checks : bool.

Definition U64_MAX : Z := 2 ^ 64 - 1.
Definition U8_MAX : Z := 2 ^ 8 - 1.

Definition is_u64 (z : Z) : Prop := 0 ≤ z ≤ U64_MAX.
Definition is_u8 (z : Z) : Prop := 0 ≤ z ≤ U8_MAX.

Section Arithmetic.
Context `{Profile}.

Definition checked_result (w : Z) (site : string) (z : Z) : Res Z :=
  if decide (0 ≤ z < 2 ^ w) then Ok z
  else if overflow_checks then Panicked (POverflow site) else Ok (z mod 2 ^ w).

Definition u64_add (site : string) (a b : Z) : Res Z := checked_result 64 site (a + b).
Definition u64_sub (site : string) (a b : Z) : Res Z := checked_result 64 site (a - b).
Definition u64_mul (site : string) (a b : Z) : Res Z := checked_result 64 site (a * b).
Definition u8_add (site : string) (a b : Z) : Res Z := checked_result 8 site (a + b).

Lemma wp_debug_assert {S} E site b Q (st : S) :
  b = true → Q tt st → wp E (when overflow_checks (assert site b)) Q st.
Proof. intros -> HQ. apply wp_when; [intros _|done]. by apply wp_assert. Qed.

Lemma checked_result_in w site z : 0 ≤ z < 2 ^ w → checked_result w site z = Ok z.
Proof. intros. unfold checked_result. by rewrite decide_True. Qed.

Lemma checked_result_panic w site z p :
  checked_result w site z = Panicked p → p = POverflow site.
Proof. unfold checked_result. case_decide; [done|]. destruct overflow_checks; naive_solver. Qed.

Lemma checked_result_no_hang w site z : checked_result w site z ≠ Hang.
Proof. unfold checked_result. case_decide; [done|]. by destruct overflow_checks. Qed.

Lemma checked_result_u64 site z v : checked_result 64 site z = Ok v → is_u64 v.
Proof.
  unfold checked_result, is_u64, U64_MAX. case_decide as Hz; [intros [= <-]; lia|].
  destruct overflow_checks; [done|]. intros [= <-].
  pose proof (Z.mod_pos_bound z (2 ^ 64)). lia.
Qed.

Lemma u64_sub_ok site a b : is_u64 a → 0 ≤ b ≤ a → u64_sub site a b = Ok (a - b).
Proof. intros Ha Hb. apply checked_result_in. unfold is_u64, U64_MAX in *. lia. Qed.

Lemma u64_add_ok site a b : 0 ≤ a → 0 ≤ b → a + b ≤ U64_MAX → u64_add site a b = Ok (a + b).
Proof. intros. apply checked_result_in. unfold U64_MAX in *. lia. Qed.
(** What is known of a computation on integers: it returns or overflows. *)
Definition overflows_only {A} (r : Res A) : Prop :=
  match r with
  | Ok _ => True
  | Panicked p => ∃ site, p = POverflow site
  | Hang => False
  end.

Lemma checked_result_overflows w site z : overflows_only (checked_result w site z).
Proof.
  unfold overflows_only. destruct (checked_result w site z) eqn:E; [done| |].
  - apply checked_result_panic in E as ->. by eexists.
  - by apply checked_result_no_hang in E.
Qed.

Lemma overflows_bind {A B} (r : Res A) (f : A → Res B) :
  overflows_only r → (∀ a, overflows_only (f a)) → overflows_only (a ← r; f a).
Proof. intros Hr Hf. by destruct r; [apply Hf|..]. Qed.
End Arithmetic.

(** The saturating and checked operations do not depend on the profile. *)
Definition saturating_add (a b : Z) : Z := Z.min (a + b) U64_MAX.
Definition saturating_sub (a b : Z) : Z := Z.max (a - b) 0.
Definition saturating_mul (a b : Z) : Z := Z.min (a * b) U64_MAX.
Definition checked_mul (a b : Z) : option Z :=
  if decide (a * b ≤ U64_MAX) then Some (a * b) else None.
Definition checked_div (a b : Z) : option Z :=
  if decide (b = 0) then None else Some (a / b).

(** ** Lists *)

Lemma sublist_fmap {A B} (f : A → B) l k : l `sublist_of` k → (f <$> l) `sublist_of` (f <$> k).
Proof. induction 1; simpl; [done|by apply sublist_skip|by apply sublist_cons]. Qed.

Lemma Forall_sublist_of {A} (P : A → Prop) l k : l `sublist_of` k → Forall P k → Forall P l.
Proof. induction 1; inversion 1; subst; auto. Qed.

Lemma elem_of_concat {A} (x : A) ls : x ∈ concat ls ↔ ∃ l, x ∈ l ∧ l ∈ ls.
Proof.
  rewrite list_elem_of_In, in_concat. split; intros (l & H1 & H2); exists l;
    rewrite ?list_elem_of_In in *; done.
Qed.

Lemma filter_split {A} (p : A → bool) (l : list A) :
  l ≡ₚ List.filter p l ++ List.filter (λ x, negb (p x)) l.
Proof.
  induction l as [|x l IH]; simpl; [done|]. destruct (p x); simpl; [by apply Permutation_cons|].
  rewrite <- Permutation_middle. by apply Permutation_cons.
Qed.

Lemma filter_sublist {A} (p : A → bool) (l : list A) : List.filter p l `sublist_of` l.
Proof.
  induction l as [|x l IH]; simpl; [done|]. destruct (p x); [by apply sublist_skip|by apply sublist_cons].
Qed.

Lemma list_filter_all {A} (P : A → Prop) `{∀ x, Decision (P x)} (l : list A) :
  (∀ x, x ∈ l → P x) → filter P l = l.
Proof.
  induction l as [|x l IH]; intros HP; [done|]. rewrite filter_cons, decide_True by (apply HP; by left).
  f_equal. apply IH. intros y Hy. apply HP. by right.
Qed.

Lemma filter_length_lt {A} (P Q : A → Prop) `{∀ x, Decision (P x)} `{∀ x, Decision (Q x)} (l : list A) x :
  (∀ y, P y → Q y) → x ∈ l → Q x → ¬ P x →
  (length (filter P l) < length (filter Q l))%nat.
Proof.
  intros HPQ Hx HQ HP. induction l as [|y l IH]; [by apply elem_of_nil in Hx|].
  assert (length (filter P l) ≤ length (filter Q l))%nat as Hle.
  { clear -HPQ. induction l as [|z l IH]; [done|]. rewrite !filter_cons.
    case_decide; case_decide; simpl; try lia. by exfalso; auto. }
  rewrite !filter_cons. apply elem_of_cons in Hx as [<-|Hx].
  - rewrite decide_False, decide_True by done. simpl. lia.
  - specialize (IH Hx). case_decide; case_decide; simpl; try lia. by exfalso; auto.
Qed.

(** ** Record update

    [r <| f := v |>] and [r <| f ::= g |>].  A record declares its [Eta]
    expansion once; the setter of a field is found by replacing the projection
    inside it. *)

Class Eta (R : Type) := eta : R → R.
Class Setter {R E : Type} (proj : R → E) := setter : (E → E) → R → R.

Ltac find_setter proj :=
  lazymatch type of proj with
  | ?R → ?E =>
      let inst := constr:(_ : Eta R) in
      let body := (let u := eval red in inst in u) in
      let p := eval pattern proj in body in
      lazymatch p with
      | ?ctx _ =>
          let t := eval cbv beta in (fun (f : E → E) => ctx (fun r => f (proj r))) in
          exact t
      end
  end.

#[global] Hint Extern 1 (Setter ?proj) => find_setter proj : typeclass_instances.

Definition set {R E : Type} (proj : R → E) {st : Setter proj} (f : E → E) (r : R) : R := setter f r.
Arguments set {R E} proj {st} f r /.
Arguments setter {R E} proj {Setter} f r /.

Notation "r <| f := v |>" := (set f (λ _, v) r)
  (at level 1, f at level 11, v at level 200) : rust_scope.
Notation "r <| f ::= g |>" := (set f g r)
  (at level 1, f at level 11, g at level 200) : rust_scope.
