(* ===== verification/F64.v ===== *)
(** * Binary64 floating point

    Rust's [f64], on the kernel's specification of IEEE 754 arithmetic
    (rounding to nearest even, one NaN), so that the auction engine's prices
    are computed with their rounding errors.  The precision of [ln] and [powf]
    is unspecified in Rust: they are parameters ([LibM]). *)

From Corelib Require Import SpecFloat.
From S2P Require Import Prelude.

Abbreviation f64 := spec_float (only parsing).

Definition f64_prec : Z := 53.
Definition f64_emax : Z := 1024.

(** ** Operations *)

Definition f64_add (x y : f64) : f64 := SFadd f64_prec f64_emax x y.
Definition f64_sub (x y : f64) : f64 := SFsub f64_prec f64_emax x y.
Definition f64_mul (x y : f64) : f64 := SFmul f64_prec f64_emax x y.
Definition f64_div (x y : f64) : f64 := SFdiv f64_prec f64_emax x y.
Definition f64_abs (x : f64) : f64 := SFabs x.

Definition f64_lt (x y : f64) : bool := SFltb x y.
Definition f64_ge (x y : f64) : bool := SFleb y x.

Definition f64_nan (x : f64) : bool := match x with S754_nan => true | _ => false end.

(** [f64::max] and [f64::min] answer the number when one operand is a NaN. *)
Definition f64_max (x y : f64) : f64 :=
  if f64_nan x then y else if f64_nan y then x else if f64_lt x y then y else x.
Definition f64_min (x y : f64) : f64 :=
  if f64_nan x then y else if f64_nan y then x else if f64_lt y x then y else x.

(** [f64::clamp], for [lo <= hi]. *)
Definition f64_clamp (lo hi x : f64) : f64 :=
  let x := if f64_lt x lo then lo else x in
  if f64_lt hi x then hi else x.

(** [z as f64], for an integer. *)
Definition f64_of_Z (z : Z) : f64 := binary_normalize f64_prec f64_emax z 0 false.

(** The decimal literal [n / d]: the double nearest to it (division rounds
    correctly and both integers are exact). *)
Definition f64_lit (n d : Z) : f64 := f64_div (f64_of_Z n) (f64_of_Z d).

Definition f64_zero : f64 := S754_zero false.
Definition f64_one : f64 := Eval vm_compute in f64_of_Z 1.
Definition f64_neg_infinity : f64 := S754_infinity true.

(** [x as u64]: towards zero, saturating, NaN to 0. *)
Definition f64_to_u64 (x : f64) : Z :=
  match x with
  | S754_zero _ | S754_nan => 0
  | S754_infinity s => if s then 0 else U64_MAX
  | S754_finite true _ _ => 0
  | S754_finite false m e => Z.min (Z.shiftl (Zpos m) e) U64_MAX
  end.

(** [Iterator::sum], which starts from [-0.0]. *)
Definition f64_sum (l : list f64) : f64 := fold_left f64_add l (S754_zero true).

Class LibM := { f64_ln : f64 → f64; f64_powf : f64 → f64 → f64 }.

#[global] Instance f64_eq_dec : EqDecision f64.
Proof. solve_decision. Defined.

(** ** Order *)

Lemma f64_lt_irrefl x : f64_lt x x = false.
Proof.
  unfold f64_lt, SFltb. destruct x as [s|s| |s m e]; [done|by destruct s|done|].
  unfold SFcompare. rewrite Z.compare_refl, Pos.compare_cont_refl. by destruct s.
Qed.

Lemma f64_clamp_range lo hi x :
  f64_lt hi lo = false →
  f64_lt (f64_clamp lo hi x) lo = false ∧ f64_lt hi (f64_clamp lo hi x) = false.
Proof.
  intros Hb. unfold f64_clamp. destruct (f64_lt x lo) eqn:E.
  - rewrite Hb. by rewrite f64_lt_irrefl.
  - destruct (f64_lt hi x) eqn:E2; [|done]. by rewrite f64_lt_irrefl, Hb.
Qed.

Lemma f64_to_u64_range x : is_u64 (f64_to_u64 x).
Proof.
  unfold is_u64, f64_to_u64, U64_MAX. destruct x as [|[]| |[] m e]; try lia.
  pose proof (Z.shiftl_nonneg (Zpos m) e). lia.
Qed.

(** ** Results are rounded to 53 bits *)

Definition narrow (x : f64) : Prop :=
  match x with S754_finite _ m _ => Zpos m < 2 ^ 53 | _ => True end.

Lemma digits2_pos_spec m : Zpos m < 2 ^ Zpos (digits2_pos m).
Proof. induction m as [m IH|m IH|]; simpl; rewrite ?Pos2Z.inj_succ, ?Z.pow_succ_r by lia; lia. Qed.

Lemma shr_1_half r : 0 ≤ shr_m r → shr_m (shr_1 r) = shr_m r / 2.
Proof.
  destruct r as [[|[p|p|]|p] b s]; simpl; intros Hr; try done; try lia.
  - apply (Z.div_unique _ 2 _ 1); lia.
  - apply (Z.div_unique _ 2 _ 0); lia.
Qed.

Lemma iter_shr_1 p r : 0 ≤ shr_m r → shr_m (SpecFloat.iter_pos shr_1 p r) = shr_m r / 2 ^ Zpos p.
Proof.
  assert (∀ a b c : Z, 0 ≤ a → 0 ≤ b → 0 ≤ c → a / 2 ^ b / 2 ^ c = a / 2 ^ (b + c)) as Hdd.
  { intros a b c Ha Hb Hc. rewrite Z.pow_add_r by lia. rewrite Z.div_div; [done|lia|].
    apply Z.pow_pos_nonneg; lia. }
  assert (∀ a b, 0 ≤ a → 0 ≤ b → 0 ≤ a / 2 ^ b) as Hpos.
  { intros a b Ha Hb. apply Z.div_pos; [done|]. apply Z.pow_pos_nonneg; lia. }
  revert r. induction p as [p IH|p IH|]; intros r Hr; simpl.
  - pose proof (shr_1_half r Hr) as H1. pose proof (Hpos (shr_m r) 1 Hr ltac:(lia)) as H0.
    change (2 ^ 1) with 2 in H0.
    rewrite IH, IH, H1; rewrite ?IH; rewrite ?H1; auto with lia.
    change 2 with (2 ^ 1) at 1. rewrite !Hdd by (auto; lia). f_equal. f_equal. lia.
  - rewrite IH, IH by (rewrite ?IH; auto with lia). rewrite Hdd by lia. f_equal. f_equal. lia.
  - rewrite shr_1_half by done. done.
Qed.

Lemma shr_fexp_narrow m e l :
  0 ≤ m → 0 ≤ shr_m (shr_fexp f64_prec f64_emax m e l).1 < 2 ^ 53.
Proof.
  intros Hm. unfold shr_fexp.
  assert (shr_m (shr_record_of_loc m l) = m) as Hrec by (by destruct l as [|[]]).
  set (n := fexp f64_prec f64_emax (Zdigits2 m + e) - e).
  assert (Zdigits2 m - 53 ≤ n) as Hn by (unfold n, fexp, f64_prec; lia).
  assert (m < 2 ^ Zdigits2 m) as Hd.
  { destruct m as [|m|m]; simpl; [lia|apply digits2_pos_spec|lia]. }
  assert (0 ≤ Zdigits2 m) by (destruct m; simpl; lia).
  clearbody n. destruct n as [|p|p]; simpl.
  - rewrite Hrec. split; [done|]. eapply Z.lt_le_trans; [done|]. apply Z.pow_le_mono_r; lia.
  - rewrite iter_shr_1, Hrec by (by rewrite Hrec). split.
    + apply Z.div_pos; [done|]. apply Z.pow_pos_nonneg; lia.
    + apply Z.div_lt_upper_bound; [apply Z.pow_pos_nonneg; lia|].
      rewrite <- Z.pow_add_r by lia. eapply Z.lt_le_trans; [done|]. apply Z.pow_le_mono_r; lia.
  - rewrite Hrec. split; [done|]. eapply Z.lt_le_trans; [done|]. apply Z.pow_le_mono_r; lia.
Qed.

Lemma round_nearest_even_nonneg m l : 0 ≤ m → 0 ≤ round_nearest_even m l.
Proof. destruct l as [|[]]; simpl; try destruct (Z.even m); lia. Qed.

Lemma binary_round_aux_narrow s m e l :
  0 ≤ m → narrow (binary_round_aux f64_prec f64_emax s m e l).
Proof.
  intros Hm. unfold binary_round_aux.
  pose proof (shr_fexp_narrow m e l Hm) as H1.
  destruct (shr_fexp f64_prec f64_emax m e l) as [r1 e1]. simpl in H1.
  pose proof (shr_fexp_narrow (round_nearest_even (shr_m r1) (loc_of_shr_record r1)) e1 loc_Exact
    (round_nearest_even_nonneg _ _ (proj1 H1))) as H2.
  destruct (shr_fexp f64_prec f64_emax _ e1 loc_Exact) as [r2 e2]. simpl in H2.
  destruct (shr_m r2) as [|p|p] eqn:Hr2; [done| |done]. case_match; [|done].
  apply H2.
Qed.

Lemma binary_normalize_narrow z e s : narrow (binary_normalize f64_prec f64_emax z e s).
Proof.
  destruct z as [|p|p]; simpl; [done|..]; unfold binary_round; case_match; by apply binary_round_aux_narrow.
Qed.

Lemma f64_of_Z_narrow z : narrow (f64_of_Z z).
Proof. apply binary_normalize_narrow. Qed.

Lemma f64_add_narrow x y : narrow x → narrow y → narrow (f64_add x y).
Proof.
  unfold f64_add, SFadd. destruct x as [s|s| |s m e], y as [s'|s'| |s' m' e']; try done.
  1-2: by destruct s, s'.
  intros _ _. apply binary_normalize_narrow.
Qed.

Lemma f64_mul_narrow x y : narrow (f64_mul x y).
Proof.
  unfold f64_mul, SFmul. destruct x as [s|s| |s m e], y as [s'|s'| |s' m' e']; try done.
  by apply binary_round_aux_narrow.
Qed.

Lemma f64_max_narrow x y : narrow x → narrow y → narrow (f64_max x y).
Proof. unfold f64_max. intros. by repeat case_match. Qed.

(** Below [2^64] there is room: the conversion does not saturate and does not
    reach the two largest [u64]s. *)
Lemma f64_to_u64_below x :
  narrow x → f64_ge x (f64_of_Z (2 ^ 64)) = false → 0 ≤ f64_to_u64 x ≤ 2 ^ 64 - 2 ^ 11.
Proof.
  intros Hx. change (f64_of_Z (2 ^ 64)) with (S754_finite false (2 ^ 52) 12).
  destruct x as [|[]| |[] m e]; simpl in *; try (cbn; lia); try done.
  unfold f64_ge, SFleb, SFcompare. destruct (Z.compare_spec 12 e) as [<-|He|He]; intros Hc.
  - fold (Pos.compare (2 ^ 52) m) in Hc. destruct (Pos.compare_spec (2 ^ 52) m) as [Hm|Hm|Hm]; try done.
    rewrite Z.shiftl_mul_pow2 by lia. unfold U64_MAX. lia.
  - done.
  - split; [pose proof (Z.shiftl_nonneg (Zpos m) e); unfold U64_MAX; lia|].
    etransitivity; [apply Z.le_min_l|]. destruct (decide (0 ≤ e)) as [He0|He0].
    + rewrite Z.shiftl_mul_pow2 by lia. pose proof (Z.pow_le_mono_r 2 e 11). nia.
    + rewrite Z.shiftl_div_pow2 by lia. etransitivity; [apply Z.div_le_upper_bound with (q := Zpos m)|lia].
      * apply Z.pow_pos_nonneg; lia.
      * pose proof (Z.pow_pos_nonneg 2 (- e)). nia.
Qed.
