(* ===== verification/BTreeSet.v ===== *)
(** * Ordered sets ([std::collections::BTreeSet]) and Rust's [Ord]

    A [BTreeSet] is modelled by the list of its elements in increasing order;
    the operations are those the schedulers call.  The lemmas give each
    operation's effect as a set and as a permutation, and show that the order
    is kept. *)

From S2P Require Import Prelude.
From Stdlib Require Import Sorting.Sorted.

(** ** [Ord] *)

Class RustOrd (A : Type) := rcmp : A → A → comparison.

Class RustOrdLaws (A : Type) `{RustOrd A} := {
  rcmp_eq : ∀ x y : A, rcmp x y = Eq ↔ x = y;
  rcmp_opp : ∀ x y : A, rcmp y x = CompOpp (rcmp x y);
  rcmp_trans : ∀ x y z : A, rcmp x y = Lt → rcmp y z = Lt → rcmp x z = Lt;
}.

Definition rlt `{RustOrd A} (x y : A) : Prop := rcmp x y = Lt.
Definition rle `{RustOrd A} (x y : A) : Prop := rcmp x y ≠ Gt.

#[global] Instance rlt_dec `{RustOrd A} (x y : A) : Decision (rlt x y).
Proof. unfold rlt. solve_decision. Defined.

(** [Ordering::then_with]: how derived and hand-written lexicographic orders
    are put together. *)
Definition then_with (c d : comparison) : comparison :=
  match c with Eq => d | _ => c end.

(** Lexicographic comparison of slices, as [Vec]'s [Ord] does. *)
Fixpoint slice_cmp `{RustOrd A} (l k : list A) : comparison :=
  match l, k with
  | [], [] => Eq
  | [], _ :: _ => Lt
  | _ :: _, [] => Gt
  | x :: l', y :: k' => then_with (rcmp x y) (slice_cmp l' k')
  end.

#[export] Instance Z_ord : RustOrd Z := Z.compare.
#[export] Instance N_ord : RustOrd N := N.compare.

#[export] Instance Z_ord_laws : RustOrdLaws Z.
Proof.
  split; unfold rcmp, Z_ord.
  - apply Z.compare_eq_iff.
  - intros. apply Z.compare_antisym.
  - intros x y z. rewrite !Z.compare_lt_iff. lia.
Qed.

#[export] Instance N_ord_laws : RustOrdLaws N.
Proof.
  split; unfold rcmp, N_ord.
  - apply N.compare_eq_iff.
  - intros. apply N.compare_antisym.
  - intros x y z. rewrite !N.compare_lt_iff. lia.
Qed.

#[export] Instance list_ord `{RustOrd A} : RustOrd (list A) := slice_cmp.

Section Lexicographic.
(** Laws of lexicographic composition, for one pair of components. *)
Lemma then_with_eq c d : then_with c d = Eq ↔ c = Eq ∧ d = Eq.
Proof. destruct c, d; naive_solver. Qed.

Lemma then_with_opp c d : CompOpp (then_with c d) = then_with (CompOpp c) (CompOpp d).
Proof. by destruct c, d. Qed.

Lemma then_with_lt c d : then_with c d = Lt ↔ c = Lt ∨ (c = Eq ∧ d = Lt).
Proof. destruct c, d; naive_solver. Qed.

Context `{RustOrdLaws A}.

Lemma rcmp_refl (x : A) : rcmp x x = Eq.
Proof. by apply rcmp_eq. Qed.

#[export] Instance list_ord_laws : RustOrdLaws (list A).
Proof.
  split; unfold rcmp, list_ord.
  - induction x as [|a x IH]; intros [|b y]; simpl; try done.
    rewrite then_with_eq, rcmp_eq, IH. naive_solver.
  - induction x as [|a x IH]; intros [|b y]; simpl; try done.
    by rewrite then_with_opp, IH, (rcmp_opp a b).
  - induction x as [|a x IH]; intros [|b y] [|c z]; simpl; try done.
    rewrite !then_with_lt. intros [?|[Hab ?]] [?|[Hbc ?]].
    + left. by eapply rcmp_trans.
    + left. apply rcmp_eq in Hbc. by subst.
    + left. apply rcmp_eq in Hab. by subst.
    + right. apply rcmp_eq in Hab, Hbc. subst. split; [apply rcmp_refl | by eapply IH].
Qed.

#[export] Instance rlt_strict : StrictOrder (rlt (A := A)).
Proof.
  split.
  - intros x Hx. unfold rlt in Hx. by rewrite rcmp_refl in Hx.
  - intros x y z. apply rcmp_trans.
Qed.

Lemma rlt_irrefl (x : A) : ¬ rlt x x.
Proof. apply irreflexivity, _. Qed.

Lemma rcmp_gt (x y : A) : rcmp x y = Gt ↔ rlt y x.
Proof. unfold rlt. rewrite (rcmp_opp x y). by destruct (rcmp x y). Qed.

Lemma rlt_total (x y : A) : rlt x y ∨ x = y ∨ rlt y x.
Proof.
  destruct (rcmp x y) eqn:E.
  - right; left. by apply rcmp_eq.
  - by left.
  - right; right. by apply rcmp_gt.
Qed.

Lemma rle_lt_eq (x y : A) : rle x y ↔ rlt x y ∨ x = y.
Proof.
  unfold rle. rewrite rcmp_gt. pose proof (rlt_total x y) as Ht.
  split; [tauto|]. intros [Hxy|<-] Hyx; [|by eapply rlt_irrefl].
  eapply rlt_irrefl. by transitivity y.
Qed.
End Lexicographic.

(** ** The set *)

Section BTreeSet.
Context `{RustOrd A}.

Definition sorted (l : list A) : Prop := StronglySorted rlt l.

Definition btree_contains (x : A) (l : list A) : bool :=
  existsb (λ y, match rcmp x y with Eq => true | _ => false end) l.

Fixpoint insert_sorted (x : A) (l : list A) : list A :=
  match l with
  | [] => [x]
  | y :: l' =>
      match rcmp x y with
      | Lt => x :: l
      | Eq => l
      | Gt => y :: insert_sorted x l'
      end
  end.

(** [insert] answers whether the element is new. *)
Definition btree_insert (x : A) (l : list A) : bool * list A :=
  (negb (btree_contains x l), insert_sorted x l).

Fixpoint remove_sorted (x : A) (l : list A) : list A :=
  match l with
  | [] => []
  | y :: l' =>
      match rcmp x y with
      | Eq => l'
      | _ => y :: remove_sorted x l'
      end
  end.

(** [remove] answers whether the element was there. *)
Definition btree_remove (x : A) (l : list A) : bool * list A :=
  (btree_contains x l, remove_sorted x l).

Definition btree_last (l : list A) : option A := last l.

Definition btree_pop_first (l : list A) : option (A * list A) :=
  match l with
  | [] => None
  | x :: l' => Some (x, l')
  end.

Definition btree_pop_last (l : list A) : option (A * list A) :=
  match last l with
  | None => None
  | Some x => Some (x, removelast l)
  end.

(** [range((Unbounded, Excluded(x))).next_back()]. *)
Definition btree_below (x : A) (l : list A) : option A :=
  last (filter (λ y, rlt y x) l).

(** [extract_if(.., p)]: what is taken out, and what stays. *)
Definition btree_extract_if (p : A → bool) (l : list A) : list A * list A :=
  (List.filter p l, List.filter (λ x, negb (p x)) l).
End BTreeSet.

Section BTreeSetFacts.
Context `{RustOrdLaws A}.
Implicit Types (x y : A) (l : list A).

Lemma btree_contains_spec x l : btree_contains x l = true ↔ x ∈ l.
Proof.
  unfold btree_contains. rewrite existsb_exists. setoid_rewrite <- list_elem_of_In.
  split.
  - intros (y & Hy & Hc). destruct (rcmp x y) eqn:E; try done.
    apply rcmp_eq in E. by subst.
  - intros Hx. exists x. by rewrite rcmp_refl.
Qed.

Lemma btree_contains_false x l : btree_contains x l = false ↔ x ∉ l.
Proof. rewrite <- not_true_iff_false, btree_contains_spec. done. Qed.

Lemma sorted_inv x l : sorted (x :: l) → sorted l ∧ ∀ y, y ∈ l → rlt x y.
Proof.
  intros Hs. apply StronglySorted_inv in Hs as [Hs Hall]. split; [done|].
  intros y Hy. rewrite Forall_forall in Hall. auto.
Qed.

Lemma sorted_cons x l : sorted l → (∀ y, y ∈ l → rlt x y) → sorted (x :: l).
Proof. intros. constructor; [done|]. by apply Forall_forall. Qed.

Lemma sorted_nil : sorted (A := A) [].
Proof. constructor. Qed.

Lemma sorted_NoDup l : sorted l → NoDup l.
Proof.
  induction l as [|x l IH]; intros Hs; constructor.
  - apply sorted_inv in Hs as [_ Hx]. intros Hin. by eapply rlt_irrefl, Hx.
  - apply IH. by apply sorted_inv in Hs as [? _].
Qed.

Lemma elem_of_insert_sorted x y l : y ∈ insert_sorted x l ↔ y = x ∨ y ∈ l.
Proof.
  induction l as [|z l IH]; simpl; [set_solver|].
  destruct (rcmp x z) eqn:E; [apply rcmp_eq in E; subst| |]; set_solver.
Qed.

Lemma insert_sorted_sorted x l : sorted l → sorted (insert_sorted x l).
Proof.
  induction l as [|z l IH]; intros Hs; simpl.
  { apply sorted_cons; [done | set_solver]. }
  pose proof (sorted_inv _ _ Hs) as [Hl Hz].
  destruct (rcmp x z) eqn:E; [done| |].
  - apply sorted_cons; [done|]. intros y [->|Hy]%elem_of_cons; [done|].
    transitivity z; [done | auto].
  - apply rcmp_gt in E. apply sorted_cons; [auto|].
    intros y [->|Hy]%elem_of_insert_sorted; auto.
Qed.

Lemma insert_sorted_Permutation x l : x ∉ l → insert_sorted x l ≡ₚ x :: l.
Proof.
  induction l as [|z l IH]; intros Hx; simpl; [done|].
  destruct (rcmp x z) eqn:E.
  - apply rcmp_eq in E. set_solver.
  - done.
  - rewrite IH by set_solver. apply Permutation_swap.
Qed.

Lemma length_insert_sorted x l : x ∉ l → length (insert_sorted x l) = S (length l).
Proof. intros Hx. by rewrite (insert_sorted_Permutation x l Hx). Qed.

Lemma insert_sorted_present x l : sorted l → x ∈ l → insert_sorted x l = l.
Proof.
  induction l as [|z l IH]; intros Hs Hx; [set_solver|]. simpl.
  pose proof (sorted_inv _ _ Hs) as [Hl Hz].
  apply elem_of_cons in Hx as [->|Hx]; [by rewrite rcmp_refl|].
  specialize (Hz x Hx). apply rcmp_gt in Hz. by rewrite Hz, IH.
Qed.

Lemma remove_sorted_absent x l : x ∉ l → remove_sorted x l = l.
Proof.
  induction l as [|z l IH]; intros Hx; simpl; [done|].
  destruct (rcmp x z) eqn:E; [apply rcmp_eq in E; set_solver| |]; rewrite IH; set_solver.
Qed.

Lemma remove_sorted_Permutation x l : x ∈ l → l ≡ₚ x :: remove_sorted x l.
Proof.
  induction l as [|z l IH]; intros Hx; simpl; [set_solver|].
  destruct (rcmp x z) eqn:E.
  - apply rcmp_eq in E. by subst.
  - rewrite IH at 1; [apply Permutation_swap|].
    apply elem_of_cons in Hx as [->|]; [|done]. by rewrite rcmp_refl in E.
  - rewrite IH at 1; [apply Permutation_swap|].
    apply elem_of_cons in Hx as [->|]; [|done]. by rewrite rcmp_refl in E.
Qed.

Lemma remove_sorted_sublist x l : remove_sorted x l `sublist_of` l.
Proof.
  induction l as [|z l IH]; simpl; [done|].
  destruct (rcmp x z); [by apply sublist_cons | by apply sublist_skip..].
Qed.

Lemma sorted_sublist l k : k `sublist_of` l → sorted l → sorted k.
Proof.
  induction 1 as [|x k l Hk IH|x k l Hk IH]; intros Hs; [done| |];
    apply sorted_inv in Hs as [Hl Hx].
  - apply sorted_cons; [auto|]. intros y Hy. apply Hx.
    by eapply elem_of_sublist.
  - auto.
Qed.

Lemma remove_sorted_sorted x l : sorted l → sorted (remove_sorted x l).
Proof. apply sorted_sublist, remove_sorted_sublist. Qed.

Lemma elem_of_remove_other x y l : y ∈ l → y ≠ x → y ∈ remove_sorted x l.
Proof.
  intros Hy Hne. induction l as [|z l IH]; [done|]. simpl. apply elem_of_cons in Hy as [->|Hy].
  - destruct (rcmp x z) eqn:E; [apply rcmp_eq in E; by subst|by left..].
  - destruct (rcmp x z); [done|by right; apply IH..].
Qed.

Lemma elem_of_remove_sorted x y l :
  sorted l → y ∈ remove_sorted x l ↔ y ∈ l ∧ y ≠ x.
Proof.
  intros Hs. destruct (decide (btree_contains x l = true)) as [Hc|Hc].
  - apply btree_contains_spec in Hc. pose proof (remove_sorted_Permutation x l Hc) as Hp.
    pose proof (sorted_NoDup _ Hs) as Hnd. rewrite Hp in Hnd.
    apply NoDup_cons in Hnd as [Hx _]. rewrite Hp at 2. set_solver.
  - apply not_true_is_false, btree_contains_false in Hc.
    rewrite remove_sorted_absent by done. set_solver.
Qed.

(** The last element is the greatest. *)
Lemma sorted_app_inv l k x y : sorted (l ++ k) → x ∈ l → y ∈ k → rlt x y.
Proof.
  induction l as [|z l IH]; simpl; intros Hs Hx Hy; [set_solver|].
  apply sorted_inv in Hs as [Hs Hz]. apply elem_of_cons in Hx as [->|Hx]; [|auto].
  apply Hz. set_solver.
Qed.

Lemma removelast_last l x : last l = Some x → l = removelast l ++ [x].
Proof.
  intros Hl. apply last_Some in Hl as [k ->]. by rewrite removelast_last.
Qed.

Lemma last_is_max l x : sorted l → last l = Some x → ∀ y, y ∈ l → rle y x.
Proof.
  intros Hs [k ->]%last_Some y Hy. apply rle_lt_eq.
  apply elem_of_app in Hy as [Hy|Hy]; [left|right; set_solver].
  eapply sorted_app_inv; [done..|set_solver].
Qed.

Lemma removelast_sublist l : removelast l `sublist_of` l.
Proof.
  destruct (last l) as [x|] eqn:E.
  - rewrite (removelast_last l x E) at 2. by apply sublist_inserts_r.
  - apply last_None in E. by subst.
Qed.

Lemma btree_below_Some x l y : btree_below x l = Some y → y ∈ l ∧ rlt y x.
Proof.
  unfold btree_below. intros Hl%last_Some_elem_of.
  apply list_elem_of_filter in Hl. tauto.
Qed.

(** How many elements are below [c]. *)
Definition below_count (c : A) (l : list A) : nat := length (filter (λ y, rlt y c) l).

(** Each step of a walk with [btree_below] goes strictly down. *)
Lemma btree_below_count c c' l :
  btree_below c l = Some c' → (below_count c' l < below_count c l)%nat.
Proof.
  intros [Hin Hlt]%btree_below_Some. unfold below_count. apply (filter_length_lt _ _ _ c').
  - intros y Hy. by etransitivity.
  - done.
  - done.
  - apply rlt_irrefl.
Qed.
End BTreeSetFacts.

(** Order facts are found by [eauto with btree]. *)
Create HintDb btree.
#[export] Hint Resolve sorted_nil insert_sorted_sorted remove_sorted_sorted : btree.
