(* ===== verification/Types.v ===== *)
(** * Data shared by the components

    [PriorityId] (schedulers/common/src/shared.rs), [BundleId] (declared alike
    in both schedulers), the Jito updates (common/src/jito/jito_thread.rs) and
    the views of third-party values that the schedulers look at: a transaction
    in the bridge, a progress message, a worker's response. *)

From S2P Require Import Prelude BTreeSet.

(** Opaque identifiers of the Solana and Agave crates: only equality (and, for
    transaction keys, the order) is used. *)
Abbreviation Pubkey := N (only parsing).
Abbreviation TransactionKey := N (only parsing).
Abbreviation Signature := N (only parsing).
Abbreviation Hash := N (only parsing).
(** A [u8] is a [Z] in [0, 256). *)
Abbreviation u8s := (list Z) (only parsing).

(** ** [PriorityId] *)

Record PriorityId := { priority : Z; cost : Z; key : TransactionKey }.

#[export] Instance PriorityId_eta : Eta PriorityId := λ p,
  {| priority := priority p; cost := cost p; key := key p |}.

#[export] Instance PriorityId_eq_dec : EqDecision PriorityId.
Proof. solve_decision. Defined.

(** [impl Ord for PriorityId]. *)
Definition PriorityId_cmp (a b : PriorityId) : comparison :=
  then_with (then_with (rcmp (priority a) (priority b)) (rcmp (cost a) (cost b)))
            (rcmp (key a) (key b)).

#[export] Instance PriorityId_ord : RustOrd PriorityId := PriorityId_cmp.

(** ** [BundleId]: the derived order compares the fields in turn. *)

Record BundleId := {
  b_priority : Z;
  b_cost : Z;
  received_at : Z;
  keys : list TransactionKey;
}.

#[export] Instance BundleId_eq_dec : EqDecision BundleId.
Proof. solve_decision. Defined.

Definition BundleId_cmp (a b : BundleId) : comparison :=
  then_with (rcmp (b_priority a) (b_priority b))
    (then_with (rcmp (b_cost a) (b_cost b))
      (then_with (rcmp (received_at a) (received_at b)) (rcmp (keys a) (keys b)))).

#[export] Instance BundleId_ord : RustOrd BundleId := BundleId_cmp.

(** ** Jito updates *)

Record BuilderConfig := { builder_key : Pubkey; commission : Z }.
Record TipConfig := { tip_receiver : Pubkey; block_builder : Pubkey }.

Inductive JitoUpdate :=
| JBuilderConfig (c : BuilderConfig)
| JTipConfig (c : TipConfig)
| JRecentBlockhash (h : Hash)
| JPacket (p : u8s)
| JBundle (b : list u8s).

(** ** Views of third-party values *)

(** A compiled instruction: indices of its accounts, and its data. *)
Record InstructionView := { ix_accounts : list Z; ix_data : u8s }.

(** What [SanitizedTransactionView] shows of a transaction.  [tv_raw] stands
    for the rest of it, which only third-party code looks at. *)
Record TransactionView := {
  tv_signatures : list Signature;
  tv_static_account_keys : list Pubkey;
  tv_program_instructions : list (Pubkey * InstructionView);
  tv_raw : u8s;
}.

(** [TransactionState]: the transaction, its account locks (with [true] for a
    writable account) and whether it is a simple vote. *)
Record TransactionState := {
  data : TransactionView;
  locks : list (Pubkey * bool);
  is_simple_vote : bool;
}.

Record ProgressMessage := {
  leader_state : Z;
  current_slot : Z;
  next_leader_slot : Z;
  remaining_cost_units : Z;
  current_slot_progress : Z;
}.

Record CheckResponse := {
  parsing_and_sanitization_flags : Z;
  resolve_flags : Z;
  status_check_flags : Z;
  fee_payer_balance_flags : Z;
}.

Record ExecutionResponse := { execution_slot : Z; not_included_reason : Z }.

Inductive WorkerAction :=
| Unprocessed
| Check_ (rep : CheckResponse) (resolved_keys : option (list Pubkey))
| Execute_ (rep : ExecutionResponse).

Record WorkerResponse := { wr_meta : PriorityId; wr_response : WorkerAction }.

Inductive TxDecision := Keep | Drop.

Record KeyedTransactionMeta := { km_key : TransactionKey; km_meta : PriorityId }.

#[export] Instance KeyedTransactionMeta_eq_dec : EqDecision KeyedTransactionMeta.
Proof. solve_decision. Defined.

Record ScheduleBatch := {
  sb_worker : nat;
  sb_transactions : list KeyedTransactionMeta;
  sb_max_working_slot : Z;
  sb_flags : Z;
}.

(** What [crossbeam_channel::Receiver::try_recv] answers. *)
Inductive TryRecv := Received (u : JitoUpdate) | Empty | Disconnected.

(** ** The orders are total and agree with equality *)

#[export] Instance PriorityId_ord_laws : RustOrdLaws PriorityId.
Proof.
  split; unfold rcmp, PriorityId_ord, PriorityId_cmp.
  - intros [] []; simpl. rewrite !then_with_eq, !rcmp_eq. naive_solver.
  - intros [p1 c1 k1] [p2 c2 k2]; simpl.
    by rewrite !then_with_opp, (rcmp_opp p1 p2), (rcmp_opp c1 c2), (rcmp_opp k1 k2).
  - intros [p1 c1 k1] [p2 c2 k2] [p3 c3 k3]; simpl.
    rewrite !then_with_lt, !then_with_eq, !rcmp_eq.
    unfold rcmp, Z_ord, N_ord. rewrite !Z.compare_lt_iff, !N.compare_lt_iff. lia.
Qed.

#[export] Instance BundleId_ord_laws : RustOrdLaws BundleId.
Proof.
  split; unfold rcmp, BundleId_ord, BundleId_cmp.
  - intros [] []; simpl. rewrite !then_with_eq, !rcmp_eq. naive_solver.
  - intros [p1 c1 r1 k1] [p2 c2 r2 k2]; simpl.
    by rewrite !then_with_opp, (rcmp_opp p1 p2), (rcmp_opp c1 c2), (rcmp_opp r1 r2), (rcmp_opp k1 k2).
  - intros [p1 c1 r1 k1] [p2 c2 r2 k2] [p3 c3 r3 k3]; simpl.
    rewrite !then_with_lt, !rcmp_eq.
    pose proof (rcmp_trans k1 k2 k3) as Hk.
    unfold rcmp, Z_ord in *. rewrite !Z.compare_lt_iff in *. intuition lia.
Qed.
