(* ===== verification/Events.v ===== *)
(** * Observability (schedulers/common/src/events, and the [BatchMetrics] of
    the schedulers)

    The events the schedulers emit with their per-slot counters, and the names
    under which the metrics are registered.  The channel the events go to is
    behind [w_events_try_send] of [Externals]. *)

From S2P Require Import Prelude Types.

(** ** model.rs *)

Inductive TransactionSource := Tpu | Jito.

(** [#[repr(u32)]]; serialized as its discriminant. *)
Inductive CheckFailure := ParseOrSanitize | AccountResolution | StatusCheck.

Definition CheckFailure_repr (f : CheckFailure) : Z :=
  match f with
  | ParseOrSanitize => 1
  | AccountResolution => 2
  | StatusCheck => 3
  end.

Inductive EvictReason := UncheckedCapacity | CheckedCapacity.

Inductive TransactionAction :=
| Ingest (source : TransactionSource) (bundle : option string)
| CheckOk
| CheckErr (reason : CheckFailure)
| ExecuteReq
| ExecuteOk
| ExecuteErr (reason : Z)
| ExecuteUnprocessed
| Evict (reason : EvictReason).

Record SlotStatsEvent := {
  was_leader_ready : bool;
  ingest_tpu_ok : Z;
  ingest_tpu_err : Z;
  ingest_tpu_evict : Z;
  ingest_tpu_filtered : Z;
  ingest_custom_ok : Z;
  ingest_custom_err : Z;
  ingest_custom_filtered : Z;
  check_requested : Z;
  check_ok : Z;
  check_err : Z;
  check_evict : Z;
  check_filtered : Z;
  execute_requested : Z;
  execute_unprocessed : Z;
  execute_ok : Z;
  execute_err : Z;
}.

#[export] Instance SlotStatsEvent_eta : Eta SlotStatsEvent := λ s, {|
  was_leader_ready := was_leader_ready s;
  ingest_tpu_ok := ingest_tpu_ok s;
  ingest_tpu_err := ingest_tpu_err s;
  ingest_tpu_evict := ingest_tpu_evict s;
  ingest_tpu_filtered := ingest_tpu_filtered s;
  ingest_custom_ok := ingest_custom_ok s;
  ingest_custom_err := ingest_custom_err s;
  ingest_custom_filtered := ingest_custom_filtered s;
  check_requested := check_requested s;
  check_ok := check_ok s;
  check_err := check_err s;
  check_evict := check_evict s;
  check_filtered := check_filtered s;
  execute_requested := execute_requested s;
  execute_unprocessed := execute_unprocessed s;
  execute_ok := execute_ok s;
  execute_err := execute_err s;
|}.

(** [SlotStatsEvent::default()]. *)
Definition SlotStatsEvent_default : SlotStatsEvent :=
  {| was_leader_ready := false;
     ingest_tpu_ok := 0; ingest_tpu_err := 0; ingest_tpu_evict := 0; ingest_tpu_filtered := 0;
     ingest_custom_ok := 0; ingest_custom_err := 0; ingest_custom_filtered := 0;
     check_requested := 0; check_ok := 0; check_err := 0; check_evict := 0; check_filtered := 0;
     execute_requested := 0; execute_unprocessed := 0; execute_ok := 0; execute_err := 0 |}.

Record TransactionEvent := {
  te_signature : Signature;
  te_slot : Z;
  te_priority : Z;
  te_action : TransactionAction;
}.

Inductive Event :=
| SlotStart
| LeaderReady
| SlotStats (e : SlotStatsEvent)
| Transaction (e : TransactionEvent).

Record StampedEvent := { timestamp : Z; stamped_slot : Z; event : Event }.

(** The subject an event is published under ([EventDiscriminants], kebab-case). *)
Definition EventDiscriminants (e : Event) : string :=
  match e with
  | SlotStart => "slot-start"
  | LeaderReady => "leader-ready"
  | SlotStats _ => "slot-stats"
  | Transaction _ => "transaction"
  end.

(** ** emitter.rs: the context shared by the clones of an emitter *)

Record EventContext := { ctx_slot : Z }.

Definition EventContext_new : EventContext := {| ctx_slot := 0 |}.

Definition EventContext_set (slot : Z) (c : EventContext) : EventContext := {| ctx_slot := slot |}.

Record EventEmitter := { ctx : EventContext }.

#[export] Instance EventEmitter_eta : Eta EventEmitter := λ e, {| ctx := ctx e |}.

Definition EventEmitter_new (c : EventContext) : EventEmitter := {| ctx := c |}.

(** ** [BatchMetrics] *)

Inductive Metric :=
| m_current_slot | m_next_leader_slot
| m_tpu_unchecked_len | m_tpu_checked_len | m_tpu_deferred_len
| m_bundles_len | m_locks_len | m_executing_len | m_in_flight_cus
| m_recv_tpu_ok | m_recv_tpu_err | m_recv_tpu_evict | m_recv_tpu_filtered
| m_recv_packet_ok | m_recv_packet_err | m_recv_packet_evict | m_recv_packet_filtered
| m_recv_bundle_ok | m_recv_bundle_err | m_recv_bundle_filtered | m_recv_bundle_expired
| m_recv_bundle_evict
| m_check_requested | m_check_ok | m_check_err | m_check_filtered | m_check_evict
| m_execute_requested | m_execute_ok | m_execute_err | m_execute_unprocessed | m_execute_evict.

Inductive MetricKind := Gauge | Counter.

(** [BatchMetrics::new]: the kind, name and label each handle is registered
    with ([None]: no label). *)
Definition BatchMetrics_new (m : Metric) : MetricKind * string * option string :=
  match m with
  | m_current_slot => (Gauge, "slot", Some "current")
  | m_next_leader_slot => (Gauge, "slot", Some "next_leader")
  | m_tpu_unchecked_len => (Gauge, "container_len", Some "tpu_unchecked")
  | m_tpu_checked_len => (Gauge, "container_len", Some "tpu_checked")
  | m_tpu_deferred_len => (Gauge, "container_len", Some "tpu_deferred")
  | m_bundles_len => (Gauge, "container_len", Some "bundles")
  | m_locks_len => (Gauge, "container_len", Some "locks")
  | m_executing_len => (Gauge, "container_len", Some "executing")
  | m_in_flight_cus => (Gauge, "in_flight_cus", None)
  | m_recv_tpu_ok => (Counter, "recv_tpu", Some "ok")
  | m_recv_tpu_err => (Counter, "recv_tpu", Some "err")
  | m_recv_tpu_evict => (Counter, "recv_tpu", Some "evict")
  | m_recv_tpu_filtered => (Counter, "recv_tpu", Some "filtered")
  | m_recv_packet_ok => (Counter, "recv_packet", Some "ok")
  | m_recv_packet_err => (Counter, "recv_packet", Some "err")
  | m_recv_packet_evict => (Counter, "recv_packet", Some "evict")
  | m_recv_packet_filtered => (Counter, "recv_packet", Some "filtered")
  | m_recv_bundle_ok => (Counter, "recv_bundle", Some "ok")
  | m_recv_bundle_err => (Counter, "recv_bundle", Some "err")
  | m_recv_bundle_filtered => (Counter, "recv_bundle", Some "filtered")
  | m_recv_bundle_expired => (Counter, "recv_bundle", Some "expired")
  | m_recv_bundle_evict => (Counter, "recv_bundle", Some "evict")
  | m_check_requested => (Counter, "check", Some "requested")
  | m_check_ok => (Counter, "check", Some "ok")
  | m_check_err => (Counter, "check", Some "err")
  | m_check_filtered => (Counter, "check", Some "filtered")
  | m_check_evict => (Counter, "check", Some "evict")
  | m_execute_requested => (Counter, "execute", Some "requested")
  | m_execute_ok => (Counter, "execute", Some "ok")
  | m_execute_err => (Counter, "execute", Some "err")
  | m_execute_unprocessed => (Counter, "execute", Some "unprocessed")
  | m_execute_evict => (Counter, "execute", Some "evict")
  end%string.

#[export] Instance MetricKind_eq_dec : EqDecision MetricKind.
Proof. solve_decision. Defined.

#[export] Instance Metric_eq_dec : EqDecision Metric.
Proof. solve_decision. Defined.
