(* ===== verification/Externals.v ===== *)
(** * What the schedulers call but this repository does not contain

    The Agave bindings and bridge (crates [agave-scheduler-bindings] and
    [agave-scheduling-utils]), the Solana crates, the Jito channel, the clock,
    and the two container crates [min-max-heap] and [indexmap].  Each is a
    class of operations; what the theorems need of it is a second class of
    laws, which states documented behaviour and nothing about the schedulers.
    [ModelWorld.v] has concrete instances of all of them. *)

From S2P Require Import Prelude BTreeSet Types Events.

(** ** Constants of [agave-scheduler-bindings], [solana-cost-model], [solana-clock] *)

Class AgaveBindings := {
  LEADER_READY : Z;
  pack_CHECK : Z;
  pack_EXECUTE : Z;
  check_STATUS_CHECKS : Z;
  check_LOAD_FEE_PAYER_BALANCE : Z;
  check_LOAD_ADDRESS_LOOKUP_TABLES : Z;
  execution_DROP_ON_FAILURE : Z;
  execution_ALL_OR_NOTHING : Z;
  parsing_FAILED : Z;
  resolve_REQUESTED : Z;
  resolve_PERFORMED : Z;
  resolve_FAILED : Z;
  status_REQUESTED : Z;
  status_PERFORMED : Z;
  fee_payer_REQUESTED : Z;
  fee_payer_PERFORMED : Z;
  reason_NONE : Z;
  ACCOUNT_IN_USE : Z;
  BANK_NOT_AVAILABLE : Z;
  WOULD_EXCEED_MAX_BLOCK_COST_LIMIT : Z;
  WOULD_EXCEED_MAX_ACCOUNT_COST_LIMIT : Z;
  WOULD_EXCEED_ACCOUNT_DATA_BLOCK_LIMIT : Z;
  WOULD_EXCEED_MAX_VOTE_COST_LIMIT : Z;
  WOULD_EXCEED_ACCOUNT_DATA_TOTAL_LIMIT : Z;
  MAX_BLOCK_UNITS_SIMD_0256 : Z;
  DEFAULT_SLOTS_PER_EPOCH : Z;
}.

(** The block limit is a [u64] that leaves room for a percentage. *)
Class AgaveBindingsLaws `{AgaveBindings} := {
  max_block_units_bound : 0 ≤ MAX_BLOCK_UNITS_SIMD_0256 ∧ MAX_BLOCK_UNITS_SIMD_0256 * 100 ≤ U64_MAX;
}.

(** ** The Solana crates *)

Record ComputeBudgetLimits := { compute_unit_limit : Z; prioritization_fee : Z }.

Record FeeDetails := { transaction_fee : Z; fd_prioritization_fee : Z }.

Record AccountMeta := { am_pubkey : Pubkey; am_is_signer : bool; am_is_writable : bool }.

Record Instruction := { program_id : Pubkey; accounts : list AccountMeta; ix_bytes : u8s }.

Class SolanaCrates := {
  FeatureSet : Type;
  FeeFeatures : Type;
  Keypair : Type;
  RuntimeTransaction : Type;
  ComputeBudgetDetails : Type;
  system_program_ID : Pubkey;
  keypair_pubkey : Keypair → Pubkey;
  pubkey_to_bytes : Pubkey → u8s;
  find_program_address : list u8s → Pubkey → Pubkey * Z;
  (** [Transaction::new_signed_with_payer] and [wincode::serialize]. *)
  sign_and_serialize : list Instruction → Pubkey → Keypair → Hash → u8s;
  (** [RuntimeTransaction::try_new(tx, MessageHash::Compute, None)]. *)
  runtime_transaction_try_new : TransactionView → option RuntimeTransaction;
  (** [ComputeBudgetInstructionDetails::try_from]. *)
  compute_budget_details_try_from :
    list (Pubkey * InstructionView) → option ComputeBudgetDetails;
  sanitize_and_convert_to_compute_budget_limits :
    ComputeBudgetDetails → FeatureSet → option ComputeBudgetLimits;
  (** [CostModel::calculate_cost(..).sum()]. *)
  cost_model_sum : RuntimeTransaction → FeatureSet → Z;
  calculate_fee_details : RuntimeTransaction → Z → Z → FeeFeatures → FeeDetails;
  signature_to_string : Signature → string;
}.

Record RuntimeState `{SolanaCrates} := {
  feature_set : FeatureSet;
  lamports_per_signature : Z;
  burn_percent : Z;
  fee_features : FeeFeatures;
}.

(** ** The world: bridge, Jito channel, clock, event channel, metrics

    [St D W] is the state a scheduler's code runs in: its own data and the
    world. *)

Record St (D W : Type) := mk { sch : D; wld : W }.
Arguments mk {D W} _ _.
Arguments sch {D W} _.
Arguments wld {D W} _.

#[export] Instance St_eta {D W} : Eta (St D W) := λ s, {| sch := sch s; wld := wld s |}.

Class World `{SolanaCrates} (W : Type) := {
  (* SchedulerBindingsBridge *)
  w_progress : W → ProgressMessage;
  w_drain_progress : W → option ProgressMessage * W;
  w_runtime : W → RuntimeState;
  w_worker_count : W → nat;
  w_worker_len : W → nat → nat;
  w_worker_rem : W → nat → nat;
  w_tpu_len : W → nat;
  w_insert_transaction : u8s → W → option TransactionKey * W;
  w_transaction : W → TransactionKey → option TransactionState;
  w_drop_transaction : TransactionKey → W → W;
  w_schedule : ScheduleBatch → W → option W;
  w_drain_tpu : ∀ {D}, (TransactionKey → M (St D W) TxDecision) → nat → M (St D W) unit;
  w_drain_worker : ∀ {D}, nat → (WorkerResponse → M (St D W) TxDecision) → M (St D W) unit;
  (* std::time::Instant::now and chrono::Utc::now, in nanoseconds *)
  w_instant_now : W → Z * W;
  w_utc_now : W → Z * W;
  (* crossbeam channel of Jito updates, cancellation token *)
  w_jito_try_recv : W → TryRecv * W;
  w_jito_recv_timeout : W → option JitoUpdate * W;
  w_shutdown_is_cancelled : W → bool;
  (* tokio channel of events; [true]: the event was taken *)
  w_events_try_send : StampedEvent → W → bool * W;
  (* metrics *)
  w_metric_increment : Metric → Z → W → W;
  w_metric_set : Metric → Z → W → W;
}.

(** A transaction as the bridge presents it: it is signed.  That it names no
    (account, mode) pair twice is a matter for the check workers. *)
Definition signed (tx : TransactionState) : Prop := tv_signatures (data tx) ≠ [].

(** The world keeps the transactions it was not told to drop: only
    [insert_transaction] and [drop_transaction] (and the drains, whose
    callbacks decide) touch the transaction table, at one key.  The clock,
    channels and metrics do not touch it. *)
Class WorldLaws `{World W} := {
  insert_transaction_refused packet w w' :
    w_insert_transaction packet w = (None, w') → w_transaction w' = w_transaction w;
  insert_transaction_fresh packet w w' k :
    w_insert_transaction packet w = (Some k, w') →
    w_transaction w k = None ∧
    (∃ tx, w_transaction w' k = Some tx ∧ signed tx) ∧
    ∀ k', k' ≠ k → w_transaction w' k' = w_transaction w k';
  (** The SDK compiles a message's accounts without repetition. *)
  insert_own_transaction ixs payer keypair hash w w' k tx :
    w_insert_transaction (sign_and_serialize ixs payer keypair hash) w = (Some k, w') →
    w_transaction w' k = Some tx → NoDup (locks tx).*1;
  instant_now_progress w : w_progress (w_instant_now w).2 = w_progress w;
  drain_progress_transaction w : w_transaction (w_drain_progress w).2 = w_transaction w;
  jito_try_recv_transaction w : w_transaction (w_jito_try_recv w).2 = w_transaction w;
  schedule_transaction b w w' : w_schedule b w = Some w' → w_transaction w' = w_transaction w;
  schedule_progress b w w' : w_schedule b w = Some w' → w_progress w' = w_progress w;
  drop_transaction_other k k' w :
    k ≠ k' → w_transaction (w_drop_transaction k w) k' = w_transaction w k';
  instant_now_transaction w : w_transaction (w_instant_now w).2 = w_transaction w;
  utc_now_transaction w : w_transaction (w_utc_now w).2 = w_transaction w;
  events_transaction e w : w_transaction (w_events_try_send e w).2 = w_transaction w;
  metric_increment_transaction m n w : w_transaction (w_metric_increment m n w) = w_transaction w;
  metric_increment_worker_len m n w : w_worker_len (w_metric_increment m n w) = w_worker_len w;
  metric_increment_worker_rem m n w : w_worker_rem (w_metric_increment m n w) = w_worker_rem w;
  metric_set_transaction m n w : w_transaction (w_metric_set m n w) = w_transaction w;
}.

(** What is dropped is gone. *)
Class DropLaws `{World W} := {
  drop_transaction_gone k w : w_transaction (w_drop_transaction k w) k = None;
}.

(** The batches that were handed to the bridge, oldest first: [schedule] adds
    its batch, and the metrics have no part in it. *)
Class SentLog (W : Type) := { w_sent : W → list ScheduleBatch }.

Class SentLaws (W : Type) `{World W} `{!SentLog W} := {
  sent_schedule b w w' : w_schedule b w = Some w' → w_sent w' = w_sent w ++ [b];
  sent_increment m n w : w_sent (w_metric_increment m n w) = w_sent w;
}.

(** ** [min_max_heap::MinMaxHeap]: a multiset that gives its extremes *)

Class MinMaxHeap (H : Type) (A : Type) := {
  heap_empty : H;
  heap_len : H → nat;
  heap_push : A → H → H;
  heap_pop_min : H → option (A * H);
  heap_pop_max : H → option (A * H);
  heap_elements : H → list A;
}.

Class MinMaxHeapLaws (H A : Type) `{RustOrd A} `{MinMaxHeap H A} := {
  heap_elements_empty : heap_elements heap_empty = [];
  heap_len_elements h : heap_len h = length (heap_elements h);
  heap_push_elements x h : heap_elements (heap_push x h) ≡ₚ x :: heap_elements h;
  heap_pop_min_None h : heap_pop_min h = None ↔ heap_elements h = [];
  heap_pop_min_Some h x h' :
    heap_pop_min h = Some (x, h') →
    heap_elements h ≡ₚ x :: heap_elements h' ∧ ∀ y, y ∈ heap_elements h' → rle x y;
  heap_pop_max_None h : heap_pop_max h = None ↔ heap_elements h = [];
  heap_pop_max_Some h x h' :
    heap_pop_max h = Some (x, h') →
    heap_elements h ≡ₚ x :: heap_elements h' ∧ ∀ y, y ∈ heap_elements h' → rle y x;
}.

(** ** [indexmap::IndexSet]: a set that remembers insertion order *)

Class IndexSet (I : Type) (A : Type) := {
  iset_empty : I;
  iset_elements : I → list A;
  (** [insert] answers whether the element is new. *)
  iset_insert : A → I → bool * I;
  iset_contains : A → I → bool;
  (** [drain(..)]: the elements in insertion order; the set is left empty. *)
  iset_drain : I → list A * I;
  iset_len : I → nat;
}.

Class IndexSetLaws (I A : Type) `{IndexSet I A} := {
  iset_elements_empty : iset_elements iset_empty = [];
  iset_NoDup s : NoDup (iset_elements s);
  iset_contains_spec x s : iset_contains x s = true ↔ x ∈ iset_elements s;
  iset_len_elements s : iset_len s = length (iset_elements s);
  iset_insert_new x s :
    x ∉ iset_elements s →
    ∃ s', iset_insert x s = (true, s') ∧ iset_elements s' = iset_elements s ++ [x];
  iset_insert_present x s : x ∈ iset_elements s → (iset_insert x s).1 = false;
  iset_drain_spec s : ∃ s', iset_drain s = (iset_elements s, s') ∧ iset_elements s' = [];
}.
