(* ===== verification/LockTable.v ===== *)
(** * Account locks of the batch scheduler
    (schedulers/batch-scheduler/src/lib.rs: [AccountLockers], [can_lock],
    [lock], [unlock])

    The table maps an account to the transactions that hold it.  It refines a
    set of grants [(account, transaction, writable)]: [can_lock] decides
    compatibility with the set, [lock] adds grants, [unlock] takes them away,
    and the panics of [lock] and [unlock] are exactly the double and the missing
    grants. *)

From S2P Require Import Prelude Types.

Record AccountLockers := {
  writers : gset TransactionKey;
  readers : gset TransactionKey;
}.

#[export] Instance AccountLockers_eta : Eta AccountLockers := λ l,
  {| writers := writers l; readers := readers l |}.

#[export] Instance AccountLockers_eq_dec : EqDecision AccountLockers.
Proof. solve_decision. Defined.

(** [AccountLockers::default()]. *)
Definition AccountLockers_default : AccountLockers := {| writers := ∅; readers := ∅ |}.

Module AccountLockers.
Definition is_empty (l : AccountLockers) : bool :=
  bool_decide (writers l = ∅) && bool_decide (readers l = ∅).

Definition can_lock (writable : bool) (l : AccountLockers) : bool :=
  match writable with
  | true => is_empty l
  | false => bool_decide (writers l = ∅)
  end.

Definition insert (tx_key : TransactionKey) (writable : bool) (l : AccountLockers)
    : Res AccountLockers :=
  let held := if writable then writers l else readers l in
  if decide (tx_key ∈ held) then Panicked (PAssert "AccountLockers::insert")
  else Ok (if writable then l <| writers ::= union {[tx_key]} |>
           else l <| readers ::= union {[tx_key]} |>).

Definition remove (tx_key : TransactionKey) (writable : bool) (l : AccountLockers)
    : Res AccountLockers :=
  let held := if writable then writers l else readers l in
  if decide (tx_key ∈ held) then
    Ok (if writable then l <| writers ::= λ s, s ∖ {[tx_key]} |>
        else l <| readers ::= λ s, s ∖ {[tx_key]} |>)
  else Panicked (PAssert "AccountLockers::remove").
End AccountLockers.

Abbreviation LockTable := (gmap Pubkey AccountLockers).

(** The scheduler's [can_lock]: every lock of the transaction can be granted. *)
Definition can_lock (t : LockTable) (locks : list (Pubkey * bool)) : bool :=
  forallb (λ '(addr, writable),
    match t !! addr with
    | None => true
    | Some l => AccountLockers.can_lock writable l
    end) locks.

(** One round of [lock]: [entry(addr).or_default().insert(key, writable)]. *)
Definition lock_one (tx_key : TransactionKey) (addr : Pubkey) (writable : bool) (t : LockTable)
    : Res LockTable :=
  l ← AccountLockers.insert tx_key writable (default AccountLockers_default (t !! addr));
  mret (<[addr := l]> t).

(** [lock]: locks without checking for conflicts. *)
Fixpoint lock (tx_key : TransactionKey) (locks : list (Pubkey * bool)) (t : LockTable)
    : Res LockTable :=
  match locks with
  | [] => mret t
  | (addr, writable) :: locks' =>
      t' ← lock_one tx_key addr writable t;
      lock tx_key locks' t'
  end.

Definition unlock_one (tx_key : TransactionKey) (addr : Pubkey) (writable : bool) (t : LockTable)
    : Res LockTable :=
  match t !! addr with
  | None => Panicked (PUnwrap "unlock: no lockers")
  | Some l =>
      l' ← AccountLockers.remove tx_key writable l;
      mret (if AccountLockers.is_empty l' then delete addr t else <[addr := l']> t)
  end.

(** [unlock]: panics if the transaction does not hold the expected locks. *)
Fixpoint unlock (tx_key : TransactionKey) (locks : list (Pubkey * bool)) (t : LockTable)
    : Res LockTable :=
  match locks with
  | [] => mret t
  | (addr, writable) :: locks' =>
      t' ← unlock_one tx_key addr writable t;
      unlock tx_key locks' t'
  end.

(** ** Specification: a set of grants *)

Abbreviation Grants := (gset (Pubkey * TransactionKey * bool)).

Definition holds (t : LockTable) (addr : Pubkey) (k : TransactionKey) (w : bool) : Prop :=
  match t !! addr with
  | None => False
  | Some l => k ∈ (if w then writers l else readers l)
  end.

(** The table holds exactly the grants of [G], and no empty entry. *)
Record represents (t : LockTable) (G : Grants) : Prop := {
  rep_holds addr k w : (addr, k, w) ∈ G ↔ holds t addr k w;
  rep_no_empty addr l : t !! addr = Some l → AccountLockers.is_empty l = false;
}.

(** Locks [ls] of one transaction, as grants. *)
Definition grants_of (k : TransactionKey) (ls : list (Pubkey * bool)) : Grants :=
  list_to_set ((λ '(addr, w), (addr, k, w)) <$> ls).

(** A lock is compatible with the grants when both sides only read. *)
Definition compatible (G : Grants) (ls : list (Pubkey * bool)) : Prop :=
  ∀ addr w k w', (addr, w) ∈ ls → (addr, k, w') ∈ G → w = false ∧ w' = false.

(** The locks of one transaction are all fresh, or all held, in the grants. *)
Definition fresh_locks (k : TransactionKey) (ls : list (Pubkey * bool)) (G : Grants) : Prop :=
  NoDup ls ∧ grants_of k ls ## G.
Definition held_locks (k : TransactionKey) (ls : list (Pubkey * bool)) (G : Grants) : Prop :=
  NoDup ls ∧ grants_of k ls ⊆ G.

#[export] Instance fresh_locks_dec (k : TransactionKey) (ls : list (Pubkey * bool)) (G : Grants) : Decision (fresh_locks k ls G).
Proof. unfold fresh_locks. apply _. Defined.
#[export] Instance held_locks_dec (k : TransactionKey) (ls : list (Pubkey * bool)) (G : Grants) : Decision (held_locks k ls G).
Proof. unfold held_locks. apply _. Defined.

Lemma elem_of_grants_of k ls addr k' w :
  (addr, k', w) ∈ grants_of k ls ↔ k' = k ∧ (addr, w) ∈ ls.
Proof.
  unfold grants_of. rewrite elem_of_list_to_set, list_elem_of_fmap. split.
  - intros ([a b] & Heq & Hin). naive_solver.
  - intros [-> Hin]. by exists (addr, w).
Qed.

Lemma is_empty_true l : AccountLockers.is_empty l = true ↔ writers l = ∅ ∧ readers l = ∅.
Proof. unfold AccountLockers.is_empty. by rewrite andb_true_iff, !bool_decide_eq_true. Qed.

Lemma is_empty_false l :
  AccountLockers.is_empty l = false ↔ ∃ k w, k ∈ (if w : bool then writers l else readers l).
Proof.
  unfold AccountLockers.is_empty. rewrite andb_false_iff, !bool_decide_eq_false. split.
  - intros [[k Hk]%set_choose_L|[k Hk]%set_choose_L]; [by exists k, true | by exists k, false].
  - intros (k & [] & Hk); [left|right]; set_solver.
Qed.

Lemma represents_empty : represents ∅ ∅.
Proof.
  split.
  - intros. unfold holds. rewrite lookup_empty. set_solver.
  - intros. by rewrite lookup_empty in *.
Qed.

(** The table is determined by its grants. *)
Lemma represents_unique t1 t2 G : represents t1 G → represents t2 G → t1 = t2.
Proof.
  intros [Hh1 He1] [Hh2 He2]. apply map_eq. intros addr.
  assert (∀ k w, holds t1 addr k w ↔ holds t2 addr k w) as Heq.
  { intros. by rewrite <- Hh1, <- Hh2. }
  unfold holds in Heq.
  destruct (t1 !! addr) as [l1|] eqn:E1, (t2 !! addr) as [l2|] eqn:E2; [| | |done].
  - f_equal. destruct l1 as [w1 r1], l2 as [w2 r2]; simpl in *. f_equal.
    + apply set_eq. intros k. apply (Heq k true).
    + apply set_eq. intros k. apply (Heq k false).
  - specialize (He1 _ _ E1). apply is_empty_false in He1 as (k & w & Hk).
    specialize (Heq k w). tauto.
  - specialize (He2 _ _ E2). apply is_empty_false in He2 as (k & w & Hk).
    specialize (Heq k w). tauto.
Qed.

(** ** The operations against the specification *)

Lemma account_can_lock_spec t G addr w :
  represents t G →
  match t !! addr with None => true | Some l => AccountLockers.can_lock w l end = true ↔
  ∀ k w', (addr, k, w') ∈ G → w = false ∧ w' = false.
Proof.
  intros [Hh He]. setoid_rewrite Hh. unfold holds.
  destruct (t !! addr) as [l|] eqn:E; [|naive_solver].
  unfold AccountLockers.can_lock. destruct w.
  - rewrite is_empty_true. split.
    + intros [Hw Hr] k []; rewrite ?Hw, ?Hr; set_solver.
    + intros Hk. split; apply set_eq; intros k; split; [|set_solver| |set_solver].
      * intros Hin. by destruct (Hk k true Hin).
      * intros Hin. by destruct (Hk k false Hin).
  - rewrite bool_decide_eq_true. split.
    + intros Hw k []; rewrite ?Hw; set_solver.
    + intros Hk. apply set_eq. intros k. split; [|set_solver].
      intros Hin. by destruct (Hk k true Hin).
Qed.

Lemma can_lock_spec t G ls :
  represents t G → can_lock t ls = true ↔ compatible G ls.
Proof.
  intros Hrep. unfold can_lock, compatible. rewrite forallb_forall. split.
  - intros Hall addr w k w' Hin HG. apply list_elem_of_In in Hin.
    specialize (Hall _ Hin). simpl in Hall.
    by apply (proj1 (account_can_lock_spec t G addr w Hrep) Hall k w').
  - intros Hc [addr w] Hin. apply list_elem_of_In in Hin.
    apply (account_can_lock_spec t G addr w Hrep). eauto.
Qed.

Lemma lock_one_spec t G k addr w :
  represents t G →
  if decide ((addr, k, w) ∈ G)
  then lock_one k addr w t = Panicked (PAssert "AccountLockers::insert")
  else ∃ t', lock_one k addr w t = Ok t' ∧ represents t' ({[(addr, k, w)]} ∪ G).
Proof.
  intros [Hh He]. unfold lock_one, AccountLockers.insert.
  set (l := default AccountLockers_default (t !! addr)).
  assert (∀ k' w', (addr, k', w') ∈ G ↔ k' ∈ (if w' : bool then writers l else readers l)) as Hl.
  { intros k' w'. rewrite Hh. unfold holds, l. destruct (t !! addr); [done|].
    destruct w'; set_solver. }
  case_decide as HG; rewrite Hl in HG.
  { by rewrite decide_True. }
  rewrite decide_False by done. simpl. eexists; split; [done|]. split.
  - intros a k' w'. rewrite elem_of_union, elem_of_singleton. unfold holds.
    destruct (decide (a = addr)) as [->|Hne].
    + rewrite lookup_insert_eq, Hl. destruct w, w'; simpl; set_solver.
    + rewrite lookup_insert_ne by done. rewrite Hh. unfold holds. naive_solver.
  - intros a l'. destruct (decide (a = addr)) as [->|Hne].
    + rewrite lookup_insert_eq. intros [= <-]. apply is_empty_false.
      exists k, w. destruct w; simpl; set_solver.
    + rewrite lookup_insert_ne by done. apply He.
Qed.

Lemma unlock_one_spec t G k addr w :
  represents t G →
  if decide ((addr, k, w) ∈ G)
  then ∃ t', unlock_one k addr w t = Ok t' ∧ represents t' (G ∖ {[(addr, k, w)]})
  else ∃ p, unlock_one k addr w t = Panicked p.
Proof.
  intros [Hh He]. unfold unlock_one, AccountLockers.remove. case_decide as HG.
  - pose proof HG as Hhold. rewrite Hh in Hhold. unfold holds in Hhold.
    destruct (t !! addr) as [l|] eqn:E; [|done].
    rewrite decide_True by done. simpl.
    set (l' := if w then _ else _).
    assert (∀ k' w', k' ∈ (if w' : bool then writers l' else readers l') ↔
              (addr, k', w') ∈ G ∖ {[(addr, k, w)]}) as Hl'.
    { intros k' w'. rewrite elem_of_difference, elem_of_singleton, Hh. unfold holds. rewrite E.
      destruct w, w'; simpl; set_solver. }
    eexists; split; [done|].
    assert (∀ m : LockTable, (∀ a, a ≠ addr → m !! a = t !! a) →
       m !! addr = (if AccountLockers.is_empty l' then None else Some l') →
       represents m (G ∖ {[(addr, k, w)]})) as Hm; last first.
    { apply Hm; destruct (AccountLockers.is_empty l'); intros; simplify_map_eq; done. }
    intros m Hother Haddr. split.
    + intros a k' w'. unfold holds. destruct (decide (a = addr)) as [->|Hne].
      * rewrite <- Hl', Haddr. destruct (AccountLockers.is_empty l') eqn:Ee; [|done].
        apply is_empty_true in Ee as [-> ->]. destruct w'; set_solver.
      * rewrite (Hother a Hne). rewrite elem_of_difference, elem_of_singleton, Hh.
        unfold holds. naive_solver.
    + intros a la. destruct (decide (a = addr)) as [->|Hne].
      * rewrite Haddr. destruct (AccountLockers.is_empty l') eqn:Ee; naive_solver.
      * rewrite (Hother a Hne). apply He.
  - rewrite Hh in HG. unfold holds in HG. destruct (t !! addr) as [l|]; [|by eexists].
    rewrite decide_False by done. by eexists.
Qed.

(** [lock] succeeds on fresh, repetition-free locks and adds them. *)
Lemma lock_spec k ls t G :
  represents t G → NoDup ls → (∀ addr w, (addr, w) ∈ ls → (addr, k, w) ∉ G) →
  ∃ t', lock k ls t = Ok t' ∧ represents t' (grants_of k ls ∪ G).
Proof.
  revert t G. induction ls as [|[addr w] ls IH]; intros t G Hrep Hnd Hfresh; simpl.
  { exists t. split; [done|]. by replace (grants_of k [] ∪ G) with G by set_solver. }
  apply NoDup_cons in Hnd as [Hnin Hnd].
  pose proof (lock_one_spec t G k addr w Hrep) as H1.
  rewrite decide_False in H1 by (apply Hfresh; set_solver).
  destruct H1 as (t1 & -> & Hrep1). simpl.
  destruct (IH t1 _ Hrep1 Hnd) as (t' & -> & Hrep').
  { intros a w' Hin. specialize (Hfresh a w'). set_solver. }
  exists t'. split; [done|].
  replace (grants_of k ((addr, w) :: ls) ∪ G)
    with (grants_of k ls ∪ ({[(addr, k, w)]} ∪ G)); [done|].
  unfold grants_of. simpl. set_solver.
Qed.

(** [unlock] succeeds on held, repetition-free locks and takes them away. *)
Lemma unlock_spec k ls t G :
  represents t G → NoDup ls → (∀ addr w, (addr, w) ∈ ls → (addr, k, w) ∈ G) →
  ∃ t', unlock k ls t = Ok t' ∧ represents t' (G ∖ grants_of k ls).
Proof.
  revert t G. induction ls as [|[addr w] ls IH]; intros t G Hrep Hnd Hheld; simpl.
  { exists t. split; [done|]. by replace (G ∖ grants_of k []) with G by set_solver. }
  apply NoDup_cons in Hnd as [Hnin Hnd].
  pose proof (unlock_one_spec t G k addr w Hrep) as H1.
  rewrite decide_True in H1 by (apply Hheld; set_solver).
  destruct H1 as (t1 & -> & Hrep1). simpl.
  destruct (IH t1 _ Hrep1 Hnd) as (t' & -> & Hrep').
  { intros a w' Hin. specialize (Hheld a w'). set_solver. }
  exists t'. split; [done|].
  replace (G ∖ grants_of k ((addr, w) :: ls))
    with ((G ∖ {[(addr, k, w)]}) ∖ grants_of k ls); [done|].
  unfold grants_of. simpl. set_solver.
Qed.

(** [lock] succeeds only on fresh, repetition-free locks. *)
Lemma lock_ok_inv k ls t t' G :
  represents t G → lock k ls t = Ok t' →
  NoDup ls ∧ (∀ addr w, (addr, w) ∈ ls → (addr, k, w) ∉ G).
Proof.
  revert t G. induction ls as [|[addr w] ls IH]; intros t G Hrep Hl; simpl in Hl.
  { split; [constructor|]. set_solver. }
  pose proof (lock_one_spec t G k addr w Hrep) as H1. case_decide as HG.
  { by rewrite H1 in Hl. }
  destruct H1 as (t1 & E & Hrep1). rewrite E in Hl. simpl in Hl.
  destruct (IH t1 _ Hrep1 Hl) as [Hnd Hfresh]. split.
  - constructor; [|done]. intros Hin. specialize (Hfresh addr w Hin). set_solver.
  - intros a w' [[= -> ->]|Hin]%elem_of_cons; [done|].
    specialize (Hfresh a w' Hin). set_solver.
Qed.

(** [unlock] succeeds only on held, repetition-free locks. *)
Lemma unlock_ok_inv k ls t t' G :
  represents t G → unlock k ls t = Ok t' →
  NoDup ls ∧ (∀ addr w, (addr, w) ∈ ls → (addr, k, w) ∈ G).
Proof.
  revert t G. induction ls as [|[addr w] ls IH]; intros t G Hrep Hl; simpl in Hl.
  { split; [constructor|]. set_solver. }
  pose proof (unlock_one_spec t G k addr w Hrep) as H1. case_decide as HG.
  2:{ destruct H1 as [p E]. by rewrite E in Hl. }
  destruct H1 as (t1 & E & Hrep1). rewrite E in Hl. simpl in Hl.
  destruct (IH t1 _ Hrep1 Hl) as [Hnd Hheld]. split.
  - constructor; [|done]. intros Hin. specialize (Hheld addr w Hin). set_solver.
  - intros a w' [[= -> ->]|Hin]%elem_of_cons; [done|].
    specialize (Hheld a w' Hin). set_solver.
Qed.

Lemma grants_none_held (k : TransactionKey) (ls : list (Pubkey * bool)) (G : Grants) :
  grants_of k ls ## G ↔ ∀ addr w, (addr, w) ∈ ls → (addr, k, w) ∉ G.
Proof.
  rewrite elem_of_disjoint. split.
  - intros H addr w Hin. refine (H (addr, k, w) _). by apply elem_of_grants_of.
  - intros H [[addr k'] w] [-> Hin]%elem_of_grants_of. by apply H.
Qed.

Lemma grants_all_held (k : TransactionKey) (ls : list (Pubkey * bool)) (G : Grants) :
  grants_of k ls ⊆ G ↔ ∀ addr w, (addr, w) ∈ ls → (addr, k, w) ∈ G.
Proof.
  split.
  - intros H addr w Hin. apply H. by apply elem_of_grants_of.
  - intros H [[addr k'] w] [-> Hin]%elem_of_grants_of. by apply H.
Qed.

Lemma lock_one_no_hang k addr w t : lock_one k addr w t ≠ Hang.
Proof. unfold lock_one, AccountLockers.insert. by case_decide. Qed.

Lemma unlock_one_no_hang k addr w t : unlock_one k addr w t ≠ Hang.
Proof.
  unfold unlock_one, AccountLockers.remove. destruct (t !! addr); [|done]. by case_decide.
Qed.

Lemma lock_no_hang k ls t : lock k ls t ≠ Hang.
Proof.
  revert t. induction ls as [|[addr w] ls IH]; intros t; simpl; [done|].
  pose proof (lock_one_no_hang k addr w t). by destruct (lock_one k addr w t) eqn:E; simpl.
Qed.

Lemma unlock_no_hang k ls t : unlock k ls t ≠ Hang.
Proof.
  revert t. induction ls as [|[addr w] ls IH]; intros t; simpl; [done|].
  pose proof (unlock_one_no_hang k addr w t). by destruct (unlock_one k addr w t) eqn:E; simpl.
Qed.

(** [lock] against the specification, on every input. *)
Lemma lock_outcome k ls t G :
  represents t G →
  if decide (fresh_locks k ls G)
  then ∃ t', lock k ls t = Ok t' ∧ represents t' (grants_of k ls ∪ G)
  else ∃ p, lock k ls t = Panicked p.
Proof.
  intros Hrep. case_decide as H.
  - destruct H as [Hnd H]. apply lock_spec; [done..|]. by apply grants_none_held.
  - destruct (lock k ls t) as [t'|p|] eqn:E; [|by exists p|by destruct (lock_no_hang k ls t)].
    destruct H. destruct (lock_ok_inv k ls t t' G Hrep E) as [Hnd Hf].
    split; [done|]. by apply grants_none_held.
Qed.

(** [unlock] against the specification, on every input. *)
Lemma unlock_outcome k ls t G :
  represents t G →
  if decide (held_locks k ls G)
  then ∃ t', unlock k ls t = Ok t' ∧ represents t' (G ∖ grants_of k ls)
  else ∃ p, unlock k ls t = Panicked p.
Proof.
  intros Hrep. case_decide as H.
  - destruct H as [Hnd H]. apply unlock_spec; [done..|]. by apply grants_all_held.
  - destruct (unlock k ls t) as [t'|p|] eqn:E; [|by exists p|by destruct (unlock_no_hang k ls t)].
    destruct H. destruct (unlock_ok_inv k ls t t' G Hrep E) as [Hnd Hf].
    split; [done|]. by apply grants_all_held.
Qed.

(** Locking a transaction and unlocking it again gives back the very table. *)
Lemma unlock_lock k ls t t' G :
  represents t G → lock k ls t = Ok t' → unlock k ls t' = Ok t.
Proof.
  intros Hrep Hl. pose proof (lock_outcome k ls t G Hrep) as H. case_decide as Hf.
  2:{ destruct H as [p E]. congruence. }
  destruct H as (t1 & E & Hrep1). rewrite E in Hl. injection Hl as ->.
  destruct Hf as [Hnd Hf].
  pose proof (unlock_outcome k ls t' _ Hrep1) as H. rewrite decide_True in H.
  2:{ split; [done|]. set_solver. }
  destruct H as (t2 & -> & Hrep2). f_equal.
  eapply represents_unique; [exact Hrep2|].
  by replace ((grants_of k ls ∪ G) ∖ grants_of k ls) with G by set_solver.
Qed.

(** ** Properties *)

(** C23: the lock table refines the set of grants it stands for.  From the empty
    table on, [can_lock] decides exactly the compatibility of the locks with the
    grants; [lock] adds the grants when the transaction has none of them and
    names no (account, mode) pair twice, and panics otherwise; [unlock] takes
    the grants away when the transaction has them all, each named once, and
    panics otherwise; and unlocking what was locked gives back the very table. *)
Theorem lock_table_refines :
  represents ∅ ∅ ∧
  ∀ (t : LockTable) (G : Grants), represents t G →
    ∀ (k : TransactionKey) (ls : list (Pubkey * bool)),
      (can_lock t ls = true ↔ compatible G ls) ∧
      (if decide (fresh_locks k ls G)
       then ∃ t', lock k ls t = Ok t' ∧ represents t' (grants_of k ls ∪ G) ∧
                  unlock k ls t' = Ok t
       else ∃ p, lock k ls t = Panicked p) ∧
      (if decide (held_locks k ls G)
       then ∃ t', unlock k ls t = Ok t' ∧ represents t' (G ∖ grants_of k ls)
       else ∃ p, unlock k ls t = Panicked p).
Proof.
  split; [exact represents_empty|]. intros t G Hrep k ls.
  split; [by apply can_lock_spec|]. split; [|by apply unlock_outcome].
  pose proof (lock_outcome k ls t G Hrep) as H. case_decide; [|done].
  destruct H as (t' & E & Hrep'). exists t'. split; [done|]. split; [done|].
  by eapply unlock_lock.
Qed.
