(* ===== verification/Exporter.v ===== *)
(** * The export of events (external-scheduler/src/scheduler_thread.rs, [setup])

    The task that writes the scheduler's events to a log server, one line of
    JSON each, over a connection that it opens again when a write fails.  The
    network, the event channel and the shutdown token are a class of
    operations; fuel bounds the two loops, and what is proved is about every
    state the loops go through. *)

From S2P Require Import Prelude Types Events.
#[local] Open Scope list_scope.
#[local] Open Scope Z_scope.

Class ExportNetwork (Net : Type) := {
  is_cancelled : Net → bool;
  (** [TcpStream::connect]: whether it succeeded. *)
  tcp_connect : Net → bool * Net;
  (** [event_rx.recv()]: [None] when the channel is closed. *)
  event_recv : Net → option StampedEvent * Net;
  (** [serde_json::to_vec]. *)
  to_vec : StampedEvent → option u8s;
  (** [stream.write_all]: whether all was written. *)
  write_all : u8s → Net → bool * Net;
  sleep_1s : Net → Net;
}.

Section Exporter.
Context `{ExportNetwork Net}.

(** The text of an event on the wire. *)
Definition event_line (json : u8s) : u8s := json ++ [10].

(** [while let Some(event) = event_rx.recv().await { .. }]. *)
Definition export_round : M Net Flow :=
  let* event := step event_recv in
  match event with
  | None => mret Break
  | Some event =>
      let* cancelled := gets is_cancelled in
      if cancelled : bool then mret Break
      else
        match to_vec event with
        | None => mret Continue
        | Some data =>
            let* written := step (write_all (event_line data)) in
            mret (if written : bool then Continue else Break)
        end
  end.

(** [loop { .. }]. *)
Definition exporter_round (fuel : nat) : M Net Flow :=
  let* cancelled := gets is_cancelled in
  if cancelled : bool then mret Break
  else
    let* connected := step tcp_connect in
    (if connected : bool then loop_fuel fuel export_round else modify sleep_1s) ;;
    mret Continue.

Definition exporter (rounds fuel : nat) : M Net unit := loop_fuel rounds (exporter_round fuel).

(** ** Where the exporter can be

    Whatever the fuel: the network at the head of a round, after the rounds so
    far, or while the events of a connection are awaited. *)
Definition round_step (n n' : Net) : Prop := ∃ fuel, exporter_round fuel n = Ok (Continue, n').
Definition event_step (n n' : Net) : Prop := export_round n = Ok (Continue, n').

Definition connects (n0 n : Net) : Prop :=
  ∃ n1, rtc round_step n0 n1 ∧ is_cancelled n1 = false ∧ tcp_connect n1 = (true, n).

Definition serving (n0 n : Net) : Prop := rtc round_step n0 n ∨ ∃ n1, connects n0 n1 ∧ rtc event_step n1 n.

Lemma export_round_returns n : ∃ c n', export_round n = Ok (c, n').
Proof.
  unfold export_round, bindM, step, gets, mret, M_ret. destruct (event_recv n) as [[e|] n1]; [|by eexists _, _].
  destruct (is_cancelled n1); [by eexists _, _|]. destruct (to_vec e); [|by eexists _, _].
  destruct (write_all _ n1) as [[] n2]; by eexists _, _.
Qed.

(** How the loop ends, or what it has done when the fuel is used up. *)
Lemma loop_fuel_runs {S} (body : M S Flow) fuel s :
  let next a b := body a = Ok (Continue, b) in
  match loop_fuel fuel body s with
  | Ok (_, s') => ∃ s1, rtc next s s1 ∧ body s1 = Ok (Break, s')
  | Panicked p => ∃ s1, rtc next s s1 ∧ body s1 = Panicked p
  | Hang => (∃ s1, nsteps next fuel s s1) ∨ ∃ s1, rtc next s s1 ∧ body s1 = Hang
  end.
Proof.
  intros next. revert s. induction fuel as [|n IH]; intros s; simpl; [left; exists s; constructor|].
  unfold bindM. destruct (body s) as [[[] s1]|p|] eqn:Hs; [|by exists s|by exists s|by right; exists s].
  specialize (IH s1). destruct (loop_fuel n body s1) as [[u s']|p|].
  - destruct IH as (s2 & Hr & Hb). exists s2. split; [by eapply rtc_l|done].
  - destruct IH as (s2 & Hr & Hb). exists s2. split; [by eapply rtc_l|done].
  - destruct IH as [(s2 & Hr)|(s2 & Hr & Hb)]; [left|right]; exists s2; [by eapply nsteps_l|].
    split; [by eapply rtc_l|done].
Qed.

Lemma export_loop_runs fuel n :
  match loop_fuel fuel export_round n with
  | Ok (_, n') => ∃ n1, rtc event_step n n1 ∧ export_round n1 = Ok (Break, n')
  | Panicked _ => False
  | Hang => ∃ n', nsteps event_step fuel n n'
  end.
Proof.
  pose proof (loop_fuel_runs export_round fuel n) as Hl. simpl in Hl.
  destruct (loop_fuel fuel export_round n); [exact Hl|..].
  - destruct Hl as (n1 & _ & Hb). destruct (export_round_returns n1) as (c & n' & Heq). congruence.
  - destruct Hl as [Hl|(n1 & _ & Hb)]; [exact Hl|]. destruct (export_round_returns n1) as (c & n' & Heq). congruence.
Qed.

(** A round of the outer loop; the task ends when the shutdown is asked for. *)
Lemma exporter_round_runs fuel n :
  match exporter_round fuel n with
  | Ok (Continue, _) => is_cancelled n = false
  | Ok (Break, n') => is_cancelled n = true ∧ n' = n
  | Panicked _ => False
  | Hang => is_cancelled n = false ∧ ∃ n1 n', tcp_connect n = (true, n1) ∧ nsteps event_step fuel n1 n'
  end.
Proof.
  unfold exporter_round, bindM, step, gets, mret, M_ret, modify. destruct (is_cancelled n); [done|].
  destruct (tcp_connect n) as [[] n1]; simpl; [|done].
  pose proof (export_loop_runs fuel n1) as Hl. destruct (loop_fuel fuel export_round n1) as [[u n']|p|]; [done..|].
  destruct Hl as [n' Hl]. split; [done|]. by exists n1, n'.
Qed.

(** A run of the exporter that has ended did so by a shutdown; one that has not
    has made all the rounds, or awaited all the events, there was fuel for. *)
Lemma exporter_runs rounds fuel n0 :
  match exporter rounds fuel n0 with
  | Ok (_, n) => rtc round_step n0 n ∧ is_cancelled n = true
  | Panicked _ => False
  | Hang => (∃ n, nsteps round_step rounds n0 n) ∨ ∃ n1 n, connects n0 n1 ∧ nsteps event_step fuel n1 n
  end.
Proof.
  pose proof (loop_fuel_runs (exporter_round fuel) rounds n0) as Hl. unfold exporter. simpl in Hl.
  assert (∀ n n', exporter_round fuel n = Ok (Continue, n') → round_step n n') as Hstep by (intros n n' ?; by exists fuel).
  destruct (loop_fuel rounds (exporter_round fuel) n0) as [[u n]|p|].
  - destruct Hl as (n1 & Hr & Hb). pose proof (exporter_round_runs fuel n1) as Hx. rewrite Hb in Hx.
    destruct Hx as [Hc ->]. split; [|done]. exact (rtc_congruence id _ _ _ Hstep Hr).
  - destruct Hl as (n1 & _ & Hb). pose proof (exporter_round_runs fuel n1) as Hx. by rewrite Hb in Hx.
  - destruct Hl as [[n Hr]|(n1 & Hr & Hb)]; [left; exists n; exact (nsteps_congruence id _ _ _ _ Hstep Hr)|right].
    pose proof (exporter_round_runs fuel n1) as Hx. rewrite Hb in Hx. destruct Hx as (Hc & n2 & n & Hn & Hs).
    exists n2, n. split; [|done]. exists n1. split_and!; [exact (rtc_congruence id _ _ _ Hstep Hr)|done..].
Qed.
End Exporter.

(** ** What reaches the server

    What has been taken from the channel, what has been written in full, and how
    often a connection was made. *)
Class ExportLog (Net : Type) `{ExportNetwork Net} := {
  received : Net → list StampedEvent;
  written : Net → list u8s;
  connections : Net → nat;
}.

Class ExportLogLaws (Net : Type) `{ExportLog Net} := {
  recv_Some n e n' : event_recv n = (Some e, n') →
    received n' = received n ++ [e] ∧ written n' = written n ∧ connections n' = connections n;
  recv_None n n' : event_recv n = (None, n') →
    received n' = received n ∧ written n' = written n ∧ connections n' = connections n;
  write_log d n : received (write_all d n).2 = received n ∧ connections (write_all d n).2 = connections n ∧
    written (write_all d n).2 = written n ++ (if (write_all d n).1 then [d] else []);
  connect_log n : received (tcp_connect n).2 = received n ∧ written (tcp_connect n).2 = written n ∧
    connections (tcp_connect n).2 = (connections n + (if (tcp_connect n).1 then 1 else 0))%nat;
  sleep_log n : received (sleep_1s n) = received n ∧ written (sleep_1s n) = written n ∧
    connections (sleep_1s n) = connections n;
}.

Section ExporterLog.
Context `{ExportLogLaws Net}.

Definition wire (e : StampedEvent) : u8s := event_line (default [] (to_vec e)).

(** Of the events taken since [n0], those in [out] were written, and at most
    [lost] were not. *)
Definition exported (n0 : Net) (lost : nat) (n : Net) : Prop :=
  ∃ got out, received n = received n0 ++ got ∧ written n = written n0 ++ (wire <$> out) ∧
    out `sublist_of` got ∧ (length got ≤ length out + lost)%nat.

(** Since [n0] there was a connection for every lost event, and [spare] more. *)
Definition connected_since (n0 : Net) (spare : nat) (n : Net) : Prop :=
  ∃ lost, exported n0 lost n ∧ (connections n0 + lost + spare ≤ connections n)%nat.

Lemma exported_refl n : exported n 0 n.
Proof. exists [], []. rewrite !app_nil_r. split_and!; done. Qed.

Hypothesis to_vec_total : ∀ e, is_Some (to_vec e).

(** A received event that is not written uses up the connection's credit. *)
Lemma export_round_log n0 n :
  connected_since n0 1 n →
  wlp export_round (λ c n', match c with
    | Continue => connected_since n0 1 n'
    | Break => connected_since n0 0 n' end) n.
Proof using All.
  intros (lost & (got & out & Hr & Hw & Hs & Hl) & Hc) c n'. unfold export_round, bindM, step, gets, mret, M_ret.
  destruct (event_recv n) as [[e|] n1] eqn:Hrecv; last first.
  { apply recv_None in Hrecv as (Hr1 & Hw1 & Hc1). intros [= <- <-]. exists lost. split; [|lia].
    exists got, out. by rewrite Hr1, Hw1. }
  apply recv_Some in Hrecv as (Hr1 & Hw1 & Hc1).
  assert (∀ n2, received n2 = received n1 → written n2 = written n1 → connections n2 = connections n1 →
    connected_since n0 0 n2) as Hlose.
  { intros n2 Hr2 Hw2 Hc2. exists (S lost). split; [|lia]. exists (got ++ [e]), out.
    rewrite Hr2, Hr1, Hr, Hw2, Hw1, Hw, app_assoc. split_and!; [done..|by apply sublist_inserts_r|].
    rewrite length_app. simpl. lia. }
  destruct (is_cancelled n1); [intros [= <- <-]; by apply Hlose|].
  destruct (to_vec_total e) as [d Hd]. rewrite Hd. pose proof (write_log (event_line d) n1) as (Hr2 & Hc2 & Hw2).
  destruct (write_all (event_line d) n1) as [[] n2]; simpl in *; intros [= <- <-].
  - exists lost. split; [|lia]. exists (got ++ [e]), (out ++ [e]).
    rewrite Hr2, Hr1, Hr, Hw2, Hw1, Hw, fmap_app, !app_assoc. split_and!; [done| |by apply sublist_app|].
    + simpl. unfold wire. by rewrite Hd.
    + rewrite !length_app. simpl. lia.
  - apply Hlose; [done|by rewrite Hw2, app_nil_r|done].
Qed.

Lemma export_loop_log n0 fuel n :
  connected_since n0 1 n → wlp (loop_fuel fuel export_round) (λ _ n', connected_since n0 0 n') n.
Proof using All. intros Hn. apply (wlp_loop_fuel _ (connected_since n0 1)); [done|apply export_round_log]. Qed.

Lemma connected_same n0 n n' k :
  received n' = received n → written n' = written n → (connections n + k = connections n')%nat →
  connected_since n0 0 n → connected_since n0 k n'.
Proof.
  intros Hr Hw Hk (lost & (got & out & Hg & Ho & Hs & Hl) & Hc). exists lost. split; [|lia].
  exists got, out. by rewrite Hr, Hw.
Qed.

Lemma exporter_round_log n0 fuel n :
  connected_since n0 0 n →
  wlp (exporter_round fuel) (λ c n', connected_since n0 0 n') n.
Proof using All.
  intros Hn c n'. unfold exporter_round, bindM, step, gets, mret, M_ret.
  destruct (is_cancelled n); [by intros [= <- <-]|].
  pose proof (connect_log n) as (Hr & Hw & Hc). destruct (tcp_connect n) as [[] n1]; simpl in *.
  - destruct (loop_fuel fuel export_round n1) as [[u n2]|p|] eqn:Hloop; [|done..]. intros [= <- <-].
    eapply (export_loop_log n0 fuel n1); [|exact Hloop]. eapply connected_same; [..|exact Hn]; (done || lia).
  - unfold modify. intros [= <- <-]. pose proof (sleep_log n1) as (Hr2 & Hw2 & Hc2).
    eapply connected_same; [..|exact Hn]; [by rewrite Hr2|by rewrite Hw2|lia].
Qed.

Lemma serving_log n0 n : serving n0 n → connected_since n0 0 n.
Proof using All.
  assert (∀ n, rtc round_step n0 n → connected_since n0 0 n) as Hrounds.
  { intros n' Hr. apply (rtc_ind_r (R := round_step) (connected_since n0 0) n0); [| |exact Hr].
    - exists 0%nat. split; [apply exported_refl|lia].
    - intros n1 n2 _ [fuel Heq] Hn. by eapply (exporter_round_log n0 fuel n1). }
  intros [Hr|(n1 & (n2 & Hr & _ & Hc) & Hs)]; [by apply Hrounds|].
  assert (connected_since n0 1 n) as (lost & He & Hl); [|exists lost; split; [done|lia]].
  apply (rtc_ind_r (R := event_step) (connected_since n0 1) n1); [| |exact Hs].
  - apply Hrounds in Hr. pose proof (connect_log n2) as (Hg & Hw & Hk). rewrite Hc in *. simpl in *.
    eapply connected_same; [..|exact Hr]; (done || lia).
  - intros m1 m2 _ Heq Hm. exact (export_round_log n0 m1 Hm Continue m2 Heq).
Qed.

(** C35: Wherever the exporter is, after any number of rounds and of events and
    whatever the network does, what it has written to the log server is a part
    of the events it was given, in their order, none of them twice; and of these
    it has lost no more than there were connections.  It dies of nothing and
    does not end by itself: it ends at the head of a round when the shutdown
    has been asked for, and while it has not ended it goes on from round to
    round, or from event to event.  A shutdown is seen at the head of a round,
    and by the first event after it, which is lost. *)
Theorem exporter_log n0 :
  (∀ n, serving n0 n →
     ∃ got out, received n = received n0 ++ got ∧ written n = written n0 ++ (wire <$> out) ∧
       out `sublist_of` got ∧ (length got ≤ length out + (connections n - connections n0))%nat) ∧
  (∀ rounds fuel,
     match exporter rounds fuel n0 with
     | Ok (_, n) => serving n0 n ∧ is_cancelled n = true
     | Panicked _ => False
     | Hang => (∃ n, nsteps round_step rounds n0 n) ∨ ∃ n1 n, connects n0 n1 ∧ nsteps event_step fuel n1 n
     end) ∧
  (∀ fuel n, is_cancelled n = true → exporter_round fuel n = Ok (Break, n)) ∧
  (∀ n e n', event_recv n = (Some e, n') → is_cancelled n' = true → export_round n = Ok (Break, n')).
Proof using All.
  split_and!.
  - intros n (lost & (got & out & Hr & Hw & Hs & Hl) & Hc)%serving_log. exists got, out. split_and!; [done..|lia].
  - intros rounds fuel. pose proof (exporter_runs rounds fuel n0) as Hx.
    destruct (exporter rounds fuel n0) as [[u n]|p|]; [|done..]. destruct Hx. split; [by left|done].
  - intros fuel n Hc. unfold exporter_round, bindM, gets. by rewrite Hc.
  - intros n e n' He Hc. unfold export_round, bindM, step, gets. by rewrite He, Hc.
Qed.
End ExporterLog.
