(* ===== verification/EventJson.v ===== *)
(** * Events as JSON (schedulers/common/src/events/model.rs)

    What the [Serialize] attributes of the events say: the tags, the flattened
    parts, the renamed and the converted fields.  [serde_json]'s text and
    [chrono]'s timestamps are third-party code. *)

From S2P Require Import Prelude Types Events Externals.
#[local] Open Scope string_scope.
#[local] Open Scope Z_scope.

#[warnings="-register-all"]
Inductive Json :=
| JNull
| JBool (b : bool)
| JNumber (n : Z)
| JString (s : string)
| JObject (fields : list (string * Json)).

(** [DateTime<Utc>] as text; [serde_json::to_string_pretty]. *)
Class Serde := { rfc3339 : Z → string; to_string_pretty : Json → string }.

Section EventJson.
Context `{SolanaCrates} `{Serde}.

Definition TransactionSource_json (s : TransactionSource) : Json :=
  JString (match s with Tpu => "Tpu" | Jito => "Jito" end).

Definition EvictReason_json (r : EvictReason) : Json :=
  JString (match r with
           | UncheckedCapacity => "UncheckedCapacity"
           | CheckedCapacity => "CheckedCapacity"
           end).

Definition option_json {A} (f : A → Json) (o : option A) : Json :=
  match o with Some a => f a | None => JNull end.

(** [#[serde(tag = "action")]]. *)
Definition TransactionAction_fields (a : TransactionAction) : list (string * Json) :=
  match a with
  | Ingest source bundle =>
      [("action", JString "Ingest"); ("source", TransactionSource_json source);
       ("bundle", option_json JString bundle)]
  | CheckOk => [("action", JString "CheckOk")]
  | CheckErr reason => [("action", JString "CheckErr"); ("reason", JNumber (CheckFailure_repr reason))]
  | ExecuteReq => [("action", JString "ExecuteReq")]
  | ExecuteOk => [("action", JString "ExecuteOk")]
  | ExecuteErr reason => [("action", JString "ExecuteErr"); ("reason", JNumber reason)]
  | ExecuteUnprocessed => [("action", JString "ExecuteUnprocessed")]
  | Evict reason => [("action", JString "Evict"); ("reason", EvictReason_json reason)]
  end.

(** The signature is displayed, the slot renamed, the action flattened. *)
Definition TransactionEvent_fields (e : TransactionEvent) : list (string * Json) :=
  ("signature", JString (signature_to_string (te_signature e)))
  :: ("tx_slot", JNumber (te_slot e))
  :: ("priority", JNumber (te_priority e))
  :: TransactionAction_fields (te_action e).

Definition SlotStatsEvent_fields (s : SlotStatsEvent) : list (string * Json) :=
  [("was_leader_ready", JBool (was_leader_ready s));
   ("ingest_tpu_ok", JNumber (ingest_tpu_ok s));
   ("ingest_tpu_err", JNumber (ingest_tpu_err s));
   ("ingest_tpu_evict", JNumber (ingest_tpu_evict s));
   ("ingest_tpu_filtered", JNumber (ingest_tpu_filtered s));
   ("ingest_custom_ok", JNumber (ingest_custom_ok s));
   ("ingest_custom_err", JNumber (ingest_custom_err s));
   ("ingest_custom_filtered", JNumber (ingest_custom_filtered s));
   ("check_requested", JNumber (check_requested s));
   ("check_ok", JNumber (check_ok s));
   ("check_err", JNumber (check_err s));
   ("check_evict", JNumber (check_evict s));
   ("check_filtered", JNumber (check_filtered s));
   ("execute_requested", JNumber (execute_requested s));
   ("execute_unprocessed", JNumber (execute_unprocessed s));
   ("execute_ok", JNumber (execute_ok s));
   ("execute_err", JNumber (execute_err s))].

(** [#[serde(tag = "type")]]. *)
Definition Event_fields (e : Event) : list (string * Json) :=
  match e with
  | SlotStart => [("type", JString "SlotStart")]
  | LeaderReady => [("type", JString "LeaderReady")]
  | SlotStats s => ("type", JString "SlotStats") :: SlotStatsEvent_fields s
  | Transaction t => ("type", JString "Transaction") :: TransactionEvent_fields t
  end.

Definition StampedEvent_json (e : StampedEvent) : Json :=
  JObject (("timestamp", JString (rfc3339 (timestamp e)))
    :: ("slot", JNumber (stamped_slot e))
    :: Event_fields (event e)).

Definition json_keys (j : Json) : list string :=
  match j with JObject fields => fields.*1 | _ => [] end.

(** No flattening makes a JSON object with a key twice, whatever the
    event: the slot of a transaction has a key of its own. *)
Lemma event_json_keys_NoDup (e : StampedEvent) : NoDup (json_keys (StampedEvent_json e)).
Proof.
  apply (bool_decide_unpack _). destruct e as [t sl [| |s|[sg ts p []]]]; vm_compute; exact I.
Qed.

(** ** Nothing is lost *)

Lemma TransactionSource_json_inj s s' : TransactionSource_json s = TransactionSource_json s' → s = s'.
Proof. by destruct s, s'. Qed.

Lemma EvictReason_json_inj r r' : EvictReason_json r = EvictReason_json r' → r = r'.
Proof. by destruct r, r'. Qed.

Lemma CheckFailure_repr_inj f f' : CheckFailure_repr f = CheckFailure_repr f' → f = f'.
Proof. by destruct f, f'. Qed.

Lemma option_string_inj (o o' : option string) : option_json JString o = option_json JString o' → o = o'.
Proof. destruct o, o'; simpl; congruence. Qed.

Lemma TransactionAction_fields_inj a a' : TransactionAction_fields a = TransactionAction_fields a' → a = a'.
Proof.
  destruct a, a'; simpl; try done.
  - intros [= Hs Hb]. f_equal; [by apply TransactionSource_json_inj; unfold TransactionSource_json; f_equal|by apply option_string_inj].
  - intros [= Hr]. f_equal. by apply CheckFailure_repr_inj.
  - by intros [= ->].
  - intros [= Hr]. f_equal. apply EvictReason_json_inj. unfold EvictReason_json. by f_equal.
Qed.

Lemma SlotStatsEvent_fields_inj s s' : SlotStatsEvent_fields s = SlotStatsEvent_fields s' → s = s'.
Proof. destruct s, s'. unfold SlotStatsEvent_fields. simpl. by intros [=]; subst. Qed.

(** C37: An event can be told from its JSON: two events with the same
    serialization are the same event of the same slot and time, provided
    timestamps and signatures can be told from their text. *)
Theorem event_json_injective (e e' : StampedEvent) :
  Inj (=) (=) rfc3339 → Inj (=) (=) signature_to_string →
  StampedEvent_json e = StampedEvent_json e' → e = e'.
Proof.
  intros Ht Hs. destruct e as [t sl ev], e' as [t' sl' ev']. unfold StampedEvent_json. simpl.
  intros [= <-%Ht <- He]. f_equal. destruct ev as [| |s|[sg ts p a]], ev' as [| |s'|[sg' ts' p' a']]; try done.
  - injection He as He. f_equal. apply SlotStatsEvent_fields_inj. unfold SlotStatsEvent_fields. congruence.
  - unfold Event_fields, TransactionEvent_fields in He. simpl in He.
    injection He as <-%Hs <- <- <-%TransactionAction_fields_inj. done.
Qed.
End EventJson.
