(* ===== verification/EventTests.v ===== *)
(** * The tests of the events (schedulers/common/src/events/model.rs, [mod tests])

    One definition per test: the subject an event is published under, and its
    JSON.  The expected text is written with single quotes for JSON's double
    ones.  [TestRuns] runs them. *)

From S2P Require Import Prelude Types Events Externals EventJson.
From Stdlib Require Import Ascii String.
#[local] Open Scope string_scope.
#[local] Open Scope Z_scope.

Definition newline : string := String "010" EmptyString.

Fixpoint dequote (s : string) : string :=
  match s with
  | EmptyString => EmptyString
  | String a s' => String (if Ascii.eqb a "'" then "034"%char else a) (dequote s')
  end.

(** [expect![[r#"..."#]]]: the lines of the text. *)
Definition expect (lines : list string) : string := String.concat newline (dequote <$> lines).

Definition assert_eq (expected actual : string) : bool := String.eqb expected actual.

(** [Signature::from([n; 64])]. *)
Definition signature_from (n : N) : Signature := foldl (λ acc b, acc * 256 + b)%N 0%N (replicate 64 n).

Section EventTests.
Context `{SolanaCrates} `{Serde}.

(** [serde_json::to_string_pretty] of an event stamped at the epoch. *)
Definition at_epoch (slot : Z) (e : Event) : string :=
  to_string_pretty (StampedEvent_json {| timestamp := 0; stamped_slot := slot; event := e |}).

Definition test_stats : SlotStatsEvent := {|
  was_leader_ready := true;
  ingest_tpu_ok := 7;
  ingest_tpu_err := 3;
  ingest_tpu_evict := 2;
  ingest_tpu_filtered := 1;
  ingest_custom_ok := 5;
  ingest_custom_err := 1;
  ingest_custom_filtered := 0;
  check_requested := 16;
  check_ok := 12;
  check_err := 4;
  check_filtered := 2;
  check_evict := 1;
  execute_requested := 7;
  execute_unprocessed := 0;
  execute_ok := 5;
  execute_err := 2;
|}.

Definition test_transaction (sig : N) (priority : Z) (action : TransactionAction) : Event :=
  Transaction {| te_signature := signature_from sig; te_slot := 100; te_priority := priority;
                 te_action := action |}.

Definition slot_start_subject : bool :=
  assert_eq "slot-start" (EventDiscriminants SlotStart).

Definition slot_start_event : bool :=
  assert_eq (expect [
    "{";
    "  'timestamp': '1970-01-01T00:00:00Z',";
    "  'slot': 100,";
    "  'type': 'SlotStart'";
    "}"
  ]) (at_epoch 100 SlotStart).

Definition leader_ready_subject : bool :=
  assert_eq "leader-ready" (EventDiscriminants LeaderReady).

Definition leader_ready_event : bool :=
  assert_eq (expect [
    "{";
    "  'timestamp': '1970-01-01T00:00:00Z',";
    "  'slot': 105,";
    "  'type': 'LeaderReady'";
    "}"
  ]) (at_epoch 105 LeaderReady).

Definition slot_stats_subject : bool :=
  assert_eq "slot-stats" (EventDiscriminants (SlotStats test_stats)).

Definition slot_stats_event : bool :=
  assert_eq (expect [
    "{";
    "  'timestamp': '1970-01-01T00:00:00Z',";
    "  'slot': 25,";
    "  'type': 'SlotStats',";
    "  'was_leader_ready': true,";
    "  'ingest_tpu_ok': 7,";
    "  'ingest_tpu_err': 3,";
    "  'ingest_tpu_evict': 2,";
    "  'ingest_tpu_filtered': 1,";
    "  'ingest_custom_ok': 5,";
    "  'ingest_custom_err': 1,";
    "  'ingest_custom_filtered': 0,";
    "  'check_requested': 16,";
    "  'check_ok': 12,";
    "  'check_err': 4,";
    "  'check_evict': 1,";
    "  'check_filtered': 2,";
    "  'execute_requested': 7,";
    "  'execute_unprocessed': 0,";
    "  'execute_ok': 5,";
    "  'execute_err': 2";
    "}"
  ]) (at_epoch 25 (SlotStats test_stats)).

Definition transaction_subject : bool :=
  assert_eq "transaction" (EventDiscriminants (test_transaction 1 5000 (Ingest Tpu None))).

Definition transaction_ingest_tpu : bool :=
  assert_eq (expect [
    "{";
    "  'timestamp': '1970-01-01T00:00:00Z',";
    "  'slot': 100,";
    "  'type': 'Transaction',";
    "  'signature': '2AXDGYSE4f2sz7tvMMzyHvUfcoJmxudvdhBcmiUSo6ijwfYmfZYsKRxboQMPh3R4kUhXRVdtSXFXMheka4Rc4P2',";
    "  'tx_slot': 100,";
    "  'priority': 5000,";
    "  'action': 'Ingest',";
    "  'source': 'Tpu',";
    "  'bundle': null";
    "}"
  ]) (at_epoch 100 (test_transaction 1 5000 (Ingest Tpu None))).

Definition transaction_ingest_jito_bundle : bool :=
  assert_eq (expect [
    "{";
    "  'timestamp': '1970-01-01T00:00:00Z',";
    "  'slot': 100,";
    "  'type': 'Transaction',";
    "  'signature': '3L3RY5sT8K4kyEnqhizwaqxLEbcYvpGrGPNEYRwtbCSUtL6YL86jdrvCbohnP5q8VxQ3qzGmt3W3iQJW97rD7m3',";
    "  'tx_slot': 100,";
    "  'priority': 10000,";
    "  'action': 'Ingest',";
    "  'source': 'Jito',";
    "  'bundle': 'bundle-abc123'";
    "}"
  ]) (at_epoch 100 (test_transaction 2 10000 (Ingest Jito (Some "bundle-abc123")))).

Definition transaction_check_ok : bool :=
  assert_eq (expect [
    "{";
    "  'timestamp': '1970-01-01T00:00:00Z',";
    "  'slot': 100,";
    "  'type': 'Transaction',";
    "  'signature': '2AXDGYSE4f2sz7tvMMzyHvUfcoJmxudvdhBcmiUSo6ijwfYmfZYsKRxboQMPh3R4kUhXRVdtSXFXMheka4Rc4P2',";
    "  'tx_slot': 100,";
    "  'priority': 5000,";
    "  'action': 'CheckOk'";
    "}"
  ]) (at_epoch 100 (test_transaction 1 5000 CheckOk)).

Definition transaction_check_err : bool :=
  assert_eq (expect [
    "{";
    "  'timestamp': '1970-01-01T00:00:00Z',";
    "  'slot': 100,";
    "  'type': 'Transaction',";
    "  'signature': '2AXDGYSE4f2sz7tvMMzyHvUfcoJmxudvdhBcmiUSo6ijwfYmfZYsKRxboQMPh3R4kUhXRVdtSXFXMheka4Rc4P2',";
    "  'tx_slot': 100,";
    "  'priority': 5000,";
    "  'action': 'CheckErr',";
    "  'reason': 1";
    "}"
  ]) (at_epoch 100 (test_transaction 1 5000 (CheckErr ParseOrSanitize))).

Definition transaction_execute_req : bool :=
  assert_eq (expect [
    "{";
    "  'timestamp': '1970-01-01T00:00:00Z',";
    "  'slot': 100,";
    "  'type': 'Transaction',";
    "  'signature': '2AXDGYSE4f2sz7tvMMzyHvUfcoJmxudvdhBcmiUSo6ijwfYmfZYsKRxboQMPh3R4kUhXRVdtSXFXMheka4Rc4P2',";
    "  'tx_slot': 100,";
    "  'priority': 5000,";
    "  'action': 'ExecuteReq'";
    "}"
  ]) (at_epoch 100 (test_transaction 1 5000 ExecuteReq)).

Definition transaction_execute_ok : bool :=
  assert_eq (expect [
    "{";
    "  'timestamp': '1970-01-01T00:00:00Z',";
    "  'slot': 100,";
    "  'type': 'Transaction',";
    "  'signature': '2AXDGYSE4f2sz7tvMMzyHvUfcoJmxudvdhBcmiUSo6ijwfYmfZYsKRxboQMPh3R4kUhXRVdtSXFXMheka4Rc4P2',";
    "  'tx_slot': 100,";
    "  'priority': 5000,";
    "  'action': 'ExecuteOk'";
    "}"
  ]) (at_epoch 100 (test_transaction 1 5000 ExecuteOk)).

Definition transaction_execute_err : bool :=
  assert_eq (expect [
    "{";
    "  'timestamp': '1970-01-01T00:00:00Z',";
    "  'slot': 100,";
    "  'type': 'Transaction',";
    "  'signature': '2AXDGYSE4f2sz7tvMMzyHvUfcoJmxudvdhBcmiUSo6ijwfYmfZYsKRxboQMPh3R4kUhXRVdtSXFXMheka4Rc4P2',";
    "  'tx_slot': 100,";
    "  'priority': 5000,";
    "  'action': 'ExecuteErr',";
    "  'reason': 42";
    "}"
  ]) (at_epoch 100 (test_transaction 1 5000 (ExecuteErr 42))).

Definition transaction_evict : bool :=
  assert_eq (expect [
    "{";
    "  'timestamp': '1970-01-01T00:00:00Z',";
    "  'slot': 100,";
    "  'type': 'Transaction',";
    "  'signature': '2AXDGYSE4f2sz7tvMMzyHvUfcoJmxudvdhBcmiUSo6ijwfYmfZYsKRxboQMPh3R4kUhXRVdtSXFXMheka4Rc4P2',";
    "  'tx_slot': 100,";
    "  'priority': 5000,";
    "  'action': 'Evict',";
    "  'reason': 'CheckedCapacity'";
    "}"
  ]) (at_epoch 100 (test_transaction 1 5000 (Evict CheckedCapacity))).

Definition event_tests : list bool := [
  slot_start_subject;
  slot_start_event;
  leader_ready_subject;
  leader_ready_event;
  slot_stats_subject;
  slot_stats_event;
  transaction_subject;
  transaction_ingest_tpu;
  transaction_ingest_jito_bundle;
  transaction_check_ok;
  transaction_check_err;
  transaction_execute_req;
  transaction_execute_ok;
  transaction_execute_err;
  transaction_evict
].
End EventTests.
