(* ===== verification/TipProgram.v ===== *)
(** * The tip programs' transactions (schedulers/common/src/jito/tip_program.rs)

    Account addresses are written in base 58, as in the source; an address is
    the 256-bit number of its bytes.  Signing, serializing and deriving program
    addresses is the Solana crates' business ([SolanaCrates]). *)

From S2P Require Import Prelude Types Events Externals.
From Stdlib Require Import Ascii.

(** ** Addresses *)

Definition base58_alphabet : string :=
  "123456789ABCDEFGHJKLMNPQRSTUVWXYZabcdefghijkmnopqrstuvwxyz".

Fixpoint index_of (c : ascii) (s : string) : option N :=
  match s with
  | EmptyString => None
  | String d s' =>
      if Ascii.eqb c d then Some 0%N
      else n ← index_of c s'; mret (n + 1)%N
  end.

Fixpoint base58_digits (acc : N) (s : string) : option N :=
  match s with
  | EmptyString => Some acc
  | String c s' =>
      d ← index_of c base58_alphabet;
      base58_digits (acc * 58 + d)%N s'
  end.

(** [pubkey!("...")]; every literal below decodes ([tip_accounts_decode]). *)
Definition pubkey (s : string) : Pubkey := default 0%N (base58_digits 0 s).

Definition TIP_PAYMENT_PROGRAM : Pubkey :=
  Eval vm_compute in pubkey "T1pyyaTNZsKv2WcRAB8oVnk93mLJw2XzjtVYqCsaHqt".
Definition TIP_PAYMENT_CONFIG : Pubkey :=
  Eval vm_compute in pubkey "HgzT81VF1xZ3FT9Eq1pHhea7Wcfq2bv4tWTP3VvJ8Y9D".

Definition TIP_ACCOUNTS : list Pubkey := Eval vm_compute in pubkey <$> [
  "96gYZGLnJYVFmbjzopPSU6QiEV5fGqZNyN9nmNhvrZU5";
  "HFqU5x63VTqvQss8hp11i4wVV8bD44PvwucfZ2bU7gRe";
  "Cw8CFyM9FkoMi7K7Crf6HNQqf4uEMzpKw6QNghXLvLkY";
  "ADaUMid9yfUytqMBgopwjb2DTLSokTSzL1zt6iGPaS49";
  "DfXygSm4jCyNCybVYYK6DwvWqjKee8pbDmJGcLWNDXjh";
  "ADuUkR4vqLUMWXxW9gh6D6L8pMSawimctcNZ5pGwDcEt";
  "DttWaMuVvTiduZRnguLF7jNxTgiMBZ1hyAumKUiL2KRL";
  "3AVi9Tg9Uo68tJfuvoKvqKNWKkC5wPdSSdeBnizKZ6jT"]%string.

Definition TIP_DISTRIBUTION_PROGRAM : Pubkey :=
  Eval vm_compute in pubkey "4R3gSG8BpU4t19KYj8CfnbtRpnT8gtk4dvTHxVRwc2r7".
Definition TIP_DISTRIBUTION_CONFIG : Pubkey :=
  Eval vm_compute in pubkey "STGR71TeAeycQUDKzku1GqPQdErQcTcdqxJuQmCjBu6".

(** ** Encodings *)

(** [iN::to_le_bytes]; borsh writes integers the same way. *)
Fixpoint to_le_bytes (n : nat) (z : Z) : u8s :=
  match n with
  | O => []
  | S n' => z mod 256 :: to_le_bytes n' (z / 256)
  end.

(** ASCII bytes of a byte-string literal. *)
Fixpoint byte_string (s : string) : u8s :=
  match s with
  | EmptyString => []
  | String c s' => Z.of_nat (nat_of_ascii c) :: byte_string s'
  end.

(** [AccountMeta::new(key, is_signer)] is writable, [new_readonly] is not. *)
Definition meta_new (k : Pubkey) (is_signer : bool) : AccountMeta :=
  {| am_pubkey := k; am_is_signer := is_signer; am_is_writable := true |}.
Definition meta_new_readonly (k : Pubkey) (is_signer : bool) : AccountMeta :=
  {| am_pubkey := k; am_is_signer := is_signer; am_is_writable := false |}.

(** ** The transactions *)

Record TipDistributionArgs := {
  vote_account : Pubkey;
  merkle_authority : Pubkey;
  commission_bps : Z;
}.

Record ChangeTipReceiverArgs := {
  old_tip_receiver : Pubkey;
  new_tip_receiver : Pubkey;
  old_block_builder : Pubkey;
  new_block_builder : Pubkey;
  block_builder_commission : Z;
}.

Section TipTransactions.
Context `{SolanaCrates}.

Definition init_tip_distribution_data (args : TipDistributionArgs) (bump : Z) : u8s :=
  [120; 191; 25; 182; 111; 49; 179; 55]
  ++ pubkey_to_bytes (merkle_authority args)
  ++ to_le_bytes 2 (commission_bps args)
  ++ to_le_bytes 1 bump.

Definition init_tip_distribution (keypair : Keypair) (args : TipDistributionArgs)
    (epoch : Z) (recent_blockhash : Hash) : Pubkey * u8s :=
  let '(distribution_key, distribution_bump) :=
    find_program_address
      [byte_string "TIP_DISTRIBUTION_ACCOUNT"; pubkey_to_bytes (vote_account args);
       to_le_bytes 8 epoch]
      TIP_DISTRIBUTION_PROGRAM in
  let ix := {|
    program_id := TIP_DISTRIBUTION_PROGRAM;
    ix_bytes := init_tip_distribution_data args distribution_bump;
    accounts := [
      meta_new_readonly TIP_DISTRIBUTION_CONFIG false;
      meta_new distribution_key false;
      meta_new_readonly (vote_account args) false;
      meta_new (keypair_pubkey keypair) true;
      meta_new_readonly system_program_ID false] |} in
  (distribution_key, sign_and_serialize [ix] (keypair_pubkey keypair) keypair recent_blockhash).

Definition change_tip_ix (keypair : Keypair) (args : ChangeTipReceiverArgs) : Instruction := {|
  program_id := TIP_PAYMENT_PROGRAM;
  ix_bytes := [69; 99; 22; 71; 11; 231; 86; 143];
  accounts :=
    [meta_new TIP_PAYMENT_CONFIG false;
     meta_new (old_tip_receiver args) false;
     meta_new (new_tip_receiver args) false;
     meta_new (old_block_builder args) false]
    ++ ((λ k, meta_new k false) <$> TIP_ACCOUNTS)
    ++ [meta_new (keypair_pubkey keypair) true];
|}.

Definition change_block_builder_ix (keypair : Keypair) (args : ChangeTipReceiverArgs)
    : Instruction := {|
  program_id := TIP_PAYMENT_PROGRAM;
  ix_bytes := [134; 80; 38; 137; 165; 21; 114; 123]
              ++ to_le_bytes 8 (block_builder_commission args);
  accounts :=
    [meta_new TIP_PAYMENT_CONFIG false;
     meta_new (new_tip_receiver args) false;
     meta_new (old_block_builder args) false;
     meta_new (new_block_builder args) false]
    ++ ((λ k, meta_new k false) <$> TIP_ACCOUNTS)
    ++ [meta_new (keypair_pubkey keypair) true];
|}.

Definition change_tip_receiver (keypair : Keypair) (args : ChangeTipReceiverArgs)
    (recent_blockhash : Hash) : u8s :=
  sign_and_serialize [change_tip_ix keypair args; change_block_builder_ix keypair args]
    (keypair_pubkey keypair) keypair recent_blockhash.
End TipTransactions.

(** ** Facts *)

Lemma length_to_le_bytes n z : length (to_le_bytes n z) = n.
Proof. revert z. induction n; intros; simpl; auto. Qed.

(** Every literal decodes to a 32-byte number, and the tip accounts differ. *)
Lemma tip_accounts_decode :
  NoDup TIP_ACCOUNTS ∧ Forall (λ k, 2 ^ 240 < k < 2 ^ 256)%N
    (TIP_PAYMENT_PROGRAM :: TIP_PAYMENT_CONFIG :: TIP_DISTRIBUTION_PROGRAM
     :: TIP_DISTRIBUTION_CONFIG :: TIP_ACCOUNTS).
Proof.
  split.
  - apply (bool_decide_eq_true_1 (NoDup TIP_ACCOUNTS)). by vm_compute.
  - repeat constructor.
Qed.
