(* ===== verification/Costs.v ===== *)
(** * Costs, rewards and tips of a transaction
    (schedulers/common/src/lib.rs, tx_costs.rs; [calculate_priority] and
    [extract_tip] of schedulers/batch-scheduler/src/lib.rs) *)

From S2P Require Import Prelude Types Events Externals TipProgram.

Definition PRIORITY_MULTIPLIER : Z := 1000000.

(** [u64::MAX] marks the transactions of a bundle. *)
Definition BUNDLE_MARKER : Z := U64_MAX.

(** ** tx_costs.rs *)

Record TxCosts := {
  tc_prioritization_fee : Z;
  tc_compute_unit_limit : Z;
  total_cost : Z;
}.

Definition compute_unit_price (c : TxCosts) : Z :=
  tc_prioritization_fee c / saturating_add (tc_compute_unit_limit c) 1.

Definition derive_costs `{SolanaCrates} (tx : TransactionView) (features : FeatureSet) : option TxCosts :=
  rt_tx ← runtime_transaction_try_new tx;
  details ← compute_budget_details_try_from (tv_program_instructions tx);
  limits ← sanitize_and_convert_to_compute_budget_limits details features;
  mret {| tc_prioritization_fee := prioritization_fee limits;
          tc_compute_unit_limit := compute_unit_limit limits;
          total_cost := cost_model_sum rt_tx features |}.

(** ** common/src/lib.rs *)

(** The reward's arithmetic: what is left of the fee after the burn, plus the
    prioritization fee.  [None]: the multiplication overflowed. *)
Definition reward_of `{Profile} (burn_pct : Z) (fees : FeeDetails) : Res (option Z) :=
  match checked_mul (transaction_fee fees) burn_pct with
  | None => mret None
  | Some product =>
      let burn := product / 100 in
      base_fee ← u64_sub "calculate_cost_and_reward: base_fee" (transaction_fee fees) burn;
      mret (Some (saturating_add base_fee (fd_prioritization_fee fees)))
  end.

(** The fallible first part: the runtime transaction and its budget limits. *)
Definition runtime_limits `{SolanaCrates} (features : FeatureSet) (tx : TransactionView)
    : option (RuntimeTransaction * ComputeBudgetLimits) :=
  rt_tx ← runtime_transaction_try_new tx;
  details ← compute_budget_details_try_from (tv_program_instructions tx);
  limits ← sanitize_and_convert_to_compute_budget_limits details features;
  mret (rt_tx, limits).

Definition calculate_cost_and_reward `{Profile} `{SolanaCrates}
    (runtime : RuntimeState) (tx : TransactionView) : Res (option (Z * Z)) :=
  match runtime_limits (feature_set runtime) tx with
  | None => mret None
  | Some (rt_tx, limits) =>
      let cost := cost_model_sum rt_tx (feature_set runtime) in
      let fees := calculate_fee_details rt_tx (lamports_per_signature runtime)
                    (prioritization_fee limits) (fee_features runtime) in
      reward ← reward_of (burn_percent runtime) fees;
      mret (option_map (pair cost) reward)
  end.

(** ** batch-scheduler: priorities and tips *)

Definition priority_of (cost reward : Z) : Z :=
  Z.min (saturating_mul reward PRIORITY_MULTIPLIER / saturating_add cost 1) (BUNDLE_MARKER - 1).

Definition calculate_priority `{Profile} `{SolanaCrates}
    (runtime : RuntimeState) (tx : TransactionView) : Res (option (Z * Z)) :=
  r ← calculate_cost_and_reward runtime tx;
  mret (option_map (λ '(cost, reward), (priority_of cost reward, cost)) r).

(** The priority of a bundle: [checked_div] by at least one never fails. *)
Definition bundle_priority (total_cost total_reward : Z) : Z :=
  default 0 (checked_div (saturating_mul total_reward PRIORITY_MULTIPLIER) (Z.max total_cost 1)).

(** [iN::from_le_bytes] of an array. *)
Fixpoint from_le_bytes (l : u8s) : Z :=
  match l with
  | [] => 0
  | b :: l' => b + 256 * from_le_bytes l'
  end.

(** [array_ref![data, offset, len]]. *)
Definition array_ref (data : u8s) (offset len : nat) : u8s := take len (drop offset data).

(** The tip one instruction pays: a system-program transfer
    (discriminator 2) whose destination is a tip account. *)
Definition instruction_tip `{SolanaCrates} (account_keys : list Pubkey)
    (pi : Pubkey * InstructionView) : option Z :=
  let '(program_id, ix) := pi in
  if bool_decide (program_id ≠ system_program_ID)
     || (length (ix_data ix) <? 12)%nat
     || negb (from_le_bytes (array_ref (ix_data ix) 0 4) =? 2)
  then None
  else
    dest_idx ← ix_accounts ix !! 1%nat;
    dest ← account_keys !! Z.to_nat dest_idx;
    if decide (dest ∈ TIP_ACCOUNTS)
    then Some (from_le_bytes (array_ref (ix_data ix) 4 8))
    else None.

(** [Iterator::sum] adds with the profile's overflow behaviour. *)
Fixpoint sum_u64 `{Profile} (site : string) (acc : Z) (l : list Z) : Res Z :=
  match l with
  | [] => mret acc
  | x :: l' =>
      acc' ← u64_add site acc x;
      sum_u64 site acc' l'
  end.

Definition extract_tip `{Profile} `{SolanaCrates} (tx : TransactionView) : Res Z :=
  sum_u64 "extract_tip: sum" 0
    (omap (instruction_tip (tv_static_account_keys tx)) (tv_program_instructions tx)).

(** ** Facts *)

Lemma saturating_add_u64 a b : 0 ≤ a → 0 ≤ b → is_u64 (saturating_add a b).
Proof. unfold is_u64, saturating_add, U64_MAX. lia. Qed.

Lemma saturating_mul_u64 a b : 0 ≤ a → 0 ≤ b → is_u64 (saturating_mul a b).
Proof. unfold is_u64, saturating_mul, U64_MAX. nia. Qed.

(** A priority is never the bundle marker. *)
Lemma priority_of_bounds c r : 0 ≤ c → 0 ≤ r → 0 ≤ priority_of c r < BUNDLE_MARKER.
Proof.
  intros Hc Hr. unfold priority_of.
  pose proof (saturating_mul_u64 r PRIORITY_MULTIPLIER Hr) as Hm.
  pose proof (saturating_add_u64 c 1 Hc) as Ha.
  assert (0 ≤ saturating_mul r PRIORITY_MULTIPLIER / saturating_add c 1).
  { apply Z.div_pos; unfold is_u64, saturating_add, PRIORITY_MULTIPLIER, U64_MAX in *; lia. }
  unfold BUNDLE_MARKER, U64_MAX in *. lia.
Qed.

(** The priority grows with the reward and falls with the cost. *)
Lemma priority_of_mono c c' r r' :
  0 ≤ c ≤ c' → 0 ≤ r' ≤ r → priority_of c' r' ≤ priority_of c r.
Proof.
  intros Hc Hr. unfold priority_of. apply Z.min_le_compat_r.
  set (m := saturating_mul r PRIORITY_MULTIPLIER).
  set (m' := saturating_mul r' PRIORITY_MULTIPLIER).
  set (d := saturating_add c 1). set (d' := saturating_add c' 1).
  assert (0 < d ≤ d') by (unfold d, d', saturating_add, U64_MAX; lia).
  assert (0 ≤ m' ≤ m) by (unfold m, m', saturating_mul, PRIORITY_MULTIPLIER, U64_MAX; lia).
  transitivity (m' / d); [apply Z.div_le_compat_l; lia | apply Z.div_le_mono; lia].
Qed.

(** With a burn of at most 100 percent the subtraction never underflows: what
    is kept of the fee is the fee minus the burn. *)
Lemma reward_of_ok `{Profile} pct fees :
  is_u64 (transaction_fee fees) → 0 ≤ pct ≤ 100 → 0 ≤ fd_prioritization_fee fees →
  reward_of pct fees = Ok
    (if decide (transaction_fee fees * pct ≤ U64_MAX)
     then Some (saturating_add (transaction_fee fees - transaction_fee fees * pct / 100)
                  (fd_prioritization_fee fees))
     else None).
Proof.
  intros Hf Hp Hpf. unfold reward_of, checked_mul. case_decide; [|done].
  rewrite u64_sub_ok; [done..|].
  split; [apply Z.div_pos; unfold is_u64 in *; nia|].
  apply Z.div_le_upper_bound; unfold is_u64 in *; nia.
Qed.

Lemma sum_u64_overflows `{Profile} site acc l : overflows_only (sum_u64 site acc l).
Proof.
  revert acc. induction l as [|x l IH]; intros acc; simpl; [done|].
  pose proof (checked_result_overflows 64 site (acc + x)) as Ho.
  unfold u64_add. destruct (checked_result 64 site (acc + x)); [apply IH|done..].
Qed.
