(* ===== verification/Common.v ===== *)
(** * Calls into the world that both schedulers make

    Each is one call of the source lifted to the state monad, with its
    [unwrap] or panic; and [EventEmitter::emit]
    (schedulers/common/src/events/emitter.rs). *)

From S2P Require Import Prelude BTreeSet Types Events Externals.

Definition CHECK_WORKER : nat := 0.
Definition EXECUTE_WORKER_START : nat := 1.

Record RuntimeConfig := {
  max_check_batches : nat;
  block_fill_cutoff : Z;
  progress_timeout : Z;
  bundle_expiry : Z;
}.

#[export] Instance RuntimeConfig_eta : Eta RuntimeConfig := λ r, {|
  max_check_batches := max_check_batches r;
  block_fill_cutoff := block_fill_cutoff r;
  progress_timeout := progress_timeout r;
  bundle_expiry := bundle_expiry r;
|}.

(** Durations are in nanoseconds. *)
Definition from_millis (ms : Z) : Z := ms * 1000000.
Definition from_secs (s : Z) : Z := s * 1000000000.

Definition RuntimeConfig_default : RuntimeConfig := {|
  max_check_batches := 4;
  block_fill_cutoff := 20;
  progress_timeout := from_secs 5;
  bundle_expiry := from_millis 200;
|}.

(** ** The share of the block

    What a round of [schedule_execute] may spend, in either scheduler. *)

Section Share.
Context `{Profile} `{AgaveBindings}.

(** The share of the block that may be filled, and what is filled already. *)
Definition block_share (p : ProgressMessage) (r : RuntimeConfig) : Z :=
  MAX_BLOCK_UNITS_SIMD_0256 * Z.min (current_slot_progress p + block_fill_cutoff r) 100 / 100.

Definition block_used (p : ProgressMessage) : Z :=
  saturating_sub MAX_BLOCK_UNITS_SIMD_0256 (remaining_cost_units p).

(** The arithmetic of [schedule_execute] stays in its widths. *)
Definition budget_in_range (p : ProgressMessage) (r : RuntimeConfig) (in_flight : Z) : Prop :=
  0 ≤ current_slot_progress p ∧ 0 ≤ block_fill_cutoff r ∧
  current_slot_progress p + block_fill_cutoff r ≤ U8_MAX ∧
  0 ≤ remaining_cost_units p ∧
  MAX_BLOCK_UNITS_SIMD_0256 + in_flight ≤ U64_MAX.

Lemma share_budget_ok `{!AgaveBindingsLaws} p r in_flight :
  budget_in_range p r in_flight → 0 ≤ in_flight →
  (pct ← u8_add "budget_percentage" (current_slot_progress p) (block_fill_cutoff r);
   product ← u64_mul "budget_limit" MAX_BLOCK_UNITS_SIMD_0256 (Z.min pct 100);
   let budget_limit := product / 100 in
   cost_used ← u64_add "cost_used"
     (saturating_sub MAX_BLOCK_UNITS_SIMD_0256 (remaining_cost_units p)) in_flight;
   mret (saturating_sub budget_limit cost_used))
  = Ok (saturating_sub (block_share p r) (block_used p + in_flight)).
Proof.
  intros (Hp & Hc & Hpc & Hr & Hi) Hcus. destruct max_block_units_bound as [Hm0 Hm].
  unfold u8_add, u64_mul. rewrite checked_result_in by (unfold U8_MAX in *; lia). simpl.
  rewrite checked_result_in by (unfold U64_MAX in *; nia). simpl.
  rewrite u64_add_ok; [done|unfold saturating_sub; lia..].
Qed.

Lemma block_share_bounds `{!AgaveBindingsLaws} p r in_flight :
  budget_in_range p r in_flight → 0 ≤ block_share p r ≤ MAX_BLOCK_UNITS_SIMD_0256.
Proof.
  intros (Hp & Hc & _). destruct max_block_units_bound as [Hm0 _]. unfold block_share. split.
  - apply Z.div_pos; nia.
  - apply Z.div_le_upper_bound; nia.
Qed.

Lemma block_used_nonneg p : 0 ≤ block_used p.
Proof. unfold block_used, saturating_sub. lia. Qed.
End Share.

Section WorldCalls.
Context `{World W} {D : Type}.
Abbreviation S := (St D W).

Definition self {A} (f : D → A) : M S A := gets (λ s, f (sch s)).
Definition update (f : D → D) : M S unit := modify (λ s, s <| sch ::= f |>).
Definition bridge {A} (f : W → A) : M S A := gets (λ s, f (wld s)).
Definition update_world (f : W → W) : M S unit := modify (λ s, s <| wld ::= f |>).

(** A call that answers and changes the world. *)
Definition call {A} (f : W → A * W) : M S A :=
  step (λ s, let '(a, w) := f (wld s) in (a, s <| wld := w |>)).

(** [bridge.transaction(key)]. *)
Definition transaction (k : TransactionKey) : M S TransactionState :=
  let* o := bridge (λ w, w_transaction w k) in
  match o with
  | Some t => mret t
  | None => panic (PExternal "bridge.transaction")
  end.

(** [bridge.schedule(batch).unwrap()]. *)
Definition schedule (b : ScheduleBatch) : M S unit :=
  let* o := bridge (w_schedule b) in
  let* w := unwrap "bridge.schedule" o in
  update_world (λ _, w).

Definition drop_transaction (k : TransactionKey) : M S unit :=
  update_world (w_drop_transaction k).

Definition insert_transaction (packet : u8s) : M S (option TransactionKey) :=
  call (w_insert_transaction packet).

Definition increment (m : Metric) (n : Z) : M S unit := update_world (w_metric_increment m n).
Definition set_gauge (m : Metric) (n : Z) : M S unit := update_world (w_metric_set m n).

(** [EventEmitter::emit]: stamp and send; a full channel drops the event
    (and logs once, which is not modelled). *)
Definition emit (e : EventEmitter) (ev : Event) : M S unit :=
  let* now := call w_utc_now in
  let* _ := call (w_events_try_send
    {| timestamp := now; stamped_slot := ctx_slot (ctx e); event := ev |}) in
  mret tt.
End WorldCalls.

(** ** Rules for the calls *)

Section WorldRules.
Context `{World W} {D : Type} (E : Panic → Prop).
Implicit Types (s : St D W).

Lemma wp_self {A} (f : D → A) Q s : Q (f (sch s)) s → wp E (self f) Q s.
Proof. done. Qed.

Lemma wp_self_id Q s : Q (sch s) s → wp E (self (@id D)) Q s.
Proof. done. Qed.

Lemma wp_update (f : D → D) Q s : Q tt (mk (f (sch s)) (wld s)) → wp E (update f) Q s.
Proof. done. Qed.

Lemma wp_bridge {A} (f : W → A) Q s : Q (f (wld s)) s → wp E (bridge f) Q s.
Proof. done. Qed.

Lemma wp_update_world (f : W → W) Q s :
  Q tt (mk (sch s) (f (wld s))) → wp E (update_world f) Q s.
Proof. done. Qed.

Lemma wp_call {A} (f : W → A * W) Q s :
  Q (f (wld s)).1 (mk (sch s) (f (wld s)).2) → wp E (call f) Q s.
Proof. unfold wp, call, step. by destruct (f (wld s)). Qed.

Lemma wp_of_res {A} (r : Res A) a Q s : r = Ok a → Q a s → wp E (of_res r) Q s.
Proof. by intros ->. Qed.

Lemma wp_of_res_cases {A} (r : Res A) Q s :
  (∀ a, r = Ok a → Q a s) → (∀ p, r = Panicked p → E p) → r ≠ Hang → wp E (of_res r) Q s.
Proof. unfold wp, of_res. destruct r; naive_solver. Qed.

Lemma wp_transaction k tx Q s :
  w_transaction (wld s) k = Some tx → Q tx s → wp E (transaction k) Q s.
Proof. unfold wp, transaction, bindM, bridge, gets. by intros ->. Qed.

Lemma wp_schedule b Q s :
  E (PUnwrap "bridge.schedule") →
  (∀ w', w_schedule b (wld s) = Some w' → Q tt (mk (sch s) w')) →
  wp E (schedule b) Q s.
Proof.
  intros HE HQ. unfold wp, schedule, bindM, bridge, gets, unwrap.
  destruct (w_schedule b (wld s)) eqn:Hs; [|done]. by apply HQ.
Qed.

Lemma wp_schedule_some b w' Q s :
  w_schedule b (wld s) = Some w' → Q tt (mk (sch s) w') → wp E (schedule b) Q s.
Proof. intros Hs HQ. unfold wp, schedule, bindM, bridge, gets, unwrap. by rewrite Hs. Qed.
End WorldRules.

(** [wp_steps] runs the code up to the next call that needs an argument. *)
Ltac wp_step :=
  lazymatch goal with
  | |- wp _ (bindM _ _) _ _ => apply wp_bind
  | |- wp _ (mret _) _ _ => apply wp_ret
  | |- wp _ (self (@id _)) _ _ => apply wp_self_id
  | |- wp _ (self _) _ _ => apply wp_self
  | |- wp _ (update _) _ _ => apply wp_update
  | |- wp _ (bridge _) _ _ => apply wp_bridge
  | |- wp _ (update_world _) _ _ => apply wp_update_world
  | |- wp _ (call _) _ _ => apply wp_call
  end; cbv beta.
Ltac wp_steps := repeat wp_step.
