(* ===== verification/RustString.v ===== *)
(** * Text

    The functions of [str] that the repository's log parser calls, on strings
    of ASCII characters. *)

From S2P Require Import Prelude.
From Stdlib Require Import Ascii String.
Open Scope string_scope.
Open Scope Z_scope.

(** [s.split(c)]: the pieces between the separators, one at least. *)
Fixpoint split (c : ascii) (s : string) : list string :=
  match s with
  | EmptyString => [EmptyString]
  | String a s' =>
      if decide (a = c) then EmptyString :: split c s'
      else match split c s' with
           | [] => [String a EmptyString]
           | p :: ps => String a p :: ps
           end
  end.

(** [s.splitn(n, c)]: at most [n] pieces, the last one with the rest. *)
Fixpoint splitn (n : nat) (c : ascii) (s : string) : list string :=
  match n with
  | O => []
  | S O => [s]
  | S n' =>
      (fix go s := match s with
       | EmptyString => [EmptyString]
       | String a s' =>
           if decide (a = c) then EmptyString :: splitn n' c s'
           else match go s' with
                | [] => [String a EmptyString]
                | p :: ps => String a p :: ps
                end
       end) s
  end.

(** [s.split_inclusive(c)]: each piece with its separator; no empty last one. *)
Fixpoint split_inclusive (c : ascii) (s : string) : list string :=
  match s with
  | EmptyString => []
  | String a s' =>
      if decide (a = c) then String a EmptyString :: split_inclusive c s'
      else match split_inclusive c s' with
           | [] => [String a EmptyString]
           | p :: ps => String a p :: ps
           end
  end.

Fixpoint strip_suffix (c : ascii) (s : string) : option string :=
  match s with
  | EmptyString => None
  | String a EmptyString => if decide (a = c) then Some EmptyString else None
  | String a s' => String a <$> strip_suffix c s'
  end.

Definition newline : ascii := "010".
Definition carriage_return : ascii := "013".

(** [s.lines()]: without the line ends, [\n] or [\r\n]. *)
Definition lines (s : string) : list string :=
  (λ line, match strip_suffix newline line with
           | None => line
           | Some line => default line (strip_suffix carriage_return line)
           end) <$> split_inclusive newline s.

Definition starts_with (c : ascii) (s : string) : bool :=
  match s with String a _ => bool_decide (a = c) | EmptyString => false end.

(** [s.contains(needle)]. *)
Fixpoint contains (needle s : string) : bool :=
  prefix needle s || match s with EmptyString => false | String _ s' => contains needle s' end.

Definition is_whitespace (a : ascii) : bool :=
  let n := nat_of_ascii a in ((9 <=? n) && (n <=? 13) || (n =? 32))%nat.

Fixpoint trim_start (s : string) : string :=
  match s with
  | String a s' => if is_whitespace a then trim_start s' else s
  | EmptyString => EmptyString
  end.

Fixpoint trim_end (s : string) : string :=
  match s with
  | EmptyString => EmptyString
  | String a s' =>
      match trim_end s' with
      | EmptyString => if is_whitespace a then EmptyString else String a EmptyString
      | s'' => String a s''
      end
  end.

Definition trim (s : string) : string := trim_end (trim_start s).

(** [s.parse::<u64>()]: digits, a [+] before them perhaps, in the range. *)
Definition digit (a : ascii) : option Z :=
  let n := Z.of_nat (nat_of_ascii a) in
  if decide (48 ≤ n ≤ 57) then Some (n - 48) else None.

Fixpoint parse_digits (acc : Z) (s : string) : option Z :=
  match s with
  | EmptyString => Some acc
  | String a s' =>
      d ← digit a;
      let acc' := acc * 10 + d in
      if decide (acc' ≤ U64_MAX) then parse_digits acc' s' else None
  end.

Definition parse_u64 (s : string) : option Z :=
  match s with
  | EmptyString => None
  | String "+" EmptyString => None
  | String "+" s' => parse_digits 0 s'
  | _ => parse_digits 0 s
  end.

(** ** Joining and splitting again *)

Fixpoint free_of (c : ascii) (s : string) : Prop :=
  match s with EmptyString => True | String a s' => a ≠ c ∧ free_of c s' end.

Lemma splitn_free n c s t :
  free_of c s → splitn (S (S n)) c (s +:+ String c t) = s :: splitn (S n) c t.
Proof.
  intros Hs. induction s as [|a s IH]; simpl.
  - by rewrite decide_True.
  - destruct Hs as [Ha Hs]. rewrite decide_False by done. specialize (IH Hs). simpl in IH. by rewrite IH.
Qed.

Lemma split_free c s : free_of c s → split c s = [s].
Proof.
  induction s as [|a s IH]; [done|]. intros [Ha Hs]. simpl. by rewrite decide_False, IH.
Qed.

Lemma split_cons_free c s t : free_of c s → split c (s +:+ String c t) = s :: split c t.
Proof.
  intros Hs. induction s as [|a s IH]; simpl; [by rewrite decide_True|].
  destruct Hs as [Ha Hs]. by rewrite decide_False, IH.
Qed.
