(* ===== verification/ReplayLog.v ===== *)
(** * The log of the replay benchmark (external-scheduler/benches/replay_bench.rs)

    What becomes of a validator's log before it is replayed: [parse_log],
    [segment_into_windows], [segment_window_into_slots] and
    [assign_ticks_real].  Timestamps are [u128]s in nanoseconds; base64 is a
    third-party decoder, and the deserialized transaction a list of signatures. *)

From S2P Require Import Prelude F64 RustString Types TipProgram Costs.
From Stdlib Require Import Ascii Sorted.
#[local] Open Scope string_scope.
#[local] Open Scope list_scope.
#[local] Open Scope Z_scope.

Definition TICKS_PER_SLOT : Z := 64.
Definition LEADER_GAP_SECS : f64 := Eval vm_compute in f64_of_Z 5.
Definition BLOCK_CU_BUDGET : Z := 60000000.

Record TxInEntry := { timestamp_ns : Z; tx_bytes : u8s; signature : string }.

Record LeaderWindow := { entries : list TxInEntry; duration_ns : Z }.

Record BenchReport := {
  total_packed : Z;
  total_dropped : Z;
  total_revenue_lamports : Z;
  total_batches : Z;
  total_tx_in : Z;
  total_windows : Z;
  avg_batch_size : f64;
  packed_mainnet_processed : Z;
  total_mainnet_processed : Z;
}.

#[export] Instance BenchReport_eta : Eta BenchReport := λ r, {|
  total_packed := total_packed r;
  total_dropped := total_dropped r;
  total_revenue_lamports := total_revenue_lamports r;
  total_batches := total_batches r;
  total_tx_in := total_tx_in r;
  total_windows := total_windows r;
  avg_batch_size := avg_batch_size r;
  packed_mainnet_processed := packed_mainnet_processed r;
  total_mainnet_processed := total_mainnet_processed r;
|}.

Definition finalize (r : BenchReport) : BenchReport :=
  r <| avg_batch_size :=
    if 0 <? total_batches r
    then f64_div (f64_of_Z (total_packed r)) (f64_of_Z (total_batches r)) else f64_zero |>.

(** ** Arithmetic of [u128] and [as usize] *)

Definition u128_sub `{Profile} (site : string) (a b : Z) : Res Z := checked_result 128 site (a - b).
Definition u128_mul `{Profile} (site : string) (a b : Z) : Res Z := checked_result 128 site (a * b).
Definition as_usize (z : Z) : Z := z mod 2 ^ 64.

(** ** Parsing *)

Section Parsing.
Context `{Profile} (base64_decode : string → option u8s).

(** [parts.next()?.parse().ok()?] on pieces. *)
Definition next_u64 (parts : list string) : option (Z * list string) :=
  match parts with
  | [] => None
  | p :: parts' => n ← parse_u64 p; Some (n, parts')
  end.

Record Stamp := { year : Z; month : Z; day : Z; hour : Z; minute : Z; sec : Z; nanos : Z }.

(** The fields of a timestamp. *)
Definition parse_fields (date time : string) : option Stamp :=
  let parts := split "-"%char date in
  '(year, parts) ← next_u64 parts;
  '(month, parts) ← next_u64 parts;
  '(day, _) ← next_u64 parts;
  let tparts := split ":"%char time in
  '(hour, tparts) ← next_u64 tparts;
  '(minute, tparts) ← next_u64 tparts;
  sec_frac ← hd_error tparts;
  let sf := split "."%char sec_frac in
  '(sec, sf) ← next_u64 sf;
  nanos ← parse_u64 (default "0" (hd_error sf));
  Some {| year := year; month := month; day := day; hour := hour; minute := minute; sec := sec; nanos := nanos |}.

(** [days * 86400 + hour * 3600 + minute * 60 + sec], in [u64]. *)
Definition total_secs (s : Stamp) : Res Z :=
  y ← u64_mul "year * 365" (year s) 365;
  m ← u64_mul "month * 30" (month s) 30;
  ym ← u64_add "days" y m;
  days ← u64_add "days" ym (day s);
  ds ← u64_mul "days * 86400" days 86400;
  hs ← u64_mul "hour * 3600" (hour s) 3600;
  dh ← u64_add "total_secs" ds hs;
  ms ← u64_mul "minute * 60" (minute s) 60;
  dhm ← u64_add "total_secs" dh ms;
  u64_add "total_secs" dhm (sec s).

Definition parse_timestamp_ns (date time : string) : Res (option Z) :=
  match parse_fields date time with
  | None => mret None
  | Some s =>
      secs ← total_secs s;
      mret (Some (secs * 1000000000 + nanos s))
  end.

Record Log := { log_entries : list TxInEntry; dropped_on_receive : gset string; mainnet_processed : gset string }.

#[local] Instance Log_eta : Eta Log := λ l, {|
  log_entries := log_entries l;
  dropped_on_receive := dropped_on_receive l;
  mainnet_processed := mainnet_processed l;
|}.

Definition parse_tx_in (log : Log) (line : string) : Res Log :=
  match splitn 6 " "%char line with
  | [date; time; _; sig; _; base64_tx] =>
      ts ← parse_timestamp_ns date time;
      match ts, base64_decode (trim base64_tx) with
      | Some ts, Some bytes =>
          mret (log <| log_entries ::= λ es,
            es ++ [{| timestamp_ns := ts; tx_bytes := bytes; signature := sig |}] |>)
      | _, _ => mret log
      end
  | _ => mret log
  end.

Definition parse_tx_out (log : Log) (line : string) : Log :=
  match splitn 6 " "%char line with
  | [_; _; _; sig; _; status] =>
      if contains "DropOnReceive" (trim status)
      then log <| dropped_on_receive ::= λ s, {[sig]} ∪ s |>
      else log <| mainnet_processed ::= λ s, {[sig]} ∪ s |>
  | _ => log
  end.

(** The loop body: comments and separators are skipped. *)
Definition parse_line (log : Log) (line : string) : Res Log :=
  if starts_with "-"%char line || String.eqb line "" then mret log
  else if contains "tx_in_signature:" line then parse_tx_in log line
  else if contains "tx_out_signature:" line then mret (parse_tx_out log line)
  else mret log.

Fixpoint fold_res {A B} (f : A → B → Res A) (a : A) (l : list B) : Res A :=
  match l with
  | [] => mret a
  | x :: l' => a' ← f a x; fold_res f a' l'
  end.

(** [Vec::sort_by_key], which is stable. *)
Fixpoint insert_by_key {A} (f : A → Z) (x : A) (l : list A) : list A :=
  match l with
  | [] => [x]
  | y :: l' => if f x <=? f y then x :: l else y :: insert_by_key f x l'
  end.

Definition sort_by_key {A} (f : A → Z) (l : list A) : list A := foldr (insert_by_key f) [] l.

(** The contents of the file, if it could be read. *)
Definition parse_log (contents : option string) : Res Log :=
  match contents with
  | None => Panicked (PExternal "Failed to read log file")
  | Some contents =>
      log ← fold_res parse_line {| log_entries := []; dropped_on_receive := ∅; mainnet_processed := ∅ |}
              (lines contents);
      mret (log <| log_entries ::= sort_by_key timestamp_ns |>)
  end.
End Parsing.

(** ** Leader windows *)

Section Windows.
Context `{Profile}.

Definition gap_ns : Z := Eval vm_compute in f64_to_u64 (f64_mul LEADER_GAP_SECS (f64_of_Z 1000000000)).

Definition first_ts (l : list TxInEntry) : Res Z :=
  match l with e :: _ => mret (timestamp_ns e) | [] => Panicked (PUnwrap "current[0]") end.
Definition last_ts (l : list TxInEntry) : Res Z :=
  match last l with Some e => mret (timestamp_ns e) | None => Panicked (PUnwrap "current.last()") end.

Definition close_window (current : list TxInEntry) : Res LeaderWindow :=
  first ← first_ts current;
  last ← last_ts current;
  duration ← u128_sub "last_ts - first_ts" last first;
  mret {| entries := current; duration_ns := duration |}.

Definition segment_entry (acc : list LeaderWindow * list TxInEntry) (entry : TxInEntry)
    : Res (list LeaderWindow * list TxInEntry) :=
  let '(windows, current) := acc in
  prev_ts ← last_ts current;
  if gap_ns <=? Z.max (timestamp_ns entry - prev_ts) 0 then
    w ← close_window current;
    mret (windows ++ [w], [entry])
  else mret (windows, current ++ [entry]).

Definition segment_into_windows (es : list TxInEntry) : Res (list LeaderWindow) :=
  match es with
  | [] => mret []
  | e :: es' =>
      '(windows, current) ← fold_res segment_entry ([], [e]) es';
      w ← close_window current;
      mret (windows ++ [w])
  end.

(** ** Slots of a window *)

Definition slot_ns : Z := 400000000.

Definition slot_entry (base_ts : Z) (acc : list LeaderWindow * list TxInEntry * Z) (entry : TxInEntry)
    : Res (list LeaderWindow * list TxInEntry * Z) :=
  let '(slots, current_bucket, current_slot_idx) := acc in
  offset ← u128_sub "entry.timestamp_ns - base_ts" (timestamp_ns entry) base_ts;
  let slot_idx := as_usize (offset / slot_ns) in
  if slot_idx =? current_slot_idx then mret (slots, current_bucket ++ [entry], current_slot_idx)
  else
    let slots := match current_bucket with
                 | [] => slots
                 | _ :: _ => slots ++ [{| entries := current_bucket; duration_ns := slot_ns |}]
                 end in
    mret (slots, [entry], slot_idx).

(** The duration of the last slot. *)
Definition last_duration (window_duration slot_idx : Z) : Res Z :=
  start ← u128_mul "current_slot_idx * slot_ns" slot_idx slot_ns;
  last_dur ← (if start <? window_duration then u128_sub "last_dur" window_duration start else mret slot_ns);
  mret (Z.max last_dur 1).

Definition segment_window_into_slots (window : LeaderWindow) : Res (list LeaderWindow) :=
  match entries window with
  | [] => mret []
  | e :: _ =>
      '(slots, current_bucket, current_slot_idx) ←
        fold_res (slot_entry (timestamp_ns e)) ([], [], 0) (entries window);
      match current_bucket with
      | [] => mret slots
      | _ :: _ =>
          last_dur ← last_duration (duration_ns window) current_slot_idx;
          mret (slots ++ [{| entries := current_bucket; duration_ns := last_dur |}])
      end
  end.

(** ** Ticks of a window *)

Definition tick_ns : Z := 6250000.

Definition tick_entry (base_ts total_ticks : Z) (buckets : list (list nat)) (idx_entry : nat * TxInEntry)
    : Res (list (list nat)) :=
  let '(idx, entry) := idx_entry in
  offset ← u128_sub "entry.timestamp_ns - base_ts" (timestamp_ns entry) base_ts;
  let tick := Z.min (as_usize (offset / tick_ns)) (total_ticks - 1) in
  match buckets !! Z.to_nat tick with
  | None => Panicked (PUnwrap "buckets[tick]")
  | Some b => mret (<[Z.to_nat tick := b ++ [idx]]> buckets)
  end.

Definition assign_ticks_real (window : LeaderWindow) : Res (Z * list (list nat)) :=
  base_ts ← first_ts (entries window);
  let total_ticks := Z.max (as_usize (duration_ns window / tick_ns)) 1 in
  buckets ← fold_res (tick_entry base_ts total_ticks) (replicate (Z.to_nat total_ticks) [])
              (imap pair (entries window));
  mret (total_ticks, buckets).

(** [extract_fee_lamports], of the signatures' bytes. *)
Definition extract_fee_lamports (signatures : list u8s) : Z :=
  match signatures with
  | [] => 5000
  | sig :: _ => 5000 + from_le_bytes (take 4 sig) mod 100000
  end.
End Windows.
