(* ===== verification/ReplaySegments.v ===== *)
(** * Windows, slots and ticks of the replay benchmark

    What [ReplayLog]'s segmentation makes of transactions in the order of their
    arrival: groups that partition them in order, told apart by the gaps
    between neighbours, by the 400 ms since the window's start, and by the
    6.25 ms since the slot's start. *)

From S2P Require Import Prelude RustString Types ReplayLog.
From stdpp Require Import sorting.
#[local] Open Scope list_scope.
#[local] Open Scope Z_scope.

(** ** Lists *)

Lemma Sorted_snoc_iff {A} (R : A → A → Prop) l x :
  Sorted R (l ++ [x]) ↔ Sorted R l ∧ ∀ y, last l = Some y → R y x.
Proof.
  induction l as [|a l IH]; simpl.
  { split; [by repeat constructor|]. intros _. by repeat constructor. }
  destruct l as [|b l].
  - simpl in *. split.
    + intros [_ Hh]%Sorted_inv. apply HdRel_inv in Hh. split; [by repeat constructor|]. by intros y [= <-].
    + intros [_ HR]. by repeat constructor; auto.
  - cbn [app] in *. split.
    + intros [Hs Hh]%Sorted_inv. apply IH in Hs as [Hs HR]. apply HdRel_inv in Hh.
      split; [constructor; [done|by constructor]|exact HR].
    + intros [[Hs Hh]%Sorted_inv HR]. apply HdRel_inv in Hh. constructor; [by apply IH|by constructor].
Qed.

Lemma concat_snoc {A} (ls : list (list A)) l : concat (ls ++ [l]) = concat ls ++ l.
Proof. rewrite concat_app. simpl. by rewrite app_nil_r. Qed.

Lemma Forall_snoc_iff {A} (P : A → Prop) l x : Forall P (l ++ [x]) ↔ Forall P l ∧ P x.
Proof. by rewrite Forall_app, Forall_singleton. Qed.

Lemma fold_res_ok {A B} (f : A → B → Res A) (I : list B → A → Prop) l a :
  I [] a →
  (∀ pre x post a, l = pre ++ x :: post → I pre a → ∃ a', f a x = Ok a' ∧ I (pre ++ [x]) a') →
  ∃ a', fold_res f a l = Ok a' ∧ I l a'.
Proof.
  intros HI Hf.
  assert (∀ post pre a, l = pre ++ post → I pre a → ∃ a', fold_res f a post = Ok a' ∧ I l a') as H.
  { induction post as [|x post IH]; intros pre a0 Hl Ha.
    - rewrite app_nil_r in Hl. subst. by exists a0.
    - destruct (Hf pre x post a0 Hl Ha) as (a' & Heq & Ha'). simpl. rewrite Heq. simpl.
      apply (IH (pre ++ [x])); [by rewrite <- app_assoc|done]. }
  by apply (H l []).
Qed.

(** ** Arrivals *)

Definition arrives_before (a b : TxInEntry) : Prop := timestamp_ns a ≤ timestamp_ns b.
Definition is_u128 (z : Z) : Prop := 0 ≤ z < 2 ^ 128.

(** Transactions in the order of their arrival. *)
Record arrivals (es : list TxInEntry) : Prop := {
  arr_sorted : StronglySorted arrives_before es;
  arr_range : Forall (λ e, is_u128 (timestamp_ns e)) es;
}.

Lemma arrivals_app l k : arrivals (l ++ k) → arrivals l ∧ arrivals k.
Proof.
  intros [Hs Hr]. apply StronglySorted_app in Hs as (_ & Hl & Hk). apply Forall_app in Hr as [Hrl Hrk].
  by repeat split.
Qed.

Lemma arrivals_order l a k b m :
  arrivals (l ++ a :: k ++ b :: m) → timestamp_ns a ≤ timestamp_ns b.
Proof.
  intros [Hs _]. apply StronglySorted_app in Hs as (_ & _ & Hs). apply StronglySorted_inv in Hs as [_ Ha].
  rewrite Forall_forall in Ha. apply Ha. rewrite elem_of_app. right. by left.
Qed.

Lemma arrivals_in es e : arrivals es → e ∈ es → is_u128 (timestamp_ns e).
Proof. intros [_ Hr] He. rewrite Forall_forall in Hr. by apply Hr. Qed.

Lemma arrivals_head e es x : arrivals (e :: es) → x ∈ e :: es → timestamp_ns e ≤ timestamp_ns x.
Proof.
  intros [Hs _] [->|Hx]%elem_of_cons; [done|]. apply StronglySorted_inv in Hs as [_ Ha].
  rewrite Forall_forall in Ha. by apply Ha.
Qed.

Lemma arrivals_last es l x : arrivals es → last es = Some l → x ∈ es → timestamp_ns x ≤ timestamp_ns l.
Proof.
  intros Ha (k & ->)%last_Some Hx. apply elem_of_app in Hx as [Hx| ->%list_elem_of_singleton]; [|done].
  destruct Ha as [Hs _]. apply StronglySorted_app in Hs as (Hlk & _ & _). apply Hlk; [done|by left].
Qed.

Lemma u128_sub_ok `{Profile} site a b : is_u128 a → is_u128 b → b ≤ a → u128_sub site a b = Ok (a - b).
Proof. intros Ha Hb Hle. apply checked_result_in. unfold is_u128 in *. lia. Qed.

(** ** Windows *)

Section Windows.
Context `{Profile}.

(** Neighbours of a window; windows that follow each other. *)
Definition close (a b : TxInEntry) : Prop := timestamp_ns b - timestamp_ns a < gap_ns.
Definition apart (l k : list TxInEntry) : Prop :=
  ∃ a b, last l = Some a ∧ hd_error k = Some b ∧ gap_ns ≤ timestamp_ns b - timestamp_ns a.

(** The duration of a group is from its first to its last transaction. *)
Definition spans (w : LeaderWindow) : Prop :=
  ∃ a b, hd_error (entries w) = Some a ∧ last (entries w) = Some b ∧
         duration_ns w = timestamp_ns b - timestamp_ns a.

Definition window_groups (es : list TxInEntry) (gs : list (list TxInEntry)) : Prop :=
  concat gs = es ∧ Forall (λ g, g ≠ []) gs ∧ Forall (Sorted close) gs ∧ Sorted apart gs.

Lemma close_window_ok cur :
  arrivals cur → cur ≠ [] → ∃ w, close_window cur = Ok w ∧ entries w = cur ∧ spans w.
Proof.
  intros Ha Hne. destruct cur as [|e cur]; [done|].
  destruct (last (e :: cur)) as [l|] eqn:Hl; [|by apply last_None in Hl].
  assert (l ∈ e :: cur) as Hin by (apply last_Some in Hl as (k & ->); apply elem_of_app; right; by left).
  unfold close_window, first_ts, last_ts. rewrite Hl. simpl.
  rewrite u128_sub_ok; [|by eapply arrivals_in|by eapply arrivals_in; [|left]|by eapply arrivals_head].
  simpl. eexists. split; [done|]. split; [done|]. by exists e, l.
Qed.

(** One round: the last group is [current]. *)
Lemma segment_entry_ok es ws cur x :
  arrivals (es ++ [x]) → window_groups es ((entries <$> ws) ++ [cur]) → Forall spans ws →
  ∃ ws' cur', segment_entry (ws, cur) x = Ok (ws', cur') ∧
    window_groups (es ++ [x]) ((entries <$> ws') ++ [cur']) ∧ Forall spans ws'.
Proof.
  intros Ha (Hc & Hne & Hcl & Hap) Hsp. rewrite concat_snoc in Hc.
  apply Forall_snoc_iff in Hne as [Hne Hcur]. apply Forall_snoc_iff in Hcl as [Hcl Hclc].
  destruct (arrivals_app _ _ Ha) as [Hes _]. rewrite <- Hc in Hes.
  destruct (arrivals_app _ _ Hes) as [_ Hacur].
  destruct (last cur) as [p|] eqn:Hl; [|by apply last_None in Hl].
  unfold segment_entry, last_ts. rewrite Hl. simpl. destruct (Z.leb_spec gap_ns (Z.max (timestamp_ns x - timestamp_ns p) 0)) as [Hg|Hg].
  - destruct (close_window_ok cur Hacur Hcur) as (w & -> & Hw & Hspw). simpl.
    eexists _, _. split; [done|]. rewrite fmap_app. simpl. rewrite Hw. split.
    + unfold window_groups. rewrite concat_snoc, concat_snoc, Hc.
      rewrite !Forall_snoc_iff. split_and!; try done; [by repeat constructor|].
      rewrite Sorted_snoc_iff. split; [done|]. intros y. rewrite last_snoc. intros [= <-].
      exists p, x. split_and!; [done..|]. unfold gap_ns in *. lia.
    + by apply Forall_snoc_iff.
  - eexists _, _. split; [done|]. split; [|done]. unfold window_groups. rewrite concat_snoc, app_assoc, Hc.
    split_and!; [done| | |].
    + apply Forall_snoc_iff. split; [done|]. by destruct cur.
    + apply Forall_snoc_iff. split; [done|]. apply Sorted_snoc_iff. split; [done|].
      rewrite Hl. intros y [= <-]. unfold close. lia.
    + apply Sorted_snoc_iff in Hap as [Hap HR]. apply Sorted_snoc_iff. split; [done|]. intros y Hy.
      destruct (HR y Hy) as (a & b & Hla & Hhb & Hg'). exists a, b. by destruct cur.
Qed.

(** The leader windows are the transactions of the log, in order, cut at
    the gaps of five seconds and nowhere else: no window is empty, two
    neighbours in a window are less than five seconds apart, the last of a
    window and the first of the next at least five; and a window's duration is
    the time from its first to its last transaction. *)
Lemma segment_into_windows_ok (es : list TxInEntry) :
  arrivals es →
  ∃ ws, segment_into_windows es = Ok ws ∧ window_groups es (entries <$> ws) ∧ Forall spans ws.
Proof.
  intros Ha. destruct es as [|e es].
  { exists []. split; [done|]. by repeat constructor. }
  unfold segment_into_windows.
  destruct (fold_res_ok segment_entry
    (λ pre acc, window_groups (e :: pre) ((entries <$> acc.1) ++ [acc.2]) ∧ Forall spans acc.1)
    es ([], [e])) as ([ws cur] & Heq & (Hg & Hsp)).
  - split; [|constructor]. by repeat constructor.
  - intros pre x post [ws cur] -> [Hg Hsp].
    assert (arrivals ((e :: pre) ++ [x])) as Hax.
    { apply (arrivals_app _ post). by rewrite <- app_assoc. }
    destruct (segment_entry_ok _ _ _ _ Hax Hg Hsp) as (ws' & cur' & Heq & Hg' & Hsp').
    by exists (ws', cur').
  - simpl in *. rewrite Heq. simpl. destruct Hg as (Hc & Hne & Hrest).
    apply Forall_snoc_iff in Hne as [Hne Hcur].
    rewrite concat_snoc in Hc. rewrite <- Hc in Ha. destruct (arrivals_app _ _ Ha) as [_ Hacur].
    destruct (close_window_ok cur Hacur Hcur) as (w & -> & Hw & Hspw). simpl.
    exists (ws ++ [w]). split; [done|]. rewrite fmap_app. simpl. rewrite Hw. split.
    + split; [by rewrite concat_snoc|]. by rewrite Forall_snoc_iff.
    + by apply Forall_snoc_iff.
Qed.


(** ** Slots *)

Definition slot_of (base : Z) (e : TxInEntry) : Z := (timestamp_ns e - base) / slot_ns.

Definition same_slot (base : Z) (g : list TxInEntry) : Prop := ∃ k, Forall (λ e, slot_of base e = k) g.
Definition earlier (base : Z) (g g' : list TxInEntry) : Prop :=
  ∀ a b, a ∈ g → b ∈ g' → slot_of base a < slot_of base b.

Definition slot_groups (base : Z) (es : list TxInEntry) (gs : list (list TxInEntry)) : Prop :=
  concat gs = es ∧ Forall (λ g, g ≠ []) gs ∧ Forall (same_slot base) gs ∧ Sorted (earlier base) gs.

(** The duration of a slot covers its transactions and is one of 400 ms at most. *)
Definition covers (w : LeaderWindow) : Prop :=
  1 ≤ duration_ns w ≤ slot_ns ∧
  ∀ a b, a ∈ entries w → b ∈ entries w → timestamp_ns b - timestamp_ns a ≤ duration_ns w.

(** A window that [segment_into_windows] makes; so short that the index of a
    slot is a [usize]. *)
Record well_formed (w : LeaderWindow) : Prop := {
  wf_arrivals : arrivals (entries w);
  wf_spans : spans w;
  wf_short : duration_ns w / slot_ns < 2 ^ 64;
}.

Lemma slot_of_mono base a b : timestamp_ns a ≤ timestamp_ns b → slot_of base a ≤ slot_of base b.
Proof. intros. apply Z.div_le_mono; unfold slot_ns; lia. Qed.

Lemma slot_of_bounds base e : slot_of base e * slot_ns ≤ timestamp_ns e - base < (slot_of base e + 1) * slot_ns.
Proof.
  unfold slot_of. pose proof (Z.div_mod (timestamp_ns e - base) slot_ns ltac:(done)).
  pose proof (Z.mod_pos_bound (timestamp_ns e - base) slot_ns ltac:(done)). lia.
Qed.

Lemma same_slot_covers base g :
  same_slot base g → covers {| entries := g; duration_ns := slot_ns |}.
Proof.
  intros [k Hk]. rewrite Forall_forall in Hk. split; [done|]. simpl. intros a b Ha Hb.
  pose proof (slot_of_bounds base a). pose proof (slot_of_bounds base b).
  rewrite (Hk a Ha), (Hk b Hb) in *. lia.
Qed.

(** The index of the entry's slot is computed without truncation. *)
Lemma slot_index_ok base e :
  base ≤ timestamp_ns e → slot_of base e < 2 ^ 64 → as_usize ((timestamp_ns e - base) / slot_ns) = slot_of base e.
Proof.
  intros Hle Hlt. apply Z.mod_small. split; [|exact Hlt]. apply Z.div_pos; [lia|done].
Qed.

(** One round after the first: [bucket] holds the transactions of slot [idx]. *)
Definition slots_inv (base : Z) (pre : list TxInEntry) (acc : list LeaderWindow * list TxInEntry * Z) : Prop :=
  let '(slots, bucket, idx) := acc in
  slot_groups base pre ((entries <$> slots) ++ [bucket]) ∧
  Forall (λ e, slot_of base e = idx) bucket ∧
  Forall (λ w, duration_ns w = slot_ns) slots.

Lemma slot_entry_ok base pre acc x :
  arrivals (pre ++ [x]) → is_u128 base → base ≤ timestamp_ns x → slot_of base x < 2 ^ 64 →
  slots_inv base pre acc →
  ∃ acc', slot_entry base acc x = Ok acc' ∧ slots_inv base (pre ++ [x]) acc'.
Proof.
  intros Ha Hb Hle Hlt. destruct acc as [[slots bucket] idx]. intros ((Hc & Hne & Hsame & Hs) & Hidx & Hdur).
  rewrite concat_snoc in Hc. apply Forall_snoc_iff in Hne as [Hne Hbk].
  apply Forall_snoc_iff in Hsame as [Hsame Hsb].
  assert (∀ a, a ∈ pre → timestamp_ns a ≤ timestamp_ns x) as Hpre.
  { intros a Hap. destruct Ha as [Hss _]. apply StronglySorted_app in Hss as (Hss & _). apply Hss; [done|by left]. }
  assert (is_u128 (timestamp_ns x)) as Hx.
  { apply (arrivals_in (pre ++ [x])); [done|]. apply elem_of_app. right. by left. }
  unfold slot_entry. rewrite (u128_sub_ok _ _ _ Hx Hb Hle). simpl. rewrite (slot_index_ok base x Hle Hlt).
  destruct (Z.eqb_spec (slot_of base x) idx) as [He|He].
  - eexists. split; [done|]. split; [|by rewrite Forall_snoc_iff]. unfold slot_groups.
    rewrite concat_snoc, app_assoc, Hc, !Forall_snoc_iff. split_and!; try done.
    + by destruct bucket.
    + exists idx. by rewrite Forall_snoc_iff.
    + apply Sorted_snoc_iff in Hs as [Hs HR]. apply Sorted_snoc_iff. split; [done|].
      intros y Hy a b Hay [Hb'| ->%list_elem_of_singleton]%elem_of_app; [by apply (HR y)|].
      destruct bucket as [|c bk]; [done|]. apply Forall_cons_1 in Hidx as [Hcx _].
      rewrite He, <- Hcx. apply (HR y); [done..|by left].
  - destruct bucket as [|c bk] eqn:Hbucket; [done|]. rewrite <- Hbucket in *.
    assert (idx < slot_of base x) as Hlt'.
    { subst bucket. apply Forall_cons_1 in Hidx as [<- _].
      assert (slot_of base c ≤ slot_of base x); [|lia]. apply slot_of_mono, Hpre. rewrite <- Hc.
      apply elem_of_app. right. by left. }
    eexists. split; [done|]. split; [|split].
    + rewrite fmap_app. simpl. unfold slot_groups.
      rewrite concat_snoc, concat_snoc, Hc, !Forall_snoc_iff. split_and!; try done.
      * exists (slot_of base x). by repeat constructor.
      * apply Sorted_snoc_iff. split; [done|]. intros y. rewrite last_snoc. intros [= <-] a b Hab ->%list_elem_of_singleton.
        rewrite Forall_forall in Hidx. by rewrite (Hidx a Hab).
    + by repeat constructor.
    + by rewrite Forall_snoc_iff.
Qed.

Lemma well_formed_bounds w e es x :
  well_formed w → entries w = e :: es → x ∈ e :: es →
  is_u128 (timestamp_ns e) ∧ is_u128 (timestamp_ns x) ∧ timestamp_ns e ≤ timestamp_ns x ∧
  timestamp_ns x - timestamp_ns e ≤ duration_ns w ∧ slot_of (timestamp_ns e) x < 2 ^ 64.
Proof.
  intros [Ha (a & b & Hh & Hl & Hd) Hshort] He Hx. rewrite He in *. injection Hh as <-.
  pose proof (arrivals_last _ _ _ Ha Hl Hx) as Hle. pose proof (arrivals_head _ _ _ Ha Hx) as Hge.
  split_and!; [by eapply arrivals_in; [|left]|by eapply arrivals_in|done|lia|].
  eapply Z.le_lt_trans; [|exact Hshort]. apply Z.div_le_mono; unfold slot_ns; lia.
Qed.

Lemma last_duration_ok base bucket idx dur l :
  Forall (λ e, slot_of base e = idx) bucket → last bucket = Some l →
  (∀ a, a ∈ bucket → timestamp_ns a ≤ timestamp_ns l) →
  dur = timestamp_ns l - base → 0 ≤ dur < 2 ^ 128 →
  ∃ d, last_duration dur idx = Ok d ∧ covers {| entries := bucket; duration_ns := d |}.
Proof.
  intros Hidx Hl Hlast Hd Hr. rewrite Forall_forall in Hidx.
  assert (l ∈ bucket) as Hin by (apply last_Some in Hl as (k & ->); apply elem_of_app; right; by left).
  pose proof (slot_of_bounds base l) as Hb. rewrite (Hidx l Hin) in Hb. rewrite <- Hd in Hb.
  assert (0 ≤ idx) as H0 by (rewrite <- (Hidx l Hin); apply Z.div_pos; [lia|done]).
  unfold last_duration, u128_mul. rewrite checked_result_in by (unfold slot_ns in *; lia). simpl.
  assert (∀ a b, a ∈ bucket → b ∈ bucket → timestamp_ns b - timestamp_ns a ≤ dur - idx * slot_ns) as Hext.
  { intros a b Hab Hbb. pose proof (slot_of_bounds base a) as Hba. rewrite (Hidx a Hab) in Hba.
    specialize (Hlast b Hbb). lia. }
  destruct (Z.ltb_spec (idx * slot_ns) dur) as [Hlt|Hge].
  - unfold u128_sub. rewrite checked_result_in by (unfold slot_ns in *; lia). simpl. eexists. split; [done|].
    split; simpl; [lia|]. intros a b Hab Hbb. specialize (Hext a b Hab Hbb). lia.
  - simpl. eexists. split; [done|]. split; [done|]. simpl. intros a b Hab Hbb.
    specialize (Hext a b Hab Hbb). unfold slot_ns in *. lia.
Qed.

Lemma slot_entry_first e :
  is_u128 (timestamp_ns e) → slot_entry (timestamp_ns e) ([], [], 0) e = Ok ([], [e], 0).
Proof. intros He. unfold slot_entry. rewrite u128_sub_ok by done. by rewrite Z.sub_diag. Qed.

Lemma slots_fold w e es :
  well_formed w → entries w = e :: es →
  ∃ acc, fold_res (slot_entry (timestamp_ns e)) ([], [], 0) (e :: es) = Ok acc ∧
         slots_inv (timestamp_ns e) (e :: es) acc.
Proof.
  intros Hw He. pose proof Hw as [Ha _ _]. rewrite He in Ha.
  destruct (well_formed_bounds w e es e Hw He ltac:(by left)) as (Hb & _).
  assert (slot_of (timestamp_ns e) e = 0) as H0 by (unfold slot_of; by rewrite Z.sub_diag).
  cbn [fold_res]. rewrite slot_entry_first by done. simpl.
  apply (fold_res_ok (slot_entry (timestamp_ns e)) (λ pre acc, slots_inv (timestamp_ns e) (e :: pre) acc)).
  - split; [|by repeat constructor]. repeat constructor; try done. exists 0. by repeat constructor.
  - intros pre x post acc -> Hinv.
    destruct (well_formed_bounds w e (pre ++ x :: post) x Hw He) as (_ & _ & Hle & _ & Hlt).
    { right. apply elem_of_app. right. by left. }
    apply (slot_entry_ok (timestamp_ns e) (e :: pre) acc x); [|done..].
    apply (arrivals_app _ post). by rewrite <- app_assoc.
Qed.

(** The slots of a window are its transactions, in order, grouped by the
    400 ms in which they arrived since the window's start: no slot is empty or
    holds two of these intervals, later slots are of later intervals, and a
    slot's duration covers its transactions and is at most 400 ms. *)
Lemma segment_window_into_slots_ok w :
  well_formed w →
  ∃ e ws, hd_error (entries w) = Some e ∧ segment_window_into_slots w = Ok ws ∧
    slot_groups (timestamp_ns e) (entries w) (entries <$> ws) ∧ Forall covers ws.
Proof.
  intros Hw. pose proof Hw as [Ha (e & l & Hh & Hl & Hd) _].
  destruct (entries w) as [|e' es] eqn:He; [done|]. injection Hh as ->.
  unfold segment_window_into_slots. rewrite He.
  destruct (slots_fold w e es Hw He) as ([[slots bucket] idx] & -> & (Hc & Hne & Hsame & Hs) & Hidx & Hdur).
  cbn [mbind Res_bind]. rewrite concat_snoc in Hc.
  apply Forall_snoc_iff in Hne as [Hne Hbk]. pose proof Hsame as Hsame'. apply Forall_snoc_iff in Hsame' as [Hsl _].
  destruct (last bucket) as [l'|] eqn:Hlb; [|by apply last_None in Hlb].
  assert (l' = l) as ->.
  { rewrite <- Hc, last_app, Hlb in Hl. by injection Hl. }
  assert (∀ a, a ∈ bucket → a ∈ e :: es) as Hsub by (intros a Hab; rewrite <- Hc; apply elem_of_app; by right).
  destruct (well_formed_bounds w e es l Hw He) as (Hbe & Hbl & Hle & _).
  { apply Hsub. apply last_Some in Hlb as (k & ->). apply elem_of_app. right. by left. }
  destruct (last_duration_ok (timestamp_ns e) bucket idx (duration_ns w) l) as (d & Hd' & Hcov);
    [done..| |done|unfold is_u128 in *; lia|].
  { intros a Hab. apply (arrivals_last (e :: es)); auto. }
  destruct bucket as [|c bk] eqn:Hbucket; [done|]. rewrite <- Hbucket in *. rewrite Hd'. simpl.
  exists e, (slots ++ [{| entries := bucket; duration_ns := d |}]). split; [done|]. split; [done|].
  rewrite fmap_app. simpl. split.
  - unfold slot_groups. by rewrite concat_snoc, Forall_snoc_iff.
  - apply Forall_snoc_iff. split; [|done]. rewrite Forall_forall in Hsl. rewrite Forall_forall in Hdur.
    apply Forall_forall. intros w' Hin.
    specialize (Hdur w' Hin). destruct w' as [g d']. simpl in Hdur. subst d'.
    apply (same_slot_covers (timestamp_ns e)), Hsl. apply list_elem_of_fmap. by exists {| entries := g; duration_ns := slot_ns |}.
Qed.


(** ** Ticks *)

Definition tick_of (base total : Z) (e : TxInEntry) : Z := Z.min ((timestamp_ns e - base) / tick_ns) (total - 1).

Lemma concat_empty {A} (ls : list (list A)) : (∀ t b, ls !! t = Some b → b = []) → concat ls = [].
Proof.
  induction ls as [|l ls IH]; intros He; [done|]. simpl. rewrite (He 0%nat l) by done.
  apply IH. intros t. apply (He (S t)).
Qed.

Lemma concat_bucket {A} (ls : list (list A)) t b x :
  ls !! t = Some b → (∀ t' b', (t < t')%nat → ls !! t' = Some b' → b' = []) →
  concat (<[t := b ++ [x]]> ls) = concat ls ++ [x].
Proof.
  revert t. induction ls as [|l ls IH]; intros t Ht He; [done|]. destruct t as [|t]; simpl.
  - injection Ht as ->. rewrite (concat_empty ls); [by rewrite !app_nil_r|].
    intros t' b'. apply (He (S t') b'). lia.
  - rewrite (IH t) by (done || (intros t' b' Hlt; apply (He (S t') b'); lia)). by rewrite app_assoc.
Qed.

(** The transactions seen so far are in the buckets of their ticks, in order. *)
Record ticks_inv (base total : Z) (pre : list (nat * TxInEntry)) (buckets : list (list nat)) : Prop := {
  ti_length : length buckets = Z.to_nat total;
  ti_concat : concat buckets = pre.*1;
  ti_tick t b i : buckets !! t = Some b → i ∈ b → ∃ x, (i, x) ∈ pre ∧ Z.of_nat t = tick_of base total x;
  ti_later t b : (∀ i x, (i, x) ∈ pre → tick_of base total x < Z.of_nat t) → buckets !! t = Some b → b = [];
}.

Lemma tick_entry_ok base total pre buckets i x :
  is_u128 base → is_u128 (timestamp_ns x) → base ≤ timestamp_ns x → 1 ≤ total →
  (timestamp_ns x - base) / tick_ns < 2 ^ 64 →
  (∀ j y, (j, y) ∈ pre → timestamp_ns y ≤ timestamp_ns x) →
  ticks_inv base total pre buckets →
  ∃ buckets', tick_entry base total buckets (i, x) = Ok buckets' ∧ ticks_inv base total (pre ++ [(i, x)]) buckets'.
Proof.
  intros Hb Hx Hle Htot Hlt Hpre [Hlen Hcat Htick Hlater].
  assert (0 ≤ (timestamp_ns x - base) / tick_ns) as H0 by (apply Z.div_pos; [lia|done]).
  assert (0 ≤ tick_of base total x < total) as Hr by (unfold tick_of; lia).
  assert (∀ j y, (j, y) ∈ pre → tick_of base total y ≤ tick_of base total x) as Hmono.
  { intros j y Hy. apply Z.min_le_compat_r, Z.div_le_mono; [done|]. specialize (Hpre j y Hy). lia. }
  unfold tick_entry. rewrite u128_sub_ok by done. simpl. unfold as_usize. rewrite Z.mod_small by lia.
  change (Z.min ((timestamp_ns x - base) / tick_ns) (total - 1)) with (tick_of base total x).
  set (t := Z.to_nat (tick_of base total x)).
  destruct (lookup_lt_is_Some_2 buckets t) as [b Hbt]; [unfold t; lia|]. rewrite Hbt.
  eexists. split; [done|]. split.
  - by rewrite length_insert.
  - rewrite (concat_bucket _ _ _ _ Hbt), Hcat, fmap_app; [done|].
    intros t' b' Ht'. apply Hlater. intros j y Hy. specialize (Hmono j y Hy). unfold t in *. lia.
  - intros t' b' j [(<- & <- & _)|[_ Hb']]%list_lookup_insert_Some Hj.
    + apply elem_of_app in Hj as [Hj| ->%list_elem_of_singleton].
      * destruct (Htick t b j Hbt Hj) as (y & Hy & Heq). exists y. rewrite elem_of_app. auto.
      * exists x. rewrite elem_of_app, list_elem_of_singleton. unfold t. rewrite Z2Nat.id by lia. auto.
    + destruct (Htick t' b' j Hb' Hj) as (y & Hy & Heq). exists y. rewrite elem_of_app. auto.
  - intros t' b' Hall [(<- & <- & _)|[_ Hb']]%list_lookup_insert_Some.
    + specialize (Hall i x). rewrite elem_of_app, list_elem_of_singleton in Hall. specialize (Hall (or_intror eq_refl)).
      unfold t in Hall. lia.
    + apply (Hlater t'); [|done]. intros j y Hy. apply (Hall j y). rewrite elem_of_app. by left.
Qed.

Lemma imap_pair_fst {A} (l : list A) : (imap pair l).*1 = seq 0 (length l).
Proof.
  apply list_eq. intros i. rewrite list_lookup_fmap, list_lookup_imap.
  destruct (l !! i) as [x|] eqn:Hi; simpl.
  - apply lookup_lt_Some in Hi. by rewrite lookup_seq_lt.
  - apply lookup_ge_None in Hi. by rewrite lookup_seq_ge.
Qed.

Lemma elem_of_imap_pair {A} (l : list A) i x : (i, x) ∈ imap pair l → l !! i = Some x.
Proof. by intros (j & y & [= -> ->] & Hy)%elem_of_lookup_imap_1. Qed.

(** The buckets hold the indices of all transactions in order, each in the tick
    of its arrival since the first one (the last tick when that is later). *)
Definition ticks_of (es : list TxInEntry) (base total : Z) (buckets : list (list nat)) : Prop :=
  length buckets = Z.to_nat total ∧ concat buckets = seq 0 (length es) ∧
  ∀ t b i, buckets !! t = Some b → i ∈ b → ∃ x, es !! i = Some x ∧ Z.of_nat t = tick_of base total x.

Lemma assign_ticks_real_ok w e :
  arrivals (entries w) → hd_error (entries w) = Some e →
  (∀ x, x ∈ entries w → timestamp_ns x - timestamp_ns e ≤ duration_ns w) → duration_ns w / tick_ns < 2 ^ 64 →
  ∃ buckets, assign_ticks_real w = Ok (Z.max (duration_ns w / tick_ns) 1, buckets) ∧
    ticks_of (entries w) (timestamp_ns e) (Z.max (duration_ns w / tick_ns) 1) buckets.
Proof.
  intros Ha He Hd Hlt. destruct (entries w) as [|e' es] eqn:Hes; [done|]. injection He as ->.
  assert (0 ≤ duration_ns w / tick_ns) as H0.
  { specialize (Hd e ltac:(by left)). apply Z.div_pos; [lia|done]. }
  unfold assign_ticks_real. rewrite Hes. unfold as_usize. rewrite Z.mod_small by lia. simpl first_ts. cbn [mbind Res_bind mret Res_ret].
  set (total := Z.max (duration_ns w / tick_ns) 1).
  destruct (fold_res_ok (tick_entry (timestamp_ns e) total) (ticks_inv (timestamp_ns e) total)
    (imap pair (e :: es)) (replicate (Z.to_nat total) [])) as (buckets & -> & [Hlen Hcat Htick _]).
  - split; [apply length_replicate|by apply concat_empty; intros t b [-> _]%lookup_replicate| |].
    + intros t b i [-> _]%lookup_replicate Hi. by apply elem_of_nil in Hi.
    + by intros t b _ [-> _]%lookup_replicate.
  - intros pre [i x] post buckets Heq Hinv.
    assert (es_eq : e :: es = pre.*2 ++ x :: post.*2).
    { transitivity ((imap pair (e :: es)).*2); [|by rewrite Heq, fmap_app].
      apply list_eq. intros j. rewrite list_lookup_fmap, list_lookup_imap. by destruct ((e :: es) !! j). }
    assert (x ∈ e :: es) as Hx by (rewrite es_eq; apply elem_of_app; right; by left).
    apply tick_entry_ok; [by eapply arrivals_in; [|left]|by eapply arrivals_in|by eapply arrivals_head|lia| | |done].
    + eapply Z.le_lt_trans; [|exact Hlt]. apply Z.div_le_mono; [done|]. by apply Hd.
    + intros j y Hy. rewrite es_eq in Ha. destruct Ha as [Hss _].
      apply StronglySorted_app in Hss as (Hss & _). apply Hss; [|by left].
      apply list_elem_of_fmap. by exists (j, y).
  - exists buckets. split; [done|]. split; [done|]. split; [by rewrite Hcat, imap_pair_fst|].
    intros t b i Hb Hi. destruct (Htick t b i Hb Hi) as (x & Hx%elem_of_imap_pair & Ht). by exists x.
Qed.
End Windows.
