(* ===== verification/ReplayParse.v ===== *)
(** * Reading the log of the replay benchmark

    Sorting by arrival; the calendar, and how the timestamps compare with it;
    the round trips of decimal numbers, timestamps and log lines in the format
    of the documentation; and the range of what any log parses to. *)

From stdpp Require Import sorting.
From S2P Require Import Prelude RustString Types ReplayLog ReplaySegments.
From Stdlib Require Import Ascii.
#[local] Open Scope list_scope.
#[local] Open Scope Z_scope.

(** ** [sort_by_key] *)

Section SortByKey.
Context {A : Type} (f : A → Z).

Definition by_key (a b : A) : Prop := f a ≤ f b.

Lemma insert_by_key_Permutation x l : insert_by_key f x l ≡ₚ x :: l.
Proof.
  induction l as [|y l IH]; simpl; [done|]. destruct (f x <=? f y); [done|]. rewrite IH. apply perm_swap.
Qed.

Lemma sort_by_key_Permutation l : sort_by_key f l ≡ₚ l.
Proof. induction l as [|x l IH]; simpl; [done|]. by rewrite insert_by_key_Permutation, IH. Qed.

Lemma insert_by_key_sorted x l : StronglySorted by_key l → StronglySorted by_key (insert_by_key f x l).
Proof.
  induction l as [|y l IH]; simpl; [by repeat constructor|]. intros Hs.
  destruct (Z.leb_spec (f x) (f y)) as [Hle|Hgt].
  - constructor; [done|]. apply StronglySorted_inv in Hs as [_ Hy]. constructor; [done|].
    eapply Forall_impl; [exact Hy|]. unfold by_key. lia.
  - apply StronglySorted_inv in Hs as [Hs Hy]. constructor; [by apply IH|].
    rewrite insert_by_key_Permutation. constructor; [unfold by_key; lia|done].
Qed.

Lemma sort_by_key_sorted l : StronglySorted by_key (sort_by_key f l).
Proof. induction l; simpl; [constructor|by apply insert_by_key_sorted]. Qed.

(** Elements with the same key keep their order. *)
Lemma insert_by_key_stable k x l :
  filter (λ y, f y = k) (insert_by_key f x l) = filter (λ y, f y = k) (x :: l).
Proof.
  induction l as [|y l IH]; [done|]. simpl. destruct (Z.leb_spec (f x) (f y)) as [Hle|Hgt]; [done|].
  rewrite !filter_cons in *. rewrite IH. destruct (decide (f x = k)), (decide (f y = k)); (done || lia).
Qed.

Lemma sort_by_key_stable k l : filter (λ y, f y = k) (sort_by_key f l) = filter (λ y, f y = k) l.
Proof.
  induction l as [|x l IH]; [done|]. simpl sort_by_key. rewrite insert_by_key_stable, !filter_cons, IH. done.
Qed.
End SortByKey.

(** The order of the keys is all that matters. *)
Lemma insert_by_key_same {A} (f g : A → Z) x l :
  (∀ y, y ∈ l → f x ≤ f y ↔ g x ≤ g y) → insert_by_key f x l = insert_by_key g x l.
Proof.
  induction l as [|y l IH]; intros Hfg; simpl; [done|]. pose proof (Hfg y ltac:(by left)) as Hy.
  rewrite IH by (intros z Hz; apply Hfg; by right).
  destruct (Z.leb_spec (f x) (f y)), (Z.leb_spec (g x) (g y)); (done || lia).
Qed.

Lemma sort_by_key_same {A} (f g : A → Z) l :
  (∀ x y, x ∈ l → y ∈ l → f x ≤ f y ↔ g x ≤ g y) → sort_by_key f l = sort_by_key g l.
Proof.
  induction l as [|x l IH]; intros Hfg; simpl; [done|].
  rewrite IH by (intros y z Hy Hz; apply Hfg; by right). apply insert_by_key_same.
  intros y Hy. rewrite sort_by_key_Permutation in Hy. apply Hfg; [by left|by right].
Qed.

Lemma insert_by_key_fmap {A B} (h : A → B) (f : B → Z) x l :
  insert_by_key f (h x) (h <$> l) = h <$> insert_by_key (λ x, f (h x)) x l.
Proof.
  induction l as [|y l IH]; [done|]. rewrite fmap_cons. cbn [insert_by_key].
  destruct (f (h x) <=? f (h y)); [done|]. by rewrite fmap_cons, IH.
Qed.

Lemma sort_by_key_fmap {A B} (h : A → B) (f : B → Z) l :
  sort_by_key f (h <$> l) = h <$> sort_by_key (λ x, f (h x)) l.
Proof.
  induction l as [|x l IH]; [done|]. rewrite fmap_cons. cbn [sort_by_key foldr].
  change (foldr (insert_by_key f) [] (h <$> l)) with (sort_by_key f (h <$> l)). rewrite IH. apply insert_by_key_fmap.
Qed.

(** ** The calendar *)

Definition leap (y : Z) : bool := (y mod 4 =? 0) && negb (y mod 100 =? 0) || (y mod 400 =? 0).

Definition days_in_month (y m : Z) : Z :=
  if m =? 2 then (if leap y then 29 else 28)
  else if (m =? 4) || (m =? 6) || (m =? 9) || (m =? 11) then 30 else 31.

(** The days of the year before the month. *)
Definition days_before_month (y m : Z) : Z :=
  foldr (λ i n, days_in_month y (Z.of_nat i) + n) 0 (seq 1 (Z.to_nat (m - 1))).

(** The leap years before the year, since the year 1. *)
Definition leap_years (y : Z) : Z := (y - 1) / 4 - (y - 1) / 100 + (y - 1) / 400.

(** The days since the first of January of 1970. *)
Definition days_since_epoch (y m d : Z) : Z :=
  365 * (y - 1970) + (leap_years y - leap_years 1970) + days_before_month y m + (d - 1).

Example the_epoch : days_since_epoch 1970 1 1 = 0.
Proof. done. Qed.
Example leap_day_2024 : days_since_epoch 2024 2 29 = 19782.
Proof. done. Qed.
Example march_2000 : days_since_epoch 2000 3 1 = 11017.
Proof. done. Qed.

Lemma leap_years_next y : leap_years (y + 1) = leap_years y + (if leap y then 1 else 0).
Proof.
  unfold leap_years, leap. replace (y + 1 - 1) with y by lia.
  destruct (Z.eqb_spec (y mod 4) 0), (Z.eqb_spec (y mod 100) 0), (Z.eqb_spec (y mod 400) 0); simpl;
    Z.to_euclidean_division_equations; lia.
Qed.

Lemma leap_years_mono y y' : y ≤ y' → leap_years y ≤ leap_years y'.
Proof. intros Hy. unfold leap_years. Z.to_euclidean_division_equations. lia. Qed.

Lemma days_in_month_bounds y m : 28 ≤ days_in_month y m ≤ 31.
Proof. unfold days_in_month. repeat case_match; lia. Qed.

(** The months of a year follow each other, and fill it. *)
Lemma days_before_month_mono y m m' :
  1 ≤ m → m < m' → m' ≤ 12 → days_before_month y m + days_in_month y m ≤ days_before_month y m'.
Proof.
  intros H1 Hm H12. unfold days_before_month.
  assert (m = 1 ∨ m = 2 ∨ m = 3 ∨ m = 4 ∨ m = 5 ∨ m = 6 ∨ m = 7 ∨ m = 8 ∨ m = 9 ∨ m = 10 ∨ m = 11) as Hc by lia.
  assert (m' = 2 ∨ m' = 3 ∨ m' = 4 ∨ m' = 5 ∨ m' = 6 ∨ m' = 7 ∨ m' = 8 ∨ m' = 9 ∨ m' = 10 ∨ m' = 11 ∨ m' = 12)
    as Hc' by lia.
  unfold days_in_month. generalize (leap y). intros b. clear H1 H12.
  destruct_or! Hc; destruct_or! Hc'; subst; first [lia | destruct b; by vm_compute].
Qed.

Lemma days_before_month_bounds y m :
  1 ≤ m ≤ 12 → 0 ≤ days_before_month y m ∧
  days_before_month y m + days_in_month y m ≤ 365 + (if leap y then 1 else 0).
Proof.
  intros Hm. unfold days_before_month, days_in_month. generalize (leap y). intros b.
  assert (m = 1 ∨ m = 2 ∨ m = 3 ∨ m = 4 ∨ m = 5 ∨ m = 6 ∨ m = 7 ∨ m = 8 ∨ m = 9 ∨ m = 10 ∨ m = 11 ∨ m = 12)
    as Hc by lia.
  destruct_or! Hc; subst; destruct b; by vm_compute.
Qed.

(** ** Decimal numbers *)

(** The [width] last digits of [n], as they are printed with leading zeros. *)
Fixpoint dec (width : nat) (n : Z) : string :=
  match width with
  | O => EmptyString
  | S w => String (ascii_of_nat (Z.to_nat (48 + n / 10 ^ Z.of_nat w mod 10))) (dec w n)
  end.

Lemma digit_dec d : 0 ≤ d < 10 → digit (ascii_of_nat (Z.to_nat (48 + d))) = Some d.
Proof.
  intros Hd. unfold digit. rewrite nat_ascii_embedding by lia. rewrite Z2Nat.id by lia.
  rewrite decide_True by lia. f_equal. lia.
Qed.

Lemma parse_digits_dec width n acc :
  0 ≤ acc → 0 ≤ n → acc * 10 ^ Z.of_nat width + n mod 10 ^ Z.of_nat width ≤ U64_MAX →
  parse_digits acc (dec width n) = Some (acc * 10 ^ Z.of_nat width + n mod 10 ^ Z.of_nat width).
Proof.
  revert acc. induction width as [|w IH]; intros acc Hacc Hn Hb; simpl dec.
  { simpl. rewrite Z.mod_1_r. f_equal. lia. }
  cbn [parse_digits]. rewrite Nat2Z.inj_succ, Z.pow_succ_r in * by lia.
  set (p := 10 ^ Z.of_nat w) in *. assert (0 < p) as Hp by (apply Z.pow_pos_nonneg; lia).
  pose proof (Z.mod_pos_bound (n / p) 10 ltac:(done)) as Hd.
  rewrite digit_dec by done. cbn [mbind option_bind].
  assert (n mod (10 * p) = n / p mod 10 * p + n mod p) as Hm.
  { rewrite Z.mul_comm, Z.rem_mul_r by lia. lia. }
  pose proof (Z.mod_pos_bound n p Hp). rewrite Hm in *.
  rewrite decide_True by nia. rewrite IH; [|nia..]. f_equal. lia.
Qed.

Lemma dec_not_plus w n s : dec (S w) n = String "+" s → False.
Proof.
  simpl. intros [= Hc _]. apply (f_equal nat_of_ascii) in Hc.
  pose proof (Z.mod_pos_bound (n / 10 ^ Z.of_nat w) 10 ltac:(done)).
  rewrite nat_ascii_embedding in Hc by lia. vm_compute (nat_of_ascii "+") in Hc. lia.
Qed.

(** [str::parse::<u64>] reads what was printed. *)
Lemma parse_u64_dec w n :
  0 ≤ n < 10 ^ Z.of_nat (S w) → n ≤ U64_MAX → parse_u64 (dec (S w) n) = Some n.
Proof.
  intros Hn Hmax. assert (parse_digits 0 (dec (S w) n) = Some n) as Hp.
  { rewrite parse_digits_dec; rewrite ?Z.mod_small by lia; (done || lia). }
  unfold parse_u64. destruct (dec (S w) n) as [|a s] eqn:He; [done|].
  destruct (decide (a = "+"%char)) as [->|Ha]; [by apply dec_not_plus in He|].
  by destruct a as [[] [] [] [] [] [] [] []].
Qed.

(** A digit is no separator. *)
Lemma dec_free c w n : digit c = None → free_of c (dec w n).
Proof.
  intros Hc. induction w as [|w IH]; [done|]. simpl. split; [|done]. intros <-.
  rewrite digit_dec in Hc; [done|]. by apply Z.mod_pos_bound.
Qed.

(** ** Strings without blanks *)

Fixpoint word (s : string) : Prop :=
  match s with EmptyString => True | String a s' => is_whitespace a = false ∧ word s' end.

Lemma word_free c s : is_whitespace c = true → word s → free_of c s.
Proof.
  intros Hc. induction s as [|a s IH]; [done|]. intros [Ha Hs]. split; [|by apply IH]. intros ->. by rewrite Hc in Ha.
Qed.

Lemma word_app s t : word s → word t → word (s +:+ t).
Proof. induction s as [|a s IH]; [done|]. intros [Ha Hs] Ht. split; [done|by apply IH]. Qed.

Lemma free_of_app c s t : free_of c s → free_of c t → free_of c (s +:+ t).
Proof. induction s as [|a s IH]; [done|]. intros [Ha Hs] Ht. split; [done|by apply IH]. Qed.

Lemma word_dec w n : word (dec w n).
Proof.
  induction w as [|w IH]; [done|]. simpl. split; [|done]. unfold is_whitespace.
  pose proof (Z.mod_pos_bound (n / 10 ^ Z.of_nat w) 10 ltac:(done)).
  rewrite nat_ascii_embedding by lia.
  apply orb_false_iff. split; [apply andb_false_iff; right; apply Nat.leb_gt; lia|apply Nat.eqb_neq; lia].
Qed.

Lemma trim_end_word s : word s → trim_end s = s.
Proof.
  induction s as [|a s IH]; [done|]. intros [Ha Hs]. simpl. rewrite IH by done. rewrite Ha. by destruct s.
Qed.

Lemma trim_word s : word s → trim s = s.
Proof.
  intros Hs. unfold trim. destruct s as [|a s]; [done|]. destruct Hs as [Ha Hs]. simpl trim_start. rewrite Ha.
  by apply trim_end_word.
Qed.

Lemma prefix_app s t : String.prefix s (s +:+ t) = true.
Proof. induction s as [|a s IH]; simpl; [by destruct t|]. by destruct (ascii_dec a a). Qed.

Lemma contains_prefix needle t : contains needle (needle +:+ t) = true.
Proof.
  pose proof (prefix_app needle t) as Hp. destruct (needle +:+ t); simpl in *; by rewrite Hp.
Qed.

Lemma contains_right needle s t : contains needle t = true → contains needle (s +:+ t) = true.
Proof.
  intros Ht. induction s as [|a s IH]; [done|].
  change (String a s +:+ t) with (String a (s +:+ t)). cbn [contains]. rewrite IH. apply orb_true_r.
Qed.

(** ** Lines *)

Lemma split_inclusive_line c s t :
  free_of c s → split_inclusive c (s +:+ String c t) = (s +:+ String c EmptyString) :: split_inclusive c t.
Proof.
  induction s as [|a s IH]; intros Hs; simpl; [by rewrite decide_True|].
  destruct Hs as [Ha Hs]. rewrite decide_False by done. by rewrite IH.
Qed.

Lemma strip_suffix_snoc c s : strip_suffix c (s +:+ String c EmptyString) = Some s.
Proof.
  induction s as [|a s IH]; simpl; [by rewrite decide_True|]. rewrite IH. by destruct s.
Qed.

Lemma strip_suffix_free c s : free_of c s → strip_suffix c s = None.
Proof.
  induction s as [|a s IH]; [done|]. intros [Ha Hs]. simpl. rewrite IH by done.
  destruct s; [by rewrite decide_False|done].
Qed.

Lemma lines_cons s t :
  free_of newline s → free_of carriage_return s → lines (s +:+ String newline t) = s :: lines t.
Proof.
  intros Hn Hc. unfold lines. rewrite split_inclusive_line by done. rewrite fmap_cons. f_equal.
  by rewrite strip_suffix_snoc, strip_suffix_free.
Qed.

(** ** Timestamps *)

Record valid_stamp (s : Stamp) : Prop := {
  vs_year : 0 ≤ year s < 10000;
  vs_month : 1 ≤ month s ≤ 12;
  vs_day : 1 ≤ day s ≤ days_in_month (year s) (month s);
  vs_hour : 0 ≤ hour s < 24;
  vs_minute : 0 ≤ minute s < 60;
  vs_sec : 0 ≤ sec s < 60;
  vs_nanos : 0 ≤ nanos s < 1000000000;
}.

(** [2026-05-25] and [16:04:00.271127118]. *)
Definition date_text (s : Stamp) : string :=
  dec 4 (year s) +:+ String "-" (dec 2 (month s) +:+ String "-" (dec 2 (day s))).
Definition time_text (s : Stamp) : string :=
  dec 2 (hour s) +:+ String ":" (dec 2 (minute s) +:+ String ":" (dec 2 (sec s) +:+ String "." (dec 9 (nanos s)))).

(** What the code makes of it. *)
Definition stamp_ns (s : Stamp) : Z :=
  ((year s * 365 + month s * 30 + day s) * 86400 + hour s * 3600 + minute s * 60 + sec s) * 1000000000 + nanos s.

(** The nanoseconds since the Unix epoch that the text stands for. *)
Definition epoch_ns (s : Stamp) : Z :=
  (days_since_epoch (year s) (month s) (day s) * 86400 + hour s * 3600 + minute s * 60 + sec s) * 1000000000 + nanos s.

Lemma valid_day s : valid_stamp s → 1 ≤ day s ≤ 31.
Proof. intros []. pose proof (days_in_month_bounds (year s) (month s)). lia. Qed.

Definition earlier_date (a b : Stamp) : Prop :=
  year a < year b ∨ year a = year b ∧ (month a < month b ∨ month a = month b ∧ day a < day b).

Lemma earlier_date_days a b :
  valid_stamp a → valid_stamp b → earlier_date a b →
  days_since_epoch (year a) (month a) (day a) < days_since_epoch (year b) (month b) (day b).
Proof.
  intros [] [] Hab. unfold days_since_epoch.
  destruct (days_before_month_bounds (year a) (month a)) as [_ Ha]; [done|].
  destruct (days_before_month_bounds (year b) (month b)) as [Hb _]; [done|].
  destruct Hab as [Hy|[Hy [Hm|[Hm Hd]]]].
  - pose proof (leap_years_next (year a)). pose proof (leap_years_mono (year a + 1) (year b)). lia.
  - pose proof (days_before_month_mono (year a) (month a) (month b)). rewrite <- Hy in *. lia.
  - rewrite Hy, Hm in *. lia.
Qed.

(** The thirty-first of a month and the first of the next: one day, where a
    month has thirty. *)
Definition month_end (a b : Stamp) : Prop :=
  year a = year b ∧ month b = month a + 1 ∧ day a = 31 ∧ day b = 1.

Lemma earlier_date_stamps a b :
  valid_stamp a → valid_stamp b → earlier_date a b → ¬ month_end a b →
  year a * 365 + month a * 30 + day a < year b * 365 + month b * 30 + day b.
Proof.
  intros Ha Hb Hab Hend. pose proof (valid_day a Ha). pose proof (valid_day b Hb). destruct Ha, Hb.
  destruct Hab as [Hy|[Hy [Hm|[Hm Hd]]]]; [lia| |lia].
  destruct (decide (month b = month a + 1 ∧ day a = 31 ∧ day b = 1)) as [Hc|Hc]; [by destruct Hend|]. lia.
Qed.

(** Without a month's end between them, two timestamps compare as their times. *)
Lemma stamps_compare a b :
  valid_stamp a → valid_stamp b → ¬ month_end a b → ¬ month_end b a →
  stamp_ns a ≤ stamp_ns b ↔ epoch_ns a ≤ epoch_ns b.
Proof.
  intros Ha Hb Hab Hba. unfold stamp_ns, epoch_ns.
  assert (earlier_date a b ∨ earlier_date b a ∨ year a = year b ∧ month a = month b ∧ day a = day b) as [Hd|[Hd|Hd]]
    by (unfold earlier_date; lia).
  - pose proof (earlier_date_stamps a b Ha Hb Hd Hab). pose proof (earlier_date_days a b Ha Hb Hd). destruct Ha, Hb. lia.
  - pose proof (earlier_date_stamps b a Hb Ha Hd Hba). pose proof (earlier_date_days b a Hb Ha Hd). destruct Ha, Hb. lia.
  - destruct Hd as (-> & -> & ->). lia.
Qed.

(** Within a month they are apart as their times are. *)
Lemma stamps_apart a b :
  year a = year b → month a = month b → stamp_ns b - stamp_ns a = epoch_ns b - epoch_ns a.
Proof. intros Hy Hm. unfold stamp_ns, epoch_ns, days_since_epoch. rewrite Hy, Hm. lia. Qed.

Lemma parse_fields_text s : valid_stamp s → parse_fields (date_text s) (time_text s) = Some s.
Proof.
  intros Hv. pose proof (valid_day s Hv). destruct Hv as [Hy Hmo _ Hh Hmi Hs Hn]. unfold parse_fields, date_text, time_text.
  rewrite !split_cons_free, (split_free "-") by (by apply dec_free). unfold next_u64.
  repeat (rewrite parse_u64_dec by (unfold U64_MAX; lia); cbn [mbind option_bind]).
  rewrite (split_free ":") by (apply free_of_app; [|split; [done|]]; by apply dec_free).
  repeat (rewrite parse_u64_dec by (unfold U64_MAX; lia); cbn [mbind option_bind hd_error]).
  cbv [hd_error head]. cbn [mbind option_bind].
  rewrite split_cons_free, (split_free ".") by (by apply dec_free).
  repeat (cbv [hd_error head default from_option id]; rewrite parse_u64_dec by (unfold U64_MAX; lia); cbn [mbind option_bind]).
  by destruct s.
Qed.

Lemma total_secs_ok `{Profile} s :
  valid_stamp s →
  total_secs s = Ok ((year s * 365 + month s * 30 + day s) * 86400 + hour s * 3600 + minute s * 60 + sec s).
Proof.
  intros Hv. pose proof (valid_day s Hv). destruct Hv as [Hy Hmo _ Hh Hmi Hs Hn]. unfold total_secs, u64_mul, u64_add.
  repeat (rewrite checked_result_in by lia; cbn [mbind Res_bind]). done.
Qed.

Lemma parse_timestamp_text `{Profile} s :
  valid_stamp s → parse_timestamp_ns (date_text s) (time_text s) = Ok (Some (stamp_ns s)).
Proof.
  intros Hv. unfold parse_timestamp_ns. rewrite parse_fields_text, total_secs_ok by done. done.
Qed.

(** ** Logs

    The lines of a log in the documented format: a transaction that arrived,
    with its bytes and their base64; what became of one; a separator. *)
Inductive LogLine :=
| TxIn (s : Stamp) (sig base64 : string) (bytes : u8s)
| TxOut (s : Stamp) (sig status : string)
| Separator (text : string).

Definition line_text (l : LogLine) : string :=
  match l with
  | TxIn s sig base64 _ =>
      date_text s +:+ String " " (time_text s +:+ String " " ("tx_in_signature:" +:+
        String " " (sig +:+ String " " ("tx:" +:+ String " " base64))))
  | TxOut s sig status =>
      date_text s +:+ String " " (time_text s +:+ String " " ("tx_out_signature:" +:+
        String " " (sig +:+ String " " ("status:" +:+ String " " status))))
  | Separator text => String "-" text
  end.

(** The file: every line is ended. *)
Fixpoint log_text (ls : list LogLine) : string :=
  match ls with [] => EmptyString | l :: ls' => line_text l +:+ String newline (log_text ls') end.

(** A transaction that arrived. *)
Record Arrival := { ar_stamp : Stamp; ar_sig : string; ar_bytes : u8s }.

Definition arrivals_of (ls : list LogLine) : list Arrival :=
  omap (λ l, match l with
             | TxIn s sig _ bytes => Some {| ar_stamp := s; ar_sig := sig; ar_bytes := bytes |}
             | _ => None
             end) ls.

Definition ar_epoch (a : Arrival) : Z := epoch_ns (ar_stamp a).

(** What is read of it, with the timestamp that [ts] makes of its time. *)
Definition entry_of (ts : Stamp → Z) (a : Arrival) : TxInEntry :=
  {| timestamp_ns := ts (ar_stamp a); tx_bytes := ar_bytes a; signature := ar_sig a |}.

(** The signatures of the transactions that were dropped, or not, on receipt. *)
Definition outcomes (dropped : bool) (ls : list LogLine) : list string :=
  omap (λ l, match l with
             | TxOut _ sig status =>
                 if Bool.eqb (contains "DropOnReceive" (trim status)) dropped then Some sig else None
             | _ => None
             end) ls.

Section Logs.
Context `{Profile} (base64_decode : string → option u8s).

(** Fields without blanks; a status has no end of line, and does not look like
    an arrival. *)
Definition line_ok (l : LogLine) : Prop :=
  match l with
  | TxIn s sig base64 bytes =>
      valid_stamp s ∧ word sig ∧ word base64 ∧ base64_decode base64 = Some bytes
  | TxOut s sig status =>
      valid_stamp s ∧ word sig ∧ free_of newline status ∧ free_of carriage_return status ∧
      contains "tx_in_signature:" (line_text l) = false
  | Separator text => free_of newline text ∧ free_of carriage_return text
  end.

Lemma date_word s : word (date_text s).
Proof. repeat first [apply word_dec | apply word_app | split; [done|]]. Qed.

Lemma time_word s : word (time_text s).
Proof. repeat first [apply word_dec | apply word_app | split; [done|]]. Qed.

Lemma line_free c l :
  is_whitespace c = true → c ≠ " "%char → (c = newline ∨ c = carriage_return) → line_ok l → free_of c (line_text l).
Proof.
  intros Hc Hsp Hcc Hok. assert (∀ s t, word s → free_of c t → free_of c (s +:+ String " " t)) as Hj.
  { intros s t Hs Ht. apply free_of_app; [by apply word_free|]. split; [|done]. intros He. by apply Hsp. }
  destruct l as [s sig b64 bytes|s sig status|text]; simpl line_text.
  - destruct Hok as (_ & Hsig & Hb & _). apply Hj; [apply date_word|]. apply Hj; [apply time_word|].
    apply Hj; [done|]. apply Hj; [done|]. apply Hj; [done|]. by apply word_free.
  - destruct Hok as (_ & Hsig & Hn & Hr & _). apply Hj; [apply date_word|]. apply Hj; [apply time_word|].
    apply Hj; [done|]. apply Hj; [done|]. apply Hj; [done|]. by destruct Hcc as [->| ->].
  - split; [by destruct Hcc as [->| ->]|]. by destruct Hok, Hcc as [->| ->].
Qed.

Lemma date_not_skipped s t : starts_with "-" (date_text s +:+ t) || String.eqb (date_text s +:+ t) "" = false.
Proof.
  pose proof (dec_free "-" 4 (year s) eq_refl) as Hf. unfold date_text.
  cbn [dec] in *. destruct Hf as [Hf _]. simpl. by rewrite bool_decide_false.
Qed.

(** The six pieces of a line. *)
Lemma line_pieces s kind sig label rest :
  free_of " " kind → word sig → free_of " " label →
  splitn 6 " " (date_text s +:+ String " " (time_text s +:+ String " " (kind +:+
    String " " (sig +:+ String " " (label +:+ String " " rest)))))
  = [date_text s; time_text s; kind; sig; label; rest].
Proof.
  intros Hk Hs Hl.
  rewrite (splitn_free 4 _ (date_text s)) by (apply word_free; [done|apply date_word]).
  rewrite (splitn_free 3 _ (time_text s)) by (apply word_free; [done|apply time_word]).
  rewrite (splitn_free 2 _ kind), (splitn_free 1 _ sig), (splitn_free 0 _ label); try done.
  by apply word_free.
Qed.

Definition add_line (log : Log) (l : LogLine) : Log :=
  match l with
  | TxIn _ _ _ _ => {| log_entries := log_entries log ++ (entry_of stamp_ns <$> arrivals_of [l]);
                       dropped_on_receive := dropped_on_receive log; mainnet_processed := mainnet_processed log |}
  | TxOut _ sig status =>
      if contains "DropOnReceive" (trim status)
      then {| log_entries := log_entries log; dropped_on_receive := {[sig]} ∪ dropped_on_receive log;
              mainnet_processed := mainnet_processed log |}
      else {| log_entries := log_entries log; dropped_on_receive := dropped_on_receive log;
              mainnet_processed := {[sig]} ∪ mainnet_processed log |}
  | Separator _ => log
  end.

Lemma kind_contained s kind rest :
  contains kind (date_text s +:+ String " " (time_text s +:+ String " " (kind +:+ rest))) = true.
Proof.
  apply contains_right, (contains_right _ " "), contains_right, (contains_right _ " "), contains_prefix.
Qed.

Lemma parse_line_text log l : line_ok l → parse_line base64_decode log (line_text l) = Ok (add_line log l).
Proof.
  destruct l as [s sig b64 bytes|s sig status|text]; intros Hok; unfold parse_line; [| |done].
  - destruct Hok as (Hv & Hsig & Hb & Hd). simpl line_text. rewrite date_not_skipped, kind_contained.
    unfold parse_tx_in. rewrite line_pieces by (done || by repeat split).
    rewrite parse_timestamp_text by done. cbn [mbind Res_bind]. by rewrite trim_word, Hd.
  - destruct Hok as (Hv & Hsig & _ & _ & Hn). simpl line_text in *. rewrite date_not_skipped, Hn, kind_contained.
    unfold parse_tx_out. rewrite line_pieces by (done || by repeat split). simpl.
    by destruct (contains "DropOnReceive" (trim status)).
Qed.

Lemma lines_log_text ls : Forall line_ok ls → lines (log_text ls) = line_text <$> ls.
Proof.
  induction 1 as [|l ls Hl Hls IH]; [done|]. simpl log_text. rewrite lines_cons, IH; [done| |];
    apply line_free; auto; done.
Qed.

Lemma fold_lines log ls :
  Forall line_ok ls → fold_res (parse_line base64_decode) log (line_text <$> ls) = Ok (foldl add_line log ls).
Proof.
  intros Hls. revert log. induction Hls as [|l ls Hl Hls IH]; intros log; [done|].
  rewrite fmap_cons. cbn [fold_res foldl]. rewrite parse_line_text by done. apply IH.
Qed.

Lemma foldl_add_line log ls :
  foldl add_line log ls = {|
    log_entries := log_entries log ++ (entry_of stamp_ns <$> arrivals_of ls);
    dropped_on_receive := list_to_set (outcomes true ls) ∪ dropped_on_receive log;
    mainnet_processed := list_to_set (outcomes false ls) ∪ mainnet_processed log |}.
Proof.
  revert log. induction ls as [|l ls IH]; intros log; simpl.
  { rewrite app_nil_r, !(left_id_L ∅ (∪)). by destruct log. }
  rewrite IH. clear IH. destruct l as [s sig b64 bytes|s sig status|text]; simpl; [|destruct (contains _ _); simpl|done].
  - by rewrite <- app_assoc.
  - f_equal. set_solver.
  - f_equal. set_solver.
Qed.

Lemma parse_log_text (ls : list LogLine) :
  Forall line_ok ls →
  parse_log base64_decode (Some (log_text ls)) = Ok {|
    log_entries := sort_by_key timestamp_ns (entry_of stamp_ns <$> arrivals_of ls);
    dropped_on_receive := list_to_set (outcomes true ls);
    mainnet_processed := list_to_set (outcomes false ls) |}.
Proof.
  intros Hls. unfold parse_log. rewrite lines_log_text, fold_lines, foldl_add_line by done.
  simpl. by rewrite !(right_id_L ∅ (∪)).
Qed.

Lemma arrivals_valid ls a : Forall line_ok ls → a ∈ arrivals_of ls → valid_stamp (ar_stamp a).
Proof.
  intros Hls (l & Hl & Ha)%list_elem_of_omap. rewrite Forall_forall in Hls. specialize (Hls l Hl).
  destruct l; [|done..]. injection Ha as <-. apply Hls.
Qed.

(** C36: A log in the documented format, with dates of the calendar, is read as
    it was written: the transactions that arrived, with their bytes and
    signatures, in the order of their times (those of the same time in the order
    of the log), and the signatures that were dropped on receipt apart from the
    others.  Their timestamps compare as the times do, in nanoseconds since the
    Unix epoch; within a month they are apart as the times are, to the
    nanosecond.  This is for logs that do not have both the thirty-first of a
    month and the first of the next: those are taken for the same day
    ([month_end_out_of_order]). *)
Theorem parse_log_roundtrip (ls : list LogLine) :
  Forall line_ok ls →
  (∀ a b, a ∈ arrivals_of ls → b ∈ arrivals_of ls → ¬ month_end (ar_stamp a) (ar_stamp b)) →
  ∃ (ts : Stamp → Z) (l : list Arrival),
    parse_log base64_decode (Some (log_text ls)) = Ok {|
      log_entries := entry_of ts <$> l;
      dropped_on_receive := list_to_set (outcomes true ls);
      mainnet_processed := list_to_set (outcomes false ls) |} ∧
    l ≡ₚ arrivals_of ls ∧ StronglySorted (by_key ar_epoch) l ∧
    (∀ t, filter (λ a, ar_epoch a = t) l = filter (λ a, ar_epoch a = t) (arrivals_of ls)) ∧
    ∀ a b, a ∈ l → b ∈ l →
      (ts (ar_stamp a) ≤ ts (ar_stamp b) ↔ ar_epoch a ≤ ar_epoch b) ∧
      (year (ar_stamp a) = year (ar_stamp b) → month (ar_stamp a) = month (ar_stamp b) →
       ts (ar_stamp b) - ts (ar_stamp a) = ar_epoch b - ar_epoch a).
Proof.
  intros Hls Hend. exists stamp_ns, (sort_by_key ar_epoch (arrivals_of ls)).
  assert (∀ a b, a ∈ arrivals_of ls → b ∈ arrivals_of ls →
    stamp_ns (ar_stamp a) ≤ stamp_ns (ar_stamp b) ↔ ar_epoch a ≤ ar_epoch b) as Hcmp.
  { intros a b Ha Hb. apply stamps_compare; eauto using arrivals_valid. }
  split_and!; [|apply sort_by_key_Permutation|apply sort_by_key_sorted|intros t; apply sort_by_key_stable|].
  - rewrite parse_log_text by done. rewrite sort_by_key_fmap. do 3 f_equal. by apply sort_by_key_same.
  - intros a b. rewrite !sort_by_key_Permutation. intros Ha Hb. split; [by apply Hcmp|]. apply stamps_apart.
Qed.

(** ** Any log *)

Lemma parse_digits_range acc s n : 0 ≤ acc → parse_digits acc s = Some n → 0 ≤ n.
Proof.
  revert acc. induction s as [|a s IH]; intros acc Hacc; simpl; [by intros [= <-]|].
  unfold digit. case_decide as Hd; [|done]. simpl. case_decide; [|done]. apply IH. lia.
Qed.

Lemma parse_digits_max acc s n : acc ≤ U64_MAX → parse_digits acc s = Some n → n ≤ U64_MAX.
Proof.
  revert acc. induction s as [|a s IH]; intros acc Hacc; simpl; [by intros [= <-]|].
  destruct (digit a) as [d|]; [|done]. simpl. case_decide; [|done]. by apply IH.
Qed.

Lemma parse_u64_range s n : parse_u64 s = Some n → is_u64 n.
Proof.
  assert (∀ t, parse_digits 0 t = Some n → is_u64 n) as H0.
  { intros t Ht. split; [eapply parse_digits_range|eapply parse_digits_max]; try exact Ht; by unfold U64_MAX. }
  unfold parse_u64. destruct s as [|a s]; [done|].
  destruct a as [[] [] [] [] [] [] [] []]; try apply H0. destruct s; [done|apply H0].
Qed.

Lemma parse_fields_nanos date time s : parse_fields date time = Some s → is_u64 (nanos s).
Proof.
  unfold parse_fields. intros Hp.
  repeat match type of Hp with
  | context [ _ ≫= _ ] => apply bind_Some in Hp as (? & ? & Hp)
  | (let '(_, _) := ?x in _) = _ => destruct x
  end.
  injection Hp as <-. simpl. by eapply parse_u64_range.
Qed.

Lemma total_secs_range s n : total_secs s = Ok n → is_u64 n.
Proof.
  unfold total_secs, u64_add, u64_mul. intros Hp.
  repeat match type of Hp with
  | (match ?r with _ => _ end) = _ => destruct r; try done
  | (?r ≫= _) = _ => destruct r eqn:?; simpl in Hp; try done
  end; by eapply checked_result_u64.
Qed.

(** What a timestamp is at most, far below the end of [u128]. *)
Definition is_stamp (z : Z) : Prop := 0 ≤ z < 2 ^ 100.

Lemma parse_timestamp_range date time ts : parse_timestamp_ns date time = Ok (Some ts) → is_stamp ts.
Proof.
  unfold parse_timestamp_ns. destruct (parse_fields date time) as [s|] eqn:Hf; [|done].
  destruct (total_secs s) as [secs| |] eqn:Hs; simpl; [|done..]. intros [= <-].
  apply parse_fields_nanos in Hf. apply total_secs_range in Hs. unfold is_u64, U64_MAX, is_stamp in *. lia.
Qed.

Definition in_range (log : Log) : Prop := Forall (λ e, is_stamp (timestamp_ns e)) (log_entries log).

Lemma parse_tx_in_range log line log' :
  in_range log → parse_tx_in base64_decode log line = Ok log' → in_range log'.
Proof.
  intros Hr. unfold parse_tx_in. destruct (splitn 6 " " line) as [|date [|time [|? [|sig [|? [|b64 [|? ?]]]]]]];
    try (by intros [= <-]).
  destruct (parse_timestamp_ns date time) as [[ts|]| |] eqn:Hts; simpl; try done; [|by intros [= <-]].
  destruct (base64_decode (trim b64)) as [bytes|]; intros [= <-]; [|done].
  apply Forall_snoc_iff. split; [done|]. by apply parse_timestamp_range in Hts.
Qed.

Lemma parse_tx_out_range log line : in_range log → in_range (parse_tx_out log line).
Proof.
  intros Hr. unfold parse_tx_out.
  destruct (splitn 6 " " line) as [|? [|? [|? [|sig [|? [|status [|? ?]]]]]]]; try exact Hr.
  by destruct (contains _ _).
Qed.

Lemma parse_line_range log line log' :
  in_range log → parse_line base64_decode log line = Ok log' → in_range log'.
Proof.
  intros Hr. unfold parse_line. destruct (_ || _); [by intros [= <-]|].
  destruct (contains "tx_in_signature:" line); [by apply parse_tx_in_range|].
  destruct (contains "tx_out_signature:" line); intros [= <-]; [by apply parse_tx_out_range|done].
Qed.

Lemma fold_lines_range log ls log' :
  in_range log → fold_res (parse_line base64_decode) log ls = Ok log' → in_range log'.
Proof.
  revert log. induction ls as [|l ls IH]; intros log Hr; simpl; [by intros [= <-]|].
  destruct (parse_line _ log l) as [log1| |] eqn:Hl; simpl; [|done..]. apply IH. by eapply parse_line_range.
Qed.

Lemma parse_log_range contents log :
  parse_log base64_decode contents = Ok log →
  StronglySorted arrives_before (log_entries log) ∧ Forall (λ e, is_stamp (timestamp_ns e)) (log_entries log).
Proof.
  unfold parse_log. destruct contents as [contents|]; [|done].
  destruct (fold_res _ _ _) as [log1| |] eqn:Hf; simpl; [|done..]. intros [= <-]. simpl. split.
  - apply sort_by_key_sorted.
  - rewrite sort_by_key_Permutation. eapply fold_lines_range; [|exact Hf]. by constructor.
Qed.

(** Where it does not parse, an integer of a timestamp was too large. *)
Lemma total_secs_overflows s : overflows_only (total_secs s).
Proof.
  unfold total_secs, u64_add, u64_mul.
  repeat (apply overflows_bind; [apply checked_result_overflows|intros ?]). apply checked_result_overflows.
Qed.

Lemma parse_line_overflows log line : overflows_only (parse_line base64_decode log line).
Proof.
  unfold parse_line. destruct (_ || _); [done|]. destruct (contains "tx_in_signature:" line).
  - unfold parse_tx_in. destruct (splitn 6 " " line) as [|date [|time [|? [|sig [|? [|b64 [|? ?]]]]]]]; try done.
    apply overflows_bind.
    + unfold parse_timestamp_ns. destruct (parse_fields date time); [|done].
      apply overflows_bind; [apply total_secs_overflows|done].
    + intros [ts|]; [|done]. by destruct (base64_decode _).
  - by destruct (contains "tx_out_signature:" line).
Qed.

Lemma fold_res_overflows {A B} (f : A → B → Res A) l a :
  (∀ a x, overflows_only (f a x)) → overflows_only (fold_res f a l).
Proof. intros Hf. revert a. induction l as [|x l IH]; intros a; [done|]. by apply overflows_bind; [|intros]. Qed.

Lemma parse_log_overflows contents : overflows_only (parse_log base64_decode (Some contents)).
Proof. apply overflows_bind; [apply fold_res_overflows, parse_line_overflows|done]. Qed.
End Logs.
