(* ===== verification/TestBridge.v ===== *)
(** * The validator's end of the bridge (external-scheduler/benches/bench_bridge.rs)

    The harness that the benches and, under the name of [TestBridge], the tests
    of the schedulers drive a scheduler with: it plays the validator, writes
    progress messages, transactions and workers' responses, and reads the
    batches that were scheduled.  The session's queues are third-party code and
    a class of operations; the memory of the shared allocator ([pending_frees])
    is left out, as it is everywhere. *)

From S2P Require Import Prelude BTreeSet Types Events Externals TipProgram Common.

(** ** The session, and what else a test uses of third-party code *)

Class AgaveSession `{SolanaCrates} (W : Type) := {
  (** [Server::setup_session] for so many workers, their request queues of that
      capacity; and the channel of Jito updates. *)
  session_new : nat → nat → W;
  session_workers : W → nat;
  write_progress : ProgressMessage → W → W;
  write_tpu : u8s → W → W;
  write_response : nat → WorkerResponse → W → W;
  read_schedule : nat → W → option ScheduleBatch * W;
  state_len : W → nat;
  jito_send : JitoUpdate → W → W;
  keypair_new : W → Keypair * W;
  pubkey_new_unique : W → Pubkey * W;
}.

Class TestBindings := {
  NOT_LEADER : Z;
  status_ALREADY_PROCESSED : Z;
  reason_ALREADY_PROCESSED : Z;
}.

(** [ComputeBudgetInstruction]. *)
Class ComputeBudgetInterface := {
  set_compute_unit_limit : Z → Instruction;
  set_compute_unit_price : Z → Instruction;
}.

Section BenchBridge.
Context `{AgaveBindings} `{World W} `{!AgaveSession W} {D : Type}.
Abbreviation S := (St D W).

Definition tx_count : M S nat := bridge state_len.

Definition contains_tx (k : TransactionKey) : M S bool :=
  bridge (λ w, match w_transaction w k with Some _ => true | None => false end).

Definition queue_progress (p : ProgressMessage) : M S unit := update_world (write_progress p).

Definition queue_tpu (tx : u8s) : M S unit := update_world (write_tpu tx).

(** ** The batches that were scheduled: the first worker's that has one *)

Fixpoint pop_schedule_from (workers : list nat) : M S (option ScheduleBatch) :=
  match workers with
  | [] => mret None
  | i :: workers' =>
      let* msg := call (read_schedule i) in
      match msg with
      | Some batch => mret (Some batch)
      | None => pop_schedule_from workers'
      end
  end.

Definition pop_schedule : M S (option ScheduleBatch) :=
  let* n := bridge session_workers in
  pop_schedule_from (seq 0 n).

(** ** The workers' responses *)

Definition check_ok : CheckResponse := {|
  parsing_and_sanitization_flags := 0;
  status_check_flags := Z.lor status_REQUESTED status_PERFORMED;
  fee_payer_balance_flags := Z.lor fee_payer_REQUESTED fee_payer_PERFORMED;
  resolve_flags := Z.lor resolve_REQUESTED resolve_PERFORMED;
|}.

Definition execute_err (reason : Z) : M S ExecutionResponse :=
  let* p := bridge w_progress in
  mret {| execution_slot := current_slot p; not_included_reason := reason |}.

Definition execute_ok : M S ExecutionResponse := execute_err reason_NONE.

(** A response for one transaction of a batch: it must be in the batch and in
    the bridge. *)
Definition build_single_tx_batch_region (batch : ScheduleBatch) (index : nat) : M S PriorityId :=
  let* meta := unwrap "batch.transactions[index]" (sb_transactions batch !! index) in
  let* _ := transaction (km_key meta) in
  mret (km_meta meta).

Definition queue_response (batch : ScheduleBatch) (index : nat) (response : WorkerAction) : M S unit :=
  let* meta := build_single_tx_batch_region batch index in
  update_world (write_response (sb_worker batch) {| wr_meta := meta; wr_response := response |}).

Definition queue_check_response (batch : ScheduleBatch) (index : nat) (keys : option (list Pubkey))
    (response : CheckResponse) : M S unit :=
  queue_response batch index (Check_ response keys).

Definition queue_check_response_ok (batch : ScheduleBatch) (index : nat) (keys : option (list Pubkey))
    : M S unit :=
  queue_check_response batch index keys check_ok.

Definition queue_execute_response (batch : ScheduleBatch) (index : nat) (response : ExecutionResponse)
    : M S unit :=
  queue_response batch index (Execute_ response).

Definition queue_unprocessed_response (batch : ScheduleBatch) (index : nat) : M S unit :=
  queue_response batch index Unprocessed.

(** [while let Some(batch) = bridge.pop_schedule() { body }]. *)
Definition while_scheduled (fuel : nat) (body : ScheduleBatch → M S unit) : M S unit :=
  loop_fuel fuel (
    let* batch := pop_schedule in
    match batch with
    | None => mret Break
    | Some batch => body batch ;; mret Continue
    end).

(** [for i in 0..batch.transactions.len() { bridge.queue_check_response_ok(&batch, i, None) }]. *)
Definition queue_checks_ok (batch : ScheduleBatch) : M S unit :=
  for_each (seq 0 (length (sb_transactions batch))) (λ i, queue_check_response_ok batch i None).

Definition queue_all_checks_ok (fuel : nat) : M S unit :=
  while_scheduled fuel (λ batch,
    assert "flags & 1 == CHECK" (Z.land (sb_flags batch) 1 =? pack_CHECK) ;;
    queue_checks_ok batch).
End BenchBridge.

(** ** Helpers of the tests *)

Section TestHelpers.
Context `{AgaveBindings} `{TestBindings} `{ComputeBudgetInterface} `{World W} `{!AgaveSession W} {D : Type}.
Abbreviation S := (St D W).

Definition MOCK_PROGRESS : ProgressMessage := {|
  leader_state := NOT_LEADER;
  current_slot := 10;
  next_leader_slot := 11;
  remaining_cost_units := 50000000;
  current_slot_progress := 25;
|}.

(** [ProgressMessage { leader_state: LEADER_READY, ..MOCK_PROGRESS }]. *)
Definition leader_progress : ProgressMessage := {|
  leader_state := LEADER_READY;
  current_slot := 10;
  next_leader_slot := 11;
  remaining_cost_units := 50000000;
  current_slot_progress := 25;
|}.

Definition with_slot (slot : Z) (p : ProgressMessage) : ProgressMessage := {|
  leader_state := leader_state p;
  current_slot := slot;
  next_leader_slot := next_leader_slot p;
  remaining_cost_units := remaining_cost_units p;
  current_slot_progress := current_slot_progress p;
|}.

Definition with_remaining (cus : Z) (p : ProgressMessage) : ProgressMessage := {|
  leader_state := leader_state p;
  current_slot := current_slot p;
  next_leader_slot := next_leader_slot p;
  remaining_cost_units := cus;
  current_slot_progress := current_slot_progress p;
|}.

(** [noop_with_budget], serialized. *)
Definition noop_with_budget (payer : Keypair) (cu_limit cu_price : Z) : u8s :=
  sign_and_serialize [set_compute_unit_limit cu_limit; set_compute_unit_price cu_price]
    (keypair_pubkey payer) payer 1%N.

Definition in_bridge (k : TransactionKey) (b : bool) : M S unit :=
  let* c := contains_tx k in assert "bridge.contains_tx" (Bool.eqb c b).
Definition bridge_count (n : nat) : M S unit :=
  let* c := tx_count in assert "bridge.tx_count()" (c =? n)%nat.

(** [bridge.pop_schedule().unwrap()], and [assert_eq!(.., None)]. *)
Definition popped : M S ScheduleBatch :=
  let* b := pop_schedule in unwrap "pop_schedule" b.
Definition none_scheduled : M S unit :=
  let* b := pop_schedule in
  assert "pop_schedule() == None" (match b with None => true | Some _ => false end).

Definition batch_len (b : ScheduleBatch) (n : nat) : M S unit :=
  assert "batch.transactions.len()" (length (sb_transactions b) =? n)%nat.
Definition is_check (b : ScheduleBatch) : bool := Z.land (sb_flags b) 1 =? pack_CHECK.
Definition is_execute (b : ScheduleBatch) : bool := negb (Z.land (sb_flags b) pack_EXECUTE =? 0).
Definition has_key (k : TransactionKey) (b : ScheduleBatch) : bool :=
  existsb (λ t, N.eqb (km_key t) k) (sb_transactions b).

(** [batch.transactions[0]]. *)
Definition first_tx (b : ScheduleBatch) : M S KeyedTransactionMeta :=
  unwrap "transactions[0]" (sb_transactions b !! 0%nat).

Definition provide_tip_config : M S unit :=
  let* receiver := call pubkey_new_unique in
  let* builder := call pubkey_new_unique in
  update_world (jito_send (JTipConfig {| tip_receiver := receiver; block_builder := builder |})).

(** Skip past the become-tip-receiver batches. *)
Definition skip_tip_batches : M S unit :=
  let* tip0 := popped in
  assert "tip0.flags & EXECUTE" (is_execute tip0) ;;
  let* tip1 := popped in
  assert "tip1.flags & EXECUTE" (is_execute tip1).

(** A transaction of a new payer. *)
Definition new_noop (cu_limit cu_price : Z) : M S u8s :=
  let* payer := call keypair_new in
  mret (noop_with_budget payer cu_limit cu_price).

(** The same with one more instruction. *)
Definition new_tx_with (ix : Instruction) (cu_limit cu_price : Z) : M S u8s :=
  let* payer := call keypair_new in
  mret (sign_and_serialize
    [set_compute_unit_limit cu_limit; set_compute_unit_price cu_price; ix]
    (keypair_pubkey payer) payer 1%N).

Definition tip_payment_ix : Instruction :=
  {| program_id := TIP_PAYMENT_PROGRAM; accounts := []; ix_bytes := [] |}.

(** One that writes a shared account. *)
Definition shared_ix : M S Instruction :=
  let* shared_account := call pubkey_new_unique in
  let* program_id := call pubkey_new_unique in
  mret {| program_id := program_id; accounts := [meta_new shared_account false]; ix_bytes := [] |}.

Definition send_bundle (b : list u8s) : M S unit := update_world (jito_send (JBundle b)).

Definition send_packet (tx : u8s) : M S unit := update_world (jito_send (JPacket tx)).
End TestHelpers.
