(* ===== verification/Outstanding.v ===== *)
(** * Executions that are with the workers

    Ghost lists of the executions that are out: each entry is a transaction's
    meta with a tag (the batch it was sent in, or whether it holds its locks).
    Both schedulers' invariants speak of such a list. *)

From S2P Require Import Prelude Types.

Section Outstanding.
Context {T : Type}.
Implicit Types O : list (T * PriorityId).

Definition okeys O : list TransactionKey := (λ im, key im.2) <$> O.
Definition sum_costs O : Z := foldr (λ im c, cost im.2 + c) 0 O.

Lemma elem_of_okeys O i m : (i, m) ∈ O → key m ∈ okeys O.
Proof. intros Hin. unfold okeys. apply list_elem_of_fmap. by exists (i, m). Qed.

Lemma okeys_Permutation O O' : O ≡ₚ O' → okeys O ≡ₚ okeys O'.
Proof. apply fmap_Permutation. Qed.

Lemma sum_costs_Permutation O O' : O ≡ₚ O' → sum_costs O = sum_costs O'.
Proof. induction 1; simpl; lia. Qed.

Lemma sum_costs_nonneg O : Forall (λ im, is_u64 (cost im.2)) O → 0 ≤ sum_costs O.
Proof. induction 1 as [|? ? Hx]; simpl; [lia|]. unfold is_u64 in Hx. lia. Qed.

(** ** What is left when an execution ended *)

Definition without (k : TransactionKey) O : list (T * PriorityId) := filter (λ im, key im.2 ≠ k) O.

(** The execution that ended is the only one of its key. *)
Lemma without_split O i m : NoDup (okeys O) → (i, m) ∈ O → O ≡ₚ (i, m) :: without (key m) O.
Proof.
  intros Hnd Hin. apply elem_of_Permutation in Hin as [l Hl]. rewrite Hl at 1. f_equiv.
  unfold without. rewrite Hl, filter_cons. rewrite decide_False by (simpl; tauto).
  rewrite list_filter_all; [done|]. intros [j m'] Hin' Heq. simpl in Heq.
  rewrite (okeys_Permutation _ _ Hl) in Hnd. unfold okeys in Hnd. csimpl in Hnd. apply NoDup_cons in Hnd as [Hn _].
  apply Hn. rewrite <- Heq. by apply (list_elem_of_fmap_2 (λ im : T * PriorityId, key im.2) l (j, m')).
Qed.

Lemma without_absent O k : k ∉ okeys O → without k O = O.
Proof. intros Hk. apply list_filter_all. intros [j m] Hin <-. apply Hk. by eapply elem_of_okeys. Qed.

Lemma sum_costs_without O k : Forall (λ im, is_u64 (cost im.2)) O → sum_costs (without k O) ≤ sum_costs O.
Proof.
  intros Hc. unfold without. induction Hc as [|im O Hi _ IH]; [done|]. rewrite filter_cons. unfold is_u64 in Hi.
  case_decide; simpl in *; lia.
Qed.
End Outstanding.
