(* ===== verification/Drains.v ===== *)
(** * What the bridge and the channel deliver

    [drain_worker] and [drain_tpu] are the bridge's: they call a closure of the
    scheduler for each response or transaction that has arrived.  Their law says
    how, step by step, and the rules here turn it into an invariant rule.  A
    poll is rendered as atomic: what arrives during it was there before.

    [Keeps] is the frame: what a handler leaves alone, found by type class
    resolution from the calls it makes. *)

From S2P Require Import Prelude Types Externals Events Common.

(** The bridge drops the transaction when the callback says so. *)
Definition after_decision `{World W} {D} (k : TransactionKey) (d : TxDecision) (st : St D W) : St D W :=
  match d with
  | Keep => st
  | Drop => mk (sch st) (w_drop_transaction k (wld st))
  end.

(** ** What has arrived *)

Class Pending (W : Type) `{World W} := {
  w_jito_queue : W → list JitoUpdate;
  w_jito_open : W → bool;
  w_responses : W → nat → list WorkerResponse;
}.

Section Seen.
Context `{Pending W}.

(** The worlds agree on what the scheduler has not looked at yet. *)
Record same_seen (w w' : W) : Prop := {
  ss_progress : w_progress w' = w_progress w;
  ss_queue : w_jito_queue w' = w_jito_queue w;
  ss_open : w_jito_open w' = w_jito_open w;
  ss_responses i : w_responses w' i = w_responses w i;
}.

#[export] Instance same_seen_preorder : PreOrder same_seen.
Proof. split; [by split|]. intros w1 w2 w3 [] []. split; congruence. Qed.

(** The same but for the responses. *)
Record same_front (w w' : W) : Prop := {
  sf_progress : w_progress w' = w_progress w;
  sf_queue : w_jito_queue w' = w_jito_queue w;
  sf_open : w_jito_open w' = w_jito_open w;
}.

#[export] Instance same_front_preorder : PreOrder same_front.
Proof. split; [by split|]. intros w1 w2 w3 [] []. split; congruence. Qed.

Lemma seen_front w w' : same_seen w w' → same_front w w'.
Proof. by intros []. Qed.

(** The bridge hands out what worker [i] answered, and nothing else. *)
Record handing_out (i : nat) (w w' : W) : Prop := {
  ho_transaction : w_transaction w' = w_transaction w;
  ho_progress : w_progress w' = w_progress w;
  ho_queue : w_jito_queue w' = w_jito_queue w;
  ho_open : w_jito_open w' = w_jito_open w;
  ho_responses j : j ≠ i → w_responses w' j = w_responses w j;
}.

Lemma handing_out_front i w w' : handing_out i w w' → same_front w w'.
Proof. by intros []. Qed.

Context {D : Type}.
Abbreviation S := (St D W).

(** The closure is called for each response in order. *)
Inductive delivered (i : nat) (f : WorkerResponse → M S TxDecision)
    : list WorkerResponse → S → Res (unit * S) → Prop :=
| delivered_end st w : handing_out i (wld st) w → delivered i f [] st (Ok (tt, mk (sch st) w))
| delivered_next r rs st w d st' res :
    handing_out i (wld st) w → f r (mk (sch st) w) = Ok (d, st') →
    delivered i f rs (after_decision (key (wr_meta r)) d st') res →
    delivered i f (r :: rs) st res
| delivered_panic r rs st w p :
    handing_out i (wld st) w → f r (mk (sch st) w) = Panicked p →
    delivered i f (r :: rs) st (Panicked p)
| delivered_hang r rs st w :
    handing_out i (wld st) w → f r (mk (sch st) w) = Hang → delivered i f (r :: rs) st Hang.

(** A transaction of the TPU is inserted under a new key before its call; one
    that does not parse is skipped. *)
Record arriving (k : TransactionKey) (w w' : W) : Prop := {
  ar_fresh : w_transaction w k = None;
  ar_signed : ∃ tx, w_transaction w' k = Some tx ∧ signed tx;
  ar_other k' : k' ≠ k → w_transaction w' k' = w_transaction w k';
  ar_seen : same_seen w w';
}.

Inductive delivered_tpu (f : TransactionKey → M S TxDecision) : nat → S → Res (unit * S) → Prop :=
| tpu_end n st w :
    w_transaction w = w_transaction (wld st) → same_seen (wld st) w →
    delivered_tpu f n st (Ok (tt, mk (sch st) w))
| tpu_next n k st w d st' res :
    arriving k (wld st) w → f k (mk (sch st) w) = Ok (d, st') →
    delivered_tpu f n (after_decision k d st') res → delivered_tpu f (Datatypes.S n) st res
| tpu_panic n k st w p :
    arriving k (wld st) w → f k (mk (sch st) w) = Panicked p → delivered_tpu f (Datatypes.S n) st (Panicked p)
| tpu_hang n k st w :
    arriving k (wld st) w → f k (mk (sch st) w) = Hang → delivered_tpu f (Datatypes.S n) st Hang.
End Seen.

(** The documented behaviour of the bridge, the clock, the channels and the
    metrics with respect to what has arrived. *)
Class PendingLaws (W : Type) `{Pending W} := {
  seen_insert packet w : same_seen w (w_insert_transaction packet w).2;
  seen_drop k w : same_seen w (w_drop_transaction k w);
  seen_schedule b w w' : w_schedule b w = Some w' → same_seen w w';
  seen_instant_now w : same_seen w (w_instant_now w).2;
  seen_utc_now w : same_seen w (w_utc_now w).2;
  seen_events e w : same_seen w (w_events_try_send e w).2;
  seen_increment m n w : same_seen w (w_metric_increment m n w);
  seen_set m n w : same_seen w (w_metric_set m n w);
  drain_progress_queue w : w_jito_queue (w_drain_progress w).2 = w_jito_queue w;
  drain_progress_open w : w_jito_open (w_drain_progress w).2 = w_jito_open w;
  jito_try_recv_queue w :
    let '(r, w') := w_jito_try_recv w in
    match r with
    | Received u =>
        w_jito_queue w = u :: w_jito_queue w' ∧ w_jito_open w' = w_jito_open w ∧ w_progress w' = w_progress w
    | Empty => w_jito_queue w = [] ∧ same_seen w w'
    | Disconnected => w_jito_open w = false
    end;
  drain_worker_delivers {D} i f (st : St D W) :
    delivered i f (w_responses (wld st) i) st (w_drain_worker i f st);
  drain_tpu_delivers {D} f n (st : St D W) :
    delivered_tpu f (Nat.min (w_tpu_len (wld st)) n) st (w_drain_tpu f n st);
}.

(** ** Invariant rules *)

Section Rules.
Context `{PendingLaws W} {D : Type}.
Abbreviation S := (St D W).

Lemma seen_after_decision k d (st : S) : same_seen (wld st) (wld (after_decision k d st)).
Proof. destruct d; [done|]. apply seen_drop. Qed.

Lemma sch_after_decision k d (st : S) : sch (after_decision k d st) = sch st.
Proof. by destruct d. Qed.

Lemma delivered_wp E i f (I : list WorkerResponse → S → Prop) (Q : S → Prop) rs st res :
  delivered i f rs st res → I rs st →
  (∀ r rs st w, I (r :: rs) st → handing_out i (wld st) w →
     wp E (f r) (λ d st', I rs (after_decision (key (wr_meta r)) d st')) (mk (sch st) w)) →
  (∀ st w, I [] st → handing_out i (wld st) w → Q (mk (sch st) w)) →
  match res with Ok (_, st') => Q st' | Panicked p => E p | Hang => False end.
Proof.
  intros Hd HI Hf HQ. induction Hd as [st w Hw|r rs st w d st' res Hw Heq _ IH|r rs st w p Hw Heq|r rs st w Hw Heq].
  - by apply HQ.
  - apply IH. specialize (Hf r rs st w HI Hw). unfold wp in Hf. by rewrite Heq in Hf.
  - specialize (Hf r rs st w HI Hw). unfold wp in Hf. by rewrite Heq in Hf.
  - specialize (Hf r rs st w HI Hw). unfold wp in Hf. by rewrite Heq in Hf.
Qed.

Lemma wp_drain_worker E i f (I : list WorkerResponse → S → Prop) (Q : S → Prop) st :
  I (w_responses (wld st) i) st →
  (∀ r rs st w, I (r :: rs) st → handing_out i (wld st) w →
     wp E (f r) (λ d st', I rs (after_decision (key (wr_meta r)) d st')) (mk (sch st) w)) →
  (∀ st w, I [] st → handing_out i (wld st) w → Q (mk (sch st) w)) →
  wp E (w_drain_worker i f) (λ _ st', Q st') st.
Proof.
  intros HI Hf HQ. pose proof (delivered_wp E i f I Q _ _ _ (drain_worker_delivers i f st) HI Hf HQ) as Hwp.
  unfold wp. by destruct (w_drain_worker i f st) as [[[] st']|p|].
Qed.

Lemma delivered_tpu_wp E f (I : nat → S → Prop) (Q : S → Prop) n st res :
  delivered_tpu f n st res → I n st →
  (∀ n k st w, I (Datatypes.S n) st → arriving k (wld st) w →
     wp E (f k) (λ d st', I n (after_decision k d st')) (mk (sch st) w)) →
  (∀ n st w, I n st → w_transaction w = w_transaction (wld st) → same_seen (wld st) w → Q (mk (sch st) w)) →
  match res with Ok (_, st') => Q st' | Panicked p => E p | Hang => False end.
Proof.
  intros Hd HI Hf HQ.
  induction Hd as [n st w Hw Hs|n k st w d st' res Hw Heq _ IH|n k st w p Hw Heq|n k st w Hw Heq].
  - by eapply HQ.
  - apply IH. specialize (Hf n k st w HI Hw). unfold wp in Hf. by rewrite Heq in Hf.
  - specialize (Hf n k st w HI Hw). unfold wp in Hf. by rewrite Heq in Hf.
  - specialize (Hf n k st w HI Hw). unfold wp in Hf. by rewrite Heq in Hf.
Qed.

Lemma wp_drain_tpu E f n (I : nat → S → Prop) (Q : S → Prop) st :
  I (Nat.min (w_tpu_len (wld st)) n) st →
  (∀ n k st w, I (Datatypes.S n) st → arriving k (wld st) w →
     wp E (f k) (λ d st', I n (after_decision k d st')) (mk (sch st) w)) →
  (∀ n st w, I n st → w_transaction w = w_transaction (wld st) → same_seen (wld st) w → Q (mk (sch st) w)) →
  wp E (w_drain_tpu f n) (λ _ st', Q st') st.
Proof.
  intros HI Hf HQ. pose proof (delivered_tpu_wp E f I Q _ _ _ (drain_tpu_delivers f n st) HI Hf HQ) as Hwp.
  unfold wp. by destruct (w_drain_tpu f n st) as [[[] st']|p|].
Qed.
End Rules.

Lemma delivered_tpu_more `{Pending W} {D} f n (st : St D W) res :
  delivered_tpu f n st res → delivered_tpu f (S n) st res.
Proof. induction 1; [by constructor|by eapply tpu_next|by eapply tpu_panic|by eapply tpu_hang]. Qed.

(** ** The frame of a handler

    [Keeps cfg m]: where [m] returns, the fields [cfg] selects are the same, and
    so is what the scheduler has not looked at yet. *)

Class KeepsField {D C} (cfg : D → C) (f : D → D) : Prop := keeps_field s : cfg (f s) = cfg s.
#[export] Hint Extern 0 (KeepsField _ _) => (intros ?; reflexivity) : typeclass_instances.

Class Keeps `{Pending W} {D C A} (cfg : D → C) (m : M (St D W) A) : Prop :=
  keeps st a st' : m st = Ok (a, st') → cfg (sch st') = cfg (sch st) ∧ same_seen (wld st) (wld st').

Section Frame.
Context `{PendingLaws W} {D C : Type} (cfg : D → C).
Abbreviation S := (St D W).

Lemma wp_keeps E {A} (m : M S A) `{!Keeps cfg m} (Q : A → S → Prop) st :
  wp E m Q st →
  wp E m (λ a st', Q a st' ∧ cfg (sch st') = cfg (sch st) ∧ same_seen (wld st) (wld st')) st.
Proof.
  unfold wp. destruct (m st) as [[a st']|p|] eqn:Heq; [|done..]. intros HQ. split; [done|].
  by eapply keeps.
Qed.

Lemma keeps_bind {A B} (m : M S A) (f : A → M S B) :
  Keeps cfg m → (∀ a, Keeps cfg (f a)) → Keeps cfg (bindM m f).
Proof.
  intros Hm Hf st b st'. unfold bindM. destruct (m st) as [[a st1]|p|] eqn:Heq; [|done..].
  intros Heq'. apply Hm in Heq as [Hc1 Hs1]. apply Hf in Heq' as [Hc2 Hs2].
  split; [congruence|by etransitivity].
Qed.

Lemma keeps_ret {A} (a : A) : Keeps cfg (mret a).
Proof. by intros st b st' [= <- <-]. Qed.

Lemma keeps_of_res {A} (r : Res A) : Keeps cfg (of_res r).
Proof. intros st a st'. unfold of_res. destruct r; [|done..]. by intros [= <- <-]. Qed.

Lemma keeps_unwrap {A} site (o : option A) : Keeps cfg (unwrap site o).
Proof. intros st a st'. unfold unwrap. destruct o; [|done]. by intros [= <- <-]. Qed.

Lemma keeps_assert site b : Keeps cfg (assert site b).
Proof. intros st a st'. unfold assert. destruct b; [|done]. by intros [= <- <-]. Qed.

Lemma keeps_panic {A} p : Keeps cfg (panic p : M S A).
Proof. done. Qed.

Lemma keeps_hang {A} : Keeps cfg (hang : M S A).
Proof. done. Qed.

Lemma keeps_when b m : Keeps cfg m → Keeps cfg (when b m).
Proof. intros Hm. destruct b; [done|apply keeps_ret]. Qed.

Lemma keeps_for_each {A} (l : list A) body : (∀ x, Keeps cfg (body x)) → Keeps cfg (for_each l body).
Proof.
  intros Hb. induction l as [|x l IH]; simpl; [apply keeps_ret|]. by apply keeps_bind.
Qed.

Lemma keeps_for_acc {A B} (l : list A) (b : B) body :
  (∀ x b, Keeps cfg (body x b)) → Keeps cfg (for_acc l b body).
Proof.
  intros Hb. revert b. induction l as [|x l IH]; intros b; simpl; [apply keeps_ret|].
  apply keeps_bind; [done|]. intros [[] b']; [done|apply keeps_ret].
Qed.

Lemma keeps_loop_fuel fuel body : Keeps cfg body → Keeps cfg (loop_fuel fuel body).
Proof.
  intros Hb. induction fuel as [|fuel IH]; simpl; [done|]. apply keeps_bind; [done|].
  intros []; [done|apply keeps_ret].
Qed.

Lemma keeps_self {A} (f : D → A) : Keeps cfg (self f).
Proof. by intros st b st' [= <- <-]. Qed.

Lemma keeps_bridge {A} (f : W → A) : Keeps cfg (bridge f).
Proof. by intros st b st' [= <- <-]. Qed.

Lemma keeps_update f : KeepsField cfg f → Keeps cfg (update f).
Proof. intros Hf st b st' [= <- <-]. by split; [apply Hf|]. Qed.

Lemma keeps_update_world f : (∀ w, same_seen w (f w)) → Keeps cfg (update_world f).
Proof. intros Hf st b st' [= <- <-]. by split; [|apply Hf]. Qed.

Lemma keeps_call {A} (f : W → A * W) : (∀ w, same_seen w (f w).2) → Keeps cfg (call f).
Proof.
  intros Hf st a st'. unfold call, step. specialize (Hf (wld st)). destruct (f (wld st)) as [b w].
  by intros [= <- <-].
Qed.

Lemma keeps_transaction k : Keeps cfg (transaction k).
Proof.
  apply keeps_bind; [apply keeps_bridge|]. intros [t|]; [apply keeps_ret|done].
Qed.

Lemma keeps_schedule b : Keeps cfg (schedule b).
Proof.
  intros st a st'. unfold schedule, bindM, bridge, gets, unwrap.
  destruct (w_schedule b (wld st)) as [w'|] eqn:Hw; [|done]. intros [= <- <-]. split; [done|].
  by apply seen_schedule in Hw.
Qed.

Lemma keeps_insert_transaction packet : Keeps cfg (insert_transaction packet).
Proof. apply keeps_call, seen_insert. Qed.

Lemma keeps_drop_transaction k : Keeps cfg (drop_transaction k).
Proof. apply keeps_update_world, seen_drop. Qed.

Lemma keeps_increment m n : Keeps cfg (increment m n).
Proof. apply keeps_update_world, seen_increment. Qed.

Lemma keeps_set_gauge m n : Keeps cfg (set_gauge m n).
Proof. apply keeps_update_world, seen_set. Qed.

Lemma keeps_emit e ev : Keeps cfg (emit e ev).
Proof.
  apply keeps_bind; [apply keeps_call, seen_utc_now|]. intros now.
  apply keeps_bind; [apply keeps_call, seen_events|]. intros b. apply keeps_ret.
Qed.
End Frame.

(** The frames of calls and handlers. *)
Create HintDb frame.
#[export] Hint Resolve keeps_ret keeps_of_res keeps_unwrap keeps_assert keeps_panic keeps_hang : frame.
#[export] Hint Resolve keeps_self keeps_bridge keeps_transaction keeps_schedule : frame.
#[export] Hint Resolve keeps_insert_transaction keeps_drop_transaction keeps_increment : frame.
#[export] Hint Resolve keeps_set_gauge keeps_emit seen_instant_now seen_utc_now seen_increment : frame.

(** Follow the code; a handler that is called has its own lemma. *)
Ltac keeps_step :=
  lazymatch goal with
  | |- ∀ _, _ => intros ?
  | |- Keeps _ (bindM _ _) => apply keeps_bind
  | |- Keeps _ (when _ _) => apply keeps_when
  | |- Keeps _ (for_each _ _) => apply keeps_for_each
  | |- Keeps _ (for_acc _ _ _) => apply keeps_for_acc
  | |- Keeps _ (loop_fuel _ _) => apply keeps_loop_fuel
  | |- Keeps _ (update _) => apply keeps_update
  | |- Keeps _ (call _) => apply keeps_call
  | |- KeepsField _ _ => intros ?; reflexivity
  | |- Keeps _ (let _ := _ in _) => cbv zeta
  | |- Keeps _ (match ?x with _ => _ end) => destruct x
  | |- Keeps _ _ => solve [eauto 2 with frame]
  | |- same_seen _ _ => solve [eauto 2 with frame]
  end.
Ltac keeps_tac := repeat keeps_step.
