(* ===== verification/Strays.v ===== *)
(** * Transactions that nothing holds

    A transaction of the bridge is a stray when the scheduler's collections do
    not have its key.  [strays X st]: all strays of [st] are among [X].  The
    rules say how the calls and the collections' changes move keys into [X] and
    out of it; a handler's lemma follows its code with them. *)

From S2P Require Import Prelude BTreeSet Types Externals Events Common Drains.

(** ** What a scheduler holds *)

Record Held := {
  h_unchecked : list PriorityId;
  h_checked : list PriorityId;
  h_deferred : list PriorityId;
  h_executing : gset TransactionKey;
  h_bundles : list BundleId;
}.

#[export] Instance Held_eta : Eta Held := λ h, {|
  h_unchecked := h_unchecked h; h_checked := h_checked h; h_deferred := h_deferred h;
  h_executing := h_executing h; h_bundles := h_bundles h |}.

Definition meta_keys (ms : list PriorityId) : gset TransactionKey := list_to_set (key <$> ms).
Definition bundle_keys (bs : list BundleId) : gset TransactionKey := list_to_set (concat (keys <$> bs)).
Definition batch_keys (batch : list KeyedTransactionMeta) : gset TransactionKey := list_to_set (km_key <$> batch).

Lemma batch_keys_snoc l kt : batch_keys (l ++ [kt]) = {[km_key kt]} ∪ batch_keys l.
Proof.
  unfold batch_keys. rewrite fmap_app, list_to_set_app_L. cbn. by rewrite (right_id_L ∅ (∪)), (comm_L (∪)).
Qed.

Definition hkeys (h : Held) : gset TransactionKey :=
  meta_keys (h_unchecked h) ∪ meta_keys (h_checked h) ∪ meta_keys (h_deferred h) ∪ h_executing h
  ∪ bundle_keys (h_bundles h).

Lemma elem_of_meta_keys k ms : k ∈ meta_keys ms ↔ ∃ m, m ∈ ms ∧ key m = k.
Proof. unfold meta_keys. rewrite elem_of_list_to_set, list_elem_of_fmap. naive_solver. Qed.

Lemma elem_of_bundle_keys k bs : k ∈ bundle_keys bs ↔ ∃ b, b ∈ bs ∧ k ∈ keys b.
Proof.
  unfold bundle_keys. rewrite elem_of_list_to_set, elem_of_concat. setoid_rewrite list_elem_of_fmap. naive_solver.
Qed.

Lemma elem_of_hkeys k h :
  k ∈ hkeys h ↔
  (∃ m, m ∈ h_unchecked h ∧ key m = k) ∨ (∃ m, m ∈ h_checked h ∧ key m = k) ∨
  (∃ m, m ∈ h_deferred h ∧ key m = k) ∨ k ∈ h_executing h ∨ (∃ b, b ∈ h_bundles h ∧ k ∈ keys b).
Proof.
  unfold hkeys. rewrite !elem_of_union, !elem_of_meta_keys, elem_of_bundle_keys. tauto.
Qed.

Lemma hkeys_checked m h : m ∈ h_checked h → key m ∈ hkeys h.
Proof. intros Hm. apply elem_of_hkeys. right; left. by exists m. Qed.

Lemma hkeys_deferred m h : m ∈ h_deferred h → key m ∈ hkeys h.
Proof. intros Hm. apply elem_of_hkeys. do 2 right; left. by exists m. Qed.

Lemma hkeys_executing k h : k ∈ h_executing h → k ∈ hkeys h.
Proof. intros Hk. apply elem_of_hkeys. by do 3 right; left. Qed.

Lemma meta_keys_subset l l' : l ⊆ l' → meta_keys l ⊆ meta_keys l'.
Proof. intros Hl k. rewrite !elem_of_meta_keys. intros (m & Hm & <-). exists m. split; [by apply Hl|done]. Qed.

Lemma meta_keys_take m l l' : l ⊆ m :: l' → meta_keys l ⊆ {[key m]} ∪ meta_keys l'.
Proof. intros Hl%meta_keys_subset. etrans; [exact Hl|]. unfold meta_keys. simpl. set_solver. Qed.

Lemma bundle_keys_take b l l' : l ⊆ b :: l' → bundle_keys l ⊆ list_to_set (keys b) ∪ bundle_keys l'.
Proof.
  intros Hl k. rewrite elem_of_union, elem_of_list_to_set, !elem_of_bundle_keys. intros (b' & Hb & Hk).
  apply Hl, elem_of_cons in Hb as [->|Hb]; [by left|]. right. by exists b'.
Qed.

Lemma elem_of_removelast {A} (l : list A) x y : last l = Some y → x ∈ l → x = y ∨ x ∈ removelast l.
Proof.
  intros Hl Hx. rewrite (BTreeSet.removelast_last l y Hl) in Hx. apply elem_of_app in Hx as [|Hx]; [by right|].
  left. by apply list_elem_of_singleton in Hx.
Qed.

(** The last of a list, popped: it is what the look at it said. *)
Lemma btree_pop_last_inv {A} `{RustOrd A} (l l' : list A) x y :
  btree_last l = Some x → btree_pop_last l = Some (y, l') → y = x.
Proof. unfold btree_last, btree_pop_last. intros ->. by intros [= -> _]. Qed.

Lemma btree_pop_last_take {A} `{RustOrd A} (l l' : list A) y : btree_pop_last l = Some (y, l') → l ⊆ y :: l'.
Proof.
  unfold btree_pop_last. destruct (last l) as [z|] eqn:Hl; [|done]. intros [= -> <-] x Hx.
  apply elem_of_cons. by apply elem_of_removelast.
Qed.

Lemma btree_pop_first_take {A} `{RustOrd A} (l l' : list A) y : btree_pop_first l = Some (y, l') → l ⊆ y :: l'.
Proof. by destruct l; [|intros [= -> ->]]. Qed.

Lemma btree_remove_take {A} `{EqDecision A} `{RustOrd A} `{!RustOrdLaws A} (x : A) l : l ⊆ x :: (btree_remove x l).2.
Proof.
  intros y Hy. destruct (decide (y = x)) as [->|Hne]; [by left|]. right. by apply elem_of_remove_other.
Qed.

(** One collection changes. *)
Section HeldChanges.
Implicit Types (h : Held) (Y : gset TransactionKey).

Lemma hkeys_set_unchecked h l Y :
  meta_keys (h_unchecked h) ⊆ meta_keys l ∪ Y → hkeys h ⊆ hkeys (h <| h_unchecked := l |>) ∪ Y.
Proof. unfold hkeys. simpl. set_solver. Qed.
Lemma hkeys_set_checked h l Y :
  meta_keys (h_checked h) ⊆ meta_keys l ∪ Y → hkeys h ⊆ hkeys (h <| h_checked := l |>) ∪ Y.
Proof. unfold hkeys. simpl. set_solver. Qed.
Lemma hkeys_set_deferred h l Y :
  meta_keys (h_deferred h) ⊆ meta_keys l ∪ Y → hkeys h ⊆ hkeys (h <| h_deferred := l |>) ∪ Y.
Proof. unfold hkeys. simpl. set_solver. Qed.
Lemma hkeys_set_executing h e Y : h_executing h ⊆ e ∪ Y → hkeys h ⊆ hkeys (h <| h_executing := e |>) ∪ Y.
Proof. unfold hkeys. simpl. set_solver. Qed.
Lemma hkeys_set_bundles h l Y :
  bundle_keys (h_bundles h) ⊆ bundle_keys l ∪ Y → hkeys h ⊆ hkeys (h <| h_bundles := l |>) ∪ Y.
Proof. unfold hkeys. simpl. set_solver. Qed.

Lemma hkeys_add_unchecked h l m :
  meta_keys (h_unchecked h) ∪ {[key m]} ⊆ meta_keys l → hkeys h ∪ {[key m]} ⊆ hkeys (h <| h_unchecked := l |>).
Proof. unfold hkeys. simpl. set_solver. Qed.
Lemma hkeys_add_checked h m :
  hkeys h ∪ {[key m]} ⊆ hkeys (h <| h_checked := insert_sorted m (h_checked h) |>).
Proof.
  assert (meta_keys (h_checked h) ∪ {[key m]} ⊆ meta_keys (insert_sorted m (h_checked h))) as Hm.
  { intros k. rewrite elem_of_union, !elem_of_meta_keys. setoid_rewrite elem_of_insert_sorted.
    rewrite elem_of_singleton. naive_solver. }
  unfold hkeys. simpl. set_solver.
Qed.
Lemma hkeys_add_deferred h m : hkeys h ∪ {[key m]} ⊆ hkeys (h <| h_deferred := h_deferred h ++ [m] |>).
Proof.
  assert (meta_keys (h_deferred h ++ [m]) = meta_keys (h_deferred h) ∪ {[key m]}) as Hm.
  { unfold meta_keys. rewrite fmap_app, list_to_set_app_L. simpl. by rewrite (right_id_L ∅ (∪)). }
  unfold hkeys. simpl. rewrite Hm. set_solver.
Qed.
Lemma hkeys_add_executing h k : hkeys h ∪ {[k]} ⊆ hkeys (h <| h_executing := {[k]} ∪ h_executing h |>).
Proof. unfold hkeys. simpl. set_solver. Qed.
Lemma hkeys_add_bundle h b :
  hkeys h ∪ list_to_set (keys b) ⊆ hkeys (h <| h_bundles := insert_sorted b (h_bundles h) |>).
Proof.
  assert (bundle_keys (h_bundles h) ∪ list_to_set (keys b) ⊆ bundle_keys (insert_sorted b (h_bundles h))) as Hb.
  { intros k. rewrite elem_of_union, !elem_of_bundle_keys, elem_of_list_to_set.
    setoid_rewrite elem_of_insert_sorted. naive_solver. }
  unfold hkeys. simpl. set_solver.
Qed.
End HeldChanges.

#[export] Typeclasses Opaque hkeys meta_keys bundle_keys batch_keys.

Section Strays.
Context `{World W} `{!WorldLaws} `{!DropLaws} {D : Type} (held : D → Held).
Abbreviation S := (St D W).
Implicit Types (X Y : gset TransactionKey) (st : S).

Definition strays X st : Prop :=
  ∀ k, w_transaction (wld st) k ≠ None → k ∈ hkeys (held (sch st)) ∪ X.

Lemma strays_mono X Y st : X ⊆ Y → strays X st → strays Y st.
Proof. intros HXY Hs k Hk. specialize (Hs k Hk). set_solver. Qed.

(** The keys the scheduler lets go of are in [Y], those it takes in leave. *)
Lemma strays_change X Y s s' w w' :
  strays X (mk s w) → (∀ k, w_transaction w' k ≠ None → w_transaction w k ≠ None) →
  hkeys (held s) ∪ X ⊆ hkeys (held s') ∪ Y →
  strays Y (mk s' w').
Proof. intros Hs Hw Ht k Hk. by apply Ht, Hs, Hw. Qed.

Lemma strays_same X st st' :
  strays X st → w_transaction (wld st') = w_transaction (wld st) → held (sch st') = held (sch st) →
  strays X st'.
Proof. intros Hs Hw Ht k. rewrite Hw, Ht. apply Hs. Qed.

(** The scheduler lets go of the keys in [Y]; it takes them in. *)
Lemma strays_less X Y s s' w :
  hkeys (held s) ⊆ hkeys (held s') ∪ Y → strays X (mk s w) → strays (Y ∪ X) (mk s' w).
Proof. intros Hh Hs. eapply strays_change; [exact Hs|done|]. set_solver. Qed.

Lemma strays_more X Y s s' w :
  hkeys (held s) ∪ Y ⊆ hkeys (held s') → strays (Y ∪ X) (mk s w) → strays X (mk s' w).
Proof. intros Hh Hs. eapply strays_change; [exact Hs|done|]. set_solver. Qed.

Lemma strays_drop X k st : strays X st → strays (X ∖ {[k]}) (mk (sch st) (w_drop_transaction k (wld st))).
Proof.
  intros Hs k'. simpl. destruct (decide (k' = k)) as [->|Hne]; [by rewrite drop_transaction_gone|].
  rewrite drop_transaction_other by done. intros Hk. specialize (Hs k' Hk). set_solver.
Qed.

Lemma strays_dropped X k st : strays ({[k]} ∪ X) st → strays X (mk (sch st) (w_drop_transaction k (wld st))).
Proof. intros Hs. eapply strays_mono, strays_drop, Hs. set_solver. Qed.

Lemma strays_insert X packet st k w' :
  strays X st → w_insert_transaction packet (wld st) = (Some k, w') → strays ({[k]} ∪ X) (mk (sch st) w').
Proof.
  intros Hs Hi. apply insert_transaction_fresh in Hi as (_ & _ & Ho). intros k' Hk'. simpl in *.
  destruct (decide (k' = k)) as [->|Hne]; [set_solver|]. rewrite Ho in Hk' by done.
  specialize (Hs k' Hk'). set_solver.
Qed.

Lemma strays_refused X packet st w' :
  strays X st → w_insert_transaction packet (wld st) = (None, w') → strays X (mk (sch st) w').
Proof. intros Hs Hi. eapply strays_same; [done|by eapply insert_transaction_refused|done]. Qed.

(** ** Rules *)

Lemma wlp_bind_strays {A B} (m : M S A) (f : A → M S B) (P : A → S → Prop) Q st :
  wlp m P st → (∀ a st', P a st' → wlp (f a) Q st') → wlp (bindM m f) Q st.
Proof. intros Hm Hf. apply wlp_bind. by eapply wlp_mono. Qed.

Lemma wlp_mret {A} (a : A) Q st : Q a st → wlp (mret a) Q st.
Proof. by intros HQ b st' [= <- <-]. Qed.

Lemma wlp_self {A} (f : D → A) Q st : Q (f (sch st)) st → wlp (self f) Q st.
Proof. by intros HQ b st' [= <- <-]. Qed.

Lemma wlp_bridge {A} (f : W → A) Q st : Q (f (wld st)) st → wlp (bridge f) Q st.
Proof. by intros HQ b st' [= <- <-]. Qed.

Lemma wlp_update (f : D → D) Q st : Q tt (mk (f (sch st)) (wld st)) → wlp (update f) Q st.
Proof. by intros HQ b st' [= <- <-]. Qed.

Lemma wlp_call {A} (f : W → A * W) Q st :
  (∀ a w', f (wld st) = (a, w') → Q a (mk (sch st) w')) → wlp (call f) Q st.
Proof.
  intros HQ a st'. unfold call, step. destruct (f (wld st)) as [b w'] eqn:Hf. intros [= <- <-]. by apply HQ.
Qed.

Lemma wlp_of_res {A} (r : Res A) Q st : (∀ a, r = Ok a → Q a st) → wlp (of_res r) Q st.
Proof. intros HQ a st'. unfold of_res. destruct r; [|done..]. intros [= <- <-]. by apply HQ. Qed.

Lemma wlp_unwrap {A} site (o : option A) Q st : (∀ a, o = Some a → Q a st) → wlp (unwrap site o) Q st.
Proof. intros HQ a st'. unfold unwrap. destruct o; [|done]. intros [= <- <-]. by apply HQ. Qed.

Lemma wlp_assert site b Q st : (b = true → Q tt st) → wlp (assert site b) Q st.
Proof. intros HQ a st'. unfold assert. destruct b; [|done]. intros [= <- <-]. by apply HQ. Qed.

Lemma wlp_panic {A} p (Q : A → S → Prop) st : wlp (panic p) Q st.
Proof. by intros a st'. Qed.

Lemma wlp_hang {A} (Q : A → S → Prop) st : wlp hang Q st.
Proof. by intros a st'. Qed.

Lemma wlp_transaction k Q st : (∀ tx, Q tx st) → wlp (transaction k) Q st.
Proof.
  intros HQ. unfold transaction. apply wlp_bind, wlp_bridge.
  destruct (w_transaction (wld st) k); [by apply wlp_mret|apply wlp_panic].
Qed.

(** ** What leaves the transactions and the collections alone *)

(** [cfg] selects the collections. *)
Definition still {C A} (cfg : D → C) (m : M S A) : Prop :=
  ∀ st a st', m st = Ok (a, st') →
    cfg (sch st') = cfg (sch st) ∧ w_transaction (wld st') = w_transaction (wld st).

Context {C : Type} (cfg : D → C).

Lemma wlp_still {A} (m : M S A) Q st :
  still cfg m →
  (∀ a s' w', cfg s' = cfg (sch st) → w_transaction w' = w_transaction (wld st) → Q a (mk s' w')) →
  wlp m Q st.
Proof. intros Hm HQ a [s' w'] Heq. destruct (Hm _ _ _ Heq) as [Hc Hw]. by apply HQ. Qed.

Lemma still_bind {A B} (m : M S A) (f : A → M S B) :
  still cfg m → (∀ a, still cfg (f a)) → still cfg (bindM m f).
Proof.
  intros Hm Hf st b st'. unfold bindM. destruct (m st) as [[a st1]|p|] eqn:Heq; [|done..].
  intros Heq'. apply Hm in Heq as [Hc1 Hs1]. apply Hf in Heq' as [Hc2 Hs2]. split; congruence.
Qed.

Lemma still_ret {A} (a : A) : still cfg (mret a).
Proof. by intros st b st' [= <- <-]. Qed.

Lemma still_self {A} (f : D → A) : still cfg (self f).
Proof. by intros st b st' [= <- <-]. Qed.

Lemma still_bridge {A} (f : W → A) : still cfg (bridge f).
Proof. by intros st b st' [= <- <-]. Qed.

Lemma still_of_res {A} (r : Res A) : still cfg (of_res r).
Proof. intros st a st'. unfold of_res. destruct r; [|done..]. by intros [= <- <-]. Qed.

Lemma still_unwrap {A} site (o : option A) : still cfg (unwrap site o).
Proof. intros st a st'. unfold unwrap. destruct o; [|done]. by intros [= <- <-]. Qed.

Lemma still_assert site b : still cfg (assert site b).
Proof. intros st a st'. unfold assert. destruct b; [|done]. by intros [= <- <-]. Qed.

Lemma still_panic {A} p : still cfg (panic p : M S A).
Proof. done. Qed.

Lemma still_when b m : still cfg m → still cfg (when b m).
Proof. intros Hm. destruct b; [done|apply still_ret]. Qed.

Lemma still_for_each {A} (l : list A) body : (∀ x, still cfg (body x)) → still cfg (for_each l body).
Proof. intros Hb. induction l as [|x l IH]; simpl; [apply still_ret|]. by apply still_bind. Qed.

Lemma still_transaction k : still cfg (transaction k).
Proof. apply still_bind; [apply still_bridge|]. intros [t|]; [apply still_ret|done]. Qed.

Lemma still_update f : (∀ s, cfg (f s) = cfg s) → still cfg (update f).
Proof. intros Hf st b st' [= <- <-]. by split; [apply Hf|]. Qed.

Lemma still_call {A} (f : W → A * W) : (∀ w, w_transaction (f w).2 = w_transaction w) → still cfg (call f).
Proof.
  intros Hf st a st'. unfold call, step. specialize (Hf (wld st)). destruct (f (wld st)) as [b w].
  by intros [= <- <-].
Qed.

Lemma still_schedule b : still cfg (schedule b).
Proof.
  intros st a st'. unfold schedule, bindM, bridge, gets, unwrap.
  destruct (w_schedule b (wld st)) as [w'|] eqn:Hw; [|done]. intros [= <- <-]. split; [done|].
  by apply schedule_transaction in Hw.
Qed.

Lemma still_increment m n : still cfg (increment m n).
Proof. intros st b st' [= <- <-]. split; [done|apply metric_increment_transaction]. Qed.

Lemma still_set_gauge m n : still cfg (set_gauge m n).
Proof. intros st b st' [= <- <-]. split; [done|apply metric_set_transaction]. Qed.

Lemma still_emit e ev : still cfg (emit e ev).
Proof.
  apply still_bind; [apply still_call, utc_now_transaction|]. intros now.
  apply still_bind; [apply still_call, events_transaction|]. intros b. apply still_ret.
Qed.
End Strays.

Create HintDb still.
#[export] Hint Resolve still_ret still_of_res still_unwrap still_assert still_panic : still.
#[export] Hint Resolve still_self still_bridge still_transaction still_schedule : still.
#[export] Hint Resolve still_increment still_set_gauge still_emit : still.
#[export] Hint Resolve instant_now_transaction utc_now_transaction : still.

(** Follow the code; a handler that is called has its own lemma. *)
Ltac still_step :=
  lazymatch goal with
  | |- ∀ _, _ => intros ?
  | |- still _ (bindM _ _) => apply still_bind
  | |- still _ (when _ _) => apply still_when
  | |- still _ (for_each _ _) => apply still_for_each
  | |- still _ (update _) => apply still_update; intros ?; reflexivity
  | |- still _ (call _) => apply still_call
  | |- still _ (let _ := _ in _) => cbv zeta
  | |- still _ (match ?x with _ => _ end) => destruct x
  | |- still _ _ => solve [eauto 2 with still]
  | |- _ = _ => solve [eauto 2 with still]
  end.
Ltac still_tac := repeat still_step.

(** One call of a program of [M], the keys in transit aside. *)
Ltac stray_step :=
  lazymatch goal with
  | |- wlp (bindM _ _) _ _ => apply wlp_bind
  | |- wlp (mret _) _ _ => apply wlp_mret
  | |- wlp (self (@id _)) _ _ => apply wlp_self; cbv beta delta [id]
  | |- wlp (self _) _ _ => apply wlp_self
  | |- wlp (bridge _) _ _ => apply wlp_bridge
  | |- wlp (update _) _ _ => apply wlp_update
  | |- wlp (of_res _) _ _ => apply wlp_of_res; let a := fresh "a" in let Ha := fresh "Ha" in intros a Ha
  | |- wlp (unwrap _ _) _ _ => apply wlp_unwrap; let a := fresh "a" in let Ha := fresh "Ha" in intros a Ha
  | |- wlp (assert _ _) _ _ => apply wlp_assert; intros ?
  | |- wlp (transaction _) _ _ => apply wlp_transaction; intros ?
  | |- wlp (panic _) _ _ => apply wlp_panic
  | |- wlp hang _ _ => apply wlp_hang
  | |- wlp (let _ := _ in _) _ _ => cbv zeta
  end; cbv beta.
Ltac stray_steps := repeat stray_step.

(** ** Rules with keys in transit *)

Section StrayRules.
Context `{World W} `{!WorldLaws} `{!DropLaws} {D : Type} (held : D → Held).
Abbreviation S := (St D W).
Abbreviation strays := (strays held).
Implicit Types (X Y : gset TransactionKey) (st : S) (k : TransactionKey).

Lemma wlp_still_strays X {A} (m : M S A) (Q : A → S → Prop) st :
  strays X st → still held m → (∀ a st', strays X st' → Q a st') → wlp m Q st.
Proof.
  intros Hs Hm HQ. apply (wlp_still held m Q st Hm). intros a s' w' Hc Hw. apply HQ. by eapply strays_same.
Qed.

(** The same where something else must not change, either. *)
Lemma wlp_still_with X {C} (extra : D → C) {A} (m : M S A) (Q : A → S → Prop) st :
  strays X st → still (λ s, (held s, extra s)) m →
  (∀ a s' w', strays X (mk s' w') → held s' = held (sch st) → extra s' = extra (sch st) → Q a (mk s' w')) →
  wlp m Q st.
Proof.
  intros Hs Hm HQ. apply (wlp_still _ m Q st Hm). intros a s' w' Hc Hw.
  apply HQ; [|exact (f_equal fst Hc)|exact (f_equal snd Hc)].
  eapply strays_same; [exact Hs|done|]. exact (f_equal fst Hc).
Qed.

Lemma wlp_then X {A} (m : M S A) (Q : A → S → Prop) st :
  wlp m (λ _, strays X) st → (∀ a st', strays X st' → Q a st') → wlp m Q st.
Proof. intros Hm HQ. by eapply wlp_mono. Qed.

(** A handler that neither takes in nor lets go of a key. *)
Definition keeps_strays {A} (m : M S A) : Prop := ∀ X st, strays X st → wlp m (λ _, strays X) st.

Lemma still_keeps {A} (m : M S A) : still held m → keeps_strays m.
Proof. intros Hm X st Hs. by apply (wlp_still_strays X). Qed.

Lemma keeps_strays_bind {A B} (m : M S A) (f : A → M S B) :
  keeps_strays m → (∀ a, keeps_strays (f a)) → keeps_strays (bindM m f).
Proof. intros Hm Hf X st Hs. apply wlp_bind. eapply wlp_mono; [by apply Hm|]. intros a st' Hs'. by apply Hf. Qed.

Lemma keeps_strays_when b m : keeps_strays m → keeps_strays (when b m).
Proof. intros Hm X st Hs. apply wlp_when; intros _; [by apply Hm|done]. Qed.

Lemma wlp_drop X k st : strays ({[k]} ∪ X) st → wlp (drop_transaction k) (λ _, strays X) st.
Proof. intros Hs b st' [= <- <-]. by apply strays_dropped. Qed.

Lemma wlp_insert_transaction X packet (Q : option TransactionKey → S → Prop) st :
  strays X st → (∀ st', strays X st' → Q None st') →
  (∀ (k : TransactionKey) st', strays ({[k]} ∪ X) st' → Q (Some k) st') →
  wlp (insert_transaction packet) Q st.
Proof.
  intros Hs Hn Hk. apply wlp_call. intros [k'|] w' Hi; [by eapply Hk, strays_insert|by eapply Hn, strays_refused].
Qed.

(** [for x in l { .. }] over what is in transit. *)
Lemma wlp_for_each_strays X {A} (ks : list A → gset TransactionKey) (l : list A) body st :
  ks [] = ∅ → strays (ks l ∪ X) st →
  (∀ x l' st, strays (ks (x :: l') ∪ X) st → wlp (body x) (λ _, strays (ks l' ∪ X)) st) →
  wlp (for_each l body) (λ _, strays X) st.
Proof.
  intros Hnil Hs Hb. apply (wlp_then (ks [] ∪ X)).
  - by apply (wlp_for_each l body (λ l, strays (ks l ∪ X))).
  - intros _ st' Hs'. rewrite Hnil in Hs'. by rewrite (left_id_L ∅ (∪)) in Hs'.
Qed.

Lemma keys_gone_strays X (f : TransactionKey → M S unit) ks st :
  (∀ k X st, strays ({[k]} ∪ X) st → wlp (f k) (λ _, strays X) st) →
  strays (list_to_set ks ∪ X) st → wlp (for_each ks f) (λ _, strays X) st.
Proof.
  intros Hf Hs. apply (wlp_for_each_strays X list_to_set); [done..|].
  intros k l st1 Hs1. apply Hf. eapply strays_mono, Hs1. set_solver.
Qed.

Lemma strays_untracked X k st : strays X st → k ∈ hkeys (held (sch st)) → strays (X ∖ {[k]}) st.
Proof.
  intros Hs Hk k' Hk'. specialize (Hs k' Hk'). destruct (decide (k' = k)) as [->|Hne]; set_solver.
Qed.

(** What the bridge does with a handler's decision about [k]. *)
Definition decided_strays X k (d : TxDecision) st : Prop := strays X (after_decision k d st).

(** The rest of a handler is still; the decision is made. *)
Lemma wlp_still_decided X Y k {A} (m : M S A) (d : TxDecision) st :
  strays Y st → still held m → (∀ st', strays Y st' → decided_strays X k d st') →
  wlp (m ;; mret d) (decided_strays X k) st.
Proof.
  intros Hs Hm HQ. apply wlp_bind. apply (wlp_still_strays _ _ _ _ Hs Hm). intros _ st1 Hs1.
  apply wlp_mret. by apply HQ.
Qed.

(** One collection takes a key in, or lets go of one. *)
Lemma strays_take_unchecked X m l s s' w :
  held s' = (held s) <| h_unchecked := l |> → h_unchecked (held s) ⊆ m :: l →
  strays X (mk s w) → strays ({[key m]} ∪ X) (mk s' w).
Proof.
  intros Hs' Hl Hs. eapply strays_less; [|exact Hs]. rewrite Hs'.
  by apply hkeys_set_unchecked; rewrite (comm_L (∪)); apply meta_keys_take.
Qed.

Lemma strays_take_checked X m l s s' w :
  held s' = (held s) <| h_checked := l |> → h_checked (held s) ⊆ m :: l →
  strays X (mk s w) → strays ({[key m]} ∪ X) (mk s' w).
Proof.
  intros Hs' Hl Hs. eapply strays_less; [|exact Hs]. rewrite Hs'.
  by apply hkeys_set_checked; rewrite (comm_L (∪)); apply meta_keys_take.
Qed.

Lemma strays_take_bundle X b l s s' w :
  held s' = (held s) <| h_bundles := l |> → h_bundles (held s) ⊆ b :: l →
  strays X (mk s w) → strays (list_to_set (keys b) ∪ X) (mk s' w).
Proof.
  intros Hs' Hl Hs. eapply strays_less; [|exact Hs]. rewrite Hs'.
  by apply hkeys_set_bundles; rewrite (comm_L (∪)); apply bundle_keys_take.
Qed.

Lemma strays_take_executing X k s s' w :
  held s' = (held s) <| h_executing ::= λ e, e ∖ {[k]} |> →
  strays X (mk s w) → strays ({[k]} ∪ X) (mk s' w).
Proof.
  intros Hs' Hs. eapply strays_less; [|exact Hs]. rewrite Hs'. apply hkeys_set_executing. intros k' Hk'.
  destruct (decide (k' = k)); set_solver.
Qed.

Lemma strays_put_unchecked X m l s s' w :
  held s' = (held s) <| h_unchecked := l |> → m :: h_unchecked (held s) ⊆ l →
  strays ({[key m]} ∪ X) (mk s w) → strays X (mk s' w).
Proof.
  intros Hs' Hl Hs. eapply strays_more; [|exact Hs]. rewrite Hs'. apply hkeys_add_unchecked.
  etrans; [|exact (meta_keys_subset _ _ Hl)]. unfold meta_keys. simpl. set_solver.
Qed.

Lemma strays_put_checked X m s s' w :
  held s' = (held s) <| h_checked ::= insert_sorted m |> → strays ({[key m]} ∪ X) (mk s w) → strays X (mk s' w).
Proof. intros Hs' Hs. eapply strays_more; [|exact Hs]. rewrite Hs'. apply hkeys_add_checked. Qed.

Lemma strays_put_deferred X m s s' w :
  held s' = (held s) <| h_deferred ::= λ l, l ++ [m] |> → strays ({[key m]} ∪ X) (mk s w) → strays X (mk s' w).
Proof. intros Hs' Hs. eapply strays_more; [|exact Hs]. rewrite Hs'. apply hkeys_add_deferred. Qed.

Lemma strays_put_executing X k s s' w :
  held s' = (held s) <| h_executing ::= union {[k]} |> → strays ({[k]} ∪ X) (mk s w) → strays X (mk s' w).
Proof. intros Hs' Hs. eapply strays_more; [|exact Hs]. rewrite Hs'. apply hkeys_add_executing. Qed.

Lemma strays_put_bundle X b s s' w :
  held s' = (held s) <| h_bundles ::= insert_sorted b |> →
  strays (list_to_set (keys b) ∪ X) (mk s w) → strays X (mk s' w).
Proof. intros Hs' Hs. eapply strays_more; [|exact Hs]. rewrite Hs'. apply hkeys_add_bundle. Qed.

(** ** Popping the unchecked transactions

    What leaves the heap is in the batch that is being built, or was handed to
    the check worker.  [flags] are those of a check request. *)
Context `{!SentLog W} `{!SentLaws W} (flags : Z).
Implicit Types B : gset TransactionKey.

(** The batches the bridge was handed between [w0] and [w]. *)
Definition sent_since (w0 w : W) : list ScheduleBatch := drop (length (w_sent w0)) (w_sent w).

Definition check_request (b : ScheduleBatch) : Prop := sb_worker b = CHECK_WORKER ∧ sb_flags b = flags.

#[export] Instance check_request_dec b : Decision (check_request b).
Proof. unfold check_request. apply _. Defined.

(** The keys that check requests ask for. *)
Definition requested (bs : list ScheduleBatch) : gset TransactionKey :=
  list_to_set (concat ((λ b, km_key <$> sb_transactions b) <$> filter check_request bs)).

(** The keys that left the heap. *)
Definition popped s0 s : gset TransactionKey :=
  meta_keys (h_unchecked (held s0)) ∖ meta_keys (h_unchecked (held s)).

(** The keys that were sent to the check worker for the first time: they left
    the heap and were asked for. *)
Definition first_checks (st0 st : S) : gset TransactionKey :=
  popped (sch st0) (sch st) ∩ requested (sent_since (wld st0) (wld st)).

(** Since [st0] the heap has only been popped; what was popped is in [B] or was
    asked for. *)
Record popping X st0 B st : Prop := {
  pop_strays : strays (X ∪ popped (sch st0) (sch st)) st;
  pop_heap : h_unchecked (held (sch st)) ⊆ h_unchecked (held (sch st0));
  pop_log : w_sent (wld st0) `prefix_of` w_sent (wld st);
  pop_sent : popped (sch st0) (sch st) ⊆ B ∪ requested (sent_since (wld st0) (wld st));
}.

Lemma popped_none s : popped s s = ∅.
Proof. unfold popped. apply difference_diag_L. Qed.

Lemma popping_start X st : strays X st → popping X st ∅ st.
Proof. intros Hs. split; rewrite ?popped_none, ?(right_id_L ∅ (∪)); done || apply empty_subseteq. Qed.

Lemma popping_more X st0 B B' st : B ⊆ B' → popping X st0 B st → popping X st0 B' st.
Proof. intros HB [Hs Hh Hl Hp]. split; [done..|set_solver]. Qed.

Lemma popping_end X st0 st : popping X st0 ∅ st → strays (X ∪ first_checks st0 st) st.
Proof. intros [Hs _ _ Hp]. eapply strays_mono, Hs. unfold first_checks. set_solver. Qed.

(** The collections, the transactions and the batches sent are the same. *)
Lemma popping_same X st0 B s s' w w' :
  held s' = held s → w_transaction w' = w_transaction w → w_sent w' = w_sent w →
  popping X st0 B (mk s w) → popping X st0 B (mk s' w').
Proof.
  intros Hc Hw Hl [Hs Hh Hlog Hp]. simpl in *. split; simpl.
  - unfold popped. rewrite Hc. eapply strays_same; [exact Hs|done..].
  - by rewrite Hc.
  - by rewrite Hl.
  - unfold popped, sent_since in *. by rewrite Hc, Hl.
Qed.

Lemma popping_pop X st0 B s s' w m l :
  popping X st0 B (mk s w) → h_unchecked (held s) ≡ₚ m :: l → held s' = (held s) <| h_unchecked := l |> →
  popping X st0 ({[key m]} ∪ B) (mk s' w).
Proof.
  intros [Hs Hsub Hlog Hsent] Hl Hs'. simpl in *.
  assert (meta_keys (h_unchecked (held s)) = {[key m]} ∪ meta_keys l) as Hk.
  { apply set_eq. intros k. unfold meta_keys. rewrite elem_of_list_to_set, Hl. set_solver. }
  split; simpl; [|rewrite Hs'; simpl|done|].
  - eapply strays_change; [exact Hs|done|]. unfold popped. rewrite Hs'. simpl.
    assert ({[key m]} ∪ meta_keys l ⊆ meta_keys (h_unchecked (held (sch st0)))) as Hk0.
    { rewrite <- Hk. by apply meta_keys_subset. }
    assert (hkeys (held s) ⊆ hkeys ((held s) <| h_unchecked := l |>) ∪ {[key m]}) as Hh.
    { apply hkeys_set_unchecked. rewrite Hk. set_solver. }
    assert (meta_keys l ⊆ hkeys ((held s) <| h_unchecked := l |>)) as Hin by (unfold hkeys; simpl; set_solver).
    intros k Hin'. rewrite Hk in Hin'. destruct (decide (k ∈ meta_keys l)) as [Hkl|Hkl]; [set_solver|].
    apply elem_of_union in Hin' as [Hin'|[?|[? ?]%elem_of_difference]%elem_of_union]; [|set_solver..].
    apply Hh in Hin'. set_solver.
  - intros x Hx. apply Hsub. rewrite Hl. by right.
  - unfold popped in *. rewrite Hs'. simpl. rewrite Hk in Hsent. intros k [Hk0 Hkl]%elem_of_difference.
    destruct (decide (k = key m)) as [->|Hne]; [set_solver|].
    assert (k ∈ B ∪ requested (sent_since (wld st0) w)) as Hin; [|set_solver].
    apply Hsent. set_solver.
Qed.

(** The batch is handed to the bridge. *)
Lemma popping_sent X st0 s w w' b :
  w_schedule b w = Some w' → check_request b →
  popping X st0 (batch_keys (sb_transactions b)) (mk s w) → popping X st0 ∅ (mk s w').
Proof.
  intros Hb Hreq [Hs Hh Hlog Hp]. simpl in *. pose proof (sent_schedule _ _ _ Hb) as Hl.
  apply schedule_transaction in Hb. split; simpl.
  - by eapply strays_same.
  - done.
  - rewrite Hl. by apply prefix_app_r.
  - assert (requested (sent_since (wld st0) w') = requested (sent_since (wld st0) w) ∪ batch_keys (sb_transactions b))
      as ->; [|set_solver].
    unfold sent_since. rewrite Hl. rewrite drop_app_le by by apply prefix_length.
    unfold requested, batch_keys. rewrite filter_app, filter_cons, decide_True by done.
    rewrite fmap_app, concat_app, list_to_set_app_L. cbn. by rewrite app_nil_r.
Qed.

Lemma wlp_popping_increment X st0 B m n (Q : unit → S → Prop) st :
  popping X st0 B st → (∀ st', popping X st0 B st' → Q tt st') → wlp (increment m n) Q st.
Proof.
  intros Hp HQ a st' [= <- <-]. apply HQ. destruct st as [s w]. eapply popping_same, Hp; [done|..].
  - apply metric_increment_transaction.
  - apply sent_increment.
Qed.

(** [schedule] of what was built. *)
Lemma wlp_popping_schedule X st0 b (Q : unit → S → Prop) st :
  check_request b → popping X st0 (batch_keys (sb_transactions b)) st →
  (∀ st', popping X st0 ∅ st' → Q tt st') → wlp (schedule b) Q st.
Proof.
  intros Hb Hp HQ a st'. unfold schedule, bindM, bridge, gets, unwrap, update_world, modify.
  destruct (w_schedule b (wld st)) as [w'|] eqn:Hw; [|done]. intros [= <- <-]. apply HQ.
  destruct st as [s w]. by eapply popping_sent.
Qed.
End StrayRules.

(** A call that is still, with [Hs] about the state before it. *)
Ltac still_call Hs := apply (wlp_still_strays _ _ _ _ _ Hs); [still_tac|].
