(* ===== verification/Histories.v ===== *)
(** * Histories of a scheduler

    [reached] says of a state that a scheduler's handlers lead to it.  A program
    is covered when it leads from such a state to such states only; the phases
    of a poll are, if the handlers they call are. *)

From S2P Require Import Prelude Types Externals Events Common Drains Strays.

Section Histories.
Context `{World W} `{!WorldLaws} {D : Type} (held : D → Held).
Abbreviation S := (St D W).

(** Nothing is reached by taking something out of the bridge's hands. *)
Context (reached : S → Prop).
Hypothesis reached_still : ∀ st s' w',
  reached st → held s' = held (sch st) → w_transaction w' = w_transaction (wld st) → reached (mk s' w').

Definition covered {A} (m : M S A) : Prop := ∀ st, reached st → wlp m (λ _, reached) st.

Lemma covered_still {A} (m : M S A) : still held m → covered m.
Proof using reached_still.
  intros Hm st Hr. apply (wlp_still held m _ st Hm). intros a s' w' Hc Hw. by eapply reached_still.
Qed.

Lemma covered_bind {A B} (m : M S A) (f : A → M S B) : covered m → (∀ a, covered (f a)) → covered (bindM m f).
Proof. intros Hm Hf st Hr. apply wlp_bind. eapply wlp_mono; [by apply Hm|]. intros a st' Hr'. by apply Hf. Qed.

Lemma covered_when b m : covered m → covered (when b m).
Proof. intros Hm st Hr. apply wlp_when; intros _; [by apply Hm|done]. Qed.

Lemma covered_for_each {A} (l : list A) body : (∀ x, covered (body x)) → covered (for_each l body).
Proof.
  intros Hb st Hr. apply (wlp_for_each l body (λ _, reached)); [done|]. intros x _ st' Hr'. by apply Hb.
Qed.

Lemma covered_for_acc {A B} (l : list A) (b : B) body :
  (∀ x b, covered (body x b)) → covered (for_acc l b body).
Proof using reached_still.
  intros Hb. revert b. induction l as [|x l IH]; intros b; simpl; [apply covered_still, still_ret|].
  apply covered_bind; [done|]. intros [[] b']; [done|apply covered_still, still_ret].
Qed.

Lemma covered_loop_fuel fuel body : covered body → covered (loop_fuel fuel body).
Proof.
  intros Hb st Hr. apply (wlp_loop_fuel body reached); [done|]. intros st' Hr'.
  eapply wlp_mono; [by apply Hb|]. by intros [].
Qed.

Context `{!Pending W} `{!PendingLaws W}.

(** A drain of worker responses is covered if every response is. *)
Lemma covered_drain_worker i f :
  (∀ r st d st', f r st = Ok (d, st') → reached st → reached (after_decision (key (wr_meta r)) d st')) →
  covered (w_drain_worker i f).
Proof using All.
  intros Hresp st Hr [] st' Heq. pose proof (drain_worker_delivers i f st) as Hd. rewrite Heq in Hd.
  clear Heq. remember (Ok (tt, st')) as res eqn:Hres. revert Hr.
  induction Hd as [st w Hw|r rs st w d st1 res Hw Hf _ IH|r rs st w p Hw Hf|r rs st w Hw Hf]; intros Hr; [..|done|done].
  - injection Hres as <-. by eapply reached_still; [exact Hr|..]; [|by eapply ho_transaction].
  - apply IH; [done|]. eapply Hresp; [exact Hf|].
    by eapply reached_still; [exact Hr|..]; [|by eapply ho_transaction].
Qed.

(** A drain of the TPU is covered if every transaction is that it brings. *)
Lemma covered_drain_tpu_calls n f :
  (∀ k w st d st', (∀ k', k' ≠ k → w_transaction w k' = w_transaction (wld st) k') →
     f k (mk (sch st) w) = Ok (d, st') → reached st → reached (after_decision k d st')) →
  covered (w_drain_tpu f n).
Proof using All.
  intros Htpu st Hr [] st' Heq. pose proof (drain_tpu_delivers f n st) as Hd. rewrite Heq in Hd.
  clear Heq. remember (Ok (tt, st')) as res eqn:Hres. revert Hr.
  induction Hd as [n' st w Hw Hs|n' k st w d st1 res Hw Hf _ IH|n' k st w p Hw Hf|n' k st w Hw Hf];
    intros Hr; [..|done|done].
  - injection Hres as <-. by eapply reached_still.
  - apply IH; [done|]. eapply Htpu; [apply Hw|exact Hf|exact Hr].
Qed.
End Histories.

Create HintDb covered.

(** Follow the code; a handler has its own lemma, what is left is still.  [Hst]
    is the [reached_still] of the scheduler. *)
Ltac covered_tac Hst :=
  repeat lazymatch goal with
  | |- ∀ _, _ => intros ?
  | |- covered _ (let _ := _ in _) => cbv zeta
  | |- covered _ (match ?x with _ => _ end) => destruct x
  | |- covered _ _ =>
      first
        [ solve [eauto 2 with covered]
        | apply covered_bind
        | apply covered_when
        | apply covered_for_each
        | apply (covered_for_acc _ _ Hst)
        | apply covered_loop_fuel
        | apply (covered_still _ _ Hst); solve [still_tac] ]
  end.
