(* ===== verification/Polling.v ===== *)
(** * A poll, whoever polls

    Both schedulers poll in the same phases: responses of the workers, new
    transactions, Jito messages.  What the phases need of a scheduler is the
    interface here: [Handlers], the handlers with the scheduler's invariant,
    and [HandlersLaws], that each handler keeps it.  The phases are proved
    against the interface, and each scheduler is an instance. *)

From S2P Require Import Prelude Types Events Externals Common Outstanding Drains.

(** ** The interface *)

(** [D]: the scheduler; [T]: the tags of its executions that are out. *)
Class Handlers (W D T : Type) `{Pending W} := {
  sc_inv : list (T * PriorityId) → St D W → Prop;
  (** What is set from outside, and when it leaves room for what comes. *)
  sc_settings : D → nat * nat * nat * RuntimeConfig;
  (** What the scheduler expects of a check response. *)
  sc_check_ok : list (T * PriorityId) → PriorityId → CheckResponse → St D W → Prop;
  (** The bridge names no lock of a packet's transaction twice. *)
  sc_packet_ok : u8s → Prop;
  (** The panics that no scheduler can rule out. *)
  sc_panic : Panic → Prop;
  sc_on_response : WorkerResponse → M (St D W) TxDecision;
  sc_on_tpu : TransactionKey → M (St D W) TxDecision;
  sc_on_packet : u8s → M (St D W) unit;
  sc_on_bundle : list u8s → M (St D W) unit;
  sc_set_tip_config : TipConfig → D → D;
  sc_set_blockhash : Hash → D → D;
}.

Definition has_room (c : nat * nat * nat * RuntimeConfig) : Prop :=
  let '(unchecked, _, bundles, _) := c in (1024 ≤ unchecked)%nat ∧ bundles ≠ 0%nat.

Section Interface.
Context `{Handlers W D T}.
Abbreviation S := (St D W).
Abbreviation Outstanding := (list (T * PriorityId)).

Abbreviation KeepsAll m := (Keeps (W := W) (D := D) sc_settings m).

(** The executions that are left when a response has been taken. *)
Definition settle (r : WorkerResponse) (O : Outstanding) : Outstanding :=
  match wr_response r with Check_ _ _ => O | _ => without (key (wr_meta r)) O end.

(** A worker answers requests: an execution that is out, or a check. *)
Definition response_ok (O : Outstanding) (r : WorkerResponse) (st : S) : Prop :=
  match wr_response r with
  | Unprocessed => (∃ i, (i, wr_meta r) ∈ O) ∨ key (wr_meta r) ∉ okeys O
  | Execute_ _ => ∃ i, (i, wr_meta r) ∈ O
  | Check_ rep _ => sc_check_ok O (wr_meta r) rep st
  end.

(** A bundle has a transaction, and its transactions name no lock twice. *)
Definition jito_ok (u : JitoUpdate) : Prop :=
  match u with JBundle packets => packets ≠ [] ∧ Forall sc_packet_ok packets | _ => True end.

Class HandlersLaws := {
  sc_world O (st : S) w : sc_inv O st → w_transaction w = w_transaction (wld st) → sc_inv O (mk (sch st) w);
  sc_check_ok_world O m rep s w w' :
    w_transaction w' = w_transaction w → sc_check_ok O m rep (mk s w) → sc_check_ok O m rep (mk s w');
  sc_costs O (st : S) : sc_inv O st → Forall (λ im, is_u64 (cost im.2)) O;
  sc_response O r (st : S) :
    sc_inv O st → response_ok O r st →
    wp sc_panic (sc_on_response r) (λ d st', sc_inv (settle r O) (after_decision (key (wr_meta r)) d st')) st;
  sc_tpu O k (st : S) w :
    sc_inv O st → arriving k (wld st) w →
    wp sc_panic (sc_on_tpu k) (λ d st', sc_inv O (after_decision k d st')) (mk (sch st) w);
  sc_packet O packet (st : S) :
    sc_inv O st → has_room (sc_settings (sch st)) → wp sc_panic (sc_on_packet packet) (λ _ st', sc_inv O st') st;
  sc_bundle O packets (st : S) :
    sc_inv O st → packets ≠ [] → Forall sc_packet_ok packets → has_room (sc_settings (sch st)) →
    wp sc_panic (sc_on_bundle packets) (λ _ st', sc_inv O st') st;
  sc_tip_config O c (st : S) : sc_inv O st → sc_inv O (mk (sc_set_tip_config c (sch st)) (wld st));
  sc_blockhash O h (st : S) : sc_inv O st → sc_inv O (mk (sc_set_blockhash h (sch st)) (wld st));
  sc_keeps_response r : KeepsAll (sc_on_response r);
  sc_keeps_tpu k : KeepsAll (sc_on_tpu k);
  sc_keeps_packet packet : KeepsAll (sc_on_packet packet);
  sc_keeps_bundle packets : KeepsAll (sc_on_bundle packets);
  sc_keeps_tip_config c : KeepsField sc_settings (sc_set_tip_config c);
  sc_keeps_blockhash h : KeepsField sc_settings (sc_set_blockhash h);
}.
End Interface.
Arguments HandlersLaws W D T {_ _ _ _}.

Section Phases.
Context `{HandlersLaws W D T} `{!WorldLaws} `{!PendingLaws W}.
Abbreviation S := (St D W).
Abbreviation Outstanding := (list (T * PriorityId)).
Abbreviation KeepsAll m := (Keeps (W := W) (D := D) sc_settings m).

Lemma wp_frame {A} E (m : M S A) (Q : A → S → Prop) st :
  KeepsAll m → wp E m Q st →
  wp E m (λ a st', Q a st' ∧ sc_settings (sch st') = sc_settings (sch st) ∧ same_seen (wld st) (wld st')) st.
Proof. intros Hm. by apply wp_keeps. Qed.

(** What a phase leaves alone. *)
Record unmoved (st st' : S) : Prop := {
  um_settings : sc_settings (sch st') = sc_settings (sch st);
  um_front : same_front (wld st) (wld st');
}.

#[export] Instance unmoved_preorder : PreOrder unmoved.
Proof.
  split; [by split|]. intros st1 st2 st3 [Hs1 Hf1] [Hs2 Hf2]. split; [congruence|by etransitivity].
Qed.

Lemma unmoved_world (st : S) w : same_seen (wld st) w → unmoved st (mk (sch st) w).
Proof. intros Hw. split; [done|by apply seen_front]. Qed.

(** ** Worker responses *)

(** Each response of the sequence is in order when it is taken. *)
Fixpoint honest (rs : list WorkerResponse) (O : Outstanding) (st : S) : Prop :=
  match rs with
  | [] => True
  | r :: rs' =>
      response_ok O r st ∧
      ∀ w d st', w_transaction w = w_transaction (wld st) →
        sc_on_response r (mk (sch st) w) = Ok (d, st') →
        honest rs' (settle r O) (after_decision (key (wr_meta r)) d st')
  end.

Lemma response_ok_world O r s w w' :
  w_transaction w' = w_transaction w → response_ok O r (mk s w) → response_ok O r (mk s w').
Proof. intros Hw. unfold response_ok. destruct (wr_response r); [done| |done]. by apply sc_check_ok_world. Qed.

Lemma honest_world rs O s w w' :
  w_transaction w' = w_transaction w → honest rs O (mk s w) → honest rs O (mk s w').
Proof.
  intros Hw. destruct rs as [|r rs]; [done|]. simpl. intros [Hr Hrest]. split.
  - by eapply response_ok_world.
  - intros w1 d st' Hw1. apply Hrest. by rewrite Hw1.
Qed.

Lemma sum_costs_settle O r (st : S) : sc_inv O st → sum_costs (settle r O) ≤ sum_costs O.
Proof.
  intros HI%sc_costs. unfold settle. by destruct (wr_response r); [apply sum_costs_without| |apply sum_costs_without].
Qed.

(** The responses of the workers [l] that are still to come. *)
Definition responses (w : W) (l : list nat) : list WorkerResponse := concat (w_responses w <$> l).

Lemma responses_same w w' l :
  (∀ j, j ∈ l → w_responses w' j = w_responses w j) → responses w' l = responses w l.
Proof. intros Hw. unfold responses. f_equal. apply list_fmap_ext. intros i j Hj. by eapply Hw, list_elem_of_lookup_2. Qed.

(** In the middle of the drain, with [rs] of the present worker and the workers
    [l] to come. *)
Definition draining (O : Outstanding) (st0 : S) (l : list nat) (rs : list WorkerResponse) (st : S) : Prop :=
  ∃ O', sc_inv O' st ∧ sum_costs O' ≤ sum_costs O ∧ honest (rs ++ responses (wld st) l) O' st ∧ unmoved st0 st.

Lemma draining_step O st0 l i r rs st w :
  i ∉ l → draining O st0 l (r :: rs) st → handing_out i (wld st) w →
  wp sc_panic (sc_on_response r)
    (λ d st', draining O st0 l rs (after_decision (key (wr_meta r)) d st')) (mk (sch st) w).
Proof.
  intros Hi (O' & HI & Hsum & [Hr Hrest] & Hun) Hw. pose proof (ho_transaction _ _ _ Hw) as Htx.
  assert (sc_inv O' (mk (sch st) w)) as HIw by by apply sc_world.
  assert (response_ok O' r (mk (sch st) w)) as Hrw by (destruct st; by eapply response_ok_world).
  eapply wp_mono; [apply wp_run, wp_frame, (sc_response O' r _ HIw Hrw); apply sc_keeps_response|].
  intros d st' (Heq & HI' & Hset & Hseen). simpl in Hset, Hseen.
  set (st1 := after_decision _ _ _) in *. pose proof (seen_after_decision (key (wr_meta r)) d st') as Hseen'.
  fold st1 in Hseen'. exists (settle r O'). split; [done|]. split; [|split].
  - etransitivity; [by eapply sum_costs_settle|done].
  - rewrite (responses_same (wld st)); [by apply (Hrest w d st')|]. intros j Hj.
    rewrite (ss_responses _ _ Hseen'), (ss_responses _ _ Hseen). apply (ho_responses _ _ _ Hw). by intros ->.
  - etransitivity; [exact Hun|]. split; [by unfold st1; rewrite sch_after_decision|].
    etransitivity; [by eapply handing_out_front|]. apply seen_front. by etransitivity.
Qed.

Lemma draining_handed_out O st0 l i rs st w :
  i ∉ l → draining O st0 l rs st → handing_out i (wld st) w → draining O st0 l rs (mk (sch st) w).
Proof.
  intros Hi (O' & HI & Hsum & Hh & Hun) Hw. pose proof (ho_transaction _ _ _ Hw) as Htx. exists O'. split_and!.
  - by apply sc_world.
  - done.
  - simpl. rewrite (responses_same (wld st)); [destruct st; by eapply honest_world|].
    intros j Hj. apply (ho_responses _ _ _ Hw). by intros ->.
  - etransitivity; [exact Hun|]. split; [done|by eapply handing_out_front].
Qed.

Lemma wp_drain_workers O (st : S) :
  sc_inv O st → honest (responses (wld st) (seq 0 (w_worker_count (wld st)))) O st →
  wp sc_panic (let* n := bridge w_worker_count in
               for_each (seq 0 n) (λ worker, w_drain_worker worker sc_on_response))
    (λ _ st', draining O st [] [] st') st.
Proof.
  intros HI Hh. wp_steps.
  eapply wp_mono; [apply (wp_for_each _ _ _ (λ l st', NoDup l ∧ draining O st l [] st'))|by intros [] st' [_ Hd]].
  - split; [apply NoDup_seq|]. exists O. by split_and!.
  - intros i l st' [Hnd Hd]. apply NoDup_cons in Hnd as [Hi Hnd].
    apply (wp_drain_worker _ _ _ (draining O st l)).
    + destruct Hd as (O' & HI' & Hsum & Hh' & Hun). by exists O'.
    + intros r rs st1 w Hd1 Hw. by eapply draining_step.
    + intros st1 w Hd1 Hw. split; [done|]. by eapply draining_handed_out.
Qed.

(** ** New transactions *)

(** After a phase: the invariant, and no more CUs than [B]. *)
Definition phase (B : Z) (st0 st : S) : Prop :=
  ∃ O, sc_inv O st ∧ sum_costs O ≤ B ∧ unmoved st0 st.

(** A handler that keeps what is out. *)
Lemma wp_phase {A} E (m : M S A) B st0 st :
  KeepsAll m → phase B st0 st → (∀ O, sc_inv O st → wp E m (λ _ st', sc_inv O st') st) →
  wp E m (λ _ st', phase B st0 st') st.
Proof.
  intros Hm (O & HI & Hsum & Hun) Hwp. eapply wp_mono; [apply wp_frame; [done|by eapply Hwp]|].
  intros a st' (HI' & Hset & Hseen).
  exists O. split_and!; [done..|]. etransitivity; [exact Hun|]. split; [done|by apply seen_front].
Qed.

Lemma phase_tpu B st0 k (st : S) w :
  phase B st0 st → arriving k (wld st) w →
  wp sc_panic (sc_on_tpu k) (λ d st', phase B st0 (after_decision k d st')) (mk (sch st) w).
Proof.
  intros (O & HI & Hsum & Hun) Hw.
  eapply wp_mono; [apply wp_frame; [apply sc_keeps_tpu|by apply sc_tpu]|].
  intros d st' (HI' & Hset & Hseen). exists O. split_and!; [done..|].
  etransitivity; [exact Hun|]. split; [by rewrite sch_after_decision|]. apply seen_front.
  etransitivity; [apply (ar_seen _ _ _ Hw)|]. etransitivity; [exact Hseen|apply seen_after_decision].
Qed.

Lemma wp_drain_arriving B st0 n (st : S) :
  phase B st0 st → wp sc_panic (w_drain_tpu sc_on_tpu n) (λ _ st', phase B st0 st') st.
Proof.
  intros Hph. apply (wp_drain_tpu _ _ _ (λ _, phase B st0)); [done| |].
  - intros _ k st1 w Hph' Hw. by apply phase_tpu.
  - intros _ st1 w (O & HI & Hsum & Hun) Hw Hseen. exists O. split_and!; [by apply sc_world|done|].
    etransitivity; [exact Hun|by apply unmoved_world].
Qed.

(** ** Jito *)

(** What outlasts the whole poll. *)
Record kept (B : Z) (c : nat * nat * nat * RuntimeConfig) (p : ProgressMessage) (st : S) : Prop := {
  kp_inv : ∃ O, sc_inv O st ∧ sum_costs O ≤ B;
  kp_settings : sc_settings (sch st) = c;
  kp_progress : w_progress (wld st) = p;
}.

(** With [q] left in the channel. *)
Definition receiving (B : Z) c p (q : list JitoUpdate) (st : S) : Prop :=
  kept B c p st ∧ w_jito_queue (wld st) = q ∧ w_jito_open (wld st) = true ∧ Forall jito_ok q.

Lemma phase_receiving B (st0 st : S) :
  phase B st0 st → w_jito_open (wld st0) = true → Forall jito_ok (w_jito_queue (wld st0)) →
  receiving B (sc_settings (sch st0)) (w_progress (wld st0)) (w_jito_queue (wld st0)) st.
Proof.
  intros (O & HI & Hsum & [Hs [Hp Hq Ho]]) Hopen Hok.
  split; [split; [by exists O|done|done]|]. split_and!; [done|by rewrite Ho|done].
Qed.

(** A handler looks at neither the channel nor the settings. *)
Lemma wp_receiving {A} E (m : M S A) B c p q st :
  KeepsAll m → receiving B c p q st →
  (∀ O, sc_inv O st → sum_costs O ≤ B → wp E m (λ _ st', ∃ O', sc_inv O' st' ∧ sum_costs O' ≤ B) st) →
  wp E m (λ _ st', receiving B c p q st') st.
Proof.
  intros Hm ([(O & HI & Hsum) Hs Hp] & Hq & Hopen & Hok) Hwp.
  eapply wp_mono; [apply wp_frame; [done|by eapply Hwp]|]. intros a st' (HO & Hset & Hseen). split; [split|].
  - done.
  - congruence.
  - by rewrite (ss_progress _ _ Hseen).
  - by rewrite (ss_queue _ _ Hseen), (ss_open _ _ Hseen).
Qed.

Lemma wp_receiving_inv {A} E (m : M S A) B c p q st :
  KeepsAll m → receiving B c p q st → (∀ O, sc_inv O st → wp E m (λ _ st', sc_inv O st') st) →
  wp E m (λ _ st', receiving B c p q st') st.
Proof.
  intros Hm Hrec Hwp. apply wp_receiving; [done..|]. intros O HI Hsum.
  eapply wp_mono; [by apply Hwp|]. intros a st' HI'. by exists O.
Qed.

(** The handling of one message. *)
Definition jito_update (u : JitoUpdate) : M S Flow :=
  match u with
  | JBuilderConfig _ => mret Continue
  | JTipConfig c => update (sc_set_tip_config c) ;; mret Continue
  | JRecentBlockhash h => update (sc_set_blockhash h) ;; mret Continue
  | JPacket packet => sc_on_packet packet ;; mret Continue
  | JBundle bundle => sc_on_bundle bundle ;; mret Continue
  end.

Definition jito_round : M S Flow :=
  let* r := call w_jito_try_recv in
  match r with
  | Received u => jito_update u
  | Empty => mret Break
  | Disconnected =>
      let* cancelled := bridge w_shutdown_is_cancelled in
      assert "drain_jito: disconnected" cancelled ;;
      mret Continue
  end.

Lemma jito_update_ok B c p q u (st : S) :
  has_room c → receiving B c p q st → jito_ok u →
  wp sc_panic (jito_update u) (λ fl st', fl = Continue ∧ receiving B c p q st') st.
Proof.
  intros Hroom Hrec Hu. pose proof Hrec as ([_ Hs _] & _). rewrite <- Hs in Hroom.
  assert (∀ m : M S unit, KeepsAll m → (∀ O, sc_inv O st → wp sc_panic m (λ _ st', sc_inv O st') st) →
    wp sc_panic (m ;; mret Continue) (λ fl st', fl = Continue ∧ receiving B c p q st') st) as Hm.
  { intros m Hk Hwp. wp_step. eapply wp_mono; [by apply wp_receiving_inv|]. intros [] st' Hrec'. by wp_step. }
  destruct u as [c'|c'|h|packet|packets]; simpl in Hu |- *.
  - by wp_step.
  - apply Hm; [apply keeps_update, sc_keeps_tip_config|]. intros O HI. wp_steps. by apply sc_tip_config.
  - apply Hm; [apply keeps_update, sc_keeps_blockhash|]. intros O HI. wp_steps. by apply sc_blockhash.
  - apply Hm; [apply sc_keeps_packet|]. intros O HI. by apply sc_packet.
  - apply Hm; [apply sc_keeps_bundle|]. intros O HI. destruct Hu. by apply sc_bundle.
Qed.

Lemma jito_round_ok B c p q (st : S) :
  has_room c → receiving B c p q st →
  wp sc_panic jito_round (λ fl st',
    match fl with
    | Continue => ∃ u q', q = u :: q' ∧ receiving B c p q' st'
    | Break => receiving B c p [] st'
    end) st.
Proof.
  intros Hroom ([(O & HI & Hsum) Hs Hp] & Hq & Hopen & Hok). unfold jito_round. wp_step. apply wp_call.
  pose proof (jito_try_recv_queue (wld st)) as Hr. pose proof (jito_try_recv_transaction (wld st)) as Htx.
  destruct (w_jito_try_recv (wld st)) as [r w]. simpl in *.
  assert (sc_inv O (mk (sch st) w)) as HI' by by apply sc_world.
  destruct r as [u| |]; [| |congruence].
  - destruct Hr as (Hq' & Hopen' & Hp'). rewrite Hq in Hq'. rewrite Hq' in Hok. apply Forall_cons in Hok as [Hu Hok].
    eapply wp_mono; [apply (jito_update_ok B c p (w_jito_queue w)); [done| |done]|].
    + split; [split; [by exists O|done|simpl; congruence]|]. split_and!; [done|simpl; congruence|done].
    + intros fl st' [-> Hrec]. by exists u, (w_jito_queue w).
  - destruct Hr as [Hnil Hseen]. wp_step. split; [split; [by exists O|done|]|].
    + simpl. rewrite (ss_progress _ _ Hseen). done.
    + simpl. rewrite (ss_queue _ _ Hseen), (ss_open _ _ Hseen). by rewrite Hnil.
Qed.

Lemma wp_jito_loop B c p q fuel (st : S) :
  has_room c → receiving B c p q st → (length q < fuel)%nat →
  wp sc_panic (loop_fuel fuel jito_round) (λ _ st', receiving B c p [] st') st.
Proof.
  intros Hroom Hrec Hfuel.
  apply (wp_loop_fuel _ _ (λ st', ∃ q, receiving B c p q st') _ (λ st', length (w_jito_queue (wld st')))).
  - by exists q.
  - by destruct Hrec as (_ & -> & _).
  - clear st q Hrec Hfuel. intros st [q Hrec].
    eapply wp_mono; [by apply jito_round_ok|]. intros [] st' Hst'; [|done].
    destruct Hst' as (u & q' & -> & Hrec'). split; [by exists q'|].
    destruct Hrec as (_ & -> & _), Hrec' as (_ & -> & _). simpl. lia.
Qed.

(** ** Scheduling *)

(** The progress message is in range for the settings. *)
Definition progress_ok (c : nat * nat * nat * RuntimeConfig) (p : ProgressMessage) : Prop :=
  0 ≤ current_slot_progress p ∧ 0 ≤ block_fill_cutoff c.2 ∧
  current_slot_progress p + block_fill_cutoff c.2 ≤ U8_MAX ∧ 0 ≤ remaining_cost_units p.

Lemma progress_budget `{Profile} `{AgaveBindings} `{!AgaveBindingsLaws} c p in_flight :
  progress_ok c p → 0 ≤ in_flight ≤ MAX_BLOCK_UNITS_SIMD_0256 → budget_in_range p c.2 in_flight.
Proof.
  intros (Hp1 & Hp2 & Hp3 & Hp4) Hi. destruct max_block_units_bound as [Hm0 Hm].
  split_and!; [done..|]. unfold U64_MAX in *. lia.
Qed.

(** A round keeps to the block. *)
Lemma progress_share `{Profile} `{AgaveBindings} `{!AgaveBindingsLaws} c p before after :
  progress_ok c p → 0 ≤ before ≤ MAX_BLOCK_UNITS_SIMD_0256 →
  block_used p + after ≤ Z.max (block_share p c.2) (block_used p + before) →
  after ≤ MAX_BLOCK_UNITS_SIMD_0256.
Proof.
  intros Hp Hb Ha. pose proof (block_share_bounds _ _ _ (progress_budget c p before Hp Hb)).
  pose proof (block_used_nonneg p). lia.
Qed.
End Phases.
