(* ===== verification/JitoThread.v ===== *)
(** * Messages of the Jito thread (schedulers/common/src/jito/jito_thread.rs)

    What the thread makes of the block engine's and the RPC node's messages,
    and what the schedulers may rely on: a bundle is never empty and its packets
    fit.  The gRPC and web-socket clients are not modelled. *)

From S2P Require Import Prelude BTreeSet Types Events Externals Costs.

(** ** Protocol buffers and third-party crates *)

Record Packet := { packet_data : u8s }.
Record Bundle := { packets : list Packet }.
Record BundleUuid := { bundle : option Bundle }.
Record SubscribeBundlesResponse := { resp_bundles : list BundleUuid }.
Record PacketBatch := { batch_packets : list Packet }.
Record SubscribePacketsResponse := { batch : option PacketBatch }.

Class JitoCrates := {
  (** [solana_packet::PACKET_DATA_SIZE]. *)
  PACKET_DATA_SIZE : nat;
  UiAccountData : Type;
  (** [UiAccountData::decode]. *)
  ui_decode : UiAccountData → option u8s;
  (** [Pubkey::from_str]. *)
  pubkey_from_str : string → option Pubkey;
}.

(** The bounded crossbeam channel; [None]: full or disconnected. *)
Class UpdateChannel (C : Type) := {
  ch_try_send : JitoUpdate → C → option C;
  (** What was sent so far, in order. *)
  ch_sent : C → list JitoUpdate;
}.
Class UpdateChannelLaws (C : Type) `{UpdateChannel C} := {
  sent_try_send u c c' : ch_try_send u c = Some c' → ch_sent c' = ch_sent c ++ [u];
}.

Record JitoArgs := { http_rpc : string; ws_rpc : string; block_engine : string }.

(** [Pubkey::new_from_array]: an address is the number of its bytes. *)
Definition pubkey_of_bytes (bytes : u8s) : Pubkey :=
  fold_left (λ acc b, acc * 256 + Z.to_N b)%N bytes 0%N.

Section JitoThread.
Context `{JitoCrates} `{UpdateChannel C}.

(** [self.update_tx.try_send(update).unwrap()]. *)
Definition try_send (u : JitoUpdate) : M C unit :=
  let* o := gets (ch_try_send u) in
  let* c := unwrap "update_tx.try_send" o in
  modify (λ _, c).

(** [*arrayref::array_ref![data, offset, len]] of a slice: panics beyond its
    end. *)
Definition slice_array (data : u8s) (offset len : nat) : M C u8s :=
  assert "array_ref!" (offset + len <=? length data)%nat ;;
  mret (array_ref data offset len).

Definition on_tip_config (data : UiAccountData) : M C unit :=
  let* data := unwrap "config.data.decode" (ui_decode data) in
  let* tip_receiver := slice_array data 8 32 in
  let* block_builder := slice_array data 40 32 in
  try_send (JTipConfig {| tip_receiver := pubkey_of_bytes tip_receiver;
                          block_builder := pubkey_of_bytes block_builder |}).

(** [.map(|packet| packet.data).inspect(|packet| assert!(..)).collect()]. *)
Fixpoint collect_packets (ps : list Packet) : M C (list u8s) :=
  match ps with
  | [] => mret []
  | p :: ps' =>
      assert "on_bundles: packet size" (length (packet_data p) <=? PACKET_DATA_SIZE)%nat ;;
      let* rest := collect_packets ps' in
      mret (packet_data p :: rest)
  end.

(** The iterator is lazy: a bundle is collected when its turn comes. *)
Definition on_bundles (r : SubscribeBundlesResponse) : M C unit :=
  for_each (omap bundle (resp_bundles r)) (λ b,
    let* collected := collect_packets (packets b) in
    match collected with
    | [] => mret tt
    | _ :: _ => try_send (JBundle collected)
    end).

Definition on_packets (r : SubscribePacketsResponse) : M C unit :=
  for_each (packet_data <$> from_option batch_packets [] (batch r)) (λ p, try_send (JPacket p)).

(** ** What is sent *)

Context `{!UpdateChannelLaws C}.

(** The channel does not take the message, a packet is too long, or the account
    of the tip configuration is not what it should be. *)
Definition jito_panic (p : Panic) : Prop :=
  p ∈ [PUnwrap "update_tx.try_send"; PAssert "on_bundles: packet size"; PAssert "array_ref!";
       PUnwrap "config.data.decode"].

Lemma wp_try_send u (Q : unit → C → Prop) c :
  (∀ c', ch_sent c' = ch_sent c ++ [u] → Q tt c') → wp jito_panic (try_send u) Q c.
Proof.
  intros HQ. unfold try_send. apply wp_bind, wp_gets, wp_bind, wp_unwrap.
  - intros _. unfold jito_panic. set_solver.
  - intros c' Hc'. apply wp_modify, HQ. by eapply sent_try_send.
Qed.

Definition fits_packet (p : u8s) : Prop := (length p ≤ PACKET_DATA_SIZE)%nat.

Lemma wp_collect_packets ps (Q : list u8s → C → Prop) c :
  (Forall fits_packet (packet_data <$> ps) → Q (packet_data <$> ps) c) →
  wp jito_panic (collect_packets ps) Q c.
Proof.
  revert Q. induction ps as [|p ps IH]; intros Q HQ; simpl.
  { apply wp_ret, HQ. constructor. }
  apply wp_bind, wp_assert; [intros _; unfold jito_panic; set_solver|].
  intros Hp%Nat.leb_le. apply wp_bind, IH. intros Hps. apply wp_ret, HQ. by constructor.
Qed.

(** The packets of the bundles that are there and not empty. *)
Definition bundles_of (bs : list BundleUuid) : list (list u8s) :=
  List.filter (λ b, negb (bool_decide (b = [])))
    ((λ b, packet_data <$> packets b) <$> omap bundle bs).

Lemma wp_on_bundles r (c : C) :
  wp jito_panic (on_bundles r) (λ _ c',
    ch_sent c' = ch_sent c ++ (JBundle <$> bundles_of (resp_bundles r)) ∧
    Forall (λ b, b ≠ [] ∧ Forall fits_packet b) (bundles_of (resp_bundles r))) c.
Proof.
  unfold on_bundles, bundles_of. generalize (omap bundle (resp_bundles r)). intros bs.
  revert c. induction bs as [|b bs IH]; intros c; simpl.
  { apply wp_ret. by rewrite app_nil_r. }
  apply wp_bind, wp_bind, wp_collect_packets. intros Hfit.
  destruct (packet_data <$> packets b) as [|p ps] eqn:Hps; simpl.
  { apply wp_ret. apply IH. }
  apply wp_try_send. intros c1 Hc1. eapply wp_mono; [apply IH|]. intros [] c2 [Hc2 Hall].
  rewrite Hc2, Hc1, <- (assoc_L (++)). split; [done|]. by constructor.
Qed.

(** [on_bundles] sends the bundles of the message that are there and not
    empty, whole and in order, and nothing else; so no scheduler is ever sent
    an empty bundle, and every packet of a bundle fits. *)
Theorem on_bundles_sends r (c : C) :
  wp jito_panic (on_bundles r) (λ _ c',
    ch_sent c' = ch_sent c ++ (JBundle <$> bundles_of (resp_bundles r)) ∧
    Forall (λ b, b ≠ [] ∧ Forall fits_packet b) (bundles_of (resp_bundles r))) c.
Proof. apply wp_on_bundles. Qed.

Lemma wp_on_packets r (c : C) :
  wp jito_panic (on_packets r) (λ _ c',
    ch_sent c' = ch_sent c ++
      (JPacket ∘ packet_data <$> from_option batch_packets [] (batch r))) c.
Proof.
  unfold on_packets. rewrite list_fmap_compose. generalize (packet_data <$> from_option batch_packets [] (batch r)).
  intros ps. revert c. induction ps as [|p ps IH]; intros c; simpl.
  { apply wp_ret. by rewrite app_nil_r. }
  apply wp_bind, wp_try_send. intros c1 Hc1. eapply wp_mono; [apply IH|]. intros [] c2 Hc2.
  by rewrite Hc2, Hc1, <- (assoc_L (++)).
Qed.

(** [on_tip_config] sends one message. *)
Lemma wp_on_tip_config data (c : C) :
  wp jito_panic (on_tip_config data) (λ _ c', ∃ t, ch_sent c' = ch_sent c ++ [JTipConfig t]) c.
Proof.
  unfold on_tip_config, slice_array. apply wp_bind, wp_unwrap; [intros _; unfold jito_panic; set_solver|].
  intros d _. do 2 (apply wp_bind, wp_bind, wp_assert; [intros _; unfold jito_panic; set_solver|intros _; apply wp_ret]).
  apply wp_try_send. intros c' Hc'. by eexists.
Qed.

(** [on_tip_config] sends the two addresses that follow the account's
    discriminator; it panics exactly when the data cannot be decoded, ends
    before byte 72, or the channel does not take the message. *)
Theorem on_tip_config_spec data (c : C) :
  on_tip_config data c =
    match ui_decode data with
    | None => Panicked (PUnwrap "config.data.decode")
    | Some d =>
        if decide (length d < 72)%nat then Panicked (PAssert "array_ref!") else
        match ch_try_send (JTipConfig {|
            tip_receiver := pubkey_of_bytes (take 32 (drop 8 d));
            block_builder := pubkey_of_bytes (take 32 (drop 40 d)) |}) c with
        | None => Panicked (PUnwrap "update_tx.try_send")
        | Some c' => Ok (tt, c')
        end
    end.
Proof.
  unfold on_tip_config, slice_array, try_send, bindM, unwrap. destruct (ui_decode data) as [d|]; [|done].
  unfold assert, mret, M_ret. cbv beta iota.
  destruct (decide (length d < 72)%nat) as [Hd|Hd].
  - rewrite (proj2 (Nat.leb_gt (40 + 32) _)) by lia. by destruct (8 + 32 <=? length d)%nat.
  - rewrite !(proj2 (Nat.leb_le _ _)) by lia. unfold gets, array_ref.
    by destruct (ch_try_send _ c).
Qed.
End JitoThread.
