(* ===== verification/IntervalStream.v ===== *)
(** * [IntervalStream] (schedulers/common/src/interval_stream.rs)

    A stream that starts a future at each tick of an interval and yields the
    futures' outputs.  The interval, the futures and the wakers are tokio's. *)

From S2P Require Import Prelude.

Inductive Poll (A : Type) := Ready (a : A) | Pending.
Arguments Ready {A} _.
Arguments Pending {A}.

(** What the stream is polled against.  [W] holds the interval, the futures'
    surroundings, and the task's waker. *)
Class Async (W Fut Output : Type) := {
  poll_tick : W → Poll unit * W;
  (** [(self.fut)()]. *)
  new_fut : W → Fut * W;
  fut_poll : Fut → W → Poll Output * Fut * W;
  (** The wake-ups that are arranged for the task. *)
  wakeups : W → nat;
}.

(** A poll that is pending has arranged for a wake-up; a tick that is due, and
    the making of a lazy future, arrange for none. *)
Class AsyncLaws (W Fut Output : Type) `{Async W Fut Output} := {
  tick_pending w w' : poll_tick w = (Pending, w') → (wakeups w < wakeups w')%nat;
  tick_ready w w' : poll_tick w = (Ready tt, w') → wakeups w' = wakeups w;
  new_fut_lazy w fut w' : new_fut w = (fut, w') → wakeups w' = wakeups w;
  fut_pending fut w fut' w' : fut_poll fut w = (Pending, fut', w') → (wakeups w < wakeups w')%nat;
}.

Record IntervalStream (Fut : Type) := { in_progress : option Fut }.
Arguments in_progress {Fut} _.

Definition IntervalStream_new {Fut} : IntervalStream Fut := {| in_progress := None |}.

Section IntervalStream.
Context `{Async W Fut Output}.

Definition poll_next (s : IntervalStream Fut) (w : W)
    : Poll (option Output) * IntervalStream Fut * W :=
  match in_progress s with
  | Some fut =>
      let '(p, fut', w') := fut_poll fut w in
      match p with
      | Ready output => (Ready (Some output), {| in_progress := None |}, w')
      | Pending => (Pending, {| in_progress := Some fut' |}, w')
      end
  | None =>
      let '(p, w') := poll_tick w in
      match p with
      | Ready _ =>
          let '(fut, w'') := new_fut w' in
          (Pending, {| in_progress := Some fut |}, w'')
      | Pending => (Pending, s, w')
      end
  end.

(** ** Sequences of polls *)

(** What a poll did: nothing, start a future, yield an output, or end. *)
Inductive StreamEvent := Idle | Started | Yielded (o : Output) | Ended.

Definition event_of (s : IntervalStream Fut) (p : Poll (option Output)) (s' : IntervalStream Fut) : StreamEvent :=
  match p with
  | Ready (Some o) => Yielded o
  | Ready None => Ended
  | Pending =>
      match in_progress s, in_progress s' with
      | None, Some _ => Started
      | _, _ => Idle
      end
  end.

Fixpoint poll_times (n : nat) (s : IntervalStream Fut) (w : W) : list StreamEvent * IntervalStream Fut * W :=
  match n with
  | O => ([], s, w)
  | S n' =>
      let '(p, s', w') := poll_next s w in
      let '(evs, s'', w'') := poll_times n' s' w' in
      (event_of s p s' :: evs, s'', w'')
  end.

(** Starts and outputs alternate, beginning with an output when a future is
    [busy] and leaving [busy'] behind. *)
Fixpoint alternates (busy : bool) (evs : list StreamEvent) (busy' : bool) : Prop :=
  match evs with
  | [] => busy = busy'
  | Idle :: evs' => alternates busy evs' busy'
  | Started :: evs' => busy = false ∧ alternates true evs' busy'
  | Yielded _ :: evs' => busy = true ∧ alternates false evs' busy'
  | Ended :: _ => False
  end.

Definition busy (s : IntervalStream Fut) : bool := bool_decide (is_Some (in_progress s)).

(** However often the stream is polled, it never ends, at most one future
    is in progress, and each output is that of the one future started since the
    last output. *)
Theorem interval_stream_alternates n (s : IntervalStream Fut) (w : W) :
  let '(evs, s', _) := poll_times n s w in alternates (busy s) evs (busy s').
Proof.
  revert s w. induction n as [|n IH]; intros s w; simpl; [done|].
  destruct (poll_next s w) as [[p s1] w1] eqn:Hp. specialize (IH s1 w1).
  destruct (poll_times n s1 w1) as [[evs s2] w2]. destruct s as [[fut|]]; unfold poll_next in Hp; simpl in Hp.
  - destruct (fut_poll fut w) as [[[o|] fut'] w']; injection Hp as <- <- <-; simpl; [split; [done|]|]; exact IH.
  - destruct (poll_tick w) as [[[]|] w']; [destruct (new_fut w') as [fut w'']|]; injection Hp as <- <- <-; simpl;
      [split; [done|]|]; exact IH.
Qed.

(** C29: the poll that starts a future says that it is pending without having
    polled the future, so it arranges for no wake-up: contrary to the contract
    of [Stream::poll_next], the task sleeps until something else wakes it. The
    polls that are pending otherwise do arrange for one. *)
Theorem interval_stream_wakeup `{!AsyncLaws W Fut Output} (s : IntervalStream Fut) (w : W) p s' w' :
  poll_next s w = (p, s', w') → p = Pending →
  (event_of s p s' = Started ∧ wakeups w' = wakeups w) ∨
  (event_of s p s' = Idle ∧ (wakeups w < wakeups w')%nat).
Proof.
  intros Hp Hpend. destruct s as [[fut|]]; unfold poll_next in Hp; simpl in Hp.
  - destruct (fut_poll fut w) as [[[o|] fut'] w1] eqn:Hf; injection Hp as <- <- <-; [done|].
    right. split; [done|]. by eapply fut_pending.
  - destruct (poll_tick w) as [[[]|] w1] eqn:Ht; [destruct (new_fut w1) as [fut w2] eqn:Hn|];
      injection Hp as <- <- <-.
    + left. split; [done|]. rewrite (new_fut_lazy _ _ _ Hn). by apply tick_ready.
    + right. split; [done|]. by eapply tick_pending.
Qed.
End IntervalStream.
