(* ===== verification/JitoSession.v ===== *)
(** * Sessions of the Jito thread (schedulers/common/src/jito/jito_thread.rs)

    [run_until_err] connects, authenticates, sends the block builder's
    configuration and then forwards messages until something fails; [run] does
    so again and again.  The gRPC, RPC and web-socket clients are the class
    [JitoNetwork]; the handlers are those of [JitoThread], the blockhashes come
    from an [IntervalStream]. *)

From S2P Require Import Prelude BTreeSet Types Events Externals TipProgram Costs Common.
From S2P Require Import JitoThread IntervalStream.

(** [eyre::Report]: an error of a client, or one of the thread's own. *)
Inductive EyreError := ClientError | Eyre (message : string).

Record Token := { token_value : string; expires_at_utc : option Z }.

Record AuthTokens := { access_token : option Token; refresh_token : option Token }.

Record BlockBuilderInfo := { info_pubkey : string; info_commission : Z }.

(** The clients. [None] is an error of the call, [Pending] a stream on which
    nothing has arrived. *)
Class JitoNetwork `{SolanaCrates} `{JitoCrates} (Net : Type) := {
  HeaderValue : Type;
  (** [str::parse] of a header's value. *)
  header_parse : string → option HeaderValue;
  pubkey_to_string : Pubkey → string;
  keypair_sign_message : Keypair → string → u8s;
  n_connect : Net → option unit * Net;
  n_generate_auth_challenge : u8s → Net → option string * Net;
  n_generate_auth_tokens : string → u8s → u8s → Net → option AuthTokens * Net;
  n_get_block_builder_fee_info : HeaderValue → Net → option BlockBuilderInfo * Net;
  n_subscribe_bundles : HeaderValue → Net → option unit * Net;
  n_subscribe_packets : HeaderValue → Net → option unit * Net;
  n_pubsub_connect : string → Net → option unit * Net;
  n_account_subscribe : Pubkey → Net → option unit * Net;
  n_poll_tip_config : Net → Poll (option UiAccountData) * Net;
  n_poll_bundles : Net → Poll (option (option SubscribeBundlesResponse)) * Net;
  n_poll_packets : Net → Poll (option (option SubscribePacketsResponse)) * Net;
}.

Section JitoSession.
Context `{JitoNetwork Net} `{UpdateChannel C} `{!Async Net Fut (option (Hash * Z))}.
Abbreviation S := (St C Net).

(** The [?] operator. *)
Definition try_bind {A B} (m : M S (EyreError + A)) (f : A → M S (EyreError + B)) : M S (EyreError + B) :=
  let* r := m in
  match r with
  | inl err => mret (inl err)
  | inr a => f a
  end.

Notation "'let?' x ':=' m 'in' k" := (try_bind m (λ x, k))
  (at level 10, x name, m at level 200, k at level 200) : rust_scope.

(** [call(..).await]. *)
Definition await {A} (f : Net → option A * Net) : M S (EyreError + A) :=
  let* r := call f in
  mret (match r with None => inl ClientError | Some a => inr a end).

Definition ok_or {A} (message : string) (o : option A) : M S (EyreError + A) :=
  mret (match o with None => inl (Eyre message) | Some a => inr a end).

Definition ensure (b : bool) (message : string) : M S (EyreError + unit) :=
  mret (if b then inr tt else inl (Eyre message)).

(** A handler of [JitoThread]. *)
Definition on_channel {A} (m : M C A) : M S A := λ st,
  match m (sch st) with
  | Ok (a, c) => Ok (a, mk c (wld st))
  | Panicked p => Panicked p
  | Hang => Hang
  end.

(** [AuthInterceptor::call], in front of a call of the block engine. *)
Definition authorized {A} (access : Token) (f : HeaderValue → Net → option A * Net) : M S (EyreError + A) :=
  match header_parse ("Bearer " ++ token_value access) with
  | None => mret (inl ClientError)
  | Some header => await (f header)
  end.

(** [run_until_err] up to its loop. *)
Definition connect (keypair : Keypair) (ws : string) : M S (EyreError + IntervalStream Fut) :=
  (* Connect to the auth service. *)
  let? _ := await n_connect in
  (* Complete the block engine auth challenge. *)
  let pubkey := keypair_pubkey keypair in
  let? challenge := await (n_generate_auth_challenge (pubkey_to_bytes pubkey)) in
  let formatted_challenge := (pubkey_to_string pubkey ++ "-" ++ challenge)%string in
  let signed_challenge := keypair_sign_message keypair formatted_challenge in
  (* Generate auth tokens using the signed challenge. *)
  let? auth_tokens :=
    await (n_generate_auth_tokens formatted_challenge (pubkey_to_bytes pubkey) signed_challenge) in
  (* Extract & validate tokens. *)
  let? access := ok_or "Missing access token" (access_token auth_tokens) in
  let? _ := ensure (bool_decide (is_Some (expires_at_utc access))) "Missing access expiry" in
  let? refresh := ok_or "Missing refresh token" (refresh_token auth_tokens) in
  let? _ := ensure (bool_decide (is_Some (expires_at_utc refresh))) "Missing refresh expiry" in
  (* Connect to the block engine service. *)
  let? _ := await n_connect in
  (* Fetch block builder config (for now we don't refresh). *)
  let? info := authorized access n_get_block_builder_fee_info in
  let* key := unwrap "block_builder_info.pubkey.parse" (pubkey_from_str (info_pubkey info)) in
  on_channel (try_send (JBuilderConfig {| builder_key := key; commission := info_commission info |})) ;;
  (* Start the bundle & packet streams. *)
  let? _ := authorized access n_subscribe_bundles in
  let? _ := authorized access n_subscribe_packets in
  (* Start jito tip config stream. *)
  let? _ := await (n_pubsub_connect ws) in
  let? _ := await (n_account_subscribe TIP_PAYMENT_CONFIG) in
  mret (inr IntervalStream_new).

(** One round of the [biased] [select!]: the first stream, in this order, on
    which something arrived. When there is none the task sleeps, and the next
    round is at its next wake-up. *)
Definition select_round (hashes : IntervalStream Fut) : M S (EyreError + IntervalStream Fut) :=
  let* ' (p, hashes) := call (λ w, let '(p, s, w') := poll_next hashes w in ((p, s), w')) in
  match p with
  | Ready opt =>
      let* res := unwrap "recent_blockhashes.next" opt in
      match res with
      | None => mret (inl ClientError)
      | Some (hash, _) => on_channel (try_send (JRecentBlockhash hash)) ;; mret (inr hashes)
      end
  | Pending =>
  let* p := call n_poll_tip_config in
  match p with
  | Ready None => mret (inl (Eyre "tip config stream closed"))
  | Ready (Some config) => on_channel (on_tip_config config) ;; mret (inr hashes)
  | Pending =>
  let* p := call n_poll_bundles in
  match p with
  | Ready None => mret (inl ClientError)
  | Ready (Some None) => mret (inl (Eyre "bundle stream closed"))
  | Ready (Some (Some bundles)) => on_channel (on_bundles bundles) ;; mret (inr hashes)
  | Pending =>
  let* p := call n_poll_packets in
  match p with
  | Ready None => mret (inl ClientError)
  | Ready (Some None) => mret (inl (Eyre "bundle stream closed"))
  | Ready (Some (Some packets)) => on_channel (on_packets packets) ;; mret (inr hashes)
  | Pending => mret (inr hashes)
  end end end end.

(** The first [rounds] rounds of the loop. *)
Fixpoint select_rounds (rounds : nat) (hashes : IntervalStream Fut) : M S (EyreError + IntervalStream Fut) :=
  match rounds with
  | O => mret (inr hashes)
  | Datatypes.S rounds' =>
      let? hashes' := select_round hashes in
      select_rounds rounds' hashes'
  end.

(** [run_until_err], interrupted after so many rounds if nothing has failed. *)
Definition run_until_err (rounds : nat) (keypair : Keypair) (ws : string)
    : M S (EyreError + IntervalStream Fut) :=
  let? hashes := connect keypair ws in
  select_rounds rounds hashes.

(** [run], interrupted in the session in which nothing fails. *)
Fixpoint run (sessions : list nat) (keypair : Keypair) (ws : string) : M S unit :=
  match sessions with
  | [] => mret tt
  | rounds :: sessions' =>
      let* r := run_until_err rounds keypair ws in
      match r with
      | inl err => run sessions' keypair ws
      | inr _ => mret tt
      end
  end.

(** ** What a session sends *)

Context `{!UpdateChannelLaws C}.

(** A message of a session after its first. *)
Definition stream_message (u : JitoUpdate) : Prop :=
  match u with
  | JBuilderConfig _ => False
  | JBundle b => b ≠ [] ∧ Forall fits_packet b
  | _ => True
  end.

Definition session_trace (msgs : list JitoUpdate) : Prop :=
  msgs = [] ∨ ∃ c rest, msgs = JBuilderConfig c :: rest ∧ Forall stream_message rest.

Definition session_panic (p : Panic) : Prop :=
  jito_panic p ∨ p = PUnwrap "block_builder_info.pubkey.parse".

(** [msgs] were sent between [st] and [st']. *)
Definition sent (msgs : list JitoUpdate) (st st' : S) : Prop := ch_sent (sch st') = ch_sent (sch st) ++ msgs.

Lemma sent_nil st c : sch st = c → sent [] st (mk c (wld st)).
Proof. intros <-. unfold sent. by rewrite app_nil_r. Qed.

Lemma sent_app m1 m2 st1 st2 st3 : sent m1 st1 st2 → sent m2 st2 st3 → sent (m1 ++ m2) st1 st3.
Proof. unfold sent. intros Hm1 ->. by rewrite Hm1, (assoc_L (++)). Qed.

Lemma wp_on_channel {A} (m : M C A) (Q : A → S → Prop) st :
  wp jito_panic m (λ a c, Q a (mk c (wld st))) (sch st) → wp session_panic (on_channel m) Q st.
Proof. unfold wp, on_channel. destruct (m (sch st)) as [[a c]|p|]; [done|by left|done]. Qed.

Lemma wp_session_send u (Q : unit → S → Prop) st :
  (∀ st', sent [u] st st' → Q tt st') → wp session_panic (on_channel (try_send u)) Q st.
Proof. intros HQ. by apply wp_on_channel, wp_try_send; intros c' Hc'; apply HQ. Qed.

Lemma wp_try_bind {A B} E (m : M S (EyreError + A)) (f : A → M S (EyreError + B)) (Q : EyreError + B → S → Prop) st :
  wp E m (λ r st', match r with inl err => Q (inl err) st' | inr a => wp E (f a) Q st' end) st →
  wp E (try_bind m f) Q st.
Proof. intros Hm. unfold try_bind. apply wp_bind. eapply wp_mono; [exact Hm|]. by intros [err|a] st' HQ. Qed.

(** The rules of the calls that send nothing. *)
Lemma wp_await {A} E (f : Net → option A * Net) (Q : EyreError + A → S → Prop) st :
  (∀ r w', Q r (mk (sch st) w')) → wp E (await f) Q st.
Proof. intros HQ. unfold await. wp_steps. apply HQ. Qed.

Lemma wp_ok_or {A} E message (o : option A) (Q : EyreError + A → S → Prop) st :
  (∀ r, Q r st) → wp E (ok_or message o) Q st.
Proof. intros HQ. apply HQ. Qed.

Lemma wp_ensure E b message (Q : EyreError + unit → S → Prop) st :
  (∀ r, Q r st) → wp E (ensure b message) Q st.
Proof. intros HQ. apply HQ. Qed.

Lemma wp_authorized {A} E access (f : HeaderValue → Net → option A * Net) (Q : EyreError + A → S → Prop) st :
  (∀ r w', Q r (mk (sch st) w')) → wp E (authorized access f) Q st.
Proof.
  intros HQ. unfold authorized. case_match; [by apply wp_await|]. wp_step. destruct st. apply HQ.
Qed.

(** [connect] sends the block builder's configuration, unless it fails before. *)
Lemma wp_connect keypair ws (Q : EyreError + IntervalStream Fut → S → Prop) st :
  (∀ err st', sent [] st st' → Q (inl err) st') →
  (∀ r c st', sent [JBuilderConfig c] st st' → Q r st') →
  wp session_panic (connect keypair ws) Q st.
Proof.
  intros HE HQ. assert (∀ err st', sch st' = sch st → Q (inl err) st') as Hfail.
  { intros err st' Hst. apply HE. destruct st'. by apply sent_nil. }
  unfold connect.
  do 3 (apply wp_try_bind, wp_await; intros [err|?] ?; [by apply Hfail|]; simpl).
  do 2 (apply wp_try_bind, wp_ok_or; intros [err|?]; [by apply Hfail|];
        apply wp_try_bind, wp_ensure; intros [err|?]; [by apply Hfail|]).
  apply wp_try_bind, wp_await. intros [err|?] ?; [by apply Hfail|].
  apply wp_try_bind, wp_authorized. intros [err|info] ?; [by apply Hfail|]. simpl.
  apply wp_bind, wp_unwrap; [by right|]. intros key _. apply wp_bind, wp_session_send. simpl.
  intros st1 Hst1. assert (∀ r st', sch st' = sch st1 → Q r st') as Hlate.
  { intros r st' Hst. eapply HQ. unfold sent. rewrite Hst. exact Hst1. }
  do 2 (apply wp_try_bind, wp_authorized; intros [err|?] ?; [by apply Hlate|]; simpl).
  do 2 (apply wp_try_bind, wp_await; intros [err|?] ?; [by apply Hlate|]; simpl).
  by apply wp_ret, Hlate.
Qed.

(** A round forwards what arrived. *)
Lemma wp_select_round hashes (Q : EyreError + IntervalStream Fut → S → Prop) st :
  (∀ r msgs st', Forall stream_message msgs → sent msgs st st' → Q r st') →
  wp session_panic (select_round hashes) Q st.
Proof.
  intros HQ. assert (∀ w, sent [] st (mk (sch st) w)) as Hs by (intros w; by apply (sent_nil (mk (sch st) w))).
  assert (∀ r w, Q r (mk (sch st) w)) as Hq by (intros r w; by apply (HQ r [])).
  unfold select_round. wp_steps.
  destruct (poll_next hashes (wld st)) as [[p hashes'] w1] eqn:Hp. cbn [fst snd].
  assert (p ≠ Ready None) as Hne.
  { intros ->. destruct hashes as [[fut|]]; unfold poll_next in Hp; simpl in Hp; repeat case_match; congruence. }
  destruct p as [[[[hash ?]|]|]|]; simpl; [|by wp_steps; apply Hq|done|].
  { wp_steps. apply wp_session_send. intros st' Hst'. wp_step. apply (HQ _ [JRecentBlockhash hash]); [by repeat constructor|].
    exact Hst'. }
  wp_steps. cbn [wld sch]. destruct (n_poll_tip_config w1) as [p w2]. simpl. destruct p as [[config|]|]; [|by wp_steps; apply Hq|].
  { wp_step. apply wp_on_channel. eapply wp_mono; [apply wp_on_tip_config|]. intros [] c' [t Hc'].
    wp_step. apply (HQ _ [JTipConfig t]); [by repeat constructor|exact Hc']. }
  wp_steps. cbn [wld sch]. destruct (n_poll_bundles w2) as [p w3]. simpl. destruct p as [[[b|]|]|]; [|by wp_steps; apply Hq..|].
  { wp_step. apply wp_on_channel. eapply wp_mono; [apply wp_on_bundles|]. intros [] c' [Hc' Hall].
    wp_step. eapply HQ; [|exact Hc']. by apply Forall_fmap. }
  wp_steps. cbn [wld sch]. destruct (n_poll_packets w3) as [p w4]. simpl. destruct p as [[[b|]|]|]; [|by wp_steps; apply Hq..].
  wp_step. apply wp_on_channel. eapply wp_mono; [apply wp_on_packets|]. intros [] c' Hc'.
  wp_step. eapply HQ; [|exact Hc']. apply Forall_fmap, Forall_forall. done.
Qed.

Lemma wp_select_rounds rounds hashes (Q : EyreError + IntervalStream Fut → S → Prop) st :
  (∀ r msgs st', Forall stream_message msgs → sent msgs st st' → Q r st') →
  wp session_panic (select_rounds rounds hashes) Q st.
Proof.
  revert hashes Q st. induction rounds as [|rounds IH]; intros hashes Q st HQ; simpl.
  { wp_step. apply (HQ _ []); [constructor|]. destruct st. by apply (sent_nil (mk _ _)). }
  apply wp_try_bind, wp_select_round. intros [err|hashes'] m1 st1 Hm1 Hst1; [by eapply HQ|].
  apply IH. intros r m2 st2 Hm2 Hst2. apply (HQ r (m1 ++ m2)); [by apply Forall_app|by eapply sent_app].
Qed.

Lemma wp_run_until_err rounds keypair ws (Q : EyreError + IntervalStream Fut → S → Prop) st :
  (∀ r msgs st', session_trace msgs → sent msgs st st' → Q r st') →
  wp session_panic (run_until_err rounds keypair ws) Q st.
Proof.
  intros HQ. unfold run_until_err. apply wp_try_bind, wp_connect.
  - intros err st' Hst'. apply (HQ _ []); [by left|done].
  - intros r c st1 Hst1.
    assert (∀ rest, Forall stream_message rest → session_trace (JBuilderConfig c :: rest)) as Ht.
    { intros rest Hrest. right. by eexists _, _. }
    destruct r as [err|hashes]; [apply (HQ _ [JBuilderConfig c]); [by apply Ht|done]|].
    apply wp_select_rounds. intros r m2 st2 Hm2 Hst2. apply (HQ r (JBuilderConfig c :: m2)); [by apply Ht|].
    by apply (sent_app [JBuilderConfig c] m2 _ st1).
Qed.

(** What the thread sends over all its sessions. *)
Definition thread_trace (msgs : list JitoUpdate) : Prop :=
  ∃ traces, msgs = concat traces ∧ Forall session_trace traces.

Lemma run_sent sessions keypair ws (st : S) :
  wp session_panic (run sessions keypair ws) (λ _ st', ∃ msgs, thread_trace msgs ∧ sent msgs st st') st.
Proof.
  revert st. induction sessions as [|rounds sessions IH]; intros st; simpl.
  { wp_step. exists []. split; [by exists []|]. destruct st. by apply (sent_nil (mk _ _)). }
  wp_step. apply wp_run_until_err. intros [err|hashes] m1 st1 Hm1 Hst1.
  - eapply wp_mono; [apply IH|]. intros [] st2 (m2 & (traces & -> & Htr) & Hst2).
    exists (m1 ++ concat traces). split; [|by eapply sent_app].
    exists (m1 :: traces). split; [done|]. by constructor.
  - wp_step. exists m1. split; [|done]. exists [m1]. split; [simpl; by rewrite app_nil_r|]. by constructor.
Qed.

(** The first message the thread ever sends. *)
Lemma thread_trace_first msgs u : thread_trace msgs → hd_error msgs = Some u → ∃ c, u = JBuilderConfig c.
Proof.
  intros (traces & -> & Htr). induction Htr as [|m traces [->|(c & rest & -> & _)] _ IH]; simpl; [done|exact IH|].
  intros [= <-]. by eexists.
Qed.

(** C27: whatever the network does, what the thread sends is, session by
    session, nothing, or the block builder's configuration and then messages
    of the streams, none of which is another configuration or an empty or
    oversized bundle; so the first message of all is a configuration. The
    thread dies only when the channel does not take a message or when a
    message of a peer is malformed. *)
Theorem jito_thread_sends sessions keypair ws (st : S) :
  wp session_panic (run sessions keypair ws) (λ _ st', ∃ traces,
    ch_sent (sch st') = ch_sent (sch st) ++ concat traces ∧
    (∀ msgs, msgs ∈ traces → msgs = [] ∨
       ∃ c rest, msgs = JBuilderConfig c :: rest ∧ Forall stream_message rest) ∧
    (∀ u, hd_error (concat traces) = Some u → ∃ c, u = JBuilderConfig c)) st.
Proof.
  eapply wp_mono; [apply run_sent|]. intros [] st' (msgs & Ht & Hs).
  pose proof Ht as (traces & -> & Htr). exists traces. split; [exact Hs|]. split.
  - rewrite Forall_forall in Htr. exact Htr.
  - intros u. by apply thread_trace_first.
Qed.
End JitoSession.
