(* ===== verification/BatchInvariant.v ===== *)
(** * The batch scheduler's invariant

    [Inv O st]: the scheduler's collections, its lock table and its CU counter
    agree with the executions [O] that are with the workers.  [O] is a ghost
    list of the outstanding entries, each tagged with the batch it was sent in.
    The handlers preserve the invariant, and none of their assertions fails. *)

From S2P Require Import Prelude BTreeSet Types Events Externals LockTable TipProgram Costs.
From S2P Require Import Common Outstanding BatchScheduler.

Section Invariant.
Context `{Profile} `{AgaveBindings} `{World W} `{!WorldLaws} {Heap DSet : Type}
  `{MinMaxHeap Heap PriorityId} `{!MinMaxHeapLaws Heap PriorityId}
  `{IndexSet DSet PriorityId} `{!IndexSetLaws DSet PriorityId}.
Abbreviation Sched := (BatchScheduler Heap DSet).
Abbreviation S := (St Sched W).
Abbreviation Outstanding := (list (nat * PriorityId)).

(** ** The invariant *)

Definition tx_locks (w : W) (k : TransactionKey) : list (Pubkey * bool) :=
  match w_transaction w k with Some tx => locks tx | None => [] end.

(** No lock is named twice: what the check workers make sure of. *)
Definition lockable (w : W) (k : TransactionKey) : Prop := NoDup (tx_locks w k).

(** A transaction that is in the bridge. *)
Definition live (w : W) (k : TransactionKey) : Prop :=
  ∃ tx, w_transaction w k = Some tx ∧ signed tx.

Definition outstanding_grants (w : W) (O : Outstanding) : Grants :=
  ⋃ ((λ im, grants_of (key im.2) (tx_locks w (key im.2))) <$> O).

(** The keys whose transactions will be locked, or are. *)
Definition locking_keys (O : Outstanding) (s : Sched) : list TransactionKey :=
  (key <$> checked_tx s) ++ (key <$> iset_elements (deferred_tx s)) ++ okeys O
  ++ concat (keys <$> bundles s).

(** The transaction keys the scheduler is responsible for (those that are with
    the check workers for the first time are not among them). *)
Definition held_keys (O : Outstanding) (s : Sched) : list TransactionKey :=
  (key <$> heap_elements (unchecked_tx s)) ++ locking_keys O s.

Record Inv (O : Outstanding) (st : S) : Prop := {
  inv_sorted : sorted (checked_tx (sch st));
  inv_bundles : sorted (bundles (sch st));
  inv_keys : NoDup (held_keys O (sch st));
  inv_executing : executing_tx (sch st) = list_to_set (okeys O);
  inv_cus : in_flight_cus (sch st) = sum_costs O;
  inv_cus_u64 : is_u64 (in_flight_cus (sch st));
  inv_costs : Forall (λ im, is_u64 (cost im.2)) O;
  inv_waiting_costs :
    Forall (λ m, is_u64 (cost m)) (checked_tx (sch st) ++ iset_elements (deferred_tx (sch st)));
  inv_bundle_costs : Forall (λ b, is_u64 (b_cost b) ∧ keys b ≠ []) (bundles (sch st));
  inv_live : ∀ k, k ∈ held_keys O (sch st) → live (wld st) k;
  inv_lockable : ∀ k, k ∈ locking_keys O (sch st) → lockable (wld st) k;
  inv_locks : represents (in_flight_locks (sch st)) (outstanding_grants (wld st) O);
  (** Entries of different batches never conflict. *)
  inv_compatible : ∀ i m j m', (i, m) ∈ O → (j, m') ∈ O → i ≠ j →
    ∀ addr b b', (addr, b) ∈ tx_locks (wld st) (key m) →
      (addr, b') ∈ tx_locks (wld st) (key m') → b = false ∧ b' = false;
}.

(** ** Facts about the ghost list *)

Lemma elem_of_outstanding_grants w O addr k b :
  (addr, k, b) ∈ outstanding_grants w O ↔ k ∈ okeys O ∧ (addr, b) ∈ tx_locks w k.
Proof.
  unfold outstanding_grants, okeys. rewrite elem_of_union_list.
  setoid_rewrite list_elem_of_fmap. split.
  - intros (X & ([i m] & -> & Hin) & Hg). apply elem_of_grants_of in Hg as [-> Hk].
    split; [by exists (i, m)|done].
  - intros (([i m] & -> & Hin) & Hk). eexists; split; [by exists (i, m)|].
    by apply elem_of_grants_of.
Qed.

Lemma list_to_set_cons_remove (l l' : list TransactionKey) (k : TransactionKey) :
  l ≡ₚ k :: l' → k ∉ l' → (list_to_set l : gset TransactionKey) ∖ {[k]} = list_to_set l'.
Proof. intros Hl Hk. apply set_eq. intros x. rewrite elem_of_difference, !elem_of_list_to_set, Hl. set_solver. Qed.

(** ** Observability does not matter *)

(** [st'] differs from [st] in the slot statistics and in what the outside
    sees; nothing the invariant speaks of has changed. *)
Definition same_sched (s s' : Sched) : Prop := ∃ stats, s' = s <| slot_stats := stats |>.

Definition quiet (st st' : S) : Prop :=
  same_sched (sch st) (sch st') ∧
  w_transaction (wld st') = w_transaction (wld st).

#[export] Instance quiet_refl : Reflexive quiet.
Proof. intros [s w]. split; [|done]. exists (slot_stats s). by destruct s. Qed.

#[export] Instance quiet_trans : Transitive quiet.
Proof.
  intros st1 st2 st3 [[a1 Hs1] Hw1] [[a2 Hs2] Hw2]. split.
  - exists a2. by rewrite Hs2, Hs1.
  - by rewrite Hw2.
Qed.

Lemma quiet_inv O st st' : quiet st st' → Inv O st → Inv O st'.
Proof.
  intros [[stats Hs] Hw] HI.
  assert (∀ k, tx_locks (wld st') k = tx_locks (wld st) k) as Hl.
  { intros k. unfold tx_locks. by rewrite Hw. }
  assert (outstanding_grants (wld st') O = outstanding_grants (wld st) O) as Hg.
  { apply set_eq. intros [[a k] b]. by rewrite !elem_of_outstanding_grants, Hl. }
  destruct HI. split; rewrite ?Hs; simpl; try done.
  - intros k Hk. unfold live. rewrite Hw. by apply inv_live0.
  - intros k. unfold lockable. rewrite Hl. by apply inv_lockable0.
  - by rewrite Hg.
  - intros i m j m'. rewrite !Hl. eauto.
Qed.

(** The panics that are outside the invariant's reach: a statistics counter or
    a slot number at the end of its range (with overflow checks), and the
    bridge refusing a batch or one of the scheduler's own transactions. *)
Definition benign (p : Panic) : Prop :=
  p ∈ [POverflow "slot_stats"; POverflow "current_slot + 1";
       POverflow "become_tip_receiver: slot + 4"; PUnwrap "bridge.schedule";
       PUnwrap "become_tip_receiver: insert init";
       PUnwrap "become_tip_receiver: insert change"].

Lemma benign_overflow site w z p :
  benign (POverflow site) → checked_result w site z = Panicked p → benign p.
Proof. by intros Hb ->%checked_result_panic. Qed.

Lemma wp_increment m n Q (st : S) :
  (∀ st', quiet st st' → Q tt st') → wp benign (increment m n) Q st.
Proof.
  intros HQ. apply wp_update_world, HQ. split; [by exists (slot_stats (sch st)); destruct (sch st)|].
  apply metric_increment_transaction.
Qed.

Lemma wp_bump (field : SlotStatsEvent → Z) `{!Setter field} n Q (st : S) :
  (∀ st', quiet st st' → Q tt st') → wp benign (bump field n) Q st.
Proof.
  intros HQ. unfold bump. wp_steps. apply wp_of_res_cases.
  - intros v _. wp_steps. apply HQ. split; [eexists; reflexivity|reflexivity].
  - intros p. apply benign_overflow. unfold benign. set_solver.
  - apply checked_result_no_hang.
Qed.

Lemma wp_emit e ev Q (st : S) :
  (∀ st', quiet st st' → Q tt st') → wp benign (emit e ev) Q st.
Proof.
  intros HQ. unfold emit. wp_steps. apply HQ. split; [by exists (slot_stats (sch st)); destruct (sch st)|]. simpl.
  by rewrite events_transaction, utc_now_transaction.
Qed.

Lemma wp_emit_tx_event k prio action Q (st : S) :
  live (wld st) k →
  (∀ st', quiet st st' → Q tt st') → wp benign (emit_tx_event k prio action) Q st.
Proof.
  intros (tx & Htx & Hsig) HQ. unfold emit_tx_event. wp_steps.
  destruct (events (sch st)) as [e|]; [|by apply wp_ret, HQ].
  wp_step. apply (wp_transaction _ _ tx); [done|].
  destruct (is_simple_vote tx); [by apply wp_ret, HQ|].
  wp_step. apply wp_unwrap.
  { unfold signed in Hsig. destruct (tv_signatures (data tx)); [done|]. intros [=]. }
  intros sig _. wp_steps. by apply wp_emit.
Qed.

Lemma quiet_held O st st' : quiet st st' → held_keys O (sch st') = held_keys O (sch st).
Proof. intros [[stats Hs] _]. by rewrite Hs. Qed.

Lemma quiet_live st st' k : quiet st st' → live (wld st) k → live (wld st') k.
Proof. intros [_ Hw]. unfold live. by rewrite Hw. Qed.

Lemma quiet_lockable st st' k : quiet st st' → lockable (wld st) k → lockable (wld st') k.
Proof. intros [_ Hw]. unfold lockable, tx_locks. by rewrite Hw. Qed.

(** ** How the operations move keys *)

Lemma held_keys_okeys O O' m i s :
  O ≡ₚ (i, m) :: O' → held_keys O s ≡ₚ key m :: held_keys O' s.
Proof.
  intros HO. unfold held_keys, locking_keys. rewrite (okeys_Permutation _ _ HO). simpl.
  rewrite !Permutation_middle. solve_Permutation.
Qed.

Lemma held_insert_checked O m s :
  m ∉ checked_tx s →
  held_keys O (s <| checked_tx ::= insert_sorted m |>) ≡ₚ key m :: held_keys O s.
Proof.
  intros Hm. unfold held_keys, locking_keys. simpl.
  rewrite (insert_sorted_Permutation m (checked_tx s) Hm). solve_Permutation.
Qed.

Lemma held_pop_first O m l s :
  checked_tx s = m :: l → held_keys O s ≡ₚ key m :: held_keys O (s <| checked_tx := l |>).
Proof. intros Hl. unfold held_keys, locking_keys. simpl. rewrite Hl. solve_Permutation. Qed.

Lemma not_held_checked O m s : key m ∉ held_keys O s → m ∉ checked_tx s.
Proof. unfold held_keys, locking_keys. intros Hk Hm. apply Hk. rewrite !elem_of_app. right; left. by apply list_elem_of_fmap_2. Qed.

Lemma not_held_deferred O m s : key m ∉ held_keys O s → m ∉ iset_elements (deferred_tx s).
Proof.
  unfold held_keys, locking_keys. intros Hk Hm. apply Hk. rewrite !elem_of_app.
  do 2 right; left. by apply list_elem_of_fmap_2.
Qed.

Lemma locking_held O s k : k ∈ locking_keys O s → k ∈ held_keys O s.
Proof. intros Hk. unfold held_keys. apply elem_of_app. by right. Qed.

(** A key that is to be locked comes from one of four places. *)
Lemma elem_of_locking O s k :
  k ∈ locking_keys O s ↔
    (∃ m, m ∈ checked_tx s ∧ key m = k) ∨ (∃ m, m ∈ iset_elements (deferred_tx s) ∧ key m = k) ∨
    k ∈ okeys O ∨ (∃ b, b ∈ bundles s ∧ k ∈ keys b).
Proof.
  unfold locking_keys. rewrite !elem_of_app, elem_of_concat, !list_elem_of_fmap.
  setoid_rewrite list_elem_of_fmap. naive_solver.
Qed.

(** What does not touch the executions: the invariant after a change of the
    collections and of the transactions the scheduler does not execute. *)
Lemma Inv_change O s w s' w' :
  Inv O (mk s w) →
  sorted (checked_tx s') → sorted (bundles s') →
  Forall (λ m, is_u64 (cost m)) (checked_tx s' ++ iset_elements (deferred_tx s')) →
  Forall (λ b, is_u64 (b_cost b) ∧ keys b ≠ []) (bundles s') →
  executing_tx s' = executing_tx s → in_flight_cus s' = in_flight_cus s →
  in_flight_locks s' = in_flight_locks s →
  NoDup (held_keys O s') →
  (∀ k, k ∈ held_keys O s' → live w' k) →
  (∀ k, k ∈ locking_keys O s' →
     (k ∈ locking_keys O s ∧ w_transaction w' k = w_transaction w k) ∨ lockable w' k) →
  (∀ k, k ∈ okeys O → w_transaction w' k = w_transaction w k) →
  Inv O (mk s' w').
Proof.
  intros HI Hc Hb Hwc Hbc He Hcus Hlk Hnd Hlive Hlockable Hw.
  assert (∀ k, k ∈ okeys O → tx_locks w' k = tx_locks w k) as Hl.
  { intros k Hk. unfold tx_locks. by rewrite Hw. }
  assert (outstanding_grants w' O = outstanding_grants w O) as Hg.
  { apply set_eq. intros [[a k] b]. rewrite !elem_of_outstanding_grants.
    split; intros [Hk ?]; split; try done; [by rewrite <- Hl|by rewrite Hl]. }
  destruct HI; simpl in *. split; simpl; try done.
  - by rewrite He.
  - by rewrite Hcus.
  - by rewrite Hcus.
  - intros k Hk. destruct (Hlockable k Hk) as [[Hk' Hwk]|]; [|done].
    unfold lockable, tx_locks. rewrite Hwk. by apply inv_lockable0.
  - by rewrite Hlk, Hg.
  - intros i m j m' Hi Hj. rewrite !Hl by by eapply elem_of_okeys. by apply inv_compatible0.
Qed.

(** An execution that is over. *)
Lemma Inv_complete O O' i m s s' w :
  Inv O (mk s w) → O ≡ₚ (i, m) :: O' →
  unchecked_tx s' = unchecked_tx s → checked_tx s' = checked_tx s →
  deferred_tx s' = deferred_tx s → bundles s' = bundles s →
  executing_tx s' = (executing_tx s) ∖ {[key m]} →
  in_flight_cus s' = in_flight_cus s - cost m →
  represents (in_flight_locks s') ((outstanding_grants w O) ∖ grants_of (key m) (tx_locks w (key m))) →
  Inv O' (mk s' w) ∧ (key m ∉ held_keys O' s') ∧ live w (key m) ∧ lockable w (key m).
Proof.
  intros HI HO Hu Hc Hd Hb He Hcus Hlk.
  assert (∀ O, held_keys O s' = held_keys O s) as Hh.
  { intros. unfold held_keys, locking_keys. by rewrite Hu, Hc, Hd, Hb. }
  assert (locking_keys O s ≡ₚ key m :: locking_keys O' s') as Hlock.
  { unfold locking_keys. rewrite Hc, Hd, Hb, (okeys_Permutation _ _ HO). simpl. solve_Permutation. }
  destruct HI; simpl in *.
  pose proof (held_keys_okeys O O' m i s HO) as Hp. rewrite Hp in inv_keys0.
  apply NoDup_cons in inv_keys0 as [Hk Hnd].
  assert (key m ∉ okeys O') as Hko.
  { intros Hin. apply Hk. unfold held_keys, locking_keys. rewrite !elem_of_app. tauto. }
  pose proof (okeys_Permutation _ _ HO) as Hop. simpl in Hop.
  pose proof (sum_costs_Permutation _ _ HO) as Hs. simpl in Hs.
  rewrite HO in inv_costs0. apply Forall_cons in inv_costs0 as [Hcm Hcs]. simpl in Hcm.
  pose proof (sum_costs_nonneg _ Hcs).
  split; [|split; [by rewrite Hh|split]].
  - split; simpl; try done.
    + by rewrite Hc.
    + by rewrite Hb.
    + by rewrite Hh.
    + rewrite He, inv_executing0. by apply list_to_set_cons_remove.
    + rewrite Hcus. lia.
    + unfold is_u64 in *. lia.
    + by rewrite Hc, Hd.
    + by rewrite Hb.
    + intros k. rewrite Hh. intros Hin. apply inv_live0. rewrite Hp. by right.
    + intros k Hin. apply inv_lockable0. rewrite Hlock. by right.
    + replace (outstanding_grants w O') with
        ((outstanding_grants w O) ∖ grants_of (key m) (tx_locks w (key m))); [done|].
      apply set_eq. intros [[a k] b].
      rewrite elem_of_difference, !elem_of_outstanding_grants, elem_of_grants_of, Hop, elem_of_cons.
      destruct (decide (k = key m)) as [->|]; naive_solver.
    + intros j m1 j' m2 H1' H2'. apply inv_compatible0; rewrite HO; by right.
  - apply inv_live0. rewrite Hp. by left.
  - apply inv_lockable0. rewrite Hlock. by left.
Qed.
End Invariant.
