(* ===== verification/BatchHandlers.v ===== *)
(** * The batch scheduler's handlers preserve the invariant

    Worker responses ([on_execute], [on_unprocessed], [on_check]) against the
    invariant of [BatchInvariant]: the assertions hold, the locks and the CU
    budget of a finished execution come back, and the transaction ends up where
    its response says. *)

From S2P Require Import Prelude BTreeSet Types Events Externals LockTable TipProgram Costs.
From S2P Require Import Common Outstanding BatchScheduler BatchInvariant.

Section Handlers.
Context `{Profile} `{AgaveBindings} `{World W} `{!WorldLaws} {Heap DSet : Type}
  `{MinMaxHeap Heap PriorityId} `{!MinMaxHeapLaws Heap PriorityId}
  `{IndexSet DSet PriorityId} `{!IndexSetLaws DSet PriorityId}.
Abbreviation Sched := (BatchScheduler Heap DSet).
Abbreviation S := (St Sched W).

(** ** Locks of the executions *)

Lemma grants_held O w i m :
  (i, m) ∈ O → grants_of (key m) (tx_locks w (key m)) ⊆ outstanding_grants w O.
Proof.
  intros Hin [[a k] b]. rewrite elem_of_grants_of, elem_of_outstanding_grants.
  intros [-> Hb]. split; [by eapply elem_of_okeys|done].
Qed.

Lemma wp_unlock_tx E O i m Q (st : S) :
  represents (in_flight_locks (sch st)) (outstanding_grants (wld st) O) →
  live (wld st) (key m) → lockable (wld st) (key m) → (i, m) ∈ O →
  (∀ t', represents t' ((outstanding_grants (wld st) O) ∖ grants_of (key m) (tx_locks (wld st) (key m))) →
    Q tt (mk ((sch st) <| in_flight_locks := t' |>) (wld st))) →
  wp E (unlock_tx (key m)) Q st.
Proof.
  intros Hrep (tx & Htx & _) Hnd Hin HQ. pose proof (grants_held O (wld st) i m Hin) as Hsub.
  unfold unlock_tx. wp_step. apply (wp_transaction _ _ tx); [done|]. wp_steps.
  unfold lockable, tx_locks in *. rewrite Htx in *.
  destruct (unlock_spec (key m) (locks tx) _ _ Hrep Hnd) as (t' & Ht & Hrep').
  { intros a b Hb. apply Hsub. by apply elem_of_grants_of. }
  apply (wp_of_res _ _ t'); [done|]. wp_steps. by apply HQ.
Qed.

Lemma wp_remove_executing E k Q (st : S) :
  Q (bool_decide (k ∈ executing_tx (sch st)))
    (mk ((sch st) <| executing_tx ::= λ e, e ∖ {[k]} |>) (wld st)) →
  wp E (remove_executing k) Q st.
Proof. intros HQ. unfold remove_executing. by wp_steps. Qed.

Lemma wp_insert_checked E m Q (st : S) :
  Q (negb (btree_contains m (checked_tx (sch st))))
    (mk ((sch st) <| checked_tx ::= insert_sorted m |>) (wld st)) →
  wp E (insert_checked m) Q st.
Proof. done. Qed.

Lemma executing_spec O (st : S) k : Inv O st → k ∈ executing_tx (sch st) ↔ k ∈ okeys O.
Proof. intros HI. by rewrite (inv_executing _ _ HI), elem_of_list_to_set. Qed.

(** The counter of an outstanding execution is in the sum. *)
Lemma outstanding_cost O O' i m (st : S) :
  Inv O st → O ≡ₚ (i, m) :: O' → 0 ≤ cost m ≤ in_flight_cus (sch st).
Proof.
  intros HI HO. rewrite (inv_cus _ _ HI), (sum_costs_Permutation _ _ HO). simpl.
  pose proof (inv_costs _ _ HI) as Hc. rewrite HO in Hc.
  apply Forall_cons in Hc as [Hm Hc]. simpl in Hm.
  pose proof (sum_costs_nonneg _ Hc). unfold is_u64 in Hm. lia.
Qed.

Lemma outstanding_live O i m (st : S) : Inv O st → (i, m) ∈ O → live (wld st) (key m).
Proof.
  intros HI Hin. apply (inv_live _ _ HI). unfold held_keys, locking_keys. rewrite !elem_of_app.
  do 3 right; left. by eapply elem_of_okeys.
Qed.

Lemma outstanding_lockable O i m (st : S) : Inv O st → (i, m) ∈ O → lockable (wld st) (key m).
Proof.
  intros HI Hin. apply (inv_lockable _ _ HI). apply elem_of_locking. do 2 right; left.
  by eapply elem_of_okeys.
Qed.

Lemma outstanding_cost_u64 O i m (st : S) : Inv O st → (i, m) ∈ O → is_u64 (cost m).
Proof. intros HI Hin. pose proof (inv_costs _ _ HI) as Hc. rewrite Forall_forall in Hc. apply (Hc _ Hin). Qed.

(** ** Putting a transaction back *)

Lemma Inv_insert_checked O m (st : S) :
  Inv O st → key m ∉ held_keys O (sch st) → live (wld st) (key m) → lockable (wld st) (key m) →
  is_u64 (cost m) →
  Inv O (mk ((sch st) <| checked_tx ::= insert_sorted m |>) (wld st)).
Proof.
  intros HI Hk Hl Hlock Hm. pose proof (held_insert_checked O m _ (not_held_checked _ _ _ Hk)) as Hp.
  destruct st as [s w]. eapply (Inv_change O s w); try done.
  - apply insert_sorted_sorted, (inv_sorted _ _ HI).
  - apply (inv_bundles _ _ HI).
  - simpl. rewrite insert_sorted_Permutation by by eapply not_held_checked.
    apply Forall_cons. split; [done|]. apply (inv_waiting_costs _ _ HI).
  - apply (inv_bundle_costs _ _ HI).
  - rewrite Hp. apply NoDup_cons. split; [done|]. apply (inv_keys _ _ HI).
  - intros k. rewrite Hp. intros [->|Hin]%elem_of_cons; [done|]. by apply (inv_live _ _ HI).
  - intros k. rewrite !elem_of_locking. simpl. setoid_rewrite elem_of_insert_sorted.
    intros [(m' & [->|Hm'] & <-)|Hk']; [by right|left; split; [left; by exists m'|done]|left; by auto].
Qed.

Lemma Inv_insert_deferred O m d' (st : S) :
  Inv O st → key m ∉ held_keys O (sch st) → live (wld st) (key m) → lockable (wld st) (key m) →
  is_u64 (cost m) → iset_elements d' = iset_elements (deferred_tx (sch st)) ++ [m] →
  Inv O (mk ((sch st) <| deferred_tx := d' |>) (wld st)).
Proof.
  intros HI Hk Hl Hlock Hm Hd.
  assert (held_keys O ((sch st) <| deferred_tx := d' |>) ≡ₚ key m :: held_keys O (sch st)) as Hp.
  { unfold held_keys, locking_keys. simpl. rewrite Hd, fmap_app. simpl. solve_Permutation. }
  destruct st as [s w]. eapply (Inv_change O s w); try done.
  - apply (inv_sorted _ _ HI).
  - apply (inv_bundles _ _ HI).
  - simpl. rewrite Hd, (assoc_L (++)), Forall_app, Forall_singleton.
    split; [|done]. apply (inv_waiting_costs _ _ HI).
  - apply (inv_bundle_costs _ _ HI).
  - rewrite Hp. apply NoDup_cons. split; [done|]. apply (inv_keys _ _ HI).
  - intros k. rewrite Hp. intros [->|Hin]%elem_of_cons; [done|]. by apply (inv_live _ _ HI).
  - intros k. rewrite !elem_of_locking. simpl. rewrite Hd. setoid_rewrite elem_of_app.
    setoid_rewrite list_elem_of_singleton.
    intros [Hk'|[(m' & [Hm'| ->] & <-)|Hk']]; [left; by auto| |by right|left; by auto].
    left. split; [right; left; by exists m'|done].
Qed.

(** ** Eviction of the lowest checked transaction *)

Lemma wp_evict_checked O id l' Q (st : S) :
  Inv O st → checked_tx (sch st) = id :: l' →
  (∀ st', Inv O st' → same_sched ((sch st) <| checked_tx := l' |>) (sch st') →
     (∀ k, k ≠ key id → w_transaction (wld st') k = w_transaction (wld st) k) → Q tt st') →
  wp benign (evict_checked id) Q (mk ((sch st) <| checked_tx := l' |>) (wld st)).
Proof.
  intros HI Hl HQ. pose proof (held_pop_first O id l' _ Hl) as Hp.
  pose proof (inv_keys _ _ HI) as Hnd. rewrite Hp in Hnd. apply NoDup_cons in Hnd as [Hk Hnd].
  pose proof (inv_sorted _ _ HI) as Hs. rewrite Hl in Hs. apply sorted_inv in Hs as [Hs _].
  unfold evict_checked. wp_step. apply wp_emit_tx_event.
  { simpl. apply (inv_live _ _ HI). rewrite Hp. by left. }
  intros st' [[stats Hst] Hw]. simpl in *. unfold drop_transaction. wp_step.
  apply HQ; simpl; [|by exists stats|].
  - destruct st as [s w], st' as [s' w']; simpl in *; subst s'.
    assert (∀ k, k ∈ held_keys O (s <| checked_tx := l' |>) →
      w_transaction (w_drop_transaction (key id) w') k = w_transaction w k) as Hkeep.
    { intros k Hin. rewrite drop_transaction_other; [by rewrite Hw|]. by intros <-. }
    pose proof (inv_waiting_costs _ _ HI) as Hwc. simpl in Hwc, Hl. rewrite Hl in Hwc.
    apply Forall_cons in Hwc as [_ Hwc].
    apply (Inv_change O s w); try done.
    + apply (inv_bundles _ _ HI).
    + apply (inv_bundle_costs _ _ HI).
    + intros k Hin. unfold live. change (k ∈ held_keys O (s <| checked_tx := l' |>)) in Hin.
      rewrite (Hkeep k Hin). apply (inv_live _ _ HI). simpl. rewrite Hp. by right.
    + intros k Hin. left. split; [|by apply Hkeep, locking_held].
      revert Hin. rewrite !elem_of_locking. simpl. rewrite Hl.
      intros [(m & Hm & <-)|Hin]; [left; exists m; split; [by right|done]|by right].
    + intros k Hin. apply Hkeep, locking_held, elem_of_locking. tauto.
  - intros k Hne. rewrite drop_transaction_other by congruence. by rewrite Hw.
Qed.

Lemma pending_len_pop id l' (s : Sched) :
  checked_tx s = id :: l' →
  pending_len (s <| checked_tx := l' |>) = pred (pending_len s).
Proof. intros Hl. unfold pending_len. simpl. rewrite Hl. simpl. lia. Qed.

(** ** [on_unprocessed] *)

(** The three steps that end an execution: the key leaves [executing_tx], the
    CUs leave the counter, the locks leave the table. *)
Lemma finished O O' i m t' (st : S) :
  Inv O st → O ≡ₚ (i, m) :: O' →
  represents t' ((outstanding_grants (wld st) O) ∖ grants_of (key m) (tx_locks (wld st) (key m))) →
  let st' := mk ((sch st) <| executing_tx ::= λ e, e ∖ {[key m]} |>
                          <| in_flight_cus := in_flight_cus (sch st) - cost m |>
                          <| in_flight_locks := t' |>) (wld st) in
  Inv O' st' ∧ (key m ∉ held_keys O' (sch st')) ∧ live (wld st') (key m) ∧ lockable (wld st') (key m).
Proof.
  intros HI HO Ht st'. destruct st as [s w].
  by apply (Inv_complete O O' i m s (sch st') w).
Qed.

Lemma on_unprocessed_ok O O' i m (st : S) :
  Inv O st → O ≡ₚ (i, m) :: O' →
  wp benign (on_unprocessed m) (λ d st',
    Inv O' st' ∧
    if decide (priority m = BUNDLE_MARKER)
    then d = Drop ∧ key m ∉ held_keys O' (sch st')
    else d = Keep ∧ m ∈ checked_tx (sch st')) st.
Proof.
  intros HI HO. assert ((i, m) ∈ O) as Hin by (rewrite HO; by left).
  unfold on_unprocessed. wp_step. apply wp_remove_executing. cbv beta.
  rewrite bool_decide_eq_true_2 by (by eapply executing_spec, elem_of_okeys).
  wp_step. eapply (wp_unlock_tx _ O i m); simpl;
    [apply (inv_locks _ _ HI) | by eapply outstanding_live | by eapply outstanding_lockable | done |].
  intros t' Ht. wp_steps. simpl.
  pose proof (outstanding_cost O O' i m st HI HO) as Hcost.
  eapply wp_of_res.
  { apply u64_sub_ok; [apply (inv_cus_u64 _ _ HI)|done]. }
  wp_steps. destruct (finished O O' i m t' st HI HO Ht) as (HI' & Hk & Hl & Hlock).
  destruct (decide _) as [->|Hne]; [rewrite Z.eqb_refl; wp_steps; by split_and!|].
  rewrite (proj2 (Z.eqb_neq _ _) Hne). wp_step.
  apply wp_emit_tx_event; [exact Hl|]. intros st1 Hq1. wp_step.
  apply wp_increment. intros st2 Hq2. wp_step. apply wp_bump. intros st3 Hq3.
  pose proof (transitivity (transitivity Hq1 Hq2) Hq3) as Hq.
  wp_step. apply wp_insert_checked. wp_steps. split; [|split; [done|]].
  - apply Inv_insert_checked; [by eapply quiet_inv| |by eapply quiet_live|by eapply quiet_lockable
      |apply (outstanding_cost_u64 O i m st HI Hin)].
    by rewrite (quiet_held O' _ _ Hq).
  - simpl. apply elem_of_insert_sorted. by left.
Qed.

(** C17: an execute request that comes back unprocessed gives back its locks
    and its CUs; a bundle's transaction is dropped, any other is put back
    into the checked set. No assertion fails. *)
Theorem on_unprocessed_inv O O' i m (st : S) :
  Inv O st → O ≡ₚ (i, m) :: O' →
  wp benign (on_unprocessed m) (λ d st',
    Inv O' st' ∧
    if decide (priority m = BUNDLE_MARKER)
    then d = Drop ∧ key m ∉ held_keys O' (sch st')
    else d = Keep ∧ m ∈ checked_tx (sch st')) st.
Proof. intros. eapply on_unprocessed_ok; eauto. Qed.

(** ** [on_execute] *)

(** The transaction goes to the next slot: it was tried on this one, and not
    for a lock conflict. *)
Definition deferred_by (rep : ExecutionResponse) (s : Sched) : bool :=
  (execution_slot rep =? slot s) && negb (not_included_reason rep =? ACCOUNT_IN_USE).

(** The eviction at the end of [on_execute]: at most one checked transaction,
    the lowest, goes when the pending ones are more than the capacity. *)
Definition evicted_one (s s' : Sched) : Prop :=
  checked_capacity s' = checked_capacity s ∧
  iset_elements (deferred_tx s') = iset_elements (deferred_tx s) ∧
  if decide (checked_capacity s < pending_len s)%nat
  then checked_tx s' = tail (checked_tx s)
  else checked_tx s' = checked_tx s.

Lemma wp_on_execute_evict O (st : S) (Q : unit → S → Prop) :
  Inv O st →
  (∀ st', Inv O st' → evicted_one (sch st) (sch st') → Q tt st') →
  wp benign (
    when (checked_capacity (sch st) <? pending_len (sch st))%nat (
      match btree_pop_first (checked_tx (sch st)) with
      | Some (evicted, l') =>
          update (λ s, s <| checked_tx := l' |>) ;;
          evict_checked evicted ;;
          increment m_execute_evict 1
      | None => mret tt
      end)) Q st.
Proof.
  intros HI HQ. apply wp_when; intros Hc.
  - apply Nat.ltb_lt in Hc. destruct (checked_tx (sch st)) as [|id l'] eqn:Hl; simpl.
    { wp_steps. apply HQ; [done|]. unfold evicted_one. rewrite decide_True by done. by rewrite Hl. }
    wp_steps. eapply (wp_evict_checked O id l'); [done..|].
    intros st1 HI1 [stats Hs] _. apply wp_increment. intros st2 Hq.
    apply HQ; [by eapply quiet_inv|]. destruct Hq as [[stats2 Hs2] _].
    unfold evicted_one. rewrite decide_True by done. rewrite Hs2, Hs, Hl. done.
  - apply Nat.ltb_ge in Hc. apply HQ; [done|]. unfold evicted_one.
    rewrite decide_False by lia. done.
Qed.

(** A retryable transaction goes to the deferred or to the checked ones. *)
Lemma wp_put_back O m (b : bool) (Q : unit → S → Prop) (st : S) :
  Inv O st → key m ∉ held_keys O (sch st) → live (wld st) (key m) → lockable (wld st) (key m) →
  is_u64 (cost m) →
  (∀ st', Inv O st' →
     (if b
      then iset_elements (deferred_tx (sch st')) = iset_elements (deferred_tx (sch st)) ++ [m] ∧
           checked_tx (sch st') = checked_tx (sch st)
      else deferred_tx (sch st') = deferred_tx (sch st) ∧
           checked_tx (sch st') = insert_sorted m (checked_tx (sch st))) → Q tt st') →
  wp benign
    (if b then
       let* d := self deferred_tx in
       let '(new, d') := iset_insert m d in
       update (λ s, s <| deferred_tx := d' |>) ;;
       assert "on_execute: deferred" new
     else
       let* new := insert_checked m in
       assert "on_execute: checked" new) Q st.
Proof.
  intros HI Hk Hl Hlock Hm HQ. destruct b.
  - wp_steps. destruct (iset_insert_new m (deferred_tx (sch st))) as (d' & -> & Hd').
    { by eapply not_held_deferred. }
    wp_steps. apply HQ; [|by split]. by apply (Inv_insert_deferred O m).
  - wp_step. apply wp_insert_checked.
    assert (btree_contains m (checked_tx (sch st)) = false) as ->.
    { apply btree_contains_false. by eapply not_held_checked. }
    simpl. apply HQ; [|by split]. by apply (Inv_insert_checked O m).
Qed.

(** The metrics of an execution's end. *)
Lemma wp_settle O m (b : bool) a1 a2 (Q : TransactionAction → S → Prop) (st : S) :
  Inv O st → key m ∉ held_keys O (sch st) → live (wld st) (key m) → lockable (wld st) (key m) →
  (∀ a st', Inv O st' → key m ∉ held_keys O (sch st') → live (wld st') (key m) →
     lockable (wld st') (key m) →
     same_sched (sch st) (sch st') → Q a st') →
  wp benign (if b then bump execute_ok 1 ;; increment m_execute_ok 1 ;; mret a1
             else bump execute_err 1 ;; increment m_execute_err 1 ;; mret a2) Q st.
Proof.
  intros HI Hk Hl Hlock HQ.
  assert (∀ a st', quiet st st' → Q a st') as HQ'.
  { intros a st' Hq.
    apply HQ; [by eapply quiet_inv| |by eapply quiet_live|by eapply quiet_lockable|apply Hq].
    by rewrite (quiet_held O _ _ Hq). }
  destruct b; wp_step; apply wp_bump; intros st1 H1'; wp_step; apply wp_increment;
    intros st2 H2'; wp_steps; apply HQ'; by etransitivity.
Qed.

Lemma on_execute_ok O O' i m rep (st : S) :
  Inv O st → O ≡ₚ (i, m) :: O' →
  wp benign (on_execute m rep) (λ d st',
    Inv O' st' ∧
    if decide (priority m = BUNDLE_MARKER ∨ is_retryable (not_included_reason rep) = false)
    then d = Drop ∧ key m ∉ held_keys O' (sch st')
    else d = Keep ∧ ∃ s1 : Sched,
      (if deferred_by rep (sch st)
       then iset_elements (deferred_tx s1) = iset_elements (deferred_tx (sch st)) ++ [m] ∧
            checked_tx s1 = checked_tx (sch st)
       else deferred_tx s1 = deferred_tx (sch st) ∧
            checked_tx s1 = insert_sorted m (checked_tx (sch st))) ∧
      evicted_one s1 (sch st')) st.
Proof.
  intros HI HO. assert ((i, m) ∈ O) as Hin by (rewrite HO; by left).
  pose proof (outstanding_cost O O' i m st HI HO) as Hcost.
  unfold on_execute. wp_step. apply wp_remove_executing. cbv beta.
  rewrite bool_decide_eq_true_2 by (by eapply executing_spec, elem_of_okeys).
  wp_step. apply wp_assert; [done|intros _]. wp_steps. simpl.
  eapply wp_of_res.
  { apply u64_sub_ok; [apply (inv_cus_u64 _ _ HI)|done]. }
  wp_steps. simpl. eapply (wp_unlock_tx _ O i m); simpl;
    [apply (inv_locks _ _ HI) | by eapply outstanding_live | by eapply outstanding_lockable | done |].
  intros t' Ht. destruct (finished O O' i m t' st HI HO Ht) as (HI' & Hk & Hl & Hlock).
  wp_step. eapply (wp_settle O'); [exact HI'|exact Hk|exact Hl|exact Hlock|].
  intros a st1 HI1 Hk1 Hl1 Hlock1 [stats Hs1]. cbv beta. wp_step. apply wp_emit_tx_event; [done|].
  intros st2 Hq. pose proof (quiet_inv O' _ _ Hq HI1) as HI2.
  rewrite <- (quiet_held O' _ _ Hq) in Hk1. apply (quiet_live _ _ _ Hq) in Hl1.
  apply (quiet_lockable _ _ _ Hq) in Hlock1.
  destruct Hq as [[stats2 Hs2] _]. rewrite Hs1 in Hs2. clear st1 HI1 Hs1.
  destruct (decide _) as [Hd|Hd].
  - replace (_ || _) with true; [by wp_steps|]. symmetry.
    apply orb_true_iff. rewrite Z.eqb_eq, negb_true_iff. done.
  - replace (_ || _) with false; last first.
    { symmetry. apply orb_false_iff. rewrite Z.eqb_neq, negb_false_iff.
      destruct (is_retryable _); tauto. }
    wp_steps. apply (wp_put_back O' m); [done..|apply (outstanding_cost_u64 O i m st HI Hin)|].
    replace (_ && _) with (deferred_by rep (sch st)) by (unfold deferred_by; by rewrite Hs2).
    intros st3 HI3 Hst3. cbv beta. wp_steps. apply (wp_on_execute_evict O' st3); [done|].
    intros st4 HI4 Hev. wp_steps. split; [done|]. split; [done|].
    exists (sch st3). rewrite Hs2 in Hst3. done.
Qed.

(** C15: an execution that is over gives back its locks and its CUs. A bundle,
    or a transaction that is not retryable, is dropped; a transaction tried
    on this slot waits for the next one unless it lost to a lock, which it
    may retry at once; then the lowest checked transaction goes if there are
    too many. No assertion fails. *)
Theorem on_execute_inv O O' i m rep (st : S) :
  Inv O st → O ≡ₚ (i, m) :: O' →
  wp benign (on_execute m rep) (λ d st',
    Inv O' st' ∧
    if decide (priority m = BUNDLE_MARKER ∨ is_retryable (not_included_reason rep) = false)
    then d = Drop ∧ key m ∉ held_keys O' (sch st')
    else d = Keep ∧ ∃ s1 : Sched,
      (if deferred_by rep (sch st)
       then iset_elements (deferred_tx s1) = iset_elements (deferred_tx (sch st)) ++ [m] ∧
            checked_tx s1 = checked_tx (sch st)
       else deferred_tx s1 = deferred_tx (sch st) ∧
            checked_tx s1 = insert_sorted m (checked_tx (sch st))) ∧
      evicted_one s1 (sch st')) st.
Proof. intros. eapply on_execute_ok; eauto. Qed.

(** ** [on_check] *)

(** A response names at most one failure, and without one the worker did
    what the request asked for. *)
Definition well_formed_check (rep : CheckResponse) : Prop :=
  match check_failures rep with
  | (true, false, false) | (false, true, false) | (false, false, true) => True
  | (false, false, false) =>
      fee_payer_balance_flags rep = Z.lor fee_payer_REQUESTED fee_payer_PERFORMED ∧
      resolve_flags rep = Z.lor resolve_REQUESTED resolve_PERFORMED ∧
      has_flag (status_check_flags rep) status_REQUESTED = true ∧
      has_flag (status_check_flags rep) status_PERFORMED = true
  | _ => False
  end.

Definition check_failed (rep : CheckResponse) : bool :=
  let '(p, r, s) := check_failures rep in p || r || s.

(** A check response is for a transaction that executes or waits, for a
    recheck, or for a transaction the scheduler does not hold yet. *)
Definition check_ignored (m : PriorityId) (s : Sched) : bool :=
  bool_decide (key m ∈ executing_tx s) || iset_contains m (deferred_tx s).

Definition resolves_filtered (keys : option (list Pubkey)) (s : Sched) : bool :=
  existsb (λ k, bool_decide (k ∈ filter_keys s)) (default [] keys).

Lemma Inv_remove_checked O m (st : S) :
  Inv O st → Inv O (mk ((sch st) <| checked_tx ::= remove_sorted m |>) (wld st)).
Proof.
  intros HI. destruct st as [s w]. pose proof (remove_sorted_sublist m (checked_tx s)) as Hsub.
  assert (held_keys O (s <| checked_tx ::= remove_sorted m |>) `sublist_of` held_keys O s) as Hheld.
  { unfold held_keys, locking_keys. simpl. apply sublist_app; [done|]. apply sublist_app; [|done].
    by apply sublist_fmap. }
  eapply (Inv_change O s w); try done.
  - apply remove_sorted_sorted, (inv_sorted _ _ HI).
  - apply (inv_bundles _ _ HI).
  - pose proof (inv_waiting_costs _ _ HI) as Hwc. simpl in Hwc |- *.
    rewrite Forall_app in Hwc |- *. split; [|apply Hwc].
    eapply Forall_sublist_of; [apply Hsub|apply Hwc].
  - apply (inv_bundle_costs _ _ HI).
  - eapply sublist_NoDup; [apply (inv_keys _ _ HI)|done].
  - intros k Hk. apply (inv_live _ _ HI). by eapply elem_of_sublist.
  - intros k. rewrite !elem_of_locking. simpl. intros [(m' & Hm & <-)|Hk]; left; split; try done.
    + left. exists m'. split; [by eapply elem_of_sublist|done].
    + by right.
Qed.

Lemma held_remove_checked O m (st : S) :
  Inv O st → m ∈ checked_tx (sch st) ∨ key m ∉ held_keys O (sch st) →
  key m ∉ held_keys O ((sch st) <| checked_tx ::= remove_sorted m |>).
Proof.
  intros HI [Hm|Hk].
  - pose proof (inv_keys _ _ HI) as Hnd.
    assert (held_keys O (sch st) ≡ₚ key m :: held_keys O ((sch st) <| checked_tx ::= remove_sorted m |>)) as Hp.
    { unfold held_keys, locking_keys. simpl. rewrite (remove_sorted_Permutation m _ Hm) at 1. solve_Permutation. }
    rewrite Hp in Hnd. by apply NoDup_cons in Hnd as [? _].
  - intros Hin. apply Hk. eapply elem_of_sublist; [done|]. unfold held_keys, locking_keys. simpl.
    apply sublist_app; [done|]. apply sublist_app; [|done].
    apply sublist_fmap, remove_sorted_sublist.
Qed.

(** The failure the response names is reported, and the transaction removed. *)
Lemma wp_check_failed O m (p r s : bool) (Q : TxDecision → S → Prop) (st : S) :
  Inv O st → live (wld st) (key m) →
  (p, r, s) ∈ [(true, false, false); (false, true, false); (false, false, true)] →
  (∀ st', Inv O st' → same_sched ((sch st) <| checked_tx ::= remove_sorted m |>) (sch st') →
     Q Drop st') →
  wp benign (
    let* reason :=
      match p, r, s with
      | true, false, false => mret ParseOrSanitize
      | false, true, false => mret AccountResolution
      | false, false, true => mret StatusCheck
      | _, _, _ => panic (PUnreachable "on_check: reason")
      end in
    emit_tx_event (key m) (priority m) (CheckErr reason) ;;
    increment m_check_err 1 ;;
    bump check_err 1 ;;
    update (λ s, s <| checked_tx ::= λ l, (btree_remove m l).2 |>) ;;
    mret Drop) Q st.
Proof.
  intros HI Hl Hwf HQ. wp_step.
  assert (∀ reason, wp benign (
    emit_tx_event (key m) (priority m) (CheckErr reason) ;;
    increment m_check_err 1 ;;
    bump check_err 1 ;;
    update (λ s, s <| checked_tx ::= λ l, (btree_remove m l).2 |>) ;;
    mret Drop) Q st) as Hrest.
  { intros reason. wp_step. apply wp_emit_tx_event; [done|]. intros st1 H1'.
    wp_step. apply wp_increment. intros st2 H2'. wp_step. apply wp_bump. intros st3 H3'.
    pose proof (transitivity (transitivity H1' H2') H3') as Hq. wp_steps.
    apply HQ.
    - apply (Inv_remove_checked O m st3). by eapply quiet_inv.
    - destruct Hq as [[stats Hs] _]. rewrite Hs. by exists stats. }
  rewrite !elem_of_cons, elem_of_nil in Hwf.
  destruct Hwf as [[= -> -> ->]|[[= -> -> ->]|[[= -> -> ->]|[]]]]; apply wp_ret, Hrest.
Qed.

(** Two metrics and a decision. *)
Lemma wp_count (mt : Metric) (field : SlotStatsEvent → Z) `{!Setter field} d
    (Q : TxDecision → S → Prop) (st : S) :
  (∀ st', quiet st st' → Q d st') →
  wp benign (increment mt 1 ;; bump field 1 ;; mret d) Q st.
Proof.
  intros HQ. wp_step. apply wp_increment. intros st1 H1'. wp_step. apply wp_bump.
  intros st2 H2'. wp_steps. apply HQ. by etransitivity.
Qed.

(** Making room for a first check. *)
Lemma wp_check_evict O m (Q : unit → S → Prop) (st : S) :
  Inv O st → key m ∉ held_keys O (sch st) → live (wld st) (key m) → lockable (wld st) (key m) →
  (checked_tx (sch st) = [] → (pending_len (sch st) < checked_capacity (sch st))%nat) →
  (∀ st', Inv O st' → (key m ∉ held_keys O (sch st')) → live (wld st') (key m) →
     lockable (wld st') (key m) → checked_tx (sch st') =
       (if decide (checked_capacity (sch st) ≤ pending_len (sch st))%nat
        then tail (checked_tx (sch st)) else checked_tx (sch st)) → Q tt st') →
  wp benign (
    when (checked_capacity (sch st) <=? pending_len (sch st))%nat (
      let* ' (id, l') := unwrap "on_check: pop_first" (btree_pop_first (checked_tx (sch st))) in
      update (λ s, s <| checked_tx := l' |>) ;;
      evict_checked id ;;
      increment m_check_evict 1 ;;
      bump check_evict 1)) Q st.
Proof.
  intros HI Hk Hl Hlock Hcap HQ. apply wp_when; intros Hc.
  - apply Nat.leb_le in Hc. rewrite decide_True in HQ by done.
    destruct (checked_tx (sch st)) as [|id l'] eqn:Hc'; [specialize (Hcap eq_refl); lia|].
    simpl. wp_steps. pose proof (held_pop_first O id l' _ Hc') as Hp.
    eapply (wp_evict_checked O id l'); [done..|]. intros st1 HI1 [stats Hs] Hw.
    wp_step. apply wp_increment. intros st2 Hq1. apply wp_bump. intros st3 Hq2.
    pose proof (transitivity Hq1 Hq2) as Hq. apply HQ.
    + by eapply quiet_inv.
    + rewrite (quiet_held O _ _ Hq), Hs. intros Hin. apply Hk. rewrite Hp. by right.
    + eapply quiet_live; [done|]. unfold live. rewrite Hw; [done|].
      intros Heq. apply Hk. rewrite Hp, Heq. by left.
    + eapply quiet_lockable; [done|]. unfold lockable, tx_locks. rewrite Hw; [done|].
      intros Heq. apply Hk. rewrite Hp, Heq. by left.
    + destruct Hq as [[stats2 Hs2] _]. by rewrite Hs2, Hs.
  - apply Nat.leb_gt in Hc. rewrite decide_False in HQ by lia. by apply HQ.
Qed.

Lemma on_check_ok O m rep resolved (st : S) :
  Inv O st →
  live (wld st) (key m) →
  is_u64 (cost m) →
  well_formed_check rep →
  (check_failed rep = false → lockable (wld st) (key m)) →
  m ∈ checked_tx (sch st) ∨ key m ∉ held_keys O (sch st) ∨ check_ignored m (sch st) = true →
  (checked_tx (sch st) = [] → (pending_len (sch st) < checked_capacity (sch st))%nat) →
  wp benign (on_check m rep resolved) (λ d st',
    Inv O st' ∧
    if check_ignored m (sch st) then d = Keep ∧ st' = st
    else if check_failed rep then
      d = Drop ∧ (key m ∉ held_keys O (sch st')) ∧
      checked_tx (sch st') = remove_sorted m (checked_tx (sch st))
    else if btree_contains m (checked_tx (sch st)) then
      d = Keep ∧ same_sched (sch st) (sch st')
    else if resolves_filtered resolved (sch st) then
      d = Drop ∧ same_sched (sch st) (sch st')
    else
      d = Keep ∧ checked_tx (sch st') = insert_sorted m
        (if decide (checked_capacity (sch st) ≤ pending_len (sch st))%nat
         then tail (checked_tx (sch st)) else checked_tx (sch st))) st.
Proof.
  intros HI Hl Hcost Hwf Hlock Hm Hcap. unfold on_check. wp_steps.
  fold (check_ignored m (sch st)). destruct (check_ignored m (sch st)) eqn:Hig; [by wp_steps|].
  assert (m ∈ checked_tx (sch st) ∨ key m ∉ held_keys O (sch st)) as Hm' by naive_solver.
  unfold well_formed_check, check_failed in *.
  destruct (check_failures rep) as [[p r] s]. cbv beta iota in *. destruct (p || r || s) eqn:Hf.
  { eapply (wp_check_failed O m); [done..| |].
    { destruct p, r, s; try done; set_solver. }
    intros st' HI' [stats Hs]. split; [done|]. split; [done|]. rewrite Hs. split; [|done].
    by apply held_remove_checked. }
  specialize (Hlock eq_refl). destruct p, r, s; try done. destruct Hwf as (-> & -> & Hf1 & Hf2).
  rewrite !Z.eqb_refl, Hf1, Hf2. do 4 (wp_step; apply wp_assert; [done|intros _]).
  destruct (btree_contains m (checked_tx (sch st))) eqn:Hin.
  { apply wp_count. intros st' Hq. split; [by eapply quiet_inv|]. split; [done|apply Hq]. }
  fold (resolves_filtered resolved (sch st)).
  destruct (resolves_filtered resolved (sch st)).
  { apply wp_count. intros st' Hq. split; [by eapply quiet_inv|]. split; [done|apply Hq]. }
  apply btree_contains_false in Hin. destruct Hm' as [|Hk]; [done|].
  wp_step. eapply (wp_check_evict O m); [done..|]. intros st1 HI1 Hk1 Hl1 Hlock1 Hc1.
  wp_step. apply wp_insert_checked.
  pose proof (Inv_insert_checked O m st1 HI1 Hk1 Hl1 Hlock1 Hcost) as HI2. set (st2 := mk _ _) in HI2 |- *.
  wp_step. apply wp_emit_tx_event; [done|]. intros st3 Hq. apply wp_count. intros st4 Hq'.
  pose proof (transitivity Hq Hq') as Hq4. split; [by eapply quiet_inv|]. split; [done|].
  destruct Hq4 as [[stats Hs] _]. rewrite Hs. unfold st2. simpl. by rewrite Hc1.
Qed.

(** C18: the decision table of a check response. A response for a transaction
    that executes or is deferred changes nothing. A failed check drops the
    transaction and takes it out of the checked ones. A successful recheck
    changes nothing; a first check drops the transaction if its resolved
    accounts are filtered, and else adds it to the checked ones, after the
    lowest of them has made room when the pending ones fill the capacity. No
    assertion fails, provided the lowest exists. *)
Theorem on_check_inv O m rep resolved (st : S) :
  Inv O st →
  live (wld st) (key m) →
  is_u64 (cost m) →
  well_formed_check rep →
  (check_failed rep = false → lockable (wld st) (key m)) →
  m ∈ checked_tx (sch st) ∨ key m ∉ held_keys O (sch st) ∨ check_ignored m (sch st) = true →
  (checked_tx (sch st) = [] → (pending_len (sch st) < checked_capacity (sch st))%nat) →
  wp benign (on_check m rep resolved) (λ d st',
    Inv O st' ∧
    if check_ignored m (sch st) then d = Keep ∧ st' = st
    else if check_failed rep then
      d = Drop ∧ (key m ∉ held_keys O (sch st')) ∧
      checked_tx (sch st') = remove_sorted m (checked_tx (sch st))
    else if btree_contains m (checked_tx (sch st)) then
      d = Keep ∧ same_sched (sch st) (sch st')
    else if resolves_filtered resolved (sch st) then
      d = Drop ∧ same_sched (sch st) (sch st')
    else
      d = Keep ∧ checked_tx (sch st') = insert_sorted m
        (if decide (checked_capacity (sch st) ≤ pending_len (sch st))%nat
         then tail (checked_tx (sch st)) else checked_tx (sch st))) st.
Proof. intros. eapply on_check_ok; eauto. Qed.
End Handlers.
