(* ===== verification/BatchExecute.v ===== *)
(** * The batch scheduler starts executions within locks and budget

    [schedule_execute] and what it calls, against the invariant of
    [BatchInvariant]: what it sends to a worker conflicts with nothing that is
    in flight, the CU counter follows, and the block's share is never
    exceeded. *)

From S2P Require Import Prelude BTreeSet Types Events Externals LockTable TipProgram Costs.
From S2P Require Import Common Outstanding BatchScheduler BatchInvariant BatchHandlers.

Section Execute.
Context `{Profile} `{AgaveBindings} `{World W} `{!WorldLaws} {Heap DSet : Type}
  `{MinMaxHeap Heap PriorityId} `{!MinMaxHeapLaws Heap PriorityId}
  `{IndexSet DSet PriorityId} `{!IndexSetLaws DSet PriorityId}.
Abbreviation Sched := (BatchScheduler Heap DSet).
Abbreviation S := (St Sched W).

(** ** New executions *)

(** The entries of the batch [i]. *)
Definition entries (i : nat) (ms : list PriorityId) : list (nat * PriorityId) :=
  (λ m, (i, m)) <$> ms.

Definition total_cost (ms : list PriorityId) : Z := foldr (λ m c, cost m + c) 0 ms.

Definition fresh_batch (i : nat) (O : list (nat * PriorityId)) : Prop :=
  ∀ j m, (j, m) ∈ O → j ≠ i.

Lemma okeys_entries i ms O : okeys (entries i ms ++ O) = (key <$> ms) ++ okeys O.
Proof. unfold okeys, entries. by rewrite fmap_app, <- list_fmap_compose. Qed.

Lemma sum_costs_entries i ms O : sum_costs (entries i ms ++ O) = total_cost ms + sum_costs O.
Proof.
  induction ms as [|m ms IH]; [done|].
  change (cost m + sum_costs (entries i ms ++ O) = cost m + total_cost ms + sum_costs O). lia.
Qed.

Lemma elem_of_entries i ms j m : (j, m) ∈ entries i ms ↔ j = i ∧ m ∈ ms.
Proof. unfold entries. rewrite list_elem_of_fmap. naive_solver. Qed.

Lemma Inv_begin O i ms s w s' w' :
  Inv O (mk s w) → fresh_batch i O →
  sorted (checked_tx s') → sorted (bundles s') →
  Forall (λ m, is_u64 (cost m)) (checked_tx s' ++ iset_elements (deferred_tx s')) →
  Forall (λ b, is_u64 (b_cost b) ∧ keys b ≠ []) (bundles s') →
  Forall (λ m, is_u64 (cost m)) ms →
  executing_tx s' = list_to_set ((key <$> ms) ++ okeys O) →
  in_flight_cus s' = total_cost ms + in_flight_cus s → is_u64 (in_flight_cus s') →
  represents (in_flight_locks s') (outstanding_grants w' (entries i ms ++ O)) →
  (∀ m, m ∈ ms → compatible (outstanding_grants w O) (tx_locks w' (key m))) →
  NoDup (held_keys (entries i ms ++ O) s') →
  (∀ k, k ∈ held_keys (entries i ms ++ O) s' → live w' k) →
  (∀ k, k ∈ locking_keys (entries i ms ++ O) s' → lockable w' k) →
  (∀ k, k ∈ okeys O → w_transaction w' k = w_transaction w k) →
  Inv (entries i ms ++ O) (mk s' w').
Proof.
  intros HI Hi Hc Hb Hwc Hbc Hms He Hcus Hu Hlk Hcomp Hnd Hlive Hlockable Hw.
  assert (∀ k, k ∈ okeys O → tx_locks w' k = tx_locks w k) as Hl.
  { intros k Hk. unfold tx_locks. by rewrite Hw. }
  assert (∀ m j m' addr b b', m ∈ ms → (j, m') ∈ O → (addr, b) ∈ tx_locks w' (key m) →
    (addr, b') ∈ tx_locks w' (key m') → b = false ∧ b' = false) as Hnew.
  { intros m j m' addr b b' Hm Hm' Hb1 Hb2. rewrite Hl in Hb2 by (by eapply elem_of_okeys).
    eapply (Hcomp m Hm); [done|]. apply elem_of_outstanding_grants.
    split; [by eapply elem_of_okeys|done]. }
  split; simpl; try done.
  - by rewrite okeys_entries.
  - rewrite sum_costs_entries, Hcus. f_equal. apply (inv_cus _ _ HI).
  - apply Forall_app. split; [|apply (inv_costs _ _ HI)].
    unfold entries. by apply Forall_fmap.
  - intros j m j' m'. rewrite !elem_of_app, !elem_of_entries.
    intros [[-> Hm]|Hm] [[-> Hm']|Hm'] Hne addr b b' Hb1 Hb2; [done| | |].
    + by eapply (Hnew m).
    + apply and_comm. by eapply (Hnew m').
    + rewrite Hl in Hb1, Hb2 by (by eapply elem_of_okeys).
      by eapply (inv_compatible _ _ HI j m j' m').
Qed.

(** ** Taking locks *)

Lemma wp_can_lock_tx E k G Q (st : S) :
  represents (in_flight_locks (sch st)) G → live (wld st) k →
  (∀ b, b = true ↔ compatible G (tx_locks (wld st) k) → Q b st) →
  wp E (can_lock_tx k) Q st.
Proof.
  intros Hrep (tx & Htx & _) HQ. unfold can_lock_tx. wp_step.
  apply (wp_transaction _ _ tx); [done|]. wp_steps. apply HQ.
  unfold tx_locks. rewrite Htx. by apply can_lock_spec.
Qed.

Lemma wp_lock_tx E k G Q (st : S) :
  represents (in_flight_locks (sch st)) G → live (wld st) k → lockable (wld st) k →
  (∀ addr b, (addr, k, b) ∉ G) →
  (∀ t', represents t' (grants_of k (tx_locks (wld st) k) ∪ G) →
    Q tt (mk ((sch st) <| in_flight_locks := t' |>) (wld st))) →
  wp E (lock_tx k) Q st.
Proof.
  intros Hrep (tx & Htx & _) Hnd Hk HQ. unfold lock_tx. wp_step.
  apply (wp_transaction _ _ tx); [done|]. wp_steps.
  unfold lockable, tx_locks in *. rewrite Htx in *.
  destruct (lock_spec k (locks tx) _ _ Hrep Hnd) as (t' & Ht & Hrep'); [done|].
  apply (wp_of_res _ _ t'); [done|]. wp_steps. by apply HQ.
Qed.

(** The grants of a list of transactions, in any order. *)
Definition grants_keys (w : W) (ks : list TransactionKey) : Grants :=
  ⋃ ((λ k, grants_of k (tx_locks w k)) <$> ks).

Lemma outstanding_grants_keys w O : outstanding_grants w O = grants_keys w (okeys O).
Proof. unfold outstanding_grants, grants_keys, okeys. by rewrite <- list_fmap_compose. Qed.

Lemma elem_of_grants_keys w ks addr k b :
  (addr, k, b) ∈ grants_keys w ks ↔ k ∈ ks ∧ (addr, b) ∈ tx_locks w k.
Proof.
  unfold grants_keys. rewrite elem_of_union_list. setoid_rewrite list_elem_of_fmap. split.
  - intros (X & (k' & -> & Hk) & Hg). by apply elem_of_grants_of in Hg as [-> ?].
  - intros [Hk Hb]. eexists; split; [by exists k|]. by apply elem_of_grants_of.
Qed.

Lemma grants_keys_Permutation w ks ks' : ks ≡ₚ ks' → grants_keys w ks = grants_keys w ks'.
Proof.
  intros Hp. apply set_eq. intros [[a k] b]. by rewrite !elem_of_grants_keys, Hp.
Qed.

Lemma grants_keys_transaction w w' ks :
  w_transaction w' = w_transaction w → grants_keys w' ks = grants_keys w ks.
Proof. intros Hw. unfold grants_keys, tx_locks. by rewrite Hw. Qed.

(** [lock] over several transactions that hold nothing yet. *)
Lemma wp_lock_all E ks ks0 (Q : unit → S → Prop) (st : S) :
  represents (in_flight_locks (sch st)) (grants_keys (wld st) ks0) →
  NoDup (ks ++ ks0) → (∀ k, k ∈ ks → live (wld st) k ∧ lockable (wld st) k) →
  (∀ t', represents t' (grants_keys (wld st) (ks ++ ks0)) →
    Q tt (mk ((sch st) <| in_flight_locks := t' |>) (wld st))) →
  wp E (for_each ks lock_tx) Q st.
Proof.
  intros Hrep Hnd Hlive HQ. eapply wp_mono.
  - apply (wp_for_each _ _ _ (λ l st', ∃ t' done, ks = done ++ l ∧
      st' = mk ((sch st) <| in_flight_locks := t' |>) (wld st) ∧
      represents t' (grants_keys (wld st) (done ++ ks0)))).
    { exists (in_flight_locks (sch st)), []. split_and!; [done|by destruct st as [[]]|done]. }
    intros k l s (t' & d & -> & -> & Hrep').
    assert (k ∉ d ++ ks0) as Hk.
    { rewrite <- (assoc_L (++)) in Hnd. simpl in Hnd. rewrite <- Permutation_middle in Hnd.
      apply NoDup_cons in Hnd as [Hk _]. intros Hin. apply Hk. rewrite !elem_of_app in *. tauto. }
    apply (wp_lock_tx _ _ (grants_keys (wld st) (d ++ ks0))); simpl; [done| | | |].
    + apply Hlive. rewrite elem_of_app. right; by left.
    + apply Hlive. rewrite elem_of_app. right; by left.
    + intros addr b. rewrite elem_of_grants_keys. tauto.
    + intros t2 Hrep2. exists t2, (d ++ [k]). split_and!; [by rewrite <- (assoc_L (++))|done|].
      rewrite (grants_keys_Permutation _ _ (k :: d ++ ks0)); [done|].
      solve_Permutation.
  - intros [] s (t' & d & Hd & -> & Hrep'). rewrite app_nil_r in Hd. subst. by apply HQ.
Qed.

(** ** One transaction *)

(** The batch [ms] has been sent, its transactions are not declared yet. *)
Definition declared (ms : list PriorityId) (st : S) : S :=
  mk ((sch st) <| executing_tx ::= union (list_to_set (key <$> ms)) |>) (wld st).

Definition keyed (ms : list PriorityId) : list KeyedTransactionMeta :=
  (λ m, {| km_key := key m; km_meta := m |}) <$> ms.

(** What an attempt to schedule [ms] leaves behind: nothing changed, or the
    batch was sent, its locks and CUs are taken, and the budget is less by
    its cost. *)
Definition attempted O i (ms : list PriorityId) budget (st : S) budget' (st' : S) : Prop :=
  (budget' = budget ∧ st' = st ∧
    (budget < total_cost ms ∨
     ∃ m, m ∈ ms ∧ ¬ compatible (outstanding_grants (wld st) O) (tx_locks (wld st) (key m)))) ∨
  (0 ≤ total_cost ms ≤ budget ∧ budget' = budget - total_cost ms ∧
   executing_tx (sch st') = executing_tx (sch st) ∧
   schedule_batch (sch st') = keyed ms ∧
   in_flight_cus (sch st') = in_flight_cus (sch st) + total_cost ms ∧
   Inv (entries i ms ++ O) (declared ms st')).

Lemma removelast_held O m (s : Sched) :
  btree_last (checked_tx s) = Some m →
  held_keys O s ≡ₚ key m :: held_keys O (s <| checked_tx := removelast (checked_tx s) |>).
Proof.
  intros Hl%removelast_last. unfold held_keys, locking_keys. simpl. rewrite Hl at 1.
  rewrite fmap_app. simpl. solve_Permutation.
Qed.

Lemma held_entries O i ms s :
  held_keys (entries i ms ++ O) s ≡ₚ (key <$> ms) ++ held_keys O s.
Proof. unfold held_keys, locking_keys. rewrite okeys_entries. solve_Permutation. Qed.

Lemma live_transaction (w w' : W) k : w_transaction w' = w_transaction w → live w k → live w' k.
Proof. intros Hw. unfold live. by rewrite Hw. Qed.

(** The state after a batch was sent, its transactions declared. *)
Lemma Inv_sent O i ms s s' w w' :
  Inv O (mk s w) → fresh_batch i O → w_transaction w' = w_transaction w →
  sorted (checked_tx s') → sorted (bundles s') →
  checked_tx s' `sublist_of` checked_tx s → bundles s' `sublist_of` bundles s →
  deferred_tx s' = deferred_tx s → executing_tx s' = executing_tx s →
  held_keys O s ≡ₚ (key <$> ms) ++ held_keys O s' →
  (∀ k, k ∈ (key <$> ms) ++ locking_keys O s' → k ∈ locking_keys O s) →
  Forall (λ m, is_u64 (cost m)) ms →
  in_flight_cus s' = in_flight_cus s + total_cost ms → is_u64 (in_flight_cus s') →
  represents (in_flight_locks s') (grants_keys w ((key <$> ms) ++ okeys O)) →
  (∀ m, m ∈ ms → compatible (outstanding_grants w O) (tx_locks w (key m))) →
  Inv (entries i ms ++ O) (declared ms (mk s' w')).
Proof.
  intros HI Hi Hw Hc Hb Hcs Hbs Hd He Hp Hlp Hms Hcus Hu Hlk Hcomp.
  assert (∀ k, tx_locks w' k = tx_locks w k) as Hl by (intros; unfold tx_locks; by rewrite Hw).
  eapply Inv_begin; simpl; try done.
  - rewrite Hd. pose proof (inv_waiting_costs _ _ HI) as Hwc.
    rewrite Forall_app in Hwc |- *. split; [|apply Hwc]. eapply Forall_sublist_of; [done|apply Hwc].
  - eapply Forall_sublist_of; [done|]. apply (inv_bundle_costs _ _ HI).
  - rewrite He. pose proof (inv_executing _ _ HI) as Hex. simpl in Hex. rewrite Hex.
    by rewrite list_to_set_app_L.
  - rewrite Hcus. lia.
  - rewrite outstanding_grants_keys, okeys_entries. by rewrite (grants_keys_transaction w w').
  - intros m Hm. rewrite Hl. by apply Hcomp.
  - rewrite held_entries. change (NoDup ((key <$> ms) ++ held_keys O s')). rewrite <- Hp.
    apply (inv_keys _ _ HI).
  - intros k. rewrite held_entries. change (k ∈ (key <$> ms) ++ held_keys O s' → live w' k).
    rewrite <- Hp. intros Hk. eapply live_transaction; [done|]. by apply (inv_live _ _ HI).
  - intros k. unfold locking_keys. rewrite okeys_entries. intros Hk.
    unfold lockable. rewrite Hl. apply (inv_lockable _ _ HI), Hlp. revert Hk.
    unfold locking_keys. simpl. rewrite !elem_of_app. tauto.
  - intros k _. by rewrite Hw.
Qed.

(** Sending a batch and charging its cost, common to both kinds. *)
Lemma wp_send batch worker flags c budget (rest : Z → M S Z) Q (st : S) :
  is_u64 budget → 0 ≤ c ≤ budget → 0 ≤ in_flight_cus (sch st) →
  in_flight_cus (sch st) + budget ≤ U64_MAX →
  (∀ w', w_transaction w' = w_transaction (wld st) →
     wp benign (rest (budget - c)) Q
       (mk ((sch st) <| in_flight_cus := in_flight_cus (sch st) + c |>) w')) →
  wp benign (
    let* p := bridge w_progress in
    let* max_slot := of_res (u64_add "current_slot + 1" (current_slot p) 1) in
    schedule {| sb_worker := worker; sb_transactions := batch;
                sb_max_working_slot := max_slot; sb_flags := flags |} ;;
    let* budget' := of_res (u64_sub "budget" budget c) in
    let* cus := self in_flight_cus in
    let* cus' := of_res (u64_add "in_flight_cus" cus c) in
    update (λ s, s <| in_flight_cus := cus' |>) ;;
    rest budget') Q st.
Proof.
  intros Hb Hc Hi Hsum HQ. wp_steps.
  apply wp_of_res_cases; [intros max_slot _ | | apply checked_result_no_hang]; last first.
  { intros p. apply benign_overflow. unfold benign. set_solver. }
  wp_step. apply wp_schedule; [unfold benign; set_solver|]. intros w' Hw'. wp_step.
  eapply wp_of_res; [apply u64_sub_ok; [done|lia]|]. wp_steps. simpl.
  eapply wp_of_res; [apply u64_add_ok; lia|]. wp_steps.
  apply HQ. by eapply schedule_transaction.
Qed.

Lemma held_not_executing O ks (s : Sched) :
  NoDup (held_keys O s) → (∃ l, held_keys O s ≡ₚ ks ++ held_keys O l) → NoDup (ks ++ okeys O).
Proof.
  intros Hnd [l Hp]. rewrite Hp in Hnd. eapply sublist_NoDup; [exact Hnd|].
  apply sublist_app; [done|]. unfold held_keys, locking_keys.
  rewrite !(assoc_L (++)). apply sublist_inserts_r, sublist_inserts_l. done.
Qed.

Lemma try_schedule_transaction_spec O i m budget worker (st : S) :
  Inv O st → fresh_batch i O → btree_last (checked_tx (sch st)) = Some m →
  schedule_batch (sch st) = [] → is_u64 budget → in_flight_cus (sch st) + budget ≤ U64_MAX →
  wp benign (try_schedule_transaction budget worker) (attempted O i [m] budget st) st.
Proof.
  intros HI Hi Hm Hsb Hbu Hcus. unfold try_schedule_transaction. wp_steps.
  rewrite Hm. simpl. wp_steps. pose proof (removelast_held O m _ Hm) as Hp.
  assert (m ∈ checked_tx (sch st)) as Hin.
  { apply removelast_last in Hm. rewrite Hm. apply elem_of_app. right; by left. }
  assert (is_u64 (cost m)) as Hcm.
  { pose proof (inv_waiting_costs _ _ HI) as Hwc. apply Forall_app in Hwc as [Hwc _].
    rewrite Forall_forall in Hwc. by apply Hwc. }
  assert (live (wld st) (key m)) as Hl by (apply (inv_live _ _ HI); rewrite Hp; by left).
  destruct (budget <? cost m) eqn:Hlt.
  { wp_steps. apply Z.ltb_lt in Hlt. left. simpl. split_and!; [done..|]. left. lia. }
  apply Z.ltb_ge in Hlt. wp_step.
  apply (wp_can_lock_tx _ _ (outstanding_grants (wld st) O)); [apply (inv_locks _ _ HI)|done|].
  intros b Hb. destruct b; simpl; last first.
  { wp_steps. left. split_and!; [done..|]. right. exists m. split; [by left|]. rewrite <- Hb. done. }
  wp_step. apply (wp_lock_tx _ _ (grants_keys (wld st) (okeys O))).
  { rewrite <- outstanding_grants_keys. apply (inv_locks _ _ HI). }
  { done. }
  { apply (inv_lockable _ _ HI), elem_of_locking. left. by exists m. }
  { intros addr b. rewrite elem_of_grants_keys. intros [Ho _].
    pose proof (held_not_executing O [key m] _ (inv_keys _ _ HI) (ex_intro _ _ Hp)) as Hk.
    by apply NoDup_cons in Hk as [Hk _]. }
  intros t' Ht. do 4 wp_step. pose proof (inv_cus_u64 _ _ HI) as Hiu.
  apply wp_send; simpl; [done|unfold is_u64 in *; lia..|]. intros w' Hw'. wp_steps. simpl.
  assert (btree_pop_last (checked_tx (sch st)) = Some (m, removelast (checked_tx (sch st)))) as ->.
  { unfold btree_pop_last. unfold btree_last in Hm. by rewrite Hm. }
  simpl. wp_steps. right. simpl. rewrite Z.add_0_r.
  split_and!; [unfold is_u64 in *; lia|lia|done|done|by rewrite Hsb|done|].
  destruct st as [s w]. simpl in *.
  eapply (Inv_sent O i [m] s _ w w'); simpl; try done.
  - eapply sorted_sublist, (inv_sorted _ _ HI). apply removelast_sublist.
  - apply (inv_bundles _ _ HI).
  - apply removelast_sublist.
  - intros k [->|Hk]%elem_of_cons; rewrite elem_of_locking; [left; by exists m|].
    apply elem_of_locking in Hk as [(m' & Hm' & <-)|Hk]; [|by right]. left. exists m'.
    split; [|done]. by eapply elem_of_sublist, removelast_sublist.
  - by apply Forall_singleton.
  - lia.
  - unfold is_u64 in *. lia.
  - intros m' ->%list_elem_of_singleton. by apply Hb.
Qed.

(** ** One bundle *)

Definition bundle_metas (b : BundleId) : list PriorityId := km_meta <$> bundle_batch b.

Lemma bundle_metas_cons b k ks :
  keys b = k :: ks →
  bundle_metas b = {| priority := BUNDLE_MARKER; cost := b_cost b; key := k |} ::
    ((λ k, {| priority := BUNDLE_MARKER; cost := 0; key := k |}) <$> ks).
Proof.
  intros Hk. unfold bundle_metas, bundle_batch. rewrite Hk. simpl. f_equal.
  rewrite fmap_imap. apply list_eq. intros i. rewrite list_lookup_imap, list_lookup_fmap. done.
Qed.

Lemma bundle_metas_keys b : key <$> bundle_metas b = keys b.
Proof.
  unfold bundle_metas, bundle_batch. rewrite !fmap_imap. simpl. 
  apply list_eq. intros i. rewrite list_lookup_imap. by destruct (keys b !! i).
Qed.

Lemma bundle_batch_keyed b : bundle_batch b = keyed (bundle_metas b).
Proof.
  unfold keyed, bundle_metas, bundle_batch. rewrite !fmap_imap.
  apply list_eq. intros i. by rewrite !list_lookup_imap.
Qed.

Lemma bundle_metas_cost b : keys b ≠ [] → total_cost (bundle_metas b) = b_cost b.
Proof.
  destruct (keys b) as [|k ks] eqn:Hk; [done|]. intros _. rewrite (bundle_metas_cons b k ks Hk).
  assert (∀ l, total_cost ((λ k, {| priority := BUNDLE_MARKER; cost := 0; key := k |}) <$> l) = 0) as Hz.
  { induction l as [|x l IH]; [done|]. exact IH. }
  specialize (Hz ks). unfold total_cost in *. cbn -[fmap]. cbn -[fmap] in Hz. lia.
Qed.

Lemma bundle_metas_u64 b : is_u64 (b_cost b) → Forall (λ m, is_u64 (cost m)) (bundle_metas b).
Proof.
  intros Hb. destruct (keys b) as [|k ks] eqn:Hk.
  { unfold bundle_metas, bundle_batch. rewrite Hk. constructor. }
  rewrite (bundle_metas_cons b k ks Hk). constructor; [done|].
  apply Forall_fmap, Forall_forall. intros x _. unfold is_u64, U64_MAX. simpl. lia.
Qed.

Lemma wp_all_can_lock E ks G Q (st : S) :
  represents (in_flight_locks (sch st)) G → (∀ k, k ∈ ks → live (wld st) k) →
  (∀ b : bool, (if b then ∀ k, k ∈ ks → compatible G (tx_locks (wld st) k)
         else ∃ k, k ∈ ks ∧ ¬ compatible G (tx_locks (wld st) k)) → Q b st) →
  wp E (all_can_lock ks) Q st.
Proof.
  intros Hrep Hl HQ. induction ks as [|k ks IH]; simpl.
  { wp_steps. apply HQ. intros k. by intros ?%elem_of_nil. }
  wp_step. apply (wp_can_lock_tx _ _ G); [done|apply Hl; by left|].
  intros b Hb. destruct b.
  - apply IH; [intros; apply Hl; by right|]. intros [] Hks; apply HQ.
    + intros k' [->|Hk']%elem_of_cons; [by apply Hb|by apply Hks].
    + destruct Hks as (k' & Hk' & Hn). exists k'. split; [by right|done].
  - wp_steps. apply HQ. exists k. split; [by left|]. by rewrite <- Hb.
Qed.

Lemma removelast_bundles O b (s : Sched) :
  btree_last (bundles s) = Some b →
  held_keys O s ≡ₚ keys b ++ held_keys O (s <| bundles := removelast (bundles s) |>).
Proof.
  intros Hl%removelast_last. unfold held_keys, locking_keys. simpl. rewrite Hl at 1.
  rewrite fmap_app, concat_app. simpl. rewrite app_nil_r. solve_Permutation.
Qed.

Lemma try_schedule_bundle_spec O i b budget worker (st : S) :
  Inv O st → fresh_batch i O → btree_last (bundles (sch st)) = Some b →
  schedule_batch (sch st) = [] → is_u64 budget → in_flight_cus (sch st) + budget ≤ U64_MAX →
  wp benign (try_schedule_bundle budget worker) (attempted O i (bundle_metas b) budget st) st.
Proof.
  intros HI Hi Hb Hsb Hbu Hcus. unfold try_schedule_bundle. wp_steps.
  rewrite Hb. simpl. wp_steps. pose proof (removelast_bundles O b _ Hb) as Hp.
  assert (is_u64 (b_cost b) ∧ keys b ≠ []) as [Hcb Hne].
  { pose proof (inv_bundle_costs _ _ HI) as Hbc. rewrite Forall_forall in Hbc. apply Hbc.
    apply removelast_last in Hb. rewrite Hb. apply elem_of_app. right; by left. }
  assert (b ∈ bundles (sch st)) as Hin.
  { pose proof (removelast_last _ _ Hb) as Hrl. rewrite Hrl. apply elem_of_app. right; by left. }
  assert (∀ k, k ∈ keys b → live (wld st) k ∧ lockable (wld st) k) as Hl.
  { intros k Hk. split.
    - apply (inv_live _ _ HI). rewrite Hp. apply elem_of_app. by left.
    - apply (inv_lockable _ _ HI), elem_of_locking. do 3 right. by exists b. }
  pose proof (bundle_metas_cost b Hne) as Htc. pose proof (bundle_metas_keys b) as Hks.
  destruct (budget <? b_cost b) eqn:Hlt.
  { wp_steps. apply Z.ltb_lt in Hlt. left. split_and!; [done..|]. left. lia. }
  apply Z.ltb_ge in Hlt. wp_step.
  apply (wp_all_can_lock _ _ (outstanding_grants (wld st) O)); [apply (inv_locks _ _ HI)|naive_solver|].
  intros [] Hfree; simpl; last first.
  { wp_steps. left. split_and!; [done..|]. right. destruct Hfree as (k & Hk & Hn).
    rewrite <- Hks in Hk. apply list_elem_of_fmap in Hk as (m & -> & Hm). by exists m. }
  wp_step. apply (wp_lock_all _ _ (okeys O)).
  { rewrite <- outstanding_grants_keys. apply (inv_locks _ _ HI). }
  { apply (held_not_executing O _ _ (inv_keys _ _ HI)). by eexists. }
  { done. }
  intros t' Ht. do 4 wp_step. pose proof (inv_cus_u64 _ _ HI) as Hiu.
  apply wp_send; simpl; [done|unfold is_u64 in *; lia..|]. intros w' Hw'. wp_steps. simpl.
  assert (btree_pop_last (bundles (sch st)) = Some (b, removelast (bundles (sch st)))) as ->.
  { unfold btree_pop_last. unfold btree_last in Hb. by rewrite Hb. }
  simpl. wp_steps. right. rewrite Htc. simpl.
  split_and!; [unfold is_u64 in *; lia|lia|done|done|by rewrite Hsb, bundle_batch_keyed|done|].
  destruct st as [s w]. simpl in *.
  eapply (Inv_sent O i (bundle_metas b) s _ w w'); simpl; try done.
  - apply (inv_sorted _ _ HI).
  - eapply sorted_sublist, (inv_bundles _ _ HI). apply removelast_sublist.
  - apply removelast_sublist.
  - by rewrite Hks.
  - intros k [Hk|Hk]%elem_of_app; rewrite elem_of_locking; [rewrite Hks in Hk; do 3 right; by exists b|].
    apply elem_of_locking in Hk as [Hk|[Hk|[Hk|(b' & Hb' & Hk)]]]; [by auto..|].
    do 3 right. exists b'. split; [|done]. by eapply elem_of_sublist, removelast_sublist.
  - by apply bundle_metas_u64.
  - by rewrite Htc.
  - unfold is_u64 in *. lia.
  - by rewrite Hks.
  - intros m Hm. apply Hfree. rewrite <- Hks. by apply list_elem_of_fmap_2.
Qed.

(** ** The round over the workers *)

Lemma declared_snoc ms m (st : S) :
  declared (ms ++ [m]) st =
  mk ((sch (declared ms st)) <| executing_tx ::= union {[key m]} |>) (wld st).
Proof.
  unfold declared. simpl. f_equal. f_equal. apply set_eq. intros k.
  rewrite !elem_of_union, fmap_app, list_to_set_app. set_solver.
Qed.

Lemma declared_nil (st : S) : quiet (declared [] st) st.
Proof.
  split; [|done]. exists (slot_stats (sch st)). unfold declared. destruct st as [[]]. simpl.
  f_equal. set_solver.
Qed.

Lemma wp_declare_executing O i ms Q (st : S) :
  executing_tx (sch st) = list_to_set (okeys O) →
  Inv (entries i ms ++ O) (declared ms st) →
  (∀ st', Inv (entries i ms ++ O) st' → same_sched (sch (declared ms st)) (sch st') → Q tt st') →
  wp benign (declare_executing (keyed ms)) Q st.
Proof.
  intros He HI HQ. unfold declare_executing. eapply wp_mono.
  - apply (wp_for_each _ _ _ (λ l s, ∃ done rest, ms = done ++ rest ∧ l = keyed rest ∧
      quiet (declared done st) s)).
    { exists [], ms. split_and!; [done..|apply declared_nil]. }
    intros km l s (d & rest & Hms & Hl & [[stats Hs] Hw]).
    destruct rest as [|m rest]; [done|]. injection Hl as -> ->. simpl in Hw.
    assert (key m ∉ executing_tx (sch s)) as Hk.
    { rewrite Hs. simpl. rewrite He, elem_of_union, !elem_of_list_to_set.
      pose proof (inv_keys _ _ HI) as Hnd.
      rewrite held_entries, Hms, fmap_app, fmap_cons in Hnd. simpl in Hnd.
      rewrite <- (assoc_L (++)) in Hnd. simpl in Hnd. rewrite <- Permutation_middle in Hnd.
      apply NoDup_cons in Hnd as [Hk _]. intros Hin. apply Hk.
      rewrite !elem_of_app. unfold held_keys, locking_keys. rewrite !elem_of_app. tauto. }
    unfold insert_executing. wp_steps. simpl.
    rewrite bool_decide_eq_true_2 by done. apply wp_assert; [done|intros _].
    apply wp_emit_tx_event.
    { simpl. eapply live_transaction; [done|].
      apply (inv_live _ _ HI). unfold declared. simpl.
      rewrite held_entries, Hms, fmap_app, !elem_of_app. left; right; by left. }
    intros st' Hq. exists (d ++ [m]), rest. split_and!; [by rewrite <- (assoc_L (++))|done|].
    etransitivity; [|exact Hq]. rewrite declared_snoc. split; [|done].
    exists stats. simpl. by rewrite Hs.
  - intros [] s (d & rest & Hms & Hl & Hq). destruct rest; [|done].
    rewrite app_nil_r in Hms. subst d. apply HQ; [by eapply quiet_inv|apply Hq].
Qed.

(** The choice of a round: the best transaction, or the best bundle when its
    priority is higher. *)
Definition best_of (s : Sched) : option (list PriorityId) :=
  match btree_last (checked_tx s), btree_last (bundles s) with
  | Some tx, Some b =>
      Some (if priority tx <? b_priority b then bundle_metas b else [tx])
  | Some tx, None => Some [tx]
  | None, Some b => Some (bundle_metas b)
  | None, None => None
  end.

Lemma wp_choose O i budget worker (Q : bool * Z → S → Prop) (st : S) :
  Inv O st → fresh_batch i O → schedule_batch (sch st) = [] →
  is_u64 budget → in_flight_cus (sch st) + budget ≤ U64_MAX →
  (∀ ms b' st', best_of (sch st) = Some ms → attempted O i ms budget st b' st' → Q (false, b') st') →
  (best_of (sch st) = None → Q (true, budget) st) →
  wp benign (
    match priority <$> btree_last (checked_tx (sch st)),
          b_priority <$> btree_last (bundles (sch st)) with
    | Some tx, Some bundle =>
        match rcmp tx bundle with
        | Gt | Eq => let* b := try_schedule_transaction budget worker in mret (false, b)
        | Lt => let* b := try_schedule_bundle budget worker in mret (false, b)
        end
    | Some _, None => let* b := try_schedule_transaction budget worker in mret (false, b)
    | None, Some _ => let* b := try_schedule_bundle budget worker in mret (false, b)
    | None, None => mret (true, budget)
    end) Q st.
Proof.
  intros HI Hi Hsb Hbu Hcus HQ HN. unfold best_of in *.
  assert (∀ m, btree_last (checked_tx (sch st)) = Some m →
    (∀ b' st', attempted O i [m] budget st b' st' → Q (false, b') st') →
    wp benign (let* b := try_schedule_transaction budget worker in mret (false, b)) Q st) as Htx.
  { intros m Hm HQm. wp_step. eapply wp_mono.
    - by apply (try_schedule_transaction_spec O i m).
    - intros b' st' Ha. wp_step. auto. }
  assert (∀ b, btree_last (bundles (sch st)) = Some b →
    (∀ b' st', attempted O i (bundle_metas b) budget st b' st' → Q (false, b') st') →
    wp benign (let* b := try_schedule_bundle budget worker in mret (false, b)) Q st) as Hb.
  { intros b Hb HQb. wp_step. eapply wp_mono.
    - by apply (try_schedule_bundle_spec O i b).
    - intros b' st' Ha. wp_step. auto. }
  destruct (btree_last (checked_tx (sch st))) as [tx|],
    (btree_last (bundles (sch st))) as [b|]; simpl.
  - unfold rcmp, Z_ord, Z.ltb in *. destruct (priority tx ?= b_priority b).
    + apply (Htx tx); [done|]. intros b' st'. by apply HQ.
    + apply (Hb b); [done|]. intros b' st'. by apply HQ.
    + apply (Htx tx); [done|]. intros b' st'. by apply HQ.
  - apply (Htx tx); [done|]. intros b' st'. by apply HQ.
  - apply (Hb b); [done|]. intros b' st'. by apply HQ.
  - by apply wp_ret, HN.
Qed.

(** The batch that a worker's round sent: it is left in [schedule_batch],
    unless the round ended before that was cleared. *)
Definition sent worker budget (st st' : S) : list PriorityId :=
  if (budget =? 0) || negb (w_worker_len (wld st) worker =? 0)%nat then []
  else km_meta <$> schedule_batch (sch st').

Lemma keyed_metas ms : km_meta <$> keyed ms = ms.
Proof. unfold keyed. rewrite <- list_fmap_compose. apply list_fmap_id. Qed.

(** What a worker's round leaves behind when it sent the batch [ms] (nothing
    when [ms] is empty). *)
Definition round_done O i ms budget worker (st : S) budget' (st' : S) : Prop :=
  Inv (entries i ms ++ O) st' ∧ 0 ≤ budget' ≤ budget ∧
  in_flight_cus (sch st') + budget' = in_flight_cus (sch st) + budget ∧
  ms = sent worker budget st st' ∧
  (ms ≠ [] → w_worker_len (wld st) worker = 0%nat ∧ best_of (sch st) = Some ms).

Lemma schedule_execute_worker_ok O i worker budget (st : S) :
  Inv O st → fresh_batch i O →
  is_u64 budget → in_flight_cus (sch st) + budget ≤ U64_MAX →
  wp benign (schedule_execute_worker worker budget) (λ r st',
    ∃ ms, round_done O i ms budget worker st r.2 st') st.
Proof.
  intros HI Hi Hbu Hcus.
  assert (sent worker budget st st = [] → round_done O i [] budget worker st budget st) as Hnone.
  { intros Hs. split; [done|]. unfold is_u64 in *. split_and!; done || lia. }
  unfold schedule_execute_worker. unfold sent at 1 in Hnone.
  destruct (budget =? 0) eqn:Hb0; [wp_steps; exists []; by apply Hnone|].
  wp_steps. destruct (w_worker_len (wld st) worker =? 0)%nat eqn:Hlen; simpl in *;
    [clear Hnone|wp_steps; exists []; by apply Hnone].
  assert (∀ st', sent worker budget st st' = km_meta <$> schedule_batch (sch st')) as Hsent.
  { intros st'. unfold sent. by rewrite Hb0, Hlen. }
  apply Nat.eqb_eq in Hlen. wp_steps. set (st1 := mk _ _).
  assert (Inv O st1) as HI1.
  { destruct st as [s w]. eapply (Inv_change O s w); try apply HI; try done. intros k Hk. by left. }
  apply (wp_choose O i budget worker _ st1); [done..| |]; last first.
  { intros Hbest. wp_steps. exists []. split; [done|]. rewrite Hsent.
    unfold is_u64 in *. split_and!; done || (simpl; lia). }
  intros ms b' st2 Hbest [(-> & -> & _)|(Hc & -> & He & Hsb & Hcu & HI2)]; wp_steps.
  { simpl. wp_steps. exists []. split; [done|]. rewrite Hsent.
    unfold is_u64 in *. split_and!; done || (simpl; lia). }
  change (in_flight_cus (sch st1)) with (in_flight_cus (sch st)) in Hcu.
  rewrite Hsb. destruct ms as [|m ms]; simpl.
  { change (total_cost []) with 0 in *. rewrite Z.add_0_r in Hcu. wp_steps. exists [].
    split; [eapply quiet_inv, HI2; apply declared_nil|]. rewrite Hsent, Hsb.
    unfold is_u64 in *. split_and!; done || (simpl; lia). }
  wp_step. apply (wp_declare_executing O i (m :: ms)); [|done|].
  { rewrite He. apply (inv_executing _ _ HI). }
  intros st3 HI3 [stats Hs3]. wp_step. apply wp_increment. intros st4 Hq4.
  wp_step. apply wp_bump. intros st5 Hq5. wp_steps.
  pose proof (transitivity Hq4 Hq5) as Hq. exists (m :: ms).
  split; [by eapply quiet_inv|]. destruct Hq as [[stats5 Hs5] _].
  assert (schedule_batch (sch st5) = keyed (m :: ms)) as Hb5 by (rewrite Hs5, Hs3; exact Hsb).
  assert (in_flight_cus (sch st5) = in_flight_cus (sch st2)) as Hc5 by (rewrite Hs5, Hs3; done).
  change (total_cost (m :: ms)) with (cost m + total_cost ms) in *. cbn [snd].
  rewrite Hsent, Hb5, keyed_metas, Hc5. unfold is_u64 in *. split_and!; done || lia.
Qed.

(** C9: a worker's round starts at most one batch: the best transaction or
    bundle, on a worker without pending work and within the budget, which pays
    for it; and none of its locks conflicts with an execution in flight. No
    assertion fails. *)
Theorem schedule_execute_worker_spec O i worker budget (st : S) :
  Inv O st → fresh_batch i O →
  is_u64 budget → in_flight_cus (sch st) + budget ≤ U64_MAX →
  wp benign (schedule_execute_worker worker budget) (λ r st', ∃ ms,
    Inv (entries i ms ++ O) st' ∧
    total_cost ms ≤ budget ∧ r.2 = budget - total_cost ms ∧
    (ms ≠ [] → w_worker_len (wld st) worker = 0%nat ∧ best_of (sch st) = Some ms) ∧
    (∀ m j m' addr b b', m ∈ ms → (j, m') ∈ O →
       (addr, b) ∈ tx_locks (wld st') (key m) → (addr, b') ∈ tx_locks (wld st') (key m') →
       b = false ∧ b' = false)) st.
Proof.
  intros HI Hi Hb Hcus. eapply wp_mono; [by apply (schedule_execute_worker_ok O i)|].
  intros [c b'] st' (ms & HI' & Hb' & Hsum & _ & Hbest). exists ms. simpl in *.
  pose proof (inv_cus _ _ HI') as Hc'. rewrite sum_costs_entries, <- (inv_cus _ _ HI) in Hc'.
  split_and!; [done|lia|lia|done|].
  intros m j m' addr b1 b2 Hm Hm'. apply (inv_compatible _ _ HI' i m j m').
  - apply elem_of_app. left. by apply elem_of_entries.
  - apply elem_of_app. by right.
  - intros <-. by eapply Hi.
Qed.

Lemma fresh_batch_exists O : ∃ i, fresh_batch i O.
Proof.
  induction O as [|[j m] O [i IH]].
  - exists 0%nat. intros j m Hin. by apply elem_of_nil in Hin.
  - exists (Datatypes.S (i + j + list_max (fst <$> O))). intros j' m' [[= -> ->]|Hin]%elem_of_cons; [lia|].
    assert (j' ≤ list_max (fst <$> O))%nat; [|lia].
    pose proof (proj1 (list_max_le (fst <$> O) _) (le_n _)) as Hmax.
    rewrite Stdlib.Lists.List.Forall_forall in Hmax. apply Hmax.
    apply list_elem_of_In, list_elem_of_fmap. by exists (j', m').
Qed.

(** The loop over the workers conserves CUs plus budget. *)
Lemma wp_execute_workers O workers budget (st : S) :
  Inv O st → is_u64 budget → in_flight_cus (sch st) + budget ≤ U64_MAX →
  wp benign (for_acc workers budget schedule_execute_worker) (λ budget' st', ∃ new,
    Inv (new ++ O) st' ∧ 0 ≤ budget' ≤ budget ∧
    in_flight_cus (sch st') + budget' = in_flight_cus (sch st) + budget) st.
Proof.
  intros HI Hb Hcus. apply (wp_for_acc _ _ _ _ (λ _ b st', ∃ new,
    Inv (new ++ O) st' ∧ 0 ≤ b ≤ budget ∧
    in_flight_cus (sch st') + b = in_flight_cus (sch st) + budget));
    [exists []; unfold is_u64 in *; split_and!; done || lia|done|].
  intros worker l b s (new & HIs & Hbs & Hsum).
  destruct (fresh_batch_exists (new ++ O)) as [i Hi].
  eapply wp_mono; [apply (schedule_execute_worker_ok (new ++ O) i); [done..|unfold is_u64 in *; lia|lia]|].
  intros [c b'] s' (ms & HI' & Hb' & Hsum' & _ & _). simpl in *.
  assert (∃ new', Inv (new' ++ O) s' ∧ 0 ≤ b' ≤ budget ∧
    in_flight_cus (sch s') + b' = in_flight_cus (sch st) + budget).
  { exists (entries i ms ++ new). rewrite <- (assoc_L (++)). split_and!; [done|lia..]. }
  by destruct c.
Qed.

Lemma schedule_execute_ok `{!AgaveBindingsLaws} O (st : S) :
  Inv O st →
  leader_state (w_progress (wld st)) = LEADER_READY →
  budget_in_range (w_progress (wld st)) (runtime (sch st)) (in_flight_cus (sch st)) →
  wp benign schedule_execute (λ _ st', ∃ new,
    Inv (new ++ O) st' ∧
    in_flight_cus (sch st) ≤ in_flight_cus (sch st') ∧
    block_used (w_progress (wld st)) + in_flight_cus (sch st') ≤
      Z.max (block_share (w_progress (wld st)) (runtime (sch st)))
            (block_used (w_progress (wld st)) + in_flight_cus (sch st))) st.
Proof.
  intros HI Hlead Hrange. pose proof (inv_cus_u64 _ _ HI) as Hiu.
  pose proof (block_share_bounds _ _ _ Hrange) as Hshare.
  pose proof (block_used_nonneg (w_progress (wld st))).
  unfold schedule_execute. do 2 wp_step. wp_step.
  apply wp_debug_assert; [by rewrite Hlead, Z.eqb_refl|]. wp_steps.
  eapply wp_of_res; [apply share_budget_ok; [done|apply Hiu]|]. wp_steps.
  destruct Hrange as (_ & _ & _ & _ & Hmax).
  assert (MAX_BLOCK_UNITS_SIMD_0256 ≤ U64_MAX) by (unfold is_u64 in *; lia).
  eapply wp_mono; [apply (wp_execute_workers O); [done|..]|].
  { unfold is_u64, saturating_sub in *. lia. }
  { unfold is_u64, saturating_sub in *. lia. }
  intros b st' (new & HI' & Hb & Hsum). wp_steps. exists new. split; [done|].
  unfold saturating_sub, is_u64 in *. lia.
Qed.

(** C10: a round of [schedule_execute] as leader keeps the invariant, so all it
    starts is compatible with what is in flight, and never brings the CUs that
    are used or in flight above the share of the block that the slot's
    progress allows (where they were above it already, it starts nothing
    that costs). No assertion fails. *)
Theorem schedule_execute_budget `{!AgaveBindingsLaws} O (st : S) :
  Inv O st →
  leader_state (w_progress (wld st)) = LEADER_READY →
  budget_in_range (w_progress (wld st)) (runtime (sch st)) (in_flight_cus (sch st)) →
  wp benign schedule_execute (λ _ st', ∃ new,
    Inv (new ++ O) st' ∧
    in_flight_cus (sch st) ≤ in_flight_cus (sch st') ∧
    block_used (w_progress (wld st)) + in_flight_cus (sch st') ≤
      Z.max (block_share (w_progress (wld st)) (runtime (sch st)))
            (block_used (w_progress (wld st)) + in_flight_cus (sch st))) st.
Proof. apply schedule_execute_ok. Qed.
End Execute.
