(* ===== verification/BatchIngest.v ===== *)
(** * The batch scheduler takes in transactions and bundles

    The TPU closure, Jito packets and bundles, and the expiry of bundles,
    against the invariant of [BatchInvariant]: what is kept is fresh, what is
    refused is dropped, and capacity is kept by evicting the lowest. *)

From S2P Require Import Prelude BTreeSet Types Events Externals LockTable TipProgram Costs.
From S2P Require Import Common Outstanding BatchScheduler BatchInvariant BatchHandlers BatchExecute.

Section Ingest.
Context `{Profile} `{AgaveBindings} `{World W} `{!WorldLaws} {Heap DSet : Type}
  `{MinMaxHeap Heap PriorityId} `{!MinMaxHeapLaws Heap PriorityId}
  `{IndexSet DSet PriorityId} `{!IndexSetLaws DSet PriorityId}.
Abbreviation Sched := (BatchScheduler Heap DSet).
Abbreviation S := (St Sched W).

(** Besides the benign panics: sums of costs, fees and tips that overflow in
    a build with overflow checks. *)
Definition ingest_panic (p : Panic) : Prop := benign p ∨ ∃ site, p = POverflow site.

Lemma wp_ingest {A} (m : M S A) Q st : wp benign m Q st → wp ingest_panic m Q st.
Proof. intros Hm. eapply wp_weaken; [done|]. by left. Qed.

Lemma wp_of_res_overflows {A} (r : Res A) Q (st : S) :
  overflows_only r → (∀ a, r = Ok a → Q a st) → wp ingest_panic (of_res r) Q st.
Proof.
  intros Hr HQ. apply wp_of_res_cases; [done| |].
  - intros p ->. by right.
  - by intros ->.
Qed.

Lemma cost_and_reward_overflows rt tx : overflows_only (calculate_cost_and_reward rt tx).
Proof.
  unfold calculate_cost_and_reward. destruct (runtime_limits _ _) as [[rt_tx limits]|]; [|done].
  unfold reward_of. destruct (checked_mul _ _); [|done]. simpl.
  unfold u64_sub. set (kept := _ - _).
  pose proof (checked_result_overflows 64 "calculate_cost_and_reward: base_fee" kept) as Ho.
  by destruct (checked_result 64 _ kept).
Qed.

Lemma calculate_priority_overflows rt tx : overflows_only (calculate_priority rt tx).
Proof.
  unfold calculate_priority. pose proof (cost_and_reward_overflows rt tx) as Ho.
  by destruct (calculate_cost_and_reward rt tx).
Qed.

(** ** The unchecked heap *)

Lemma Inv_push_unchecked O m (st : S) :
  Inv O st → key m ∉ held_keys O (sch st) → live (wld st) (key m) →
  Inv O (mk ((sch st) <| unchecked_tx ::= heap_push m |>) (wld st)).
Proof.
  intros HI Hk Hl.
  assert (held_keys O ((sch st) <| unchecked_tx ::= heap_push m |>) ≡ₚ key m :: held_keys O (sch st)) as Hp.
  { unfold held_keys, locking_keys. simpl. by rewrite heap_push_elements. }
  destruct st as [s w]. eapply (Inv_change O s w); try apply HI; try done.
  - rewrite Hp. apply NoDup_cons. split; [done|]. apply (inv_keys _ _ HI).
  - intros k. rewrite Hp. intros [->|Hin]%elem_of_cons; [done|]. by apply (inv_live _ _ HI).
  - intros k Hin. by left.
Qed.

(** A transaction that is dropped: the bridge forgets it, the scheduler does
    not hold it. *)
Lemma Inv_drop O k s w :
  Inv O (mk s w) → k ∉ held_keys O s → Inv O (mk s (w_drop_transaction k w)).
Proof.
  intros HI Hk.
  assert (∀ k', k' ∈ held_keys O s → w_transaction (w_drop_transaction k w) k' = w_transaction w k') as Hw.
  { intros k' Hk'. apply drop_transaction_other. by intros <-. }
  eapply (Inv_change O s w); try apply HI; try done.
  - intros k' Hk'. unfold live. rewrite Hw by done. by apply (inv_live _ _ HI).
  - intros k' Hk'. left. split; [done|]. by apply Hw, locking_held.
  - intros k' Hk'. apply Hw. unfold held_keys, locking_keys. rewrite !elem_of_app. tauto.
Qed.

Lemma held_pop_unchecked O m h (s : Sched) :
  heap_elements (unchecked_tx s) ≡ₚ m :: heap_elements h →
  held_keys O s ≡ₚ key m :: held_keys O (s <| unchecked_tx := h |>).
Proof. intros Hp. unfold held_keys, locking_keys. simpl. by rewrite Hp. Qed.

Lemma Inv_pop_unchecked O m h (st : S) :
  Inv O st → heap_elements (unchecked_tx (sch st)) ≡ₚ m :: heap_elements h →
  Inv O (mk ((sch st) <| unchecked_tx := h |>) (wld st)) ∧
  (key m ∉ held_keys O ((sch st) <| unchecked_tx := h |>)) ∧ live (wld st) (key m).
Proof.
  intros HI Hp%(held_pop_unchecked O). pose proof (inv_keys _ _ HI) as Hnd.
  rewrite Hp in Hnd. apply NoDup_cons in Hnd as [Hk Hnd]. destruct st as [s w].
  split; [|split; [done|]].
  - eapply (Inv_change O s w); try apply HI; try done.
    + intros k Hin. apply (inv_live _ _ HI). simpl. rewrite Hp. by right.
    + intros k Hin. by left.
  - apply (inv_live _ _ HI). simpl in *. rewrite Hp. by left.
Qed.

(** The lowest unchecked transaction goes. *)
Definition evicted_min (s s' : Sched) : Prop :=
  ∃ m h, heap_pop_min (unchecked_tx s) = Some (m, h) ∧ same_sched (s <| unchecked_tx := h |>) s'.

Lemma wp_evict_unchecked O Q (st : S) :
  Inv O st → heap_elements (unchecked_tx (sch st)) ≠ [] →
  (∀ st', Inv O st' → evicted_min (sch st) (sch st') →
     (∀ k, k ∉ held_keys O (sch st) → w_transaction (wld st') k = w_transaction (wld st) k) →
     Q tt st') →
  wp benign evict_unchecked Q st.
Proof.
  intros HI Hne HQ. unfold evict_unchecked. wp_steps.
  destruct (heap_pop_min (unchecked_tx (sch st))) as [[m h]|] eqn:Hpop; last first.
  { by apply heap_pop_min_None in Hpop. }
  pose proof (heap_pop_min_Some _ _ _ Hpop) as [Hp _].
  destruct (Inv_pop_unchecked O m h st HI Hp) as (HI' & Hk & Hl).
  simpl. wp_steps. apply wp_emit_tx_event; [done|]. intros st1 Hq.
  pose proof (quiet_inv O _ _ Hq HI') as HI1. rewrite <- (quiet_held O _ _ Hq) in Hk.
  unfold drop_transaction. wp_step. apply HQ.
  - destruct st1. by apply Inv_drop.
  - exists m, h. split; [done|apply Hq].
  - intros k Hkk. simpl. rewrite drop_transaction_other.
    + destruct Hq as [_ Hw]. simpl in Hw. by rewrite Hw.
    + intros Heq. apply Hkk. rewrite (held_pop_unchecked O m h _ Hp), <- Heq. by left.
Qed.

(** Emission and the two counters, after which a decision follows. *)
Lemma wp_report k prio action mt (field : SlotStatsEvent → Z) `{!Setter field}
    (rest : M S TxDecision) Q (st : S) :
  live (wld st) k → (∀ st', quiet st st' → wp benign rest Q st') →
  wp benign (emit_tx_event k prio action ;; increment mt 1 ;; bump field 1 ;; rest) Q st.
Proof.
  intros Hl HQ. wp_step. apply wp_emit_tx_event; [done|]. intros st1 H1'.
  wp_step. apply wp_increment. intros st2 H2'. wp_step. apply wp_bump. intros st3 H3'.
  apply HQ. etransitivity; [exact H1'|]. by etransitivity.
Qed.

Lemma on_tpu_ok O k tx (st : S) :
  Inv O st → k ∉ held_keys O (sch st) →
  w_transaction (wld st) k = Some tx → signed tx →
  wp ingest_panic (on_tpu k) (λ d st',
    Inv O st' ∧
    match calculate_priority (w_runtime (wld st)) (data tx) with
    | Ok (Some (prio, c)) =>
        if should_filter_static (sch st) (data tx)
        then d = Drop ∧ same_sched (sch st) (sch st')
        else d = Keep ∧ same_sched
          ((sch st) <| unchecked_tx ::= heap_push {| priority := prio; cost := c; key := k |} |>)
          (sch st')
    | _ => d = Drop ∧ same_sched (sch st) (sch st')
    end) st.
Proof.
  intros HI Hk Htx Hwf. assert (live (wld st) k) as Hl by (by exists tx).
  unfold on_tpu. wp_steps. apply (wp_transaction _ _ tx); [done|]. wp_step.
  apply wp_of_res_overflows; [apply calculate_priority_overflows|]. intros pc ->.
  apply wp_ingest. destruct pc as [[prio c]|]; last first.
  { apply wp_count. intros st' Hq. split; [by eapply quiet_inv|]. split; [done|apply Hq]. }
  wp_steps. destruct (should_filter_static (sch st) (data tx)).
  { apply wp_count. intros st' Hq. split; [by eapply quiet_inv|]. split; [done|apply Hq]. }
  do 2 wp_step. apply wp_report; [done|]. intros st' Hq. wp_steps.
  split; [|split; [done|apply Hq]]. eapply quiet_inv; [exact Hq|].
  by apply (Inv_push_unchecked O {| priority := prio; cost := c; key := k |} st).
Qed.

(** C19: A transaction from the TPU is kept exactly if its cost can be
    calculated and none of its static accounts is filtered; it then waits
    unchecked under its priority and cost.  The rest of the scheduler, its
    statistics apart, is as before, and the only panics are those of
    [ingest_panic]. *)
Theorem on_tpu_inv O k tx (st : S) :
  Inv O st → k ∉ held_keys O (sch st) →
  w_transaction (wld st) k = Some tx → signed tx →
  wp ingest_panic (on_tpu k) (λ d st',
    Inv O st' ∧
    match calculate_priority (w_runtime (wld st)) (data tx) with
    | Ok (Some (prio, c)) =>
        if should_filter_static (sch st) (data tx)
        then d = Drop ∧ same_sched (sch st) (sch st')
        else d = Keep ∧ same_sched
          ((sch st) <| unchecked_tx ::= heap_push {| priority := prio; cost := c; key := k |} |>)
          (sch st')
    | _ => d = Drop ∧ same_sched (sch st) (sch st')
    end) st.
Proof. intros. eapply on_tpu_ok; eauto. Qed.

(** ** Packets *)

Lemma Inv_insert O s w w' packet k :
  Inv O (mk s w) → w_insert_transaction packet w = (Some k, w') →
  Inv O (mk s w') ∧ (k ∉ held_keys O s) ∧ live w' k ∧
  ∀ k', k' ≠ k → w_transaction w' k' = w_transaction w k'.
Proof.
  intros HI Hins. destruct (insert_transaction_fresh _ _ _ _ Hins) as (Hnone & Hsome & Hother).
  assert (k ∉ held_keys O s) as Hk.
  { intros Hin. apply (inv_live _ _ HI) in Hin as (tx & Htx & _). simpl in Htx. congruence. }
  assert (∀ k', k' ∈ held_keys O s → w_transaction w' k' = w_transaction w k') as Hw.
  { intros k' Hk'. apply Hother. by intros ->. }
  split; [|done]. eapply (Inv_change O s w); try apply HI; try done.
  - intros k' Hk'. unfold live. rewrite Hw by done. by apply (inv_live _ _ HI).
  - intros k' Hk'. left. split; [done|]. by apply Hw, locking_held.
  - intros k' Hk'. apply Hw. unfold held_keys, locking_keys. rewrite !elem_of_app. tauto.
Qed.

Lemma Inv_insert_refused O s w w' packet :
  Inv O (mk s w) → w_insert_transaction packet w = (None, w') → Inv O (mk s w').
Proof.
  intros HI Hins%insert_transaction_refused. eapply quiet_inv, HI. split; [|done].
  exists (slot_stats s). by destruct s.
Qed.

(** Two counters, then the bridge drops the transaction. *)
Lemma wp_refuse O k mt (field : SlotStatsEvent → Z) `{!Setter field} (Q : unit → S → Prop) (st : S) :
  Inv O st → k ∉ held_keys O (sch st) →
  (∀ st', Inv O st' → same_sched (sch st) (sch st') → Q tt st') →
  wp benign (increment mt 1 ;; bump field 1 ;; drop_transaction k) Q st.
Proof.
  intros HI Hk HQ. wp_step. apply wp_increment. intros st1 H1'. wp_step. apply wp_bump.
  intros st2 H2'. pose proof (transitivity H1' H2') as Hq. unfold drop_transaction. wp_step.
  apply HQ; [|apply Hq]. destruct st2. apply Inv_drop; [by eapply quiet_inv|].
  by rewrite <- (quiet_held O _ _ Hq) in Hk.
Qed.

(** What becomes of the unchecked heap when a packet is stored. *)
Definition stored_unchecked (m : PriorityId) (s s' : Sched) : Prop :=
  ∃ s1, (if decide (heap_len (unchecked_tx s) = unchecked_capacity s)
         then evicted_min s s1 else same_sched s s1) ∧
        same_sched (s1 <| unchecked_tx ::= heap_push m |>) s'.

Lemma wp_packet_evict O k (Q : unit → S → Prop) (st : S) :
  Inv O st → k ∉ held_keys O (sch st) → live (wld st) k →
  unchecked_capacity (sch st) ≠ 0%nat →
  (∀ st', Inv O st' → (k ∉ held_keys O (sch st')) → live (wld st') k →
     (if decide (heap_len (unchecked_tx (sch st)) = unchecked_capacity (sch st))
      then evicted_min (sch st) (sch st') else same_sched (sch st) (sch st')) → Q tt st') →
  wp benign (when (heap_len (unchecked_tx (sch st)) =? unchecked_capacity (sch st))%nat (
    evict_unchecked ;; increment m_recv_packet_evict 1)) Q st.
Proof.
  intros HI Hk Hl Hcap HQ.
  destruct (decide (heap_len (unchecked_tx (sch st)) = unchecked_capacity (sch st))) as [Hc|Hc].
  - rewrite (proj2 (Nat.eqb_eq _ _) Hc). simpl. wp_step.
    apply (wp_evict_unchecked O); [done|intros Hnil|].
    { rewrite heap_len_elements, Hnil in Hc. by simpl in Hc. }
    intros st1 HI1 (m & h & Hpop & Hs) Hw. apply wp_increment. intros st2 Hq.
    pose proof (heap_pop_min_Some _ _ _ Hpop) as [Hp%(held_pop_unchecked O) _].
    assert (k ∉ held_keys O (sch st1)) as Hk1.
    { destruct Hs as [stats ->]. intros Hin. apply Hk. rewrite Hp. by right. }
    apply HQ; [by eapply quiet_inv|by rewrite (quiet_held O _ _ Hq)| |].
    + eapply quiet_live; [done|]. unfold live. by rewrite Hw.
    + exists m, h. split; [done|]. destruct Hs as [stats Hs], Hq as [[stats2 ->] _].
      exists stats2. by rewrite Hs.
  - rewrite (proj2 (Nat.eqb_neq _ _) Hc). apply HQ; try done.
    exists (slot_stats (sch st)). by destruct (sch st).
Qed.

Lemma on_packet_ok O packet (st : S) :
  Inv O st → unchecked_capacity (sch st) ≠ 0%nat →
  wp ingest_panic (on_packet packet) (λ _ st',
    Inv O st' ∧
    (same_sched (sch st) (sch st') ∨
     ∃ k prio c, w_insert_transaction packet (wld st) = (Some k, (w_insert_transaction packet (wld st)).2) ∧
       stored_unchecked {| priority := prio; cost := c; key := k |} (sch st) (sch st'))) st.
Proof.
  intros HI Hcap. unfold on_packet, insert_transaction. wp_steps.
  destruct (w_insert_transaction packet (wld st)) as [[k|] w'] eqn:Hins; last first.
  { wp_steps. destruct st as [s w]. split; [by eapply Inv_insert_refused|]. left.
    exists (slot_stats s). by destruct s. }
  destruct st as [s w]. simpl in *.
  destruct (Inv_insert O s w w' packet k HI Hins) as (HI' & Hk & Hl & _).
  pose proof Hl as (tx & Htx & Hwf).
  wp_steps. apply (wp_transaction _ _ tx); [done|]. wp_step.
  apply wp_of_res_overflows; [apply calculate_priority_overflows|]. intros pc _.
  apply wp_ingest. destruct pc as [[prio c]|]; last first.
  { apply (wp_refuse O k); [done..|]. intros st' HI1 Hs. split; [done|by left]. }
  wp_steps. simpl. destruct (should_filter_static s (data tx)).
  { apply (wp_refuse O k); [done..|]. intros st' HI1 Hs. split; [done|by left]. }
  wp_step. apply (wp_packet_evict O k _ (mk s w')); [done..|]. intros st1 HI1 Hk1 Hl1 Hev.
  do 2 wp_step. wp_step. apply wp_emit_tx_event; [done|]. intros st2 Hq1. wp_step.
  apply wp_increment. intros st3 Hq2. apply wp_bump. intros st4 Hq3.
  pose proof (transitivity (transitivity Hq1 Hq2) Hq3) as Hq.
  split; [eapply quiet_inv; [exact Hq|]; by apply Inv_push_unchecked|].
  right. exists k, prio, c. split; [done|]. exists (sch st1). split; [done|apply Hq].
Qed.

(** A packet from Jito is refused by the bridge, dropped again, or stored
    unchecked after the lowest unchecked transaction has made room when the
    heap is full. *)
Lemma on_packet_inv O packet (st : S) :
  Inv O st → unchecked_capacity (sch st) ≠ 0%nat →
  wp ingest_panic (on_packet packet) (λ _ st',
    Inv O st' ∧
    (same_sched (sch st) (sch st') ∨
     ∃ k prio c, w_insert_transaction packet (wld st) = (Some k, (w_insert_transaction packet (wld st)).2) ∧
       stored_unchecked {| priority := prio; cost := c; key := k |} (sch st) (sch st'))) st.
Proof. intros. eapply on_packet_ok; eauto. Qed.

(** ** Bundles *)

(** The transactions are gone, where the bridge forgets what it is told to drop. *)
Definition gone (w : W) (ks : list TransactionKey) : Prop :=
  DropLaws (W := W) → ∀ k, k ∈ ks → w_transaction w k = None.

Lemma gone_same w w' ks : w_transaction w' = w_transaction w → gone w ks → gone w' ks.
Proof. intros Hw Hg Hl k Hk. rewrite Hw. by apply Hg. Qed.

Lemma wp_drop_keys E O ks (Q : unit → S → Prop) (st : S) :
  Inv O st → (∀ k, k ∈ ks → k ∉ held_keys O (sch st)) →
  (∀ w', Inv O (mk (sch st) w') →
     (∀ k, k ∉ ks → w_transaction w' k = w_transaction (wld st) k) → gone w' ks → Q tt (mk (sch st) w')) →
  wp E (drop_keys ks) Q st.
Proof.
  intros HI Hks HQ. unfold drop_keys. eapply wp_mono.
  - apply (wp_for_each _ _ _ (λ l st', l ⊆ ks ∧ sch st' = sch st ∧ Inv O st' ∧
      (∀ k, k ∉ ks → w_transaction (wld st') k = w_transaction (wld st) k) ∧
      (DropLaws (W := W) → ∀ k, k ∈ ks → k ∉ l → w_transaction (wld st') k = None))); [by split_and!|].
    intros k l [s w] (Hl & Hs & HI' & Hw & Hg). simpl in Hs. subst s.
    unfold drop_transaction. wp_steps. simpl. split; [set_solver|]. split; [done|]. split_and!.
    + apply Inv_drop; [done|]. apply Hks, Hl. by left.
    + intros k' Hk'. rewrite drop_transaction_other; [by apply Hw|]. intros <-. apply Hk', Hl. by left.
    + intros HD k' Hk' Hkl. destruct (decide (k = k')) as [<-|Hne]; [apply drop_transaction_gone|].
      rewrite drop_transaction_other by done. apply Hg; [done..|]. by intros [->|]%elem_of_cons.
  - intros [] [s w] (_ & Hs & HI' & Hw & Hg). simpl in Hs. subst s. apply HQ; [done..|].
    intros HD k Hk. apply Hg; [done..|]. apply not_elem_of_nil.
Qed.

(** Keys that were inserted for a bundle: new, and the scheduler's. *)
Definition inserted O (s : Sched) (w : W) (ks : list TransactionKey) : Prop :=
  NoDup (ks ++ held_keys O s) ∧ (∀ k, k ∈ ks → live w k) ∧ ∀ k, k ∈ ks → lockable w k.

(** The bridge names no lock of a packet's transaction twice. *)
Definition lockable_packet (packet : u8s) : Prop :=
  ∀ w k w', w_insert_transaction packet w = (Some k, w') → lockable w' k.

Lemma inserted_not_held O s w ks : inserted O s w ks → ∀ k, k ∈ ks → k ∉ held_keys O s.
Proof. intros [Hnd _] k Hk. apply NoDup_app in Hnd as (_ & Hd & _). by apply Hd. Qed.

Lemma inserted_snoc O s w w' ks packet k :
  Inv O (mk s w) → inserted O s w ks → w_insert_transaction packet w = (Some k, w') →
  lockable_packet packet → inserted O s w' (ks ++ [k]).
Proof.
  intros HI (Hnd & Hl & Hlock) Hins Hpk. destruct (Inv_insert O s w w' packet k HI Hins) as (_ & Hk & Hlk & Hw).
  destruct (insert_transaction_fresh _ _ _ _ Hins) as (Hnone & _ & _).
  assert (k ∉ ks) as Hkks.
  { intros (tx & Htx & _)%Hl. congruence. }
  split; [|split].
  - rewrite <- (assoc_L (++)). simpl. rewrite <- Permutation_middle. apply NoDup_cons.
    split; [|done]. rewrite elem_of_app. tauto.
  - intros k' [Hk'|Hk'%list_elem_of_singleton]%elem_of_app; [|by subst].
    unfold live. rewrite Hw by (by intros ->). by apply Hl.
  - intros k' [Hk'|Hk'%list_elem_of_singleton]%elem_of_app; [|subst; by eapply Hpk].
    unfold lockable, tx_locks. rewrite Hw by (by intros ->). by apply Hlock.
Qed.

Lemma inserted_quiet O (st st' : S) ks :
  quiet st st' → inserted O (sch st) (wld st) ks → inserted O (sch st') (wld st') ks.
Proof.
  intros Hq (Hnd & Hl & Hlock). split; [by rewrite (quiet_held O _ _ Hq)|]. split; intros k Hk.
  - eapply quiet_live; [done|]. by apply Hl.
  - eapply quiet_lockable; [done|]. by apply Hlock.
Qed.

(** The transactions of a bundle, each with its cost, and its reward with its
    tip; [None] if the bridge refuses one or its cost cannot be calculated. *)
Fixpoint bundle_items (w : W) (packets : list u8s) : option (list (TransactionState * Z * Z)) :=
  match packets with
  | [] => Some []
  | packet :: packets' =>
      let '(o, w') := w_insert_transaction packet w in
      tx ← o ≫= w_transaction w';
      match calculate_cost_and_reward (w_runtime w') (data tx), extract_tip (data tx) with
      | Ok (Some (c, reward)), Ok tip => cons (tx, c, reward + tip) <$> bundle_items w' packets'
      | _, _ => None
      end
  end.

Lemma bundle_items_length w packets items : bundle_items w packets = Some items → length items = length packets.
Proof.
  revert w items. induction packets as [|packet packets IH]; intros w items; simpl; [by intros [= <-]|].
  destruct (w_insert_transaction packet w) as [[k|] w']; [|done]. simpl. destruct (w_transaction w' k) as [tx|]; [|done].
  simpl. destruct (calculate_cost_and_reward _ _) as [[[c r]|]| |], (extract_tip (data tx)) as [tip| |]; try done.
  intros (items' & Hi & ->)%fmap_Some. simpl. f_equal. by eapply IH.
Qed.

Definition total_of {A} (f : A → Z) (l : list A) : Z := foldr (λ x n, f x + n) 0 l.

(** What [w] has more than [w0] are the transactions of [ks]. *)
Record beyond (w0 w : W) (ks : list TransactionKey) : Prop := {
  by_new k : k ∈ ks → w_transaction w0 k = None;
  by_other k : k ∉ ks → w_transaction w k = w_transaction w0 k;
}.

Lemma beyond_insert w0 w w' ks packet k :
  beyond w0 w ks → w_insert_transaction packet w = (Some k, w') → beyond w0 w' (ks ++ [k]).
Proof.
  intros [Hn Ho] Hi. destruct (insert_transaction_fresh _ _ _ _ Hi) as (Hk & _ & Hw). split.
  - intros k' [Hk'|Hk'%list_elem_of_singleton]%elem_of_app; [by apply Hn|]. subst k'.
    destruct (decide (k ∈ ks)) as [|Hks]; [by apply Hn|]. by rewrite <- Ho.
  - intros k' Hk'. rewrite elem_of_app, list_elem_of_singleton in Hk'. rewrite Hw by tauto. apply Ho. tauto.
Qed.

(** The table is again what it was, when what is beyond it is dropped. *)
Definition restored (w0 w : W) : Prop :=
  DropLaws (W := W) → ∀ k, w_transaction w k = w_transaction w0 k.

Lemma beyond_dropped w0 w w' ks :
  beyond w0 w ks → (∀ k, k ∉ ks → w_transaction w' k = w_transaction w k) → gone w' ks → restored w0 w'.
Proof.
  intros [Hn Ho] Hw Hg HD k. destruct (decide (k ∈ ks)) as [Hk|Hk]; [by rewrite Hg, Hn|]. by rewrite Hw, Ho.
Qed.

Lemma restored_same w0 w w' : w_transaction w' = w_transaction w → restored w0 w → restored w0 w'.
Proof. intros Hw Hr HD k. rewrite Hw. by apply Hr. Qed.

Lemma wp_ingest_failed O w0 ks (Q : option (list TransactionKey * Z * Z) → S → Prop) (st : S) :
  Inv O st → (∀ k, k ∈ ks → k ∉ held_keys O (sch st)) → beyond w0 (wld st) ks →
  (∀ st', Inv O st' → same_sched (sch st) (sch st') → restored w0 (wld st') → Q None st') →
  wp benign (drop_keys ks ;; increment m_recv_bundle_err 1 ;; mret None) Q st.
Proof.
  intros HI Hks Hb HQ. wp_step. apply (wp_drop_keys _ O); [done..|]. intros w' HI' Hw Hg. wp_step.
  apply wp_increment. intros st' Hq. wp_steps. apply HQ; [by eapply quiet_inv|apply Hq|].
  eapply restored_same; [apply Hq|]. by eapply beyond_dropped.
Qed.

(** A sum modulo the width, as overflowing additions leave it. *)
Definition wraps (v z : Z) : Prop := v = z mod 2 ^ 64.

Lemma wraps_u64 v : is_u64 v → wraps v v.
Proof. unfold wraps, is_u64, U64_MAX. intros Hv. by rewrite Z.mod_small by lia. Qed.

Lemma wraps_add v z v' z' : wraps v z → wraps v' (v + z') → wraps v' (z + z').
Proof. unfold wraps. intros -> ->. by rewrite Zplus_mod_idemp_l. Qed.

Lemma wp_u64_add_wraps site a b Q (st : S) :
  (∀ v, is_u64 v → wraps v (a + b) → Q v st) → wp ingest_panic (of_res (u64_add site a b)) Q st.
Proof.
  intros HQ. apply wp_of_res_cases; [|intros p ->%checked_result_panic; right; by eexists|apply checked_result_no_hang].
  intros v Hv. apply HQ; [by eapply checked_result_u64|]. revert Hv. unfold u64_add, checked_result, wraps.
  case_decide; [intros [= <-]; by rewrite Z.mod_small|]. destruct overflow_checks; [done|]. by intros [= <-].
Qed.

(** What the loop has of the bundle [packets0]: the transactions so far. *)
Record ingesting O (w0 : W) (s : Sched) (w : W) (ks : list TransactionKey)
    (items : list (TransactionState * Z * Z)) (c r : Z) : Prop := {
  ig_inserted : inserted O s w ks;
  ig_beyond : beyond w0 w ks;
  ig_items : Forall2 (λ k i, w_transaction w k = Some i.1.1) ks items;
  ig_cost : is_u64 c ∧ wraps c (total_of (λ i, i.1.2) items);
  ig_reward : is_u64 r ∧ wraps r (total_of snd items);
}.

Lemma total_of_snoc {A} (f : A → Z) l x : total_of f (l ++ [x]) = total_of f l + f x.
Proof. unfold total_of. induction l as [|y l IH]; simpl; [lia|]. rewrite IH. lia. Qed.

Lemma ingesting_snoc O w0 s w w' ks items c r packet k tx c1 g1 c' r' :
  Inv O (mk s w) → ingesting O w0 s w ks items c r → w_insert_transaction packet w = (Some k, w') →
  lockable_packet packet → w_transaction w' k = Some tx →
  is_u64 c' → wraps c' (c + c1) → is_u64 r' → wraps r' (r + g1) →
  ingesting O w0 s w' (ks ++ [k]) (items ++ [(tx, c1, g1)]) c' r'.
Proof.
  intros HI [Hins Hb Hit [_ Hc] [_ Hr]] Hi Hpk Htx Hc1 Hc2 Hr1 Hr2. split.
  - by eapply inserted_snoc.
  - by eapply beyond_insert.
  - apply Forall2_app; [|by repeat constructor]. eapply Forall2_impl; [exact Hit|]. intros k' i Hk'. simpl in Hk'.
    destruct (insert_transaction_fresh _ _ _ _ Hi) as (Hn & _ & Hw). rewrite Hw; [done|]. intros ->. congruence.
  - split; [done|]. rewrite total_of_snoc. by eapply wraps_add.
  - split; [done|]. rewrite total_of_snoc. by eapply wraps_add.
Qed.

Lemma ingest_bundle_spec O w0 packets ks items c r (Q : option (list TransactionKey * Z * Z) → S → Prop) (st : S) :
  Inv O st → ingesting O w0 (sch st) (wld st) ks items c r → Forall lockable_packet packets →
  (∀ st', bundle_items (wld st) packets = None → Inv O st' → same_sched (sch st) (sch st') →
     restored w0 (wld st') → Q None st') →
  (∀ w' ks' items' c' r', bundle_items (wld st) packets = Some items' → Inv O (mk (sch st) w') →
     ingesting O w0 (sch st) w' (ks ++ ks') (items ++ items') c' r' → Q (Some (ks ++ ks', c', r')) (mk (sch st) w')) →
  wp ingest_panic (ingest_bundle packets ks c r) Q st.
Proof.
  revert ks items c r st. induction packets as [|packet packets IH]; intros ks items c r [s w] HI Hig Hpks HN HS; simpl.
  { wp_steps. rewrite <- (app_nil_r ks). apply (HS w [] []); [done..|]. by rewrite !app_nil_r. }
  apply Forall_cons in Hpks as [Hpk Hpks]. unfold insert_transaction. wp_steps. simpl in *.
  pose proof (ig_inserted _ _ _ _ _ _ _ _ Hig) as Hins. pose proof (ig_beyond _ _ _ _ _ _ _ _ Hig) as Hb.
  destruct (w_insert_transaction packet w) as [[k|] w'] eqn:Hi; simpl in *; last first.
  { apply wp_ingest. apply (wp_ingest_failed O w0 ks _ (mk s w')); [by eapply Inv_insert_refused| | |].
    - by eapply inserted_not_held.
    - destruct Hb as [Hn Ho]. split; [done|]. simpl. by rewrite (insert_transaction_refused _ _ _ Hi).
    - intros st'. by apply HN. }
  destruct (Inv_insert O s w w' packet k HI Hi) as (HI' & _ & Hl & _). destruct Hl as (tx & Htx & _).
  rewrite Htx in HN, HS. simpl in HN, HS. wp_steps. apply (wp_transaction _ _ tx); [done|]. wp_step.
  apply wp_of_res_overflows; [apply cost_and_reward_overflows|]. intros [[c1 r1]|] Hcr; simpl in Hcr;
    rewrite Hcr in HN, HS; last first.
  { apply wp_ingest. apply (wp_ingest_failed O w0 (ks ++ [k]) _ (mk s w')); [done| | |intros st'; by apply HN].
    - exact (inserted_not_held _ _ _ _ (inserted_snoc _ _ _ _ _ _ _ HI Hins Hi Hpk)).
    - by eapply beyond_insert. }
  wp_step. apply wp_of_res_overflows; [apply sum_u64_overflows|]. intros tip Htip. rewrite Htip in HN, HS. wp_step.
  apply wp_u64_add_wraps. intros c' Hc' Hcw. wp_step. apply wp_u64_add_wraps. intros gain Hgain Hgw. wp_step.
  apply wp_u64_add_wraps. intros r' Hr' Hrw.
  assert (wraps r' (r + (r1 + tip))) as Hrw'.
  { unfold wraps in *. subst. by rewrite Zplus_mod_idemp_r. }
  apply (IH (ks ++ [k]) (items ++ [(tx, c1, r1 + tip)]) c' r' (mk s w')); [done|by eapply (ingesting_snoc O w0 s w w')|done|..]; simpl.
  - intros st' Hnone. apply HN. by rewrite Hnone.
  - intros w2 ks' items' c2 r2 Hsome. rewrite <- !app_assoc. intros HI2 Hig2.
    apply (HS w2 (k :: ks') ((tx, c1, r1 + tip) :: items')); [by rewrite Hsome|done..].
Qed.

Lemma wp_any_filtered E ks (txs : list TransactionState) (Q : bool → S → Prop) (st : S) :
  Forall2 (λ k tx, w_transaction (wld st) k = Some tx) ks txs →
  Q (existsb (λ tx, should_filter_static (sch st) (data tx)) txs) st → wp E (any_filtered ks) Q st.
Proof.
  intros Htx HQ. induction Htx as [|k tx ks txs Hk _ IH]; simpl in *; [by wp_steps|]. wp_step.
  apply (wp_transaction _ _ tx); [done|].
  wp_steps. destruct (should_filter_static _ _); [by wp_steps|by apply IH].
Qed.

Lemma wp_emit_all ks prio action (Q : unit → S → Prop) (st : S) :
  (∀ k, k ∈ ks → live (wld st) k) → (∀ st', quiet st st' → Q tt st') →
  wp benign (for_each ks (λ k, emit_tx_event k prio action)) Q st.
Proof.
  intros Hl HQ. eapply wp_mono.
  - apply (wp_for_each _ _ _ (λ l st', l ⊆ ks ∧ quiet st st')); [done|].
    intros k l st' [Hsub Hq]. apply wp_emit_tx_event.
    + eapply quiet_live; [done|]. apply Hl, Hsub. by left.
    + intros st2 Hq2. split; [set_solver|]. by etransitivity.
  - intros [] st' [_ Hq]. by apply HQ.
Qed.

Lemma held_insert_bundle O b (s : Sched) :
  b ∉ bundles s →
  held_keys O (s <| bundles ::= insert_sorted b |>) ≡ₚ keys b ++ held_keys O s.
Proof.
  intros Hb. unfold held_keys, locking_keys. simpl. rewrite (insert_sorted_Permutation b _ Hb). simpl.
  solve_Permutation.
Qed.

Lemma bundle_not_present O ks b (s : Sched) :
  NoDup (ks ++ held_keys O s) → keys b = ks → ks ≠ [] → b ∉ bundles s.
Proof.
  intros Hnd Hks Hne Hb. destruct ks as [|k ks]; [done|].
  apply NoDup_app in Hnd as (_ & Hd & _). apply (Hd k); [by left|].
  unfold held_keys, locking_keys. rewrite !elem_of_app. do 4 right. rewrite elem_of_concat.
  exists (keys b). split; [rewrite Hks; by left|by apply list_elem_of_fmap_2].
Qed.

(** Storing a bundle: the lowest goes if there are [bundle_capacity] of them. *)
Lemma Inv_pop_bundle O b l (st : S) :
  Inv O st → bundles (sch st) = b :: l →
  Inv O (mk ((sch st) <| bundles := l |>) (wld st)) ∧
  held_keys O (sch st) ≡ₚ keys b ++ held_keys O ((sch st) <| bundles := l |>).
Proof.
  intros HI Hb.
  assert (held_keys O (sch st) ≡ₚ keys b ++ held_keys O ((sch st) <| bundles := l |>)) as Hp.
  { unfold held_keys, locking_keys. simpl. rewrite Hb. simpl. solve_Permutation. }
  split; [|done]. pose proof (inv_keys _ _ HI) as Hnd. rewrite Hp in Hnd.
  apply NoDup_app in Hnd as (_ & _ & Hnd). pose proof (inv_bundles _ _ HI) as Hs.
  pose proof (inv_bundle_costs _ _ HI) as Hc. rewrite Hb in Hs, Hc.
  apply sorted_inv in Hs as [Hs _]. apply Forall_cons in Hc as [_ Hc].
  destruct st as [s w]. eapply (Inv_change O s w); try apply HI; try done.
  - intros k Hk. apply (inv_live _ _ HI). simpl in *. rewrite Hp. apply elem_of_app. by right.
  - intros k Hk. left. split; [|done]. revert Hk. rewrite !elem_of_locking. simpl in *.
    rewrite Hb. set_solver.
Qed.

Lemma wp_evict_bundle O b l (Q : unit → S → Prop) (st : S) :
  Inv O st → bundles (sch st) = b :: l →
  (∀ st', Inv O st' → same_sched ((sch st) <| bundles := l |>) (sch st') →
     (∀ ks, inserted O (sch st) (wld st) ks → inserted O (sch st') (wld st') ks) →
     (∀ k, k ∉ keys b → w_transaction (wld st') k = w_transaction (wld st) k) → gone (wld st') (keys b) →
     Q tt st') →
  wp benign evict_bundle Q st.
Proof.
  intros HI Hb HQ. destruct (Inv_pop_bundle O b l st HI Hb) as [HI' Hp].
  pose proof (inv_keys _ _ HI) as Hnd. rewrite Hp in Hnd.
  apply NoDup_app in Hnd as (_ & Hd & _).
  unfold evict_bundle. wp_steps. rewrite Hb. simpl. wp_steps.
  apply (wp_drop_keys _ O); [exact HI'|exact Hd|].
  intros w' HI1 Hw Hg. apply wp_increment. intros st' Hq. pose proof (proj2 Hq) as Htab. simpl in Htab.
  apply HQ; [by eapply quiet_inv|apply Hq| |intros k Hk; rewrite Htab; by apply Hw|by eapply gone_same].
  intros ks (Hnd' & Hl & Hlock). apply (inserted_quiet O _ _ _ Hq).
  rewrite Hp, (Permutation_app_swap_app) in Hnd'.
  apply NoDup_app in Hnd' as (_ & Hd' & Hnd').
  assert (∀ k, k ∈ ks → w_transaction w' k = w_transaction (wld st) k) as Hks.
  { intros k Hk. apply Hw. intros Hkb. apply (Hd' k Hkb), elem_of_app. by left. }
  split; [done|]. split; intros k Hk; unfold live, lockable, tx_locks; simpl; rewrite Hks by done.
  - by apply Hl.
  - by apply Hlock.
Qed.

(** What becomes of the bundles when one is stored. *)
Definition stored_bundle (b : BundleId) (s s' : Sched) : Prop :=
  bundles s' = insert_sorted b
    (if decide (length (bundles s) = bundle_capacity s) then tail (bundles s) else bundles s).

(** The transactions of the bundle that makes room. *)
Definition evicted_keys (s : Sched) : list TransactionKey :=
  if decide (length (bundles s) = bundle_capacity s) then default [] (keys <$> hd_error (bundles s)) else [].

Lemma wp_bundle_room O ks (Q : unit → S → Prop) (st : S) :
  Inv O st → inserted O (sch st) (wld st) ks → bundle_capacity (sch st) ≠ 0%nat →
  (∀ st', Inv O st' → inserted O (sch st') (wld st') ks →
     bundles (sch st') = (if decide (length (bundles (sch st)) = bundle_capacity (sch st))
                          then tail (bundles (sch st)) else bundles (sch st)) →
     (∀ k, k ∉ evicted_keys (sch st) → w_transaction (wld st') k = w_transaction (wld st) k) →
     gone (wld st') (evicted_keys (sch st)) → Q tt st') →
  wp benign (when (length (bundles (sch st)) =? bundle_capacity (sch st))%nat evict_bundle) Q st.
Proof.
  intros HI Hins Hcap HQ. unfold evicted_keys in HQ.
  destruct (decide (length (bundles (sch st)) = bundle_capacity (sch st))) as [Hc|Hc].
  - rewrite (proj2 (Nat.eqb_eq _ _) Hc). destruct (bundles (sch st)) as [|b l] eqn:Hb.
    { simpl in Hc. lia. }
    apply (wp_evict_bundle O b l); [done..|]. intros st' HI' [stats Hs] Hins' Hw Hg.
    apply HQ; [done|by apply Hins'|by rewrite Hs|done..].
  - rewrite (proj2 (Nat.eqb_neq _ _) Hc). apply HQ; [done..|]. intros _ k Hk. by apply elem_of_nil in Hk.
Qed.

Lemma Inv_insert_bundle O b (st : S) :
  Inv O st → inserted O (sch st) (wld st) (keys b) → is_u64 (b_cost b) → keys b ≠ [] →
  Inv O (mk ((sch st) <| bundles ::= insert_sorted b |>) (wld st)).
Proof.
  intros HI (Hnd & Hl & Hlock) Hc Hne. pose proof (bundle_not_present O _ b _ Hnd eq_refl Hne) as Hb.
  pose proof (held_insert_bundle O b _ Hb) as Hp. destruct st as [s w].
  eapply (Inv_change O s w); try apply HI; try done.
  - apply insert_sorted_sorted, (inv_bundles _ _ HI).
  - simpl. rewrite insert_sorted_Permutation by done. apply Forall_cons.
    split; [done|]. apply (inv_bundle_costs _ _ HI).
  - by rewrite Hp.
  - intros k. rewrite Hp. intros [Hk|Hk]%elem_of_app; [by apply Hl|by apply (inv_live _ _ HI)].
  - intros k Hk. destruct (decide (k ∈ keys b)) as [Hkb|Hkb]; [right; by apply Hlock|].
    left. split; [|done]. revert Hk. rewrite !elem_of_locking. simpl.
    intros [?|[?|[?|(b' & Hb' & ?)]]]; [tauto..|]. do 3 right. exists b'. split; [|done].
    rewrite insert_sorted_Permutation, elem_of_cons in Hb' by done. destruct Hb'; [by subst|done].
Qed.

(** A bundle that is refused leaves nothing behind. *)
Definition refused (st st' : S) : Prop :=
  same_sched (sch st) (sch st') ∧ restored (wld st) (wld st').

(** A bundle that is stored: its transactions are new in the bridge, those of
    the bundle that made room are gone, the others are as before. *)
Record stored (items : list (TransactionState * Z * Z)) (b : BundleId) (st st' : S) : Prop := {
  sto_bundles : stored_bundle b (sch st) (sch st');
  sto_cost : wraps (b_cost b) (total_of (λ i, i.1.2) items);
  sto_priority : b_priority b = bundle_priority (b_cost b) (total_of snd items mod 2 ^ 64);
  sto_distinct : NoDup (keys b);
  sto_items : Forall2 (λ k i, w_transaction (wld st) k = None ∧ w_transaction (wld st') k = Some i.1.1) (keys b) items;
  sto_evicted : gone (wld st') (evicted_keys (sch st));
  sto_other k : k ∉ keys b → k ∉ evicted_keys (sch st) → w_transaction (wld st') k = w_transaction (wld st) k;
}.

(** A bundle is taken if the bridge takes all its transactions, the cost of each
    can be calculated, and none names a filtered account. *)
Definition admitted (st : S) (packets : list u8s) : option (list (TransactionState * Z * Z)) :=
  items ← bundle_items (wld st) packets;
  if existsb (λ i, should_filter_static (sch st) (data i.1.1)) items then None else Some items.

Definition bundle_outcome packets (st st' : S) : Prop :=
  match admitted st packets with
  | None => refused st st'
  | Some items => ∃ b, stored items b st st'
  end.

Lemma existsb_fmap {A B} (f : A → B) p (l : list A) : existsb p (f <$> l) = existsb (λ x, p (f x)) l.
Proof. induction l as [|x l IH]; [done|]. simpl. f_equal. exact IH. Qed.

Lemma evicted_held O (st : S) k : k ∈ evicted_keys (sch st) → k ∈ held_keys O (sch st).
Proof.
  unfold evicted_keys. case_decide; [|by intros ?%elem_of_nil].
  destruct (bundles (sch st)) as [|b l] eqn:Hb; simpl; [by intros ?%elem_of_nil|]. intros Hk.
  unfold held_keys, locking_keys. rewrite !elem_of_app. do 4 right. rewrite Hb. simpl. apply elem_of_app. by left.
Qed.

(** The bundle that was ingested is stored. *)
Lemma store_bundle_ok O ks items c r (st st0 : S) :
  Inv O st → ingesting O (wld st0) (sch st) (wld st) ks items c r → sch st = sch st0 →
  ks ≠ [] → bundle_capacity (sch st) ≠ 0%nat →
  wp benign (
    let prio := bundle_priority c r in
    let* k0 := unwrap "on_bundle: keys[0]" (ks !! 0%nat) in
    let* tx0 := transaction k0 in
    let* sig := unwrap "on_bundle: signatures()[0]" (tv_signatures (data tx0) !! 0%nat) in
    let bundle_id := signature_to_string sig in
    for_each ks (λ k, emit_tx_event k prio (Ingest Jito (Some bundle_id))) ;;
    let* s := self id in
    when (length (bundles s) =? bundle_capacity s)%nat evict_bundle ;;
    increment m_recv_bundle_ok 1 ;;
    let* now := call w_instant_now in
    update (λ s, s <| bundles ::= λ l, (btree_insert
      {| b_priority := prio; b_cost := c; received_at := now; keys := ks |} l).2 |>))
    (λ _ st', Inv O st' ∧ ∃ b, stored items b st0 st') st.
Proof.
  intros HI [Hins [Hnew Hother] Hit [Hc Hcw] [Hr Hrw]] Hs0 Hks Hcap. cbv zeta. wp_step.
  apply wp_unwrap; [by destruct ks|]. intros k Hk%list_elem_of_lookup_2. wp_step.
  destruct (proj1 (proj2 Hins) k Hk) as (tx & Htx & Hsig). unfold signed in Hsig.
  apply (wp_transaction _ _ tx); [done|]. wp_step.
  apply wp_unwrap; [by destruct (tv_signatures (data tx))|]. intros sig _. cbv zeta. wp_step.
  apply (wp_emit_all ks); [apply Hins|]. intros st1 Hq. wp_steps.
  assert (bundles (sch st1) = bundles (sch st) ∧ bundle_capacity (sch st1) = bundle_capacity (sch st)) as [Hb1 Hc1].
  { destruct Hq as [[stats ->] _]. done. }
  apply (wp_bundle_room O ks); [by eapply quiet_inv|by eapply inserted_quiet|by rewrite Hc1|].
  assert (evicted_keys (sch st1) = evicted_keys (sch st0)) as -> by (unfold evicted_keys; by rewrite Hb1, Hc1, Hs0).
  intros st2 HI2 Hins2 Hb2 Hw2 Hg2. wp_step. apply wp_increment. intros st3 Hq3. wp_steps.
  set (b := Build_BundleId _ _ _ _). set (w4 := (w_instant_now (wld st3)).2).
  assert (quiet st2 (mk (sch st3) w4)) as Hq4.
  { split; [apply Hq3|]. simpl. unfold w4. rewrite instant_now_transaction. apply Hq3. }
  assert (w_transaction w4 = w_transaction (wld st2)) as Hw4 by apply Hq4.
  assert (∀ k', k' ∉ evicted_keys (sch st0) → w_transaction w4 k' = w_transaction (wld st) k') as Htab.
  { intros k' Hk'. rewrite Hw4, Hw2 by done. by rewrite (proj2 Hq). }
  split; [apply (Inv_insert_bundle O b (mk (sch st3) w4)); [by eapply quiet_inv|by eapply inserted_quiet|done|done]|].
  exists b. split; simpl.
  - unfold stored_bundle. simpl. destruct Hq3 as [[stats3 ->] _]. simpl. by rewrite Hb2, Hb1, Hc1, Hs0.
  - done.
  - unfold wraps in Hrw. by rewrite <- Hrw.
  - destruct Hins as [Hnd _]. by apply NoDup_app in Hnd as [? _].
  - assert (∀ k', k' ∈ ks → w_transaction w4 k' = w_transaction (wld st) k') as Hksw.
    { intros k' Hk'. apply Htab. intros Hev%(evicted_held O st0). rewrite <- Hs0 in Hev.
      by apply (inserted_not_held _ _ _ _ Hins k' Hk'). }
    clear -Hit Hnew Hksw. induction Hit as [|k' i ks items Hi _ IH]; constructor.
    + split; [apply Hnew; by left|]. rewrite Hksw by by left. done.
    + apply IH; intros k'' Hk''; [apply Hnew|apply Hksw]; by right.
  - by eapply gone_same.
  - intros k' Hk1 Hk2. rewrite Htab by done. by apply Hother.
Qed.

Lemma on_bundle_ok O packets (st : S) :
  Inv O st → packets ≠ [] → Forall lockable_packet packets → bundle_capacity (sch st) ≠ 0%nat →
  wp ingest_panic (on_bundle packets) (λ _ st', Inv O st' ∧ bundle_outcome packets st st') st.
Proof.
  intros HI Hne Hpks Hcap. unfold on_bundle, bundle_outcome, admitted. wp_step.
  assert (is_u64 0) as Hz by (unfold is_u64, U64_MAX; lia).
  apply (ingest_bundle_spec O (wld st) packets [] [] 0 0); [done| |done|..].
  { split; [|split; [by intros k ?%elem_of_nil|done]|constructor|done..].
    split; [apply (inv_keys _ _ HI)|]. split; intros k Hk; by apply elem_of_nil in Hk. }
  { intros st' -> HI' Hs Hr. wp_steps. by split. }
  intros w' ks items c r Hsome HI' Hig. rewrite Hsome. simpl in Hig |- *. apply wp_ingest. wp_step.
  pose proof (ig_items _ _ _ _ _ _ _ _ Hig) as Hit.
  apply (wp_any_filtered _ _ (fst ∘ fst <$> items)).
  { apply Forall2_fmap_r. exact Hit. }
  rewrite existsb_fmap. simpl. destruct (existsb _ items) eqn:Hf.
  { wp_step. apply wp_increment. intros st' Hq. apply (wp_drop_keys _ O).
    - by eapply quiet_inv.
    - rewrite (quiet_held O _ _ Hq). eapply inserted_not_held, Hig.
    - intros w2 HI2 Hw2 Hg2. split; [done|]. split; [apply Hq|].
      eapply beyond_dropped; [|exact Hw2|exact Hg2]. destruct (ig_beyond _ _ _ _ _ _ _ _ Hig) as [Hn Ho].
      split; [done|]. intros k Hk. rewrite (proj2 Hq). by apply Ho. }
  assert (ks ≠ []) as Hks.
  { intros ->. apply Forall2_nil_inv_l in Hit as ->. apply bundle_items_length in Hsome. by destruct packets. }
  eapply wp_mono; [by apply (store_bundle_ok O ks items c r (mk (sch st) w') st)|].
  intros [] st' [HI2 (b & Hb)]. split; [done|]. by exists b.
Qed.

(** C20: a bundle from Jito is taken as a whole or refused as a whole.  It is
    taken exactly if the bridge takes all its transactions, the cost of each can
    be calculated, and none names a filtered account.  Then it is stored with
    its transactions, new in the bridge, under the sum of their costs and the
    priority of that and the sum of their rewards and tips, each modulo 2^64,
    after the lowest bundle has made room, its transactions dropped, when there
    are [bundle_capacity] of them.  Otherwise the scheduler is as before, and so
    is every transaction of the bridge: those inserted for it are dropped. *)
Theorem on_bundle_inv `{!DropLaws (W := W)} O packets (st : S) :
  Inv O st → packets ≠ [] → Forall lockable_packet packets → bundle_capacity (sch st) ≠ 0%nat →
  wp ingest_panic (on_bundle packets) (λ _ st',
    Inv O st' ∧
    match admitted st packets with
    | None =>
        same_sched (sch st) (sch st') ∧ ∀ k, w_transaction (wld st') k = w_transaction (wld st) k
    | Some items => ∃ b,
        bundles (sch st') = insert_sorted b
          (if decide (length (bundles (sch st)) = bundle_capacity (sch st))
           then tail (bundles (sch st)) else bundles (sch st)) ∧
        b_cost b = total_of (λ i, i.1.2) items mod 2 ^ 64 ∧
        b_priority b = bundle_priority (b_cost b) (total_of snd items mod 2 ^ 64) ∧ NoDup (keys b) ∧
        Forall2 (λ k i, w_transaction (wld st) k = None ∧ w_transaction (wld st') k = Some i.1.1) (keys b) items ∧
        (∀ k, k ∈ evicted_keys (sch st) → w_transaction (wld st') k = None) ∧
        ∀ k, k ∉ keys b → k ∉ evicted_keys (sch st) → w_transaction (wld st') k = w_transaction (wld st) k
    end) st.
Proof.
  intros HI Hne Hpks Hcap. eapply wp_mono; [by apply (on_bundle_ok O)|]. intros [] st' [HI' Ho]. split; [done|].
  unfold bundle_outcome in Ho. destruct (admitted st packets) as [items|].
  - destruct Ho as (b & [Hb Hc Hp Hnd Hit Hg Hother]). exists b. split_and!; try done. by apply Hg.
  - destruct Ho as [Hs Hr]. split; [done|]. by apply Hr.
Qed.

(** ** Expiry *)

(** The bundles that stay after the expired ones are taken out. *)
Lemma Inv_keep_bundles O (p : BundleId → bool) (st : S) :
  Inv O st →
  let s' := (sch st) <| bundles := List.filter (λ b, negb (p b)) (bundles (sch st)) |> in
  Inv O (mk s' (wld st)) ∧
  (∀ b, b ∈ List.filter p (bundles (sch st)) →
     (b ∉ bundles s') ∧ ∀ k, k ∈ keys b → k ∉ held_keys O s').
Proof.
  intros HI s'. pose proof (filter_split p (bundles (sch st))) as Hsp.
  pose proof (filter_sublist (λ b, negb (p b)) (bundles (sch st))) as Hsub.
  assert (held_keys O (sch st) ≡ₚ
    concat (keys <$> List.filter p (bundles (sch st))) ++ held_keys O s') as Hp.
  { unfold held_keys, locking_keys. simpl. rewrite Hsp at 1. rewrite fmap_app, concat_app. solve_Permutation. }
  pose proof (inv_keys _ _ HI) as Hnd. rewrite Hp in Hnd. apply NoDup_app in Hnd as (_ & Hd & Hnd).
  destruct st as [s w]. simpl in *. split.
  - eapply (Inv_change O s w); try apply HI; try done.
    + eapply sorted_sublist; [done|]. apply (inv_bundles _ _ HI).
    + eapply Forall_sublist_of; [done|]. apply (inv_bundle_costs _ _ HI).
    + intros k Hk. apply (inv_live _ _ HI). simpl. rewrite Hp. apply elem_of_app. by right.
    + intros k Hk. left. split; [|done]. revert Hk. rewrite !elem_of_locking. simpl.
      intros [?|[?|[?|(b & Hb & ?)]]]; [tauto..|]. do 3 right. exists b. split; [|done].
      rewrite list_elem_of_In, filter_In in Hb. rewrite list_elem_of_In. tauto.
  - intros b Hb. split.
    + rewrite list_elem_of_In, filter_In. rewrite list_elem_of_In, filter_In in Hb.
      destruct Hb as [_ ->]. naive_solver.
    + intros k Hk. apply Hd. rewrite elem_of_concat. exists (keys b).
      split; [done|by apply list_elem_of_fmap_2].
Qed.

(** Exactly the bundles older than the expiry go, their transactions are
    dropped, and the others keep their order. *)
Lemma drop_expired_bundles_ok O (st : S) :
  Inv O st →
  wp benign drop_expired_bundles (λ _ st',
    Inv O st' ∧
    same_sched ((sch st) <| bundles := List.filter
      (λ b, negb (is_expired (w_instant_now (wld st)).1 (bundle_expiry (runtime (sch st))) b))
      (bundles (sch st)) |>) (sch st')) st.
Proof.
  intros HI. unfold drop_expired_bundles. wp_steps. cbn [sch wld btree_extract_if].
  set (p := is_expired _ _).
  destruct (Inv_keep_bundles O p st HI) as [HI1 Hb]. set (s1 := set bundles _ _) in HI1, Hb |- *.
  eapply wp_mono.
  - apply (wp_for_each _ _ _ (λ l st', l ⊆ List.filter p (bundles (sch st)) ∧
      Inv O st' ∧ same_sched s1 (sch st'))).
    { split_and!; [done| |by exists (slot_stats s1)].
      eapply quiet_inv, HI1. split; [by exists (slot_stats s1)|].
      simpl. by rewrite instant_now_transaction. }
    intros b l [s2 w2] (Hl & HI2 & [stats Hs2]). simpl in Hs2. subst s2.
    destruct (Hb b) as [Hnot Hks]; [apply Hl; by left|]. wp_step. wp_step.
    assert (set bundles (λ l, (btree_remove b l).2) (s1 <| slot_stats := stats |>)
            = s1 <| slot_stats := stats |>) as Hsame.
    { unfold btree_remove. simpl. by rewrite remove_sorted_absent. }
    match goal with |- wp _ _ _ ?s2 =>
      replace s2 with (mk (s1 <| slot_stats := stats |>) w2)
        by (symmetry; exact (f_equal (λ s, mk s w2) Hsame))
    end.
    wp_step. apply wp_increment. intros st3 Hq.
    apply (wp_drop_keys _ O); [by eapply quiet_inv| |].
    { intros k Hk. rewrite (quiet_held O _ _ Hq). by apply Hks. }
    intros w' HI' _ _. split_and!; [set_solver|done|]. destruct Hq as [[stats3 Hs3] _].
    exists stats3. simpl in *. by rewrite Hs3.
  - intros [] st' (_ & HI' & Hs). done.
Qed.

(** C39: once the channel is disconnected by a shutdown, [drain_jito] never
    ends: the arm of the disconnect asserts the shutdown and goes round
    again. *)
Theorem drain_jito_spins fuel (st : S) :
  w_jito_try_recv (wld st) = (Disconnected, wld st) → w_shutdown_is_cancelled (wld st) = true →
  drain_jito fuel st = Hang.
Proof.
  intros Hd Hc. unfold drain_jito. induction fuel as [|fuel IH]; [done|]. simpl. unfold bindM at 1.
  assert (drain_jito_round st = Ok (Continue, st)) as ->; [|exact IH].
  unfold drain_jito_round, bindM, call, step. rewrite Hd. destruct st as [s w]. simpl in *.
  unfold bridge, gets. simpl. by rewrite Hc.
Qed.
End Ingest.
