(* ===== verification/BatchSlot.v ===== *)
(** * Slots of the batch scheduler

    The roll to a new slot, the check for a dead validator, and the
    transactions that make the leader the tip receiver, against the invariant
    of [BatchInvariant]. *)

From S2P Require Import Prelude BTreeSet Types Events Externals LockTable TipProgram Costs.
From S2P Require Import Common Outstanding BatchScheduler BatchInvariant BatchHandlers BatchExecute.
From S2P Require Import BatchIngest.

Section Slot.
Context `{Profile} `{AgaveBindings} `{World W} `{!WorldLaws} {Heap DSet : Type}
  `{MinMaxHeap Heap PriorityId} `{!MinMaxHeapLaws Heap PriorityId}
  `{IndexSet DSet PriorityId} `{!IndexSetLaws DSet PriorityId}.
Abbreviation Sched := (BatchScheduler Heap DSet).
Abbreviation S := (St Sched W).

(** The fields the invariant speaks of. *)
Definition same_core (s s' : Sched) : Prop :=
  unchecked_tx s' = unchecked_tx s ∧ checked_tx s' = checked_tx s ∧
  deferred_tx s' = deferred_tx s ∧ bundles s' = bundles s ∧
  executing_tx s' = executing_tx s ∧ in_flight_cus s' = in_flight_cus s ∧
  in_flight_locks s' = in_flight_locks s.

Lemma Inv_core O (st st' : S) :
  Inv O st → same_core (sch st) (sch st') → w_transaction (wld st') = w_transaction (wld st) →
  Inv O st'.
Proof.
  intros HI (Hu & Hc & Hd & Hb & He & Hi & Hl) Hw. destruct st as [s w], st' as [s' w']. simpl in *.
  assert (held_keys O s' = held_keys O s) as Hh by (unfold held_keys, locking_keys; by rewrite Hu, Hc, Hd, Hb).
  apply (Inv_change O s w); try done; rewrite ?Hh, ?Hc, ?Hd, ?Hb; try apply HI.
  - intros k Hk. eapply live_transaction; [done|]. by apply (inv_live _ _ HI).
  - intros k Hk. left. rewrite Hw. split; [|done]. revert Hk. unfold locking_keys. by rewrite Hc, Hd, Hb.
  - intros k _. by rewrite Hw.
Qed.

(** ** Deferred transactions come back *)

Lemma wp_drain_deferred E O (Q : unit → S → Prop) (st : S) :
  Inv O st →
  (∀ l d, Inv O (mk ((sch st) <| checked_tx := l |> <| deferred_tx := d |>) (wld st)) →
     l ≡ₚ iset_elements (deferred_tx (sch st)) ++ checked_tx (sch st) →
     iset_elements d = [] →
     Q tt (mk ((sch st) <| checked_tx := l |> <| deferred_tx := d |>) (wld st))) →
  wp E drain_deferred Q st.
Proof.
  intros HI HQ. unfold drain_deferred. wp_steps.
  destruct (iset_drain_spec (deferred_tx (sch st))) as (d & -> & Hd). wp_steps.
  eapply wp_mono.
  - apply (wp_for_each _ _ _ (λ rest st', ∃ l,
      st' = mk ((sch st) <| checked_tx := l |> <| deferred_tx := d |>) (wld st) ∧ sorted l ∧
      rest ++ l ≡ₚ iset_elements (deferred_tx (sch st)) ++ checked_tx (sch st))).
    { exists (checked_tx (sch st)). split; [by destruct st as [[]]|]. split; [apply HI|done]. }
    intros m rest s (l & -> & Hs & Hp). unfold insert_checked. wp_steps. simpl.
    assert (m ∉ l) as Hm.
    { pose proof (inv_keys _ _ HI) as Hnd. unfold held_keys, locking_keys in Hnd.
      rewrite !(assoc_L (++)) in Hnd. do 2 apply NoDup_app in Hnd as [Hnd _].
      rewrite <- (assoc_L (++)) in Hnd. apply NoDup_app in Hnd as (_ & _ & Hnd).
      rewrite Permutation_app_comm, <- fmap_app, <- Hp in Hnd. apply NoDup_fmap_1 in Hnd.
      simpl in Hnd. apply NoDup_cons in Hnd as [Hm _]. set_solver. }
    rewrite (proj2 (btree_contains_false m l) Hm). simpl. wp_steps.
    exists (insert_sorted m l). split; [done|]. split; [by apply insert_sorted_sorted|].
    rewrite insert_sorted_Permutation by done. rewrite <- Hp. solve_Permutation.
  - intros [] s (l & -> & Hs & Hp). simpl in Hp. apply HQ; [|done|done].
    destruct st as [s w]. simpl in *.
    assert (held_keys O (s <| checked_tx := l |> <| deferred_tx := d |>) ≡ₚ held_keys O s) as Hh.
    { unfold held_keys, locking_keys. simpl. rewrite Hp, Hd, fmap_app. simpl. solve_Permutation. }
    apply (Inv_change O s w); try apply HI; try done.
    + simpl. rewrite Hp, Hd, app_nil_r, Permutation_app_comm. apply HI.
    + rewrite Hh. apply HI.
    + intros k. rewrite Hh. apply HI.
    + intros k Hk. left. split; [|done]. revert Hk. unfold locking_keys. simpl.
      rewrite Hp, Hd, fmap_app, !elem_of_app. simpl. set_solver.
Qed.

(** ** The roll *)

Lemma wp_emit_slot_stats O em (Q : unit → S → Prop) (st : S) :
  Inv O st →
  (∀ st', Inv O st' → same_sched (sch st) (sch st') → Q tt st') →
  wp benign (
    when (negb (slot (sch st) =? 0)) (
      let* stats := self slot_stats in
      update (λ s, s <| slot_stats := SlotStatsEvent_default |>) ;;
      emit em (SlotStats stats))) Q st.
Proof.
  intros HI HQ. apply wp_when; intros _.
  - wp_steps. apply wp_emit. intros st' Hq. apply HQ.
    + eapply quiet_inv; [exact Hq|]. eapply Inv_core; [exact HI|by split_and!|done].
    + destruct Hq as [[stats Hs] _]. exists stats. by rewrite Hs.
  - apply HQ; [done|]. exists (slot_stats (sch st)). by destruct (sch st).
Qed.

(** What a roll to [sl] leaves behind. *)
Definition rolled (sl : Z) (s s' : Sched) : Prop :=
  slot s' = sl ∧ was_leader_ready (slot_stats s') = false ∧
  iset_elements (deferred_tx s') = [] ∧
  checked_tx s' ≡ₚ iset_elements (deferred_tx s) ++ checked_tx s ∧
  next_recheck s' = match next_recheck s with Some r => Some r | None => btree_last (checked_tx s') end ∧
  executing_tx s' = executing_tx s ∧ tip_config s' = tip_config s.

Lemma wp_roll_events O p (Q : unit → S → Prop) (st : S) :
  Inv O st →
  (∀ st', Inv O st' → (∃ stats evs, sch st' = (sch st) <| slot_stats := stats |> <| events := evs |>) →
     Q tt st') →
  wp benign (
    match events (sch st) with
    | None => mret tt
    | Some em =>
        let* sl := self slot in
        when (negb (sl =? 0)) (
          let* stats := self slot_stats in
          update (λ s, s <| slot_stats := SlotStatsEvent_default |>) ;;
          emit em (SlotStats stats)) ;;
        let em' := em <| ctx ::= EventContext_set (current_slot p) |> in
        update (λ s, s <| events := Some em' |>) ;;
        emit em' SlotStart
    end) Q st.
Proof.
  intros HI HQ. destruct (events (sch st)) as [em|] eqn:He.
  - wp_steps. apply (wp_emit_slot_stats O); [done|]. intros st1 HI1 [stats1 Hs1]. cbv zeta.
    wp_steps. apply wp_emit. intros st2 Hq. apply HQ.
    + eapply quiet_inv; [exact Hq|]. eapply Inv_core; [exact HI1|by split_and!|done].
    + destruct Hq as [[stats2 Hs2] _]. rewrite Hs2. simpl. rewrite Hs1. by eexists _, _.
  - wp_steps. apply HQ; [done|]. exists (slot_stats (sch st)), (events (sch st)). by destruct (sch st).
Qed.

Lemma roll_slot_ok O p (st : S) :
  Inv O st →
  wp benign (roll_slot p) (λ _ st', Inv O st' ∧ rolled (current_slot p) (sch st) (sch st')) st.
Proof.
  intros HI. unfold roll_slot. do 3 wp_step.
  apply (wp_roll_events O p _ st HI). intros st1 HI1 (stats & evs & Hs1). wp_steps.
  apply (wp_drain_deferred _ O); simpl.
  { eapply Inv_core; [exact HI1|by split_and!|done]. }
  intros l d HI2 Hl Hd. unfold start_recheck. wp_steps. split.
  - eapply Inv_core; [exact HI2|by split_and!|done].
  - unfold rolled. simpl. rewrite Hs1 in *. simpl in *. split_and!; done.
Qed.

(** ** The tip receiver *)

Definition tip_metas (ks : list TransactionKey) : list PriorityId :=
  (λ k, {| priority := BUNDLE_MARKER; cost := 0; key := k |}) <$> ks.

Lemma tip_metas_keys ks : key <$> tip_metas ks = ks.
Proof. unfold tip_metas. rewrite <- list_fmap_compose. apply list_fmap_id. Qed.

Lemma tip_metas_cost ks : total_cost (tip_metas ks) = 0.
Proof. induction ks as [|k ks IH]; [done|exact IH]. Qed.

(** Transactions that were inserted, locked and declared together. *)
Lemma Inv_tip O i ks s s' w w' :
  Inv O (mk s w) → fresh_batch i O → inserted O s w ks →
  w_transaction w' = w_transaction w →
  unchecked_tx s' = unchecked_tx s → checked_tx s' = checked_tx s →
  deferred_tx s' = deferred_tx s → bundles s' = bundles s →
  in_flight_cus s' = in_flight_cus s →
  executing_tx s' = list_to_set ks ∪ executing_tx s →
  represents (in_flight_locks s') (grants_keys w (ks ++ okeys O)) →
  (∀ k, k ∈ ks → compatible (outstanding_grants w O) (tx_locks w k)) →
  Inv (entries i (tip_metas ks) ++ O) (mk s' w').
Proof.
  intros HI Hi (Hnd & Hl & Hlock) Hw Hu Hc Hd Hb Hcus He Hlk Hcomp.
  assert (∀ O, held_keys O s' = held_keys O s) as Hh by (intros; unfold held_keys, locking_keys; by rewrite Hu, Hc, Hd, Hb).
  assert (∀ k, tx_locks w' k = tx_locks w k) as Htl by (intros; unfold tx_locks; by rewrite Hw).
  apply (Inv_begin O i (tip_metas ks) s w); try done; rewrite ?Hc, ?Hd, ?Hb; try apply HI.
  - apply Forall_fmap, Forall_forall. intros k _. unfold is_u64, U64_MAX. simpl. lia.
  - rewrite tip_metas_keys, He, list_to_set_app_L. f_equal. apply (inv_executing _ _ HI).
  - rewrite tip_metas_cost. lia.
  - rewrite Hcus. apply HI.
  - rewrite outstanding_grants_keys, okeys_entries, tip_metas_keys.
    by rewrite (grants_keys_transaction w w').
  - intros m Hm. rewrite Htl. apply Hcomp. rewrite <- (tip_metas_keys ks). by apply list_elem_of_fmap_2.
  - by rewrite held_entries, tip_metas_keys, Hh.
  - intros k. rewrite held_entries, tip_metas_keys, Hh. intros Hk. eapply live_transaction; [done|].
    apply elem_of_app in Hk as [Hk|Hk]; [by apply Hl|by apply (inv_live _ _ HI)].
  - intros k Hk. unfold lockable. rewrite Htl. destruct (decide (k ∈ ks)) as [|Hks]; [by apply Hlock|].
    apply (inv_lockable _ _ HI). revert Hk. simpl. unfold locking_keys.
    rewrite Hc, Hd, Hb, okeys_entries, tip_metas_keys, !elem_of_app. tauto.
  - intros k _. by rewrite Hw.
Qed.

(** Inserting one of the scheduler's own transactions. *)
Definition own_packet (packet : u8s) : Prop :=
  ∃ ixs payer keypair hash, packet = sign_and_serialize ixs payer keypair hash.

Lemma own_packet_lockable packet : own_packet packet → lockable_packet packet.
Proof.
  intros (ixs & payer & keypair & hash & ->) w k w' Hi.
  destruct (insert_transaction_fresh _ _ _ _ Hi) as (_ & (tx & Htx & _) & _).
  unfold lockable, tx_locks. rewrite Htx. by eapply NoDup_fmap_1, insert_own_transaction.
Qed.

Lemma wp_insert_own O ks packet site (f : TransactionKey → M S unit) Q s w :
  Inv O (mk s w) → inserted O s w ks → own_packet packet → benign (PUnwrap site) →
  (∀ k w', Inv O (mk s w') → inserted O s w' (ks ++ [k]) → wp benign (f k) Q (mk s w')) →
  wp benign (let* o := insert_transaction packet in let* k := unwrap site o in f k) Q (mk s w).
Proof.
  intros HI Hins Hown Hsite Hf. unfold insert_transaction. wp_steps. simpl.
  destruct (w_insert_transaction packet w) as [[k|] w'] eqn:Hi; simpl; [|done].
  destruct (Inv_insert O s w w' packet k HI Hi) as (HI' & _).
  wp_steps. apply Hf; [done|]. apply (inserted_snoc O s w w' ks packet k HI Hins Hi).
  by apply own_packet_lockable.
Qed.

(** What waits to be executed, and for which slot. *)
Definition same_waiting (s s' : Sched) : Prop :=
  slot s' = slot s ∧ checked_tx s' = checked_tx s ∧ deferred_tx s' = deferred_tx s ∧
  bundles s' = bundles s.

(** What both tip transactions leave in the scheduler when they are sent. *)
Definition tip_declared (k1 k2 : TransactionKey) t (s : Sched) : Sched :=
  s <| in_flight_locks := t |> <| executing_tx ::= λ e, {[k2]} ∪ ({[k1]} ∪ e) |>.

(** The hand-over of both. *)
Definition tip_send (k1 k2 : TransactionKey) (sl : Z) : M S unit :=
  let* max_slot := of_res (u64_add "become_tip_receiver: slot + 4" sl 4) in
  schedule (tip_batch k1 max_slot) ;;
  schedule (tip_batch k2 max_slot).

Definition tips_compatible O (w : W) (k1 k2 : TransactionKey) : Prop :=
  compatible (outstanding_grants w O) (tx_locks w k1) ∧ compatible (outstanding_grants w O) (tx_locks w k2).

(** Locks taken and both transactions declared. *)
Lemma wp_tip_declare E O k1 k2 (f : M S unit) (Q : unit → S → Prop) s w :
  Inv O (mk s w) → inserted O s w [k1; k2] →
  (∀ t, represents t (grants_keys w ([k1; k2] ++ okeys O)) → wp E f Q (mk (tip_declared k1 k2 t s) w)) →
  wp E (
    lock_tx k1 ;;
    lock_tx k2 ;;
    let* new := insert_executing k1 in
    assert "become_tip_receiver: executing init" new ;;
    let* new := insert_executing k2 in
    assert "become_tip_receiver: executing change" new ;;
    f) Q (mk s w).
Proof.
  intros HI Hins HQ. pose proof (inserted_not_held _ _ _ _ Hins) as Hnh.
  pose proof (inv_locks _ _ HI) as Hrep. rewrite outstanding_grants_keys in Hrep. simpl in Hrep.
  assert (∀ k, k ∈ [k1; k2] → k ∉ okeys O) as Hno.
  { intros k Hk Ho. apply (Hnh k Hk). unfold held_keys, locking_keys. rewrite !elem_of_app. tauto. }
  assert (k1 ≠ k2) as Hne.
  { intros ->. destruct Hins as [Hnd _]. simpl in Hnd. apply NoDup_cons in Hnd as [Hn _]. set_solver. }
  wp_step. apply (wp_lock_tx _ _ (grants_keys w (okeys O))); [done|apply Hins; by left|apply Hins; by left| |].
  { intros a b. rewrite elem_of_grants_keys. intros [Ho _]. eapply Hno, Ho. by left. }
  intros t1 Ht1. wp_step. apply (wp_lock_tx _ _ (grants_keys w (k1 :: okeys O)));
    [done|apply Hins; right; by left|apply Hins; right; by left| |].
  { intros a b. rewrite elem_of_grants_keys. intros [[?|Ho]%elem_of_cons _]; [done|].
    eapply Hno, Ho. right; by left. }
  intros t2 Ht2. unfold insert_executing. wp_steps. simpl.
  assert (∀ k, k ∈ [k1; k2] → k ∉ executing_tx s) as Hex.
  { intros k Hk. rewrite (executing_spec O (mk s w)) by done. by apply Hno. }
  rewrite bool_decide_eq_true_2 by (apply Hex; by left).
  apply wp_assert; [done|intros _]. wp_steps. simpl.
  rewrite bool_decide_eq_true_2 by (specialize (Hex k2 ltac:(right; by left)); set_solver).
  apply wp_assert; [done|intros _]. apply HQ. simpl in *.
  rewrite (grants_keys_Permutation _ _ (k2 :: k1 :: okeys O)) by solve_Permutation. done.
Qed.

(** The invariant once both are sent. *)
Lemma Inv_tip_sent O i k1 k2 t s w w' :
  Inv O (mk s w) → fresh_batch i O → inserted O s w [k1; k2] → tips_compatible O w k1 k2 →
  represents t (grants_keys w ([k1; k2] ++ okeys O)) → w_transaction w' = w_transaction w →
  Inv (entries i (tip_metas [k1; k2]) ++ O) (mk (tip_declared k1 k2 t s) w').
Proof.
  intros HI Hi Hins [Hc1 Hc2] Ht Hw. apply (Inv_tip O i [k1; k2] s _ w); try done.
  - simpl. set_solver.
  - intros k [->|[->|Hk%elem_of_nil]%elem_of_cons]%elem_of_cons; done.
Qed.

(** The check of the locks, and what follows it. *)
Lemma wp_tip_cases E O k1 k2 (f : M S unit) (Q : unit → S → Prop) s w :
  Inv O (mk s w) → inserted O s w [k1; k2] →
  (let w' := w_drop_transaction k2 (w_drop_transaction k1 w) in
   ¬ tips_compatible O w k1 k2 → Inv O (mk s w') → Q tt (mk s w')) →
  (tips_compatible O w k1 k2 →
   ∀ t, represents t (grants_keys w ([k1; k2] ++ okeys O)) → wp E f Q (mk (tip_declared k1 k2 t s) w)) →
  wp E (
    let* ok_init := can_lock_tx k1 in
    let* ok := (if ok_init then can_lock_tx k2 else mret false) in
    if negb ok then
      drop_transaction k1 ;;
      drop_transaction k2
    else
      lock_tx k1 ;;
      lock_tx k2 ;;
      let* new := insert_executing k1 in
      assert "become_tip_receiver: executing init" new ;;
      let* new := insert_executing k2 in
      assert "become_tip_receiver: executing change" new ;;
      f) Q (mk s w).
Proof.
  intros HI Hins HQ0 HQ2. pose proof (inserted_not_held _ _ _ _ Hins) as Hnh. wp_step.
  assert (¬ tips_compatible O w k1 k2 → wp E (drop_transaction k1 ;; drop_transaction k2) Q (mk s w)) as Hdrop.
  { intros Hc. unfold drop_transaction. wp_steps. simpl. apply HQ0; [done|].
    apply Inv_drop; [apply Inv_drop|]; [done|apply Hnh; by left|apply Hnh; right; by left]. }
  apply (wp_can_lock_tx _ _ (outstanding_grants w O)); [apply (inv_locks _ _ HI)|apply Hins; by left|].
  intros [] Hb1; wp_step; last first.
  { wp_step. apply Hdrop. intros [Hc _]. by apply Hb1 in Hc. }
  apply (wp_can_lock_tx _ _ (outstanding_grants w O)); [apply (inv_locks _ _ HI)|apply Hins; right; by left|].
  intros [] Hb2; simpl.
  - apply (wp_tip_declare _ O); [done..|]. apply HQ2. split; [by apply Hb1|by apply Hb2].
  - apply Hdrop. intros [_ Hc]. by apply Hb2 in Hc.
Qed.

Lemma become_tip_receiver_ok O i (Q : unit → S → Prop) (st : S) :
  Inv O st → fresh_batch i O → tip_config (sch st) ≠ None →
  (∀ w', Inv O (mk (sch st) w') → Q tt (mk (sch st) w')) →
  (∀ k1 k2 st', Inv (entries i (tip_metas [k1; k2]) ++ O) st' →
     same_waiting (sch st) (sch st') → Q tt st') →
  wp benign become_tip_receiver Q st.
Proof.
  intros HI Hi Htip HQ0 HQ2. destruct st as [s w]. simpl in *. unfold become_tip_receiver. wp_steps. simpl.
  destruct (init_tip_distribution _ _ _ _) as [tip_key init_packet] eqn:Hinit.
  apply (wp_insert_own O []); [done| | |unfold benign; set_solver|].
  { split; [apply HI|]. split; intros k Hk; by apply elem_of_nil in Hk. }
  { unfold init_tip_distribution in Hinit. repeat case_match; injection Hinit as <- <-; by eexists _, _, _, _. }
  intros k1 w1 HI1 Hins1. wp_step. apply wp_unwrap; [done|]. intros tip _. cbv zeta.
  apply (wp_insert_own O ([] ++ [k1])); [done|done|by eexists _, _, _, _|unfold benign; set_solver|].
  intros k2 w2 HI2 Hins2. simpl in Hins2.
  apply (wp_tip_cases benign O k1 k2 (tip_send k1 k2 (slot s))); [done|done|intros w' _; apply HQ0|]. intros Hc t Ht.
  unfold tip_send. wp_step.
  apply wp_of_res_cases; [intros max_slot _ | | apply checked_result_no_hang]; last first.
  { intros p. apply benign_overflow. unfold benign. set_solver. }
  wp_step. apply wp_schedule; [unfold benign; set_solver|]. simpl. intros w3 Hw3.
  apply wp_schedule; [unfold benign; set_solver|]. simpl. intros w4 Hw4.
  apply schedule_transaction in Hw3, Hw4. apply (HQ2 k1 k2); [|by split_and!].
  apply (Inv_tip_sent O i k1 k2 t s w2); try done. by rewrite Hw4, Hw3.
Qed.

(** The packets by which the leader becomes the tip receiver. *)
Definition init_packet (s : Sched) : u8s :=
  (init_tip_distribution (keypair s) (tip_distribution_config s) (slot s / DEFAULT_SLOTS_PER_EPOCH)
    (recent_blockhash s)).2.

Definition change_packet (s : Sched) (tip : TipConfig) : u8s :=
  change_tip_receiver (keypair s) {|
    old_tip_receiver := tip_receiver tip;
    new_tip_receiver := (init_tip_distribution (keypair s) (tip_distribution_config s)
      (slot s / DEFAULT_SLOTS_PER_EPOCH) (recent_blockhash s)).1;
    old_block_builder := block_builder tip;
    new_block_builder := builder_key (builder_config s);
    block_builder_commission := commission (builder_config s) |} (recent_blockhash s).

(** The bridge takes both packets: what is left of [become_tip_receiver]. *)
Lemma become_tip_receiver_inserted O (Q : unit → S → Prop) E s w tip k1 k2 w1 w2 :
  Inv O (mk s w) → tip_config s = Some tip →
  w_insert_transaction (init_packet s) w = (Some k1, w1) →
  w_insert_transaction (change_packet s tip) w1 = (Some k2, w2) →
  (let w' := w_drop_transaction k2 (w_drop_transaction k1 w2) in
   ¬ tips_compatible O w2 k1 k2 → Inv O (mk s w') → Q tt (mk s w')) →
  (Inv O (mk s w2) → inserted O s w2 [k1; k2] → tips_compatible O w2 k1 k2 →
   ∀ t, represents t (grants_keys w2 ([k1; k2] ++ okeys O)) →
   wp E (tip_send k1 k2 (slot s)) Q (mk (tip_declared k1 k2 t s) w2)) →
  wp E become_tip_receiver Q (mk s w).
Proof.
  intros HI Htip Hi1 Hi2 HQ0 HQ2. unfold init_packet, change_packet in *.
  unfold become_tip_receiver. wp_steps. simpl. destruct (init_tip_distribution _ _ _ _) as [tip_key packet] eqn:Hinit.
  assert (own_packet packet) as Hown.
  { unfold init_tip_distribution in Hinit. repeat case_match; injection Hinit as <- <-; by eexists _, _, _, _. }
  simpl in Hi1, Hi2. unfold insert_transaction. wp_steps. simpl. rewrite Hi1. simpl. rewrite Htip. simpl.
  wp_steps. simpl. rewrite Hi2. simpl. wp_step.
  destruct (Inv_insert O s w w1 _ k1 HI Hi1) as (HI1 & _). destruct (Inv_insert O s w1 w2 _ k2 HI1 Hi2) as (HI2 & _).
  assert (inserted O s w2 [k1; k2]) as Hins.
  { eapply (inserted_snoc O s w1 w2 [k1]); [exact HI1| |exact Hi2|apply own_packet_lockable; by eexists _, _, _, _].
    eapply (inserted_snoc O s w w1 []); [exact HI| |exact Hi1|by apply own_packet_lockable].
    split; [apply HI|]. split; intros k Hk; by apply elem_of_nil in Hk. }
  apply (wp_tip_cases E O k1 k2 (tip_send k1 k2 (slot s))); [done..|]. by apply HQ2.
Qed.

(** A program that is correct with no panic returns. *)
Lemma wp_returns {A} (m : M S A) a (st st' : S) (P : Prop) :
  wp (λ _, False) m (λ a' st1, a' = a ∧ st1 = st' ∧ P) st → m st = Ok (a, st') ∧ P.
Proof. unfold wp. destruct (m st) as [[a' st1]|p|]; [|done..]. by intros (-> & -> & HP). Qed.

(** C21: becoming the tip receiver, when the bridge takes its two transactions.
    If neither conflicts with an execution in flight, and the bridge takes their
    batches, they are locked, declared as executing and handed over one after
    the other, for four more slots, and the invariant holds with them in flight.
    If one of them conflicts, both are dropped: the scheduler is as before, and
    so is every transaction of the bridge.  Neither case panics. *)
Theorem become_tip_receiver_inv `{!DropLaws (W := W)} O i s w tip k1 k2 w1 w2 :
  Inv O (mk s w) → fresh_batch i O → tip_config s = Some tip →
  w_insert_transaction (init_packet s) w = (Some k1, w1) →
  w_insert_transaction (change_packet s tip) w1 = (Some k2, w2) →
  (tips_compatible O w2 k1 k2 → 0 ≤ slot s ≤ U64_MAX - 4 → ∀ w3 w4,
     w_schedule (tip_batch k1 (slot s + 4)) w2 = Some w3 → w_schedule (tip_batch k2 (slot s + 4)) w3 = Some w4 →
     ∃ t, become_tip_receiver (mk s w) = Ok (tt, mk (tip_declared k1 k2 t s) w4) ∧
       Inv (entries i (tip_metas [k1; k2]) ++ O) (mk (tip_declared k1 k2 t s) w4)) ∧
  (¬ tips_compatible O w2 k1 k2 →
     ∃ w', become_tip_receiver (mk s w) = Ok (tt, mk s w') ∧ Inv O (mk s w') ∧
       ∀ k, w_transaction w' k = w_transaction w k).
Proof.
  intros HI Hi Htip Hi1 Hi2. split.
  - intros Hc Hsl w3 w4 Hw3 Hw4.
    assert (wp (λ _, False) become_tip_receiver (λ _ st', ∃ t, st' = mk (tip_declared k1 k2 t s) w4 ∧
      Inv (entries i (tip_metas [k1; k2]) ++ O) st') (mk s w)) as Hwp.
    { apply (become_tip_receiver_inserted O _ _ s w tip k1 k2 w1 w2); [done..|].
      intros HI2 Hins _ t Ht. unfold tip_send. wp_step.
      apply (wp_of_res _ _ (slot s + 4)); [apply u64_add_ok; unfold U64_MAX in *; lia|]. wp_step.
      apply (wp_schedule_some _ _ w3); [done|]. apply (wp_schedule_some _ _ w4); [done|]. exists t. split; [done|].
      apply (Inv_tip_sent O i k1 k2 t s w2); try done. apply schedule_transaction in Hw3, Hw4. by rewrite Hw4, Hw3. }
    unfold wp in Hwp. destruct (become_tip_receiver (mk s w)) as [[[] st']|p|]; [|done..].
    destruct Hwp as (t & -> & HI'). by exists t.
  - intros Hc. set (w' := w_drop_transaction k2 (w_drop_transaction k1 w2)). exists w'.
    destruct (wp_returns become_tip_receiver tt (mk s w) (mk s w') (Inv O (mk s w'))) as [Heq HI'].
    { by apply (become_tip_receiver_inserted O _ _ s w tip k1 k2 w1 w2). }
    split; [done|]. split; [done|]. intros k.
    destruct (insert_transaction_fresh _ _ _ _ Hi1) as (Hn1 & _ & Ho1).
    destruct (insert_transaction_fresh _ _ _ _ Hi2) as (Hn2 & (tx2 & Htx2 & _) & Ho2). unfold w'.
    destruct (decide (k2 = k)) as [<-|Hne2].
    { rewrite drop_transaction_gone. destruct (decide (k2 = k1)) as [->|]; [done|]. by rewrite <- Ho1. }
    rewrite drop_transaction_other by done. destruct (decide (k1 = k)) as [<-|Hne1].
    { by rewrite drop_transaction_gone. }
    rewrite drop_transaction_other by done. by rewrite Ho2, Ho1.
Qed.

(** ** The check at the start of a poll *)

Definition stale (st : S) : Prop :=
  (w_drain_progress (wld st)).1 = None ∧
  progress_timeout (runtime (sch st)) ≤
    Z.max 0 ((w_instant_now (w_drain_progress (wld st)).2).1 - last_progress_time (sch st)).

(** A validator from which no progress message came for as long as the
    timeout makes the scheduler die with its [assert!]. *)
Lemma check_slot_roll_stale (st : S) :
  stale st → check_slot_roll st = Panicked (PAssert "Agave disconnected").
Proof.
  intros [Hnone Htime]. unfold check_slot_roll, bindM, call, step.
  destruct (w_drain_progress (wld st)) as [[p|] w] eqn:E; [done|]. simpl in *.
  destruct (w_instant_now w) as [now w'] eqn:E2. simpl in *.
  unfold self, gets, assert. simpl. rewrite (proj2 (Z.ltb_ge _ _)); [done|lia].
Qed.

Lemma wp_progress_check O (Q : unit → S → Prop) (st : S) :
  Inv O st → ¬ stale st →
  (∀ t w', let st' := mk ((sch st) <| last_progress_time := t |>) w' in
     Inv O st' → w_progress w' = w_progress (w_drain_progress (wld st)).2 → Q tt st') →
  wp benign (call w_drain_progress) (λ o, wp benign
    match o with
    | Some _ =>
        let* now := call w_instant_now in
        update (λ s, s <| last_progress_time := now |>)
    | None =>
        let* now := call w_instant_now in
        let* s := self id in
        assert "Agave disconnected"
          (Z.max 0 (now - last_progress_time s) <? progress_timeout (runtime s))
    end Q) st.
Proof.
  intros HI Hst HQ. wp_step. cbn [sch wld].
  assert (∀ t, Inv O (mk ((sch st) <| last_progress_time := t |>)
    (w_instant_now (w_drain_progress (wld st)).2).2)) as HI'.
  { intros t. eapply Inv_core; [exact HI|by split_and!|]. simpl.
    by rewrite instant_now_transaction, drain_progress_transaction. }
  destruct ((w_drain_progress (wld st)).1) as [p|] eqn:E; wp_steps; cbn [sch wld].
  - by apply HQ, instant_now_progress.
  - apply wp_assert.
    + intros Hlt%Z.ltb_ge. by destruct Hst.
    + intros _. specialize (HQ (last_progress_time (sch st)) (w_instant_now (w_drain_progress (wld st)).2).2).
      destruct st as [[] w]. by apply HQ, instant_now_progress.
Qed.

Lemma wp_maybe_roll O (Q : unit → S → Prop) p (st : S) :
  Inv O st →
  (∀ st', Inv O st' → slot (sch st') = current_slot p → tip_config (sch st') = tip_config (sch st) →
     (if decide (current_slot p = slot (sch st))
      then iset_elements (deferred_tx (sch st')) = iset_elements (deferred_tx (sch st)) ∧
           checked_tx (sch st') = checked_tx (sch st)
      else iset_elements (deferred_tx (sch st')) = [] ∧
           checked_tx (sch st') ≡ₚ iset_elements (deferred_tx (sch st)) ++ checked_tx (sch st)) →
     Q tt st') →
  wp benign (when (negb (current_slot p =? slot (sch st))) (roll_slot p)) Q st.
Proof.
  intros HI HQ. destruct (decide (current_slot p = slot (sch st))) as [Heq|Hne].
  - rewrite Heq, Z.eqb_refl. by apply HQ.
  - rewrite (proj2 (Z.eqb_neq _ _) Hne). simpl. eapply wp_mono; [by apply (roll_slot_ok O)|].
    intros [] st' [HI' (Hs & _ & Hd & Hc & _ & _ & Ht)]. by apply HQ.
Qed.

Lemma wp_maybe_leader O i (b : bool) (Q : unit → S → Prop) (st : S) :
  Inv O st → fresh_batch i O → tip_config (sch st) ≠ None →
  (∀ ks st', Inv (entries i (tip_metas ks) ++ O) st' → same_waiting (sch st) (sch st') → Q tt st') →
  wp benign (when b (
    emit_event LeaderReady ;;
    update (λ s, s <| slot_stats ::= λ st, st <| was_leader_ready := true |> |>) ;;
    become_tip_receiver)) Q st.
Proof.
  intros HI Hi Htip HQ. apply wp_when; intros _; [|by apply (HQ [])].
  assert (∀ st1, quiet st st1 → wp benign (
    update (λ s, s <| slot_stats ::= λ st, st <| was_leader_ready := true |> |>) ;;
    become_tip_receiver) Q st1) as Hrest.
  { intros st1 Hq. do 2 wp_step.
    set (st2 := mk _ _). assert (quiet st st2) as Hq2.
    { etransitivity; [exact Hq|]. split; [by eexists|done]. }
    clearbody st2. pose proof Hq2 as [[stats Hs2] _].
    apply (become_tip_receiver_ok O i); [by eapply quiet_inv|done|by rewrite Hs2| |].
    - intros w' HI'. apply (HQ []); [done|]. simpl. by rewrite Hs2.
    - intros k1 k2 st' HI'. rewrite Hs2. by apply (HQ [k1; k2]). }
  unfold emit_event. wp_steps. destruct (events (sch st)) as [em|].
  - apply wp_emit, Hrest.
  - wp_steps. by apply Hrest.
Qed.

Lemma check_slot_roll_ok O i (st : S) :
  Inv O st → fresh_batch i O → ¬ stale st → tip_config (sch st) ≠ None →
  let p := w_progress (w_drain_progress (wld st)).2 in
  wp benign check_slot_roll (λ _ st', ∃ ks,
    Inv (entries i (tip_metas ks) ++ O) st' ∧ slot (sch st') = current_slot p ∧
    (if decide (current_slot p = slot (sch st))
     then iset_elements (deferred_tx (sch st')) = iset_elements (deferred_tx (sch st)) ∧
          checked_tx (sch st') = checked_tx (sch st)
     else iset_elements (deferred_tx (sch st')) = [] ∧
          checked_tx (sch st') ≡ₚ iset_elements (deferred_tx (sch st)) ++ checked_tx (sch st))) st.
Proof.
  intros HI Hi Hst Htip p. unfold check_slot_roll. apply wp_bind.
  eapply wp_mono; [apply (wp_progress_check O); [done..|]|intros o s1 Hw; apply wp_bind, Hw].
  intros t w' st1 HI1 Hp. cbv beta. wp_steps. unfold st1. cbn [sch wld]. rewrite Hp. fold p.
  apply (wp_maybe_roll O _ p st1); [done|].
  intros st2 HI2 Hslot Htip2 Hwait. apply (wp_maybe_leader O i); [done|done|by rewrite Htip2|].
  intros ks st3 HI3 (Hs3 & Hc3 & Hd3 & _). exists ks. split; [done|]. rewrite Hs3, Hc3, Hd3.
  split; [done|exact Hwait].
Qed.

(** While progress comes, [check_slot_roll] brings the scheduler to the
    validator's slot: on a new slot the deferred transactions go back to the
    checked ones. A new leader also tries to become the tip receiver. No
    assertion fails. *)
Lemma check_slot_roll_inv O (st : S) :
  Inv O st → ¬ stale st → tip_config (sch st) ≠ None →
  let p := w_progress (w_drain_progress (wld st)).2 in
  wp benign check_slot_roll (λ _ st', ∃ new,
    Inv (new ++ O) st' ∧ slot (sch st') = current_slot p ∧
    (if decide (current_slot p = slot (sch st))
     then iset_elements (deferred_tx (sch st')) = iset_elements (deferred_tx (sch st)) ∧
          checked_tx (sch st') = checked_tx (sch st)
     else iset_elements (deferred_tx (sch st')) = [] ∧
          checked_tx (sch st') ≡ₚ iset_elements (deferred_tx (sch st)) ++ checked_tx (sch st))) st.
Proof.
  intros HI Hst Htip p. destruct (fresh_batch_exists O) as [i Hi].
  eapply wp_mono; [by apply (check_slot_roll_ok O i)|].
  intros [] st' (ks & HI' & Hrest). by exists (entries i (tip_metas ks)).
Qed.
End Slot.
