(* ===== verification/BatchChecks.v ===== *)
(** * The batch scheduler requests checks

    [schedule_checks] sends the unchecked transactions, best first, and then
    walks the checked ones downwards for a recheck.  Its [while] loops end, and
    it stops only with the check worker's queue full or nothing left to
    check. *)

From S2P Require Import Prelude BTreeSet Types Events Externals LockTable TipProgram Costs.
From S2P Require Import Common Outstanding BatchScheduler BatchInvariant BatchHandlers BatchExecute.
From S2P Require Import BatchIngest BatchSlot.

Section Checks.
Context `{Profile} `{AgaveBindings} `{World W} `{!WorldLaws} {Heap DSet : Type}
  `{MinMaxHeap Heap PriorityId} `{!MinMaxHeapLaws Heap PriorityId}
  `{IndexSet DSet PriorityId} `{!IndexSetLaws DSet PriorityId}.
Abbreviation Sched := (BatchScheduler Heap DSet).
Abbreviation S := (St Sched W).

(** ** What is left to check *)

(** How many rechecks the walk can still visit. *)
Definition recheck_left (s : Sched) : nat :=
  match next_recheck s with
  | None => 0
  | Some c => Datatypes.S (below_count c (checked_tx s))
  end.

Definition checks_left (s : Sched) : nat := heap_len (unchecked_tx s) + recheck_left s.

Lemma recheck_left_below c (s : Sched) :
  (recheck_left (s <| next_recheck := btree_below c (checked_tx s) |>) ≤ below_count c (checked_tx s))%nat.
Proof.
  unfold recheck_left. simpl. destruct (btree_below c (checked_tx s)) eqn:E; [|lia].
  apply btree_below_count in E. lia.
Qed.

(** ** One transaction to check *)

(** What [pop_next] finds on the recheck path. *)
Definition recheckable (s : Sched) (kt : KeyedTransactionMeta) : Prop :=
  km_key kt = key (km_meta kt) ∧ km_meta kt ∈ checked_tx s ∧ km_key kt ∉ executing_tx s.

Lemma recheck_next_spec E fuel Q (st : S) :
  (recheck_left (sch st) < fuel)%nat →
  (∀ o r, let s' := (sch st) <| next_recheck := r |> in
     match o with
     | None => r = None
     | Some kt => recheckable (sch st) kt ∧ (recheck_left s' < recheck_left (sch st))%nat
     end → Q o (mk s' (wld st))) →
  wp E (recheck_next fuel) Q st.
Proof.
  revert st. induction fuel as [|fuel IH]; intros [s w] Hfuel HQ; [lia|]. simpl in *. wp_steps. simpl.
  destruct (next_recheck s) as [c|] eqn:Hc; last first.
  { wp_steps. specialize (HQ None None eq_refl). destruct s. simpl in *. by subst. }
  pose proof (recheck_left_below c s) as Hle.
  assert (recheck_left s = Datatypes.S (below_count c (checked_tx s))) as Hs.
  { unfold recheck_left. by rewrite Hc. }
  wp_steps. cbn [sch wld].
  destruct (btree_contains c (checked_tx s)) eqn:Hin; [|simpl].
  2: { apply IH; simpl in *; [lia|]. intros o r Ho. apply (HQ o r).
       destruct o; [|done]. destruct Ho as [? Hlt]. split; [done|].
       change (recheck_left (s <| next_recheck := r |>) < recheck_left s)%nat. simpl in *. lia. }
  case_bool_decide as Hex; simpl.
  { apply IH; simpl in *; [lia|]. intros o r Ho. apply (HQ o r).
    destruct o; [|done]. destruct Ho as [? Hlt]. split; [done|]. simpl in *. lia. }
  wp_steps. apply (HQ (Some _) (btree_below c (checked_tx s))). split; [|simpl in *; lia].
  split_and!; [done|by apply btree_contains_spec|done].
Qed.

(** The best unchecked transaction. *)
Definition best_unchecked (s : Sched) (kt : KeyedTransactionMeta) : Prop :=
  km_key kt = key (km_meta kt) ∧ km_meta kt ∈ heap_elements (unchecked_tx s) ∧
  ∀ y, y ∈ heap_elements (unchecked_tx s) → rle y (km_meta kt).

Definition exhausted (s : Sched) : Prop :=
  heap_elements (unchecked_tx s) = [] ∧ next_recheck s = None.

Definition taken (s : Sched) (h : Heap) (r : option PriorityId) : Sched :=
  s <| unchecked_tx := h |> <| next_recheck := r |>.

Lemma pop_next_spec E O fuel Q (st : S) :
  Inv O st → (checks_left (sch st) < fuel)%nat →
  (∀ o h r, let s' := taken (sch st) h r in
     Inv O (mk s' (wld st)) →
     match o with
     | None => exhausted s'
     | Some kt =>
         (best_unchecked (sch st) kt ∨
          (heap_elements (unchecked_tx (sch st)) = [] ∧ recheckable (sch st) kt)) ∧
         (heap_len h ≤ heap_len (unchecked_tx (sch st)))%nat ∧
         (checks_left s' < checks_left (sch st))%nat
     end → Q o (mk s' (wld st))) →
  wp E (pop_next fuel) Q st.
Proof.
  intros HI Hfuel HQ. unfold pop_next. wp_steps.
  destruct (heap_pop_max (unchecked_tx (sch st))) as [[m h]|] eqn:Hpop.
  - pose proof (heap_pop_max_Some _ _ _ Hpop) as [Hp Hmax].
    destruct (Inv_pop_unchecked O m h st HI Hp) as (HI' & _). wp_steps.
    specialize (HQ (Some {| km_key := key m; km_meta := m |}) h (next_recheck (sch st))).
    destruct st as [[] w]. apply HQ; [exact HI'|]. simpl in *. split.
    + left. split_and!; [done|rewrite Hp; by left|]. intros y. simpl. rewrite Hp.
      intros [->|Hy]%elem_of_cons; [|by apply Hmax]. apply rle_lt_eq. by right.
    + rewrite !heap_len_elements, Hp. simpl. split; [lia|]. unfold checks_left, recheck_left. simpl. rewrite !heap_len_elements, Hp. simpl. lia.
  - apply heap_pop_max_None in Hpop. apply recheck_next_spec.
    { unfold checks_left in Hfuel. lia. }
    intros o r s' Ho. specialize (HQ o (unchecked_tx (sch st)) r).
    assert (s' = taken (sch st) (unchecked_tx (sch st)) r) as Hs'.
    { unfold s', taken. by destruct (sch st). }
    rewrite Hs' in *. apply HQ.
    + eapply Inv_core; [exact HI|by split_and!|done].
    + destruct o as [kt|]; [|by subst]. destruct Ho as [Hkt Hlt]. split; [by right|].
      split; [done|]. unfold checks_left. simpl in *. lia.
Qed.

(** ** One batch *)

Definition extended (s : Sched) (h : Heap) (r : option PriorityId)
    (new : list KeyedTransactionMeta) : Sched :=
  (taken s h r) <| schedule_batch ::= λ b, b ++ new |>.

Lemma extended_nil s : extended s (unchecked_tx s) (next_recheck s) [] = s.
Proof. unfold extended, taken. destruct s. simpl. by rewrite app_nil_r. Qed.

Lemma extended_extended s h1 r1 new1 h2 r2 new2 :
  extended (extended s h1 r1 new1) h2 r2 new2 = extended s h2 r2 (new1 ++ new2).
Proof. unfold extended, taken. simpl. by rewrite (assoc_L (++)). Qed.

Lemma extend_batch_spec E O fuel n Q (st : S) :
  Inv O st → (checks_left (sch st) < fuel)%nat →
  (∀ h r new, let s' := extended (sch st) h r new in
     Inv O (mk s' (wld st)) → (length new ≤ n)%nat →
     (heap_len h ≤ heap_len (unchecked_tx (sch st)))%nat →
     (checks_left s' + length new ≤ checks_left (sch st))%nat →
     ((length new < n)%nat → exhausted s') → Q tt (mk s' (wld st))) →
  wp E (extend_batch fuel n) Q st.
Proof.
  revert st. induction n as [|n IH]; intros [s w] HI Hfuel HQ; simpl in *.
  { wp_steps. specialize (HQ (unchecked_tx s) (next_recheck s) []).
    rewrite extended_nil in HQ. apply HQ; simpl; done || lia. }
  wp_step. apply (pop_next_spec _ O); [done..|]. intros o h r s1 HI1 Ho. destruct o as [kt|]; last first.
  { wp_steps. specialize (HQ h r []).
    assert (extended s h r [] = s1) as Heq.
    { unfold extended, s1. simpl. unfold taken. simpl. by rewrite app_nil_r. }
    rewrite Heq in HQ. destruct Ho as [Hh Hr].
    change (heap_elements h = []) in Hh. change (r = None) in Hr.
    apply HQ; simpl; [done|lia|rewrite heap_len_elements, Hh; simpl; lia| |done].
    unfold checks_left at 1, recheck_left at 1.
    change (next_recheck s1) with r. change (unchecked_tx s1) with h.
    rewrite Hr, heap_len_elements, Hh. simpl. lia. }
  wp_steps. destruct Ho as (_ & Hlen1 & Hlt). set (s2 := extended s h r [kt]).
  assert (Inv O (mk s2 w)) as HI2.
  { eapply Inv_core; [exact HI1|by split_and!|done]. }
  assert (checks_left s2 = checks_left s1) as Heq by done. simpl in Hlt.
  apply (IH (mk s2 w)); [done|simpl; rewrite Heq; lia|].
  intros h' r' new HI' Hlen Hsub Hleft Hex. simpl in *. unfold s2 in *.
  rewrite extended_extended in *. apply HQ; simpl; [done|lia|lia| |intros; apply Hex; lia].
  change (checks_left (extended s h r [kt])) with (checks_left s1) in Hleft. simpl in Hleft. lia.
Qed.

(** ** The loop *)

Lemma schedule_checks_round_spec O fuel Q (st : S) :
  Inv O st → (checks_left (sch st) < fuel)%nat →
  (∀ c st', Inv O st' → checked_tx (sch st') = checked_tx (sch st) →
     (heap_len (unchecked_tx (sch st')) ≤ heap_len (unchecked_tx (sch st)))%nat →
     match c with
     | Continue => (checks_left (sch st') < checks_left (sch st))%nat
     | Break =>
         (max_check_batches (runtime (sch st')) ≤ w_worker_len (wld st') CHECK_WORKER)%nat ∨
         w_worker_rem (wld st') CHECK_WORKER = 0%nat ∨ exhausted (sch st')
     end → Q c st') →
  wp benign (schedule_checks_round fuel) Q st.
Proof.
  intros HI Hfuel HQ. unfold schedule_checks_round. wp_steps.
  destruct ((w_worker_len (wld st) CHECK_WORKER <? max_check_batches (runtime (sch st)))%nat) eqn:Hlen;
    cbn [andb]; last first.
  { wp_steps. apply HQ; try done. left. by apply Nat.ltb_ge. }
  destruct ((0 <? w_worker_rem (wld st) CHECK_WORKER)%nat) eqn:Hrem; last first.
  { wp_steps. apply HQ; try done. right; left. apply Nat.ltb_ge in Hrem. lia. }
  wp_steps. set (st1 := mk _ _).
  assert (Inv O st1) as HI1 by (eapply Inv_core; [exact HI|by split_and!|done]).
  apply (extend_batch_spec _ O); [done|done|].
  intros h r new s' HI' Hn Hsub Hleft Hex. wp_steps. cbn [sch wld].
  change (checks_left (sch st1)) with (checks_left (sch st)) in Hleft.
  change (schedule_batch s') with new. destruct new as [|kt new].
  { wp_steps. apply HQ; try done. right; right. apply Hex. simpl. lia. }
  wp_step. apply wp_schedule; [unfold benign; set_solver|]. cbn [sch wld]. intros w' Hw'. wp_steps.
  apply HQ; simpl in *; [|done|done|lia].
  eapply Inv_core; [exact HI'|by split_and!|]. by apply schedule_transaction in Hw'.
Qed.

(** The fuel of [schedule_checks] is never used up: what is left to check
    bounds the rounds of both loops. *)
Lemma schedule_checks_loop O fuel (st : S) :
  Inv O st → (checks_left (sch st) < fuel)%nat →
  wp benign (loop_fuel fuel (schedule_checks_round fuel)) (λ _ st',
    Inv O st' ∧ checked_tx (sch st') = checked_tx (sch st) ∧
    (heap_len (unchecked_tx (sch st')) ≤ heap_len (unchecked_tx (sch st)))%nat ∧
    ((max_check_batches (runtime (sch st')) ≤ w_worker_len (wld st') CHECK_WORKER)%nat ∨
     w_worker_rem (wld st') CHECK_WORKER = 0%nat ∨ exhausted (sch st'))) st.
Proof.
  intros HI Hfuel.
  apply (wp_loop_fuel _ _ (λ st', Inv O st' ∧ checked_tx (sch st') = checked_tx (sch st) ∧
    (heap_len (unchecked_tx (sch st')) ≤ heap_len (unchecked_tx (sch st)))%nat ∧
    (checks_left (sch st') ≤ checks_left (sch st))%nat) _ (λ st', checks_left (sch st'))); [done|done|].
  intros st1 (HI1 & Hc1 & Hh1 & Hl1). apply (schedule_checks_round_spec O); [done|lia|].
  intros c st2 HI2 Hc2 Hh2 Hc. destruct c.
  - split; [|done]. split_and!; [done|by rewrite Hc2|lia|lia].
  - split_and!; [done|by rewrite Hc2|lia|done].
Qed.

Lemma schedule_checks_ok O fuel (st : S) :
  Inv O st → (checks_left (sch st) < fuel)%nat →
  wp benign (schedule_checks fuel) (λ _ st',
    Inv O st' ∧ checked_tx (sch st') = checked_tx (sch st) ∧
    (heap_len (unchecked_tx (sch st')) ≤ heap_len (unchecked_tx (sch st)))%nat ∧
    ((max_check_batches (runtime (sch st')) ≤ w_worker_len (wld st') CHECK_WORKER)%nat ∨
     w_worker_rem (wld st') CHECK_WORKER = 0%nat ∨ exhausted (sch st'))) st.
Proof.
  intros HI Hfuel. unfold schedule_checks. do 3 wp_step.
  eapply wp_mono; [by apply (schedule_checks_loop O)|]. intros [] st1 (HI1 & Hc1 & Hh1 & Hstop). 
  wp_steps. unfold increment. wp_step. set (st2 := mk _ _).
  assert (quiet st1 st2) as Hq1.
  { split; [by exists (slot_stats (sch st1)); destruct (sch st1)|apply metric_increment_transaction]. }
  pose proof (quiet_inv O _ _ Hq1 HI1) as HI2. unfold bump. wp_steps.
  apply wp_of_res_cases; [|intros p; apply benign_overflow; unfold benign; set_solver|apply checked_result_no_hang].
  intros v _. wp_steps. split.
  - eapply Inv_core; [exact HI2|by split_and!|done].
  - cbn [sch wld]. unfold st2. cbn [sch wld].
    rewrite metric_increment_worker_len, metric_increment_worker_rem. done.
Qed.

(** C24: [schedule_checks] ends. It stops with the check worker's queue full
    or with nothing left to check, and moves nothing out of the checked set;
    the requested checks are the unchecked transactions that left the heap. *)
Theorem schedule_checks_ends O fuel (st : S) :
  Inv O st → (checks_left (sch st) < fuel)%nat →
  wp benign (schedule_checks fuel) (λ _ st',
    Inv O st' ∧ checked_tx (sch st') = checked_tx (sch st) ∧
    (heap_len (unchecked_tx (sch st')) ≤ heap_len (unchecked_tx (sch st)))%nat ∧
    ((max_check_batches (runtime (sch st')) ≤ w_worker_len (wld st') CHECK_WORKER)%nat ∨
     w_worker_rem (wld st') CHECK_WORKER = 0%nat ∨ exhausted (sch st'))) st.
Proof. intros. eapply schedule_checks_ok; eauto. Qed.
End Checks.
