(* ===== verification/BatchReach.v ===== *)
(** * Reachable states of the batch scheduler

    The scheduler as a state machine: a step is one handler run to its end (or
    something the outside does), on a state and the executions that are out.
    The invariant of [BatchInvariant] holds in every reachable state, so the
    executions that are out never conflict, and an idle scheduler holds no
    lock, no CU and no executing key. *)

From S2P Require Import Prelude BTreeSet Types Events Externals LockTable TipProgram Costs.
From S2P Require Import Common Outstanding Drains BatchScheduler BatchInvariant BatchHandlers BatchExecute.
From S2P Require Import BatchIngest BatchSlot BatchChecks.

Section Reach.
Context `{Profile} `{AgaveBindings} `{!AgaveBindingsLaws} `{World W} `{!WorldLaws} {Heap DSet : Type}
  `{MinMaxHeap Heap PriorityId} `{!MinMaxHeapLaws Heap PriorityId}
  `{IndexSet DSet PriorityId} `{!IndexSetLaws DSet PriorityId}.
Abbreviation Sched := (BatchScheduler Heap DSet).
Abbreviation S := (St Sched W).

(** The tip transactions a slot check sent: the keys that are executing now. *)
Definition tip_started (st st' : S) : list PriorityId :=
  tip_metas (elements (executing_tx (sch st') ∖ executing_tx (sch st))).

(** What a check response may be about. *)
Record check_ok O m rep (st : S) : Prop := {
  ck_live : live (wld st) (key m);
  ck_cost : is_u64 (cost m);
  ck_wf : well_formed_check rep;
  ck_lockable : check_failed rep = false → lockable (wld st) (key m);
  ck_held : m ∈ checked_tx (sch st) ∨ key m ∉ held_keys O (sch st) ∨ check_ignored m (sch st) = true;
  ck_room : checked_tx (sch st) = [] → (pending_len (sch st) < checked_capacity (sch st))%nat;
}.

Inductive sched_step (O : list (nat * PriorityId)) (st : S) : list (nat * PriorityId) → S → Prop :=
(** The outside moves, but leaves the scheduler's transactions in place. *)
| step_environment w' :
    (∀ k, k ∈ held_keys O (sch st) → w_transaction w' k = w_transaction (wld st) k) →
    sched_step O st O (mk (sch st) w')
| step_unprocessed O' i m d st' :
    O ≡ₚ (i, m) :: O' → on_unprocessed m st = Ok (d, st') →
    sched_step O st O' (after_decision (key m) d st')
| step_execute O' i m rep d st' :
    O ≡ₚ (i, m) :: O' → on_execute m rep st = Ok (d, st') →
    sched_step O st O' (after_decision (key m) d st')
| step_check m rep resolved d st' :
    check_ok O m rep st → on_check m rep resolved st = Ok (d, st') →
    sched_step O st O (after_decision (key m) d st')
| step_tpu k tx d st' :
    k ∉ held_keys O (sch st) → w_transaction (wld st) k = Some tx → signed tx →
    on_tpu k st = Ok (d, st') →
    sched_step O st O (after_decision k d st')
| step_evict st' :
    heap_elements (unchecked_tx (sch st)) ≠ [] → evict_unchecked st = Ok (tt, st') →
    sched_step O st O st'
| step_packet packet st' :
    unchecked_capacity (sch st) ≠ 0%nat → on_packet packet st = Ok (tt, st') →
    sched_step O st O st'
| step_bundle packets st' :
    packets ≠ [] → Forall lockable_packet packets → bundle_capacity (sch st) ≠ 0%nat →
    on_bundle packets st = Ok (tt, st') →
    sched_step O st O st'
| step_jito_config c h :
    sched_step O st O
      (mk ((sch st) <| tip_config := c |> <| recent_blockhash := h |>) (wld st))
| step_expire st' : drop_expired_bundles st = Ok (tt, st') → sched_step O st O st'
| step_slot i st' :
    fresh_batch i O → ¬ stale st → tip_config (sch st) ≠ None →
    check_slot_roll st = Ok (tt, st') →
    sched_step O st (entries i (tip_started st st') ++ O) st'
| step_checks fuel st' :
    (checks_left (sch st) < fuel)%nat → schedule_checks fuel st = Ok (tt, st') →
    sched_step O st O st'
| step_start i worker budget r st' :
    fresh_batch i O → is_u64 budget → in_flight_cus (sch st) + budget ≤ U64_MAX →
    schedule_execute_worker worker budget st = Ok (r, st') →
    sched_step O st (entries i (sent worker budget st st') ++ O) st'
| step_recheck st' : start_recheck st = Ok (tt, st') → sched_step O st O st'
| step_set_config u c b cutoff checks expiry timeout :
    sched_step O st O
      (mk (set_runtime_config u c b cutoff checks expiry timeout (sch st)) (wld st)).

Inductive reachable : list (nat * PriorityId) → S → Prop :=
| reach_start evs args w s w' :
    new_with_jito evs args w = Ok (s, w') → reachable [] (mk s w')
| reach_step O st O' st' : reachable O st → sched_step O st O' st' → reachable O' st'.

(** ** The invariant *)

Lemma new_with_jito_inv evs args w s w' :
  new_with_jito evs args w = Ok (s, w') → Inv [] (mk s w').
Proof.
  unfold new_with_jito. destruct (w_jito_recv_timeout w) as [[[c| | | |]|] w1]; try done.
  destruct (w_instant_now w1) as [now w2]. intros [= <- <-]. 
  assert (held_keys [] (Build_BatchScheduler _ Heap DSet (args_tip args) (args_keypair args)
    ({[TIP_PAYMENT_PROGRAM]} ∪ args_filter_keys args) (args_unchecked_capacity args)
    (args_checked_capacity args) (args_bundle_capacity args) (args_runtime args) c None 0%N []
    heap_empty [] ∅ iset_empty None 0 ∅ [] now evs 0 SlotStatsEvent_default) = []) as Hh.
  { unfold held_keys, locking_keys. simpl. by rewrite heap_elements_empty, iset_elements_empty. }
  split; simpl; rewrite ?Hh, ?iset_elements_empty; try done.
  1-3: constructor.
  - intros k Hk. by apply elem_of_nil in Hk.
  - intros k Hk. apply locking_held in Hk. rewrite Hh in Hk. by apply elem_of_nil in Hk.
  - intros i m j m' Hin. by apply elem_of_nil in Hin.
Qed.

Lemma Inv_Permutation O O' (st : S) : O ≡ₚ O' → Inv O st → Inv O' st.
Proof.
  intros Hp HI. pose proof (okeys_Permutation _ _ Hp) as Hk.
  assert (held_keys O' (sch st) ≡ₚ held_keys O (sch st)) as Hh by (unfold held_keys, locking_keys; by rewrite Hk).
  split; try apply HI.
  - rewrite Hh. apply HI.
  - rewrite (inv_executing _ _ HI). by rewrite Hk.
  - by rewrite (inv_cus _ _ HI), (sum_costs_Permutation _ _ Hp).
  - rewrite <- Hp. apply HI.
  - intros k. rewrite Hh. apply HI.
  - intros k. unfold locking_keys. rewrite <- Hk. apply HI.
  - rewrite outstanding_grants_keys, <- (grants_keys_Permutation _ _ _ Hk), <- outstanding_grants_keys.
    apply HI.
  - intros i m j m'. rewrite <- Hp. apply (inv_compatible _ _ HI).
Qed.

Lemma after_decision_inv O k d (st : S) :
  Inv O st → (d = Drop → k ∉ held_keys O (sch st)) → Inv O (after_decision k d st).
Proof. intros HI Hd. destruct d; [done|]. destruct st as [s w]. apply Inv_drop; [done|]. by apply Hd. Qed.

(** The keys a slot check adds to the executing ones. *)
Lemma tip_started_Permutation O i ks (st st' : S) :
  Inv O st → Inv (entries i (tip_metas ks) ++ O) st' →
  entries i (tip_metas ks) ++ O ≡ₚ entries i (tip_started st st') ++ O.
Proof.
  intros HI HI'. apply Permutation_app; [|done]. unfold entries, tip_started, tip_metas.
  do 2 apply fmap_Permutation.
  pose proof (inv_keys _ _ HI') as Hnd. rewrite held_entries, tip_metas_keys in Hnd.
  apply NoDup_app in Hnd as (Hks & Hd & _). apply NoDup_Permutation; [done|apply NoDup_elements|].
  intros k. rewrite elem_of_elements, elem_of_difference.
  rewrite (executing_spec _ st'), (executing_spec _ st) by done.
  rewrite okeys_entries, tip_metas_keys, elem_of_app. split; [|naive_solver].
  intros Hk. split; [by left|]. intros Ho. apply (Hd k Hk). unfold held_keys, locking_keys.
  rewrite !elem_of_app. tauto.
Qed.

Lemma environment_inv O (st : S) w' :
  Inv O st → (∀ k, k ∈ held_keys O (sch st) → w_transaction w' k = w_transaction (wld st) k) →
  Inv O (mk (sch st) w').
Proof.
  intros HI Hw. destruct st as [s w]. apply (Inv_change O s w); try apply HI; try done.
  - intros k Hk. unfold live. rewrite Hw by done. by apply (inv_live _ _ HI).
  - intros k Hk. left. split; [done|]. by apply Hw, locking_held.
  - intros k Hk. apply Hw. unfold held_keys, locking_keys. rewrite !elem_of_app. tauto.
Qed.

(** The handlers whose answer the bridge acts on. *)
Lemma on_unprocessed_decided O O' i m (st : S) :
  Inv O st → O ≡ₚ (i, m) :: O' →
  wp benign (on_unprocessed m) (λ d st', Inv O' (after_decision (key m) d st')) st.
Proof.
  intros HI HO. eapply wp_mono; [by eapply on_unprocessed_ok|]. intros d st' [HI' Hd].
  apply after_decision_inv; [done|]. intros ->. by destruct (decide _), Hd.
Qed.

Lemma on_execute_decided O O' i m rep (st : S) :
  Inv O st → O ≡ₚ (i, m) :: O' →
  wp benign (on_execute m rep) (λ d st', Inv O' (after_decision (key m) d st')) st.
Proof.
  intros HI HO. eapply wp_mono; [by eapply on_execute_ok|]. intros d st' [HI' Hd].
  apply after_decision_inv; [done|]. intros ->. by destruct (decide _), Hd.
Qed.

Lemma on_check_decided O m rep resolved (st : S) :
  Inv O st → check_ok O m rep st →
  wp benign (on_check m rep resolved) (λ d st', Inv O (after_decision (key m) d st')) st.
Proof.
  intros HI [Hl Hc Hwf Hlock Hm Hcap].
  eapply wp_mono; [by apply on_check_ok|]. intros d st' [HI' Hd].
  apply after_decision_inv; [done|]. intros ->.
  destruct (check_ignored m (sch st)); [by destruct Hd|].
  destruct (check_failed rep); [tauto|].
  destruct (btree_contains m (checked_tx (sch st))) eqn:Hin; [by destruct Hd|].
  destruct (resolves_filtered resolved (sch st)); [|by destruct Hd].
  destruct Hd as [_ [stats Hs]]. rewrite Hs. apply btree_contains_false in Hin.
  destruct Hm as [|[Hk|]]; [done|exact Hk|done].
Qed.

Lemma on_tpu_decided O k tx (st : S) :
  Inv O st → k ∉ held_keys O (sch st) → w_transaction (wld st) k = Some tx → signed tx →
  wp ingest_panic (on_tpu k) (λ d st', Inv O (after_decision k d st')) st.
Proof.
  intros HI Hk Htx Hs. eapply wp_mono; [by apply on_tpu_ok|]. intros d st' [HI' Hd].
  apply after_decision_inv; [done|]. intros ->.
  assert (same_sched (sch st) (sch st')) as [stats Hst].
  { destruct (calculate_priority _ _) as [[[prio c]|]| |]; try apply Hd.
    destruct (should_filter_static _ _); [apply Hd|by destruct Hd]. }
  rewrite Hst. exact Hk.
Qed.

Lemma step_inv O (st : S) O' st' : Inv O st → sched_step O st O' st' → Inv O' st'.
Proof.
  intros HI Hstep.
  destruct Hstep as [w' Hw|O' i m d st' HO Heq|O' i m rep d st' HO Heq
    |m rep resolved d st' Hck Heq|k tx d st' Hk Htx Hwf Heq|st' Hne Heq
    |packet st' Hcap Heq|packets st' Hne Hpks Hcap Heq|c h|st' Heq|i st' Hi Hst Htip Heq
    |fuel st' Hfuel Heq|i worker budget r st' Hi Hb Hsum Heq|st' Heq|u c b cutoff checks expiry timeout].
  - by apply environment_inv.
  - exact (wlp_wp _ _ _ _ (on_unprocessed_decided O O' i m st HI HO) _ _ Heq).
  - exact (wlp_wp _ _ _ _ (on_execute_decided O O' i m rep st HI HO) _ _ Heq).
  - exact (wlp_wp _ _ _ _ (on_check_decided O m rep resolved st HI Hck) _ _ Heq).
  - exact (wlp_wp _ _ _ _ (on_tpu_decided O k tx st HI Hk Htx Hwf) _ _ Heq).
  - revert Heq. apply (wlp_wp benign _ (λ _ st', Inv O st')).
    by apply (wp_evict_unchecked O).
  - by apply (wlp_wp _ _ _ _ (on_packet_ok O packet st HI Hcap) _ _ Heq).
  - by apply (wlp_wp _ _ _ _ (on_bundle_ok O packets st HI Hne Hpks Hcap) _ _ Heq).
  - by eapply Inv_core; [exact HI|split_and!|].
  - by apply (wlp_wp _ _ _ _ (drop_expired_bundles_ok O st HI) _ _ Heq).
  - destruct (wlp_wp _ _ _ _ (check_slot_roll_ok O i st HI Hi Hst Htip) _ _ Heq) as (ks & HI' & _).
    eapply Inv_Permutation, HI'. by apply tip_started_Permutation.
  - by apply (wlp_wp _ _ _ _ (schedule_checks_ok O fuel st HI Hfuel) _ _ Heq).
  - destruct (wlp_wp _ _ _ _ (schedule_execute_worker_ok O i worker budget st HI Hi Hb Hsum) _ _ Heq)
      as (ms & HI' & _ & _ & -> & _). done.
  - injection Heq as <-. by eapply Inv_core; [exact HI|split_and!|].
  - by eapply Inv_core; [exact HI|split_and!|].
Qed.

Lemma reachable_inv O (st : S) : reachable O st → Inv O st.
Proof.
  induction 1 as [evs args w s w' Heq|O st O' st' _ IH Hstep].
  - by eapply new_with_jito_inv.
  - by eapply step_inv.
Qed.

(** C1: in every reachable state, two executions that are out and were sent
    in different batches never conflict: an account both of them lock is only
    read by both. *)
Theorem reachable_conflict_free O (st : S) :
  reachable O st →
  ∀ i m j m' addr b b', (i, m) ∈ O → (j, m') ∈ O → i ≠ j →
    (addr, b) ∈ tx_locks (wld st) (key m) → (addr, b') ∈ tx_locks (wld st) (key m') →
    b = false ∧ b' = false.
Proof. intros Hr i m j m' addr b b' Hi Hj Hne. by apply (inv_compatible _ _ (reachable_inv _ _ Hr) i m j m'). Qed.

(** C2: in every reachable state the CU counter is the sum of the costs of
    the executions that are out, [executing_tx] has exactly their keys, and
    the lock table is exactly their locks; in particular nothing is left
    behind when no execution is out. *)
Theorem reachable_accounted O (st : S) :
  reachable O st →
  in_flight_cus (sch st) = sum_costs O ∧
  (∀ k, k ∈ executing_tx (sch st) ↔ ∃ i m, (i, m) ∈ O ∧ key m = k) ∧
  (∀ addr k b, holds (in_flight_locks (sch st)) addr k b ↔
     (∃ i m, (i, m) ∈ O ∧ key m = k) ∧ (addr, b) ∈ tx_locks (wld st) k) ∧
  (O = [] → in_flight_locks (sch st) = ∅).
Proof.
  intros HI%reachable_inv.
  assert (∀ k, k ∈ okeys O ↔ ∃ i m, (i, m) ∈ O ∧ key m = k) as Hk.
  { intros k. unfold okeys. rewrite list_elem_of_fmap. split.
    - intros ([i m] & -> & Hin). by exists i, m.
    - intros (i & m & Hin & <-). by exists (i, m). }
  split_and!.
  - apply HI.
  - intros k. rewrite <- Hk. by apply executing_spec.
  - intros addr k b. rewrite <- Hk, <- elem_of_outstanding_grants. symmetry. apply HI.
  - intros ->. eapply represents_unique; [apply (inv_locks _ _ HI)|apply represents_empty].
Qed.
End Reach.
