(* ===== verification/BatchPoll.v ===== *)
(** * A whole poll of the batch scheduler

    The scheduler as an instance of [Polling]'s interface, and [poll], phase by
    phase: with enough fuel it ends, dies of no assertion, keeps the invariant,
    and leaves no more in flight than fits in a block. *)

From S2P Require Import Prelude BTreeSet Types Events Externals LockTable TipProgram Costs.
From S2P Require Import Common Outstanding Drains Polling BatchScheduler BatchInvariant BatchHandlers BatchExecute.
From S2P Require Import BatchIngest BatchSlot BatchChecks BatchReach.

Section Poll.
Context `{Profile} `{AgaveBindings} `{!AgaveBindingsLaws} `{World W} `{!WorldLaws}
  `{!Pending W} `{!PendingLaws W} {Heap DSet : Type}
  `{MinMaxHeap Heap PriorityId} `{!MinMaxHeapLaws Heap PriorityId}
  `{IndexSet DSet PriorityId} `{!IndexSetLaws DSet PriorityId}.
Abbreviation Sched := (BatchScheduler Heap DSet).
Abbreviation S := (St Sched W).

(** ** Frames *)

(** What is set from outside. *)
Definition settings (s : Sched) : nat * nat * nat * RuntimeConfig :=
  (unchecked_capacity s, checked_capacity s, bundle_capacity s, runtime s).

Abbreviation KeepsAll m := (Keeps (W := W) settings m).

Lemma keeps_bump (field : SlotStatsEvent → Z) `{!Setter field} n : KeepsAll (bump field n).
Proof. unfold bump. keeps_tac. Qed.
#[local] Hint Resolve keeps_bump : frame.

Lemma keeps_emit_event ev : KeepsAll (emit_event ev).
Proof. unfold emit_event. keeps_tac. Qed.
#[local] Hint Resolve keeps_emit_event : frame.

Lemma keeps_emit_tx_event k prio action : KeepsAll (emit_tx_event k prio action).
Proof. unfold emit_tx_event. keeps_tac. Qed.
#[local] Hint Resolve keeps_emit_tx_event : frame.

Lemma keeps_insert_checked m : KeepsAll (insert_checked m).
Proof. unfold insert_checked. keeps_tac. Qed.
#[local] Hint Resolve keeps_insert_checked : frame.

Lemma keeps_insert_executing k : KeepsAll (insert_executing k).
Proof. unfold insert_executing. keeps_tac. Qed.
#[local] Hint Resolve keeps_insert_executing : frame.

Lemma keeps_remove_executing k : KeepsAll (remove_executing k).
Proof. unfold remove_executing. keeps_tac. Qed.
#[local] Hint Resolve keeps_remove_executing : frame.

Lemma keeps_lock_tx k : KeepsAll (lock_tx k).
Proof. unfold lock_tx. keeps_tac. Qed.
#[local] Hint Resolve keeps_lock_tx : frame.

Lemma keeps_unlock_tx k : KeepsAll (unlock_tx k).
Proof. unfold unlock_tx. keeps_tac. Qed.
#[local] Hint Resolve keeps_unlock_tx : frame.

Lemma keeps_can_lock_tx k : KeepsAll (can_lock_tx k).
Proof. unfold can_lock_tx. keeps_tac. Qed.
#[local] Hint Resolve keeps_can_lock_tx : frame.

Lemma keeps_evict_checked m : KeepsAll (evict_checked m).
Proof. unfold evict_checked. keeps_tac. Qed.
#[local] Hint Resolve keeps_evict_checked : frame.

Lemma keeps_on_response r : KeepsAll (on_response r).
Proof. unfold on_response, on_unprocessed, on_check, on_execute. keeps_tac. Qed.

Lemma keeps_evict_unchecked : KeepsAll evict_unchecked.
Proof. unfold evict_unchecked. keeps_tac. Qed.
#[local] Hint Resolve keeps_evict_unchecked : frame.

Lemma keeps_on_tpu k : KeepsAll (on_tpu k).
Proof. unfold on_tpu. keeps_tac. Qed.

Lemma keeps_drop_keys ks : KeepsAll (drop_keys ks).
Proof. unfold drop_keys. keeps_tac. Qed.
#[local] Hint Resolve keeps_drop_keys : frame.

Lemma keeps_on_packet p : KeepsAll (on_packet p).
Proof. unfold on_packet. keeps_tac. Qed.
#[local] Hint Resolve keeps_on_packet : frame.

Lemma keeps_ingest_bundle packets ks c r : KeepsAll (ingest_bundle packets ks c r).
Proof. revert ks c r. induction packets; intros; simpl; keeps_tac. Qed.
#[local] Hint Resolve keeps_ingest_bundle : frame.

Lemma keeps_any_filtered ks : KeepsAll (any_filtered ks).
Proof. induction ks; simpl; keeps_tac. Qed.
#[local] Hint Resolve keeps_any_filtered : frame.

Lemma keeps_evict_bundle : KeepsAll evict_bundle.
Proof. unfold evict_bundle. keeps_tac. Qed.
#[local] Hint Resolve keeps_evict_bundle : frame.

Lemma keeps_on_bundle packets : KeepsAll (on_bundle packets).
Proof. unfold on_bundle. keeps_tac. Qed.
#[local] Hint Resolve keeps_on_bundle : frame.

Lemma keeps_drop_expired_bundles : KeepsAll drop_expired_bundles.
Proof. unfold drop_expired_bundles. keeps_tac. Qed.

Lemma keeps_recheck_next fuel : KeepsAll (recheck_next fuel).
Proof. induction fuel; simpl; keeps_tac. Qed.
#[local] Hint Resolve keeps_recheck_next : frame.

Lemma keeps_extend_batch fuel n : KeepsAll (extend_batch fuel n).
Proof. induction n; simpl; unfold pop_next; keeps_tac. Qed.
#[local] Hint Resolve keeps_extend_batch : frame.

Lemma keeps_schedule_checks fuel : KeepsAll (schedule_checks fuel).
Proof. unfold schedule_checks, schedule_checks_round. keeps_tac. Qed.

Lemma keeps_all_can_lock ks : KeepsAll (all_can_lock ks).
Proof. induction ks; simpl; keeps_tac. Qed.
#[local] Hint Resolve keeps_all_can_lock : frame.

Lemma keeps_declare_executing batch : KeepsAll (declare_executing batch).
Proof. unfold declare_executing. keeps_tac. Qed.
#[local] Hint Resolve keeps_declare_executing : frame.

Lemma keeps_try_schedule_transaction budget worker : KeepsAll (try_schedule_transaction budget worker).
Proof. unfold try_schedule_transaction. keeps_tac. Qed.
#[local] Hint Resolve keeps_try_schedule_transaction : frame.

Lemma keeps_try_schedule_bundle budget worker : KeepsAll (try_schedule_bundle budget worker).
Proof. unfold try_schedule_bundle. keeps_tac. Qed.
#[local] Hint Resolve keeps_try_schedule_bundle : frame.

Lemma keeps_schedule_execute : KeepsAll schedule_execute.
Proof. unfold schedule_execute, schedule_execute_worker. keeps_tac. Qed.

Lemma keeps_start_recheck : KeepsAll start_recheck.
Proof. unfold start_recheck. keeps_tac. Qed.
#[local] Hint Resolve keeps_start_recheck : frame.

Lemma keeps_update_metrics : KeepsAll update_metrics.
Proof. unfold update_metrics. keeps_tac. Qed.

Lemma keeps_drain_deferred : KeepsAll drain_deferred.
Proof. unfold drain_deferred. keeps_tac. Qed.
#[local] Hint Resolve keeps_drain_deferred : frame.

Lemma keeps_roll_slot p : KeepsAll (roll_slot p).
Proof. unfold roll_slot. keeps_tac. Qed.
#[local] Hint Resolve keeps_roll_slot : frame.

Lemma keeps_become_tip_receiver : KeepsAll become_tip_receiver.
Proof. unfold become_tip_receiver. keeps_tac. Qed.
#[local] Hint Resolve keeps_become_tip_receiver : frame.

(** ** The interface *)

#[export] Instance batch_handlers : Handlers W Sched nat := {|
  sc_inv := Inv;
  sc_settings := settings;
  sc_check_ok := check_ok;
  sc_packet_ok := lockable_packet;
  sc_panic := ingest_panic;
  sc_on_response := on_response;
  sc_on_tpu := on_tpu;
  sc_on_packet := on_packet;
  sc_on_bundle := on_bundle;
  sc_set_tip_config c s := s <| tip_config := Some c |>;
  sc_set_blockhash h s := s <| recent_blockhash := h |>;
|}.

Lemma okeys_NoDup O (st : S) : Inv O st → NoDup (okeys O).
Proof.
  intros HI. pose proof (inv_keys _ _ HI) as Hnd. unfold held_keys, locking_keys in Hnd.
  do 3 apply NoDup_app in Hnd as (_ & _ & Hnd). by apply NoDup_app in Hnd as (Hnd & _ & _).
Qed.

Lemma on_unprocessed_other O m (st : S) :
  Inv O st → key m ∉ okeys O →
  wp benign (on_unprocessed m) (λ d st', Inv O (after_decision (key m) d st')) st.
Proof.
  intros HI Hk. unfold on_unprocessed, remove_executing. wp_steps.
  rewrite bool_decide_eq_false_2 by by rewrite (executing_spec O). wp_step. simpl.
  eapply (Inv_core O st); [done|split_and!; try done|done]. simpl.
  assert (key m ∉ executing_tx (sch st)) by by rewrite (executing_spec O). set_solver.
Qed.

Lemma on_response_decided O r (st : S) :
  Inv O st → response_ok O r st →
  wp benign (on_response r) (λ d st', Inv (settle r O) (after_decision (key (wr_meta r)) d st')) st.
Proof.
  intros HI Hr. pose proof (okeys_NoDup O st HI) as Hnd. unfold on_response, response_ok, settle in *.
  destruct (wr_response r) as [|rep keys|rep].
  - destruct Hr as [[i Hin]|Hk].
    + by apply (on_unprocessed_decided O _ i), without_split.
    + rewrite without_absent by done. by apply on_unprocessed_other.
  - by apply on_check_decided.
  - destruct Hr as [i Hin]. by apply (on_execute_decided O _ i), without_split.
Qed.

Lemma on_tpu_arriving O k (st : S) w :
  Inv O st → arriving k (wld st) w →
  wp ingest_panic (on_tpu k) (λ d st', Inv O (after_decision k d st')) (mk (sch st) w).
Proof.
  intros HI Hw. destruct (ar_signed _ _ _ Hw) as (tx & Htx & Hs).
  assert (k ∉ held_keys O (sch st)) as Hk.
  { intros Hk. destruct (inv_live _ _ HI k Hk) as (tx' & Htx' & _). by rewrite (ar_fresh _ _ _ Hw) in Htx'. }
  apply (on_tpu_decided O k tx); [|done..]. apply environment_inv; [done|].
  intros k' Hk'. apply (ar_other _ _ _ Hw). by intros ->.
Qed.

#[export] Instance batch_handlers_laws : HandlersLaws W Sched nat.
Proof.
  split.
  - intros O st w HI Hw. apply environment_inv; [done|]. intros k _. by rewrite Hw.
  - intros O m rep s w w' Hw [Hl Hc Hwf Hlock Hm Hcap]. split; try done; simpl in *.
    + unfold live. by rewrite Hw.
    + unfold lockable, tx_locks. by rewrite Hw.
  - intros O st HI. apply HI.
  - intros O r st HI Hr. by apply wp_ingest, on_response_decided.
  - exact on_tpu_arriving.
  - intros O packet st HI [Hc _]. simpl in Hc. eapply wp_mono; [apply (on_packet_ok O); [done|lia]|].
    by intros [] st' [HI' _].
  - intros O packets st HI Hne Hl [_ Hc]. simpl in Hc. eapply wp_mono; [by apply (on_bundle_ok O)|].
    by intros [] st' [HI' _].
  - intros O c st HI. by eapply Inv_core; [exact HI|split_and!|].
  - intros O h st HI. by eapply Inv_core; [exact HI|split_and!|].
  - exact keeps_on_response.
  - exact keeps_on_tpu.
  - intros packet. apply keeps_on_packet.
  - intros packets. apply keeps_on_bundle.
  - intros c s. done.
  - intros h s. done.
Qed.

(** ** The drains *)

Lemma drain_worker_responses_ok O (st : S) :
  Inv O st → honest (responses (wld st) (seq 0 (w_worker_count (wld st)))) O st →
  wp ingest_panic drain_worker_responses (λ _ st', draining O st [] [] st') st.
Proof. exact (wp_drain_workers O st). Qed.

Lemma evicted_min_len (s s' : Sched) :
  evicted_min s s' → heap_len (unchecked_tx s) = Datatypes.S (heap_len (unchecked_tx s')).
Proof.
  intros (m & h & Hpop & [stats ->]). simpl. apply heap_pop_min_Some in Hpop as [Hp _].
  by rewrite !heap_len_elements, Hp.
Qed.

Lemma evict_many_ok {A} O (l : list A) (st : S) :
  Inv O st → (length l ≤ heap_len (unchecked_tx (sch st)))%nat →
  wp benign (for_each l (λ _, evict_unchecked)) (λ _ st', Inv O st') st.
Proof.
  intros HI Hlen. set (I (l : list A) st' := Inv O st' ∧ (length l ≤ heap_len (unchecked_tx (sch st')))%nat).
  apply (wp_mono _ _ (λ _ st', I [] st')); [|by intros [] st' [HI' _]].
  apply wp_for_each; [done|].
  clear l st HI Hlen. intros x l st [HI Hlen]. simpl in Hlen. apply (wp_evict_unchecked O); [done| |].
  - intros Hnil. rewrite heap_len_elements, Hnil in Hlen. simpl in Hlen. lia.
  - intros st' HI' Hev%evicted_min_len _. split; [done|]. lia.
Qed.

Lemma drain_tpu_ok B st0 n (st : S) :
  (n ≤ unchecked_capacity (sch st))%nat → phase B st0 st →
  wp ingest_panic (drain_tpu n) (λ _ st', phase B st0 st') st.
Proof.
  intros Hcap Hph. unfold drain_tpu. wp_steps. apply wp_ingest. set (shortfall := (_ - _)%nat).
  eapply wp_mono; [apply (wp_phase _ _ B st0); [keeps_tac|done|]|].
  { intros O HI. apply (evict_many_ok O); [done|]. rewrite length_seq. unfold shortfall. lia. }
  intros [] st1 Hph1. apply wp_bind, wp_ingest.
  eapply wp_mono; [apply (wp_phase _ _ B st0); [keeps_tac|done|]|].
  { intros O HI. apply wp_increment. intros st' Hq. by eapply quiet_inv. }
  intros [] st2 Hph2. apply wp_bind, wp_ingest.
  eapply wp_mono; [apply (wp_phase _ _ B st0); [keeps_tac|done|]|].
  { intros O HI. apply wp_bump. intros st' Hq. by eapply quiet_inv. }
  intros [] st3. exact (wp_drain_arriving B st0 n st3).
Qed.

Lemma drain_jito_ok B c p q fuel (st : S) :
  has_room c → receiving B c p q st → (length q < fuel)%nat →
  wp ingest_panic (drain_jito fuel) (λ _ st', receiving B c p [] st') st.
Proof. exact (wp_jito_loop B c p q fuel st). Qed.

(** ** Scheduling *)

Lemma schedule_checks_receiving B c p q fuel (st : S) :
  receiving B c p q st → (checks_left (sch st) < fuel)%nat →
  wp benign (schedule_checks fuel) (λ _ st', receiving B c p q st') st.
Proof.
  intros Hrec Hfuel. apply wp_receiving_inv; [apply keeps_schedule_checks|done|]. intros O HI.
  eapply wp_mono; [by apply (schedule_checks_ok O)|]. by intros [] st' [HI' _].
Qed.

Lemma schedule_execute_receiving c p q (st : S) :
  receiving MAX_BLOCK_UNITS_SIMD_0256 c p q st → progress_ok c p → leader_state p = LEADER_READY →
  wp benign schedule_execute (λ _ st', receiving MAX_BLOCK_UNITS_SIMD_0256 c p q st') st.
Proof.
  intros Hrec Hok Hlead. pose proof Hrec as ([_ Hs Hp] & _). subst c p.
  apply wp_receiving; [apply keeps_schedule_execute|done|]. intros O HI Hsum.
  pose proof (inv_cus_u64 _ _ HI) as [Hcus _]. rewrite <- (inv_cus _ _ HI) in Hsum.
  eapply wp_mono; [apply (schedule_execute_ok O); [done|done|by apply (progress_budget (settings (sch st)))]|].
  intros [] st' (new & HI' & _ & Hused). exists (new ++ O). split; [done|]. rewrite <- (inv_cus _ _ HI').
  by apply (progress_share (settings (sch st)) (w_progress (wld st)) (in_flight_cus (sch st))).
Qed.

Lemma start_recheck_receiving B c p q (st : S) :
  receiving B c p q st → wp benign start_recheck (λ _ st', receiving B c p q st') st.
Proof.
  intros Hrec. apply wp_receiving_inv; [apply keeps_start_recheck|done|]. intros O HI.
  unfold start_recheck. wp_steps. by eapply Inv_core; [exact HI|split_and!|].
Qed.

Lemma wp_set_gauge O m n (Q : unit → S → Prop) (st : S) :
  Inv O st → (∀ st', Inv O st' → Q tt st') → wp benign (set_gauge m n) Q st.
Proof.
  intros HI HQ. apply wp_update_world, HQ. eapply Inv_core; [exact HI|by split_and!|]. apply metric_set_transaction.
Qed.

Lemma update_metrics_receiving B c p q (st : S) :
  receiving B c p q st → wp benign update_metrics (λ _ st', receiving B c p q st') st.
Proof.
  intros Hrec. apply wp_receiving_inv; [apply keeps_update_metrics|done|]. intros O HI.
  unfold update_metrics.
  by repeat first [wp_step | eapply (wp_set_gauge O); [eassumption|intros ? ?]].
Qed.

(** ** The slot roll *)

Lemma check_slot_roll_frame (st st1 : S) :
  check_slot_roll st = Ok (tt, st1) →
  settings (sch st1) = settings (sch st) ∧ same_seen (w_drain_progress (wld st)).2 (wld st1).
Proof.
  unfold check_slot_roll, bindM at 1, call at 1, step. destruct (w_drain_progress (wld st)) as [o w]. simpl.
  match goal with |- ?m _ = _ → _ => assert (KeepsAll m) as Hm by keeps_tac end. apply Hm.
Qed.

(** ** The poll *)

(** What the outside must be like for a poll to go well. *)
Record poll_ready (O : list (nat * PriorityId)) (st : S) : Prop := {
  pr_inv : Inv O st;
  pr_cus : in_flight_cus (sch st) ≤ MAX_BLOCK_UNITS_SIMD_0256;
  pr_room : has_room (settings (sch st));
  (** The validator is there, and its progress is in range. *)
  pr_connected : ¬ stale st;
  pr_progress : progress_ok (settings (sch st)) (w_progress (w_drain_progress (wld st)).2);
  (** So is the Jito thread. *)
  pr_tip : tip_config (sch st) ≠ None;
  pr_open : w_jito_open (wld st) = true;
  pr_queue : Forall jito_ok (w_jito_queue (wld st));
  (** The workers answer what they were asked. *)
  pr_honest : ∀ new st1, check_slot_roll st = Ok (tt, st1) → Inv (new ++ O) st1 →
    honest (responses (wld st1) (seq 0 (w_worker_count (wld st1)))) (new ++ O) st1;
}.

Lemma check_slot_roll_ready O (st : S) :
  poll_ready O st →
  wp benign check_slot_roll (λ _ st1, ∃ O1,
    Inv O1 st1 ∧ sum_costs O1 ≤ MAX_BLOCK_UNITS_SIMD_0256 ∧
    settings (sch st1) = settings (sch st) ∧ w_progress (wld st1) = w_progress (w_drain_progress (wld st)).2 ∧
    w_jito_open (wld st1) = true ∧ w_jito_queue (wld st1) = w_jito_queue (wld st) ∧
    honest (responses (wld st1) (seq 0 (w_worker_count (wld st1)))) O1 st1) st.
Proof.
  intros []. destruct (fresh_batch_exists O) as [i Hi].
  eapply wp_mono; [by apply wp_run, (check_slot_roll_ok O i)|]. intros [] st1 (Heq & ks & HI1 & _).
  pose proof (check_slot_roll_frame st st1 Heq) as [Hset [Hp Hq Ho _]].
  exists (entries i (tip_metas ks) ++ O). split_and!; [done| |done|done| | |by apply pr_honest0].
  - rewrite sum_costs_entries, tip_metas_cost, <- (inv_cus _ _ pr_inv0). done.
  - by rewrite Ho, drain_progress_open.
  - by rewrite Hq, drain_progress_queue.
Qed.

(** What follows the responses. *)
Definition rest_of_poll (fuel : nat) : M S unit :=
  let* p := bridge w_progress in
  let is_leader := leader_state p =? LEADER_READY in
  (if is_leader then drain_tpu 128 else drain_tpu 1024) ;;
  drop_expired_bundles ;;
  drain_jito fuel ;;
  schedule_checks fuel ;;
  when is_leader (schedule_execute ;; start_recheck) ;;
  update_metrics.

Lemma drop_expired_phase B st0 (st : S) :
  phase B st0 st → wp benign drop_expired_bundles (λ _ st', phase B st0 st') st.
Proof.
  intros Hph. apply wp_phase; [apply keeps_drop_expired_bundles|done|]. intros O HI.
  eapply wp_mono; [by apply (drop_expired_bundles_ok O)|]. by intros [] st' [HI' _].
Qed.

Lemma scheduling_ok c p q fuel (st : S) :
  receiving MAX_BLOCK_UNITS_SIMD_0256 c p q st → progress_ok c p → (checks_left (sch st) < fuel)%nat →
  wp benign (schedule_checks fuel ;;
             when (leader_state p =? LEADER_READY) (schedule_execute ;; start_recheck) ;;
             update_metrics)
    (λ _ st', receiving MAX_BLOCK_UNITS_SIMD_0256 c p q st') st.
Proof.
  intros Hrec Hp Hfuel. apply wp_bind. eapply wp_mono; [by eapply schedule_checks_receiving|]. intros [] st1 Hrec1.
  apply wp_bind, (wp_mono _ _ (λ _ st2, receiving MAX_BLOCK_UNITS_SIMD_0256 c p q st2)).
  2: intros [] st2; apply update_metrics_receiving.
  apply wp_when; [intros Hlead%Z.eqb_eq|intros _; exact Hrec1]. apply wp_bind.
  eapply wp_mono; [by apply schedule_execute_receiving|]. intros [] st2. apply start_recheck_receiving.
Qed.

Lemma rest_of_poll_ok (st : S) c p :
  has_room c → progress_ok c p →
  phase MAX_BLOCK_UNITS_SIMD_0256 st st → settings (sch st) = c → w_progress (wld st) = p →
  w_jito_open (wld st) = true → Forall jito_ok (w_jito_queue (wld st)) →
  eventually ingest_panic rest_of_poll (λ _ st', receiving MAX_BLOCK_UNITS_SIMD_0256 c p [] st') st.
Proof.
  intros Hroom Hp Hph <- <- Hopen Hok. unfold rest_of_poll. pose proof Hroom as [Hcap _].
  apply eventually_bind_const. wp_step. apply eventually_bind_const.
  apply (wp_mono _ _ (λ _ st', phase MAX_BLOCK_UNITS_SIMD_0256 st st')).
  { case_match; apply drain_tpu_ok; try done; simpl in Hcap; lia. }
  intros [] st1 Hph1. apply eventually_bind_const, wp_ingest.
  eapply wp_mono; [by apply drop_expired_phase|]. intros [] st2 Hph2.
  apply eventually_bind; [apply stable_loop_fuel|].
  exists (Datatypes.S (length (w_jito_queue (wld st)))). intros fuel Hfuel.
  eapply wp_mono; [apply (drain_jito_ok MAX_BLOCK_UNITS_SIMD_0256 (settings (sch st)) (w_progress (wld st))
    (w_jito_queue (wld st))); [done|exact (phase_receiving _ st st2 Hph2 Hopen Hok)|lia]|].
  intros [] st3 Hrec. exists (Datatypes.S (checks_left (sch st3))). intros fuel' Hfuel'.
  apply wp_ingest, scheduling_ok; [done|done|lia].
Qed.

Lemma poll_ok O (st : S) :
  poll_ready O st →
  eventually ingest_panic poll (λ _ st', ∃ O',
    Inv O' st' ∧ in_flight_cus (sch st') ≤ MAX_BLOCK_UNITS_SIMD_0256 ∧
    settings (sch st') = settings (sch st) ∧ w_jito_queue (wld st') = []) st.
Proof.
  intros Hready. unfold poll. apply eventually_bind_const, wp_ingest.
  eapply wp_mono; [by apply (check_slot_roll_ready O)|].
  intros [] st1 (O1 & HI1 & Hsum1 & Hset & Hp & Hopen & Hq & Hh). destruct Hready.
  apply eventually_bind_const. eapply wp_mono; [by apply (drain_worker_responses_ok O1)|].
  intros [] st2 (O2 & HI2 & Hsum2 & _ & [Hset2 [Hp2 Hq2 Ho2]]).
  destruct (rest_of_poll_ok st2 (settings (sch st)) (w_progress (w_drain_progress (wld st)).2)) as [n Hn]; try done.
  - exists O2. split_and!; [done|lia|done].
  - transitivity (settings (sch st1)); [exact Hset2|exact Hset].
  - congruence.
  - congruence.
  - by rewrite Hq2, Hq.
  - exists n. intros fuel Hfuel. eapply wp_mono; [by apply Hn|].
    intros [] st3 ([(O3 & HI3 & Hsum3) Hset3 _] & Hq3 & _). exists O3. rewrite (inv_cus _ _ HI3). by split_and!.
Qed.

End Poll.
