(* ===== verification/BatchLeaks.v ===== *)
(** * No transaction is lost

    Every transaction in the bridge is in one of the batch scheduler's
    collections, executing, or with the check workers for the first time: no
    handler forgets one without dropping it.  The exception is the code's: a
    first check that comes back unprocessed. *)

From S2P Require Import Prelude BTreeSet Types Events Externals LockTable TipProgram Costs.
From S2P Require Import Common Outstanding Drains Strays Histories Polling BatchScheduler BatchInvariant BatchIngest.
From S2P Require Import BatchPoll.

Section BatchLeaks.
Context `{Profile} `{AgaveBindings} `{World W} `{!WorldLaws} `{!DropLaws} `{!SentLog W} `{!SentLaws W} {Heap DSet : Type}
  `{MinMaxHeap Heap PriorityId} `{!MinMaxHeapLaws Heap PriorityId}
  `{IndexSet DSet PriorityId} `{!IndexSetLaws DSet PriorityId}.
Abbreviation Sched := (BatchScheduler Heap DSet).
Abbreviation S := (St Sched W).
Implicit Types (X Y : gset TransactionKey) (s : Sched) (st : S) (k : TransactionKey).

Definition held s : Held := {|
  h_unchecked := heap_elements (unchecked_tx s);
  h_checked := checked_tx s;
  h_deferred := iset_elements (deferred_tx s);
  h_executing := executing_tx s;
  h_bundles := bundles s;
|}.

Abbreviation strays := (Strays.strays held).
Abbreviation keeps_strays := (Strays.keeps_strays held).
Abbreviation decided_strays := (Strays.decided_strays held).
Abbreviation popping := (Strays.popping held check_flags).
Abbreviation first_checks := (Strays.first_checks held check_flags).

(** ** Parts that are still *)

Lemma still_bump (field : SlotStatsEvent → Z) `{!Setter field} n : still held (bump field n).
Proof. unfold bump. still_tac. Qed.
#[local] Hint Resolve still_bump : still.

Lemma still_emit_event ev : still held (emit_event ev).
Proof. unfold emit_event. still_tac. Qed.
#[local] Hint Resolve still_emit_event : still.

Lemma still_emit_tx_event k prio action : still held (emit_tx_event k prio action).
Proof. unfold emit_tx_event. still_tac. Qed.
#[local] Hint Resolve still_emit_tx_event : still.

Lemma still_can_lock_tx k : still held (can_lock_tx k).
Proof. unfold can_lock_tx. still_tac. Qed.

Lemma still_lock_tx k : still held (lock_tx k).
Proof. unfold lock_tx. still_tac. Qed.

Lemma still_unlock_tx k : still held (unlock_tx k).
Proof. unfold unlock_tx. still_tac. Qed.
#[local] Hint Resolve still_can_lock_tx still_lock_tx still_unlock_tx : still.

Lemma still_all_can_lock ks : still held (all_can_lock ks).
Proof. induction ks as [|k ks IH]; simpl; still_tac. Qed.

Lemma still_any_filtered ks : still held (any_filtered ks).
Proof. induction ks as [|k ks IH]; simpl; still_tac. Qed.
#[local] Hint Resolve still_all_can_lock still_any_filtered : still.

(** ** Calls that move keys *)

Lemma wlp_insert_checked X m (Q : bool → S → Prop) st :
  strays ({[key m]} ∪ X) st → (∀ b st', strays X st' → Q b st') → wlp (insert_checked m) Q st.
Proof.
  intros Hs HQ. unfold insert_checked. stray_steps. simpl. stray_steps. apply HQ.
  destruct st as [s w]. eapply strays_put_checked, Hs; reflexivity.
Qed.

Lemma wlp_remove_executing X k (Q : bool → S → Prop) st :
  strays X st → (∀ st', strays X st' → Q false st') → (∀ st', strays ({[k]} ∪ X) st' → Q true st') →
  wlp (remove_executing k) Q st.
Proof.
  intros Hs Hf Ht. unfold remove_executing. stray_steps. destruct st as [s w]. simpl.
  case_bool_decide as Hk; [apply Ht|apply Hf].
  - eapply strays_take_executing, Hs. reflexivity.
  - eapply strays_same; [exact Hs|done|]. unfold held. simpl. f_equal. set_solver.
Qed.

Lemma wlp_insert_executing X k (Q : bool → S → Prop) st :
  strays ({[k]} ∪ X) st → (∀ b st', strays X st' → Q b st') → wlp (insert_executing k) Q st.
Proof.
  intros Hs HQ. unfold insert_executing. stray_steps. apply HQ. destruct st as [s w].
  eapply strays_put_executing, Hs. reflexivity.
Qed.

(** ** Ends of checks and executions *)

Lemma wlp_evict_checked X id st :
  strays ({[key id]} ∪ X) st → wlp (evict_checked id) (λ _, strays X) st.
Proof.
  intros Hs. unfold evict_checked. stray_step. still_call Hs.
  intros _ st1 Hs1. by apply wlp_drop.
Qed.

Lemma strays_pop_first X id l s w :
  btree_pop_first (checked_tx s) = Some (id, l) → strays X (mk s w) →
  strays ({[key id]} ∪ X) (mk (s <| checked_tx := l |>) w).
Proof. intros Hl Hs. eapply strays_take_checked, Hs; [reflexivity|]. by apply btree_pop_first_take. Qed.

Lemma on_unprocessed_strays X m st :
  strays X st → wlp (on_unprocessed m) (decided_strays X (key m)) st.
Proof.
  intros Hs. unfold on_unprocessed. stray_step. apply (wlp_remove_executing X); [done|..].
  { intros st1 Hs1. by stray_step. }
  intros st1 Hs1. stray_step. still_call Hs1. intros _ st2 Hs2.
  stray_steps. set (st3 := mk _ _). assert (strays ({[key m]} ∪ X) st3) as Hs3 by exact Hs2.
  destruct (priority m =? BUNDLE_MARKER); [stray_step; by apply strays_dropped|].
  stray_step. still_call Hs3. intros _ st4 Hs4.
  stray_step. still_call Hs4. intros _ st5 Hs5.
  stray_step. still_call Hs5. intros _ st6 Hs6.
  stray_step. apply (wlp_insert_checked X); [done|]. intros _ st7 Hs7. by stray_step.
Qed.

Lemma on_execute_put_back X m (b : bool) st :
  strays ({[key m]} ∪ X) st →
  wlp (if b then
         let* d := self deferred_tx in
         let '(new, d') := iset_insert m d in
         update (λ s, s <| deferred_tx := d' |>) ;;
         assert "on_execute: deferred" new
       else
         let* new := insert_checked m in
         assert "on_execute: checked" new) (λ _, strays X) st.
Proof.
  intros Hs. destruct b.
  - stray_steps. destruct (iset_insert m (deferred_tx (sch st))) as [new d'] eqn:Hi. stray_steps. subst new.
    destruct (decide (m ∈ iset_elements (deferred_tx (sch st)))) as [Hm|Hm].
    { apply iset_insert_present in Hm. rewrite Hi in Hm. done. }
    destruct (iset_insert_new m _ Hm) as (d & Hd & He). rewrite Hi in Hd. injection Hd as <-.
    destruct st as [s w]. eapply strays_put_deferred, Hs. unfold held. simpl. by rewrite He.
  - stray_step. apply (wlp_insert_checked X); [done|]. intros new st1 Hs1. by stray_steps.
Qed.

Lemma on_execute_evict_strays X st :
  strays X st →
  wlp (match btree_pop_first (checked_tx (sch st)) with
       | Some (evicted, l') =>
           update (λ s, s <| checked_tx := l' |>) ;;
           evict_checked evicted ;;
           increment m_execute_evict 1
       | None => mret tt
       end) (λ _, strays X) st.
Proof.
  intros Hs. destruct (btree_pop_first (checked_tx (sch st))) as [[id l]|] eqn:Hl; [|by stray_step].
  stray_steps. destruct st as [s w]. apply (wlp_then held X); [by eapply wlp_evict_checked, strays_pop_first|].
  intros _ st1 Hs1. by still_call Hs1.
Qed.

Lemma on_execute_strays X m rep st :
  strays X st → wlp (on_execute m rep) (decided_strays X (key m)) st.
Proof.
  intros Hs. unfold on_execute. stray_step. apply (wlp_remove_executing X); [done|..].
  { intros st1 _. stray_step. by apply wlp_assert. }
  intros st1 Hs1. stray_steps. set (st2 := mk _ _). assert (strays ({[key m]} ∪ X) st2) as Hs2 by exact Hs1.
  still_call Hs2. intros _ st3 Hs3.
  stray_step. still_call Hs3. intros action st4 Hs4.
  stray_step. still_call Hs4. intros _ st5 Hs5.
  destruct (_ || _); [stray_step; by apply strays_dropped|].
  stray_steps. apply (wlp_then held X); [by apply on_execute_put_back|]. intros _ st6 Hs6.
  stray_steps. apply wlp_when; intros _; [|by stray_step].
  apply (wlp_then held X); [by apply on_execute_evict_strays|]. intros _ st7 Hs7. by stray_step.
Qed.

(** A response of the check workers to a first check settles the key. *)
Lemma on_check_strays X m rep resolved st :
  strays X st → wlp (on_check m rep resolved) (decided_strays (X ∖ {[key m]}) (key m)) st.
Proof.
  intros Hs. unfold on_check. stray_steps.
  assert (∀ Y st', strays Y st' → Y ⊆ {[key m]} ∪ X → decided_strays (X ∖ {[key m]}) (key m) Drop st') as Hdrop.
  { intros Y st' Hs' HY. eapply strays_mono, strays_drop, Hs'. set_solver. }
  destruct (bool_decide (key m ∈ executing_tx (sch st)) || iset_contains m (deferred_tx (sch st))) eqn:Hig.
  { stray_step. eapply strays_untracked; [exact Hs|].
    apply orb_prop in Hig as [Hig%bool_decide_eq_true|Hig%iset_contains_spec]; [by apply hkeys_executing|].
    by apply (hkeys_deferred m (held _)). }
  destruct (check_failures rep) as [[p r] f]. destruct (p || r || f).
  { apply wlp_bind. apply (wlp_still_strays _ _ _ _ _ Hs); [by destruct p, r, f; still_tac|]. intros reason st1 Hs1.
    stray_step. still_call Hs1. intros _ st2 Hs2.
    stray_step. still_call Hs2. intros _ st3 Hs3.
    stray_step. still_call Hs3. intros _ [s4 w4] Hs4.
    stray_steps. eapply Hdrop; [|done]. eapply strays_take_checked, Hs4; [reflexivity|apply btree_remove_take]. }
  stray_steps. destruct (btree_contains m (checked_tx (sch st))) eqn:Hin.
  { apply btree_contains_spec in Hin.
    assert (strays (X ∖ {[key m]}) st) as Hs0 by by eapply strays_untracked, (hkeys_checked m (held _)).
    stray_step. still_call Hs0. intros _ st1 Hs1.
    stray_step. still_call Hs1. intros _ st2 Hs2. by stray_step. }
  destruct (existsb _ _).
  { stray_step. still_call Hs. intros _ st1 Hs1.
    stray_step. still_call Hs1. intros _ st2 Hs2.
    stray_step. eapply Hdrop; [done|]. set_solver. }
  stray_step. apply (wlp_then held X).
  { apply wlp_when; intros _; [|done]. stray_steps. destruct a as [id l']. stray_steps.
    destruct st as [s w]. simpl in *.
    apply (wlp_then held X); [by eapply wlp_evict_checked, strays_pop_first|]. intros _ st1 Hs1.
    stray_step. still_call Hs1. intros _ st2 Hs2.
    by still_call Hs2. }
  intros _ st1 Hs1. stray_step. apply (wlp_insert_checked (X ∖ {[key m]})).
  { eapply strays_mono, Hs1. intros k Hk. destruct (decide (k = key m)); set_solver. }
  intros _ st2 Hs2. stray_step. still_call Hs2. intros _ st3 Hs3.
  stray_step. still_call Hs3. intros _ st4 Hs4.
  stray_step. still_call Hs4. intros _ st5 Hs5. by stray_step.
Qed.

(** ** Ingest *)

Lemma strays_push_unchecked X m s w :
  strays ({[key m]} ∪ X) (mk s w) → strays X (mk (s <| unchecked_tx ::= heap_push m |>) w).
Proof. intros Hs. eapply strays_put_unchecked, Hs; [reflexivity|]. simpl. by rewrite heap_push_elements. Qed.

Lemma evict_unchecked_strays : keeps_strays evict_unchecked.
Proof.
  intros X [s w] Hs. unfold evict_unchecked. stray_steps. destruct a as [id h']. stray_steps. simpl in *.
  apply heap_pop_min_Some in Ha as [Hh _].
  assert (strays ({[key id]} ∪ X) (mk (s <| unchecked_tx := h' |>) w)) as Hs1
    by (eapply strays_take_unchecked, Hs; [reflexivity|simpl; by rewrite Hh]).
  still_call Hs1. intros _ st2 Hs2. by apply wlp_drop.
Qed.

Lemma on_tpu_strays X k st :
  strays ({[k]} ∪ X) st → wlp (on_tpu k) (decided_strays X k) st.
Proof.
  intros Hs. unfold on_tpu. stray_steps. destruct a as [[prio c]|].
  - stray_steps. destruct (should_filter_static _ _).
    + stray_step. still_call Hs. intros _ st1 Hs1.
      apply (wlp_still_decided held _ ({[k]} ∪ X)); [done|still_tac|]. intros st2. apply strays_dropped.
    + stray_steps. destruct st as [s w].
      assert (strays X (mk (s <| unchecked_tx ::= heap_push {| priority := prio; cost := c; key := k |} |>) w)) as Hs1
        by by apply strays_push_unchecked.
      still_call Hs1. intros _ st2 Hs2.
      stray_step. still_call Hs2. intros _ st3 Hs3.
      apply (wlp_still_decided held _ X); [done|still_tac|done].
  - stray_step. still_call Hs. intros _ st1 Hs1.
    apply (wlp_still_decided held _ ({[k]} ∪ X)); [done|still_tac|]. intros st2. apply strays_dropped.
Qed.

Lemma on_packet_strays packet : keeps_strays (on_packet packet).
Proof.
  intros X st Hs. unfold on_packet. stray_step. apply (wlp_insert_transaction held X); [done|by intros; stray_step|].
  intros k st1 Hs1. stray_steps. destruct a as [[prio c]|].
  - stray_steps. destruct (should_filter_static _ _).
    + stray_step. still_call Hs1. intros _ st2 Hs2.
      stray_step. still_call Hs2. intros _ st3 Hs3. by apply wlp_drop.
    + stray_step. apply (wlp_then held ({[k]} ∪ X)).
      { apply keeps_strays_when; [|done]. apply keeps_strays_bind; [apply evict_unchecked_strays|]. intros _.
        apply still_keeps. still_tac. }
      intros _ [s2 w2] Hs2. stray_steps.
      apply (strays_push_unchecked X {| priority := prio; cost := c; key := k |}) in Hs2.
      still_call Hs2. intros _ st3 Hs3.
      by still_call Hs3.
  - stray_step. still_call Hs1. intros _ st2 Hs2.
    stray_step. still_call Hs2. intros _ st3 Hs3. by apply wlp_drop.
Qed.

(** ** Bundles *)

Lemma drop_keys_strays X ks st :
  strays (list_to_set ks ∪ X) st → wlp (drop_keys ks) (λ _, strays X) st.
Proof. apply keys_gone_strays. intros. by apply wlp_drop. Qed.

(** The keys of a bundle that is ingested are in transit, those of a refused one gone. *)
Definition ingested X (o : option (list TransactionKey * Z * Z)) st : Prop :=
  match o with Some (ks, _, _) => strays (list_to_set ks ∪ X) st | None => strays X st end.

Lemma refuse_bundle_strays X ks st :
  strays (list_to_set ks ∪ X) st →
  wlp (drop_keys ks ;; increment m_recv_bundle_err 1 ;; mret None) (ingested X) st.
Proof.
  intros Hs. stray_step. apply (wlp_then held X); [by apply drop_keys_strays|]. intros _ st1 Hs1.
  stray_step. still_call Hs1. intros _ st2 Hs2. by stray_step.
Qed.

Lemma ingest_bundle_strays X packets ks total_cost total_reward st :
  strays (list_to_set ks ∪ X) st → wlp (ingest_bundle packets ks total_cost total_reward) (ingested X) st.
Proof.
  revert ks total_cost total_reward st. induction packets as [|packet packets IH]; intros ks c r st Hs; simpl.
  { by stray_step. }
  stray_step. eapply wlp_insert_transaction; [exact Hs|intros st1 Hs1; by apply refuse_bundle_strays|].
  intros k st1 Hs1. stray_steps.
  assert (strays (list_to_set (ks ++ [k]) ∪ X) st1) as Hs2 by (eapply strays_mono, Hs1; set_solver).
  destruct a as [[c1 r1]|]; [|by apply refuse_bundle_strays]. stray_steps. by apply IH.
Qed.

Lemma evict_bundle_strays : keeps_strays evict_bundle.
Proof.
  intros X [s w] Hs. unfold evict_bundle. stray_steps. destruct a as [b l']. stray_steps. simpl in *.
  apply (wlp_then held X).
  { apply drop_keys_strays. eapply strays_take_bundle, Hs; [reflexivity|by apply btree_pop_first_take]. }
  intros _ st1 Hs1. by still_call Hs1.
Qed.

Lemma on_bundle_strays packets : keeps_strays (on_bundle packets).
Proof.
  intros X st Hs. unfold on_bundle. stray_step.
  eapply wlp_mono; [apply (ingest_bundle_strays X); eapply strays_mono, Hs; set_solver|].
  intros [[[ks c] r]|] st1 Hs1; [|by stray_step]. cbv beta iota in Hs1.
  stray_step. still_call Hs1. intros filtered st2 Hs2. destruct filtered.
  { stray_step. still_call Hs2. intros _ st3 Hs3. by apply drop_keys_strays. }
  stray_steps. still_call Hs2. intros _ st3 Hs3. stray_steps.
  apply (wlp_then held (list_to_set ks ∪ X)); [by apply keeps_strays_when; [apply evict_bundle_strays|]|]. intros _ st4 Hs4.
  stray_step. still_call Hs4. intros _ st5 Hs5.
  stray_step. still_call Hs5. intros now [s6 w6] Hs6.
  stray_steps. by eapply (strays_put_bundle held X {| b_priority := _; b_cost := _; received_at := _; keys := ks |}), Hs6.
Qed.

Lemma drop_expired_bundles_strays : keeps_strays drop_expired_bundles.
Proof.
  intros X st Hs. unfold drop_expired_bundles. stray_step. still_call Hs. intros now [s w] Hs1. stray_steps. simpl.
  set (p := is_expired _ _). set (expired := List.filter p (bundles s)).
  assert (strays (bundle_keys expired ∪ X) (mk (s <| bundles := List.filter (λ b, negb (p b)) (bundles s) |>) w)) as Hs2.
  { eapply strays_less; [|exact Hs1]. apply (hkeys_set_bundles (held s)). simpl. intros k.
    rewrite elem_of_union, !elem_of_bundle_keys. intros (b & Hb & Hk).
    destruct (p b) eqn:Hp; [right|left]; exists b; (split; [|done]);
      apply list_elem_of_In, filter_In; rewrite Hp; by apply list_elem_of_In in Hb. }
  stray_steps. apply (wlp_for_each_strays held X bundle_keys); [done|exact Hs2|].
  intros b l [s3 w3] Hs3. stray_steps. simpl.
  assert (strays (list_to_set (keys b) ∪ (bundle_keys l ∪ X))
    (mk (s3 <| bundles ::= λ l, (btree_remove b l).2 |>) w3)) as Hs4.
  { assert (bundle_keys (b :: l) ⊆ list_to_set (keys b) ∪ bundle_keys l) as Hbl by by apply bundle_keys_take.
    eapply strays_mono, (strays_take_bundle held _ b), Hs3; [set_solver|reflexivity|apply btree_remove_take]. }
  still_call Hs4. intros _ st5 Hs5. by apply drop_keys_strays.
Qed.

(** ** The slot roll *)

Lemma drain_deferred_strays : keeps_strays drain_deferred.
Proof.
  intros X [s w] Hs. unfold drain_deferred. stray_steps. simpl.
  destruct (iset_drain_spec (deferred_tx s)) as (d & -> & Hd). stray_steps.
  apply (wlp_for_each_strays held X meta_keys); [done|..].
  - eapply strays_less; [|exact Hs]. apply (hkeys_set_deferred (held s)). simpl. set_solver.
  - intros m l st1 Hs1. stray_step. apply (wlp_insert_checked (meta_keys l ∪ X)).
    + eapply strays_mono, Hs1. assert (meta_keys (m :: l) ⊆ {[key m]} ∪ meta_keys l) by by apply meta_keys_take.
      set_solver.
    + intros new st2 Hs2. by apply wlp_assert.
Qed.

Lemma become_tip_receiver_strays : keeps_strays become_tip_receiver.
Proof.
  intros X st Hs. unfold become_tip_receiver. stray_steps. destruct (init_tip_distribution _ _ _ _) as [tip_key packet].
  stray_step. apply (wlp_insert_transaction held X); [done|by intros; stray_step; apply wlp_panic|].
  intros k1 st1 Hs1. stray_steps. simplify_eq.
  apply (wlp_insert_transaction held ({[a]} ∪ X)); [done|by intros; stray_step; apply wlp_panic|].
  intros k2 st2 Hs2. stray_steps. simplify_eq.
  still_call Hs2. intros ok_init st3 Hs3.
  stray_step. still_call Hs3. intros ok st4 Hs4.
  destruct (negb ok).
  { stray_step. apply (wlp_then held ({[a1]} ∪ X)); [apply wlp_drop; eapply strays_mono, Hs4; set_solver|].
    intros _ st5 Hs5. by apply wlp_drop. }
  stray_step. still_call Hs4. intros _ st5 Hs5.
  stray_step. still_call Hs5. intros _ st6 Hs6.
  stray_step. apply (wlp_insert_executing ({[a1]} ∪ X)); [eapply strays_mono, Hs6; set_solver|].
  intros new st7 Hs7. stray_steps. apply (wlp_insert_executing X); [done|]. intros new' st8 Hs8. stray_steps.
  still_call Hs8. intros _ st9 Hs9.
  by still_call Hs9.
Qed.

Lemma still_start_recheck : still held start_recheck.
Proof. unfold start_recheck. still_tac. Qed.

Lemma roll_slot_strays p : keeps_strays (roll_slot p).
Proof.
  unfold roll_slot. apply keeps_strays_bind; [apply still_keeps; still_tac|]. intros e.
  apply keeps_strays_bind; [apply still_keeps; still_tac|]. intros _.
  apply keeps_strays_bind; [apply still_keeps; still_tac|]. intros _.
  apply keeps_strays_bind; [apply drain_deferred_strays|]. intros _. apply still_keeps, still_start_recheck.
Qed.

Lemma check_slot_roll_strays : keeps_strays check_slot_roll.
Proof.
  unfold check_slot_roll.
  apply keeps_strays_bind; [apply still_keeps, still_call, drain_progress_transaction|]. intros o.
  apply keeps_strays_bind; [apply still_keeps; still_tac|]. intros _.
  apply keeps_strays_bind; [apply still_keeps; still_tac|]. intros was_ready.
  apply keeps_strays_bind; [apply still_keeps; still_tac|]. intros p.
  apply keeps_strays_bind; [apply still_keeps; still_tac|]. intros sl.
  apply keeps_strays_bind; [apply keeps_strays_when, roll_slot_strays|]. intros _. apply keeps_strays_when.
  apply keeps_strays_bind; [apply still_keeps; still_tac|]. intros _.
  apply keeps_strays_bind; [apply still_keeps; still_tac|]. intros _. apply become_tip_receiver_strays.
Qed.

(** ** Check requests *)

(** The walk over the checked transactions moves the recheck only. *)
Lemma wlp_recheck_next fuel (Q : option KeyedTransactionMeta → S → Prop) st :
  (∀ o r, Q o (mk ((sch st) <| next_recheck := r |>) (wld st))) → wlp (recheck_next fuel) Q st.
Proof.
  intros HQ. assert (∀ st0 : S, (∃ r, st0 = mk ((sch st) <| next_recheck := r |>) (wld st)) →
    wlp (recheck_next fuel) (λ _ st', ∃ r, st' = mk ((sch st) <| next_recheck := r |>) (wld st)) st0) as Hr.
  { induction fuel as [|fuel IH]; intros st0 [r ->]; simpl; [by stray_step|]. stray_steps. simpl.
    destruct r as [curr|]; [|stray_step; by eexists]. stray_steps.
    destruct (_ : bool); stray_steps; by (apply IH; eexists) || by eexists. }
  eapply wlp_mono; [apply Hr; exists (next_recheck (sch st)); by destruct st as [[]]|].
  intros o st' [r ->]. apply HQ.
Qed.

(** What is popped is in the batch that is built, or was asked for. *)
Definition built X st0 st : Prop := popping X st0 (batch_keys (schedule_batch (sch st))) st.

Lemma pop_next_popping X st0 fuel st :
  built X st0 st →
  wlp (pop_next fuel) (λ o st',
    popping X st0 (match o with Some kt => {[km_key kt]} | None => ∅ end ∪ batch_keys (schedule_batch (sch st'))) st') st.
Proof.
  intros Hp. destruct st as [s w]. unfold pop_next. stray_steps. simpl.
  destruct (heap_pop_max (unchecked_tx s)) as [[m h]|] eqn:Hh.
  - apply heap_pop_max_Some in Hh as [Hh _]. stray_steps. by eapply (popping_pop held).
  - apply wlp_recheck_next. intros o r. simpl.
    apply (popping_more held check_flags X st0 (batch_keys (schedule_batch s))); [apply union_subseteq_r|].
    by eapply popping_same, Hp.
Qed.

Lemma extend_batch_built X st0 fuel n st :
  built X st0 st → wlp (extend_batch fuel n) (λ _, built X st0) st.
Proof.
  revert st. induction n as [|n IH]; intros st Hp; simpl; [by stray_step|].
  apply wlp_bind. eapply wlp_mono; [by apply pop_next_popping|]. intros [kt|] [s w] Hp1; simpl in Hp1; stray_steps.
  - apply IH. unfold built. simpl. rewrite batch_keys_snoc. by eapply popping_same, Hp1.
  - unfold built. by rewrite (left_id_L ∅ (∪)) in Hp1.
Qed.

Lemma schedule_checks_round_popping X st0 fuel st :
  popping X st0 ∅ st → wlp (schedule_checks_round fuel) (λ _, popping X st0 ∅) st.
Proof.
  intros Hp. unfold schedule_checks_round. stray_steps.
  destruct (_ && _); [|by stray_step]. stray_steps.
  eapply wlp_mono; [apply (extend_batch_built X st0); destruct st; by eapply popping_same, Hp|].
  intros [] st1 Hp1. stray_steps. unfold built in Hp1.
  destruct (schedule_batch (sch st1)) as [|kt batch]; [by stray_step|].
  stray_step. apply (wlp_popping_schedule held check_flags X st0); [done|exact Hp1|]. intros st2 Hp2. by stray_step.
Qed.

Lemma schedule_checks_strays X fuel st :
  strays X st → wlp (schedule_checks fuel) (λ _ st', strays (X ∪ first_checks st st') st') st.
Proof.
  intros Hs. unfold schedule_checks. stray_steps.
  apply wlp_mono with (λ _, popping X st ∅).
  { apply (wlp_loop_fuel _ (popping X st ∅)); [by apply popping_start|]. intros st1 Hp1.
    eapply wlp_mono; [by apply schedule_checks_round_popping|]. by intros []. }
  intros _ st1 Hp1. stray_steps. eapply (wlp_popping_increment held check_flags X st ∅); [exact Hp1|].
  intros st2 Hp2. unfold bump. stray_steps. apply (popping_end held check_flags). destruct st2. by eapply popping_same, Hp2.
Qed.

(** ** Execution *)

(** The collections and the batch that is being built. *)
Definition building s := (held s, schedule_batch s).

Lemma building_can_lock_tx k : still building (can_lock_tx k).
Proof. unfold can_lock_tx. still_tac. Qed.

Lemma building_lock_tx k : still building (lock_tx k).
Proof. unfold lock_tx. still_tac. Qed.
#[local] Hint Resolve building_can_lock_tx building_lock_tx : still.
Lemma building_all_can_lock ks : still building (all_can_lock ks).
Proof. induction ks as [|k ks IH]; simpl; still_tac. Qed.
#[local] Hint Resolve building_all_can_lock : still.

(** What has left the collections is in the batch. *)
Definition batched X st : Prop := strays (batch_keys (schedule_batch (sch st)) ∪ X) st.

Lemma strays_batched X st : strays X st → batched X st.
Proof. apply strays_mono. set_solver. Qed.

Lemma strays_pop_best X tx l s w :
  btree_pop_last (checked_tx s) = Some (tx, l) → key tx ∈ batch_keys (schedule_batch s) →
  strays X (mk s w) → batched X (mk (s <| checked_tx := l |>) w).
Proof.
  intros Hl%btree_pop_last_take Hk Hs. eapply strays_less; [|exact Hs]. apply (hkeys_set_checked (held s)).
  apply meta_keys_take in Hl. simpl. set_solver.
Qed.

Lemma strays_pop_bundle X b l s w :
  btree_pop_last (bundles s) = Some (b, l) → list_to_set (keys b) ⊆ batch_keys (schedule_batch s) →
  strays X (mk s w) → batched X (mk (s <| bundles := l |>) w).
Proof.
  intros Hl%btree_pop_last_take Hk Hs. eapply strays_less; [|exact Hs]. apply (hkeys_set_bundles (held s)).
  apply bundle_keys_take in Hl. simpl. set_solver.
Qed.

Lemma elem_of_batch_keys_app k l l' : k ∈ batch_keys (l ++ l') ↔ k ∈ batch_keys l ∨ k ∈ km_key <$> l'.
Proof. unfold batch_keys. rewrite !elem_of_list_to_set, fmap_app, elem_of_app. done. Qed.

Lemma try_schedule_transaction_strays X budget worker st :
  strays X st → wlp (try_schedule_transaction budget worker) (λ _, batched X) st.
Proof.
  intros Hs. unfold try_schedule_transaction. stray_steps. rename a into tx, Ha into Htx.
  destruct (_ <? _); [stray_step; by apply strays_batched|].
  stray_step. apply (wlp_still_with held X schedule_batch _ _ _ Hs); [still_tac|]. intros free s1 w1 Hs1 Hh1 _.
  destruct (negb free); [stray_step; by apply strays_batched|].
  stray_step. apply (wlp_still_with held X schedule_batch _ _ _ Hs1); [still_tac|]. intros _ s2 w2 Hs2 Hh2 _.
  stray_steps. cbn [sch wld]. set (st3 := mk _ _). assert (strays X st3) as Hs3 by exact Hs2.
  apply (wlp_still_with held X schedule_batch _ _ _ Hs3); [still_tac|]. intros _ s4 w4 Hs4 Hh4 Hb.
  stray_steps. destruct a2 as [tx' l']. cbn [sch] in Ha2. stray_steps. cbn [sch wld].
  injection Hh1 as _ Hc1 _ _ _. injection Hh2 as _ Hc2 _ _ _. injection Hh4 as _ Hc _ _ _. simpl in Hc, Hb, Ha2.
  apply strays_pop_best with (tx := tx'); [done| |exact Hs4]. simpl. rewrite Hb.
  apply elem_of_batch_keys_app. right. rewrite Hc, Hc2, Hc1 in Ha2.
  rewrite (btree_pop_last_inv _ _ _ _ Htx Ha2). by left.
Qed.

Lemma km_key_bundle_batch b : km_key <$> bundle_batch b = keys b.
Proof.
  unfold bundle_batch. rewrite fmap_imap. simpl.
  rewrite (imap_ext _ (const id)) by done. rewrite imap_const. apply list_fmap_id.
Qed.

Lemma try_schedule_bundle_strays X budget worker st :
  strays X st → wlp (try_schedule_bundle budget worker) (λ _, batched X) st.
Proof.
  intros Hs. unfold try_schedule_bundle. stray_steps. rename a into b, Ha into Hbundle.
  destruct (_ <? _); [stray_step; by apply strays_batched|].
  stray_step. apply (wlp_still_with held X schedule_batch _ _ _ Hs); [still_tac|]. intros free s1 w1 Hs1 Hh1 _.
  destruct (negb free); [stray_step; by apply strays_batched|].
  stray_step. apply (wlp_still_with held X schedule_batch _ _ _ Hs1); [still_tac|]. intros _ s2 w2 Hs2 Hh2 _.
  stray_steps. cbn [sch wld]. set (st3 := mk _ _). assert (strays X st3) as Hs3 by exact Hs2.
  apply (wlp_still_with held X schedule_batch _ _ _ Hs3); [still_tac|]. intros _ s4 w4 Hs4 Hh4 Hb.
  stray_steps. destruct a2 as [b' l']. cbn [sch] in Ha2. stray_steps. cbn [sch wld].
  injection Hh1 as _ _ _ _ Hc1. injection Hh2 as _ _ _ _ Hc2. injection Hh4 as _ _ _ _ Hc. simpl in Hc, Hb, Ha2.
  apply strays_pop_bundle with (b := b'); [done| |exact Hs4]. simpl. rewrite Hb. intros k Hk%elem_of_list_to_set.
  apply elem_of_batch_keys_app. right. rewrite Hc, Hc2, Hc1 in Ha2.
  rewrite km_key_bundle_batch. by rewrite <- (btree_pop_last_inv _ _ _ _ Hbundle Ha2).
Qed.

Lemma declare_executing_strays X batch st :
  strays (batch_keys batch ∪ X) st → wlp (declare_executing batch) (λ _, strays X) st.
Proof.
  intros Hs. unfold declare_executing.
  apply (wlp_for_each_strays held X batch_keys); [done..|]. intros x l st1 Hs1.
  stray_step. apply (wlp_insert_executing (batch_keys l ∪ X)).
  { eapply strays_mono, Hs1. unfold batch_keys. simpl. set_solver. }
  intros new st2 Hs2. stray_steps. by still_call Hs2.
Qed.

Lemma schedule_execute_worker_strays worker budget : keeps_strays (schedule_execute_worker worker budget).
Proof.
  intros X st Hs. unfold schedule_execute_worker. destruct (budget =? 0); [by stray_step|].
  stray_steps. destruct (negb _); [by stray_step|]. stray_steps.
  set (st1 := mk _ _). assert (strays X st1) as Hs1 by exact Hs.
  apply wlp_mono with (λ (nb : bool * Z) st', if nb.1 then strays X st' else batched X st').
  { destruct (priority <$> _), (b_priority <$> _); [destruct (rcmp _ _)|..]; try by stray_step.
    all: stray_step; eapply wlp_mono;
      [by (apply try_schedule_transaction_strays || apply try_schedule_bundle_strays)|].
    all: intros ? st2 Hs2; by stray_step. }
  intros [none budget'] st2 Hs2. simpl in Hs2. destruct none; [by stray_step|]. stray_steps.
  unfold batched in Hs2. destruct (schedule_batch (sch st2)) as [|kt batch] eqn:Hb.
  { stray_step. eapply strays_mono, Hs2. unfold batch_keys. simpl. set_solver. }
  stray_step. apply (wlp_then held X); [by apply declare_executing_strays|]. intros _ st3 Hs3.
  stray_step. still_call Hs3. intros _ st4 Hs4.
  stray_step. still_call Hs4. intros _ st5 Hs5. by stray_step.
Qed.

(** ** The run of a scheduler

    A state with two sets of keys: [out], those that were sent to the check
    worker for the first time and have not been answered, and [lost], those
    whose first check came back unprocessed.  A step is one handler run to its
    end; [out] grows by what the scheduler handed to the bridge in a check
    request, and a response takes its key out. *)
Abbreviation Run := (gset TransactionKey * gset TransactionKey * S)%type.

Inductive run_step : Run → Run → Prop :=
(** What leaves the collections alone and brings no transaction: the outside,
    settings, metrics. *)
| run_still out lost st s' w' :
    held s' = held (sch st) →
    (∀ k, w_transaction w' k ≠ None → w_transaction (wld st) k ≠ None) →
    run_step (out, lost, st) (out, lost, mk s' w')
| run_unprocessed_execution out lost m st d st' :
    key m ∈ executing_tx (sch st) → on_unprocessed m st = Ok (d, st') →
    run_step (out, lost, st) (out, lost, after_decision (key m) d st')
| run_unprocessed_check out lost m st d st' :
    key m ∉ executing_tx (sch st) → on_unprocessed m st = Ok (d, st') →
    run_step (out, lost, st) (out ∖ {[key m]}, lost ∪ (out ∩ {[key m]}), after_decision (key m) d st')
| run_execute out lost m rep st d st' :
    on_execute m rep st = Ok (d, st') → run_step (out, lost, st) (out, lost, after_decision (key m) d st')
| run_check out lost m rep resolved st d st' :
    on_check m rep resolved st = Ok (d, st') →
    run_step (out, lost, st) (out ∖ {[key m]}, lost, after_decision (key m) d st')
| run_tpu out lost k w st d st' :
    (∀ k', k' ≠ k → w_transaction w k' = w_transaction (wld st) k') →
    on_tpu k (mk (sch st) w) = Ok (d, st') → run_step (out, lost, st) (out, lost, after_decision k d st')
| run_evict out lost st st' : evict_unchecked st = Ok (tt, st') → run_step (out, lost, st) (out, lost, st')
| run_packet out lost packet st st' : on_packet packet st = Ok (tt, st') → run_step (out, lost, st) (out, lost, st')
| run_bundle out lost packets st st' : on_bundle packets st = Ok (tt, st') → run_step (out, lost, st) (out, lost, st')
| run_expire out lost st st' : drop_expired_bundles st = Ok (tt, st') → run_step (out, lost, st) (out, lost, st')
| run_slot out lost st st' : check_slot_roll st = Ok (tt, st') → run_step (out, lost, st) (out, lost, st')
| run_checks out lost fuel st st' :
    schedule_checks fuel st = Ok (tt, st') → run_step (out, lost, st) (out ∪ first_checks st st', lost, st')
| run_start_execution out lost worker budget st r st' :
    schedule_execute_worker worker budget st = Ok (r, st') → run_step (out, lost, st) (out, lost, st').

(** A scheduler that is new, with an empty bridge. *)
Definition run_start (r : Run) : Prop :=
  ∃ evs args w s w',
    (∀ k, w_transaction w' k = None) ∧ new_with_jito evs args w = Ok (s, w') ∧ r = (∅, ∅, mk s w').

Definition run (r : Run) : Prop := ∃ r0, run_start r0 ∧ rtc run_step r0 r.

(** All strays are out or lost. *)
Definition run_strays (r : Run) : Prop := strays (r.1.1 ∪ r.1.2) r.2.

Lemma run_step_strays r r' : run_step r r' → run_strays r → run_strays r'.
Proof.
  unfold run_strays. intros Hstep Hs.
  destruct Hstep as [out lost st s' w' Hc Hw|out lost m st d st' _ Heq|out lost m st d st' _ Heq|out lost m rep st d st' Heq
    |out lost m rep resolved st d st' Heq|out lost k w st d st' Hw Heq|out lost st st' Heq|out lost packet st st' Heq
    |out lost packets st st' Heq|out lost st st' Heq|out lost st st' Heq|out lost fuel st st' Heq
    |out lost worker budget st r st' Heq]; simpl in *.
  - destruct st as [s w]. eapply strays_change; [exact Hs|exact Hw|]. simpl in *. by rewrite Hc.
  - by eapply on_unprocessed_strays.
  - eapply strays_mono; [|by eapply on_unprocessed_strays]. intros k Hk. destruct (decide (k = key m)); set_solver.
  - by eapply on_execute_strays.
  - eapply strays_mono; [|by eapply on_check_strays]. set_solver.
  - eapply on_tpu_strays; [|exact Heq]. intros k' Hk'. simpl in *.
    destruct (decide (k' = k)) as [->|Hne]; [set_solver|]. rewrite Hw in Hk' by done.
    specialize (Hs k' Hk'). set_solver.
  - by eapply evict_unchecked_strays.
  - by eapply on_packet_strays.
  - by eapply on_bundle_strays.
  - by eapply drop_expired_bundles_strays.
  - by eapply check_slot_roll_strays.
  - eapply strays_mono; [|by eapply schedule_checks_strays]. set_solver.
  - by eapply schedule_execute_worker_strays.
Qed.

Lemma run_no_strays r : run r → run_strays r.
Proof.
  intros (r0 & (evs & args & w & s & w' & Hw & _ & ->) & Hsteps).
  assert (run_strays (∅, ∅, mk s w')) as Hs by (intros k Hk; by rewrite Hw in Hk).
  revert Hs. induction Hsteps as [|r1 r2 r3 Hstep _ IH]; [done|]. intros Hs. by eapply IH, run_step_strays.
Qed.

(** A first check that comes back unprocessed is forgotten: nothing happens, and
    no collection has the transaction. *)
Lemma unprocessed_check_forgotten m st :
  key m ∉ executing_tx (sch st) → on_unprocessed m st = Ok (Keep, st).
Proof.
  intros Hk. destruct st as [s w]. simpl in Hk. unfold on_unprocessed, remove_executing. simpl.
  unfold bindM, self, gets, update, modify. simpl. rewrite bool_decide_eq_false_2 by done. simpl.
  assert (executing_tx s ∖ {[key m]} = executing_tx s) as -> by set_solver. by destruct s.
Qed.

(** ** A poll is such a run *)

(** The states that the run from [r] leads to. *)
Definition reached (r : Run) st : Prop := ∃ out lost, rtc run_step r (out, lost, st).

Lemma reached_still r st s' w' :
  reached r st → held s' = held (sch st) → w_transaction w' = w_transaction (wld st) →
  reached r (mk s' w').
Proof.
  intros (out & lost & Hr) Hc Hw. exists out, lost. eapply rtc_r; [exact Hr|]. apply run_still; [done|].
  intros k. by rewrite Hw.
Qed.

Abbreviation covered r := (Histories.covered (reached r)).

Lemma covered_step {A} r (m : M S A) :
  (∀ out lost st a st', m st = Ok (a, st') → ∃ out' lost', run_step (out, lost, st) (out', lost', st')) → covered r m.
Proof.
  intros Hm st (out & lost & Hr) a st' Heq. destruct (Hm out lost st a st' Heq) as (out' & lost' & Hstep).
  exists out', lost'. by eapply rtc_r.
Qed.

Lemma covered_schedule_checks r fuel : covered r (schedule_checks fuel).
Proof. apply covered_step. intros out lost st [] st' Heq. eexists _, _. by eapply run_checks. Qed.

Lemma covered_worker r worker budget : covered r (schedule_execute_worker worker budget).
Proof. apply covered_step. intros out lost st b st' Heq. eexists _, _. by eapply run_start_execution. Qed.

Lemma covered_evict_unchecked r : covered r evict_unchecked.
Proof. apply covered_step. intros out lost st [] st' Heq. eexists _, _. by apply run_evict. Qed.

Lemma covered_on_packet r packet : covered r (on_packet packet).
Proof. apply covered_step. intros out lost st [] st' Heq. eexists _, _. by eapply run_packet. Qed.

Lemma covered_on_bundle r packets : covered r (on_bundle packets).
Proof. apply covered_step. intros out lost st [] st' Heq. eexists _, _. by eapply run_bundle. Qed.

Lemma covered_drop_expired_bundles r : covered r drop_expired_bundles.
Proof. apply covered_step. intros out lost st [] st' Heq. eexists _, _. by apply run_expire. Qed.

Lemma covered_check_slot_roll r : covered r check_slot_roll.
Proof. apply covered_step. intros out lost st [] st' Heq. eexists _, _. by apply run_slot. Qed.
#[local] Hint Resolve covered_schedule_checks covered_worker : covered.
#[local] Hint Resolve covered_evict_unchecked covered_on_packet : covered.
#[local] Hint Resolve covered_on_bundle covered_drop_expired_bundles : covered.
#[local] Hint Resolve covered_check_slot_roll : covered.

Context `{!Pending W} `{!PendingLaws W} `{!AgaveBindingsLaws}.

Lemma reached_response r0 r st d st' :
  on_response r st = Ok (d, st') → reached r0 st → reached r0 (after_decision (key (wr_meta r)) d st').
Proof.
  unfold on_response. intros Heq (out & lost & Hr). destruct (wr_response r).
  - destruct (decide (key (wr_meta r) ∈ executing_tx (sch st))) as [Hk|Hk]; eexists _, _;
      (eapply rtc_r; [exact Hr|]); [by eapply run_unprocessed_execution|by eapply run_unprocessed_check].
  - eexists _, _. eapply rtc_r; [exact Hr|]. by eapply run_check.
  - eexists _, _. eapply rtc_r; [exact Hr|]. by eapply run_execute.
Qed.

Lemma covered_responses r0 i : covered r0 (w_drain_worker i on_response).
Proof. apply (covered_drain_worker held _ (reached_still r0)). apply reached_response. Qed.

Lemma covered_tpu r0 n : covered r0 (w_drain_tpu on_tpu n).
Proof.
  apply (covered_drain_tpu_calls held _ (reached_still r0)). intros k w st d st' Hw Heq (out & lost & Hr).
  exists out, lost. eapply rtc_r; [exact Hr|]. by eapply run_tpu.
Qed.
#[local] Hint Resolve covered_responses covered_tpu : covered.
#[local] Hint Resolve still_start_recheck jito_try_recv_transaction : still.

(** What a poll does is a run of its handlers. *)
Lemma poll_covered r0 fuel : covered r0 (poll fuel).
Proof.
  unfold poll, drain_worker_responses, drain_tpu, drain_jito, drain_jito_round, schedule_execute, update_metrics.
  covered_tac (reached_still r0).
Qed.

(** C7: no transaction is lost but by a first check that comes back unprocessed.
    Whatever the scheduler did, every transaction in the bridge is waiting,
    checked, deferred or executing, is part of a bundle, was handed to the check
    worker in a request that has not been answered, or is one whose first check
    came back unprocessed.  And a poll whose surroundings are in order
    ([poll_ready]) ends, having done nothing but such steps. *)
Theorem no_transaction_lost out lost st :
  run (out, lost, st) →
  (∀ k, w_transaction (wld st) k ≠ None →
     (∃ m, m ∈ heap_elements (unchecked_tx (sch st)) ∧ key m = k) ∨
     (∃ m, m ∈ checked_tx (sch st) ∧ key m = k) ∨
     (∃ m, m ∈ iset_elements (deferred_tx (sch st)) ∧ key m = k) ∨
     k ∈ executing_tx (sch st) ∨ (∃ b, b ∈ bundles (sch st) ∧ k ∈ keys b) ∨ k ∈ out ∨ k ∈ lost) ∧
  (∀ O, poll_ready O st →
     eventually ingest_panic poll (λ _ st', ∃ out' lost', rtc run_step (out, lost, st) (out', lost', st')) st).
Proof.
  intros Hr. split.
  - intros k Hk. apply (run_no_strays _ Hr) in Hk. cbn [fst snd] in Hk.
    apply elem_of_union in Hk as [Hk%elem_of_hkeys|Hk%elem_of_union]; simpl in *; tauto.
  - intros O [n Hn]%poll_ok. exists n. intros fuel Hfuel. eapply wp_mono; [by apply wp_run, Hn|].
    intros [] st' [Heq _]. by eapply poll_covered; [exists out, lost|].
Qed.
End BatchLeaks.
