(* ===== verification/ModelWorld.v ===== *)
(** * A concrete world

    Instances of every class of [Externals], with their laws: the hypotheses of
    the theorems can all hold together.  The constants are arbitrary; the
    containers are lists, the bridge is a finite map of transactions with
    queues, and the clock is a counter.  What a packet parses to is a parameter
    of the bridge: [model_world] has the simplest one, the test world of
    [TestBridge] another. *)

From stdpp Require Import pretty.
From S2P Require Import Prelude BTreeSet Types Events Externals Common Drains.

(** ** Containers *)

Section ListHeap.
Context `{RustOrdLaws A}.

(** The element that [better] puts first. *)
Fixpoint list_best (better : A → A → bool) (x : A) (l : list A) : A :=
  match l with
  | [] => x
  | y :: l' => list_best better (if better x y then x else y) l'
  end.

Definition leb (x y : A) : bool := match rcmp x y with Gt => false | _ => true end.
Definition geb (x y : A) : bool := leb y x.

Definition pop_best (better : A → A → bool) (l : list A) : option (A * list A) :=
  match l with
  | [] => None
  | x :: l' => let b := list_best better x l' in Some (b, remove_sorted b l)
  end.

#[export] Instance list_heap : MinMaxHeap (list A) A := {|
  heap_empty := [];
  heap_len l := length l;
  heap_push x l := x :: l;
  heap_pop_min l := pop_best leb l;
  heap_pop_max l := pop_best geb l;
  heap_elements l := l;
|}.

Lemma leb_rle x y : leb x y = true ↔ rle x y.
Proof. unfold leb, rle. destruct (rcmp x y); naive_solver. Qed.

Lemma leb_trans x y z : leb x y = true → leb y z = true → leb x z = true.
Proof.
  rewrite !leb_rle, !rle_lt_eq. intros [Hxy| ->] [Hyz| <-]; auto.
  left. by transitivity y.
Qed.

Lemma leb_total x y : leb x y = false → leb y x = true.
Proof.
  rewrite <- not_true_iff_false, !leb_rle, !rle_lt_eq. pose proof (rlt_total x y).
  intuition.
Qed.

Lemma leb_refl x : leb x x = true.
Proof. rewrite leb_rle, rle_lt_eq. by right. Qed.

Lemma list_best_spec better x l :
  (∀ a b c, better a b = true → better b c = true → better a c = true) →
  (∀ a b, better a b = false → better b a = true) → (∀ a, better a a = true) →
  list_best better x l ∈ x :: l ∧ ∀ y, y ∈ x :: l → better (list_best better x l) y = true.
Proof.
  intros Htrans Htotal Hrefl. revert x. induction l as [|z l IH]; intros x; simpl.
  { split; [by left|]. intros y ->%list_elem_of_singleton. done. }
  set (c := if better x z then x else z). destruct (IH c) as [Hin Hbest].
  assert (better c x = true ∧ better c z = true) as [Hx Hz].
  { unfold c. destruct (better x z) eqn:E; auto. }
  assert (c = x ∨ c = z) as Hc by (unfold c; destruct (better x z); auto).
  specialize (Hbest c ltac:(by left)) as Hbc. split.
  - apply elem_of_cons in Hin as [Hin|Hin]; [|by do 2 right].
    rewrite Hin. destruct Hc as [->| ->]; [by left|right; by left].
  - intros y [->|[->|Hy]%elem_of_cons]%elem_of_cons; [by eapply Htrans..|].
    apply Hbest. by right.
Qed.

Lemma pop_best_None better l : pop_best better l = None ↔ l = [].
Proof. by destruct l. Qed.

Lemma pop_best_Some better l x l' :
  (∀ a b c, better a b = true → better b c = true → better a c = true) →
  (∀ a b, better a b = false → better b a = true) → (∀ a, better a a = true) →
  pop_best better l = Some (x, l') → l ≡ₚ x :: l' ∧ ∀ y, y ∈ l' → better x y = true.
Proof.
  intros Htrans Htotal Hrefl. destruct l as [|z l]; [done|]. unfold pop_best.
  destruct (list_best_spec better z l Htrans Htotal Hrefl) as [Hin Hbest].
  intros [= <- <-]. pose proof (remove_sorted_Permutation _ _ Hin) as Hp. split; [exact Hp|].
  intros y Hy. apply Hbest. rewrite Hp. by right.
Qed.

#[export] Instance list_heap_laws : MinMaxHeapLaws (list A) A.
Proof.
  split; simpl; try done.
  - apply pop_best_None.
  - intros h x h' Hp. apply pop_best_Some in Hp as [Hp Hb];
      [|apply leb_trans|apply leb_total|apply leb_refl].
    split; [done|]. intros y Hy. by apply leb_rle, Hb.
  - apply pop_best_None.
  - intros h x h' Hp. apply pop_best_Some in Hp as [Hp Hb]; unfold geb in *.
    + split; [done|]. intros y Hy. by apply leb_rle, Hb.
    + intros a b c H1' H2'. by eapply leb_trans.
    + intros a b. apply leb_total.
    + apply leb_refl.
Qed.
End ListHeap.

Section ListSet.
Context `{EqDecision A}.

(** A list without repetitions. *)
Record list_set := { ls_list : list A; ls_NoDup : bool_decide (NoDup ls_list) = true }.

Definition ls_empty : list_set := {| ls_list := []; ls_NoDup := eq_refl |}.

Lemma ls_snoc (x : A) (s : list_set) :
  x ∉ ls_list s → bool_decide (NoDup (ls_list s ++ [x])) = true.
Proof.
  intros Hx. destruct s as [l Hl]. simpl in *. apply bool_decide_eq_true_1 in Hl.
  apply bool_decide_eq_true_2, NoDup_app. split_and!; [done| |apply NoDup_singleton].
  intros y Hy ->%list_elem_of_singleton. done.
Qed.

Definition ls_insert (x : A) (s : list_set) : bool * list_set :=
  match decide (x ∈ ls_list s) with
  | left _ => (false, s)
  | right Hx => (true, {| ls_list := ls_list s ++ [x]; ls_NoDup := ls_snoc x s Hx |})
  end.

#[export] Instance list_set_set : IndexSet list_set A := {|
  iset_empty := ls_empty;
  iset_elements := ls_list;
  iset_insert := ls_insert;
  iset_contains x s := bool_decide (x ∈ ls_list s);
  iset_drain s := (ls_list s, ls_empty);
  iset_len s := length (ls_list s);
|}.

#[export] Instance list_set_laws : IndexSetLaws list_set A.
Proof.
  split; simpl; try done.
  - intros [l Hl]. simpl. by eapply bool_decide_eq_true_1.
  - intros x s. apply bool_decide_eq_true.
  - intros x s Hx. unfold ls_insert. destruct (decide (x ∈ ls_list s)) as [|Hx']; [done|].
    by eexists.
  - intros x s Hx. unfold ls_insert. by destruct (decide (x ∈ ls_list s)).
  - intros s. by eexists.
Qed.
End ListSet.
Arguments list_set A {_}.

(** ** Constants and crates *)

(** The numbers are arbitrary, but distinct where they must be: each flag is a
    bit of its own, each reason a number of its own. *)
#[export] Instance model_bindings : AgaveBindings := {|
  LEADER_READY := 2;
  pack_CHECK := 0;
  pack_EXECUTE := 1;
  check_STATUS_CHECKS := 2;
  check_LOAD_FEE_PAYER_BALANCE := 4;
  check_LOAD_ADDRESS_LOOKUP_TABLES := 8;
  execution_DROP_ON_FAILURE := 2;
  execution_ALL_OR_NOTHING := 4;
  parsing_FAILED := 1;
  resolve_REQUESTED := 1;
  resolve_PERFORMED := 2;
  resolve_FAILED := 4;
  status_REQUESTED := 1;
  status_PERFORMED := 2;
  fee_payer_REQUESTED := 1;
  fee_payer_PERFORMED := 2;
  reason_NONE := 0;
  ACCOUNT_IN_USE := 1;
  BANK_NOT_AVAILABLE := 2;
  WOULD_EXCEED_MAX_BLOCK_COST_LIMIT := 3;
  WOULD_EXCEED_MAX_ACCOUNT_COST_LIMIT := 4;
  WOULD_EXCEED_ACCOUNT_DATA_BLOCK_LIMIT := 5;
  WOULD_EXCEED_MAX_VOTE_COST_LIMIT := 6;
  WOULD_EXCEED_ACCOUNT_DATA_TOTAL_LIMIT := 7;
  MAX_BLOCK_UNITS_SIMD_0256 := 60000000;
  DEFAULT_SLOTS_PER_EPOCH := 432000;
|}.

#[export] Instance model_bindings_laws : AgaveBindingsLaws.
Proof. split. unfold U64_MAX. simpl. lia. Qed.

(** A transaction's cost and fee are the first two bytes of its raw part. *)
#[export] Instance model_crates : SolanaCrates := {|
  FeatureSet := unit;
  FeeFeatures := unit;
  Keypair := Pubkey;
  RuntimeTransaction := TransactionView;
  ComputeBudgetDetails := unit;
  system_program_ID := 0%N;
  keypair_pubkey k := k;
  pubkey_to_bytes k := [Z.of_N k];
  find_program_address seeds program := ((program + 1)%N, 255);
  sign_and_serialize ixs payer _ _ := [Z.of_nat (length ixs)];
  runtime_transaction_try_new tx := match tv_raw tx with [] => None | _ => Some tx end;
  compute_budget_details_try_from _ := Some tt;
  sanitize_and_convert_to_compute_budget_limits _ _ :=
    Some {| compute_unit_limit := 1000; prioritization_fee := 0 |};
  cost_model_sum tx _ := nth 0 (tv_raw tx) 0;
  calculate_fee_details tx _ _ _ :=
    {| transaction_fee := nth 1 (tv_raw tx) 0; fd_prioritization_fee := 0 |};
  signature_to_string := pretty;
|}.

(** A build with overflow checks. *)
#[export] Instance checked_profile : Profile := true.

(** ** The world *)

Record ModelWorld := {
  mw_progress : ProgressMessage;
  mw_pending_progress : bool;
  mw_workers : list (nat * nat);
  mw_tpu : list u8s;
  mw_responses : list (list WorkerResponse);
  mw_table : gmap TransactionKey TransactionState;
  mw_sent : list ScheduleBatch;
  mw_clock : Z;
  mw_jito : list JitoUpdate;
  mw_cancelled : bool;
  mw_counters : list (Metric * Z);
}.

#[export] Instance ModelWorld_eta : Eta ModelWorld := λ w, {|
  mw_progress := mw_progress w;
  mw_pending_progress := mw_pending_progress w;
  mw_workers := mw_workers w;
  mw_tpu := mw_tpu w;
  mw_responses := mw_responses w;
  mw_table := mw_table w;
  mw_sent := mw_sent w;
  mw_clock := mw_clock w;
  mw_jito := mw_jito w;
  mw_cancelled := mw_cancelled w;
  mw_counters := mw_counters w;
|}.

(** The bridge, whose transactions are what [compile] makes of a packet. *)
Section ModelBridge.
Context `{SolanaCrates} (rt : RuntimeState).
Context (compile : TransactionKey → u8s → option TransactionState).

Definition model_insert (packet : u8s) (w : ModelWorld) : option TransactionKey * ModelWorld :=
  let k := fresh (dom (mw_table w)) in
  match compile k packet with
  | None => (None, w)
  | Some tx => (Some k, w <| mw_table ::= <[k := tx]> |>)
  end.

Definition model_schedule (b : ScheduleBatch) (w : ModelWorld) : option ModelWorld :=
  match mw_workers w !! sb_worker b with
  | Some (len, Datatypes.S rem) =>
      Some (w <| mw_workers ::= <[sb_worker b := (Datatypes.S len, rem)]> |>
              <| mw_sent ::= cons b |>)
  | _ => None
  end.

Definition model_decide {D} (k : TransactionKey) (d : TxDecision) : M (St D ModelWorld) unit :=
  match d with
  | Keep => mret tt
  | Drop => modify (λ s, s <| wld ::= λ w, w <| mw_table ::= delete k |> |>)
  end.

(** A packet that does not parse is skipped. *)
Definition model_drain_tpu {D} (f : TransactionKey → M (St D ModelWorld) TxDecision) (n : nat)
    : M (St D ModelWorld) unit :=
  let* l := gets (λ s, mw_tpu (wld s)) in
  modify (λ s, s <| wld ::= λ w, w <| mw_tpu := drop n l |> |>) ;;
  for_each (take n l) (λ packet,
    let* o := step (λ s, let '(o, w) := model_insert packet (wld s) in (o, mk (sch s) w)) in
    match o with
    | None => mret tt
    | Some k => let* d := f k in model_decide k d
    end).

Definition model_drain_worker {D} (i : nat) (f : WorkerResponse → M (St D ModelWorld) TxDecision)
    : M (St D ModelWorld) unit :=
  let* l := gets (λ s, default [] (mw_responses (wld s) !! i)) in
  modify (λ s, s <| wld ::= λ w, w <| mw_responses ::= <[i := []]> |> |>) ;;
  for_each l (λ r, let* d := f r in model_decide (key (wr_meta r)) d).

Definition bridge_world : World ModelWorld := {|
  w_progress := mw_progress;
  w_drain_progress w :=
    (if mw_pending_progress w then Some (mw_progress w) else None,
     w <| mw_pending_progress := false |>);
  w_runtime _ := rt;
  w_worker_count w := length (mw_workers w);
  w_worker_len w i := (default (0, 0) (mw_workers w !! i)).1;
  w_worker_rem w i := (default (0, 0) (mw_workers w !! i)).2;
  w_tpu_len w := length (mw_tpu w);
  w_insert_transaction := model_insert;
  w_transaction w k := mw_table w !! k;
  w_drop_transaction k w := w <| mw_table ::= delete k |>;
  w_schedule := model_schedule;
  w_drain_tpu D f n := model_drain_tpu f n;
  w_drain_worker D i f := model_drain_worker i f;
  w_instant_now w := (mw_clock w, w <| mw_clock ::= Z.succ |>);
  w_utc_now w := (mw_clock w, w <| mw_clock ::= Z.succ |>);
  w_jito_try_recv w :=
    match mw_jito w with
    | [] => (if mw_cancelled w then Disconnected else Empty, w)
    | u :: l => (Received u, w <| mw_jito := l |>)
    end;
  w_jito_recv_timeout w :=
    match mw_jito w with
    | [] => (None, w)
    | u :: l => (Some u, w <| mw_jito := l |>)
    end;
  w_shutdown_is_cancelled := mw_cancelled;
  w_events_try_send _ w := (true, w);
  w_metric_increment m n w := w <| mw_counters ::= cons (m, n) |>;
  w_metric_set m n w := w;
|}%nat.

#[local] Existing Instance bridge_world.

Hypothesis compile_signed : ∀ k packet tx, compile k packet = Some tx → signed tx.
Hypothesis compile_own : ∀ ixs payer keypair hash k tx,
  compile k (sign_and_serialize ixs payer keypair hash) = Some tx → NoDup (locks tx).*1.

Lemma model_insert_Some packet w k w' :
  model_insert packet w = (Some k, w') →
  mw_table w !! k = None ∧ ∃ tx, compile k packet = Some tx ∧ w' = w <| mw_table ::= <[k := tx]> |>.
Proof.
  unfold model_insert. destruct (compile _ packet) as [tx|] eqn:Hc; [|done]. intros [= <- <-].
  split; [|by eexists]. apply not_elem_of_dom, is_fresh.
Qed.

Lemma model_insert_None packet w w' : model_insert packet w = (None, w') → w' = w.
Proof. unfold model_insert. by destruct (compile _ packet); intros [= <-]. Qed.

Lemma bridge_drop_laws : DropLaws (W := ModelWorld).
Proof. split. intros k w. simpl. apply lookup_delete_eq. Qed.

#[local] Instance bridge_sent : SentLog ModelWorld := {| w_sent w := reverse (mw_sent w) |}.

Lemma bridge_sent_laws : SentLaws ModelWorld.
Proof.
  split; [|done]. intros b w w'. simpl. unfold model_schedule.
  destruct (mw_workers w !! sb_worker b) as [[len [|rem]]|]; [done| |done]. intros [= <-]. apply reverse_cons.
Qed.

Lemma bridge_world_laws : WorldLaws (W := ModelWorld).
Proof using compile_signed compile_own.
  split; try done; simpl.
  - by intros packet w w' ->%model_insert_None.
  - intros packet w w' k (Hn & tx & Hc & ->)%model_insert_Some. split; [done|]. simpl. split.
    + eexists. rewrite lookup_insert_eq. split; [done|]. by eapply compile_signed.
    + intros k' Hk'. by rewrite lookup_insert_ne.
  - intros ixs payer keypair hash w w' k tx (Hn & tx' & Hc & ->)%model_insert_Some. simpl.
    rewrite lookup_insert_eq. intros [= <-]. by eapply compile_own.
  - intros w. by destruct (mw_jito w).
  - intros b w w'. unfold model_schedule.
    destruct (mw_workers w !! sb_worker b) as [[len [|rem]]|]; [done| |done]. by intros [= <-].
  - intros b w w'. unfold model_schedule.
    destruct (mw_workers w !! sb_worker b) as [[len [|rem]]|]; [done| |done]. by intros [= <-].
  - intros k k' w Hne. by rewrite lookup_delete_ne.
Qed.

(** ** What has arrived *)

Definition bridge_pending : Pending ModelWorld := {|
  w_jito_queue := mw_jito;
  w_jito_open w := negb (mw_cancelled w);
  w_responses w i := default [] (mw_responses w !! i);
|}.

#[local] Existing Instance bridge_pending.

Lemma St_eta_id {D W} (st : St D W) : mk (sch st) (wld st) = st.
Proof. by destruct st. Qed.

Lemma model_decide_after {D} k d (st : St D ModelWorld) : model_decide k d st = Ok (tt, after_decision k d st).
Proof. by destruct d, st. Qed.

Lemma model_delivered {D} i f l (st : St D ModelWorld) w :
  handing_out i (wld st) w →
  delivered i f l st
    (for_each l (λ r, let* d := f r in model_decide (key (wr_meta r)) d) (mk (sch st) w)).
Proof.
  revert st w. induction l as [|r l IH]; intros st w Hw; simpl; [by constructor|].
  unfold bindM. destruct (f r (mk (sch st) w)) as [[d st']|p|] eqn:Hf.
  - rewrite model_decide_after. eapply delivered_next; [done..|].
    set (st1 := after_decision _ _ _). rewrite <- (St_eta_id st1) at 2. by apply IH.
  - by eapply delivered_panic.
  - by eapply delivered_hang.
Qed.

Lemma model_insert_arriving packet w0 w k w' :
  w_transaction w = w_transaction w0 → same_seen w0 w → model_insert packet w = (Some k, w') → arriving k w0 w'.
Proof.
  intros Ht Hs (Hn & tx & Hc & ->)%model_insert_Some.
  assert (∀ k', mw_table w !! k' = mw_table w0 !! k') as He.
  { intros k'. exact (f_equal (λ f, f k') Ht). }
  split; simpl.
  - by rewrite <- He.
  - eexists. rewrite lookup_insert_eq. split; [done|]. by eapply compile_signed.
  - intros k' Hk'. by rewrite lookup_insert_ne.
  - by etransitivity.
Qed.

Lemma model_delivered_tpu {D} f l (st : St D ModelWorld) w :
  w_transaction w = w_transaction (wld st) → same_seen (wld st) w →
  delivered_tpu f (length l) st (for_each l (λ packet,
    let* o := step (λ s, let '(o, w) := model_insert packet (wld s) in (o, mk (sch s) w)) in
    match o with
    | None => mret tt
    | Some k => let* d := f k in model_decide k d
    end) (mk (sch st) w)).
Proof.
  revert st w. induction l as [|packet l IH]; intros st w Ht Hs; simpl; [by constructor|].
  unfold bindM, step. simpl. destruct (model_insert packet w) as [[k|] w'] eqn:Hi; simpl; last first.
  { apply model_insert_None in Hi as ->. by apply delivered_tpu_more, IH. }
  pose proof (model_insert_arriving packet (wld st) w k w' Ht Hs Hi) as Ha.
  destruct (f k (mk (sch st) w')) as [[d st']|p|] eqn:Hf.
  - rewrite model_decide_after. eapply tpu_next; [done..|].
    set (st1 := after_decision _ _ _). rewrite <- (St_eta_id st1) at 2. by apply IH.
  - by eapply tpu_panic.
  - by eapply tpu_hang.
Qed.

Lemma bridge_pending_laws : PendingLaws ModelWorld.
Proof using compile_signed.
  split; try (intros; by split).
  - intros packet w. simpl. unfold model_insert. by destruct (compile _ packet).
  - intros b w w'. simpl. unfold model_schedule.
    destruct (mw_workers w !! sb_worker b) as [[len [|rem]]|]; [done| |done]. by intros [= <-].
  - intros w. simpl. destruct (mw_jito w) as [|u l] eqn:Hl; simpl; [|done].
    destruct (mw_cancelled w) eqn:Hc; simpl; [done|]. by split.
  - intros D i f st. apply model_delivered. split; try done. intros j Hj. simpl. by rewrite list_lookup_insert_ne.
  - intros D f n st. simpl. unfold model_drain_tpu. rewrite Nat.min_comm, <- length_take.
    by apply model_delivered_tpu.
Qed.

End ModelBridge.

(** ** The simplest packets *)

(** A packet is the cost, the fee, and the accounts; those from 1000 on are
    only read. *)
Definition model_transaction (k : TransactionKey) (packet : u8s) : TransactionState := {|
  data := {|
    tv_signatures := [k];
    tv_static_account_keys := Z.to_N <$> drop 2 packet;
    tv_program_instructions := [];
    tv_raw := packet;
  |};
  locks := remove_dups ((λ a, (Z.to_N a, a <? 1000)) <$> drop 2 packet);
  is_simple_vote := false;
|}.

Lemma model_transaction_signed k packet : signed (model_transaction k packet).
Proof. done. Qed.

Lemma model_transaction_NoDup k packet : NoDup (locks (model_transaction k packet)).
Proof. apply NoDup_remove_dups. Qed.

(** The account says whether it is written. *)
Lemma model_transaction_accounts k packet : NoDup (locks (model_transaction k packet)).*1.
Proof.
  assert (∀ aw, aw ∈ locks (model_transaction k packet) → aw.2 = (Z.of_N aw.1 <? 1000)) as Hw.
  { intros aw (a & -> & _)%elem_of_remove_dups%list_elem_of_fmap. simpl.
    apply eq_true_iff_eq. rewrite !Z.ltb_lt. lia. }
  apply NoDup_fmap_2_strong; [|apply model_transaction_NoDup].
  intros [a w] [a' w'] Ha Ha' Heq. apply Hw in Ha, Ha'. simpl in *. by subst.
Qed.

Definition model_compile (k : TransactionKey) (packet : u8s) : option TransactionState :=
  match packet with
  | [] => None
  | _ :: _ => Some (model_transaction k packet)
  end.

Definition model_runtime : RuntimeState :=
  {| feature_set := tt; lamports_per_signature := 5000; burn_percent := 50; fee_features := tt |}.

#[export] Instance model_world : World ModelWorld := bridge_world model_runtime model_compile.

Lemma model_compile_Some k packet tx : model_compile k packet = Some tx → tx = model_transaction k packet.
Proof. destruct packet; [done|]. by intros [= <-]. Qed.

#[export] Instance model_world_laws : WorldLaws.
Proof.
  apply bridge_world_laws.
  - by intros k packet tx ->%model_compile_Some.
  - intros ixs payer keypair hash k tx ->%model_compile_Some. constructor.
Qed.

#[export] Instance model_drop_laws : DropLaws.
Proof. apply bridge_drop_laws. Qed.

#[export] Existing Instance bridge_sent.

#[export] Instance model_sent_laws : SentLaws ModelWorld.
Proof. apply bridge_sent_laws. Qed.

#[export] Instance model_pending : Pending ModelWorld := bridge_pending model_runtime model_compile.

#[export] Instance model_pending_laws : PendingLaws ModelWorld.
Proof. apply bridge_pending_laws. by intros k packet tx ->%model_compile_Some. Qed.

(** ** Runs *)

(** The state a computation ends in. *)
Ltac end_state r :=
  let r := eval vm_compute in r in
  lazymatch r with
  | Ok (_, ?st) => exact st
  end.

(** Closed facts about a run, by computation. *)
Ltac decided :=
  first [ by vm_compute
        | by (apply (bool_decide_unpack _); vm_compute)
        | by (unfold is_u64, U64_MAX; simpl; lia)
        | by (vm_compute; split_and!) ].
