(* ===== verification/BatchTests.v ===== *)
(** * The tests of the batch scheduler (schedulers/batch-scheduler/src/lib.rs, [mod tests])

    One definition per test, over the scheduler's definitions and any world with
    a validator's end; [BatchTestRuns] runs them.  [poll] takes fuel. *)

From S2P Require Import Prelude BTreeSet Types Events Externals LockTable TipProgram Costs.
From S2P Require Import Common TestBridge BatchScheduler.

Section BatchTests.
Context `{Profile} `{AgaveBindings} `{TestBindings} `{ComputeBudgetInterface} `{World W} `{!AgaveSession W}.
Context {Heap DSet : Type} `{MinMaxHeap Heap PriorityId} `{IndexSet DSet PriorityId}.
Context (fuel : nat).
Abbreviation Sched := (BatchScheduler Heap DSet).
Abbreviation S := (St Sched W).

(** ** Helpers *)

Definition leader_no_budget : ProgressMessage := with_remaining 0 leader_progress.

(** The scheduler of the tests, with the channel that the world holds. *)
Definition test_scheduler : Res (Sched * W) :=
  let w := session_new 5 4 in
  let '(builder, w) := pubkey_new_unique w in
  let w := jito_send (JBuilderConfig {| builder_key := builder; commission := 0 |}) w in
  let '(vote_account, w) := pubkey_new_unique w in
  let '(merkle_authority, w) := pubkey_new_unique w in
  let '(keypair, w) := keypair_new w in
  new_with_jito None {|
    args_tip := {| vote_account := vote_account; merkle_authority := merkle_authority; commission_bps := 0 |};
    args_keypair := keypair;
    args_filter_keys := ∅;
    args_unchecked_capacity := 64;
    args_checked_capacity := 64;
    args_bundle_capacity := 16;
    args_runtime := RuntimeConfig_default;
  |} w.

Definition run_test (test : M S unit) : Res unit :=
  '(s, w) ← test_scheduler;
  '(_, _) ← test (mk s w);
  mret tt.

(** [assert!] on the scheduler. *)
Definition assert_that (site : string) (f : Sched → bool) : M S unit :=
  let* b := self f in assert site b.

Definition checked_len (n : nat) : M S unit :=
  assert_that "checked_tx.len()" (λ s, length (checked_tx s) =? n)%nat.
Definition unchecked_len (n : nat) : M S unit :=
  assert_that "unchecked_tx.len()" (λ s, heap_len (unchecked_tx s) =? n)%nat.
Definition bundles_len (n : nat) : M S unit :=
  assert_that "bundles.len()" (λ s, length (bundles s) =? n)%nat.
Definition deferred_len (n : nat) : M S unit :=
  assert_that "deferred_tx.len()" (λ s, iset_len (deferred_tx s) =? n)%nat.
Definition is_executing (k : TransactionKey) (b : bool) : M S unit :=
  assert_that "executing_tx.contains" (λ s, Bool.eqb (bool_decide (k ∈ executing_tx s)) b).
Definition is_checked (k : TransactionKey) : M S unit :=
  assert_that "checked_tx.iter().any" (λ s, existsb (λ id, N.eqb (key id) k) (checked_tx s)).
Definition is_deferred (k : TransactionKey) : M S unit :=
  assert_that "deferred_tx.iter().any" (λ s, existsb (λ id, N.eqb (key id) k) (iset_elements (deferred_tx s))).
Definition in_checked (m : PriorityId) (b : bool) : M S unit :=
  assert_that "checked_tx.contains" (λ s, Bool.eqb (bool_decide (m ∈ checked_tx s)) b).

Definition drain_scheduled : M S unit := while_scheduled fuel (λ _, mret tt).

Definition poll_with (p : ProgressMessage) : M S unit :=
  queue_progress p ;; poll fuel.

Definition setup_executing_tx (cu_limit cu_price : Z) : M S ScheduleBatch :=
  let* tx := new_noop cu_limit cu_price in
  queue_tpu tx ;;
  (* Poll - ingest & schedule checks. *)
  poll_with MOCK_PROGRESS ;;
  (* Complete checks. *)
  queue_all_checks_ok fuel ;;
  poll_with MOCK_PROGRESS ;;
  checked_len 1 ;;
  (* Provide tip config before becoming leader. *)
  provide_tip_config ;;
  poll_with MOCK_PROGRESS ;;
  (* Transition to leader. *)
  poll_with leader_progress ;;
  skip_tip_batches ;;
  (* Pop the user TX execute batch. *)
  let* exec_batch := popped in
  assert "flags == EXECUTE" (sb_flags exec_batch =? pack_EXECUTE) ;;
  batch_len exec_batch 1 ;;
  checked_len 0 ;;
  let* t := first_tx exec_batch in
  is_executing (km_key t) true ;;
  mret exec_batch.

Definition setup_executing_bundle : M S ScheduleBatch :=
  let* bundle_tx := new_noop 25000 100 in
  send_bundle [bundle_tx] ;;
  provide_tip_config ;;
  poll_with MOCK_PROGRESS ;;
  bundles_len 1 ;;
  (* Transition to leader. *)
  poll_with leader_progress ;;
  skip_tip_batches ;;
  (* Pop the bundle execute batch. *)
  let* exec_batch := popped in
  assert "flags & ALL_OR_NOTHING" (negb (Z.land (sb_flags exec_batch) execution_ALL_OR_NOTHING =? 0)) ;;
  batch_len exec_batch 1 ;;
  bundles_len 0 ;;
  mret exec_batch.

(** A single check request was scheduled. *)
Definition one_check_scheduled : M S unit :=
  let* batch := popped in
  assert "flags & 1 == CHECK" (is_check batch) ;;
  batch_len batch 1 ;;
  none_scheduled.

(** ** TPU *)

Definition tpu_recv_schedules_check : M S unit :=
  let* tx := new_noop 25000 100 in
  queue_tpu tx ;;
  poll fuel ;;
  one_check_scheduled.

Definition tpu_recv_filters_tip_program : M S unit :=
  let* tx := new_tx_with tip_payment_ix 25000 100 in
  queue_tpu tx ;;
  poll fuel ;;
  none_scheduled ;;
  bridge_count 0.

(** ** Jito packets *)

Definition jito_packet_schedules_check : M S unit :=
  let* tx := new_noop 25000 100 in
  send_packet tx ;;
  poll fuel ;;
  one_check_scheduled.

Definition jito_packet_filters_tip_program : M S unit :=
  let* tx := new_tx_with tip_payment_ix 25000 100 in
  send_packet tx ;;
  poll fuel ;;
  none_scheduled ;;
  bridge_count 0.

(** ** Jito bundles *)

Definition jito_bundle_ingested : M S unit :=
  let* tx_a := new_noop 25000 100 in
  let* tx_b := new_noop 25000 200 in
  send_bundle [tx_a; tx_b] ;;
  poll fuel ;;
  bundles_len 1 ;;
  bridge_count 2 ;;
  none_scheduled.

Definition jito_bundle_filters_tip_program : M S unit :=
  let* tx_a := new_noop 25000 100 in
  let* tx_b := new_tx_with tip_payment_ix 25000 100 in
  send_bundle [tx_a; tx_b] ;;
  poll fuel ;;
  bundles_len 0 ;;
  bridge_count 0.

Definition jito_bundle_dropped_if_any_tx_invalid : M S unit :=
  let* tx := new_noop 25000 100 in
  send_bundle [tx; [222; 173]] ;;
  poll fuel ;;
  bundles_len 0 ;;
  bridge_count 0.

(** ** Validation flow *)

Definition check_ok_moves_to_checked : M S unit :=
  let* tx := new_noop 25000 100 in
  queue_tpu tx ;;
  (* Poll - TX ingested into unchecked, CHECK batch scheduled. *)
  poll_with MOCK_PROGRESS ;;
  unchecked_len 0 ;;
  let* check_batch := popped in
  assert "flags & 1 == CHECK" (is_check check_batch) ;;
  batch_len check_batch 1 ;;
  queue_check_response_ok check_batch 0 None ;;
  (* Poll - check response drained, TX moves to checked. *)
  poll_with MOCK_PROGRESS ;;
  checked_len 1 ;;
  bridge_count 1 ;;
  provide_tip_config ;;
  poll_with MOCK_PROGRESS ;;
  (* Transition to leader - TX should be scheduled for execution. *)
  poll_with leader_progress ;;
  skip_tip_batches ;;
  let* exec_batch := popped in
  assert "flags == EXECUTE" (sb_flags exec_batch =? pack_EXECUTE) ;;
  batch_len exec_batch 1 ;;
  let* executed := first_tx exec_batch in
  let* checked := first_tx check_batch in
  assert "the same key" (N.eqb (km_key executed) (km_key checked)) ;;
  checked_len 0 ;;
  is_executing (km_key checked) true.

(** The three failures a check can report. *)
Definition parse_fail : CheckResponse := {|
  parsing_and_sanitization_flags := parsing_FAILED;
  resolve_flags := resolve_flags check_ok;
  status_check_flags := status_check_flags check_ok;
  fee_payer_balance_flags := fee_payer_balance_flags check_ok;
|}.
Definition resolve_fail : CheckResponse := {|
  parsing_and_sanitization_flags := parsing_and_sanitization_flags check_ok;
  resolve_flags := Z.lor (Z.lor resolve_REQUESTED resolve_PERFORMED) resolve_FAILED;
  status_check_flags := status_check_flags check_ok;
  fee_payer_balance_flags := fee_payer_balance_flags check_ok;
|}.
Definition status_fail : CheckResponse := {|
  parsing_and_sanitization_flags := parsing_and_sanitization_flags check_ok;
  resolve_flags := resolve_flags check_ok;
  status_check_flags := Z.lor (Z.lor status_REQUESTED status_PERFORMED) status_ALREADY_PROCESSED;
  fee_payer_balance_flags := fee_payer_balance_flags check_ok;
|}.

Definition check_err_drops_transaction : M S unit :=
  for_each (seq 0 3) (λ _, let* tx := new_noop 25000 100 in queue_tpu tx) ;;
  (* Poll - all three are checked. *)
  poll_with MOCK_PROGRESS ;;
  let* check_batch := popped in
  batch_len check_batch 3 ;;
  queue_check_response check_batch 0 None parse_fail ;;
  queue_check_response check_batch 1 None resolve_fail ;;
  queue_check_response check_batch 2 None status_fail ;;
  poll_with MOCK_PROGRESS ;;
  (* Assert - all 3 are dropped. *)
  unchecked_len 0 ;;
  checked_len 0 ;;
  bridge_count 0.

(** [checked_tx.last().unwrap()]. *)
Definition last_checked : M S PriorityId :=
  let* l := self checked_tx in unwrap "checked_tx.last()" (last l).

(** [transactions.iter().position(|t| t.key == key).unwrap()]. *)
Definition position (k : TransactionKey) (b : ScheduleBatch) : M S nat :=
  unwrap "position" (fst <$> list_find (λ t, km_key t = k) (sb_transactions b)).

Definition recheck_during_leader_slot : M S unit :=
  let* tx := new_noop 25000 100 in
  queue_tpu tx ;;
  (* Scheduler picks up TX from tpu queue. *)
  poll_with MOCK_PROGRESS ;;
  queue_all_checks_ok fuel ;;
  (* Scheduler picks up check result from worker queue. *)
  poll_with MOCK_PROGRESS ;;
  checked_len 1 ;;
  let* checked_meta := last_checked in
  provide_tip_config ;;
  poll_with MOCK_PROGRESS ;;
  (* First leader poll we become leader & next_recheck is set. *)
  poll_with leader_no_budget ;;
  in_checked checked_meta true ;;
  drain_scheduled ;;
  (* Second leader poll, we queue the recheck to the worker. *)
  poll_with leader_no_budget ;;
  let* recheck_batch := popped in
  assert "flags & 1 == CHECK" (is_check recheck_batch) ;;
  assert "any key == checked_meta.key" (has_key (key checked_meta) recheck_batch) ;;
  let* idx := position (key checked_meta) recheck_batch in
  queue_check_response_ok recheck_batch idx None ;;
  (* Poll - recheck OK is a no-op; TX stays in checked. *)
  poll_with leader_no_budget ;;
  in_checked checked_meta true ;;
  in_bridge (key checked_meta) true.

Definition recheck_failure_removes_from_checked : M S unit :=
  let* tx := new_noop 25000 100 in
  queue_tpu tx ;;
  poll_with MOCK_PROGRESS ;;
  (* Poll - Checks ok. *)
  queue_all_checks_ok fuel ;;
  poll fuel ;;
  checked_len 1 ;;
  let* checked_meta := last_checked in
  provide_tip_config ;;
  poll fuel ;;
  (* Poll - become_tip_receiver fires, TX stays in checked (no budget). *)
  poll_with leader_no_budget ;;
  drain_scheduled ;;
  (* Poll - schedule_checks fires the recheck. *)
  poll_with leader_no_budget ;;
  let* recheck_batch := popped in
  assert "flags & 1 == CHECK" (is_check recheck_batch) ;;
  let* idx := position (key checked_meta) recheck_batch in
  none_scheduled ;;
  (* Poll - Recheck fails. *)
  queue_check_response recheck_batch idx None status_fail ;;
  poll fuel ;;
  (* Assert - Checked TX dropped. *)
  in_checked checked_meta false ;;
  in_bridge (key checked_meta) false.

(** ** Execution flow *)

(** Have what was queued checked, and give the tip accounts. *)
Definition check_and_configure (n : nat) : M S unit :=
  poll_with MOCK_PROGRESS ;;
  queue_all_checks_ok fuel ;;
  poll_with MOCK_PROGRESS ;;
  checked_len n ;;
  provide_tip_config ;;
  poll_with MOCK_PROGRESS.

(** The next batch is one transaction to execute. *)
Definition execute_popped : M S ScheduleBatch :=
  let* exec := popped in
  assert "flags == EXECUTE" (sb_flags exec =? pack_EXECUTE) ;;
  batch_len exec 1 ;;
  mret exec.

Definition execute_schedules_by_priority : M S unit :=
  let* tx_low := new_noop 25000 100 in
  let* tx_high := new_noop 25000 200 in
  queue_tpu tx_low ;;
  queue_tpu tx_high ;;
  check_and_configure 2 ;;
  (* Poll - Transition to leader. *)
  poll_with leader_progress ;;
  skip_tip_batches ;;
  let* exec_high := execute_popped in
  let* exec_low := execute_popped in
  let* high := first_tx exec_high in
  let* low := first_tx exec_low in
  assert "higher priority first" (priority (km_meta low) <? priority (km_meta high)) ;;
  checked_len 0 ;;
  is_executing (km_key high) true ;;
  is_executing (km_key low) true.

Definition execute_respects_budget : M S unit :=
  let* tx := new_noop 25000 100 in
  queue_tpu tx ;;
  check_and_configure 1 ;;
  (* Transition to leader with zero remaining CUs (no budget). *)
  poll_with leader_no_budget ;;
  skip_tip_batches ;;
  none_scheduled ;;
  checked_len 1.

Definition execute_respects_lock_conflicts : M S unit :=
  let* ix := shared_ix in
  let* tx_a := new_tx_with ix 25000 200 in
  let* tx_b := new_tx_with ix 25000 100 in
  queue_tpu tx_a ;;
  queue_tpu tx_b ;;
  check_and_configure 2 ;;
  poll_with leader_progress ;;
  skip_tip_batches ;;
  (* Only one user TX should be scheduled. *)
  let* exec := execute_popped in
  none_scheduled ;;
  let* t := first_tx exec in
  is_executing (km_key t) true ;;
  checked_len 1.

Definition execute_only_when_leader : M S unit :=
  let* tx := new_noop 25000 100 in
  queue_tpu tx ;;
  poll_with MOCK_PROGRESS ;;
  queue_all_checks_ok fuel ;;
  poll_with MOCK_PROGRESS ;;
  checked_len 1 ;;
  (* Poll again as NOT_LEADER. *)
  poll_with MOCK_PROGRESS ;;
  while_scheduled fuel (λ batch,
    assert "flags & EXECUTE == 0" (Z.land (sb_flags batch) pack_EXECUTE =? 0)) ;;
  checked_len 1 ;;
  assert_that "executing_tx.len() == 0" (λ s, size (executing_tx s) =? 0)%nat.

(** ** Bundle scheduling *)

(** The flags of a bundle's batch. *)
Definition bundle_flags : Z := Z.lor (Z.lor pack_EXECUTE execution_DROP_ON_FAILURE) execution_ALL_OR_NOTHING.

Definition bundle_scheduled_over_tx_when_higher_priority : M S unit :=
  let* tx := new_noop 25000 100 in
  queue_tpu tx ;;
  poll_with MOCK_PROGRESS ;;
  queue_all_checks_ok fuel ;;
  poll_with MOCK_PROGRESS ;;
  checked_len 1 ;;
  (* Ingest a higher-priority bundle via Jito. *)
  let* bundle_tx := new_noop 25000 500 in
  send_bundle [bundle_tx] ;;
  provide_tip_config ;;
  poll_with MOCK_PROGRESS ;;
  bundles_len 1 ;;
  poll_with leader_progress ;;
  skip_tip_batches ;;
  (* First user execute batch should be the bundle (higher priority). *)
  let* exec_bundle := popped in
  assert "flags & EXECUTE" (is_execute exec_bundle) ;;
  assert "flags & ALL_OR_NOTHING" (negb (Z.land (sb_flags exec_bundle) execution_ALL_OR_NOTHING =? 0)) ;;
  batch_len exec_bundle 1 ;;
  (* Second execute batch should be the individual TX (lower priority). *)
  let* _ := execute_popped in
  bundles_len 0 ;;
  checked_len 0.

Definition bundle_uses_all_or_nothing_flag : M S unit :=
  let* tx_a := new_noop 25000 100 in
  let* tx_b := new_noop 25000 200 in
  send_bundle [tx_a; tx_b] ;;
  provide_tip_config ;;
  poll_with MOCK_PROGRESS ;;
  bundles_len 1 ;;
  poll_with leader_progress ;;
  skip_tip_batches ;;
  let* exec_bundle := popped in
  assert "flags" (sb_flags exec_bundle =? bundle_flags) ;;
  batch_len exec_bundle 2 ;;
  for_each (sb_transactions exec_bundle) (λ tx,
    assert "meta.priority == BUNDLE_MARKER" (priority (km_meta tx) =? BUNDLE_MARKER)) ;;
  bundles_len 0.

(** A transaction and a bundle that write the same account. *)
Definition conflicting_bundle (tx_price bundle_price : Z) : M S unit :=
  let* ix := shared_ix in
  let* conflicting_tx := new_tx_with ix 25000 tx_price in
  queue_tpu conflicting_tx ;;
  poll_with MOCK_PROGRESS ;;
  queue_all_checks_ok fuel ;;
  poll_with MOCK_PROGRESS ;;
  checked_len 1 ;;
  let* bundle_tx := new_tx_with ix 25000 bundle_price in
  send_bundle [bundle_tx] ;;
  provide_tip_config ;;
  poll_with MOCK_PROGRESS ;;
  bundles_len 1 ;;
  poll_with leader_progress ;;
  skip_tip_batches.

Definition bundle_wins_against_tpu : M S unit :=
  conflicting_bundle 100 500 ;;
  let* exec_tx := popped in
  assert "flags" (sb_flags exec_tx =? bundle_flags) ;;
  batch_len exec_tx 1 ;;
  (* No further batches - tx is blocked by the write lock conflict. *)
  none_scheduled ;;
  bundles_len 0 ;;
  checked_len 1.

Definition bundle_loses_against_tpu : M S unit :=
  conflicting_bundle 500 100 ;;
  let* _ := execute_popped in
  (* No further batches - bundle is blocked by the write lock conflict. *)
  none_scheduled ;;
  bundles_len 1.

(** ** Execution responses *)

(** The key of the transaction that executes. *)
Definition tx_key (exec_batch : ScheduleBatch) : M S TransactionKey :=
  let* t := first_tx exec_batch in mret (km_key t).

(** The transaction is gone from the bridge and from every collection. *)
Definition dropped (k : TransactionKey) : M S unit :=
  in_bridge k false ;;
  is_executing k false ;;
  checked_len 0 ;;
  deferred_len 0.

(** Answer with an error; poll with [p]. *)
Definition respond_err (exec_batch : ScheduleBatch) (reason : Z) (p : ProgressMessage) : M S unit :=
  let* rep := execute_err reason in
  queue_execute_response exec_batch 0 rep ;;
  poll_with p.

Definition execute_ok_drops_transaction : M S unit :=
  let* exec_batch := setup_executing_tx 25000 100 in
  let* k := tx_key exec_batch in
  let* rep := execute_ok in
  queue_execute_response exec_batch 0 rep ;;
  poll_with leader_progress ;;
  dropped k.

Definition execute_retryable_account_in_use_retries_same_slot : M S unit :=
  let* exec_batch := setup_executing_tx 25000 100 in
  let* k := tx_key exec_batch in
  (* Poll as NOT_LEADER so schedule_execute doesn't immediately re-schedule. *)
  respond_err exec_batch ACCOUNT_IN_USE MOCK_PROGRESS ;;
  in_bridge k true ;;
  is_executing k false ;;
  deferred_len 0 ;;
  is_checked k.

Definition execute_retryable_other_defers_to_next_slot : M S unit :=
  let* exec_batch := setup_executing_tx 25000 100 in
  let* k := tx_key exec_batch in
  respond_err exec_batch WOULD_EXCEED_MAX_BLOCK_COST_LIMIT leader_progress ;;
  in_bridge k true ;;
  is_executing k false ;;
  checked_len 0 ;;
  is_deferred k.

(** The next slot brings a deferred transaction back. *)
Definition roll_restores (k : TransactionKey) : M S unit :=
  poll_with (with_slot (current_slot MOCK_PROGRESS + 1) MOCK_PROGRESS) ;;
  deferred_len 0 ;;
  is_checked k ;;
  in_bridge k true.

Definition deferred_tx_drained_on_slot_roll : M S unit :=
  let* exec_batch := setup_executing_tx 25000 100 in
  let* k := tx_key exec_batch in
  respond_err exec_batch WOULD_EXCEED_MAX_BLOCK_COST_LIMIT leader_progress ;;
  is_deferred k ;;
  roll_restores k.

Definition execute_non_retryable_drops_transaction : M S unit :=
  let* exec_batch := setup_executing_tx 25000 100 in
  let* k := tx_key exec_batch in
  respond_err exec_batch reason_ALREADY_PROCESSED leader_progress ;;
  dropped k.

Definition execute_err_bundle_always_drops : M S unit :=
  let* exec_batch := setup_executing_bundle in
  let* k := tx_key exec_batch in
  respond_err exec_batch ACCOUNT_IN_USE leader_progress ;;
  dropped k.

Definition unprocessed_execute_returns_to_checked : M S unit :=
  let* exec_batch := setup_executing_tx 25000 100 in
  let* k := tx_key exec_batch in
  queue_unprocessed_response exec_batch 0 ;;
  poll_with MOCK_PROGRESS ;;
  in_bridge k true ;;
  is_executing k false ;;
  is_checked k ;;
  deferred_len 0.

Definition unprocessed_bundle_drops : M S unit :=
  let* exec_batch := setup_executing_bundle in
  let* k := tx_key exec_batch in
  queue_unprocessed_response exec_batch 0 ;;
  poll_with leader_progress ;;
  dropped k.

(** ** Slot and leader transitions *)

Definition tip_flags : Z := Z.lor pack_EXECUTE execution_DROP_ON_FAILURE.

Definition leader_ready_triggers_become_receiver : M S unit :=
  provide_tip_config ;;
  poll_with (with_slot 1 MOCK_PROGRESS) ;;
  none_scheduled ;;
  (* Transition to leader & poll. *)
  poll_with (with_slot 1 leader_progress) ;;
  for_each (seq 0 2) (λ _,
    let* batch := popped in
    assert "flags" (sb_flags batch =? tip_flags) ;;
    batch_len batch 1 ;;
    assert "worker" (sb_worker batch =? EXECUTE_WORKER_START)%nat) ;;
  none_scheduled.

Definition leader_ready_only_fires_once_per_slot : M S unit :=
  provide_tip_config ;;
  poll_with (with_slot 1 MOCK_PROGRESS) ;;
  (* First LEADER_READY poll - tip TXs are scheduled. *)
  poll_with (with_slot 1 leader_progress) ;;
  skip_tip_batches ;;
  drain_scheduled ;;
  (* Second LEADER_READY poll on the same slot - no new tip TXs. *)
  poll_with (with_slot 1 leader_progress) ;;
  while_scheduled fuel (λ batch, assert "no tip batch" (negb (sb_flags batch =? tip_flags))).

Definition slot_roll_clears_deferred_to_checked : M S unit :=
  let* exec_batch := setup_executing_tx 25000 100 in
  let* k := tx_key exec_batch in
  respond_err exec_batch WOULD_EXCEED_MAX_BLOCK_COST_LIMIT MOCK_PROGRESS ;;
  is_deferred k ;;
  checked_len 0 ;;
  roll_restores k.

(** Answer the checks that are scheduled; drop the other batches. *)
Definition exhaust_checks : M S unit :=
  while_scheduled fuel (λ batch, when (is_check batch) (queue_checks_ok batch)).

(** Whether one of the scheduled batches checks the transaction. *)
Fixpoint find_recheck (fuel : nat) (m : PriorityId) : M S bool :=
  match fuel with
  | O => hang
  | Datatypes.S fuel' =>
      let* batch := pop_schedule in
      match batch with
      | None => mret false
      | Some batch =>
          let* found := find_recheck fuel' m in
          mret (is_check batch && has_key (key m) batch || found)
      end
  end.

Definition slot_roll_resets_recheck_cursor : M S unit :=
  let* tx := new_noop 25000 100 in
  queue_tpu tx ;;
  poll_with MOCK_PROGRESS ;;
  queue_all_checks_ok fuel ;;
  poll_with MOCK_PROGRESS ;;
  checked_len 1 ;;
  let* checked_meta := last_checked in
  provide_tip_config ;;
  poll_with MOCK_PROGRESS ;;
  (* First leader poll - become_receiver fires, next_recheck set. *)
  poll_with leader_no_budget ;;
  drain_scheduled ;;
  (* Second leader poll - recheck is scheduled. *)
  poll_with leader_no_budget ;;
  let* recheck_batch := popped in
  assert "flags & 1 == CHECK" (is_check recheck_batch) ;;
  assert "any key == checked_meta.key" (has_key (key checked_meta) recheck_batch) ;;
  queue_check_response_ok recheck_batch 0 None ;;
  (* Third leader poll - recheck response drained, cursor exhausted. *)
  poll_with leader_no_budget ;;
  assert_that "next_recheck.is_some()" (λ s, match next_recheck s with Some _ => true | None => false end) ;;
  exhaust_checks ;;
  poll_with leader_no_budget ;;
  exhaust_checks ;;
  poll_with leader_no_budget ;;
  drain_scheduled ;;
  (* Now roll to a new slot - cursor should reset. *)
  let new_slot := current_slot MOCK_PROGRESS + 1 in
  poll_with (with_slot new_slot leader_no_budget) ;;
  drain_scheduled ;;
  (* Poll again - recheck should be scheduled. *)
  poll_with (with_slot new_slot leader_no_budget) ;;
  let* found_recheck := find_recheck fuel checked_meta in
  assert "Recheck should restart after slot roll" found_recheck ;;
  in_checked checked_meta true.

(** ** Edge cases *)

Fixpoint map_m {A B} (f : A → M S B) (l : list A) : M S (list B) :=
  match l with
  | [] => mret []
  | x :: l' =>
      let* y := f x in
      let* ys := map_m f l' in
      mret (y :: ys)
  end.

Definition first_checked : M S PriorityId :=
  let* l := self checked_tx in unwrap "checked_tx.first()" (head l).

Definition checked_capacity_eviction : M S unit :=
  (* Fill checked_tx to capacity (64) by ingesting and checking 64 TXs. *)
  let* payers := map_m (λ _, call keypair_new) (seq 0 64) in
  for_each (imap (λ i payer, (i, payer)) payers) (λ '(i, payer),
    queue_tpu (noop_with_budget payer 25000 ((Z.of_nat i + 1) * 1000))) ;;
  poll_with MOCK_PROGRESS ;;
  queue_all_checks_ok fuel ;;
  poll_with MOCK_PROGRESS ;;
  checked_len 64 ;;
  unchecked_len 0 ;;
  (* Remember the lowest priority checked TX. *)
  let* lowest := first_checked in
  (* Ingest one more TX and complete its check: should evict lowest checked. *)
  let* new_tx := new_noop 25000 100000 in
  queue_tpu new_tx ;;
  poll_with MOCK_PROGRESS ;;
  queue_all_checks_ok fuel ;;
  poll_with MOCK_PROGRESS ;;
  checked_len 64 ;;
  in_checked lowest false ;;
  in_bridge (key lowest) false ;;
  let* new_min := first_checked in
  assert "new_min.priority > lowest.priority" (priority lowest <? priority new_min).

(** ** The suite *)

Definition batch_tests : list (string * M S unit) := [
  ("tpu_recv_schedules_check", tpu_recv_schedules_check);
  ("tpu_recv_filters_tip_program", tpu_recv_filters_tip_program);
  ("jito_packet_schedules_check", jito_packet_schedules_check);
  ("jito_packet_filters_tip_program", jito_packet_filters_tip_program);
  ("jito_bundle_ingested", jito_bundle_ingested);
  ("jito_bundle_filters_tip_program", jito_bundle_filters_tip_program);
  ("jito_bundle_dropped_if_any_tx_invalid", jito_bundle_dropped_if_any_tx_invalid);
  ("check_ok_moves_to_checked", check_ok_moves_to_checked);
  ("check_err_drops_transaction", check_err_drops_transaction);
  ("recheck_during_leader_slot", recheck_during_leader_slot);
  ("recheck_failure_removes_from_checked", recheck_failure_removes_from_checked);
  ("execute_schedules_by_priority", execute_schedules_by_priority);
  ("execute_respects_budget", execute_respects_budget);
  ("execute_respects_lock_conflicts", execute_respects_lock_conflicts);
  ("execute_only_when_leader", execute_only_when_leader);
  ("bundle_scheduled_over_tx_when_higher_priority", bundle_scheduled_over_tx_when_higher_priority);
  ("bundle_uses_all_or_nothing_flag", bundle_uses_all_or_nothing_flag);
  ("bundle_wins_against_tpu", bundle_wins_against_tpu);
  ("bundle_loses_against_tpu", bundle_loses_against_tpu);
  ("execute_ok_drops_transaction", execute_ok_drops_transaction);
  ("execute_retryable_account_in_use_retries_same_slot", execute_retryable_account_in_use_retries_same_slot);
  ("execute_retryable_other_defers_to_next_slot", execute_retryable_other_defers_to_next_slot);
  ("deferred_tx_drained_on_slot_roll", deferred_tx_drained_on_slot_roll);
  ("execute_non_retryable_drops_transaction", execute_non_retryable_drops_transaction);
  ("execute_err_bundle_always_drops", execute_err_bundle_always_drops);
  ("unprocessed_execute_returns_to_checked", unprocessed_execute_returns_to_checked);
  ("unprocessed_bundle_drops", unprocessed_bundle_drops);
  ("leader_ready_triggers_become_receiver", leader_ready_triggers_become_receiver);
  ("leader_ready_only_fires_once_per_slot", leader_ready_only_fires_once_per_slot);
  ("slot_roll_clears_deferred_to_checked", slot_roll_clears_deferred_to_checked);
  ("slot_roll_resets_recheck_cursor", slot_roll_resets_recheck_cursor);
  ("checked_capacity_eviction", checked_capacity_eviction)
]%string.
End BatchTests.
