(* ===== verification/BatchWitness.v ===== *)
(** * A run of the batch scheduler

    A concrete run in the world of [ModelWorld]: three transactions are
    checked, two of them start on two workers.  The states are computed by the
    scheduler's own definitions; every property of the batch scheduler is
    instantiated on one of them. *)

From S2P Require Import Prelude BTreeSet Types Events Externals LockTable TipProgram Costs.
From S2P Require Import Common Outstanding Drains Polling BatchScheduler BatchInvariant BatchHandlers BatchExecute.
From S2P Require Import BatchIngest BatchSlot BatchChecks BatchReach Strays BatchLeaks BatchPoll ModelWorld.

Abbreviation DemoSched := (BatchScheduler (list PriorityId) (list_set PriorityId)).
Abbreviation DemoSt := (St DemoSched ModelWorld).

Definition demo_progress : ProgressMessage := {|
  leader_state := 2; current_slot := 5; next_leader_slot := 5;
  remaining_cost_units := 60000000; current_slot_progress := 10 |}.

Definition demo_world : ModelWorld := {|
  mw_progress := demo_progress;
  mw_pending_progress := true;
  mw_workers := [(0, 8); (0, 8); (0, 8)]%nat;
  mw_tpu := [];
  mw_responses := [];
  mw_table := list_to_map ((λ kp, (kp.1, model_transaction kp.1 kp.2)) <$>
    [(1%N, [100; 5000; 41; 42; 1001]); (2%N, [200; 5000; 42]); (3%N, [50; 5000; 43; 1001]); (4%N, [70; 5000; 44])]);
  mw_sent := [];
  mw_clock := 1000;
  mw_jito := [JBuilderConfig {| builder_key := 9%N; commission := 5 |}];
  mw_cancelled := false;
  mw_counters := [];
|}.

Definition demo_args : BatchSchedulerArgs := {|
  args_tip := {| vote_account := 50%N; merkle_authority := 51%N; commission_bps := 100 |};
  args_keypair := 52%N;
  args_filter_keys := ∅;
  args_unchecked_capacity := 4;
  args_checked_capacity := 4;
  args_bundle_capacity := 2;
  args_runtime := RuntimeConfig_default;
|}.

Definition demo_new : Res (DemoSched * ModelWorld) := new_with_jito None demo_args demo_world.

Definition demo0 : DemoSt :=
  ltac:(let r := eval vm_compute in demo_new in
        lazymatch r with Ok (?s, ?w) => exact (mk s w) end).

(** ** Three checks *)

Definition check_ok_response : CheckResponse := {|
  parsing_and_sanitization_flags := 0; resolve_flags := 3; status_check_flags := 3;
  fee_payer_balance_flags := 3 |}.

Definition demo_m (k : TransactionKey) (prio c : Z) : PriorityId :=
  {| priority := prio; cost := c; key := k |}.
Definition m1 : PriorityId := demo_m 1 30 100.
Definition m2 : PriorityId := demo_m 2 20 200.
Definition m3 : PriorityId := demo_m 3 25 50.

Definition demo1 : DemoSt := ltac:(end_state (on_check m1 check_ok_response None demo0)).
Definition demo2 : DemoSt := ltac:(end_state (on_check m2 check_ok_response None demo1)).
Definition demo3 : DemoSt := ltac:(end_state (on_check m3 check_ok_response None demo2)).

(** ** Two starts: the third transaction conflicts with the first *)

Definition demo4 : DemoSt := ltac:(end_state (schedule_execute_worker 1 1000 demo3)).
Definition demo5 : DemoSt := ltac:(end_state (schedule_execute_worker 2 900 demo4)).

Lemma demo_start : new_with_jito None demo_args demo_world = Ok (sch demo0, wld demo0).
Proof. vm_compute. reflexivity. Qed.

(** A check of a new transaction, run on [st]. *)
Lemma demo_check m (st st' : DemoSt) packet :
  reachable [] st →
  w_transaction (wld st) (key m) = Some (model_transaction (key m) packet) →
  is_u64 (cost m) → bool_decide (key m ∈ held_keys [] (sch st)) = false →
  checked_capacity (sch st) = 4%nat → (pending_len (sch st) < 4)%nat →
  on_check m check_ok_response None st = Ok (Keep, st') →
  reachable [] st'.
Proof.
  intros Hr Htx Hc Hk Hcap Hlen Heq. eapply (reach_step [] st [] (after_decision (key m) Keep st')); [done|].
  eapply (step_check _ _ m check_ok_response None); [|exact Heq]. split; [|done|decided| | |].
  - eexists. split; [exact Htx|apply model_transaction_signed].
  - intros _. unfold lockable, tx_locks. rewrite Htx. apply model_transaction_NoDup.
  - right; left. by apply bool_decide_eq_false_1 in Hk.
  - by rewrite Hcap.
Qed.

Lemma model_packet_lockable packet : lockable_packet packet.
Proof.
  intros w k w' Hi. destruct packet; [done|]. injection Hi as <- <-.
  unfold lockable, tx_locks. simpl. rewrite lookup_insert_eq. apply model_transaction_NoDup.
Qed.

Lemma demo2_reachable : reachable [] demo2.
Proof.
  assert (reachable [] demo0) as H0 by exact (reach_start _ _ _ _ _ demo_start).
  assert (reachable [] demo1) as H1.
  { apply (demo_check m1 demo0 demo1 [100; 5000; 41; 42; 1001]); done || decided. }
  apply (demo_check m2 demo1 demo2 [200; 5000; 42]); done || decided.
Qed.

Lemma demo3_reachable : reachable [] demo3.
Proof.
  pose proof demo2_reachable as H2.
  apply (demo_check m3 demo2 demo3 [50; 5000; 43; 1001]); done || decided.
Qed.

Definition demo_O1 : list (nat * PriorityId) := [(0%nat, m1)].
Definition demo_O2 : list (nat * PriorityId) := [(1%nat, m3); (0%nat, m1)].

Lemma demo4_reachable : reachable demo_O1 demo4.
Proof.
  assert (reachable (entries 0 (sent 1 1000 demo3 demo4) ++ []) demo4) as H.
  { eapply reach_step; [exact demo3_reachable|].
    eapply (step_start _ _ 0 1 1000); [|decided|decided|by vm_compute].
    intros j m Hin. by apply elem_of_nil in Hin. }
  replace demo_O1 with (entries 0 (sent 1 1000 demo3 demo4) ++ []); [exact H|by vm_compute].
Qed.

Lemma demo_fresh i (O : list (nat * PriorityId)) :
  forallb (λ jm, negb (jm.1 =? i)%nat) O = true → fresh_batch i O.
Proof.
  intros Hall j m Hin. rewrite forallb_forall in Hall. apply list_elem_of_In in Hin.
  specialize (Hall _ Hin). simpl in Hall. by apply negb_true_iff, Nat.eqb_neq in Hall.
Qed.

Lemma demo5_reachable : reachable demo_O2 demo5.
Proof.
  assert (reachable (entries 1 (sent 2 900 demo4 demo5) ++ demo_O1) demo5) as H.
  { eapply reach_step; [exact demo4_reachable|].
    eapply (step_start _ _ 1 2 900); [by apply demo_fresh|decided|decided|by vm_compute]. }
  replace demo_O2 with (entries 1 (sent 2 900 demo4 demo5) ++ demo_O1); [exact H|by vm_compute].
Qed.

(** The Jito thread has told the tip accounts. *)
Definition demo6 : DemoSt :=
  mk ((sch demo5) <| tip_config := Some {| tip_receiver := 60%N; block_builder := 61%N |} |>
                  <| recent_blockhash := 7%N |>) (wld demo5).

Lemma demo6_reachable : reachable demo_O2 demo6.
Proof. eapply reach_step; [exact demo5_reachable|apply step_jito_config]. Qed.

Lemma demo2_inv : Inv [] demo2.
Proof. apply reachable_inv, demo2_reachable. Qed.
Lemma demo3_inv : Inv [] demo3.
Proof. apply reachable_inv, demo3_reachable. Qed.
Lemma demo4_inv : Inv demo_O1 demo4.
Proof. apply reachable_inv, demo4_reachable. Qed.
Lemma demo5_inv : Inv demo_O2 demo5.
Proof. apply reachable_inv, demo5_reachable. Qed.
Lemma demo6_inv : Inv demo_O2 demo6.
Proof. apply reachable_inv, demo6_reachable. Qed.

(** ** The properties on this run *)

(** Transaction 7 holds a write lock. *)
Definition held_table : LockTable := <[41%N := {| writers := {[7%N]}; readers := ∅ |}]> ∅.

Lemma held_table_represents : represents held_table {[(41%N, 7%N, true)]}.
Proof.
  destruct (lock_spec 7%N [(41%N, true)] ∅ ∅ represents_empty) as (t & E & Hrep);
    [decided|intros ?? _; apply not_elem_of_empty|].
  assert (t = held_table) as -> by (vm_compute in E; vm_compute; congruence).
  by replace {[(41%N, 7%N, true)]} with (grants_of 7%N [(41%N, true)] ∪ ∅) by set_solver.
Qed.

Lemma lock_table_refines_witness :
  let locks := [(42%N, true); (43%N, false)] in
  ¬ compatible {[(41%N, 7%N, true)]} [(41%N, false)] ∧
  (t' ← lock 1%N locks held_table; unlock 1%N locks t') = Ok held_table ∧
  (∃ p, lock 7%N [(41%N, true)] held_table = Panicked p) ∧
  (∃ p, unlock 1%N locks held_table = Panicked p).
Proof.
  destruct lock_table_refines as [_ Hrefines].
  pose proof (Hrefines held_table _ held_table_represents) as H.
  split; [|split; [|split]].
  - intros Hc. apply (H 1%N [(41%N, false)]) in Hc. by vm_compute in Hc.
  - destruct (H 1%N [(42%N, true); (43%N, false)]) as (_ & Hl & _).
    rewrite decide_True in Hl by decided. destruct Hl as (t' & -> & _ & Hu). exact Hu.
  - destruct (H 7%N [(41%N, true)]) as (_ & Hl & _). by rewrite decide_False in Hl by decided.
  - destruct (H 1%N [(42%N, true); (43%N, false)]) as (_ & _ & Hu).
    by rewrite decide_False in Hu by decided.
Defined.

Lemma on_unprocessed_inv_witness :
  wp benign (on_unprocessed m3) (λ d st',
    Inv demo_O1 st' ∧ d = Keep ∧ m3 ∈ checked_tx (sch st')) demo5.
Proof.
  exact (on_unprocessed_inv demo_O2 demo_O1 1 m3 demo5 demo5_inv (reflexivity _)).
Defined.

Definition demo_rep : ExecutionResponse := {| execution_slot := 0; not_included_reason := 2 |}.

Lemma on_execute_inv_witness :
  wp benign (on_execute m3 demo_rep) (λ d st',
    Inv demo_O1 st' ∧ d = Keep ∧ ∃ s1 : DemoSched,
      (iset_elements (deferred_tx s1) = iset_elements (deferred_tx (sch demo5)) ++ [m3] ∧
       checked_tx s1 = checked_tx (sch demo5)) ∧ evicted_one s1 (sch st')) demo5.
Proof.
  exact (on_execute_inv demo_O2 demo_O1 1 m3 demo_rep demo5 demo5_inv (reflexivity _)).
Defined.

Lemma on_check_inv_witness :
  wp benign (on_check m3 check_ok_response None) (λ d st',
    Inv [] st' ∧ d = Keep ∧ checked_tx (sch st') = [m2; m3; m1]) demo2.
Proof.
  refine (on_check_inv [] m3 check_ok_response None demo2 demo2_inv _ _ _ _ _ _);
    [|decided|decided| |right; left; decided|by vm_compute].
  - eexists. split; [by vm_compute|apply (model_transaction_signed 3 [50; 5000; 43; 1001])].
  - intros _. apply (model_transaction_NoDup 3 [50; 5000; 43; 1001]).
Defined.

Lemma schedule_execute_worker_spec_witness :
  wp benign (schedule_execute_worker 2 900) (λ r st', ∃ ms,
    Inv (entries 1 ms ++ demo_O1) st' ∧ total_cost ms ≤ 900 ∧ r.2 = 900 - total_cost ms ∧
    (ms ≠ [] → w_worker_len (wld demo4) 2 = 0%nat ∧ best_of (sch demo4) = Some ms) ∧
    (∀ m j m' addr b b', m ∈ ms → (j, m') ∈ demo_O1 →
       (addr, b) ∈ tx_locks (wld st') (key m) → (addr, b') ∈ tx_locks (wld st') (key m') →
       b = false ∧ b' = false)) demo4.
Proof.
  refine (schedule_execute_worker_spec demo_O1 1 2 900 demo4 demo4_inv _ _ _);
    [by apply demo_fresh|decided|decided].
Defined.

Lemma schedule_execute_budget_witness :
  wp benign schedule_execute (λ _ st', ∃ new,
    Inv (new ++ []) st' ∧ 0 ≤ in_flight_cus (sch st') ∧ 0 + in_flight_cus (sch st') ≤ 18000000) demo3.
Proof.
  refine (schedule_execute_budget [] demo3 demo3_inv _ _); [decided|].
  unfold budget_in_range. repeat split; decided.
Defined.

Lemma on_tpu_inv_witness :
  wp ingest_panic (on_tpu 4) (λ d st',
    Inv demo_O2 st' ∧ d = Keep ∧
    same_sched ((sch demo5) <| unchecked_tx := [demo_m 4 35211267 70] |>) (sch st')) demo5.
Proof.
  refine (on_tpu_inv demo_O2 4 (model_transaction 4 [70; 5000; 44]) demo5 demo5_inv _ _ _);
    [decided|by vm_compute|apply model_transaction_signed].
Defined.

Lemma on_packet_inv_witness :
  wp ingest_panic (on_packet [10; 10; 45]) (λ _ st',
    Inv demo_O2 st' ∧
    (same_sched (sch demo5) (sch st') ∨
     ∃ k prio c, w_insert_transaction [10; 10; 45] (wld demo5) =
         (Some k, (w_insert_transaction [10; 10; 45] (wld demo5)).2) ∧
       stored_unchecked {| priority := prio; cost := c; key := k |} (sch demo5) (sch st'))) demo5.
Proof. refine (on_packet_inv demo_O2 [10; 10; 45] demo5 demo5_inv _). decided. Defined.

(** A packet of the bundle that does not parse, and a bundle that is stored. *)
Definition demo_bundle : list u8s := [[10; 10; 45]; [20; 20; 46]].

Lemma demo_bundle_admitted :
  (admitted demo5 [[10; 10; 45]; []] = None) ∧
  ((λ items, (total_of (λ i, i.1.2) items, length items)) <$> admitted demo5 demo_bundle = Some (30, 2%nat)).
Proof. by vm_compute. Qed.

Lemma on_bundle_inv_witness :
  wp ingest_panic (on_bundle [[10; 10; 45]; []]) (λ _ st',
    Inv demo_O2 st' ∧ same_sched (sch demo5) (sch st') ∧
    ∀ k, w_transaction (wld st') k = w_transaction (wld demo5) k) demo5 ∧
  wp ingest_panic (on_bundle demo_bundle) (λ _ st', ∃ b,
    bundles (sch st') = [b] ∧ b_cost b = 30 ∧ length (keys b) = 2%nat ∧
    Forall (λ k, w_transaction (wld demo5) k = None ∧ w_transaction (wld st') k ≠ None) (keys b)) demo5.
Proof.
  destruct demo_bundle_admitted as [Hrefused Hadmitted]. split; (eapply wp_mono;
    [apply (on_bundle_inv demo_O2 _ demo5 demo5_inv); [done|repeat constructor; apply model_packet_lockable|done]|]).
  - rewrite Hrefused. by intros [] st' (HI & Hs & Hw).
  - destruct (admitted demo5 demo_bundle) as [items|]; [|done]. injection Hadmitted as Hcost Hlen.
    intros [] st' (_ & b & Hb & Hc & _ & _ & Hkeys & _). exists b.
    split; [exact Hb|]. split; [by rewrite Hc, Hcost|]. split; [by rewrite (Forall2_length _ _ _ Hkeys)|].
    eapply Forall2_Forall_l; [exact Hkeys|]. apply Forall_forall. intros i _ k [Hn Hk]. by rewrite Hk.
Defined.

(** Both tip transactions name no account here, and conflict with nothing. *)
Definition demo_tip : TipConfig := {| tip_receiver := 60%N; block_builder := 61%N |}.

Definition tip_w1 : ModelWorld := (w_insert_transaction (init_packet (sch demo6)) (wld demo6)).2.
Definition tip_w2 : ModelWorld := (w_insert_transaction (change_packet (sch demo6) demo_tip) tip_w1).2.
Definition tip_w3 : ModelWorld :=
  ltac:(let r := eval vm_compute in (w_schedule (tip_batch 5 (slot (sch demo6) + 4)) tip_w2) in
        lazymatch r with Some ?w => exact w end).
Definition tip_w4 : ModelWorld :=
  ltac:(let r := eval vm_compute in (w_schedule (tip_batch 6 (slot (sch demo6) + 4)) tip_w3) in
        lazymatch r with Some ?w => exact w end).

Lemma demo_tips_compatible : tips_compatible demo_O2 tip_w2 5 6.
Proof.
  assert (tx_locks tip_w2 5 = [] ∧ tx_locks tip_w2 6 = []) as [H5 H6] by decided.
  unfold tips_compatible. rewrite H5, H6. split; intros addr w k w' Hin; by apply elem_of_nil in Hin.
Qed.

Lemma become_tip_receiver_inv_witness :
  ∃ t, become_tip_receiver (mk (sch demo6) (wld demo6)) = Ok (tt, mk (tip_declared 5 6 t (sch demo6)) tip_w4) ∧
    Inv (entries 2 (tip_metas [5; 6]%N) ++ demo_O2) (mk (tip_declared 5 6 t (sch demo6)) tip_w4).
Proof.
  destruct (become_tip_receiver_inv demo_O2 2 (sch demo6) (wld demo6) demo_tip 5 6 tip_w1 tip_w2) as [Hsent _];
    [exact demo6_inv|by apply demo_fresh|done|by vm_compute..|].
  apply (Hsent demo_tips_compatible ltac:(decided) tip_w3); by vm_compute.
Defined.

(** No progress message for ten seconds. *)
Definition demo_stale : DemoSt :=
  mk (sch demo6) ((wld demo6) <| mw_pending_progress := false |> <| mw_clock := 10000000000 |>).

Lemma check_slot_roll_stale_witness :
  check_slot_roll demo_stale = Panicked (PAssert "Agave disconnected").
Proof. apply (check_slot_roll_stale demo_stale). split; [done|decided]. Defined.

Lemma check_slot_roll_inv_witness :
  wp benign check_slot_roll (λ _ st', ∃ new,
    Inv (new ++ demo_O2) st' ∧ slot (sch st') = 5 ∧
    iset_elements (deferred_tx (sch st')) = [] ∧ checked_tx (sch st') ≡ₚ [m2]) demo6.
Proof.
  refine (check_slot_roll_inv demo_O2 demo6 demo6_inv _ _); [|done].
  intros [Hnone _]. vm_compute in Hnone. done.
Defined.

Lemma schedule_checks_ends_witness :
  wp benign (schedule_checks 10) (λ _ st',
    Inv demo_O2 st' ∧ checked_tx (sch st') = checked_tx (sch demo6) ∧
    (heap_len (unchecked_tx (sch st')) ≤ 0)%nat ∧
    ((max_check_batches (runtime (sch st')) ≤ w_worker_len (wld st') CHECK_WORKER)%nat ∨
     w_worker_rem (wld st') CHECK_WORKER = 0%nat ∨ exhausted (sch st'))) demo6.
Proof. refine (schedule_checks_ends demo_O2 10 demo6 demo6_inv _). decided. Defined.

Lemma reachable_conflict_free_witness :
  (1001%N, false) ∈ tx_locks (wld demo5) 3 ∧ (1001%N, false) ∈ tx_locks (wld demo5) 1 ∧
  ∀ addr b b', (addr, b) ∈ tx_locks (wld demo5) 3 → (addr, b') ∈ tx_locks (wld demo5) 1 →
    b = false ∧ b' = false.
Proof.
  split; [decided|]. split; [decided|].
  intros addr b b'. apply (reachable_conflict_free demo_O2 demo5 demo5_reachable 1 m3 0 m1 addr b b');
    [by left|right; by left|done].
Defined.

Lemma reachable_accounted_witness :
  in_flight_cus (sch demo5) = 150 ∧
  (∀ k, k ∈ executing_tx (sch demo5) ↔ ∃ i m, (i, m) ∈ demo_O2 ∧ key m = k).
Proof.
  destruct (reachable_accounted demo_O2 demo5 demo5_reachable) as (Hc & He & _).
  split; [exact Hc|exact He].
Defined.

(** The capacity is raised; both executions end, and transactions, a packet and
    a bundle arrive. *)
Definition demo_executed (m : PriorityId) (reason : Z) : WorkerResponse :=
  {| wr_meta := m; wr_response := Execute_ {| execution_slot := 5; not_included_reason := reason |} |}.

Definition demo_wide : DemoSt :=
  mk (set_runtime_config 2048 4 2 20 4 (from_millis 200) (from_secs 5) (sch demo6)) (wld demo6).

Definition demo_busy : DemoSt :=
  mk (sch demo_wide)
     ((wld demo6) <| mw_responses := [[]; [demo_executed m1 0]; [demo_executed m3 2]] |>
                  <| mw_tpu := [[60; 5000; 41]; [61; 5000; 47]] |>
                  <| mw_jito := [JPacket [10; 10; 45]; JBundle [[10; 10; 45]; [20; 20; 46]]] |>).

Lemma demo_busy_inv : Inv demo_O2 demo_busy.
Proof.
  apply (environment_inv demo_O2 demo_wide (wld demo_busy)); [|done].
  apply reachable_inv. eapply reach_step; [exact demo6_reachable|apply step_set_config].
Qed.

(** After its slot roll. *)
Definition demo_rolled : DemoSt := ltac:(end_state (check_slot_roll demo_busy)).

Lemma demo_busy_roll : check_slot_roll demo_busy = Ok (tt, demo_rolled).
Proof. by vm_compute. Qed.

Lemma demo_rolled_responses :
  responses (wld demo_rolled) (seq 0 (w_worker_count (wld demo_rolled))) =
  [demo_executed m1 0; demo_executed m3 2].
Proof. by vm_compute. Qed.

Lemma demo_busy_honest (new : list (nat * PriorityId)) :
  honest [demo_executed m1 0; demo_executed m3 2] (new ++ demo_O2) demo_rolled.
Proof.
  assert ((1%nat, m3) ∈ new ++ demo_O2 ∧ (0%nat, m1) ∈ new ++ demo_O2) as [Hm3 Hm1]
    by (split; apply elem_of_app; right; decided).
  split; [by exists 0%nat|]. intros w d st' _ _. split; [|done].
  exists 1%nat. apply list_elem_of_filter. by split.
Qed.

Lemma demo_busy_ready : poll_ready demo_O2 demo_busy.
Proof.
  split; [exact demo_busy_inv|decided| | |decided|done|done| |].
  - split; [simpl; lia|done].
  - intros [Hnone _]. by vm_compute in Hnone.
  - repeat constructor; [done|apply model_packet_lockable..].
  - intros new st1 Heq _. rewrite demo_busy_roll in Heq. injection Heq as <-.
    rewrite demo_rolled_responses. apply demo_busy_honest.
Qed.


(** The scheduler after a shutdown. *)
Definition demo_shutdown : DemoSt := mk (sch demo6) ((wld demo6) <| mw_cancelled := true |>).

Lemma drain_jito_spins_witness : drain_jito 1000 demo_shutdown = Hang.
Proof. apply (drain_jito_spins 1000 demo_shutdown); reflexivity. Defined.

(** ** Panics *)

(** The capacity is used up by what executes: there is nothing to evict. *)
Lemma on_check_full_panics :
  match on_check (demo_m 4 10 70) check_ok_response None
    (mk ((sch demo5) <| checked_tx := [] |> <| checked_capacity := 2%nat |>) (wld demo5)) with
  | Panicked p => bool_decide (p = PUnwrap "on_check: pop_first") | _ => false end = true.
Proof. by vm_compute. Qed.

(** More transactions arrive at once than there is capacity for. *)
Lemma drain_tpu_burst_panics :
  match drain_tpu 1024 (mk (sch demo0) ((wld demo0) <| mw_tpu := replicate 5 [10; 5000; 41] |>)) with
  | Panicked p => bool_decide (p = PUnwrap "pop_min") | _ => false end = true.
Proof. by vm_compute. Qed.

(** ** A history from an empty bridge

    Two packets arrive and are sent to the check workers; one comes back. *)

Definition leak_world : ModelWorld := demo_world <| mw_table := ∅ |>.
Definition leak0 : DemoSt :=
  ltac:(let r := eval vm_compute in (new_with_jito None demo_args leak_world : Res (DemoSched * ModelWorld)) in
        lazymatch r with Ok (?s, ?w) => exact (mk s w) end).
Definition leak1 : DemoSt := ltac:(end_state (on_packet [60; 5000; 41] leak0)).
Definition leak2 : DemoSt := ltac:(end_state (on_packet [200; 5000; 42] leak1)).
Definition leak3 : DemoSt := ltac:(end_state (schedule_checks 10 leak2)).
Definition leak_m : PriorityId := {| priority := 40983606; cost := 60; key := 0%N |}.
Definition leak4 : DemoSt := ltac:(end_state (on_check leak_m check_ok_response None leak3)).
(** The Jito thread has told the tip accounts, and the capacity is raised. *)
Definition leak_tip : DemoSt := mk ((sch leak4) <| tip_config := Some demo_tip |> <| recent_blockhash := 7%N |>) (wld leak4).
Definition leak5 : DemoSt :=
  mk (set_runtime_config 2048 4 2 20 4 (from_millis 200) (from_secs 5) (sch leak_tip)) (wld leak_tip).

(** Both transactions are out; one check comes back unprocessed, the other is
    answered. *)
Definition leak_m1 : PriorityId := {| priority := 12500000; cost := 200; key := 1%N |}.

Definition leak_keys (ks : list TransactionKey) : gset TransactionKey := list_to_set ks.

Lemma leak_requested :
  run (leak_keys [0; 1]%N, ∅, leak3).
Proof.
  exists (∅, ∅, leak0). split.
  { exists None, demo_args, leak_world, (sch leak0), (wld leak0). by vm_compute. }
  eapply rtc_l; [by apply (run_packet _ _ [60; 5000; 41] _ leak1); vm_compute|].
  eapply rtc_l; [by apply (run_packet _ _ [200; 5000; 42] _ leak2); vm_compute|].
  replace (leak_keys [0; 1]%N) with (∅ ∪ first_checks held check_flags leak2 leak3) by by vm_compute.
  apply rtc_once, (run_checks _ _ 10). by vm_compute.
Qed.

Lemma leak_answered : rtc run_step (leak_keys [0; 1]%N, ∅, leak3) (leak_keys [], leak_keys [1]%N, leak5).
Proof.
  eapply rtc_l; [by apply (run_unprocessed_check _ _ leak_m1 _ Keep leak3); vm_compute|].
  replace (leak_keys [0; 1]%N ∖ {[key leak_m1]}) with (leak_keys [0]%N) by by vm_compute.
  replace (∅ ∪ leak_keys [0; 1]%N ∩ {[key leak_m1]}) with (leak_keys [1]%N) by by vm_compute.
  eapply rtc_l; [by apply (run_check _ _ leak_m check_ok_response None _ Keep leak4); vm_compute|].
  replace (leak_keys [0]%N ∖ {[key leak_m]}) with (leak_keys []) by by vm_compute.
  apply rtc_once. unfold leak5, leak_tip. cbn [sch wld]. apply run_still; [by vm_compute|done].
Qed.

Lemma leak_run : run (leak_keys [], leak_keys [1]%N, leak5).
Proof. destruct leak_requested as (r0 & H0 & Hr). exists r0. split; [done|]. etrans; [exact Hr|exact leak_answered]. Qed.

Lemma leak3_reachable : reachable [] leak3.
Proof.
  assert (reachable [] leak0) as H0.
  { apply (reach_start None demo_args leak_world). by vm_compute. }
  assert (reachable [] leak1) as H1.
  { eapply reach_step; [exact H0|]. by apply (step_packet _ _ [60; 5000; 41]); [|vm_compute]. }
  assert (reachable [] leak2) as H2.
  { eapply reach_step; [exact H1|]. by apply (step_packet _ _ [200; 5000; 42]); [|vm_compute]. }
  eapply reach_step; [exact H2|]. by apply (step_checks _ _ 10); [decided|vm_compute].
Qed.

Lemma leak5_inv : Inv [] leak5.
Proof.
  apply reachable_inv. eapply reach_step; [|apply step_set_config]. eapply reach_step; [|apply step_jito_config].
  apply (demo_check leak_m leak3 leak4 [60; 5000; 41]); try exact leak3_reachable; done || decided.
Qed.

Definition leak_rolled : DemoSt := ltac:(end_state (check_slot_roll leak5)).

Lemma leak5_roll : check_slot_roll leak5 = Ok (tt, leak_rolled).
Proof. by vm_compute. Qed.

Lemma leak_rolled_quiet : responses (wld leak_rolled) (seq 0 (w_worker_count (wld leak_rolled))) = [].
Proof. by vm_compute. Qed.

Lemma leak5_ready : poll_ready [] leak5.
Proof.
  split; [exact leak5_inv|decided| | |decided|done|done|constructor|].
  - split; [simpl; lia|done].
  - intros [Hnone _]. by vm_compute in Hnone.
  - intros new st1 Heq _. rewrite leak5_roll in Heq. injection Heq as <-. by rewrite leak_rolled_quiet.
Qed.

Lemma no_transaction_lost_witness :
  (w_transaction (wld leak5) 0%N ≠ None ∧ w_transaction (wld leak5) 1%N ≠ None) ∧
  (∀ k, w_transaction (wld leak5) k ≠ None → k = 0%N ∨ k = 1%N) ∧
  eventually ingest_panic poll (λ _ st', ∃ out' lost',
    rtc run_step (leak_keys [], leak_keys [1]%N, leak5) (out', lost', st')) leak5.
Proof.
  destruct (no_transaction_lost _ _ _ leak_run) as [Hk Hpoll]. split; [split; decided|]. split; [|exact (Hpoll [] leak5_ready)].
  intros k Ht. destruct (Hk k Ht) as [(m & Hm & <-)|[(m & Hm & <-)|[(m & Hm & <-)|[He|[(b & Hb & _)|[Ho|Hl]]]]]].
  - by apply elem_of_nil in Hm.
  - apply list_elem_of_singleton in Hm as ->. by left.
  - by apply elem_of_nil in Hm.
  - by apply elem_of_empty in He.
  - by apply elem_of_nil in Hb.
  - by apply elem_of_list_to_set, elem_of_nil in Ho.
  - apply elem_of_list_to_set, list_elem_of_singleton in Hl as ->. by right.
Defined.

(** Before the Jito thread has told the tip accounts, the scheduler does not
    survive becoming leader. *)
Lemma leader_without_tip_config : poll 20 leak4 = Panicked (PUnwrap "become_tip_receiver: tip_config").
Proof. vm_compute. reflexivity. Qed.
