(* ===== verification/AuctionLocks.v ===== *)
(** * The auction's lock manager
    (schedulers/auction-batch-scheduler/src/auction_engine.rs, first part)

    [AccountLockers] and [LockManager]: who holds which account in which mode,
    and how many transactions queue for an account, as a decaying [f64]. *)

From S2P Require Import Prelude F64 Types.

(** ** [AccountLockers]: for each holder, whether it holds to write *)

Record AccountLockers := { lockers : gmap TransactionKey bool }.

#[export] Instance AccountLockers_eq_dec : EqDecision AccountLockers.
Proof. solve_decision. Defined.

Definition AccountLockers_default : AccountLockers := {| lockers := ∅ |}.

Module AccountLockers.
Definition can_lock (writable : bool) (l : AccountLockers) : bool :=
  if writable then bool_decide (lockers l = ∅)
  else bool_decide (map_Forall (λ _ w, w = false) (lockers l)).

Definition acquire (tx_key : TransactionKey) (writable : bool) (l : AccountLockers) : AccountLockers :=
  {| lockers := <[tx_key := writable]> (lockers l) |}.

Definition release (tx_key : TransactionKey) (l : AccountLockers) : AccountLockers :=
  {| lockers := delete tx_key (lockers l) |}.

Definition len (l : AccountLockers) : nat := size (lockers l).

Definition is_locked (l : AccountLockers) : bool := negb (bool_decide (lockers l = ∅)).

Definition is_empty (l : AccountLockers) : bool := bool_decide (lockers l = ∅).
End AccountLockers.

(** ** [LockManager] *)

(** The order in which a [HashMap] gives its values is not specified. *)
Class HashMapOrder := { hash_values : gmap Pubkey f64 → list f64 }.
Class HashMapOrderLaws `{HashMapOrder} := {
  hash_values_all m : hash_values m ≡ₚ (map_to_list m).*2;
}.

Record LockManager := {
  account_locks : gmap Pubkey AccountLockers;
  queue_depths : gmap Pubkey f64;
  decay_rate : f64;
}.

#[export] Instance LockManager_eta : Eta LockManager := λ m, {|
  account_locks := account_locks m; queue_depths := queue_depths m; decay_rate := decay_rate m |}.

Module LockManager.
Definition default_ : LockManager :=
  {| account_locks := ∅; queue_depths := ∅; decay_rate := f64_lit 1 10 |}.

Definition with_decay_rate (rate : f64) : LockManager := default_ <| decay_rate := rate |>.

Definition try_acquire (tx_locks : list (Pubkey * bool)) (m : LockManager) : bool :=
  forallb (λ aw, match account_locks m !! aw.1 with
                 | None => true
                 | Some l => AccountLockers.can_lock aw.2 l
                 end) tx_locks.

Definition acquire_one (tx_key : TransactionKey) (t : gmap Pubkey AccountLockers) (aw : Pubkey * bool)
    : gmap Pubkey AccountLockers :=
  <[aw.1 := AccountLockers.acquire tx_key aw.2 (default AccountLockers_default (t !! aw.1))]> t.

Definition acquire (tx_key : TransactionKey) (tx_locks : list (Pubkey * bool)) (m : LockManager)
    : LockManager :=
  m <| account_locks ::= λ t, fold_left (acquire_one tx_key) tx_locks t |>.

Definition release_one (tx_key : TransactionKey) (t : gmap Pubkey AccountLockers) (aw : Pubkey * bool)
    : gmap Pubkey AccountLockers :=
  match t !! aw.1 with
  | None => t
  | Some l =>
      let l' := AccountLockers.release tx_key l in
      if AccountLockers.is_empty l' then delete aw.1 t else <[aw.1 := l']> t
  end.

Definition release (tx_key : TransactionKey) (tx_locks : list (Pubkey * bool)) (m : LockManager)
    : LockManager :=
  m <| account_locks ::= λ t, fold_left (release_one tx_key) tx_locks t |>.

Definition queue_one (q : gmap Pubkey f64) (aw : Pubkey * bool) : gmap Pubkey f64 :=
  <[aw.1 := f64_add (default f64_zero (q !! aw.1)) f64_one]> q.

Definition queue_transaction (tx_locks : list (Pubkey * bool)) (m : LockManager) : LockManager :=
  m <| queue_depths ::= λ q, fold_left queue_one tx_locks q |>.

Definition dequeue_one (q : gmap Pubkey f64) (aw : Pubkey * bool) : gmap Pubkey f64 :=
  match q !! aw.1 with
  | None => q
  | Some depth =>
      let depth' := f64_sub (f64_max depth f64_zero) f64_one in
      if f64_lt depth' (f64_lit 1 100) then delete aw.1 q else <[aw.1 := depth']> q
  end.

Definition dequeue_transaction (tx_locks : list (Pubkey * bool)) (m : LockManager) : LockManager :=
  m <| queue_depths ::= λ q, fold_left dequeue_one tx_locks q |>.

Definition decay_factor `{LibM} (elapsed_ms : f64) (m : LockManager) : f64 :=
  f64_powf (f64_sub f64_one (decay_rate m)) (f64_div elapsed_ms (f64_of_Z 1000)).

Definition decay `{LibM} (elapsed_ms : f64) (m : LockManager) : LockManager :=
  let factor := decay_factor elapsed_ms m in
  m <| queue_depths ::= λ q,
    filter (λ ad, f64_lt (f64_lit 1 100) ad.2 = true) ((λ depth, f64_mul depth factor) <$> q) |>.

Definition queue_depth (account : Pubkey) (m : LockManager) : f64 :=
  default f64_zero (queue_depths m !! account).

Definition serialization_penalty (tx_locks : list (Pubkey * bool)) (m : LockManager) : f64 :=
  let queue_depth_sum := f64_sum ((λ aw, queue_depth aw.1 m) <$> tx_locks) in
  let predicted_blocked_ms := f64_mul queue_depth_sum (f64_of_Z 25) in
  f64_clamp f64_zero (f64_lit 99 100) (f64_div predicted_blocked_ms (f64_of_Z 400)).

Definition total_queue_depth `{HashMapOrder} (m : LockManager) : f64 :=
  f64_sum (hash_values (queue_depths m)).

(** [queue_depths] is kept: queued transactions carry over to the next slot. *)
Definition reset (m : LockManager) : LockManager := m <| account_locks := ∅ |>.

Definition tracked_accounts (m : LockManager) : nat := size (account_locks m).
End LockManager.

(** ** Who holds what *)

Definition holder (t : gmap Pubkey AccountLockers) (addr : Pubkey) (k : TransactionKey) (w : bool) : Prop :=
  ∃ l, t !! addr = Some l ∧ lockers l !! k = Some w.

(** No entry is empty, and whoever writes is alone. *)
Record exclusive (t : gmap Pubkey AccountLockers) : Prop := {
  excl_nonempty : map_Forall (λ _ l, lockers l ≠ ∅) t;
  excl_alone : ∀ addr k w k' w', holder t addr k w → holder t addr k' w' → k ≠ k' → w = false ∧ w' = false;
}.

Lemma exclusive_empty : exclusive ∅.
Proof. split; [done|]. intros addr k w k' w' (l & Hl & _). by rewrite lookup_empty in Hl. Qed.

Lemma holder_acquire_one k t addr w a k' w' :
  holder (LockManager.acquire_one k t (addr, w)) a k' w' ↔
    (a = addr ∧ k' = k ∧ w' = w) ∨ (¬ (a = addr ∧ k' = k) ∧ holder t a k' w').
Proof.
  unfold holder, LockManager.acquire_one. simpl. destruct (decide (a = addr)) as [->|Ha].
  - rewrite lookup_insert_eq. split.
    + intros (l & [= <-] & Hk). simpl in Hk. destruct (decide (k' = k)) as [->|Hne].
      * rewrite lookup_insert_eq in Hk. naive_solver.
      * rewrite lookup_insert_ne in Hk by done. right. split; [naive_solver|].
        destruct (t !! addr) as [l0|] eqn:E; simpl in Hk; [by exists l0|].
        by rewrite lookup_empty in Hk.
    + intros [(_ & -> & ->)|[Hne (l & Hl & Hk)]]; eexists; (split; [done|]); simpl.
      * by rewrite lookup_insert_eq.
      * rewrite lookup_insert_ne by naive_solver. by rewrite Hl.
  - rewrite lookup_insert_ne by done. naive_solver.
Qed.

Lemma holder_release_one k t addr w a k' w' :
  holder (LockManager.release_one k t (addr, w)) a k' w' ↔
    ¬ (a = addr ∧ k' = k) ∧ holder t a k' w'.
Proof.
  unfold holder, LockManager.release_one. simpl. destruct (t !! addr) as [l|] eqn:E; last first.
  { split; [|naive_solver]. intros (l & Hl & Hk). split; [|naive_solver]. intros [-> ->]. congruence. }
  unfold AccountLockers.is_empty. case_bool_decide as Hemp; simpl in Hemp.
  - assert (∀ k0, k0 ≠ k → lockers l !! k0 = None) as Hnone.
    { intros k0 Hk0. rewrite <- (lookup_delete_ne (lockers l) k) by done. by rewrite Hemp. }
    destruct (decide (a = addr)) as [->|Ha].
    + rewrite lookup_delete_eq, E. split; [naive_solver|]. intros [Hne (l0 & [= <-] & Hk)].
      rewrite Hnone in Hk by naive_solver. done.
    + rewrite lookup_delete_ne by done. naive_solver.
  - destruct (decide (a = addr)) as [->|Ha].
    + rewrite lookup_insert_eq, E. split.
      * intros (l0 & [= <-] & Hk). simpl in Hk. apply lookup_delete_Some in Hk as [Hne Hk].
        split; [naive_solver|by exists l].
      * intros [Hne (l0 & [= <-] & Hk)]. eexists; split; [done|]. simpl.
        rewrite lookup_delete_ne; [done|naive_solver].
    + rewrite lookup_insert_ne by done. naive_solver.
Qed.

Lemma nonempty_acquire_one k t aw :
  map_Forall (λ _ l, lockers l ≠ ∅) t → map_Forall (λ _ l, lockers l ≠ ∅) (LockManager.acquire_one k t aw).
Proof.
  intros Ht. apply map_Forall_insert_2; [|done]. apply insert_non_empty.
Qed.

Lemma nonempty_release_one k t aw :
  map_Forall (λ _ l, lockers l ≠ ∅) t → map_Forall (λ _ l, lockers l ≠ ∅) (LockManager.release_one k t aw).
Proof.
  intros Ht. unfold LockManager.release_one. case_match; [|done].
  unfold AccountLockers.is_empty. case_bool_decide; [by apply map_Forall_delete|].
  by apply map_Forall_insert_2.
Qed.

(** ** Whole transactions *)

Lemma holder_release k ls t a k' w' :
  holder (fold_left (LockManager.release_one k) ls t) a k' w' ↔
    ¬ (k' = k ∧ a ∈ ls.*1) ∧ holder t a k' w'.
Proof.
  revert t. induction ls as [|[addr w] ls IH]; intros t; simpl.
  { split; [|naive_solver]. intros Hh. split; [|done]. intros [_ Hin]. by apply elem_of_nil in Hin. }
  rewrite IH, holder_release_one, elem_of_cons. naive_solver.
Qed.

(** Acquiring touches nobody else. *)
Lemma holder_acquire_other k ls t a k' w' :
  ¬ (k' = k ∧ a ∈ ls.*1) →
  holder (fold_left (LockManager.acquire_one k) ls t) a k' w' ↔ holder t a k' w'.
Proof.
  revert t. induction ls as [|[addr w] ls IH]; intros t Hne; simpl in *; [done|].
  rewrite elem_of_cons in Hne. rewrite IH by naive_solver. rewrite holder_acquire_one. naive_solver.
Qed.

(** When no account is named twice, the modes are those asked for. *)
Lemma holder_acquire k ls t a w :
  NoDup ls.*1 → (a, w) ∈ ls → holder (fold_left (LockManager.acquire_one k) ls t) a k w.
Proof.
  revert t. induction ls as [|[addr w0] ls IH]; intros t Hnd Hin; simpl in *.
  { by apply elem_of_nil in Hin. }
  apply NoDup_cons in Hnd as [Hn Hnd]. apply elem_of_cons in Hin as [[= <- <-]|Hin]; [|by apply IH].
  rewrite holder_acquire_other by naive_solver. rewrite holder_acquire_one. by left.
Qed.

Lemma nonempty_acquire k ls t :
  map_Forall (λ _ l, lockers l ≠ ∅) t →
  map_Forall (λ _ l, lockers l ≠ ∅) (fold_left (LockManager.acquire_one k) ls t).
Proof. revert t. induction ls; intros t Ht; simpl; [done|]. by apply IHls, nonempty_acquire_one. Qed.

Lemma nonempty_release k ls t :
  map_Forall (λ _ l, lockers l ≠ ∅) t →
  map_Forall (λ _ l, lockers l ≠ ∅) (fold_left (LockManager.release_one k) ls t).
Proof. revert t. induction ls; intros t Ht; simpl; [done|]. by apply IHls, nonempty_release_one. Qed.

(** A table without empty entries is determined by its holders. *)
Lemma holder_ext t t' :
  map_Forall (λ _ l, lockers l ≠ ∅) t → map_Forall (λ _ l, lockers l ≠ ∅) t' →
  (∀ a k w, holder t a k w ↔ holder t' a k w) → t = t'.
Proof.
  intros Ht Ht' Hh.
  assert (∀ t1 t2 a l1, (∀ a k w, holder t1 a k w ↔ holder t2 a k w) →
    t1 !! a = Some l1 → lockers l1 ≠ ∅ → ∃ l2, t2 !! a = Some l2 ∧ lockers l2 = lockers l1) as Hhalf.
  { intros t1 t2 a l1 H12 Hl1 Hne. apply map_choose in Hne as (k & w & Hk).
    destruct (proj1 (H12 a k w)) as (l2 & Hl2 & _); [by exists l1|]. exists l2. split; [done|].
    apply map_eq. intros k'. apply option_eq. intros w'. split; intros Hk'.
    - destruct (proj2 (H12 a k' w')) as (l & Hl & ?); [by exists l2|]. congruence.
    - destruct (proj1 (H12 a k' w')) as (l & Hl & ?); [by exists l1|]. congruence. }
  assert (∀ l1 l2 : AccountLockers, lockers l2 = lockers l1 → l2 = l1) as Heq.
  { intros [] []. simpl. by intros ->. }
  apply map_eq. intros a. apply option_eq. intros l. split; intros Hl.
  - destruct (Hhalf t t' a l Hh Hl (Ht a l Hl)) as (l2 & Hl2 & ->%Heq). done.
  - destruct (Hhalf t' t a l) as (l2 & Hl2 & ->%Heq); [|done|by apply (Ht' a)|done].
    intros. by rewrite Hh.
Qed.

(** What [try_acquire] tests. *)
Lemma try_acquire_spec ls m :
  map_Forall (λ _ l, lockers l ≠ ∅) (account_locks m) →
  LockManager.try_acquire ls m = true ↔
    ∀ a w k w', (a, w) ∈ ls → holder (account_locks m) a k w' → w = false ∧ w' = false.
Proof.
  intros Ht. unfold LockManager.try_acquire. rewrite forallb_forall. setoid_rewrite <- list_elem_of_In.
  split.
  - intros Hall a w k w' Hin (l & Hl & Hk). specialize (Hall _ Hin). simpl in Hall.
    rewrite Hl in Hall. unfold AccountLockers.can_lock in Hall. destruct w.
    + case_bool_decide as He; [|done]. by rewrite He, lookup_empty in Hk.
    + case_bool_decide as He; [|done]. split; [done|by apply (He k)].
  - intros Hall [a w] Hin. simpl. destruct (account_locks m !! a) as [l|] eqn:Hl; [|done].
    unfold AccountLockers.can_lock. destruct w.
    + specialize (Ht a l Hl). apply map_choose in Ht as (k & w' & Hk).
      destruct (Hall a true k w' Hin) as [? _]; [by exists l|done].
    + apply bool_decide_eq_true_2. intros k w' Hk. by apply (Hall a false k w' Hin); exists l.
Qed.

Lemma exclusive_acquire k ls t :
  exclusive t →
  (∀ a w k' w', (a, w) ∈ ls → holder t a k' w' → w = false ∧ w' = false) →
  exclusive (fold_left (LockManager.acquire_one k) ls t).
Proof.
  intros Ht Hfree.
  assert (∀ a w k' w', (a, w) ∈ ls → holder t a k' w' → k' ≠ k → w = false ∧ w' = false) as Hf by naive_solver.
  clear Hfree. revert t Ht Hf. induction ls as [|[addr w] ls IH]; intros t Ht Hf; simpl; [done|].
  apply IH.
  - split; [apply nonempty_acquire_one, Ht|]. intros a k1 w1 k2 w2.
    rewrite !holder_acquire_one. intros [(-> & -> & ->)|[Hn1 H1]] [(? & -> & ->)|[Hn2 H2]] Hne; subst; try done.
    + eapply Hf; [by left|done|done].
    + apply and_comm. eapply Hf; [by left|done|done].
    + by eapply (excl_alone _ Ht).
  - intros a w1 k' w' Hin. rewrite holder_acquire_one. intros [(_ & -> & _)|[_ Hh]] Hne; [done|].
    eapply Hf; [by right|done|done].
Qed.

Lemma exclusive_release k ls t :
  exclusive t → exclusive (fold_left (LockManager.release_one k) ls t).
Proof.
  intros Ht. split; [apply nonempty_release, Ht|]. intros a k1 w1 k2 w2.
  rewrite !holder_release. intros [_ H1] [_ H2]. by eapply (excl_alone _ Ht).
Qed.

Lemma release_acquire_id k ls t :
  exclusive t → (∀ a w, a ∈ ls.*1 → ¬ holder t a k w) →
  fold_left (LockManager.release_one k) ls (fold_left (LockManager.acquire_one k) ls t) = t.
Proof.
  intros Ht Hnone. apply holder_ext; [by apply nonempty_release, nonempty_acquire, Ht|apply Ht|].
  intros a k' w'. rewrite holder_release. split.
  - intros [Hne Hh]. by rewrite holder_acquire_other in Hh.
  - intros Hh. assert (¬ (k' = k ∧ a ∈ ls.*1)) as Hne by naive_solver.
    split; [done|]. by rewrite holder_acquire_other.
Qed.

(** ** Queue depths *)

Lemma lookup_queue ls q a :
  NoDup ls.*1 → (∀ a, a ∈ ls.*1 → q !! a = None) →
  fold_left LockManager.queue_one ls q !! a =
    if decide (a ∈ ls.*1) then Some (f64_add f64_zero f64_one) else q !! a.
Proof.
  revert q. induction ls as [|[addr w] ls IH]; intros q Hnd Hq; simpl in *; [done|].
  apply NoDup_cons in Hnd as [Hn Hnd]. rewrite IH; [|done|].
  - unfold LockManager.queue_one at 1. simpl. rewrite (Hq addr) by (by left).
    destruct (decide (a = addr)) as [->|Hne].
    + rewrite decide_False by done. rewrite decide_True by (by left). by rewrite lookup_insert_eq.
    + rewrite lookup_insert_ne by done. destruct (decide (a ∈ ls.*1)).
      * by rewrite decide_True by (by right).
      * rewrite decide_False; [done|]. by rewrite not_elem_of_cons.
  - intros a' Ha'. unfold LockManager.queue_one. simpl. rewrite lookup_insert_ne by (by intros ->).
    apply Hq. by right.
Qed.

Lemma lookup_dequeue ls q a :
  NoDup ls.*1 → (∀ a, a ∈ ls.*1 → q !! a = Some (f64_add f64_zero f64_one)) →
  fold_left LockManager.dequeue_one ls q !! a = if decide (a ∈ ls.*1) then None else q !! a.
Proof.
  revert q. induction ls as [|[addr w] ls IH]; intros q Hnd Hq; simpl in *; [done|].
  apply NoDup_cons in Hnd as [Hn Hnd].
  assert (LockManager.dequeue_one q (addr, w) = delete addr q) as Hd.
  { unfold LockManager.dequeue_one. simpl. rewrite (Hq addr) by (by left). by vm_compute. }
  rewrite Hd, IH; [|done|].
  - destruct (decide (a = addr)) as [->|Hne].
    + rewrite decide_False by done. rewrite decide_True by (by left). by rewrite lookup_delete_eq.
    + rewrite lookup_delete_ne by done. destruct (decide (a ∈ ls.*1)).
      * by rewrite decide_True by (by right).
      * rewrite decide_False; [done|]. by rewrite not_elem_of_cons.
  - intros a' Ha'. rewrite lookup_delete_ne by (by intros ->). apply Hq. by right.
Qed.

(** ** Properties *)

(** Releasing a transaction right after acquiring its locks gives the lock
    table back, if the transaction held none of these accounts. *)
Lemma lock_manager_release_acquire k ls m :
  exclusive (account_locks m) → (∀ a w, a ∈ ls.*1 → ¬ holder (account_locks m) a k w) →
  LockManager.release k ls (LockManager.acquire k ls m) = m.
Proof.
  intros Ht Hnone. destruct m as [t q r]. unfold LockManager.release, LockManager.acquire. simpl in *.
  by rewrite release_acquire_id.
Qed.

(** Leaving the queue right after entering it leaves no trace on accounts
    nobody else queues for. *)
Theorem dequeue_queue_transaction ls m :
  NoDup ls.*1 → (∀ a, a ∈ ls.*1 → queue_depths m !! a = None) →
  LockManager.dequeue_transaction ls (LockManager.queue_transaction ls m) = m.
Proof.
  intros Hnd Hq. destruct m as [t q r]. unfold LockManager.dequeue_transaction, LockManager.queue_transaction.
  simpl in *. f_equal. apply map_eq. intros a. rewrite lookup_dequeue; [|done|].
  - case_decide; [by rewrite Hq|]. rewrite lookup_queue by done. by rewrite decide_False.
  - intros a' Ha'. rewrite lookup_queue by done. by rewrite decide_True.
Qed.

(** The serialization penalty is never below 0 nor above 0.99, however
    deep the queues are. *)
Theorem serialization_penalty_range ls m :
  f64_lt (LockManager.serialization_penalty ls m) f64_zero = false ∧
  f64_lt (f64_lit 99 100) (LockManager.serialization_penalty ls m) = false.
Proof. apply f64_clamp_range. by vm_compute. Qed.
