(* ===== verification/AuctionEngine.v ===== *)
(** * The auction engine
    (schedulers/auction-batch-scheduler/src/auction_engine.rs, second part)

    Prices, entropy, CU allocation, batches and their scoring.  All of it is
    pure state; [now] is an argument of [process_tick]. *)

From S2P Require Import Prelude F64 Types AuctionLocks.

(** ** Configuration and statistics *)

Record AuctionEngineConfig := {
  cu_alpha : f64;
  lock_alpha : f64;
  time_alpha : f64;
  space_alpha : f64;
  cfg_promote_threshold : f64;
  cfg_release_threshold : f64;
  lock_decay_rate : f64;
  entropy_theta : f64;
  entropy_k : f64;
  max_tick_ms : f64;
  cfg_base_cu_price : f64;
  cfg_base_write_lock_price : f64;
  cfg_base_read_lock_price : f64;
  cfg_base_time_price : f64;
  cfg_base_space_price : f64;
}.

Definition AuctionEngineConfig_default : AuctionEngineConfig := {|
  cu_alpha := f64_lit 1 10;
  lock_alpha := f64_lit 15 100;
  time_alpha := f64_lit 2 10;
  space_alpha := f64_lit 5 100;
  cfg_promote_threshold := f64_of_Z 5;
  cfg_release_threshold := f64_lit 5 10;
  lock_decay_rate := f64_lit 1 10;
  entropy_theta := f64_lit 5 10;
  entropy_k := f64_of_Z 2;
  max_tick_ms := f64_lit 15 10;
  cfg_base_cu_price := f64_lit 1 100;
  cfg_base_write_lock_price := f64_of_Z 1000;
  cfg_base_read_lock_price := f64_of_Z 200;
  cfg_base_time_price := f64_of_Z 500;
  cfg_base_space_price := f64_of_Z 1000;
|}.

Record TickStats := {
  ts_cu_demand : f64;
  ts_lock_demand : f64;
  ts_time_elapsed : f64;
  ts_fragmentation : f64;
  ts_p90_price : f64;
  ts_cu_variance : f64;
  ts_lock_variance : f64;
}.

Definition TickStats_default : TickStats := {|
  ts_cu_demand := f64_zero; ts_lock_demand := f64_zero; ts_time_elapsed := f64_zero;
  ts_fragmentation := f64_zero; ts_p90_price := f64_zero; ts_cu_variance := f64_zero;
  ts_lock_variance := f64_zero |}.

(** ** Prices *)

Definition MIN_PRICE : f64 := f64_lit 1 1000.
Definition MAX_PRICE : f64 := f64_of_Z 10.

(** A ring of the last 64 demands ([head] counts all of them; that a [usize]
    does not overflow within a run is assumed). *)
Record SlidingDemand := { samples : list f64; head : nat; count : nat }.

Definition SlidingDemand_default : SlidingDemand :=
  {| samples := replicate 64 f64_zero; head := 0; count := 0 |}.

Module SlidingDemand.
Definition add (value : f64) (d : SlidingDemand) : SlidingDemand := {|
  samples := <[head d `mod` length (samples d) := value]> (samples d);
  count := if (count d <? length (samples d))%nat then (count d + 1)%nat else count d;
  head := (head d + 1)%nat;
|}%nat.

Definition average (d : SlidingDemand) : f64 :=
  if (count d =? 0)%nat then f64_zero
  else f64_div (f64_sum (samples d)) (f64_of_Z (Z.of_nat (count d))).
End SlidingDemand.

Record EWMA := { value : f64; alpha : f64 }.

#[export] Instance EWMA_eta : Eta EWMA := λ e, {| value := value e; alpha := alpha e |}.

Module EWMA.
Definition new (a : f64) : EWMA := {| value := f64_zero; alpha := a |}.

Definition update (observation : f64) (e : EWMA) : EWMA :=
  e <| value := f64_add (f64_mul (alpha e) observation)
                  (f64_mul (f64_sub f64_one (alpha e)) (value e)) |>.
End EWMA.

Record ResourcePrices := {
  cu : EWMA;
  lock : EWMA;
  time : EWMA;
  space : EWMA;
  cu_demand : SlidingDemand;
  lock_demand : SlidingDemand;
  base_cu_price : f64;
  base_write_lock_price : f64;
  base_read_lock_price : f64;
  base_time_price : f64;
  base_space_price : f64;
}.

#[export] Instance ResourcePrices_eta : Eta ResourcePrices := λ p, {|
  cu := cu p; lock := lock p; time := time p; space := space p;
  cu_demand := cu_demand p; lock_demand := lock_demand p;
  base_cu_price := base_cu_price p;
  base_write_lock_price := base_write_lock_price p;
  base_read_lock_price := base_read_lock_price p;
  base_time_price := base_time_price p;
  base_space_price := base_space_price p;
|}.

(** [(demand / capacity).clamp(MIN_PRICE, MAX_PRICE)], or [MAX_PRICE] when
    there is no capacity. *)
Definition utilization (demand capacity : f64) : f64 :=
  if f64_lt f64_zero capacity then f64_clamp MIN_PRICE MAX_PRICE (f64_div demand capacity)
  else MAX_PRICE.

Module ResourcePrices.
Definition new (config : AuctionEngineConfig) : ResourcePrices := {|
  cu := EWMA.new (cu_alpha config);
  lock := EWMA.new (lock_alpha config);
  time := EWMA.new (time_alpha config);
  space := EWMA.new (space_alpha config);
  cu_demand := SlidingDemand_default;
  lock_demand := SlidingDemand_default;
  base_cu_price := cfg_base_cu_price config;
  base_write_lock_price := cfg_base_write_lock_price config;
  base_read_lock_price := cfg_base_read_lock_price config;
  base_time_price := cfg_base_time_price config;
  base_space_price := cfg_base_space_price config;
|}.

Definition update (cu_dem cu_capacity lock_dem lock_capacity time_elapsed ms_remaining fragmentation
    _space_available : f64) (p : ResourcePrices) : ResourcePrices :=
  p <| cu ::= EWMA.update (utilization cu_dem cu_capacity) |>
    <| lock ::= EWMA.update (utilization lock_dem lock_capacity) |>
    <| time ::= EWMA.update (utilization time_elapsed ms_remaining) |>
    <| space ::= EWMA.update (f64_clamp MIN_PRICE MAX_PRICE fragmentation) |>
    <| cu_demand ::= SlidingDemand.add cu_dem |>
    <| lock_demand ::= SlidingDemand.add lock_dem |>.

Definition total_cost (cus : Z) (num_write_locks num_read_locks : nat) (p : ResourcePrices) : f64 :=
  let effective_cu := f64_max (f64_of_Z cus) f64_one in
  let cu_cost := f64_mul (f64_mul effective_cu (value (cu p))) (base_cu_price p) in
  let write_lock_cost :=
    f64_mul (f64_mul (f64_of_Z (Z.of_nat num_write_locks)) (value (lock p))) (base_write_lock_price p) in
  let read_lock_cost :=
    f64_mul (f64_mul (f64_of_Z (Z.of_nat num_read_locks)) (value (lock p))) (base_read_lock_price p) in
  let time_cost := f64_mul (value (time p)) (base_time_price p) in
  let space_cost := f64_mul (value (space p)) (base_space_price p) in
  f64_add (f64_add (f64_add (f64_add cu_cost write_lock_cost) read_lock_cost) time_cost) space_cost.

(** CU and lock prices carry over to the next slot. *)
Definition reset (p : ResourcePrices) : ResourcePrices :=
  p <| time ::= λ e, e <| value := MIN_PRICE |> |>
    <| space ::= λ e, e <| value := MIN_PRICE |> |>
    <| cu_demand := SlidingDemand_default |>
    <| lock_demand := SlidingDemand_default |>.
End ResourcePrices.

(** ** Entropy *)

Record OpportunityEntropy := { entropy_value : f64; theta : f64; k_flex : f64 }.

#[export] Instance OpportunityEntropy_eta : Eta OpportunityEntropy := λ e, {|
  entropy_value := entropy_value e; theta := theta e; k_flex := k_flex e |}.

Definition OpportunityEntropy_default : OpportunityEntropy :=
  {| entropy_value := f64_zero; theta := f64_lit 5 10; k_flex := f64_of_Z 2 |}.

Module OpportunityEntropy.
Definition update `{LibM} (p90_price : f64) (lock_count : Z) (cu_dem : f64) (e : OpportunityEntropy)
    : OpportunityEntropy :=
  let activity_ratio :=
    if 0 <? lock_count then f64_div cu_dem (f64_mul (f64_of_Z lock_count) (f64_of_Z 1000))
    else f64_div cu_dem (f64_of_Z 1000) in
  let current_entropy :=
    f64_min (f64_mul (f64_ln (f64_max activity_ratio f64_one)) (f64_add f64_one p90_price))
      (f64_of_Z 10) in
  e <| entropy_value := f64_add (f64_mul (f64_lit 9 10) (entropy_value e))
                          (f64_mul (f64_lit 1 10) current_entropy) |>.

Definition flexibility_coeff (th k : f64) (e : OpportunityEntropy) : f64 :=
  f64_mul k (f64_sub f64_one
    (f64_div f64_one (f64_add f64_one (f64_mul th (f64_abs (entropy_value e)))))).

Definition reset (e : OpportunityEntropy) : OpportunityEntropy := e <| entropy_value := f64_zero |>.
End OpportunityEntropy.

(** ** CU allocation *)

Record CUAllocation := {
  max_cu : Z;
  committed : Z;
  tentative : Z;
  promote_threshold : f64;
  release_threshold : f64;
}.

#[export] Instance CUAllocation_eta : Eta CUAllocation := λ a, {|
  max_cu := max_cu a; committed := committed a; tentative := tentative a;
  promote_threshold := promote_threshold a; release_threshold := release_threshold a |}.

Module CUAllocation.
Definition new (max : Z) (promote release : f64) : CUAllocation := {|
  max_cu := max; committed := 0; tentative := 0;
  promote_threshold := promote; release_threshold := release |}.

Definition available_cu `{Profile} (a : CUAllocation) : Res Z :=
  used ← u64_add "available_cu" (committed a) (tentative a);
  if max_cu a <? used then mret 0
  else
    rest ← u64_sub "available_cu: committed" (max_cu a) (committed a);
    u64_sub "available_cu: tentative" rest (tentative a).

Definition reserve `{Profile} (cus : Z) (a : CUAllocation) : Res (bool * CUAllocation) :=
  avail ← available_cu a;
  if cus <=? avail then
    t ← u64_add "reserve" (tentative a) cus;
    mret (true, a <| tentative := t |>)
  else mret (false, a).

Definition commit `{Profile} (a : CUAllocation) : Res CUAllocation :=
  c ← u64_add "commit" (committed a) (tentative a);
  mret (a <| committed := c |> <| tentative := 0 |>).

Definition release (a : CUAllocation) : CUAllocation := a <| tentative := 0 |>.

Definition adjust (_price : f64) (a : CUAllocation) : CUAllocation := a.

Definition reset (a : CUAllocation) : CUAllocation := a <| committed := 0 |> <| tentative := 0 |>.
End CUAllocation.

(** ** Batches *)

Record TransactionCandidate := {
  cu_limit : Z;
  all_locks : list (Pubkey * bool);
  priority_fee : Z;
}.

Record TransactionBatch := {
  cu_used : Z;
  batch_locks : gmap Pubkey bool;
  transactions : list TransactionCandidate;
}.

Module TransactionBatch.
Definition new : TransactionBatch := {| cu_used := 0; batch_locks := ∅; transactions := [] |}.

(** The conflicts of one lock: a write with whatever the batch holds. *)
Definition lock_conflict (b : TransactionBatch) (aw : Pubkey * bool) : bool :=
  match batch_locks b !! aw.1 with
  | Some existing => (aw.2 && existing) || (aw.2 && negb existing)
  | None => false
  end.

Definition can_add `{Profile} (tx_locks : list (Pubkey * bool)) (cus max : Z) (b : TransactionBatch)
    : Res bool :=
  total ← u64_add "can_add" (cu_used b) cus;
  if max <? total then mret false
  else mret (negb (existsb (lock_conflict b) tx_locks)).

Definition add `{Profile} (tx : TransactionCandidate) (b : TransactionBatch) : Res TransactionBatch :=
  total ← u64_add "add" (cu_used b) (cu_limit tx);
  mret {| cu_used := total;
          batch_locks := fold_left (λ ls aw, <[aw.1 := aw.2]> ls) (all_locks tx) (batch_locks b);
          transactions := transactions b ++ [tx] |}.

Definition len (b : TransactionBatch) : nat := length (transactions b).
Definition is_empty (b : TransactionBatch) : bool := (len b =? 0)%nat.
End TransactionBatch.

Record BatchScoringConfig := { acceptance_threshold : f64 }.

Definition BatchScoringConfig_default : BatchScoringConfig := {| acceptance_threshold := f64_zero |}.

Record BatchScorer := { scoring_config : BatchScoringConfig }.

Definition BatchScorer_default : BatchScorer := {| scoring_config := BatchScoringConfig_default |}.

(** The write locks and the others. *)
Definition count_locks (ls : list (Pubkey * bool)) : nat * nat :=
  let num_write_locks := length (List.filter snd ls) in
  (num_write_locks, (length ls - num_write_locks)%nat).

Module BatchScorer.
Definition auction_surplus (tx : TransactionCandidate) (prices : ResourcePrices) (s : BatchScorer) : f64 :=
  let '(num_write_locks, num_read_locks) := count_locks (all_locks tx) in
  f64_sub (f64_of_Z (priority_fee tx))
    (ResourcePrices.total_cost (cu_limit tx) num_write_locks num_read_locks prices).

Definition should_accept (tx : TransactionCandidate) (prices : ResourcePrices) (s : BatchScorer) : bool :=
  f64_lt (acceptance_threshold (scoring_config s)) (auction_surplus tx prices s).

(** One round of [find_best_batch]'s loop. *)
Definition consider `{Profile} (tx : TransactionCandidate) (prices : ResourcePrices) (max : Z)
    (s : BatchScorer) (idx : nat) (b : TransactionBatch) (best : option nat * f64)
    : Res (option nat * f64) :=
  ok ← TransactionBatch.can_add (all_locks tx) (cu_limit tx) max b;
  if ok : bool then
    let surplus := auction_surplus tx prices s in
    if f64_lt best.2 surplus then mret (Some idx, surplus) else mret best
  else mret best.

Fixpoint find_loop `{Profile} (tx : TransactionCandidate) (prices : ResourcePrices) (max : Z)
    (s : BatchScorer) (idx : nat) (batches : list TransactionBatch) (best : option nat * f64)
    : Res (option nat * f64) :=
  match batches with
  | [] => mret best
  | b :: batches' =>
      best' ← consider tx prices max s idx b best;
      find_loop tx prices max s (idx + 1) batches' best'
  end.

Definition find_best_batch `{Profile} (tx : TransactionCandidate) (batches : list TransactionBatch)
    (prices : ResourcePrices) (max : Z) (s : BatchScorer) : Res (option nat) :=
  best ← find_loop tx prices max s 0 batches (None, f64_neg_infinity);
  mret best.1.
End BatchScorer.

(** ** The engine *)

Record AuctionEngine := {
  config : AuctionEngineConfig;
  prices : ResourcePrices;
  entropy : OpportunityEntropy;
  cu_allocation : CUAllocation;
  lock_manager : LockManager;
  scorer : BatchScorer;
  tick_stats : TickStats;
  last_tick_time : option Z;
}.

#[export] Instance AuctionEngine_eta : Eta AuctionEngine := λ e, {|
  config := config e; prices := prices e; entropy := entropy e;
  cu_allocation := cu_allocation e; lock_manager := lock_manager e; scorer := scorer e;
  tick_stats := tick_stats e; last_tick_time := last_tick_time e;
|}.

Module AuctionEngine.
Definition update_base_prices (base_cu base_write_lock base_read_lock base_time base_space : f64)
    (e : AuctionEngine) : AuctionEngine :=
  e <| prices ::= λ p,
    p <| base_cu_price := base_cu |>
      <| base_write_lock_price := base_write_lock |>
      <| base_read_lock_price := base_read_lock |>
      <| base_time_price := base_time |>
      <| base_space_price := base_space |> |>.

Definition new (c : AuctionEngineConfig) (max_block_cu : Z) : AuctionEngine := {|
  config := c;
  prices := ResourcePrices.new c;
  entropy := OpportunityEntropy_default;
  cu_allocation := CUAllocation.new max_block_cu (cfg_promote_threshold c) (cfg_release_threshold c);
  lock_manager := LockManager.with_decay_rate (lock_decay_rate c);
  scorer := BatchScorer_default;
  tick_stats := TickStats_default;
  last_tick_time := None;
|}.

(** [as_millis() as f64] of the time since the last tick. *)
Definition elapsed_since_tick (now : Z) (e : AuctionEngine) : f64 :=
  match last_tick_time e with
  | Some last => f64_of_Z (Z.max 0 (now - last) / 1000000)
  | None => f64_one
  end.

Definition process_tick `{LibM} (now : Z) (stats : TickStats) (remaining_cu : Z) (ms_remaining : f64)
    (e : AuctionEngine) : AuctionEngine :=
  let time_elapsed := elapsed_since_tick now e in
  let e := e <| last_tick_time := Some now |> in
  let e := e <| prices ::= ResourcePrices.update (ts_cu_demand stats) (f64_of_Z remaining_cu)
                (ts_lock_demand stats) (f64_of_Z 100) time_elapsed ms_remaining
                (ts_fragmentation stats) (f64_of_Z remaining_cu) |> in
  let e := e <| entropy ::= OpportunityEntropy.update (ts_p90_price stats)
                (f64_to_u64 (ts_lock_demand stats)) (ts_cu_demand stats) |> in
  let e := e <| lock_manager ::= LockManager.decay time_elapsed |> in
  let e := e <| cu_allocation ::= CUAllocation.adjust (value (cu (prices e))) |> in
  e <| tick_stats := stats |>.

Definition score_transaction (tx : TransactionCandidate) (e : AuctionEngine) : f64 :=
  BatchScorer.auction_surplus tx (prices e) (scorer e).

Definition should_accept (tx : TransactionCandidate) (e : AuctionEngine) : bool :=
  BatchScorer.should_accept tx (prices e) (scorer e).

Definition accepts (tx : TransactionCandidate) (e : AuctionEngine) : bool :=
  f64_lt (acceptance_threshold (scoring_config (scorer e))) (score_transaction tx e).

Definition find_best_batch `{Profile} (tx : TransactionCandidate) (batches : list TransactionBatch)
    (max : Z) (e : AuctionEngine) : Res (option nat) :=
  BatchScorer.find_best_batch tx batches (prices e) max (scorer e).

(** [batches[idx].add(tx)]. *)
Definition add_at `{Profile} (idx : nat) (tx : TransactionCandidate) (batches : list TransactionBatch)
    : Res (list TransactionBatch) :=
  match batches !! idx with
  | None => Panicked (PUnwrap "batches[idx]")
  | Some b => b' ← TransactionBatch.add tx b; mret (<[idx := b']> batches)
  end.

(** One candidate of [build_batches]. *)
Definition place `{Profile} (max : Z) (e : AuctionEngine) (batches : list TransactionBatch)
    (tx : TransactionCandidate) : Res (list TransactionBatch) :=
  best ← find_best_batch tx batches max e;
  match best with
  | Some batch_idx => add_at batch_idx tx batches
  | None =>
      ok ← TransactionBatch.can_add (all_locks tx) (cu_limit tx) max TransactionBatch.new;
      if (ok : bool) && accepts tx e then
        new_batch ← TransactionBatch.add tx TransactionBatch.new;
        mret (batches ++ [new_batch])
      else mret batches
  end.

Fixpoint build_loop `{Profile} (max : Z) (e : AuctionEngine) (candidates : list TransactionCandidate)
    (batches : list TransactionBatch) : Res (list TransactionBatch) :=
  match candidates with
  | [] => mret batches
  | tx :: candidates' =>
      batches' ← place max e batches tx;
      build_loop max e candidates' batches'
  end.

Definition build_batches `{Profile} (candidates : list TransactionCandidate) (max : Z) (e : AuctionEngine)
    : Res (list TransactionBatch) :=
  build_loop max e candidates [].

(** The pre-scan of [build_bundle_batch]: all of the bundle in one batch. *)
Fixpoint prescan `{Profile} (max : Z) (bundle_txs : list TransactionCandidate) (b : TransactionBatch)
    : Res (option TransactionBatch) :=
  match bundle_txs with
  | [] => mret (Some b)
  | tx :: bundle_txs' =>
      ok ← TransactionBatch.can_add (all_locks tx) (cu_limit tx) max b;
      if ok : bool then
        b' ← TransactionBatch.add tx b;
        prescan max bundle_txs' b'
      else mret None
  end.

Fixpoint add_all_at `{Profile} (idx : nat) (txs : list TransactionCandidate)
    (batches : list TransactionBatch) : Res (list TransactionBatch) :=
  match txs with
  | [] => mret batches
  | tx :: txs' =>
      batches' ← add_at idx tx batches;
      add_all_at idx txs' batches'
  end.

(** Answers the batch of the bundle, and the batches as they are afterwards. *)
Definition build_bundle_batch `{Profile} (bundle_txs : list TransactionCandidate)
    (existing_batches : list TransactionBatch) (max : Z) (e : AuctionEngine)
    : Res (option TransactionBatch * list TransactionBatch) :=
  scan ← prescan max bundle_txs TransactionBatch.new;
  match scan with
  | None => mret (None, existing_batches)
  | Some candidate_batch =>
      match bundle_txs with
      | [] => Panicked (PUnwrap "bundle_txs.first()")
      | first :: _ =>
          best ← find_best_batch first existing_batches max e;
          match best with
          | Some batch_idx =>
              batches' ← add_all_at batch_idx bundle_txs existing_batches;
              mret (batches' !! batch_idx, batches')
          | None =>
              if accepts first e
              then mret (Some candidate_batch, existing_batches ++ [candidate_batch])
              else mret (None, existing_batches)
          end
      end
  end.

(** Schedule-time locking. *)
Definition acquire_locks (tx_key : TransactionKey) (tx_locks : list (Pubkey * bool)) (e : AuctionEngine)
    : bool * AuctionEngine :=
  if LockManager.try_acquire tx_locks (lock_manager e)
  then (true, e <| lock_manager ::= LockManager.acquire tx_key tx_locks |>)
  else (false, e).

Definition release_locks (tx_key : TransactionKey) (tx_locks : list (Pubkey * bool)) (e : AuctionEngine)
    : AuctionEngine :=
  e <| lock_manager ::= λ m,
    m <| account_locks ::= λ t, fold_left (LockManager.release_one tx_key) tx_locks t |> |>.

Definition queue_transaction (tx_locks : list (Pubkey * bool)) (e : AuctionEngine) : AuctionEngine :=
  e <| lock_manager ::= LockManager.queue_transaction tx_locks |>.

Definition dequeue_transaction (tx_locks : list (Pubkey * bool)) (e : AuctionEngine) : AuctionEngine :=
  e <| lock_manager ::= LockManager.dequeue_transaction tx_locks |>.

Definition available_cu `{Profile} (e : AuctionEngine) : Res Z := CUAllocation.available_cu (cu_allocation e).
Definition cu_price (e : AuctionEngine) : f64 := value (cu (prices e)).
Definition lock_price (e : AuctionEngine) : f64 := value (lock (prices e)).

Definition flexibility_coeff (e : AuctionEngine) : f64 :=
  OpportunityEntropy.flexibility_coeff (entropy_theta (config e)) (entropy_k (config e)) (entropy e).

Definition reset (e : AuctionEngine) : AuctionEngine :=
  e <| lock_manager ::= LockManager.reset |>
    <| prices ::= ResourcePrices.reset |>
    <| entropy ::= OpportunityEntropy.reset |>
    <| cu_allocation ::= CUAllocation.reset |>
    <| last_tick_time := None |>.
End AuctionEngine.
