(* ===== verification/AuctionBatches.v ===== *)
(** * Batches of the auction engine

    [find_best_batch] is first fit; [build_batches] partitions what it accepts
    into batches that respect the CU bound and never write an account that an
    earlier transaction of the batch locks; [build_bundle_batch] places a
    bundle as a whole or not at all. *)

From S2P Require Import Prelude F64 Types AuctionLocks AuctionEngine.

Section Batches.
Context `{Profile}.

Definition cus_of (txs : list TransactionCandidate) : Z := foldr (λ tx c, cu_limit tx + c) 0 txs.

Lemma cus_of_snoc txs tx : cus_of (txs ++ [tx]) = cus_of txs + cu_limit tx.
Proof. induction txs as [|t txs IH]; simpl; lia. Qed.

Lemma cus_of_app txs txs' : cus_of (txs ++ txs') = cus_of txs + cus_of txs'.
Proof. induction txs as [|t txs IH]; simpl; lia. Qed.

Lemma cus_of_nonneg txs : Forall (λ tx, 0 ≤ cu_limit tx) txs → 0 ≤ cus_of txs.
Proof. induction 1; simpl; lia. Qed.

(** ** First fit *)

(** [can_add] without its overflow. *)
Definition fits (tx : TransactionCandidate) (max : Z) (b : TransactionBatch) : bool :=
  (cu_used b + cu_limit tx <=? max) && negb (existsb (TransactionBatch.lock_conflict b) (all_locks tx)).

Lemma can_add_fits tx max b :
  0 ≤ cu_used b → 0 ≤ cu_limit tx → cu_used b + cu_limit tx ≤ U64_MAX →
  TransactionBatch.can_add (all_locks tx) (cu_limit tx) max b = Ok (fits tx max b).
Proof.
  intros Hb Ht Hsum. unfold TransactionBatch.can_add. rewrite u64_add_ok by done. simpl.
  unfold fits. destruct (Z.ltb_spec max (cu_used b + cu_limit tx)).
  - by rewrite (proj2 (Z.leb_gt _ _)).
  - by rewrite (proj2 (Z.leb_le _ _)).
Qed.

(** No batch overflows the addition of [tx]. *)
Definition roomy (tx : TransactionCandidate) (b : TransactionBatch) : Prop :=
  0 ≤ cu_used b ∧ 0 ≤ cu_limit tx ∧ cu_used b + cu_limit tx ≤ U64_MAX.

(** Once a batch is found, the others cannot beat it: all surpluses are equal. *)
Lemma find_loop_found tx p max s idx batches i :
  Forall (roomy tx) batches →
  BatchScorer.find_loop tx p max s idx batches (Some i, BatchScorer.auction_surplus tx p s)
    = Ok (Some i, BatchScorer.auction_surplus tx p s).
Proof.
  intros Hr. revert idx. induction Hr as [|b batches (? & ? & ?) _ IH]; intros idx; simpl; [done|].
  unfold BatchScorer.consider. rewrite can_add_fits by done. simpl.
  destruct (fits tx max b); simpl; [|apply IH]. rewrite f64_lt_irrefl. apply IH.
Qed.

Lemma find_loop_first tx p max s idx batches :
  Forall (roomy tx) batches →
  BatchScorer.find_loop tx p max s idx batches (None, f64_neg_infinity) = Ok
    (if f64_lt f64_neg_infinity (BatchScorer.auction_surplus tx p s) then
       match list_find (λ b, fits tx max b = true) batches with
       | Some (i, _) => (Some (idx + i)%nat, BatchScorer.auction_surplus tx p s)
       | None => (None, f64_neg_infinity)
       end
     else (None, f64_neg_infinity)).
Proof.
  intros Hr. revert idx. induction Hr as [|b batches (? & ? & ?) Hr IH]; intros idx; simpl.
  { by destruct (f64_lt _ _). }
  unfold BatchScorer.consider. rewrite can_add_fits by done. simpl.
  destruct (fits tx max b) eqn:Hf; simpl.
  - destruct (f64_lt f64_neg_infinity (BatchScorer.auction_surplus tx p s)) eqn:Hs; simpl.
    + rewrite find_loop_found by done. by rewrite Nat.add_0_r.
    + by rewrite IH.
  - rewrite IH. destruct (f64_lt _ _); [|done].
    destruct (list_find _ batches) as [[i b']|]; simpl; [|done]. do 3 f_equal. lia.
Qed.

(** What [find_best_batch] computes, as the plain first fit. *)
Definition first_fit (tx : TransactionCandidate) (batches : list TransactionBatch) (p : ResourcePrices)
    (max : Z) (s : BatchScorer) : option nat :=
  if f64_lt f64_neg_infinity (BatchScorer.auction_surplus tx p s)
  then fst <$> list_find (λ b, fits tx max b = true) batches else None.

Lemma find_best_batch_ok tx batches p max s :
  Forall (roomy tx) batches →
  BatchScorer.find_best_batch tx batches p max s = Ok (first_fit tx batches p max s).
Proof.
  intros Hr. unfold BatchScorer.find_best_batch, first_fit. rewrite find_loop_first by done. simpl.
  destruct (f64_lt _ _); [|done]. by destruct (list_find _ batches) as [[i b]|].
Qed.

(** C38: the "best" batch of a transaction is the first batch it fits in: the
    surplus does not depend on the batch. No batch is found when the surplus
    is not above minus infinity. *)
Theorem find_best_batch_first_fit tx batches p max s :
  Forall (roomy tx) batches →
  BatchScorer.find_best_batch tx batches p max s = Ok (first_fit tx batches p max s).
Proof. apply find_best_batch_ok. Qed.

Lemma first_fit_Some tx batches p max s i :
  first_fit tx batches p max s = Some i → ∃ b, batches !! i = Some b ∧ fits tx max b = true.
Proof.
  unfold first_fit. destruct (f64_lt _ _); [|done].
  destruct (list_find _ batches) as [[j b]|] eqn:Hf; [|done]. intros [= <-].
  apply list_find_Some in Hf as (Hj & Hfit & _). by exists b.
Qed.

(** ** Adding to a batch *)

Definition added (tx : TransactionCandidate) (b : TransactionBatch) : TransactionBatch := {|
  cu_used := cu_used b + cu_limit tx;
  batch_locks := fold_left (λ ls aw, <[aw.1 := aw.2]> ls) (all_locks tx) (batch_locks b);
  transactions := transactions b ++ [tx] |}.

Lemma add_added tx b : roomy tx b → TransactionBatch.add tx b = Ok (added tx b).
Proof. intros (? & ? & ?). unfold TransactionBatch.add. by rewrite u64_add_ok. Qed.

Lemma fold_insert_dom (ls : list (Pubkey * bool)) (m : gmap Pubkey bool) a :
  is_Some (fold_left (λ ls aw, <[aw.1 := aw.2]> ls) ls m !! a) ↔ a ∈ ls.*1 ∨ is_Some (m !! a).
Proof.
  revert m. induction ls as [|[x w] ls IH]; intros m; simpl.
  { split; [by right|]. intros [Hin|?]; [|done]. by apply elem_of_nil in Hin. }
  rewrite IH, elem_of_cons. destruct (decide (a = x)) as [->|Hne].
  - rewrite lookup_insert_eq. split; [by left; left|by right; eexists].
  - rewrite lookup_insert_ne by done. naive_solver.
Qed.

(** Whoever writes an account comes before anyone else who locks it. *)
Definition write_exclusive (txs : list TransactionCandidate) : Prop :=
  ∀ i j t t' a, (i < j)%nat → txs !! i = Some t → txs !! j = Some t' →
    (a, true) ∈ all_locks t' → a ∉ (all_locks t).*1.

Record batch_ok (max : Z) (b : TransactionBatch) : Prop := {
  bo_cus : cu_used b = cus_of (transactions b);
  bo_max : cu_used b ≤ max;
  bo_nonneg : Forall (λ tx, 0 ≤ cu_limit tx) (transactions b);
  bo_dom : ∀ a, is_Some (batch_locks b !! a) ↔ ∃ tx, tx ∈ transactions b ∧ a ∈ (all_locks tx).*1;
  bo_writes : write_exclusive (transactions b);
}.

Lemma batch_ok_new max : 0 ≤ max → batch_ok max TransactionBatch.new.
Proof.
  split; simpl; try done.
  intros a. rewrite lookup_empty. split; [by intros []|]. intros (tx & Hin & _).
  by apply elem_of_nil in Hin.
Qed.

Lemma fits_no_writes tx max b a :
  batch_ok max b → fits tx max b = true → (a, true) ∈ all_locks tx →
  ∀ t, t ∈ transactions b → a ∉ (all_locks t).*1.
Proof.
  intros Hb [_ Hc]%andb_true_iff Hin t Ht Ha. apply negb_true_iff in Hc.
  apply Is_true_false in Hc. apply Hc, existb_True, Exists_exists. exists (a, true). split; [done|].
  unfold TransactionBatch.lock_conflict. simpl.
  destruct (proj2 (bo_dom _ _ Hb a)) as [w ->]; [by exists t|]. by destruct w.
Qed.

Lemma batch_ok_added tx max b :
  batch_ok max b → 0 ≤ cu_limit tx → fits tx max b = true → batch_ok max (added tx b).
Proof.
  intros Hb Hc Hf. pose proof Hf as [Hle%Z.leb_le _]%andb_true_iff. split; simpl.
  - rewrite cus_of_snoc. f_equal. apply Hb.
  - done.
  - apply Forall_app. split; [apply Hb|by constructor].
  - intros a. rewrite fold_insert_dom, (bo_dom _ _ Hb). setoid_rewrite elem_of_app.
    setoid_rewrite list_elem_of_singleton. naive_solver.
  - intros i j t t' a Hij Hi Hj Hin. pose proof (lookup_lt_Some _ _ _ Hj) as Hlen.
    rewrite length_app in Hlen. simpl in Hlen.
    assert (i < length (transactions b))%nat as Hlt by lia. rewrite lookup_app_l in Hi by done.
    destruct (decide (j < length (transactions b))%nat) as [Hj'|Hj'].
    + rewrite lookup_app_l in Hj by done. by eapply (bo_writes _ _ Hb i j).
    + rewrite lookup_app_r in Hj by lia. apply list_elem_of_lookup_2 in Hj.
      apply list_elem_of_singleton in Hj as ->.
      eapply fits_no_writes; [done..|]. by apply list_elem_of_lookup_2 in Hi.
Qed.

(** ** [build_batches] *)

Definition admissible (max : Z) (tx : TransactionCandidate) : Prop :=
  0 ≤ cu_limit tx ∧ max + cu_limit tx ≤ U64_MAX.

Definition rejected_by (max : Z) (e : AuctionEngine) (tx : TransactionCandidate) : Prop :=
  max < cu_limit tx ∨ AuctionEngine.accepts tx e = false.

(** The batches after the candidates [seen], [out] of which were rejected. *)
Record built (max : Z) (e : AuctionEngine) (seen out : list TransactionCandidate)
    (batches : list TransactionBatch) : Prop := {
  built_all : seen ≡ₚ concat (transactions <$> batches) ++ out;
  built_out : Forall (rejected_by max e) out;
  built_ok : Forall (λ b, batch_ok max b ∧ transactions b ≠ [] ∧ transactions b `sublist_of` seen) batches;
}.

Lemma batch_ok_roomy max b tx :
  batch_ok max b → admissible max tx → roomy tx b.
Proof.
  intros Hb [Hc Hm]. pose proof (bo_cus _ _ Hb). pose proof (bo_max _ _ Hb).
  pose proof (cus_of_nonneg _ (bo_nonneg _ _ Hb)). split; lia.
Qed.

Lemma add_at_ok idx tx batches b :
  batches !! idx = Some b → roomy tx b →
  AuctionEngine.add_at idx tx batches = Ok (<[idx := added tx b]> batches).
Proof. intros Hb Hr. unfold AuctionEngine.add_at. rewrite Hb, add_added by done. done. Qed.

Lemma concat_insert (batches : list TransactionBatch) idx b b' txs :
  batches !! idx = Some b → transactions b' = transactions b ++ txs →
  concat (transactions <$> <[idx := b']> batches) ≡ₚ concat (transactions <$> batches) ++ txs.
Proof.
  intros Hb Ht. revert idx Hb. induction batches as [|b0 batches IH]; intros [|idx] Hb; simpl in *; try done.
  - injection Hb as ->. rewrite Ht. solve_Permutation.
  - rewrite (IH idx Hb). solve_Permutation.
Qed.

Lemma fits_new tx max : 0 ≤ cu_limit tx → cu_limit tx ≤ max → fits tx max TransactionBatch.new = true.
Proof.
  intros Hc Hm. unfold fits. apply andb_true_iff. split; [by apply Z.leb_le|].
  apply negb_true_iff, Is_true_false. intros Hex%existb_True. apply Exists_exists in Hex as (aw & _ & Hx).
  unfold TransactionBatch.lock_conflict in Hx. simpl in Hx. by rewrite lookup_empty in Hx.
Qed.

Lemma place_spec max e seen out batches tx :
  0 ≤ max → admissible max tx → built max e seen out batches →
  ∃ batches' out', AuctionEngine.place max e batches tx = Ok batches' ∧
    built max e (seen ++ [tx]) out' batches'.
Proof.
  intros Hmax Htx [Hall Hout Hok]. unfold AuctionEngine.place, AuctionEngine.find_best_batch.
  rewrite find_best_batch_ok; last first.
  { eapply Forall_impl; [exact Hok|]. intros b (Hb & _). by eapply batch_ok_roomy. }
  simpl. assert (Forall (λ b, batch_ok max b ∧ transactions b ≠ [] ∧
    transactions b `sublist_of` seen ++ [tx]) batches) as Hok'.
  { eapply Forall_impl; [exact Hok|]. intros b (? & ? & ?). split_and!; [done..|]. by apply sublist_inserts_r. }
  destruct (first_fit _ _ _ _ _) as [idx|] eqn:Hff.
  - apply first_fit_Some in Hff as (b & Hb & Hf).
    destruct (Forall_lookup_1 _ _ _ _ Hok Hb) as (Hbo & Hbn & Hbs).
    erewrite add_at_ok; [|exact Hb|by eapply batch_ok_roomy].
    exists (<[idx := added tx b]> batches), out. split; [done|]. split; [|done|].
    + rewrite (concat_insert _ _ _ (added tx b) [tx] Hb eq_refl), Hall. solve_Permutation.
    + apply Forall_insert; [done|]. split_and!; [apply batch_ok_added; [done|apply Htx|done]| |].
      * simpl. by destruct (transactions b).
      * simpl. by apply sublist_app.
  - pose proof (batch_ok_new max Hmax) as Hnew.
    rewrite can_add_fits by (by eapply batch_ok_roomy). simpl.
    destruct (decide (cu_limit tx ≤ max)) as [Hle|Hgt]; last first.
    { assert (fits tx max TransactionBatch.new = false) as ->.
      { unfold fits. simpl. by rewrite (proj2 (Z.leb_gt _ _)) by lia. }
      exists batches, (tx :: out). split; [done|]. split; [|constructor; [left; lia|done]|done].
      rewrite Hall. solve_Permutation. }
    rewrite fits_new by (done || apply Htx). simpl. destruct (AuctionEngine.accepts tx e) eqn:Hacc; last first.
    { exists batches, (tx :: out). split; [done|]. split; [|constructor; [by right|done]|done].
      rewrite Hall. solve_Permutation. }
    rewrite add_added by (by eapply batch_ok_roomy). simpl.
    exists (batches ++ [added tx TransactionBatch.new]), out. split; [done|]. split; [|done|].
    + rewrite fmap_app, concat_app, Hall. simpl. solve_Permutation.
    + apply Forall_app. split; [done|]. constructor; [|done]. split_and!; [|done|].
      * apply batch_ok_added; [done|apply Htx|]. apply fits_new; [apply Htx|done].
      * simpl. by apply sublist_inserts_l.
Qed.

Lemma build_loop_spec max e candidates seen out batches :
  0 ≤ max → Forall (admissible max) candidates → built max e seen out batches →
  ∃ batches' out', AuctionEngine.build_loop max e candidates batches = Ok batches' ∧
    built max e (seen ++ candidates) out' batches'.
Proof.
  intros Hmax Hc. revert seen out batches. induction Hc as [|tx candidates Htx _ IH]; intros seen out batches Hb; simpl.
  { exists batches, out. by rewrite app_nil_r. }
  destruct (place_spec max e seen out batches tx Hmax Htx Hb) as (batches' & out' & -> & Hb'). simpl.
  destruct (IH _ _ _ Hb') as (batches2 & out2 & -> & Hb2). exists batches2, out2.
  by rewrite <- (assoc_L (++)) in Hb2.
Qed.

(** C22: [build_batches] returns, and splits the candidates into batches and
    rejected ones: only those are rejected that are too big for any batch or
    have no surplus. Each batch keeps the order of the candidates, stays within
    [max], and no transaction of it writes an account that an earlier one
    locks. *)
Theorem build_batches_spec candidates max e :
  0 ≤ max → Forall (admissible max) candidates →
  ∃ batches out, AuctionEngine.build_batches candidates max e = Ok batches ∧
    candidates ≡ₚ concat (transactions <$> batches) ++ out ∧
    Forall (rejected_by max e) out ∧
    Forall (λ b, transactions b ≠ [] ∧ transactions b `sublist_of` candidates ∧
      cu_used b = cus_of (transactions b) ∧ cu_used b ≤ max ∧
      write_exclusive (transactions b)) batches.
Proof.
  intros Hmax Hc. destruct (build_loop_spec max e candidates [] [] [] Hmax Hc) as (batches & out & Heq & [Ha Ho Hk]).
  { by split. }
  exists batches, out. split_and!; [done..|]. eapply Forall_impl; [exact Hk|].
  intros b (Hb & ? & ?). split_and!; [done..|apply Hb|apply Hb|apply Hb].
Qed.

(** ** [build_bundle_batch] *)

Lemma prescan_spec max txs b :
  batch_ok max b → Forall (admissible max) txs →
  ∃ o, AuctionEngine.prescan max txs b = Ok o ∧
    ∀ b', o = Some b' → batch_ok max b' ∧ transactions b' = transactions b ++ txs.
Proof.
  intros Hb Htxs. revert b Hb. induction Htxs as [|tx txs Htx _ IH]; intros b Hb; simpl.
  { eexists; split; [done|]. intros b' [= <-]. by rewrite app_nil_r. }
  rewrite can_add_fits by (by eapply batch_ok_roomy). simpl.
  destruct (fits tx max b) eqn:Hf; [|by eexists].
  rewrite add_added by (by eapply batch_ok_roomy). simpl.
  destruct (IH (added tx b)) as (o & -> & Ho); [apply batch_ok_added; [done|apply Htx|done]|].
  exists o. split; [done|]. intros b' Hb'. destruct (Ho b' Hb') as [? ->]. simpl.
  by rewrite <- (assoc_L (++)).
Qed.

Lemma add_all_at_ok idx txs batches b :
  batches !! idx = Some b → 0 ≤ cu_used b → Forall (λ tx, 0 ≤ cu_limit tx) txs →
  cu_used b + cus_of txs ≤ U64_MAX →
  ∃ b', AuctionEngine.add_all_at idx txs batches = Ok (<[idx := b']> batches) ∧
    transactions b' = transactions b ++ txs ∧ cu_used b' = cu_used b + cus_of txs.
Proof.
  intros Hb H0 Htxs Hsum. revert batches b Hb H0 Hsum. induction Htxs as [|tx txs Htx Htxs IH]; intros batches b Hb H0 Hsum; simpl in *.
  { exists b. rewrite list_insert_id by done. split_and!; [done|by rewrite app_nil_r|lia]. }
  pose proof (cus_of_nonneg txs Htxs). erewrite add_at_ok; [|exact Hb|split; lia]. simpl.
  destruct (IH (<[idx := added tx b]> batches) (added tx b)) as (b' & -> & Ht & Hc); simpl in *; try lia.
  { apply list_lookup_insert_eq. by eapply lookup_lt_Some. }
  exists b'. rewrite list_insert_insert_eq. split_and!; [done| |lia].
  by rewrite Ht, <- (assoc_L (++)).
Qed.

(** A bundle is placed as a whole or not at all: it is refused and the
    batches stay as they are, or it becomes a batch of its own that respects
    the bounds, or all of it is appended, in order, to one existing batch. *)
Lemma build_bundle_batch_spec bundle batches max e :
  0 ≤ max → 2 * max ≤ U64_MAX → bundle ≠ [] → Forall (admissible max) bundle →
  Forall (batch_ok max) batches →
  ∃ o batches', AuctionEngine.build_bundle_batch bundle batches max e = Ok (o, batches') ∧
    match o with
    | None => batches' = batches
    | Some b =>
        (batches' = batches ++ [b] ∧ transactions b = bundle ∧ batch_ok max b) ∨
        ∃ idx b0, batches !! idx = Some b0 ∧ batches' = <[idx := b]> batches ∧
          transactions b = transactions b0 ++ bundle
    end.
Proof.
  intros Hmax H2 Hne Hadm Hok. unfold AuctionEngine.build_bundle_batch.
  destruct (prescan_spec max bundle TransactionBatch.new (batch_ok_new max Hmax) Hadm) as (o & -> & Ho). simpl.
  destruct o as [cb|]; [|by eexists _, _].
  destruct (Ho cb eq_refl) as [Hcb Hcbt]. simpl in Hcbt. clear Ho.
  destruct bundle as [|first rest] eqn:Hbundle; [done|]. rewrite <- Hbundle in *. clear Hne.
  assert (admissible max first) as Hfirst by (rewrite Hbundle in Hadm; by apply Forall_cons in Hadm as [? _]).
  unfold AuctionEngine.find_best_batch. rewrite find_best_batch_ok; last first.
  { eapply Forall_impl; [exact Hok|]. intros b Hb. by eapply batch_ok_roomy. }
  simpl. destruct (first_fit _ _ _ _ _) as [idx|] eqn:Hff.
  - apply first_fit_Some in Hff as (b & Hb & _). pose proof (Forall_lookup_1 _ _ _ _ Hok Hb) as Hbo.
    pose proof (bo_cus _ _ Hcb). pose proof (bo_max _ _ Hcb). rewrite Hcbt in *.
    pose proof (bo_cus _ _ Hbo). pose proof (bo_max _ _ Hbo). pose proof (cus_of_nonneg _ (bo_nonneg _ _ Hbo)).
    destruct (add_all_at_ok idx bundle batches b Hb) as (b' & -> & Ht & _); [lia| |lia|].
    { eapply Forall_impl; [exact Hadm|]. by intros tx [? _]. }
    simpl. rewrite list_lookup_insert_eq by (by eapply lookup_lt_Some). eexists _, _. split; [done|].
    simpl. right. by exists idx, b.
  - destruct (AuctionEngine.accepts first e); eexists _, _; (split; [done|]); [|done]. by left.
Qed.
End Batches.
