(* ===== verification/AuctionState.v ===== *)
(** * State of the auction engine

    The lock manager, the CU allocation and the demand window over any sequence
    of operations. *)

From S2P Require Import Prelude F64 Types AuctionLocks AuctionEngine.

(** ** Locks *)

(** The operations the scheduler performs on the engine's locks. *)
Inductive LockOp :=
| OpAcquire (tx_key : TransactionKey) (tx_locks : list (Pubkey * bool))
| OpRelease (tx_key : TransactionKey) (tx_locks : list (Pubkey * bool))
| OpQueue (tx_locks : list (Pubkey * bool))
| OpDequeue (tx_locks : list (Pubkey * bool))
| OpReset.

Definition run_op (e : AuctionEngine) (op : LockOp) : AuctionEngine :=
  match op with
  | OpAcquire k ls => (AuctionEngine.acquire_locks k ls e).2
  | OpRelease k ls => AuctionEngine.release_locks k ls e
  | OpQueue ls => AuctionEngine.queue_transaction ls e
  | OpDequeue ls => AuctionEngine.dequeue_transaction ls e
  | OpReset => AuctionEngine.reset e
  end.

Definition locks_of (e : AuctionEngine) : gmap Pubkey AccountLockers := account_locks (lock_manager e).

Lemma acquire_locks_exclusive k ls e :
  exclusive (locks_of e) → exclusive (locks_of (AuctionEngine.acquire_locks k ls e).2).
Proof.
  intros He. unfold AuctionEngine.acquire_locks.
  destruct (LockManager.try_acquire ls (lock_manager e)) eqn:Htry; [|done].
  apply exclusive_acquire; [done|]. intros a w k' w'. apply try_acquire_spec; [apply He|done].
Qed.

Lemma run_op_exclusive e op : exclusive (locks_of e) → exclusive (locks_of (run_op e op)).
Proof.
  intros He. destruct op; simpl; try done.
  - by apply acquire_locks_exclusive.
  - by apply exclusive_release.
  - apply exclusive_empty.
Qed.

(** Over any sequence of operations of a new engine, a transaction that
    holds an account to write is its only holder, and no account keeps an empty
    entry. *)
Theorem auction_locks_exclusive cfg max_block_cu ops :
  let t := locks_of (fold_left run_op ops (AuctionEngine.new cfg max_block_cu)) in
  (∀ addr k w k' w', holder t addr k w → holder t addr k' w' → k ≠ k' → w = false ∧ w' = false) ∧
  ∀ addr l, t !! addr = Some l → lockers l ≠ ∅.
Proof.
  assert (∀ e, exclusive (locks_of e) → exclusive (locks_of (fold_left run_op ops e))) as Hall.
  { induction ops as [|op ops IH]; intros e He; simpl; [done|]. by apply IH, run_op_exclusive. }
  intros t. destruct (Hall (AuctionEngine.new cfg max_block_cu) exclusive_empty) as [Hn Ha].
  split; [exact Ha|]. intros addr l Hl. by apply (Hn addr).
Qed.

(** [acquire_locks] grants exactly what conflicts with no holder; what it
    grants is held, what it refuses changes nothing. *)
Theorem acquire_locks_spec k ls e :
  exclusive (locks_of e) → NoDup ls.*1 →
  let '(granted, e') := AuctionEngine.acquire_locks k ls e in
  (granted = true ↔ ∀ a w k' w', (a, w) ∈ ls → holder (locks_of e) a k' w' → w = false ∧ w' = false) ∧
  if granted then
    (∀ a w, (a, w) ∈ ls → holder (locks_of e') a k w) ∧
    (∀ a k' w, ¬ (k' = k ∧ a ∈ ls.*1) → holder (locks_of e') a k' w ↔ holder (locks_of e) a k' w)
  else e' = e.
Proof.
  intros He Hnd. pose proof (try_acquire_spec ls (lock_manager e) (excl_nonempty _ He)) as Hspec.
  unfold AuctionEngine.acquire_locks. destruct (LockManager.try_acquire ls (lock_manager e)); simpl.
  - split; [done|]. split.
    + intros a w Hin. by apply holder_acquire.
    + intros a k' w Hne. by apply holder_acquire_other.
  - by split.
Qed.

(** ** CU allocation *)

Section Allocation.
Context `{Profile}.

Inductive AllocOp := Reserve (cus : Z) | Commit | Release | ResetAlloc.

Definition run_alloc (a : CUAllocation) (op : AllocOp) : Res CUAllocation :=
  match op with
  | Reserve cus => r ← CUAllocation.reserve cus a; mret r.2
  | Commit => CUAllocation.commit a
  | Release => Ok (CUAllocation.release a)
  | ResetAlloc => Ok (CUAllocation.reset a)
  end.

Fixpoint run_allocs (ops : list AllocOp) (a : CUAllocation) : Res CUAllocation :=
  match ops with
  | [] => Ok a
  | op :: ops' => a' ← run_alloc a op; run_allocs ops' a'
  end.

Definition alloc_ok (a : CUAllocation) : Prop :=
  0 ≤ committed a ∧ 0 ≤ tentative a ∧ committed a + tentative a ≤ max_cu a ∧ max_cu a ≤ U64_MAX.

Lemma available_cu_ok a :
  alloc_ok a → CUAllocation.available_cu a = Ok (max_cu a - committed a - tentative a).
Proof.
  intros (? & ? & ? & ?). unfold CUAllocation.available_cu. rewrite u64_add_ok by lia. simpl.
  rewrite (proj2 (Z.ltb_ge _ _)) by lia. rewrite u64_sub_ok by (unfold is_u64; lia). simpl.
  rewrite u64_sub_ok by (unfold is_u64; lia). done.
Qed.

Lemma reserve_ok cus a :
  alloc_ok a → 0 ≤ cus →
  CUAllocation.reserve cus a = Ok
    (if decide (committed a + tentative a + cus ≤ max_cu a)
     then (true, a <| tentative := tentative a + cus |>) else (false, a)).
Proof.
  intros Ha Hc. unfold CUAllocation.reserve. rewrite available_cu_ok by done. simpl.
  destruct Ha as (? & ? & ? & ?). case_decide.
  - rewrite (proj2 (Z.leb_le _ _)) by lia. rewrite u64_add_ok by lia. done.
  - by rewrite (proj2 (Z.leb_gt _ _)) by lia.
Qed.

Lemma run_alloc_ok a op :
  alloc_ok a → (∀ cus, op = Reserve cus → 0 ≤ cus) →
  ∃ a', run_alloc a op = Ok a' ∧ alloc_ok a' ∧ max_cu a' = max_cu a.
Proof.
  intros Ha Hc. pose proof Ha as (? & ? & ? & ?). destruct op as [cus| | |]; simpl.
  - rewrite reserve_ok by auto. specialize (Hc cus eq_refl). case_decide; simpl; eexists; (split; [done|]).
    + split; [|done]. unfold alloc_ok. simpl. lia.
    + done.
  - unfold CUAllocation.commit. rewrite u64_add_ok by lia. simpl. eexists; split; [done|].
    split; [|done]. unfold alloc_ok. simpl. lia.
  - eexists; split; [done|]. split; [|done]. unfold alloc_ok. simpl. lia.
  - eexists; split; [done|]. split; [|done]. unfold alloc_ok. simpl. lia.
Qed.

(** Over any sequence of reservations, commits and releases no operation
    overflows, the committed and the tentative CUs never exceed the block, and
    what is available is exactly the rest. *)
Lemma cu_allocation_inv max promote release ops :
  is_u64 max → (∀ cus, Reserve cus ∈ ops → 0 ≤ cus) →
  ∃ a, run_allocs ops (CUAllocation.new max promote release) = Ok a ∧
    0 ≤ committed a ∧ 0 ≤ tentative a ∧ committed a + tentative a ≤ max ∧
    CUAllocation.available_cu a = Ok (max - committed a - tentative a).
Proof.
  intros Hmax Hops.
  assert (∀ a, alloc_ok a → max_cu a = max →
    ∃ a', run_allocs ops a = Ok a' ∧ alloc_ok a' ∧ max_cu a' = max) as Hall.
  { clear Hmax. induction ops as [|op ops IH]; intros a Ha Hm; simpl; [by exists a|].
    destruct (run_alloc_ok a op Ha) as (a1 & -> & Ha1 & Hm1).
    { intros cus ->. apply Hops. by left. }
    simpl. apply IH; [|done|congruence]. intros cus Hin. apply Hops. by right. }
  destruct (Hall (CUAllocation.new max promote release)) as (a & Heq & Ha & Hm); [|reflexivity|].
  { unfold alloc_ok, is_u64 in *. simpl. lia. }
  exists a. pose proof Ha as (? & ? & ? & ?). split_and!; [exact Heq|lia..|].
  rewrite <- Hm. by apply available_cu_ok.
Qed.
End Allocation.

(** ** Demand windows *)

(** [d] is the window on the sequence [vs]. *)
Record ring (vs : list f64) (d : SlidingDemand) : Prop := {
  ring_samples : length (samples d) = 64%nat;
  ring_head : head d = length vs;
  ring_count : count d = Nat.min 64 (length vs);
  ring_recent i : (i < length vs)%nat → (length vs ≤ i + 64)%nat → samples d !! (i mod 64)%nat = vs !! i;
}.

Lemma ring_default : ring [] SlidingDemand_default.
Proof. split; simpl; [done..|]. intros i Hi. simpl in Hi. lia. Qed.

Lemma ring_add vs d v : ring vs d → ring (vs ++ [v]) (SlidingDemand.add v d).
Proof.
  intros [Hs Hh Hc Hr]. unfold SlidingDemand.add. rewrite Hs, Hh.
  split; cbn [samples head count]; rewrite ?length_insert, ?length_app; cbn [length].
  - done.
  - done.
  - rewrite Hc. destruct (Nat.ltb_spec (Nat.min 64 (length vs)) 64); lia.
  - intros i Hi Hw. destruct (decide (i = length vs)) as [->|Hne].
    + rewrite list_lookup_insert_eq; [by rewrite lookup_app_r, Nat.sub_diag|]. rewrite Hs. apply Nat.mod_upper_bound. lia.
    + rewrite list_lookup_insert_ne.
      * rewrite lookup_app_l by lia. apply Hr; lia.
      * intros Heq. pose proof (Nat.div_mod_eq i 64). pose proof (Nat.div_mod_eq (length vs) 64). lia.
Qed.

(** The ring of samples always holds the last 64 demands, whatever was
    recorded before. *)
Lemma sliding_demand_window vs :
  let d := fold_left (λ d v, SlidingDemand.add v d) vs SlidingDemand_default in
  count d = Nat.min 64 (length vs) ∧
  ∀ i, (i < length vs)%nat → (length vs ≤ i + 64)%nat → samples d !! (i mod 64)%nat = vs !! i.
Proof.
  assert (ring vs (fold_left (λ d v, SlidingDemand.add v d) vs SlidingDemand_default)) as [_ _ Hc Hr]; [|done].
  induction vs as [|v vs IH] using rev_ind; [exact ring_default|].
  rewrite fold_left_app. simpl. by apply ring_add.
Qed.

(** ** Prices *)

Lemma utilization_range demand capacity :
  f64_lt (utilization demand capacity) MIN_PRICE = false ∧
  f64_lt MAX_PRICE (utilization demand capacity) = false.
Proof.
  unfold utilization. destruct (f64_lt f64_zero capacity); [|by vm_compute].
  apply f64_clamp_range. by vm_compute.
Qed.
