(* ===== verification/AuctionScheduler.v ===== *)
(** * The auction batch scheduler
    (schedulers/auction-batch-scheduler/src/lib.rs): definitions

    The batch scheduler's structure with the auction engine of [AuctionEngine]
    in the place of its lock table and its priorities.  One definition per
    method, in the monad [M], as in [BatchScheduler]. *)

From S2P Require Import Prelude F64 BTreeSet Types Events Externals TipProgram Costs Common.
From S2P Require Import AuctionLocks AuctionEngine.

Record AuctionBatchConfig := { min_score : Z }.

Definition AuctionBatchConfig_default : AuctionBatchConfig := {| min_score := 0 |}.

(** [pub struct AuctionBatchScheduler]. *)
Record AuctionBatchScheduler `{SolanaCrates} {Heap DSet : Type} := {
  tip_distribution_config : TipDistributionArgs;
  keypair : Keypair;
  filter_keys : gset Pubkey;
  unchecked_capacity : nat;
  checked_capacity : nat;
  bundle_capacity : nat;
  runtime : RuntimeConfig;
  builder_config : BuilderConfig;
  tip_config : option TipConfig;
  recent_blockhash : Hash;
  bundles : list BundleId;
  unchecked_tx : Heap;
  checked_tx : list PriorityId;
  executing_tx : gset TransactionKey;
  deferred_tx : DSet;
  next_recheck : option PriorityId;
  in_flight_cus : Z;
  schedule_batch : list KeyedTransactionMeta;
  last_progress_time : Z;
  events : option EventEmitter;
  slot : Z;
  slot_stats : SlotStatsEvent;
  scoring : AuctionBatchConfig;
  auction_engine : AuctionEngine;
}.
Arguments AuctionBatchScheduler {_} Heap DSet.

#[export] Instance AuctionBatchScheduler_eta `{SolanaCrates} {Heap DSet}
  : Eta (AuctionBatchScheduler Heap DSet) := λ s, {|
  tip_distribution_config := tip_distribution_config s;
  keypair := keypair s;
  filter_keys := filter_keys s;
  unchecked_capacity := unchecked_capacity s;
  checked_capacity := checked_capacity s;
  bundle_capacity := bundle_capacity s;
  runtime := runtime s;
  builder_config := builder_config s;
  tip_config := tip_config s;
  recent_blockhash := recent_blockhash s;
  bundles := bundles s;
  unchecked_tx := unchecked_tx s;
  checked_tx := checked_tx s;
  executing_tx := executing_tx s;
  deferred_tx := deferred_tx s;
  next_recheck := next_recheck s;
  in_flight_cus := in_flight_cus s;
  schedule_batch := schedule_batch s;
  last_progress_time := last_progress_time s;
  events := events s;
  slot := slot s;
  slot_stats := slot_stats s;
  scoring := scoring s;
  auction_engine := auction_engine s;
|}.

(** [AuctionBatchSchedulerArgs] (the Jito arguments go to the Jito thread). *)
Record AuctionBatchSchedulerArgs `{SolanaCrates} := {
  args_tip : TipDistributionArgs;
  args_keypair : Keypair;
  args_filter_keys : gset Pubkey;
  args_unchecked_capacity : nat;
  args_checked_capacity : nat;
  args_bundle_capacity : nat;
  args_runtime : RuntimeConfig;
  args_scoring : AuctionBatchConfig;
}.

(** The metrics are registered under the batch scheduler's names. *)
Definition BatchMetrics_new (m : Metric) : MetricKind * string * option string := Events.BatchMetrics_new m.

Section AuctionBatchScheduler.
Context `{Profile} `{AgaveBindings} `{World W} `{LibM} `{HashMapOrder} {Heap DSet : Type}
  `{MinMaxHeap Heap PriorityId} `{IndexSet DSet PriorityId}.
Abbreviation Sched := (AuctionBatchScheduler Heap DSet).
Abbreviation S := (St Sched W).

Definition new_with_jito (events : option EventEmitter) (args : AuctionBatchSchedulerArgs) (w : W)
    : Res (Sched * W) :=
  let '(update, w) := w_jito_recv_timeout w in
  match update with
  | None => Panicked (PUnwrap "new_with_jito: recv_timeout")
  | Some (JBuilderConfig builder_config) =>
      let '(now, w) := w_instant_now w in
      Ok ({|
        tip_distribution_config := args_tip args;
        keypair := args_keypair args;
        filter_keys := {[TIP_PAYMENT_PROGRAM]} ∪ args_filter_keys args;
        unchecked_capacity := args_unchecked_capacity args;
        checked_capacity := args_checked_capacity args;
        bundle_capacity := args_bundle_capacity args;
        runtime := args_runtime args;
        builder_config := builder_config;
        tip_config := None;
        recent_blockhash := 0%N;
        bundles := [];
        unchecked_tx := heap_empty;
        checked_tx := [];
        executing_tx := ∅;
        deferred_tx := iset_empty;
        next_recheck := None;
        in_flight_cus := 0;
        schedule_batch := [];
        last_progress_time := now;
        events := events;
        slot := 0;
        slot_stats := SlotStatsEvent_default;
        scoring := args_scoring args;
        auction_engine := AuctionEngine.new AuctionEngineConfig_default MAX_BLOCK_UNITS_SIMD_0256;
      |}, w)
  | Some _ => Panicked (PUnreachable "new_with_jito: first message")
  end.

Definition set_runtime_config (unchecked checked bundle : nat) (cutoff : Z)
    (max_checks : nat) (expiry timeout : Z) (s : Sched) : Sched :=
  s <| unchecked_capacity := unchecked |>
    <| checked_capacity := checked |>
    <| bundle_capacity := bundle |>
    <| runtime ::= λ r, r <| block_fill_cutoff := cutoff |>
                         <| max_check_batches := max_checks |>
                         <| bundle_expiry := expiry |>
                         <| progress_timeout := timeout |> |>.

Definition update_base_prices (base_cu base_write_lock base_read_lock base_time base_space : f64)
    (s : Sched) : Sched :=
  s <| auction_engine ::=
    AuctionEngine.update_base_prices base_cu base_write_lock base_read_lock base_time base_space |>.

(** ** Small steps *)

(** [self.slot_stats.field += n]. *)
Definition bump (field : SlotStatsEvent → Z) `{!Setter field} (n : Z) : M S unit :=
  let* v := self (λ s, field (slot_stats s)) in
  let* v' := of_res (u64_add "slot_stats" v n) in
  update (λ s, s <| slot_stats ::= λ st, st <| field := v' |> |>).

Definition emit_event (ev : Event) : M S unit :=
  let* e := self events in
  match e with
  | None => mret tt
  | Some e => emit e ev
  end.

Definition emit_tx_event (k : TransactionKey) (prio : Z) (action : TransactionAction)
    : M S unit :=
  let* e := self events in
  match e with
  | None => mret tt
  | Some e =>
      (* Don't emit for vote TXs. *)
      let* tx := transaction k in
      if is_simple_vote tx then mret tt
      else
        let* sig := unwrap "emit_tx_event: signatures()[0]" (tv_signatures (data tx) !! 0%nat) in
        let* sl := self slot in
        emit e (Transaction {| te_signature := sig; te_slot := sl; te_priority := prio;
                               te_action := action |})
  end.

Definition should_filter_static (s : Sched) (tx : TransactionView) : bool :=
  existsb (λ k, bool_decide (k ∈ filter_keys s)) (tv_static_account_keys tx).

Definition pending_len (s : Sched) : nat :=
  length (checked_tx s) + size (executing_tx s) + iset_len (deferred_tx s).

(** [matches!(reason, ...)]. *)
Definition is_retryable (reason : Z) : bool :=
  (reason =? ACCOUNT_IN_USE) || (reason =? BANK_NOT_AVAILABLE)
  || (reason =? WOULD_EXCEED_MAX_BLOCK_COST_LIMIT)
  || (reason =? WOULD_EXCEED_MAX_ACCOUNT_COST_LIMIT)
  || (reason =? WOULD_EXCEED_ACCOUNT_DATA_BLOCK_LIMIT)
  || (reason =? WOULD_EXCEED_MAX_VOTE_COST_LIMIT)
  || (reason =? WOULD_EXCEED_ACCOUNT_DATA_TOTAL_LIMIT).

Definition insert_executing (k : TransactionKey) : M S bool :=
  let* e := self executing_tx in
  update (λ s, s <| executing_tx ::= union {[k]} |>) ;;
  mret (bool_decide (k ∉ e)).

Definition remove_executing (k : TransactionKey) : M S bool :=
  let* e := self executing_tx in
  update (λ s, s <| executing_tx ::= λ e, e ∖ {[k]} |>) ;;
  mret (bool_decide (k ∈ e)).

(** ** Locks and queues of a transaction of the bridge *)

(** [bridge.transaction(key).locks().map(..).collect()]. *)
Definition tx_locks_of (k : TransactionKey) : M S (list (Pubkey * bool)) :=
  let* tx := transaction k in
  mret (locks tx).

Definition update_engine (f : AuctionEngine → AuctionEngine) : M S unit :=
  update (λ s, s <| auction_engine ::= f |>).

Definition acquire_locks (k : TransactionKey) (ls : list (Pubkey * bool)) : M S bool :=
  let* e := self auction_engine in
  let '(ok, e') := AuctionEngine.acquire_locks k ls e in
  update (λ s, s <| auction_engine := e' |>) ;; mret ok.

Definition can_lock (k : TransactionKey) : M S bool :=
  let* tx_locks := tx_locks_of k in
  let* e := self auction_engine in
  mret (LockManager.try_acquire tx_locks (lock_manager e)).

Definition lock (k : TransactionKey) : M S unit :=
  let* tx_locks := tx_locks_of k in
  let* _ := acquire_locks k tx_locks in
  mret tt.

Definition unlock (k : TransactionKey) : M S unit :=
  let* tx_locks := tx_locks_of k in
  update_engine (AuctionEngine.release_locks k tx_locks).

Definition queue_tx (k : TransactionKey) : M S unit :=
  let* tx_locks := tx_locks_of k in
  update_engine (AuctionEngine.queue_transaction tx_locks).

Definition dequeue_tx (k : TransactionKey) : M S unit :=
  let* tx_locks := tx_locks_of k in
  update_engine (AuctionEngine.dequeue_transaction tx_locks).

(** ** The checked transactions, which queue for their accounts *)

Definition insert_checked (m : PriorityId) : M S unit :=
  queue_tx (key m) ;;
  update (λ s, s <| checked_tx ::= λ l, (btree_insert m l).2 |>).

Definition remove_checked (m : PriorityId) : M S bool :=
  let* l := self checked_tx in
  let '(found, l') := btree_remove m l in
  if found : bool then
    update (λ s, s <| checked_tx := l' |>) ;;
    dequeue_tx (key m) ;;
    mret true
  else mret false.

Definition pop_first_checked : M S (option PriorityId) :=
  let* l := self checked_tx in
  match btree_pop_first l with
  | None => mret None
  | Some (m, l') =>
      update (λ s, s <| checked_tx := l' |>) ;;
      dequeue_tx (key m) ;;
      mret (Some m)
  end.

(** ** Scoring *)

(** What the plain subtractions do depends on the profile. *)
Definition effective_remaining_cu (p : ProgressMessage) (s : Sched) : Res Z :=
  used_cu ← u64_sub "effective_remaining_cu: used_cu" MAX_BLOCK_UNITS_SIMD_0256 (remaining_cost_units p);
  left_cu ← u64_sub "effective_remaining_cu: used" MAX_BLOCK_UNITS_SIMD_0256 used_cu;
  u64_sub "effective_remaining_cu: in_flight_cus" left_cu (in_flight_cus s).

(** The surplus, scaled to a priority. *)
Definition scale_priority (surplus : f64) : Z :=
  let scaled_surplus :=
    f64_max (f64_add (f64_mul surplus (f64_of_Z PRIORITY_MULTIPLIER)) (f64_of_Z 1000)) f64_zero in
  if f64_ge scaled_surplus (f64_of_Z (BUNDLE_MARKER - 1)) then BUNDLE_MARKER - 1
  else f64_to_u64 scaled_surplus.

(** CUs inflated by the serialization penalty. *)
Definition effective_cu (base_cu : Z) (all_locks : list (Pubkey * bool)) (e : AuctionEngine) : Z :=
  let serialization_pen := LockManager.serialization_penalty all_locks (lock_manager e) in
  f64_to_u64 (f64_max (f64_mul (f64_of_Z base_cu) (f64_add f64_one serialization_pen)) f64_one).

Definition score_with_auction (costs : TxCosts) (all_locks : list (Pubkey * bool)) (tip : Z) (s : Sched)
    : Res (option (Z * Z)) :=
  let e := auction_engine s in
  let '(num_write_locks, num_read_locks) := count_locks all_locks in
  let eff_cu := effective_cu (Costs.total_cost costs) all_locks e in
  let resource_cost := ResourcePrices.total_cost eff_cu num_write_locks num_read_locks (prices e) in
  let flexibility_discount := f64_mul (AuctionEngine.flexibility_coeff e) (f64_lit 3 10) in
  fee ← u64_add "score_with_auction: fee + tip" (tc_prioritization_fee costs) tip;
  let surplus := f64_sub (f64_of_Z fee) (f64_mul resource_cost (f64_sub f64_one flexibility_discount)) in
  mret (Some (scale_priority surplus, Costs.total_cost costs)).

Definition calculate_priority (rt : RuntimeState) (_remaining_cu : Z) (tx : TransactionState) (s : Sched)
    : Res (option (Z * Z)) :=
  match derive_costs (data tx) (feature_set rt) with
  | None => mret None
  | Some costs =>
      tip ← extract_tip (data tx);
      score_with_auction costs (locks tx) tip s
  end.

(** The market as the engine sees it. *)
Definition market (p : ProgressMessage) (e : AuctionEngine) : TickStats * f64 :=
  let cu_dem := f64_sub (f64_of_Z MAX_BLOCK_UNITS_SIMD_0256) (f64_of_Z (remaining_cost_units p)) in
  let ms_elapsed :=
    f64_min (f64_max (f64_mul (f64_div (f64_of_Z (current_slot_progress p)) (f64_of_Z 100)) (f64_of_Z 400))
               f64_one) (f64_of_Z 399) in
  let ms_remaining := f64_sub (f64_of_Z 400) ms_elapsed in
  let space_demand :=
    f64_sub f64_one (f64_div (f64_of_Z (remaining_cost_units p)) (f64_of_Z MAX_BLOCK_UNITS_SIMD_0256)) in
  ({| ts_cu_demand := cu_dem;
      ts_lock_demand := LockManager.total_queue_depth (lock_manager e);
      ts_time_elapsed := ms_elapsed;
      ts_fragmentation := space_demand;
      ts_p90_price := AuctionEngine.cu_price e;
      ts_cu_variance := f64_zero;
      ts_lock_variance := f64_zero |}, ms_remaining).

Definition process_auction_tick : M S unit :=
  let* p := bridge w_progress in
  let* e := self auction_engine in
  let '(stats, ms_remaining) := market p e in
  let* now := call w_instant_now in
  update_engine (AuctionEngine.process_tick now stats (remaining_cost_units p) ms_remaining).

(** ** Becoming the tip receiver *)

Definition tip_batch (k : TransactionKey) (max_slot : Z) : ScheduleBatch := {|
  sb_worker := EXECUTE_WORKER_START;
  sb_transactions :=
    [{| km_key := k; km_meta := {| priority := BUNDLE_MARKER; cost := 0; key := k |} |}];
  sb_max_working_slot := max_slot;
  sb_flags := Z.lor pack_EXECUTE execution_DROP_ON_FAILURE;
|}.

Definition become_tip_receiver : M S unit :=
  let* s := self id in
  let '(tip_distribution_key, init_packet) :=
    init_tip_distribution (keypair s) (tip_distribution_config s)
      (slot s / DEFAULT_SLOTS_PER_EPOCH) (recent_blockhash s) in
  let* o := insert_transaction init_packet in
  let* init_key := unwrap "become_tip_receiver: insert init" o in
  let* tip := unwrap "become_tip_receiver: tip_config" (tip_config s) in
  let change_packet := change_tip_receiver (keypair s) {|
      old_tip_receiver := tip_receiver tip;
      new_tip_receiver := tip_distribution_key;
      old_block_builder := block_builder tip;
      new_block_builder := builder_key (builder_config s);
      block_builder_commission := commission (builder_config s) |} (recent_blockhash s) in
  let* o := insert_transaction change_packet in
  let* change_key := unwrap "become_tip_receiver: insert change" o in
  (* Check if our batch can be locked. *)
  let* ok := can_lock init_key in
  if negb ok then
    drop_transaction init_key ;;
    drop_transaction change_key
  else
    (* Lock our batch (the result of [acquire_locks] is ignored). *)
    lock init_key ;;
    lock change_key ;;
    (* Set these transactions as executing. *)
    let* new := insert_executing init_key in
    assert "become_tip_receiver: executing init" new ;;
    let* new := insert_executing change_key in
    assert "become_tip_receiver: executing change" new ;;
    let* max_slot := of_res (u64_add "become_tip_receiver: slot + 4" (slot s) 4) in
    schedule (tip_batch init_key max_slot) ;;
    schedule (tip_batch change_key max_slot).

(** ** Slot roll *)

Definition start_recheck : M S unit :=
  update (λ s, s <| next_recheck ::= λ r,
    match r with Some p => Some p | None => btree_last (checked_tx s) end |>).

(** Drain deferred transactions back to checked. *)
Definition drain_deferred : M S unit :=
  let* d := self deferred_tx in
  let '(metas, d') := iset_drain d in
  update (λ s, s <| deferred_tx := d' |>) ;;
  for_each metas insert_checked.

Definition roll_slot (p : ProgressMessage) : M S unit :=
  let* e := self events in
  match e with
  | None => mret tt
  | Some em =>
      (* Emit SlotStats for the slot that just ended. *)
      let* sl := self slot in
      when (negb (sl =? 0)) (
        let* stats := self slot_stats in
        update (λ s, s <| slot_stats := SlotStatsEvent_default |>) ;;
        emit em (SlotStats stats)) ;;
      (* Update context for new slot events, emit SlotStart. *)
      let em' := em <| ctx ::= EventContext_set (current_slot p) |> in
      update (λ s, s <| events := Some em' |>) ;;
      emit em' SlotStart
  end ;;
  update (λ s, s <| slot := current_slot p |>
                 <| slot_stats ::= λ st, st <| was_leader_ready := false |> |>) ;;
  drain_deferred ;;
  start_recheck.

Definition check_slot_roll : M S unit :=
  let* o := call w_drain_progress in
  match o with
  | Some _ =>
      let* now := call w_instant_now in
      update (λ s, s <| last_progress_time := now |>)
  | None =>
      let* now := call w_instant_now in
      let* s := self id in
      assert "Agave disconnected"
        (Z.max 0 (now - last_progress_time s) <? progress_timeout (runtime s))
  end ;;
  let* was_ready := self (λ s, was_leader_ready (slot_stats s)) in
  let* p := bridge w_progress in
  let* sl := self slot in
  when (negb (current_slot p =? sl)) (roll_slot p) ;;
  when ((leader_state p =? LEADER_READY) && negb was_ready) (
    emit_event LeaderReady ;;
    update (λ s, s <| slot_stats ::= λ st, st <| was_leader_ready := true |> |>) ;;
    become_tip_receiver).

(** ** Worker responses *)

(** [rep.x & mask != 0]. *)
Definition has_flag (flags mask : Z) : bool := negb (Z.land flags mask =? 0).

Definition check_failures (rep : CheckResponse) : bool * bool * bool :=
  (has_flag (parsing_and_sanitization_flags rep) parsing_FAILED,
   has_flag (resolve_flags rep) resolve_FAILED,
   has_flag (status_check_flags rep) (U8_MAX - Z.lor status_REQUESTED status_PERFORMED)).

(** Evict the lowest priority checked transaction. *)
Definition evict_checked (id : PriorityId) : M S unit :=
  emit_tx_event (key id) (priority id) (Evict CheckedCapacity) ;;
  drop_transaction (key id).

Definition on_check (m : PriorityId) (rep : CheckResponse)
    (resolved_keys : option (list Pubkey)) : M S TxDecision :=
  let* s := self id in
  (* If transaction is currently executing (or deferred), ignore the recheck result. *)
  if bool_decide (key m ∈ executing_tx s) || iset_contains m (deferred_tx s) then mret Keep
  else
  let '(parsing_failed, resolve_failed, status_failed) := check_failures rep in
  if parsing_failed || resolve_failed || status_failed then
    let* reason :=
      match parsing_failed, resolve_failed, status_failed with
      | true, false, false => mret ParseOrSanitize
      | false, true, false => mret AccountResolution
      | false, false, true => mret StatusCheck
      | _, _, _ => panic (PUnreachable "on_check: reason")
      end in
    emit_tx_event (key m) (priority m) (CheckErr reason) ;;
    increment m_check_err 1 ;;
    bump check_err 1 ;;
    (* NB: If we are re-checking then we must remove here. *)
    let* _ := remove_checked m in
    mret Drop
  else
  (* Sanity check the flags. *)
  assert "on_check: fee_payer_balance_flags"
    (fee_payer_balance_flags rep =? Z.lor fee_payer_REQUESTED fee_payer_PERFORMED) ;;
  assert "on_check: resolve_flags"
    (resolve_flags rep =? Z.lor resolve_REQUESTED resolve_PERFORMED) ;;
  assert "on_check: status requested" (has_flag (status_check_flags rep) status_REQUESTED) ;;
  assert "on_check: status performed" (has_flag (status_check_flags rep) status_PERFORMED) ;;
  (* If already in checked_tx, this is a recheck completing - nothing to do. *)
  if btree_contains m (checked_tx s) then
    increment m_check_ok 1 ;;
    bump check_ok 1 ;;
    mret Keep
  else
  (* Apply the filter list against resolved ALT keys. *)
  if existsb (λ k, bool_decide (k ∈ filter_keys s)) (default [] resolved_keys) then
    increment m_check_filtered 1 ;;
    bump check_filtered 1 ;;
    mret Drop
  else
  (* First check. Evict lowest priority if at capacity. *)
  when (checked_capacity s <=? pending_len s)%nat (
    let* o := pop_first_checked in
    let* id := unwrap "on_check: pop_first" o in
    evict_checked id ;;
    increment m_check_evict 1 ;;
    bump check_evict 1) ;;
  (* Insert the new transaction (yes this may be lower priority than what we just
     evicted but that's fine). *)
  insert_checked m ;;
  emit_tx_event (key m) (priority m) CheckOk ;;
  increment m_check_ok 1 ;;
  bump check_ok 1 ;;
  mret Keep.

Definition on_execute (m : PriorityId) (rep : ExecutionResponse) : M S TxDecision :=
  (* Remove from executing set now that execution is complete. *)
  let* was := remove_executing (key m) in
  assert "on_execute: executing" was ;;
  (* Remove in-flight costs. *)
  let* cus := self in_flight_cus in
  let* cus' := of_res (u64_sub "on_execute: in_flight_cus" cus (cost m)) in
  update (λ s, s <| in_flight_cus := cus' |>) ;;
  (* Remove in flight locks. *)
  unlock (key m) ;;
  (* Emit event and update metrics. *)
  let* action :=
    (if not_included_reason rep =? reason_NONE then
       bump execute_ok 1 ;; increment m_execute_ok 1 ;; mret ExecuteOk
     else
       bump execute_err 1 ;; increment m_execute_err 1 ;;
       mret (ExecuteErr (not_included_reason rep))) in
  emit_tx_event (key m) (priority m) action ;;
  (* If non retryable or a bundle, just drop immediately. *)
  if (priority m =? BUNDLE_MARKER) || negb (is_retryable (not_included_reason rep)) then
    mret Drop
  else
  (* If we attempted on this slot already, defer to next slot. Unless this was a lock
     conflict, then we can immediately retry. *)
  let* sl := self slot in
  (if (execution_slot rep =? sl) && negb (not_included_reason rep =? ACCOUNT_IN_USE) then
     let* d := self deferred_tx in
     let '(new, d') := iset_insert m d in
     update (λ s, s <| deferred_tx := d' |>) ;;
     assert "on_execute: deferred" new
   else
     insert_checked m) ;;
  (* Evict from checked_tx if over capacity. *)
  let* s := self id in
  when (checked_capacity s <? pending_len s)%nat (
    let* o := pop_first_checked in
    match o with
    | Some evicted =>
        evict_checked evicted ;;
        increment m_execute_evict 1
    | None => mret tt
    end) ;;
  mret Keep.

Definition on_unprocessed (m : PriorityId) : M S TxDecision :=
  (* Release locks if this was an execute request. *)
  let* was := remove_executing (key m) in
  if was then
    unlock (key m) ;;
    let* cus := self in_flight_cus in
    let* cus' := of_res (u64_sub "unprocessed: in_flight_cus" cus (cost m)) in
    update (λ s, s <| in_flight_cus := cus' |>) ;;
    if priority m =? BUNDLE_MARKER then mret Drop
    else
      emit_tx_event (key m) (priority m) ExecuteUnprocessed ;;
      increment m_execute_unprocessed 1 ;;
      bump execute_unprocessed 1 ;;
      insert_checked m ;;
      mret Keep
  else mret Keep.

(** The closure given to [drain_worker]. *)
Definition on_response (r : WorkerResponse) : M S TxDecision :=
  match wr_response r with
  | Unprocessed => on_unprocessed (wr_meta r)
  | Check_ rep resolved_keys => on_check (wr_meta r) rep resolved_keys
  | Execute_ rep => on_execute (wr_meta r) rep
  end.

Definition drain_worker_responses : M S unit :=
  let* n := bridge w_worker_count in
  for_each (seq 0 n) (λ worker, w_drain_worker worker on_response).

(** ** Ingestion *)

Definition evict_unchecked : M S unit :=
  let* h := self unchecked_tx in
  let* ' (id, h') := unwrap "pop_min" (heap_pop_min h) in
  update (λ s, s <| unchecked_tx := h' |>) ;;
  emit_tx_event (key id) (priority id) (Evict UncheckedCapacity) ;;
  drop_transaction (key id).

(** The closure given to [drain_tpu]. *)
Definition on_tpu (k : TransactionKey) : M S TxDecision :=
  let* p := bridge w_progress in
  let* s := self id in
  let* remaining_cu := of_res (effective_remaining_cu p s) in
  let* rt := bridge w_runtime in
  let* tx := transaction k in
  let* pc := of_res (calculate_priority rt remaining_cu tx s) in
  match pc with
  | Some (prio, c) =>
      let* s := self id in
      if should_filter_static s (data tx) then
        increment m_recv_tpu_filtered 1 ;;
        bump ingest_tpu_filtered 1 ;;
        mret Drop
      else
        update (λ s, s <| unchecked_tx ::= heap_push {| priority := prio; cost := c; key := k |} |>) ;;
        emit_tx_event k prio (Ingest Tpu None) ;;
        increment m_recv_tpu_ok 1 ;;
        bump ingest_tpu_ok 1 ;;
        mret Keep
  | None =>
      increment m_recv_tpu_err 1 ;;
      bump ingest_tpu_err 1 ;;
      mret Drop
  end.

Definition drain_tpu (max_count : nat) : M S unit :=
  let* len := bridge w_tpu_len in
  let additional := Nat.min len max_count in
  let* s := self id in
  let shortfall := (heap_len (unchecked_tx s) + additional - unchecked_capacity s)%nat in
  (* NB: Technically we are evicting more than we need to because not all of
     [additional] will parse correctly & thus have a priority. *)
  for_each (seq 0 shortfall) (λ _, evict_unchecked) ;;
  increment m_recv_tpu_evict (Z.of_nat shortfall) ;;
  bump ingest_tpu_evict (Z.of_nat shortfall) ;;
  w_drain_tpu on_tpu max_count.

Definition on_packet (packet : u8s) : M S unit :=
  let* o := insert_transaction packet in
  match o with
  | None => mret tt
  | Some k =>
      let* p := bridge w_progress in
      let* s := self id in
      let* remaining_cu := of_res (effective_remaining_cu p s) in
      let* rt := bridge w_runtime in
      let* tx := transaction k in
      let* pc := of_res (calculate_priority rt remaining_cu tx s) in
      match pc with
      | Some (prio, c) =>
          let* s := self id in
          if should_filter_static s (data tx) then
            increment m_recv_packet_filtered 1 ;;
            bump ingest_custom_filtered 1 ;;
            drop_transaction k
          else
            (* Evict lowest if we're at capacity. *)
            when (heap_len (unchecked_tx s) =? unchecked_capacity s)%nat (
              evict_unchecked ;;
              increment m_recv_packet_evict 1) ;;
            (* Store the new packet. *)
            update (λ s, s <| unchecked_tx ::=
              heap_push {| priority := prio; cost := c; key := k |} |>) ;;
            emit_tx_event k prio (Ingest Jito None) ;;
            increment m_recv_packet_ok 1 ;;
            bump ingest_custom_ok 1
      | None =>
          increment m_recv_packet_err 1 ;;
          bump ingest_custom_err 1 ;;
          drop_transaction k
      end
  end.

(** Drop the entire bundle. *)
Definition drop_keys (ks : list TransactionKey) : M S unit := for_each ks drop_transaction.

(** The loop of [on_bundle] over the packets: the keys so far, the total cost
    and the total score.  [None]: the bundle was dropped. *)
Fixpoint ingest_bundle (packets : list u8s) (ks : list TransactionKey)
    (total_cost total_score : Z) : M S (option (list TransactionKey * Z * Z)) :=
  match packets with
  | [] => mret (Some (ks, total_cost, total_score))
  | packet :: packets' =>
      let* o := insert_transaction packet in
      match o with
      | None =>
          drop_keys ks ;;
          increment m_recv_bundle_err 1 ;;
          mret None
      | Some k =>
          (* Add to our bundle keys. *)
          let ks := ks ++ [k] in
          let* rt := bridge w_runtime in
          let* tx := transaction k in
          match derive_costs (data tx) (feature_set rt) with
          | None =>
              drop_keys ks ;;
              increment m_recv_bundle_err 1 ;;
              mret None
          | Some costs =>
              let* tip := of_res (extract_tip (data tx)) in
              let* s := self id in
              let* o := of_res (score_with_auction costs (locks tx) tip s) in
              match o with
              | None =>
                  drop_keys ks ;;
                  increment m_recv_bundle_err 1 ;;
                  mret None
              | Some (score, cost) =>
                  (* Apply minimum score filter. *)
                  if score <? min_score (scoring s) then
                    drop_keys ks ;;
                    increment m_recv_bundle_err 1 ;;
                    mret None
                  else
                    let* total_cost := of_res (u64_add "on_bundle: total_cost" total_cost cost) in
                    let* total_score := of_res (u64_add "on_bundle: total_score" total_score score) in
                    ingest_bundle packets' ks total_cost total_score
              end
          end
      end
  end.

(** Leave the queues and drop. *)
Definition discard_keys (ks : list TransactionKey) : M S unit :=
  for_each ks (λ k, dequeue_tx k ;; drop_transaction k).

Definition evict_bundle : M S unit :=
  let* b := self bundles in
  let* ' (evicted, b') := unwrap "on_bundle: pop_first" (btree_pop_first b) in
  update (λ s, s <| bundles := b' |>) ;;
  discard_keys (keys evicted) ;;
  increment m_recv_bundle_evict 1.

Definition bundle_priority (total_score : Z) : Z :=
  Z.min (saturating_mul total_score PRIORITY_MULTIPLIER) (BUNDLE_MARKER - 1).

(** [keys.iter().any(|key| self.should_filter_static(..))]. *)
Fixpoint any_filtered (ks : list TransactionKey) : M S bool :=
  match ks with
  | [] => mret false
  | k :: ks' =>
      let* tx := transaction k in
      let* s := self id in
      if should_filter_static s (data tx) then mret true else any_filtered ks'
  end.

Definition on_bundle (packets : list u8s) : M S unit :=
  let* o := ingest_bundle packets [] 0 0 in
  match o with
  | None => mret tt
  | Some (ks, total_cost, total_score) =>
      (* Filter bundles containing transactions that reference filtered accounts. *)
      let* filtered := any_filtered ks in
      if filtered then
        increment m_recv_bundle_filtered 1 ;;
        drop_keys ks
      else
        (* Calculate bundle priority. *)
        let prio := bundle_priority total_score in
        (* Emit ingest events for bundle transactions. *)
        let* k0 := unwrap "on_bundle: keys[0]" (ks !! 0%nat) in
        let* tx0 := transaction k0 in
        let* sig := unwrap "on_bundle: signatures()[0]" (tv_signatures (data tx0) !! 0%nat) in
        let bundle_id := signature_to_string sig in
        for_each ks (λ k, emit_tx_event k prio (Ingest Jito (Some bundle_id))) ;;
        (* Evict lowest priority bundle if at capacity. *)
        let* s := self id in
        when (length (bundles s) =? bundle_capacity s)%nat evict_bundle ;;
        increment m_recv_bundle_ok 1 ;;
        (* Enqueue locks for the new bundle. *)
        for_each ks queue_tx ;;
        let* now := call w_instant_now in
        update (λ s, s <| bundles ::= λ l, (btree_insert
          {| b_priority := prio; b_cost := total_cost; received_at := now; keys := ks |} l).2 |>)
  end.

(** [duration_since] saturates at zero. *)
Definition is_expired (now expiry : Z) (b : BundleId) : bool :=
  expiry <? Z.max 0 (now - received_at b).

Definition drop_expired_bundles : M S unit :=
  let* now := call w_instant_now in
  let* s := self id in
  (* Retain only non-expired bundles, dropping expired ones. *)
  let '(expired, kept) :=
    btree_extract_if (is_expired now (bundle_expiry (runtime s))) (bundles s) in
  update (λ s, s <| bundles := kept |>) ;;
  for_each expired (λ b,
    update (λ s, s <| bundles ::= λ l, (btree_remove b l).2 |>) ;;
    increment m_recv_bundle_expired 1 ;;
    discard_keys (keys b)).

(** One round of [drain_jito]'s [loop]. *)
Definition drain_jito_round : M S Flow :=
  let* r := call w_jito_try_recv in
  match r with
  | Received (JBuilderConfig _) => mret Continue
  | Received (JTipConfig c) => update (λ s, s <| tip_config := Some c |>) ;; mret Continue
  | Received (JRecentBlockhash h) => update (λ s, s <| recent_blockhash := h |>) ;; mret Continue
  | Received (JPacket packet) => on_packet packet ;; mret Continue
  | Received (JBundle bundle) => on_bundle bundle ;; mret Continue
  | Empty => mret Break
  | Disconnected =>
      let* cancelled := bridge w_shutdown_is_cancelled in
      assert "drain_jito: disconnected" cancelled ;;
      mret Continue
  end.

Definition drain_jito (fuel : nat) : M S unit := loop_fuel fuel drain_jito_round.

(** ** Checks *)

(** [while let Some(curr) = self.next_recheck.take() { ... }]: a transaction
    that is gone is put back into [next_recheck]. *)
Fixpoint recheck_next (fuel : nat) : M S (option KeyedTransactionMeta) :=
  match fuel with
  | O => hang
  | Datatypes.S fuel' =>
      let* s := self id in
      match next_recheck s with
      | None => mret None
      | Some curr =>
          update (λ s, s <| next_recheck := btree_below curr (checked_tx s) |>) ;;
          if btree_contains curr (checked_tx s) && bool_decide (key curr ∉ executing_tx s)
          then mret (Some {| km_key := key curr; km_meta := curr |})
          else
            update (λ s, s <| next_recheck := Some curr |>) ;;
            recheck_next fuel'
      end
  end.

Definition pop_next (fuel : nat) : M S (option KeyedTransactionMeta) :=
  let* h := self unchecked_tx in
  (* Prioritize unchecked transactions. *)
  match heap_pop_max h with
  | Some (id, h') =>
      update (λ s, s <| unchecked_tx := h' |>) ;;
      mret (Some {| km_key := key id; km_meta := id |})
  | None =>
      (* Re-check already checked transactions if we have remaining. *)
      recheck_next fuel
  end.

(** [schedule_batch.extend(from_fn(pop_next).take(n))]. *)
Fixpoint extend_batch (fuel n : nat) : M S unit :=
  match n with
  | O => mret tt
  | Datatypes.S n' =>
      let* o := pop_next fuel in
      match o with
      | None => mret tt
      | Some kt =>
          update (λ s, s <| schedule_batch ::= λ b, b ++ [kt] |>) ;;
          extend_batch fuel n'
      end
  end.

Definition check_flags : Z :=
  Z.lor (Z.lor (Z.lor pack_CHECK check_STATUS_CHECKS) check_LOAD_FEE_PAYER_BALANCE)
    check_LOAD_ADDRESS_LOOKUP_TABLES.

Definition schedule_checks_round (fuel : nat) : M S Flow :=
  let* len := bridge (λ w, w_worker_len w CHECK_WORKER) in
  let* rem := bridge (λ w, w_worker_rem w CHECK_WORKER) in
  let* s := self id in
  if (len <? max_check_batches (runtime s))%nat && (0 <? rem)%nat then
    (* Build the next batch. *)
    update (λ s, s <| schedule_batch := [] |>) ;;
    extend_batch fuel 64 ;;
    let* batch := self schedule_batch in
    match batch with
    | [] => mret Break (* If we built an empty batch we are done. *)
    | _ :: _ =>
        schedule {| sb_worker := CHECK_WORKER; sb_transactions := batch;
                    sb_max_working_slot := U64_MAX; sb_flags := check_flags |} ;;
        mret Continue
    end
  else mret Break.

(** Loop until worker queue is filled or backlog is empty. *)
Definition schedule_checks (fuel : nat) : M S unit :=
  let* start := self unchecked_tx in
  loop_fuel fuel (schedule_checks_round fuel) ;;
  let* h := self unchecked_tx in
  (* Update metrics with our scheduled amount. *)
  let requested := Z.of_nat (heap_len start - heap_len h) in
  increment m_check_requested requested ;;
  bump check_requested requested.

(** ** Execution *)

(** [checked_tx.iter().rev()], up to the first transaction that fits in the
    budget and can be locked. *)
Fixpoint find_schedulable (budget : Z) (txs : list PriorityId) : M S (option PriorityId) :=
  match txs with
  | [] => mret None
  | tx :: txs' =>
      if cost tx <=? budget then
        let* free := can_lock (key tx) in
        if free : bool then mret (Some tx) else find_schedulable budget txs'
      else find_schedulable budget txs'
  end.

(** Answers whether a transaction was scheduled, and what is left of the
    budget. What was scheduled is in [schedule_batch]. *)
Definition try_schedule_transaction (budget : Z) (worker : nat) : M S (bool * Z) :=
  let* l := self checked_tx in
  let* found_tx := find_schedulable budget (rev l) in
  match found_tx with
  | None => mret (false, budget)
  | Some tx =>
      (* Acquire locks centrally via auction engine. *)
      let* tx_locks := tx_locks_of (key tx) in
      let* ok := acquire_locks (key tx) tx_locks in
      if negb ok then mret (false, budget)
      else
      update_engine (AuctionEngine.queue_transaction tx_locks) ;;
      update (λ s, s <| schedule_batch ::= λ b, b ++ [{| km_key := key tx; km_meta := tx |}] |>) ;;
      (* Schedule the batch. *)
      let* batch := self schedule_batch in
      let* p := bridge w_progress in
      let* max_slot := of_res (u64_add "current_slot + 1" (current_slot p) 1) in
      schedule {| sb_worker := worker; sb_transactions := batch;
                  sb_max_working_slot := max_slot; sb_flags := pack_EXECUTE |} ;;
      (* Update state. *)
      let* budget' := of_res (u64_sub "budget" budget (cost tx)) in
      let* cus := self in_flight_cus in
      let* cus' := of_res (u64_add "in_flight_cus" cus (cost tx)) in
      update (λ s, s <| in_flight_cus := cus' |>) ;;
      let* removed := remove_checked tx in
      assert "try_schedule_transaction: remove_checked" removed ;;
      mret (true, budget')
  end.

(** [keys.iter().all(|k| can_lock(k))]. *)
Fixpoint all_can_lock (ks : list TransactionKey) : M S bool :=
  match ks with
  | [] => mret true
  | k :: ks' =>
      let* free := can_lock k in
      if free then all_can_lock ks' else mret false
  end.

(** The batch of a bundle: the marker as priority, and the whole cost on the
    first transaction. *)
Definition bundle_batch (b : BundleId) : list KeyedTransactionMeta :=
  imap (λ i k, {| km_key := k;
                  km_meta := {| priority := BUNDLE_MARKER;
                                cost := match i with O => b_cost b | _ => 0 end;
                                key := k |} |}) (keys b).

Definition bundle_flags : Z :=
  Z.lor (Z.lor pack_EXECUTE execution_DROP_ON_FAILURE) execution_ALL_OR_NOTHING.

(** [&keys[..keys.iter().position(|x| x == k)]]. *)
Fixpoint keys_before (k : TransactionKey) (ks : list TransactionKey) : list TransactionKey :=
  match ks with
  | [] => []
  | k' :: ks' => if decide (k' = k) then [] else k' :: keys_before k ks'
  end.

Definition release_keys (ks : list TransactionKey) : M S unit := for_each ks unlock.

(** Acquire the locks of [ks], the rest of the bundle [all]; when one cannot be
    acquired, release those acquired before it. *)
Fixpoint acquire_all (all ks : list TransactionKey) : M S bool :=
  match ks with
  | [] => mret true
  | k :: ks' =>
      let* tx_locks := tx_locks_of k in
      let* ok := acquire_locks k tx_locks in
      if negb ok then
        release_keys (keys_before k all) ;;
        mret false
      else
        update_engine (AuctionEngine.queue_transaction tx_locks) ;;
        acquire_all all ks'
  end.

Definition try_schedule_bundle (budget : Z) (worker : nat) : M S Z :=
  let* bs := self bundles in
  let* bundle := unwrap "try_schedule_bundle: last" (btree_last bs) in
  (* Check this fits in budget. *)
  if budget <? b_cost bundle then mret budget
  else
  (* See if the bundle can be scheduled without conflicts. *)
  let* free := all_can_lock (keys bundle) in
  if negb free then mret budget
  else
  (* Acquire locks centrally via auction engine for each tx in the bundle. *)
  let* ok := acquire_all (keys bundle) (keys bundle) in
  if negb ok then mret budget
  else
  update (λ s, s <| schedule_batch ::= λ b, b ++ bundle_batch bundle |>) ;;
  let* batch := self schedule_batch in
  let* p := bridge w_progress in
  let* max_slot := of_res (u64_add "current_slot + 1" (current_slot p) 1) in
  schedule {| sb_worker := worker; sb_transactions := batch;
              sb_max_working_slot := max_slot; sb_flags := bundle_flags |} ;;
  (* Update state. *)
  let* budget' := of_res (u64_sub "budget" budget (b_cost bundle)) in
  let* cus := self in_flight_cus in
  let* cus' := of_res (u64_add "in_flight_cus" cus (b_cost bundle)) in
  update (λ s, s <| in_flight_cus := cus' |>) ;;
  (* Dequeue bundle transactions. *)
  for_each (keys bundle) dequeue_tx ;;
  let* bs := self bundles in
  let* ' (_, bs') := unwrap "try_schedule_bundle: pop_last" (btree_pop_last bs) in
  update (λ s, s <| bundles := bs' |>) ;;
  mret budget'.

(** For each TX of the batch: add to [executing_tx], emit an event. *)
Definition declare_executing (batch : list KeyedTransactionMeta) : M S unit :=
  for_each batch (λ tx,
    let* new := insert_executing (km_key tx) in
    assert "schedule_execute: executing" new ;;
    emit_tx_event (km_key tx) (priority (km_meta tx)) ExecuteReq).

(** The body of [schedule_execute]'s loop over the workers. *)
Definition schedule_execute_worker (worker : nat) (budget : Z) : M S (Flow * Z) :=
  (* If we are packing too fast, slow down. *)
  if budget =? 0 then mret (Break, budget)
  else
  (* If the worker already has a pending job, don't give it any more. *)
  let* len := bridge (λ w, w_worker_len w worker) in
  if negb (len =? 0)%nat then mret (Continue, budget)
  else
  (* Find the best tx & bundle, if both are empty we're done. *)
  let* s := self id in
  let tx := priority <$> btree_last (checked_tx s) in
  let bundle := b_priority <$> btree_last (bundles s) in
  (* Pick & schedule the best. *)
  update (λ s, s <| schedule_batch := [] |>) ;;
  let* ' (none, budget) :=
    match tx, bundle with
    | Some tx, Some bundle =>
        match rcmp tx bundle with
        | Gt | Eq =>
            let* ' (scheduled, b) := try_schedule_transaction budget worker in
            if scheduled : bool then mret (false, b)
            else let* b := try_schedule_bundle b worker in mret (false, b)
        | Lt => let* b := try_schedule_bundle budget worker in mret (false, b)
        end
    | Some _, None => let* r := try_schedule_transaction budget worker in mret (false, r.2)
    | None, Some _ => let* b := try_schedule_bundle budget worker in mret (false, b)
    | None, None => mret (true, budget)
    end in
  if none : bool then mret (Break, budget)
  else
  (* If we failed to schedule anything, don't send the batch. *)
  let* batch := self schedule_batch in
  match batch with
  | [] => mret (Break, budget)
  | _ :: _ =>
      declare_executing batch ;;
      (* The metric is commented out in the source. *)
      bump execute_requested (Z.of_nat (length batch)) ;;
      mret (Continue, budget)
  end.

(** The budget of a round: the block share we may have filled by now, minus
    what is used or in flight. *)
Definition execution_budget (p : ProgressMessage) (s : Sched) : Res Z :=
  pct ← u8_add "budget_percentage" (current_slot_progress p) (block_fill_cutoff (runtime s));
  product ← u64_mul "budget_limit" MAX_BLOCK_UNITS_SIMD_0256 (Z.min pct 100);
  let budget_limit := product / 100 in
  cost_used ← u64_add "cost_used"
    (saturating_sub MAX_BLOCK_UNITS_SIMD_0256 (remaining_cost_units p)) (in_flight_cus s);
  mret (saturating_sub budget_limit cost_used).

Definition schedule_execute : M S unit :=
  let* p := bridge w_progress in
  when overflow_checks (assert "debug: leader ready" (leader_state p =? LEADER_READY)) ;;
  let* s := self id in
  let* budget := of_res (execution_budget p s) in
  let* n := bridge w_worker_count in
  let* _ := for_acc (seq EXECUTE_WORKER_START (n - EXECUTE_WORKER_START)) budget
              schedule_execute_worker in
  mret tt.

(** ** [poll] *)

Definition update_metrics : M S unit :=
  let* p := bridge w_progress in
  let* s := self id in
  set_gauge m_current_slot (current_slot p) ;;
  set_gauge m_next_leader_slot (next_leader_slot p) ;;
  set_gauge m_tpu_unchecked_len (Z.of_nat (heap_len (unchecked_tx s))) ;;
  set_gauge m_tpu_checked_len (Z.of_nat (length (checked_tx s))) ;;
  set_gauge m_executing_len (Z.of_nat (size (executing_tx s))) ;;
  set_gauge m_tpu_deferred_len (Z.of_nat (iset_len (deferred_tx s))) ;;
  set_gauge m_bundles_len (Z.of_nat (length (bundles s))) ;;
  set_gauge m_locks_len (Z.of_nat (LockManager.tracked_accounts (lock_manager (auction_engine s)))) ;;
  set_gauge m_in_flight_cus (in_flight_cus s).

Definition poll (fuel : nat) : M S unit :=
  (* Drain the progress tracker & check for roll. *)
  check_slot_roll ;;
  (* Drain responses from workers. *)
  drain_worker_responses ;;
  (* Process auction engine tick with current market state. *)
  process_auction_tick ;;
  (* Ingest a bounded amount of new transactions. *)
  let* p := bridge w_progress in
  let is_leader := leader_state p =? LEADER_READY in
  (if is_leader then drain_tpu 128 else drain_tpu 1024) ;;
  (* Drop expired bundles. *)
  drop_expired_bundles ;;
  (* Drain pending jito messages. *)
  drain_jito fuel ;;
  (* Queue additional checks. *)
  schedule_checks fuel ;;
  (* Schedule if we're currently the leader. *)
  when is_leader (
    schedule_execute ;;
    (* Start another recheck if we are not currently performing one. *)
    start_recheck) ;;
  update_metrics.

End AuctionBatchScheduler.
