(* ===== verification/AuctionScoring.v ===== *)
(** * Scores and rechecks of the auction scheduler

    The bounds of the priorities, the arithmetic of the remaining CUs, and the
    recheck loop, which spins when its next transaction is gone. *)

From S2P Require Import Prelude F64 BTreeSet Types Events Externals TipProgram Costs Common.
From S2P Require Import AuctionLocks AuctionEngine AuctionScheduler.

Section Scoring.
Context `{Profile} `{AgaveBindings} `{World W} `{LibM} `{HashMapOrder} {Heap DSet : Type}
  `{MinMaxHeap Heap PriorityId} `{IndexSet DSet PriorityId}.
Abbreviation Sched := (AuctionBatchScheduler Heap DSet).
Abbreviation S := (St Sched W).

Lemma scale_priority_bounds surplus : 0 ≤ scale_priority surplus < BUNDLE_MARKER.
Proof.
  unfold scale_priority. set (x := f64_max _ _).
  assert (narrow x) as Hx.
  { apply f64_max_narrow; [|done]. apply f64_add_narrow; [apply f64_mul_narrow|apply f64_of_Z_narrow]. }
  replace (f64_of_Z (BUNDLE_MARKER - 1)) with (f64_of_Z (2 ^ 64)) by by vm_compute.
  destruct (f64_ge x (f64_of_Z (2 ^ 64))) eqn:Hge.
  - unfold BUNDLE_MARKER, U64_MAX. lia.
  - pose proof (f64_to_u64_below x Hx Hge). unfold BUNDLE_MARKER, U64_MAX. lia.
Qed.

(** C33: the auction never rejects a transaction and never gives it the priority
    that marks bundles, whatever the prices are (NaN and infinities included):
    the score is below [BUNDLE_MARKER] and the cost is the cost model's. The
    only panic is the overflow of fee plus tip. *)
Theorem score_with_auction_bounds costs all_locks tip (s : Sched) :
  match score_with_auction costs all_locks tip s with
  | Ok (Some (prio, c)) => 0 ≤ prio < BUNDLE_MARKER ∧ c = Costs.total_cost costs
  | Ok None => False
  | Panicked p => p = POverflow "score_with_auction: fee + tip"
  | Hang => False
  end.
Proof.
  unfold score_with_auction. destruct (count_locks all_locks) as [nw nr].
  destruct (u64_add _ _ _) as [fee|p|] eqn:Hfee; simpl.
  - split; [apply scale_priority_bounds|done].
  - by apply checked_result_panic in Hfee.
  - by apply checked_result_no_hang in Hfee.
Qed.

(** What is left of the block: the validator's remaining CUs minus those in
    flight. When more is in flight than remains the subtraction underflows: it
    panics in a build with overflow checks, and wraps around without them. *)
Lemma effective_remaining_cu_spec p (s : Sched) :
  is_u64 MAX_BLOCK_UNITS_SIMD_0256 → 0 ≤ remaining_cost_units p ≤ MAX_BLOCK_UNITS_SIMD_0256 →
  is_u64 (in_flight_cus s) →
  effective_remaining_cu p s =
    if decide (in_flight_cus s ≤ remaining_cost_units p)
    then Ok (remaining_cost_units p - in_flight_cus s)
    else if overflow_checks then Panicked (POverflow "effective_remaining_cu: in_flight_cus")
    else Ok (remaining_cost_units p - in_flight_cus s + 2 ^ 64).
Proof.
  intros Hmax Hrem Hcus. unfold effective_remaining_cu, is_u64, U64_MAX in *.
  rewrite u64_sub_ok by (unfold is_u64, U64_MAX; lia). simpl.
  rewrite u64_sub_ok by (unfold is_u64, U64_MAX; lia). simpl.
  replace (MAX_BLOCK_UNITS_SIMD_0256 - (MAX_BLOCK_UNITS_SIMD_0256 - remaining_cost_units p))
    with (remaining_cost_units p) by lia.
  unfold u64_sub, checked_result. case_decide as Hle; case_decide as Hz; try lia; [done|].
  destruct overflow_checks; [done|]. f_equal.
  symmetry. apply Z.mod_unique_pos with (q := -1); lia.
Qed.

(** ** Rechecks *)

(** The next transaction to recheck is gone from the checked ones, or is
    executing. *)
Definition recheck_gone (s : Sched) : Prop :=
  ∃ curr, next_recheck s = Some curr ∧
    btree_contains curr (checked_tx s) && bool_decide (key curr ∉ executing_tx s) = false.

Lemma recheck_next_spins fuel (st : S) : recheck_gone (sch st) → recheck_next fuel st = Hang.
Proof.
  revert st. induction fuel as [|fuel IH]; intros st (curr & Hn & Hg); [done|].
  simpl. unfold bindM, self, gets. simpl. rewrite Hn, Hg. unfold update, modify. simpl.
  apply IH. exists curr. by simpl.
Qed.

(** C26: [schedule_checks] never ends when the next transaction to recheck has
    been scheduled or removed meanwhile, nothing is unchecked, and the check
    worker has room: the loop puts the transaction it skips back into
    [next_recheck]. *)
Theorem schedule_checks_spins fuel (st : S) :
  recheck_gone (sch st) → heap_pop_max (unchecked_tx (sch st)) = None →
  (w_worker_len (wld st) CHECK_WORKER < max_check_batches (runtime (sch st)))%nat →
  (0 < w_worker_rem (wld st) CHECK_WORKER)%nat →
  schedule_checks fuel st = Hang.
Proof.
  intros Hg Hh Hlen Hrem. unfold schedule_checks.
  assert (∀ f, loop_fuel fuel (schedule_checks_round f) st = Hang) as Hloop.
  { intros f. destruct fuel as [|fuel']; [done|]. simpl. unfold bindM at 1.
    assert (schedule_checks_round f st = Hang) as ->; [|done].
    unfold schedule_checks_round. unfold bindM at 1, bridge at 1, gets at 1. cbn beta iota.
    unfold bindM at 1, bridge at 1, gets at 1. cbn beta iota.
    unfold bindM at 1, self at 1, gets at 1. cbn beta iota. simpl (id _).
    rewrite (proj2 (Nat.ltb_lt _ _) Hlen), (proj2 (Nat.ltb_lt _ _) Hrem). cbn [andb].
    unfold bindM at 1, update at 1, modify at 1. cbn beta iota.
    unfold bindM at 1. set (st' := set sch _ st).
    assert (extend_batch f 64 st' = Hang) as ->; [|done].
    unfold extend_batch. unfold bindM at 1, pop_next at 1. unfold bindM at 1, self at 1, gets at 1.
    cbn beta iota. unfold st' at 1. cbn [sch]. simpl (unchecked_tx _). rewrite Hh.
    rewrite recheck_next_spins; [done|]. destruct Hg as (curr & Hn & Hc). by exists curr. }
  unfold bindM at 1, self at 1, gets at 1. cbn beta iota.
  unfold bindM at 1. by rewrite Hloop.
Qed.
End Scoring.
