(* ===== verification/AuctionHandlers.v ===== *)
(** * Worker responses of the auction scheduler

    What the end of an execution does to the engine's locks, and where the
    transaction goes. *)

From S2P Require Import Prelude F64 BTreeSet Types Events Externals TipProgram Costs Common.
From S2P Require Import AuctionLocks AuctionEngine AuctionState AuctionScheduler.

Section Handlers.
Context `{Profile} `{AgaveBindings} `{World W} `{!WorldLaws} `{LibM} `{HashMapOrder}
  {Heap DSet : Type} `{MinMaxHeap Heap PriorityId}
  `{IndexSet DSet PriorityId} `{!IndexSetLaws DSet PriorityId}.
Abbreviation Sched := (AuctionBatchScheduler Heap DSet).
Abbreviation S := (St Sched W).

(** ** Calls that leave the engine and the collections alone *)

Definition same_sched (s s' : Sched) : Prop := ∃ stats, s' = s <| slot_stats := stats |>.

Definition quiet (st st' : S) : Prop :=
  same_sched (sch st) (sch st') ∧ w_transaction (wld st') = w_transaction (wld st).

#[export] Instance quiet_refl : Reflexive quiet.
Proof. intros [s w]. split; [|done]. exists (slot_stats s). by destruct s. Qed.

#[export] Instance quiet_trans : Transitive quiet.
Proof.
  intros st1 st2 st3 [[a1 Hs1] Hw1] [[a2 Hs2] Hw2]. split.
  - exists a2. by rewrite Hs2, Hs1.
  - by rewrite Hw2.
Qed.

(** A transaction that is in the bridge. *)
Definition live (w : W) (k : TransactionKey) : Prop :=
  ∃ tx, w_transaction w k = Some tx ∧ signed tx.

Lemma auction_quiet_live st st' k : quiet st st' → live (wld st) k → live (wld st') k.
Proof. intros [_ Hw]. unfold live. by rewrite Hw. Qed.

(** A statistics counter or a slot number at the end of its range, and a full
    worker queue. *)
Definition benign (p : Panic) : Prop :=
  p ∈ [POverflow "slot_stats"; POverflow "current_slot + 1"; PUnwrap "bridge.schedule"].

Lemma auction_wp_increment m n Q (st : S) :
  (∀ st', quiet st st' → Q tt st') → wp benign (increment m n) Q st.
Proof.
  intros HQ. apply wp_update_world, HQ. split; [by exists (slot_stats (sch st)); destruct (sch st)|].
  apply metric_increment_transaction.
Qed.

Lemma auction_wp_bump (field : SlotStatsEvent → Z) `{!Setter field} n Q (st : S) :
  (∀ st', quiet st st' → Q tt st') → wp benign (bump field n) Q st.
Proof.
  intros HQ. unfold bump. wp_steps. apply wp_of_res_cases.
  - intros v _. wp_steps. apply HQ. split; [eexists; reflexivity|reflexivity].
  - intros p ->%checked_result_panic. unfold benign. set_solver.
  - apply checked_result_no_hang.
Qed.

Lemma auction_wp_emit_tx_event k prio action Q (st : S) :
  live (wld st) k → (∀ st', quiet st st' → Q tt st') → wp benign (emit_tx_event k prio action) Q st.
Proof.
  intros (tx & Htx & Hsig) HQ. unfold emit_tx_event. wp_steps.
  destruct (events (sch st)) as [e|]; [|by apply wp_ret, HQ].
  wp_step. apply (wp_transaction _ _ tx); [done|].
  destruct (is_simple_vote tx); [by apply wp_ret, HQ|].
  wp_step. apply wp_unwrap.
  { unfold signed in Hsig. destruct (tv_signatures (data tx)); [done|]. intros [=]. }
  intros sig _. wp_steps. unfold emit. wp_steps. apply HQ.
  split; [by exists (slot_stats (sch st)); destruct (sch st)|]. simpl.
  by rewrite events_transaction, utc_now_transaction.
Qed.

(** ** Calls on the engine *)

(** What can be said of the engine apart from its queues. *)
Definition same_locks (s s' : Sched) : Prop :=
  locks_of (auction_engine s') = locks_of (auction_engine s).

Lemma wp_tx_locks_of E k tx Q (st : S) :
  w_transaction (wld st) k = Some tx → Q (locks tx) st → wp E (tx_locks_of k) Q st.
Proof. intros Htx HQ. unfold tx_locks_of. wp_step. apply (wp_transaction _ _ tx); [done|]. by wp_steps. Qed.

Lemma wp_unlock E k tx Q (st : S) :
  w_transaction (wld st) k = Some tx →
  Q tt (mk ((sch st) <| auction_engine ::= AuctionEngine.release_locks k (locks tx) |>) (wld st)) →
  wp E (unlock k) Q st.
Proof. intros Htx HQ. unfold unlock. wp_step. apply (wp_tx_locks_of _ _ tx); [done|]. exact HQ. Qed.

Lemma auction_wp_insert_checked E m tx Q (st : S) :
  w_transaction (wld st) (key m) = Some tx →
  Q tt (mk ((sch st) <| auction_engine ::= AuctionEngine.queue_transaction (locks tx) |>
                     <| checked_tx ::= insert_sorted m |>) (wld st)) →
  wp E (insert_checked m) Q st.
Proof.
  intros Htx HQ. unfold insert_checked, queue_tx. wp_step. wp_step.
  apply (wp_tx_locks_of _ _ tx); [done|]. exact HQ.
Qed.

Lemma wp_pop_first_checked E Q (st : S) :
  (∀ m, m ∈ checked_tx (sch st) → live (wld st) (key m)) →
  (checked_tx (sch st) = [] → Q None st) →
  (∀ m l tx, checked_tx (sch st) = m :: l → w_transaction (wld st) (key m) = Some tx →
     Q (Some m) (mk ((sch st) <| checked_tx := l |>
                              <| auction_engine ::= AuctionEngine.dequeue_transaction (locks tx) |>) (wld st))) →
  wp E pop_first_checked Q st.
Proof.
  intros Hl HN HS. unfold pop_first_checked. wp_steps. destruct (checked_tx (sch st)) as [|m l] eqn:Hc; simpl.
  - wp_steps. by apply HN.
  - destruct (Hl m ltac:(by left)) as (tx & Htx & _). wp_steps. unfold dequeue_tx. wp_step.
    apply (wp_tx_locks_of _ _ tx); [done|]. unfold update_engine. wp_steps. by apply HS.
Qed.

(** ** The end of an execution *)

(** The transaction's locks on its own accounts are gone, nobody else's are
    touched, and the table is in order. *)
Definition released (k : TransactionKey) (tx : TransactionState) (s s' : Sched) : Prop :=
  exclusive (locks_of (auction_engine s')) ∧
  ∀ a k' w, holder (locks_of (auction_engine s')) a k' w ↔
    ¬ (k' = k ∧ a ∈ (locks tx).*1) ∧ holder (locks_of (auction_engine s)) a k' w.

Lemma release_released k tx e :
  exclusive (locks_of e) →
  exclusive (locks_of (AuctionEngine.release_locks k (locks tx) e)) ∧
  ∀ a k' w, holder (locks_of (AuctionEngine.release_locks k (locks tx) e)) a k' w ↔
    ¬ (k' = k ∧ a ∈ (locks tx).*1) ∧ holder (locks_of e) a k' w.
Proof. intros He. split; [by apply exclusive_release|]. intros. apply holder_release. Qed.

(** The execution's key and CUs are gone, and its locks. *)
Definition ended (m : PriorityId) (tx : TransactionState) (s s' : Sched) : Prop :=
  released (key m) tx s s' ∧ executing_tx s' = (executing_tx s) ∖ {[key m]} ∧
  in_flight_cus s' = in_flight_cus s - cost m ∧ checked_capacity s' = checked_capacity s.

(** What an execution in flight comes with. *)
Record in_flight (m : PriorityId) (tx : TransactionState) (st : S) : Prop := {
  fl_executing : key m ∈ executing_tx (sch st);
  fl_tx : w_transaction (wld st) (key m) = Some tx;
  fl_signed : signed tx;
  fl_cus : is_u64 (in_flight_cus (sch st));
  fl_cost : 0 ≤ cost m ≤ in_flight_cus (sch st);
  fl_locks : exclusive (locks_of (auction_engine (sch st)));
  fl_not_deferred : m ∉ iset_elements (deferred_tx (sch st));
  fl_checked : ∀ m', m' ∈ checked_tx (sch st) → live (wld st) (key m');
}.

(** The state after the key, the CUs and the locks were given back. *)
Definition end_state (m : PriorityId) (tx : TransactionState) (s : Sched) : Sched :=
  s <| executing_tx ::= λ e, e ∖ {[key m]} |>
    <| in_flight_cus := in_flight_cus s - cost m |>
    <| auction_engine ::= AuctionEngine.release_locks (key m) (locks tx) |>.

Lemma end_state_ended m tx st : in_flight m tx st → ended m tx (sch st) (end_state m tx (sch st)).
Proof. intros Hf. split; [|done]. by apply release_released, Hf. Qed.

(** Later changes that do not undo it. *)
Lemma ended_same m tx s s1 s2 :
  ended m tx s s1 → same_locks s1 s2 → executing_tx s2 = executing_tx s1 →
  in_flight_cus s2 = in_flight_cus s1 → checked_capacity s2 = checked_capacity s1 → ended m tx s s2.
Proof.
  unfold ended, released, same_locks. intros ([He Hh] & ? & ? & ?) -> -> -> ->. by split_and!.
Qed.

(** The transaction goes to the next slot: it was tried on this one, and not
    for a lock conflict. *)
Definition deferred_by (rep : ExecutionResponse) (s : Sched) : bool :=
  (execution_slot rep =? slot s) && negb (not_included_reason rep =? ACCOUNT_IN_USE).

(** The eviction at the end of [on_execute], from the checked transactions
    [base]. *)
Definition evicted_from (base : list PriorityId) (s' : Sched) : Prop :=
  checked_tx s' =
    if decide (checked_capacity s' < length base + size (executing_tx s') + iset_len (deferred_tx s'))%nat
    then tail base else base.

Lemma wp_execute_evict m tx s0 (Q : unit → S → Prop) (st : S) :
  ended m tx s0 (sch st) → (∀ m', m' ∈ checked_tx (sch st) → live (wld st) (key m')) →
  (∀ st', ended m tx s0 (sch st') → evicted_from (checked_tx (sch st)) (sch st') →
     deferred_tx (sch st') = deferred_tx (sch st) → Q tt st') →
  wp benign (
    when (checked_capacity (sch st) <? pending_len (sch st))%nat (
      let* o := pop_first_checked in
      match o with
      | Some evicted => evict_checked evicted ;; increment m_execute_evict 1
      | None => mret tt
      end)) Q st.
Proof.
  intros He Hl HQ. unfold pending_len. apply wp_when; intros Hc.
  - apply Nat.ltb_lt in Hc. wp_step. apply wp_pop_first_checked; [done| |].
    + intros Hnil. wp_steps. apply HQ; [done| |done]. unfold evicted_from. rewrite decide_True by done. by rewrite Hnil.
    + intros m' l tx' Hm' Htx'. unfold evict_checked. wp_step. wp_step. apply auction_wp_emit_tx_event.
      { simpl. apply Hl. rewrite Hm'. by left. }
      intros st1 [[stats1 Hs1] _]. unfold drop_transaction. wp_steps. apply auction_wp_increment.
      intros st2 [[stats2 Hs2] _]. simpl in *. apply HQ.
      * rewrite Hs2, Hs1. by eapply ended_same.
      * unfold evicted_from. rewrite Hs2, Hs1. simpl. rewrite decide_True by done. by rewrite Hm'.
      * by rewrite Hs2, Hs1.
  - apply Nat.ltb_ge in Hc. apply HQ; [done| |done]. unfold evicted_from. by rewrite decide_False by lia.
Qed.

(** Where the transaction goes, and what else is left behind. *)
Definition settled (m : PriorityId) (tx : TransactionState) (rep : ExecutionResponse) (st : S)
    (d : TxDecision) (st' : S) : Prop :=
  ended m tx (sch st) (sch st') ∧
  if decide (priority m = BUNDLE_MARKER ∨ is_retryable (not_included_reason rep) = false)
  then d = Drop ∧ checked_tx (sch st') = checked_tx (sch st) ∧ deferred_tx (sch st') = deferred_tx (sch st)
  else d = Keep ∧
    if deferred_by rep (sch st)
    then iset_elements (deferred_tx (sch st')) = iset_elements (deferred_tx (sch st)) ++ [m] ∧
         evicted_from (checked_tx (sch st)) (sch st')
    else deferred_tx (sch st') = deferred_tx (sch st) ∧
         evicted_from (insert_sorted m (checked_tx (sch st))) (sch st').

(** [on_execute] from the event on. *)
Lemma wp_settle_execution m tx rep a (st st1 : S) :
  in_flight m tx st → quiet (mk (end_state m tx (sch st)) (wld st)) st1 →
  wp benign
    (emit_tx_event (key m) (priority m) a ;;
     if (priority m =? BUNDLE_MARKER) || negb (is_retryable (not_included_reason rep)) then mret Drop
     else
     let* sl := self slot in
     (if (execution_slot rep =? sl) && negb (not_included_reason rep =? ACCOUNT_IN_USE) then
        let* d := self deferred_tx in
        let '(new, d') := iset_insert m d in
        update (λ s, s <| deferred_tx := d' |>) ;;
        assert "on_execute: deferred" new
      else insert_checked m) ;;
     let* s := self id in
     when (checked_capacity s <? pending_len s)%nat (
       let* o := pop_first_checked in
       match o with
       | Some evicted => evict_checked evicted ;; increment m_execute_evict 1
       | None => mret tt
       end) ;;
     mret Keep) (settled m tx rep st) st1.
Proof.
  intros Hf Hq1. pose proof (end_state_ended m tx st Hf) as Hend. destruct Hf as [Hex Htx Hsig Hcus Hcost Hlk Hnd Hchk].
  assert (live (wld st) (key m)) as Hlive by (by exists tx). unfold settled.
  wp_step. apply auction_wp_emit_tx_event; [by eapply auction_quiet_live|].
  intros st2 Hq2. pose proof (transitivity Hq1 Hq2) as [[stats Hs] Hw].
  destruct st2 as [s2 w2]. simpl in Hs, Hw. subst s2. clear st1 Hq1 Hq2.
  destruct (decide _) as [Hb|Hb].
  { assert ((priority m =? BUNDLE_MARKER) || negb (is_retryable (not_included_reason rep)) = true) as ->.
    { destruct Hb as [->| ->]; [by rewrite Z.eqb_refl|apply orb_true_r]. }
    wp_steps. split; [by eapply ended_same|done]. }
  assert ((priority m =? BUNDLE_MARKER) || negb (is_retryable (not_included_reason rep)) = false) as ->.
  { apply orb_false_iff. split; [apply Z.eqb_neq; tauto|]. destruct (is_retryable _); [done|tauto]. }
  do 2 wp_step. cbn [sch wld].
  match goal with |- context [_ =? slot ?s] => change (slot s) with (slot (sch st)) end.
  fold (deferred_by rep (sch st)). assert (∀ m', m' ∈ checked_tx (sch st) → live w2 (key m')) as Hchk2.
  { intros m' Hm'. unfold live. rewrite Hw. by apply Hchk. }
  destruct (deferred_by rep (sch st)).
  - wp_steps. cbn [sch]. destruct (iset_insert_new m (deferred_tx (sch st)) Hnd) as (d' & Hins & Hd').
    match goal with |- context [iset_insert m ?d] => change d with (deferred_tx (sch st)) end.
    rewrite Hins. wp_steps. apply wp_assert; [done|intros _]. do 3 wp_step. apply (wp_execute_evict m tx (sch st)); [by eapply ended_same|exact Hchk2|].
    intros st3 He3 Hev Hd3. wp_steps. split_and!; [done|done| |exact Hev]. by rewrite Hd3.
  - wp_step. apply (auction_wp_insert_checked _ _ tx); [by simpl; rewrite Hw|]. do 3 wp_step.
    apply (wp_execute_evict m tx (sch st)); [by eapply ended_same| |].
    { simpl. intros m' [->|Hm']%elem_of_insert_sorted; [|by apply Hchk2]. unfold live. by rewrite Hw. }
    intros st3 He3 Hev Hd3. wp_steps. split_and!; [done|done| |exact Hev]. by rewrite Hd3.
Qed.

(** C16: a finished execution gives back its key, its CUs and exactly its own
    locks. A bundle's transaction, or one that cannot be retried, is dropped;
    any other is deferred to the next slot or goes back to the checked ones, of
    which the lowest is evicted when there are too many. *)
Theorem auction_on_execute m tx rep (st : S) :
  in_flight m tx st → wp benign (on_execute m rep) (settled m tx rep st) st.
Proof.
  intros Hf. pose proof Hf as [Hex Htx _ Hcus Hcost _ _ _].
  unfold on_execute, remove_executing. wp_steps. rewrite bool_decide_eq_true_2 by done.
  apply wp_assert; [done|intros _]. wp_steps. cbn [sch wld].
  eapply wp_of_res; [by apply u64_sub_ok|]. wp_steps. cbn [sch wld].
  apply (wp_unlock _ _ tx); [done|]. wp_step.
  destruct (not_included_reason rep =? reason_NONE);
    wp_step; apply auction_wp_bump; intros st1 Hqa; wp_step; apply auction_wp_increment; intros st2 Hqb; wp_step;
    apply wp_settle_execution; [done|by etransitivity|done|by etransitivity].
Qed.
(** An execution the worker did not process gives back its key, its CUs
    and exactly its own locks; a bundle's transaction is dropped, any other is
    among the checked ones again. *)
Lemma auction_on_unprocessed m tx (st : S) :
  in_flight m tx st →
  wp benign (on_unprocessed m) (λ d st',
    ended m tx (sch st) (sch st') ∧ deferred_tx (sch st') = deferred_tx (sch st) ∧
    if decide (priority m = BUNDLE_MARKER) then d = Drop ∧ checked_tx (sch st') = checked_tx (sch st)
    else d = Keep ∧ checked_tx (sch st') = insert_sorted m (checked_tx (sch st))) st.
Proof.
  intros Hf. pose proof (end_state_ended m tx st Hf) as Hend. destruct Hf as [Hex Htx Hsig Hcus Hcost Hlk Hnd Hchk].
  unfold on_unprocessed, remove_executing. wp_steps. rewrite bool_decide_eq_true_2 by done. wp_step.
  apply (wp_unlock _ _ tx); [done|]. wp_steps. cbn [sch wld].
  eapply wp_of_res; [by apply u64_sub_ok|]. do 2 wp_step. cbn [sch wld].
  destruct (Z.eqb_spec (priority m) BUNDLE_MARKER) as [Hb|Hb].
  { wp_step. rewrite decide_True by done. by split_and!. }
  wp_step. apply auction_wp_emit_tx_event; [by exists tx|].
  intros st1 [[stats1 Hs1] Hw1]. wp_step. apply auction_wp_increment. intros st2 [[stats2 Hs2] Hw2].
  wp_step. apply auction_wp_bump. intros st3 [[stats3 Hs3] Hw3].
  wp_step. apply (auction_wp_insert_checked _ _ tx); [by rewrite Hw3, Hw2, Hw1|]. wp_step. cbn [sch wld].
  rewrite decide_False by done. rewrite Hs3, Hs2, Hs1. by split_and!.
Qed.
End Handlers.
