(* ===== verification/AuctionExecute.v ===== *)
(** * Scheduling rounds of the auction scheduler

    Which transaction [try_schedule_transaction] picks, and that
    [try_schedule_bundle] starts a bundle whole or leaves the locks as they
    were. *)

From S2P Require Import Prelude F64 BTreeSet Types Events Externals TipProgram Costs Common.
From S2P Require Import AuctionLocks AuctionEngine AuctionState AuctionScheduler AuctionHandlers.

(** ** Lock tables *)

Abbreviation Table := (gmap Pubkey AccountLockers).

(** No holder conflicts with the locks. *)
Definition free (t : Table) (ls : list (Pubkey * bool)) : Prop :=
  ∀ a w k' w', (a, w) ∈ ls → holder t a k' w' → w = false ∧ w' = false.

(** Two transactions can hold their locks together. *)
Definition compat (ls ls' : list (Pubkey * bool)) : Prop :=
  ∀ a w w', (a, w) ∈ ls → (a, w') ∈ ls' → w = false ∧ w' = false.

Definition holds_nothing (t : Table) (k : TransactionKey) : Prop := ∀ a w, ¬ holder t a k w.

Definition grant (k : TransactionKey) (ls : list (Pubkey * bool)) (t : Table) : Table :=
  fold_left (LockManager.acquire_one k) ls t.

Lemma compat_comm ls ls' : compat ls ls' → compat ls' ls.
Proof. intros Hc a w w' Hw Hw'. destruct (Hc a w' w Hw' Hw). done. Qed.

Lemma holder_functional t a k w w' : holder t a k w → holder t a k w' → w = w'.
Proof. intros (l & Hl & Hk) (l' & Hl' & Hk'). congruence. Qed.

Lemma holder_grant k ls t a k' w :
  NoDup ls.*1 → holds_nothing t k →
  holder (grant k ls t) a k' w ↔ (k' = k ∧ (a, w) ∈ ls) ∨ holder t a k' w.
Proof.
  intros Hnd Hk. destruct (decide (k' = k ∧ a ∈ ls.*1)) as [[-> Ha]|Hne].
  - apply list_elem_of_fmap in Ha as ([a0 w0] & -> & Hin). simpl.
    pose proof (holder_acquire k ls t a0 w0 Hnd Hin) as Hh. split.
    + intros Hw. left. split; [done|]. by rewrite (holder_functional _ _ _ _ _ Hw Hh).
    + intros [[_ Hw]|Hw]; [by apply holder_acquire|by destruct (Hk a0 w)].
  - unfold grant. rewrite holder_acquire_other by done. split; [by right|].
    intros [[-> Hin]|?]; [|done]. destruct Hne. split; [done|]. apply list_elem_of_fmap. by exists (a, w).
Qed.

Lemma free_grant k ls t ls' :
  NoDup ls.*1 → holds_nothing t k → free (grant k ls t) ls' ↔ free t ls' ∧ compat ls ls'.
Proof.
  intros Hnd Hk. unfold free, compat. setoid_rewrite holder_grant; [|done..]. split.
  - intros Hf. split; [naive_solver|]. intros a w w' Hw Hw'. destruct (Hf a w' k w Hw'); auto.
  - intros [Hf Hc] a w k' w' Hin [[-> Hin']|Hh]; [|by eapply Hf]. by destruct (Hc a w' w Hin' Hin).
Qed.

Lemma holds_nothing_grant k k' ls t : k' ≠ k → holds_nothing t k' → holds_nothing (grant k ls t) k'.
Proof. intros Hne Hk a w. unfold grant. rewrite holder_acquire_other by naive_solver. apply Hk. Qed.

Lemma elem_of_rev {A} (x : A) l : x ∈ rev l ↔ x ∈ l.
Proof. rewrite rev_alt. apply elem_of_reverse. Qed.

Lemma rev_split {A} (l before after : list A) x :
  rev l = before ++ x :: after → l = rev after ++ x :: rev before.
Proof. intros Hl. rewrite <- (rev_involutive l), Hl, rev_app_distr. simpl. by rewrite <- (assoc_L (++)). Qed.

Section Execute.
Context `{Profile} `{AgaveBindings} `{World W} `{!WorldLaws} `{LibM} `{HashMapOrder}
  {Heap DSet : Type} `{MinMaxHeap Heap PriorityId}
  `{IndexSet DSet PriorityId} `{!IndexSetLaws DSet PriorityId}.
Abbreviation Sched := (AuctionBatchScheduler Heap DSet).
Abbreviation S := (St Sched W).

Definition tx_locks (w : W) (k : TransactionKey) : list (Pubkey * bool) :=
  match w_transaction w k with Some tx => locks tx | None => [] end.

Definition table (st : S) : Table := locks_of (auction_engine (sch st)).

(** Only the engine changed. *)
Definition only_engine (st st' : S) : Prop :=
  ∃ e, st' = mk ((sch st) <| auction_engine := e |>) (wld st).

#[export] Instance only_engine_refl : Reflexive only_engine.
Proof. intros [s w]. exists (auction_engine s). by destruct s. Qed.

#[export] Instance only_engine_trans : Transitive only_engine.
Proof. intros st1 st2 st3 [e1 ->] [e2 ->]. by exists e2. Qed.

Lemma only_engine_live st st' k : only_engine st st' → live (wld st) k → live (wld st') k.
Proof. by intros [e ->]. Qed.

Lemma only_engine_wld st st' : only_engine st st' → wld st' = wld st.
Proof. by intros [e ->]. Qed.

(** ** Rules *)

Lemma wp_locks E k (Q : list (Pubkey * bool) → S → Prop) st :
  live (wld st) k → Q (tx_locks (wld st) k) st → wp E (tx_locks_of k) Q st.
Proof.
  intros (tx & Htx & _) HQ. apply (wp_tx_locks_of _ _ tx); [done|]. unfold tx_locks in HQ. by rewrite Htx in HQ.
Qed.

Lemma wp_can_lock E k (Q : bool → S → Prop) st :
  live (wld st) k → exclusive (table st) →
  (∀ b, b = true ↔ free (table st) (tx_locks (wld st) k) → Q b st) →
  wp E (can_lock k) Q st.
Proof.
  intros Hl Hx HQ. unfold can_lock. wp_step. apply wp_locks; [done|]. wp_steps. apply HQ.
  apply try_acquire_spec, Hx.
Qed.

Lemma auction_wp_all_can_lock E ks (Q : bool → S → Prop) st :
  (∀ k, k ∈ ks → live (wld st) k) → exclusive (table st) →
  (∀ b, b = true ↔ (∀ k, k ∈ ks → free (table st) (tx_locks (wld st) k)) → Q b st) →
  wp E (all_can_lock ks) Q st.
Proof.
  intros Hl Hx. revert Q. induction ks as [|k ks IH]; intros Q HQ; simpl.
  { wp_step. apply HQ. split; [|done]. intros _ k. by intros ?%elem_of_nil. }
  wp_step. apply wp_can_lock; [apply Hl; by left|done|]. intros [] Hb.
  - apply IH; [intros; apply Hl; by right|]. intros b Hks. apply HQ. rewrite Hks. split.
    + intros Hf k' [->|Hk']%elem_of_cons; [by apply Hb|by apply Hf].
    + intros Hf k' Hk'. apply Hf. by right.
  - wp_step. apply HQ. split; [done|]. intros Hf. apply Hb, Hf. by left.
Qed.

(** What [acquire_locks] leaves behind. *)
Lemma wp_acquire E k ls (Q : bool → S → Prop) st :
  exclusive (table st) →
  (free (table st) ls → ∀ st', only_engine st st' → table st' = grant k ls (table st) →
     exclusive (table st') → Q true st') →
  (¬ free (table st) ls → Q false st) →
  wp E (acquire_locks k ls) Q st.
Proof.
  intros Hx HT HF. unfold acquire_locks. wp_steps.
  pose proof (try_acquire_spec ls (lock_manager (auction_engine (sch st))) (excl_nonempty _ Hx)) as Hspec.
  pose proof (acquire_locks_exclusive k ls _ Hx) as Hx'.
  unfold AuctionEngine.acquire_locks in *. destruct (LockManager.try_acquire _ _); wp_steps.
  - apply HT; [exact (proj1 Hspec eq_refl)|by eexists|done|exact Hx'].
  - assert (st = mk ((sch st) <| auction_engine := auction_engine (sch st) |>) (wld st)) as <-.
    { by destruct st as [[]]. }
    apply HF. intros Hf. discriminate (proj2 Hspec Hf).
Qed.

(** Changes of the queues. *)
Lemma wp_requeue E f (Q : unit → S → Prop) st :
  (∀ e, locks_of (f e) = locks_of e) →
  (∀ st', only_engine st st' → table st' = table st → Q tt st') →
  wp E (update_engine f) Q st.
Proof. intros Hf HQ. unfold update_engine. wp_steps. apply HQ; [by eexists|]. apply Hf. Qed.

Lemma auction_wp_send batch worker flags c budget {A} (rest : Z → M S A) Q (st : S) :
  is_u64 budget → 0 ≤ c ≤ budget → 0 ≤ in_flight_cus (sch st) →
  in_flight_cus (sch st) + budget ≤ U64_MAX →
  (∀ w', w_transaction w' = w_transaction (wld st) →
     wp benign (rest (budget - c)) Q
       (mk ((sch st) <| in_flight_cus := in_flight_cus (sch st) + c |>) w')) →
  wp benign (
    let* p := bridge w_progress in
    let* max_slot := of_res (u64_add "current_slot + 1" (current_slot p) 1) in
    schedule {| sb_worker := worker; sb_transactions := batch;
                sb_max_working_slot := max_slot; sb_flags := flags |} ;;
    let* budget' := of_res (u64_sub "budget" budget c) in
    let* cus := self in_flight_cus in
    let* cus' := of_res (u64_add "in_flight_cus" cus c) in
    update (λ s, s <| in_flight_cus := cus' |>) ;;
    rest budget') Q st.
Proof.
  intros Hb Hc Hi Hsum HQ. wp_steps.
  apply wp_of_res_cases; [intros max_slot _ | | apply checked_result_no_hang]; last first.
  { intros p ->%checked_result_panic. unfold benign. set_solver. }
  wp_step. apply wp_schedule; [unfold benign; set_solver|]. intros w' Hw'. wp_step.
  eapply wp_of_res; [apply u64_sub_ok; [done|lia]|]. wp_steps. simpl.
  eapply wp_of_res; [apply u64_add_ok; lia|]. wp_steps.
  apply HQ. by eapply schedule_transaction.
Qed.

(** ** One transaction *)

(** Fits in the budget, and no holder conflicts. *)
Definition schedulable (budget : Z) (st : S) (m : PriorityId) : Prop :=
  cost m ≤ budget ∧ free (table st) (tx_locks (wld st) (key m)).

Lemma wp_find_schedulable E budget txs (Q : option PriorityId → S → Prop) st :
  (∀ m, m ∈ txs → live (wld st) (key m)) → exclusive (table st) →
  ((∀ m, m ∈ txs → ¬ schedulable budget st m) → Q None st) →
  (∀ before m after, txs = before ++ m :: after → schedulable budget st m →
     (∀ m', m' ∈ before → ¬ schedulable budget st m') → Q (Some m) st) →
  wp E (find_schedulable budget txs) Q st.
Proof.
  intros Hl Hx. revert Q. induction txs as [|m txs IH]; intros Q HN HS; simpl.
  { wp_step. apply HN. intros m. by intros ?%elem_of_nil. }
  assert (¬ schedulable budget st m → wp E (find_schedulable budget txs) Q st) as Hskip.
  { intros Hm. apply IH; [intros; apply Hl; by right| |].
    - intros Hnone. apply HN. intros m' [->|Hm']%elem_of_cons; [done|by apply Hnone].
    - intros before m0 after -> Hm0 Hb. apply (HS (m :: before) m0 after); [done..|].
      intros m' [->|Hm']%elem_of_cons; [done|by apply Hb]. }
  destruct (Z.leb_spec (cost m) budget); [|apply Hskip; unfold schedulable; lia].
  wp_step. apply wp_can_lock; [apply Hl; by left|done|]. intros [] Hf.
  - wp_step. apply (HS [] m txs); [done|by split; [|apply Hf]|]. intros m'. by intros ?%elem_of_nil.
  - apply Hskip. intros [_ Hm%Hf]. done.
Qed.

(** What a round needs of the state. *)
Record ready (budget : Z) (st : S) : Prop := {
  rd_locks : exclusive (table st);
  rd_sorted : sorted (checked_tx (sch st));
  rd_checked : ∀ m, m ∈ checked_tx (sch st) → live (wld st) (key m) ∧ 0 ≤ cost m;
  rd_budget : is_u64 budget;
  rd_cus : 0 ≤ in_flight_cus (sch st) ∧ in_flight_cus (sch st) + budget ≤ U64_MAX;
}.

Lemma wp_remove_checked E m (Q : bool → S → Prop) st :
  m ∈ checked_tx (sch st) → live (wld st) (key m) →
  (∀ st', only_engine (mk ((sch st) <| checked_tx ::= remove_sorted m |>) (wld st)) st' →
     table st' = table st → Q true st') →
  wp E (remove_checked m) Q st.
Proof.
  intros Hm Hl HQ. unfold remove_checked. wp_steps. unfold btree_remove.
  rewrite (proj2 (btree_contains_spec _ _) Hm). wp_steps. unfold dequeue_tx. wp_step. apply wp_locks; [done|].
  apply wp_requeue; [done|]. intros st' Ho Ht. wp_step. by apply HQ.
Qed.

(** The batch of a single transaction was sent: its locks are held, its cost is
    in flight, and it left the checked transactions. *)
Definition sent_transaction (m : PriorityId) (st st' : S) : Prop :=
  table st' = grant (key m) (tx_locks (wld st) (key m)) (table st) ∧ exclusive (table st') ∧
  in_flight_cus (sch st') = in_flight_cus (sch st) + cost m ∧
  checked_tx (sch st') = remove_sorted m (checked_tx (sch st)) ∧
  schedule_batch (sch st') = schedule_batch (sch st) ++ [{| km_key := key m; km_meta := m |}] ∧
  bundles (sch st') = bundles (sch st) ∧ executing_tx (sch st') = executing_tx (sch st).

(** The scheduler after the batch of the transaction [m] was sent, with the
    engine [e]. *)
Definition after_transaction (m : PriorityId) (e : AuctionEngine) (s : Sched) : Sched :=
  s <| auction_engine := e |> <| in_flight_cus := in_flight_cus s + cost m |>
    <| checked_tx ::= remove_sorted m |>
    <| schedule_batch ::= λ b, b ++ [{| km_key := key m; km_meta := m |}] |>.

Definition best_schedulable (budget : Z) (st : S) (m : PriorityId) : Prop :=
  m ∈ checked_tx (sch st) ∧ schedulable budget st m ∧
  ∀ m', m' ∈ checked_tx (sch st) → schedulable budget st m' → rle m' m.

Lemma try_schedule_transaction_ok budget worker (Q : bool * Z → S → Prop) (st : S) :
  ready budget st →
  (∀ m e w', best_schedulable budget st m → w_transaction w' = w_transaction (wld st) →
     locks_of e = grant (key m) (tx_locks (wld st) (key m)) (table st) → exclusive (locks_of e) →
     Q (true, budget - cost m) (mk (after_transaction m e (sch st)) w')) →
  ((∀ m, m ∈ checked_tx (sch st) → ¬ schedulable budget st m) → Q (false, budget) st) →
  wp benign (try_schedule_transaction budget worker) Q st.
Proof.
  intros [Hx Hs Hch Hb [Hc Hsum]] HS HN. unfold try_schedule_transaction. do 3 wp_step.
  apply wp_find_schedulable; [|done| |].
  { intros m Hm. rewrite elem_of_rev in Hm. by apply Hch. }
  { intros Hnone. wp_step. apply HN. intros m Hm. apply Hnone. by rewrite elem_of_rev. }
  intros before m after Hrev Hm Hbefore. apply rev_split in Hrev.
  assert (m ∈ checked_tx (sch st)) as Hin by (rewrite Hrev, elem_of_app, elem_of_cons; tauto).
  destruct (Hch m Hin) as [Hl Hcm]. wp_step. apply wp_locks; [done|]. wp_step.
  apply wp_acquire; [done| |]; last first.
  { intros Hn. by destruct Hn, Hm. }
  intros _ st1 [e1 ->] Ht1 Hx1. cbn [negb]. wp_step.
  apply wp_requeue; [done|]. intros st2 [e2 ->] Ht2. do 4 wp_step.
  apply auction_wp_send; [done|split; [done|apply Hm]|done|done|]. intros w' Hw'. wp_step. simpl.
  apply wp_remove_checked; [done|by unfold live; simpl; rewrite Hw'|]. intros st3 [e3 ->] Ht3.
  apply wp_bind, wp_assert; [done|intros _]. wp_step.
  assert (locks_of e3 = table (mk ((sch st) <| auction_engine := e1 |>) (wld st))) as He.
  { transitivity (locks_of e2); [exact Ht3|exact Ht2]. }
  apply (HS m e3 w'); [|done|by rewrite He, Ht1|by rewrite He].
  split_and!; [done|done|]. intros m' Hm' Hsch. rewrite Hrev in Hm', Hs.
  apply elem_of_app in Hm' as [Hm'|[->|Hm']%elem_of_cons].
  - apply rle_lt_eq. left. eapply sorted_app_inv; [done..|by left].
  - by apply rle_lt_eq; right.
  - rewrite elem_of_rev in Hm'. by destruct (Hbefore m').
Qed.

(** C14: the transaction that is scheduled is the best of those that fit in the
    budget and conflict with no lock held; its locks are then held and its
    cost paid. When nothing is scheduled, there was none, and nothing
    changed. *)
Theorem auction_try_schedule_transaction budget worker (st : S) :
  ready budget st →
  wp benign (try_schedule_transaction budget worker) (λ '(scheduled, budget') st',
    if scheduled then ∃ m, m ∈ checked_tx (sch st) ∧ schedulable budget st m ∧
      (∀ m', m' ∈ checked_tx (sch st) → schedulable budget st m' → rle m' m) ∧
      budget' = budget - cost m ∧ sent_transaction m st st'
    else (∀ m, m ∈ checked_tx (sch st) → ¬ schedulable budget st m) ∧ budget' = budget ∧ st' = st) st.
Proof.
  intros Hr. apply try_schedule_transaction_ok; [done| |done].
  intros m e w' (Hin & Hm & Hbest) _ He Hx. exists m. by split_and!.
Qed.

(** ** One bundle *)

(** The locks of several transactions, acquired one after the other. *)
Definition grant_all (w : W) (ks : list TransactionKey) (t : Table) : Table :=
  fold_left (λ t k, grant k (tx_locks w k) t) ks t.

Lemma grant_all_snoc w ks k t : grant_all w (ks ++ [k]) t = grant k (tx_locks w k) (grant_all w ks t).
Proof. unfold grant_all. by rewrite fold_left_app. Qed.

(** Transactions that hold nothing yet, and name no account twice. *)
Definition fresh_keys (w : W) (t : Table) (ks : list TransactionKey) : Prop :=
  NoDup ks ∧ ∀ k, k ∈ ks → live w k ∧ NoDup (tx_locks w k).*1 ∧ holds_nothing t k.

Lemma fresh_keys_app w t ks ks' : fresh_keys w t (ks ++ ks') → fresh_keys w t ks.
Proof.
  intros [Hnd Hk]. apply NoDup_app in Hnd as [Hnd _]. split; [done|].
  intros k Hin. apply Hk. rewrite elem_of_app. by left.
Qed.

Lemma holder_grant_all w ks t a k m :
  fresh_keys w t ks →
  holder (grant_all w ks t) a k m ↔ (k ∈ ks ∧ (a, m) ∈ tx_locks w k) ∨ holder t a k m.
Proof.
  revert a k m. induction ks as [|k0 ks IH] using rev_ind; intros a k m Hf; simpl.
  { split; [by right|]. intros [[Hk _]|?]; [by apply elem_of_nil in Hk|done]. }
  pose proof (fresh_keys_app _ _ _ _ Hf) as Hf'. destruct Hf as [Hnd Hk].
  apply NoDup_app in Hnd as (Hnd & Hdisj & _). destruct (Hk k0) as (_ & Hn0 & Hh0); [set_solver|].
  rewrite grant_all_snoc, holder_grant; [|done|].
  - rewrite IH by done. rewrite elem_of_app, list_elem_of_singleton. naive_solver.
  - intros a' w'. rewrite IH by done. intros [[Hin _]|Hh]; [|by apply (Hh0 a' w')].
    apply (Hdisj k0 Hin). by left.
Qed.

(** No transaction of [ks] conflicts with [k]. *)
Definition compat_all (w : W) (k : TransactionKey) (ks : list TransactionKey) : Prop :=
  ∀ k', k' ∈ ks → compat (tx_locks w k') (tx_locks w k).

Lemma free_grant_all w ks t k :
  fresh_keys w t ks →
  free (grant_all w ks t) (tx_locks w k) ↔ free t (tx_locks w k) ∧ compat_all w k ks.
Proof.
  intros Hf. unfold free, compat_all, compat. setoid_rewrite holder_grant_all; [|done]. split.
  - intros Hall. split; [naive_solver|]. intros k' Hk' a b b' Hb Hb'. destruct (Hall a b' k' b Hb'); auto.
  - intros [Hfree Hc] a b k' b' Hin [[Hk' Hin']|Hh]; [|by eapply Hfree]. by destruct (Hc k' Hk' a b' b Hin' Hin).
Qed.

(** What the failing transaction's predecessors are. *)
Lemma keys_before_app done k ks : k ∉ done → keys_before k (done ++ k :: ks) = done.
Proof.
  induction done as [|k' done IH]; intros Hk; simpl; [by rewrite decide_True|].
  rewrite decide_False by set_solver. f_equal. apply IH. set_solver.
Qed.

Lemma wp_release_keys E ks (Q : unit → S → Prop) st :
  (∀ k, k ∈ ks → live (wld st) k) → exclusive (table st) →
  (∀ st', only_engine st st' → exclusive (table st') →
     (∀ a k w, holder (table st') a k w ↔
        ¬ (k ∈ ks ∧ a ∈ (tx_locks (wld st) k).*1) ∧ holder (table st) a k w) → Q tt st') →
  wp E (release_keys ks) Q st.
Proof.
  revert st Q. induction ks as [|k0 ks IH]; intros st Q Hl Hx HQ; unfold release_keys; simpl.
  { wp_step. apply HQ; [done..|]. intros a k w. split; [|naive_solver]. intros Hh. split; [|done]. intros [Hk _]. by apply elem_of_nil in Hk. }
  wp_step. unfold unlock at 1. wp_step. apply wp_locks; [apply Hl; by left|]. unfold update_engine. wp_step.
  apply IH; [intros; apply Hl; by right|by apply exclusive_release|].
  intros st' [e ->] Hx' Hh. apply HQ; [by exists e|done|]. intros a k w. rewrite Hh.
  unfold table at 1. simpl. unfold AuctionEngine.release_locks, locks_of. simpl.
  rewrite holder_release, elem_of_cons. naive_solver.
Qed.

(** Releasing what was granted gives back the table. *)
Lemma rollback w ks t t' :
  exclusive t → exclusive t' → fresh_keys w t ks →
  (∀ a k b, holder t' a k b ↔ ¬ (k ∈ ks ∧ a ∈ (tx_locks w k).*1) ∧ holder (grant_all w ks t) a k b) → t' = t.
Proof.
  intros Hx Hx' Hf Hh. apply holder_ext; [apply Hx'|apply Hx|]. intros a k b.
  rewrite Hh, holder_grant_all by done. split.
  - intros [Hn [[Hk Hin]|?]]; [|done]. destruct Hn. split; [done|]. apply list_elem_of_fmap. by exists (a, b).
  - intros Ht. split; [|by right]. intros [Hk _]. by apply (proj2 Hf k Hk) in Ht.
Qed.

(** The transactions of a bundle can hold their locks together. *)
Definition pairwise_compat (w : W) (ks : list TransactionKey) : Prop :=
  ∀ k k', k ∈ ks → k' ∈ ks → k ≠ k' → compat (tx_locks w k) (tx_locks w k').

Lemma pairwise_compat_snoc w ks k :
  k ∉ ks → pairwise_compat w (ks ++ [k]) ↔ pairwise_compat w ks ∧ compat_all w k ks.
Proof.
  intros Hk. unfold pairwise_compat, compat_all. setoid_rewrite elem_of_app.
  setoid_rewrite list_elem_of_singleton. split.
  - intros Hall. split; [by eauto|]. intros k' Hk'. apply Hall; [by left|by right|]. by intros ->.
  - intros [Hall Hc] k1 k2 [H1'| ->] [H2'| ->] Hne; [by eauto|by apply Hc|by apply compat_comm, Hc|done].
Qed.

Lemma pairwise_compat_app w ks ks' : pairwise_compat w (ks ++ ks') → pairwise_compat w ks.
Proof. intros Hall k k' Hk Hk'. apply Hall; rewrite elem_of_app; by left. Qed.

Lemma wp_acquire_all E all acquired ks t0 (Q : bool → S → Prop) st :
  all = acquired ++ ks → fresh_keys (wld st) t0 all → exclusive t0 → exclusive (table st) →
  table st = grant_all (wld st) acquired t0 → (∀ k, k ∈ ks → free t0 (tx_locks (wld st) k)) →
  pairwise_compat (wld st) acquired →
  (∀ st', only_engine st st' → table st' = grant_all (wld st) all t0 → exclusive (table st') →
     pairwise_compat (wld st) all → Q true st') →
  (∀ st', only_engine st st' → table st' = t0 → ¬ pairwise_compat (wld st) all → Q false st') →
  wp E (acquire_all all ks) Q st.
Proof.
  intros Hall Hf Hx0. revert acquired st Hall Hf.
  induction ks as [|k ks IH]; intros acquired st Hall Hf Hx Ht Hfree Hpw HT HF; simpl.
  { rewrite app_nil_r in Hall. subst. wp_step. by apply HT. }
  assert (k ∉ acquired) as Hk.
  { destruct Hf as [Hnd _]. rewrite Hall in Hnd. apply NoDup_app in Hnd as (_ & Hd & _).
    intros Hin. apply (Hd k Hin). by left. }
  assert (fresh_keys (wld st) t0 acquired) as Hfa by (rewrite Hall in Hf; by eapply fresh_keys_app).
  assert (live (wld st) k) as Hl by (apply Hf; rewrite Hall, elem_of_app; right; by left).
  wp_step. apply wp_locks; [done|]. wp_step. apply wp_acquire; [done| |]; rewrite Ht, (free_grant_all _ _ _ _ Hfa).
  - intros [_ Hc] st1 Ho1 Ht1 Hx1. cbn [negb]. wp_step. apply wp_requeue; [done|]. intros st2 Ho2 Ht2.
    pose proof (transitivity Ho1 Ho2) as Ho. pose proof (only_engine_wld _ _ Ho) as Hw.
    apply (IH (acquired ++ [k])); rewrite ?Hw, ?Ht2; [by rewrite <- (assoc_L (++))|done..| | | | |].
    + by rewrite Ht1, grant_all_snoc.
    + intros k' Hk'. apply Hfree. by right.
    + by apply pairwise_compat_snoc.
    + intros st' Ho'. apply HT. by etransitivity.
    + intros st' Ho'. apply HF. by etransitivity.
  - intros Hn. cbn [negb]. wp_step. rewrite Hall, keys_before_app by done.
    apply wp_release_keys; [apply Hfa|done|]. intros st1 Ho Hx1 Hh. wp_step. apply HF; [done| |].
    + eapply rollback; [done..|]. intros a k' b. by rewrite Hh, Ht.
    + intros Hp. apply Hn. split; [apply Hfree; by left|].
      rewrite Hall in Hp. replace (acquired ++ k :: ks) with ((acquired ++ [k]) ++ ks) in Hp
        by (by rewrite <- (assoc_L (++))).
      by apply pairwise_compat_app, pairwise_compat_snoc in Hp as [_ ?].
Qed.

Lemma wp_dequeue_all E ks (Q : unit → S → Prop) st :
  (∀ k, k ∈ ks → live (wld st) k) →
  (∀ st', only_engine st st' → table st' = table st → Q tt st') →
  wp E (for_each ks dequeue_tx) Q st.
Proof.
  revert st. induction ks as [|k ks IH]; intros st Hl HQ; simpl; [wp_step; by apply HQ|].
  wp_step. unfold dequeue_tx at 1. wp_step. apply wp_locks; [apply Hl; by left|].
  apply wp_requeue; [done|]. intros st1 Ho1 Ht1. apply IH; [intros; eapply only_engine_live; [done|]; apply Hl; by right|].
  intros st2 Ho2 Ht2. apply HQ; [by etransitivity|congruence].
Qed.

(** The bundle can start: it fits in the budget, none of its transactions
    conflicts with a lock held, and no two of them with each other. *)
Definition startable (budget : Z) (st : S) (b : BundleId) : Prop :=
  b_cost b ≤ budget ∧ (∀ k, k ∈ keys b → free (table st) (tx_locks (wld st) k)) ∧
  pairwise_compat (wld st) (keys b).

(** The bundle's batch was sent. *)
Definition sent_bundle (b : BundleId) (st st' : S) : Prop :=
  exclusive (table st') ∧
  (∀ a k w, holder (table st') a k w ↔
     (k ∈ keys b ∧ (a, w) ∈ tx_locks (wld st) k) ∨ holder (table st) a k w) ∧
  in_flight_cus (sch st') = in_flight_cus (sch st) + b_cost b ∧
  checked_tx (sch st') = checked_tx (sch st) ∧
  schedule_batch (sch st') = schedule_batch (sch st) ++ bundle_batch b ∧
  bundles (sch st) = bundles (sch st') ++ [b] ∧ executing_tx (sch st') = executing_tx (sch st).

(** The scheduler after the batch of the bundle [b] was sent. *)
Definition after_bundle (b : BundleId) (e : AuctionEngine) (s : Sched) : Sched :=
  s <| auction_engine := e |> <| in_flight_cus := in_flight_cus s + b_cost b |>
    <| bundles ::= (λ l, removelast l) |> <| schedule_batch ::= λ l, l ++ bundle_batch b |>.

Lemma try_schedule_bundle_ok budget worker b (Q : Z → S → Prop) (st : S) :
  ready budget st → last (bundles (sch st)) = Some b →
  fresh_keys (wld st) (table st) (keys b) → 0 ≤ b_cost b →
  (∀ e w', startable budget st b → w_transaction w' = w_transaction (wld st) →
     locks_of e = grant_all (wld st) (keys b) (table st) → exclusive (locks_of e) →
     Q (budget - b_cost b) (mk (after_bundle b e (sch st)) w')) →
  (∀ st', ¬ startable budget st b → only_engine st st' → table st' = table st → Q budget st') →
  wp benign (try_schedule_bundle budget worker) Q st.
Proof.
  intros [Hx Hs Hch Hb [Hc Hsum]] Hlast Hf Hcost HS HN. unfold try_schedule_bundle. do 3 wp_step.
  apply wp_unwrap; [by intros Hn; unfold btree_last in Hn; congruence|].
  intros b0 Hb0. unfold btree_last in Hb0. assert (b0 = b) as -> by congruence. clear Hb0.
  destruct (Z.ltb_spec budget (b_cost b)) as [Hlt|Hge].
  { wp_step. apply HN; [unfold startable; lia|done..]. }
  wp_step. apply auction_wp_all_can_lock; [apply Hf|done|]. intros [] Hfree; cbn [negb]; last first.
  { wp_step. apply HN; [|done..]. intros (_ & Hfr & _). by apply Hfree in Hfr. }
  pose proof (proj1 Hfree eq_refl) as Hfr. wp_step.
  apply (wp_acquire_all _ _ [] _ (table st)); [done..| | |].
  { intros k k' Hk. by apply elem_of_nil in Hk. }
  - intros st1 [e1 ->] Ht1 Hx1 Hpw. cbn [negb]. do 4 wp_step.
    apply auction_wp_send; [done..|]. intros w' Hw'. wp_step.
    apply wp_dequeue_all; [intros k Hk; unfold live; simpl; rewrite Hw'; by apply Hf|].
    intros st2 [e2 ->] Ht2. do 3 wp_step. simpl. unfold btree_pop_last. rewrite Hlast. wp_steps.
    assert (locks_of e2 = table (mk ((sch st) <| auction_engine := e1 |>) (wld st))) as He by exact Ht2.
    apply (HS e2 w'); [done|done|by rewrite He, Ht1|by rewrite He].
  - intros st1 Ho1 Ht1 Hn. cbn [negb]. wp_step. apply HN; [|done..]. by intros (_ & _ & Hpw).
Qed.

(** C13: a bundle is all or nothing: when it can start, all its locks are held
    and its batch is sent; otherwise, also when some of its locks were acquired
    first, the lock table is as it was and nothing but the queue depths
    changed. *)
Theorem auction_try_schedule_bundle budget worker b (st : S) :
  ready budget st → last (bundles (sch st)) = Some b →
  fresh_keys (wld st) (table st) (keys b) → 0 ≤ b_cost b →
  wp benign (try_schedule_bundle budget worker) (λ budget' st',
    (startable budget st b ∧ budget' = budget - b_cost b ∧ sent_bundle b st st') ∨
    (¬ startable budget st b ∧ budget' = budget ∧ only_engine st st' ∧ table st' = table st)) st.
Proof.
  intros Hr Hlast Hf Hcost. apply (try_schedule_bundle_ok _ _ b); [done..| |].
  - intros e w' Hb _ He Hx. left. split_and!; [done..|]. unfold sent_bundle. split_and!; try done.
    + intros a k w. rewrite <- (holder_grant_all _ _ _ _ _ _ Hf), <- He. done.
    + by apply removelast_last.
  - intros st' Hn Ho Ht. right. by split_and!.
Qed.
End Execute.
