(* ===== verification/AuctionInvariant.v ===== *)
(** * The auction scheduler's invariant

    [AInv O st]: the scheduler's collections, its engine's lock table and its
    CU counter agree with the executions [O] that are with the workers.  [O] is
    a ghost list of the outstanding entries, each with whether it holds its
    locks: the second tip transaction runs without them when the first one
    conflicts with it. *)

From S2P Require Import Prelude F64 BTreeSet Types Events Externals TipProgram Costs Common Outstanding.
From S2P Require Import AuctionLocks AuctionEngine AuctionState AuctionScheduler.
From S2P Require Import AuctionHandlers AuctionExecute.

Section Invariant.
Context `{Profile} `{AgaveBindings} `{World W} `{!WorldLaws} `{LibM} `{HashMapOrder}
  {Heap DSet : Type} `{MinMaxHeap Heap PriorityId} `{!MinMaxHeapLaws Heap PriorityId}
  `{IndexSet DSet PriorityId} `{!IndexSetLaws DSet PriorityId}.
Abbreviation Sched := (AuctionBatchScheduler Heap DSet).
Abbreviation S := (St Sched W).
Abbreviation Outstanding := (list (bool * PriorityId)).

(** ** The invariant *)

(** No account is named twice: what the check workers make sure of. *)
Definition lockable (w : W) (k : TransactionKey) : Prop := NoDup (tx_locks w k).*1.

(** The executions that hold their locks. *)
Definition locked (O : Outstanding) (k : TransactionKey) : Prop := ∃ m, (true, m) ∈ O ∧ key m = k.

(** The keys whose transactions will be locked, or are. *)
Definition locking_keys (O : Outstanding) (s : Sched) : list TransactionKey :=
  (key <$> checked_tx s) ++ (key <$> iset_elements (deferred_tx s)) ++ okeys O
  ++ concat (keys <$> bundles s).

(** The keys the scheduler is responsible for. *)
Definition held_keys (O : Outstanding) (s : Sched) : list TransactionKey :=
  (key <$> heap_elements (unchecked_tx s)) ++ locking_keys O s.

Record AInv (O : Outstanding) (st : S) : Prop := {
  ainv_sorted : sorted (checked_tx (sch st));
  ainv_bundles : sorted (bundles (sch st));
  ainv_keys : NoDup (held_keys O (sch st));
  ainv_executing : executing_tx (sch st) = list_to_set (okeys O);
  ainv_cus : in_flight_cus (sch st) = sum_costs O;
  ainv_cus_u64 : is_u64 (in_flight_cus (sch st));
  ainv_costs : Forall (λ bm, is_u64 (cost bm.2)) O;
  ainv_waiting_costs :
    Forall (λ m, is_u64 (cost m)) (checked_tx (sch st) ++ iset_elements (deferred_tx (sch st)));
  ainv_bundle_costs : Forall (λ b, is_u64 (b_cost b) ∧ keys b ≠ []) (bundles (sch st));
  ainv_live : ∀ k, k ∈ held_keys O (sch st) → live (wld st) k;
  ainv_lockable : ∀ k, k ∈ locking_keys O (sch st) → lockable (wld st) k;
  ainv_exclusive : exclusive (table st);
  (** Only a tip transaction, which counts as a bundle's, runs without its
      locks. *)
  ainv_unlocked : ∀ m, (false, m) ∈ O → priority m = BUNDLE_MARKER ∧ cost m = 0;
  ainv_locks : ∀ a k w, holder (table st) a k w ↔ locked O k ∧ (a, w) ∈ tx_locks (wld st) k;
}.

(** ** Facts about the ghost list *)

Lemma locked_okeys O k : locked O k → k ∈ okeys O.
Proof. intros (m & Hin & <-). by eapply elem_of_okeys. Qed.

Lemma tx_locks_transaction w w' k :
  w_transaction w' k = w_transaction w k → tx_locks w' k = tx_locks w k.
Proof. unfold tx_locks. by intros ->. Qed.

Lemma auction_elem_of_locking O s k :
  k ∈ locking_keys O s ↔
    (∃ m, m ∈ checked_tx s ∧ key m = k) ∨ (∃ m, m ∈ iset_elements (deferred_tx s) ∧ key m = k) ∨
    k ∈ okeys O ∨ (∃ b, b ∈ bundles s ∧ k ∈ keys b).
Proof.
  unfold locking_keys. rewrite !elem_of_app, elem_of_concat, !list_elem_of_fmap.
  setoid_rewrite list_elem_of_fmap. naive_solver.
Qed.

Lemma auction_locking_held O s k : k ∈ locking_keys O s → k ∈ held_keys O s.
Proof. intros Hk. apply elem_of_app. by right. Qed.

Lemma okeys_held O s k : k ∈ okeys O → k ∈ held_keys O s.
Proof. intros Hk. apply auction_locking_held, auction_elem_of_locking. tauto. Qed.

Lemma checked_held O s m : m ∈ checked_tx s → key m ∈ held_keys O s.
Proof. intros Hm. apply auction_locking_held, auction_elem_of_locking. left. by exists m. Qed.

Lemma deferred_held O s m : m ∈ iset_elements (deferred_tx s) → key m ∈ held_keys O s.
Proof. intros Hm. apply auction_locking_held, auction_elem_of_locking. right; left. by exists m. Qed.

Lemma bundle_held O s b k : b ∈ bundles s → k ∈ keys b → k ∈ held_keys O s.
Proof. intros Hb Hk. apply auction_locking_held, auction_elem_of_locking. do 3 right. by exists b. Qed.

Lemma executing_okeys O st k : AInv O st → k ∈ executing_tx (sch st) ↔ k ∈ okeys O.
Proof. intros HI. by rewrite (ainv_executing _ _ HI), elem_of_list_to_set. Qed.

(** ** Changes that leave the executions alone *)

(** The executions, their locks and their CUs are the same. *)
Definition same_executions (s s' : Sched) : Prop :=
  executing_tx s' = executing_tx s ∧ in_flight_cus s' = in_flight_cus s ∧ same_locks s s'.

Lemma AInv_change O s w s' w' :
  AInv O (mk s w) → same_executions s s' →
  sorted (checked_tx s') → sorted (bundles s') →
  Forall (λ m, is_u64 (cost m)) (checked_tx s' ++ iset_elements (deferred_tx s')) →
  Forall (λ b, is_u64 (b_cost b) ∧ keys b ≠ []) (bundles s') →
  NoDup (held_keys O s') →
  (∀ k, k ∈ held_keys O s' → live w' k) →
  (∀ k, k ∈ locking_keys O s' →
     (k ∈ locking_keys O s ∧ w_transaction w' k = w_transaction w k) ∨ lockable w' k) →
  (∀ k, k ∈ okeys O → w_transaction w' k = w_transaction w k) →
  AInv O (mk s' w').
Proof.
  intros HI (He & Hcus & Hlk) Hc Hb Hwc Hbc Hnd Hlive Hlockable Hw.
  assert (table (mk s' w') = table (mk s w)) as Ht by exact Hlk.
  destruct HI; simpl in *. split; simpl; rewrite ?Ht, ?He, ?Hcus; try done.
  - intros k Hk. destruct (Hlockable k Hk) as [[Hk' Hwk]|]; [|done].
    unfold lockable. rewrite (tx_locks_transaction w) by done. by apply ainv_lockable0.
  - intros a k b. rewrite ainv_locks0. split; intros [Hk Hin]; (split; [done|]).
    + by rewrite (tx_locks_transaction w) by by apply Hw, locked_okeys.
    + by rewrite <- (tx_locks_transaction w w') by by apply Hw, locked_okeys.
Qed.

(** Collections that only get smaller. *)
Record smaller (s s' : Sched) : Prop := {
  sm_executions : same_executions s s';
  sm_unchecked : heap_elements (unchecked_tx s') ⊆+ heap_elements (unchecked_tx s);
  sm_checked : checked_tx s' `sublist_of` checked_tx s;
  sm_deferred : iset_elements (deferred_tx s') `sublist_of` iset_elements (deferred_tx s);
  sm_bundles : bundles s' `sublist_of` bundles s;
}.

Lemma same_executions_refl s : same_executions s s.
Proof. done. Qed.

Lemma concat_submseteq {A} (ls ls' : list (list A)) : ls `sublist_of` ls' → concat ls ⊆+ concat ls'.
Proof.
  induction 1 as [|l ls ls' _ IH|l ls ls' _ IH]; simpl; [done|by apply submseteq_skips_l|].
  by apply submseteq_inserts_l.
Qed.

Lemma smaller_locking O s s' : smaller s s' → locking_keys O s' ⊆+ locking_keys O s.
Proof.
  intros [_ _ Hc Hd Hb]. unfold locking_keys.
  apply submseteq_app; [by apply sublist_submseteq, sublist_fmap|].
  apply submseteq_app; [by apply sublist_submseteq, sublist_fmap|].
  apply submseteq_app; [done|]. by apply concat_submseteq, sublist_fmap.
Qed.

Lemma smaller_held O s s' : smaller s s' → held_keys O s' ⊆+ held_keys O s.
Proof.
  intros Hs. apply submseteq_app; [|by apply smaller_locking]. by apply fmap_submseteq, Hs.
Qed.

Lemma submseteq_NoDup {A} (l k : list A) : l ⊆+ k → NoDup k → NoDup l.
Proof. intros [k' ->]%submseteq_Permutation Hnd. by apply NoDup_app in Hnd as [? _]. Qed.

(** What the scheduler still holds is still there. *)
Lemma AInv_smaller O s w s' w' :
  AInv O (mk s w) → smaller s s' →
  (∀ k, k ∈ held_keys O s' → w_transaction w' k = w_transaction w k) → AInv O (mk s' w').
Proof.
  intros HI Hs Hw. pose proof (smaller_held O _ _ Hs) as Hh. pose proof (smaller_locking O _ _ Hs) as Hl.
  destruct Hs as [He _ Hc Hd Hb]. apply (AInv_change O s w); try done.
  - eapply sorted_sublist, (ainv_sorted _ _ HI). done.
  - eapply sorted_sublist, (ainv_bundles _ _ HI). done.
  - eapply Forall_sublist_of, (ainv_waiting_costs _ _ HI). by apply sublist_app.
  - eapply Forall_sublist_of, (ainv_bundle_costs _ _ HI). done.
  - eapply submseteq_NoDup, (ainv_keys _ _ HI). done.
  - intros k Hk. unfold live. rewrite Hw by done. apply (ainv_live _ _ HI). by eapply elem_of_submseteq.
  - intros k Hk. left. split; [by eapply elem_of_submseteq|]. by apply Hw, auction_locking_held.
  - intros k Hk. by apply Hw, okeys_held.
Qed.

(** Fields the invariant does not speak of. *)
Definition same_pools (s s' : Sched) : Prop :=
  same_executions s s' ∧ unchecked_tx s' = unchecked_tx s ∧ checked_tx s' = checked_tx s ∧
  deferred_tx s' = deferred_tx s ∧ bundles s' = bundles s.

Lemma same_pools_smaller s s' : same_pools s s' → smaller s s'.
Proof. intros (He & Hu & Hc & Hd & Hb). split; [done|by rewrite ?Hu, ?Hc, ?Hd, ?Hb..]. Qed.

Lemma same_pools_held O s s' : same_pools s s' → held_keys O s' = held_keys O s.
Proof. intros (_ & Hu & Hc & Hd & Hb). unfold held_keys, locking_keys. by rewrite Hu, Hc, Hd, Hb. Qed.

Lemma AInv_pools O s w s' w' :
  AInv O (mk s w) → same_pools s s' → w_transaction w' = w_transaction w → AInv O (mk s' w').
Proof. intros HI Hs Hw. eapply AInv_smaller; [done|by apply same_pools_smaller|]. intros. by rewrite Hw. Qed.

Lemma quiet_pools (st st' : S) : quiet st st' → same_pools (sch st) (sch st').
Proof. intros [[stats ->] _]. done. Qed.

Lemma auction_quiet_inv O (st st' : S) : quiet st st' → AInv O st → AInv O st'.
Proof.
  intros Hq HI. destruct st as [s w], st' as [s' w'].
  eapply AInv_pools; [done|exact (quiet_pools _ _ Hq)|apply Hq].
Qed.

Lemma auction_quiet_held O (st st' : S) : quiet st st' → held_keys O (sch st') = held_keys O (sch st).
Proof. intros Hq. apply same_pools_held. exact (quiet_pools _ _ Hq). Qed.

Lemma auction_quiet_lockable (st st' : S) k : quiet st st' → lockable (wld st) k → lockable (wld st') k.
Proof. intros [_ Hw]. unfold lockable, tx_locks. by rewrite Hw. Qed.

(** A transaction that is dropped and that the scheduler does not hold. *)
Lemma AInv_drop O k s w :
  AInv O (mk s w) → k ∉ held_keys O s → AInv O (mk s (w_drop_transaction k w)).
Proof.
  intros HI Hk. eapply AInv_smaller; [done|by apply same_pools_smaller|].
  intros k' Hk'. apply drop_transaction_other. by intros ->.
Qed.

(** ** Growing collections *)

Lemma auction_held_insert_checked O m s :
  m ∉ checked_tx s →
  held_keys O (s <| checked_tx ::= insert_sorted m |>) ≡ₚ key m :: held_keys O s.
Proof.
  intros Hm. unfold held_keys, locking_keys. simpl.
  rewrite (insert_sorted_Permutation m (checked_tx s) Hm). solve_Permutation.
Qed.

Lemma auction_insert_checked_inv O m f st :
  AInv O st → key m ∉ held_keys O (sch st) → live (wld st) (key m) → lockable (wld st) (key m) →
  is_u64 (cost m) → (∀ e, locks_of (f e) = locks_of e) →
  AInv O (mk ((sch st) <| auction_engine ::= f |> <| checked_tx ::= insert_sorted m |>) (wld st)).
Proof.
  intros HI Hk Hl Hlock Hm Hf. destruct st as [s w].
  assert (m ∉ checked_tx s) as Hnc by (intros Hin; by apply Hk, checked_held).
  pose proof (auction_held_insert_checked O m s Hnc) as Hp.
  assert (held_keys O (s <| auction_engine ::= f |> <| checked_tx ::= insert_sorted m |>)
    ≡ₚ key m :: held_keys O s) as Hp' by exact Hp.
  eapply (AInv_change O s w); [done|split_and!; [done..|]; apply Hf| | | | | | | |done].
  - apply insert_sorted_sorted, (ainv_sorted _ _ HI).
  - apply (ainv_bundles _ _ HI).
  - simpl. rewrite insert_sorted_Permutation by done. apply Forall_cons. split; [done|].
    apply (ainv_waiting_costs _ _ HI).
  - apply (ainv_bundle_costs _ _ HI).
  - rewrite Hp'. apply NoDup_cons. split; [done|]. apply (ainv_keys _ _ HI).
  - intros k. rewrite Hp'. intros [->|Hin]%elem_of_cons; [done|]. by apply (ainv_live _ _ HI).
  - intros k. rewrite !auction_elem_of_locking. simpl. setoid_rewrite elem_of_insert_sorted.
    intros [(m' & [->|Hm'] & <-)|Hk']; [by right|left; split; [left; by exists m'|done]|left; by auto].
Qed.

Lemma auction_insert_deferred_inv O m d' st :
  AInv O st → key m ∉ held_keys O (sch st) → live (wld st) (key m) → lockable (wld st) (key m) →
  is_u64 (cost m) → iset_elements d' = iset_elements (deferred_tx (sch st)) ++ [m] →
  AInv O (mk ((sch st) <| deferred_tx := d' |>) (wld st)).
Proof.
  intros HI Hk Hl Hlock Hm Hd. destruct st as [s w]. simpl in *.
  assert (held_keys O (s <| deferred_tx := d' |>) ≡ₚ key m :: held_keys O s) as Hp.
  { unfold held_keys, locking_keys. simpl. rewrite Hd, fmap_app. simpl. solve_Permutation. }
  eapply (AInv_change O s w); [done|done| | | | | | | |done].
  - apply (ainv_sorted _ _ HI).
  - apply (ainv_bundles _ _ HI).
  - simpl. rewrite Hd, (assoc_L (++)), Forall_app, Forall_singleton.
    split; [|done]. apply (ainv_waiting_costs _ _ HI).
  - apply (ainv_bundle_costs _ _ HI).
  - rewrite Hp. apply NoDup_cons. split; [done|]. apply (ainv_keys _ _ HI).
  - intros k. rewrite Hp. intros [->|Hin]%elem_of_cons; [done|]. by apply (ainv_live _ _ HI).
  - intros k. rewrite !auction_elem_of_locking. simpl. rewrite Hd. setoid_rewrite elem_of_app.
    setoid_rewrite list_elem_of_singleton.
    intros [Hk'|[(m' & [Hm'| ->] & <-)|Hk']]; [left; by auto| |by right|left; by auto].
    left. split; [right; left; by exists m'|done].
Qed.

(** ** The end and the beginning of executions *)

Lemma auction_held_okeys O O' b m s :
  O ≡ₚ (b, m) :: O' → held_keys O s ≡ₚ key m :: held_keys O' s.
Proof.
  intros HO. unfold held_keys, locking_keys. rewrite (okeys_Permutation _ _ HO). simpl.
  rewrite !Permutation_middle. solve_Permutation.
Qed.

(** Other executions with the key of [m] there are none. *)
Lemma completed_keys O O' b m st :
  AInv O st → O ≡ₚ (b, m) :: O' → (key m ∉ held_keys O' (sch st)) ∧ NoDup (held_keys O' (sch st)).
Proof.
  intros HI HO. pose proof (ainv_keys _ _ HI) as Hnd. rewrite (auction_held_okeys _ _ _ _ _ HO) in Hnd.
  by apply NoDup_cons in Hnd.
Qed.

Lemma AInv_complete O O' b m tx st :
  AInv O st → O ≡ₚ (b, m) :: O' → w_transaction (wld st) (key m) = Some tx →
  AInv O' (mk (end_state m tx (sch st)) (wld st)).
Proof.
  intros HI HO Htx. destruct (completed_keys O O' b m st HI HO) as [Hk Hnd].
  assert (key m ∉ okeys O') as Hko by (intros Hin; by apply Hk, okeys_held).
  pose proof (okeys_Permutation _ _ HO) as Hop. simpl in Hop.
  pose proof (sum_costs_Permutation _ _ HO) as Hs. simpl in Hs.
  pose proof (ainv_costs _ _ HI) as Hcs. rewrite HO in Hcs. apply Forall_cons in Hcs as [Hcm Hcs]. simpl in Hcm.
  pose proof (sum_costs_nonneg _ Hcs).
  assert (∀ k, k ∈ held_keys O' (sch st) → k ∈ held_keys O (sch st)) as Hsub.
  { intros k. rewrite (auction_held_okeys _ _ _ _ _ HO). by right. }
  destruct (release_released (key m) tx (auction_engine (sch st)) (ainv_exclusive _ _ HI)) as [Hex Hh].
  destruct HI. unfold end_state. split; simpl; try done.
  - apply set_eq. intros k. rewrite elem_of_difference, ainv_executing0, !elem_of_list_to_set, Hop. set_solver.
  - rewrite ainv_cus0. lia.
  - unfold is_u64 in *. lia.
  - intros k Hin. by apply ainv_live0, Hsub.
  - intros k Hin. apply ainv_lockable0. apply auction_elem_of_locking. apply auction_elem_of_locking in Hin.
    simpl in Hin. rewrite Hop, elem_of_cons. naive_solver.
  - intros m' Hm'. apply ainv_unlocked0. rewrite HO. by right.
  - intros a k w. etransitivity; [apply Hh|]. assert (locks tx = tx_locks (wld st) (key m)) as ->.
    { unfold tx_locks. by rewrite Htx. }
    unfold table in ainv_locks0. rewrite ainv_locks0. unfold locked. setoid_rewrite HO.
    setoid_rewrite elem_of_cons. split.
    + intros [Hn [(m' & [[= <- <-]|Hm'] & <-) Hin]]; [|split; [by exists m'|done]].
      destruct Hn. split; [done|]. by apply (list_elem_of_fmap_2 fst) in Hin.
    + intros [(m' & Hm' & <-) Hin]. split; [|split; [exists m'; auto|done]].
      intros [Heq _]. apply Hko. rewrite <- Heq. by eapply elem_of_okeys.
Qed.

(** New executions [new]: what the lock table gains are the locks of those that
    hold theirs. *)
Lemma AInv_begin O new s w s' w' :
  AInv O (mk s w) →
  sorted (checked_tx s') → sorted (bundles s') →
  Forall (λ m, is_u64 (cost m)) (checked_tx s' ++ iset_elements (deferred_tx s')) →
  Forall (λ b, is_u64 (b_cost b) ∧ keys b ≠ []) (bundles s') →
  executing_tx s' = list_to_set (okeys new) ∪ executing_tx s →
  in_flight_cus s' = sum_costs new + in_flight_cus s → is_u64 (in_flight_cus s') →
  Forall (λ bm, is_u64 (cost bm.2)) new →
  NoDup (held_keys (new ++ O) s') →
  (∀ k, k ∈ held_keys (new ++ O) s' → live w' k) →
  (∀ k, k ∈ locking_keys (new ++ O) s' → lockable w' k) →
  (∀ k, k ∈ okeys O → w_transaction w' k = w_transaction w k) →
  (∀ m, (false, m) ∈ new → priority m = BUNDLE_MARKER ∧ cost m = 0) →
  exclusive (table (mk s' w')) →
  (∀ a k b, holder (table (mk s' w')) a k b ↔
     (locked new k ∧ (a, b) ∈ tx_locks w' k) ∨ holder (table (mk s w)) a k b) →
  AInv (new ++ O) (mk s' w').
Proof.
  intros HI Hc Hb Hwc Hbc He Hcus Hu Hn Hnd Hl Hlk Hw Hun Hx Hh. destruct HI. split; simpl in *; try done.
  - rewrite He, ainv_executing0. unfold okeys. by rewrite fmap_app, list_to_set_app_L.
  - rewrite Hcus, ainv_cus0. clear. induction new; simpl; lia.
  - by apply Forall_app.
  - intros m [Hm|Hm]%elem_of_app; [by apply Hun|by apply ainv_unlocked0].
  - intros a k b. rewrite Hh, ainv_locks0. unfold locked. setoid_rewrite elem_of_app. split.
    + intros [[(m & Hm & <-) Hin]|[Hk Hin]]; [split; [exists m; auto|done]|].
      rewrite (tx_locks_transaction w w') by by apply Hw, locked_okeys. destruct Hk as (m & Hm & <-). eauto.
    + intros [(m & [Hm|Hm] & <-) Hin]; [left; split; [by exists m|done]|right].
      rewrite (tx_locks_transaction w w') in Hin by by eapply Hw, elem_of_okeys.
      split; [by exists m|done].
Qed.

(** The order of the entries does not matter. *)
Lemma AInv_Permutation O O' (st : S) : O ≡ₚ O' → AInv O st → AInv O' st.
Proof.
  intros Hp HI. pose proof (okeys_Permutation _ _ Hp) as Hk.
  assert (held_keys O' (sch st) ≡ₚ held_keys O (sch st)) as Hh by (unfold held_keys, locking_keys; by rewrite Hk).
  split; try apply HI.
  - rewrite Hh. apply HI.
  - rewrite (ainv_executing _ _ HI). by rewrite Hk.
  - by rewrite (ainv_cus _ _ HI), (sum_costs_Permutation _ _ Hp).
  - rewrite <- Hp. apply HI.
  - intros k. rewrite Hh. apply HI.
  - intros k. unfold locking_keys. rewrite <- Hk. apply HI.
  - intros m. rewrite <- Hp. apply HI.
  - intros a k w. rewrite (ainv_locks _ _ HI). unfold locked. by setoid_rewrite Hp.
Qed.

(** Whether the transaction holds all its locks. *)
Definition holds_locks (st : S) (k : TransactionKey) : bool :=
  forallb (λ aw, bool_decide (table st !! aw.1 ≫= (λ l, lockers l !! k) = Some aw.2)) (tx_locks (wld st) k).

Lemma holds_locks_spec st k :
  holds_locks st k = true ↔ ∀ a w, (a, w) ∈ tx_locks (wld st) k → holder (table st) a k w.
Proof.
  unfold holds_locks, holder. rewrite forallb_forall. setoid_rewrite <- list_elem_of_In. split.
  - intros Hall a w Hin%Hall. apply bool_decide_eq_true_1 in Hin. simpl in Hin.
    by apply bind_Some in Hin.
  - intros Hall [a w] Hin%Hall. apply bool_decide_eq_true_2. simpl. by apply bind_Some.
Qed.

(** The entries' marks can be read off the lock table. *)
Lemma AInv_retag O new (st : S) :
  AInv (new ++ O) st → AInv (((λ bm, (holds_locks st (key bm.2), bm.2)) <$> new) ++ O) st.
Proof.
  intros HI. set (new' := _ <$> new). assert (okeys (new' ++ O) = okeys (new ++ O)) as Hk.
  { unfold okeys, new'. by rewrite !fmap_app, <- list_fmap_compose. }
  assert (sum_costs (new' ++ O) = sum_costs (new ++ O)) as Hs.
  { unfold new', sum_costs. clear. induction new as [|[b m] new IH]; [done|]. csimpl. by rewrite IH. }
  assert (∀ s, held_keys (new' ++ O) s = held_keys (new ++ O) s) as Hh by (intros; unfold held_keys, locking_keys; by rewrite Hk).
  assert (∀ b m, (b, m) ∈ new' → ∃ b', (b', m) ∈ new ∧ b = holds_locks st (key m)) as Hnew.
  { intros b m ([b' m'] & [= -> ->] & Hin)%list_elem_of_fmap. by exists b'. }
  assert (∀ m, (true, m) ∈ new ++ O → holds_locks st (key m) = true) as Hheld.
  { intros m Hm. apply holds_locks_spec. intros a w Hin. apply (ainv_locks _ _ HI). split; [by exists m|done]. }
  split; try apply HI.
  - rewrite Hh. apply HI.
  - rewrite Hk. apply HI.
  - rewrite Hs. apply HI.
  - pose proof (ainv_costs _ _ HI) as Hc. apply Forall_app in Hc as [Hc Hc']. apply Forall_app. split; [|done].
    unfold new'. by apply Forall_fmap.
  - intros k. rewrite Hh. apply HI.
  - intros k. unfold locking_keys. rewrite Hk. apply HI.
  - intros m [(b & Hin & Hb)%Hnew|Hm]%elem_of_app; apply (ainv_unlocked _ _ HI), elem_of_app; [left|by right].
    destruct b; [|done]. rewrite Hheld in Hb; [done|]. apply elem_of_app. by left.
  - intros a k w. rewrite (ainv_locks _ _ HI). unfold locked. setoid_rewrite elem_of_app. split.
    + intros [(m & [Hm|Hm] & <-) Hin]; (split; [exists m|done]); split; auto. left.
      apply list_elem_of_fmap. exists (true, m). simpl. rewrite Hheld; [done|]. apply elem_of_app. by left.
    + intros [(m & [(b & Hm & Hb)%Hnew|Hm] & <-) Hin]; [|split; [exists m; auto|done]].
      symmetry in Hb. apply holds_locks_spec with (a := a) (w := w) in Hb; [|done].
      apply (ainv_locks _ _ HI) in Hb as [(m' & Hm' & Hkm) _]. split; [|done]. exists m'. by rewrite <- elem_of_app.
Qed.

(** ** Calls of the outside *)

(** A packet the bridge accepted: its key is new. *)
Lemma AInv_insert O s w w' packet k :
  AInv O (mk s w) → w_insert_transaction packet w = (Some k, w') →
  AInv O (mk s w') ∧ (k ∉ held_keys O s) ∧ live w' k ∧
  ∀ k', k' ≠ k → w_transaction w' k' = w_transaction w k'.
Proof.
  intros HI Hins. destruct (insert_transaction_fresh _ _ _ _ Hins) as (Hnone & Hsome & Hother).
  assert (k ∉ held_keys O s) as Hk.
  { intros Hin. apply (ainv_live _ _ HI) in Hin as (tx & Htx & _). simpl in Htx. congruence. }
  split; [|done]. eapply AInv_smaller; [done|by apply same_pools_smaller|].
  intros k' Hk'. apply Hother. by intros ->.
Qed.

Lemma auction_push_unchecked_inv O m st :
  AInv O st → key m ∉ held_keys O (sch st) → live (wld st) (key m) →
  AInv O (mk ((sch st) <| unchecked_tx ::= heap_push m |>) (wld st)).
Proof.
  intros HI Hk Hl.
  assert (held_keys O ((sch st) <| unchecked_tx ::= heap_push m |>) ≡ₚ key m :: held_keys O (sch st)) as Hp.
  { unfold held_keys, locking_keys. simpl. by rewrite heap_push_elements. }
  destruct st as [s w]. eapply (AInv_change O s w); [done|done|..]; try apply HI; try done.
  - rewrite Hp. apply NoDup_cons. split; [done|]. apply (ainv_keys _ _ HI).
  - intros k. rewrite Hp. intros [->|Hin]%elem_of_cons; [done|]. by apply (ainv_live _ _ HI).
  - intros k Hin. by left.
Qed.

(** Taking one transaction out of the unchecked heap. *)
Lemma auction_pop_unchecked_inv O m h st :
  AInv O st → heap_elements (unchecked_tx (sch st)) ≡ₚ m :: heap_elements h →
  AInv O (mk ((sch st) <| unchecked_tx := h |>) (wld st)) ∧
  (key m ∉ held_keys O ((sch st) <| unchecked_tx := h |>)) ∧ live (wld st) (key m).
Proof.
  intros HI Hp.
  assert (held_keys O (sch st) ≡ₚ key m :: held_keys O ((sch st) <| unchecked_tx := h |>)) as Hh.
  { unfold held_keys, locking_keys. simpl. by rewrite Hp. }
  pose proof (ainv_keys _ _ HI) as Hnd. rewrite Hh in Hnd. apply NoDup_cons in Hnd as [Hk Hnd].
  split; [|split; [done|apply (ainv_live _ _ HI); rewrite Hh; by left]].
  destruct st as [s w]. eapply AInv_smaller; [done| |done]. split; simpl in *; try done. rewrite Hp. by apply submseteq_cons.
Qed.

(** Taking the lowest checked transaction. *)
Lemma auction_pop_checked_inv O m l f st :
  AInv O st → checked_tx (sch st) = m :: l → (∀ e, locks_of (f e) = locks_of e) →
  let s' := (sch st) <| checked_tx := l |> <| auction_engine ::= f |> in
  AInv O (mk s' (wld st)) ∧ (key m ∉ held_keys O s') ∧ live (wld st) (key m).
Proof.
  intros HI Hc Hf s'.
  assert (held_keys O (sch st) ≡ₚ key m :: held_keys O s') as Hh.
  { unfold held_keys, locking_keys. simpl. rewrite Hc. solve_Permutation. }
  pose proof (ainv_keys _ _ HI) as Hnd. rewrite Hh in Hnd. apply NoDup_cons in Hnd as [Hk Hnd].
  split; [|split; [done|apply (ainv_live _ _ HI); rewrite Hh; by left]].
  destruct st as [s w]. eapply AInv_smaller; [done| |done].
  split; simpl in *; try done; [split_and!; [done..|]; apply Hf|]. rewrite Hc. by apply sublist_cons.
Qed.
End Invariant.
