(* ===== verification/AuctionReturns.v ===== *)
(** * Worker responses keep the auction scheduler's invariant

    [on_unprocessed], [on_execute] and [on_check] against the invariant of
    [AuctionInvariant]: their assertions hold, and what they drop is no longer
    held. *)

From S2P Require Import Prelude F64 BTreeSet Types Events Externals TipProgram Costs Common Outstanding.
From S2P Require Import AuctionLocks AuctionEngine AuctionState AuctionScheduler.
From S2P Require Import AuctionHandlers AuctionExecute AuctionInvariant.

Section Returns.
Context `{Profile} `{AgaveBindings} `{World W} `{!WorldLaws} `{LibM} `{HashMapOrder}
  {Heap DSet : Type} `{MinMaxHeap Heap PriorityId} `{!MinMaxHeapLaws Heap PriorityId}
  `{IndexSet DSet PriorityId} `{!IndexSetLaws DSet PriorityId}.
Abbreviation Sched := (AuctionBatchScheduler Heap DSet).
Abbreviation S := (St Sched W).

(** ** Shared steps *)

(** What a handler leaves: the invariant, and a dropped transaction is not
    held. *)
Definition decided_inv (O : list (bool * PriorityId)) (k : TransactionKey) (d : TxDecision) (st : S) : Prop :=
  AInv O st ∧ (d = Drop → k ∉ held_keys O (sch st)).

Lemma wp_insert_checked_inv E O m Q (st : S) :
  AInv O st → key m ∉ held_keys O (sch st) → live (wld st) (key m) → lockable (wld st) (key m) →
  is_u64 (cost m) →
  (∀ f st', st' = mk ((sch st) <| auction_engine ::= f |> <| checked_tx ::= insert_sorted m |>) (wld st) →
     AInv O st' → Q tt st') →
  wp E (insert_checked m) Q st.
Proof.
  intros HI Hk (tx & Htx & Hsig) Hlock Hm HQ. apply (auction_wp_insert_checked _ _ tx); [done|].
  eapply HQ; [done|]. apply auction_insert_checked_inv; [done..|by exists tx|done|done|done].
Qed.

(** Two metrics. *)
Lemma auction_wp_count (mt : Metric) (field : SlotStatsEvent → Z) `{!Setter field} {A} (rest : M S A) Q (st : S) :
  (∀ st', quiet st st' → wp benign rest Q st') →
  wp benign (increment mt 1 ;; bump field 1 ;; rest) Q st.
Proof.
  intros HQ. wp_step. apply auction_wp_increment. intros st1 Hq1. wp_step. apply auction_wp_bump.
  intros st2 Hq2. apply HQ. by etransitivity.
Qed.

(** The lowest checked transaction is popped and dropped. *)
Lemma wp_evict_checked_inv O m l f (Q : unit → S → Prop) (st : S) :
  AInv O st → checked_tx (sch st) = m :: l → (∀ e, locks_of (f e) = locks_of e) →
  (∀ st', AInv O st' → (∀ k, k ∉ held_keys O (sch st) → k ∉ held_keys O (sch st')) →
     (∀ k, k ≠ key m → w_transaction (wld st') k = w_transaction (wld st) k) → Q tt st') →
  wp benign (evict_checked m) Q
    (mk ((sch st) <| checked_tx := l |> <| auction_engine ::= f |>) (wld st)).
Proof.
  intros HI Hc Hf HQ. destruct (auction_pop_checked_inv O m l f st HI Hc Hf) as (HI' & Hk & Hl).
  unfold evict_checked. wp_step. apply auction_wp_emit_tx_event; [done|]. intros st1 Hq.
  unfold drop_transaction. wp_step. pose proof (auction_quiet_inv O _ _ Hq HI') as HI1.
  pose proof (auction_quiet_held O _ _ Hq) as Hh. simpl in Hh. apply HQ; simpl.
  - destruct st1. apply AInv_drop; [done|]. simpl in *. by rewrite Hh.
  - rewrite Hh. intros k Hn Hin. apply Hn. revert Hin. unfold held_keys, locking_keys. simpl. rewrite Hc.
    simpl. set_solver.
  - intros k Hne. rewrite drop_transaction_other by congruence. destruct Hq as [_ Hw]. by rewrite Hw.
Qed.

Lemma wp_pop_first_inv O (Q : option PriorityId → S → Prop) (st : S) :
  AInv O st → (checked_tx (sch st) = [] → Q None st) →
  (∀ m l f, checked_tx (sch st) = m :: l → (∀ e, locks_of (f e) = locks_of e) →
     Q (Some m) (mk ((sch st) <| checked_tx := l |> <| auction_engine ::= f |>) (wld st))) →
  wp benign pop_first_checked Q st.
Proof.
  intros HI HN HS. apply wp_pop_first_checked; [|done|].
  - intros m Hm. by apply (ainv_live _ _ HI), checked_held.
  - intros m l tx Hc _. by apply HS.
Qed.

(** ** The end of an execution *)

Lemma outstanding_in (O O' : list (bool * PriorityId)) b m : O ≡ₚ (b, m) :: O' → (b, m) ∈ O.
Proof. intros ->. by left. Qed.

(** What is known of an execution's entry. *)
Record outstanding (O : list (bool * PriorityId)) (m : PriorityId) (tx : TransactionState) (st : S) : Prop := {
  out_tx : w_transaction (wld st) (key m) = Some tx;
  out_live : live (wld st) (key m);
  out_lockable : lockable (wld st) (key m);
  out_executing : key m ∈ executing_tx (sch st);
  out_cost : is_u64 (cost m) ∧ 0 ≤ cost m ≤ in_flight_cus (sch st);
}.

Lemma outstanding_entry O O' b m (st : S) :
  AInv O st → O ≡ₚ (b, m) :: O' → ∃ tx, outstanding O m tx st.
Proof.
  intros HI HO. pose proof (elem_of_okeys O b m (outstanding_in _ _ _ _ HO)) as Hk.
  pose proof (ainv_live _ _ HI _ (okeys_held O (sch st) _ Hk)) as Hl. pose proof Hl as (tx & Htx & _).
  exists tx. pose proof (ainv_costs _ _ HI) as Hc. rewrite HO in Hc. apply Forall_cons in Hc as [Hm Hc].
  split; [done|done| |by apply (executing_okeys O)|].
  - apply (ainv_lockable _ _ HI), auction_elem_of_locking. tauto.
  - simpl in Hm. pose proof (sum_costs_nonneg _ Hc). split; [done|].
    rewrite (ainv_cus _ _ HI), (sum_costs_Permutation _ _ HO). unfold is_u64 in Hm. simpl. lia.
Qed.

(** The state after the key, the CUs and the locks were given back. *)
Lemma end_state_inv O O' b m tx (st : S) :
  AInv O st → O ≡ₚ (b, m) :: O' → outstanding O m tx st →
  let st' := mk (end_state m tx (sch st)) (wld st) in
  AInv O' st' ∧ (key m ∉ held_keys O' (sch st')).
Proof.
  intros HI HO Ho st'. split; [by eapply AInv_complete; [..|apply Ho]|].
  by destruct (completed_keys O O' b m st HI HO).
Qed.

Lemma auction_on_unprocessed_ok O O' b m (st : S) :
  AInv O st → O ≡ₚ (b, m) :: O' → wp benign (on_unprocessed m) (decided_inv O' (key m)) st.
Proof.
  intros HI HO. destruct (outstanding_entry O O' b m st HI HO) as [tx Ho].
  destruct (end_state_inv O O' b m tx st HI HO Ho) as [HI' Hk]. destruct Ho as [Htx Hl Hlock Hex [Hc Hcost]].
  unfold on_unprocessed, remove_executing. wp_steps. rewrite bool_decide_eq_true_2 by done. wp_step.
  apply (wp_unlock _ _ tx); [done|]. wp_steps. cbn [sch wld].
  eapply wp_of_res; [by apply u64_sub_ok; [apply (ainv_cus_u64 _ _ HI)|]|]. do 2 wp_step. cbn [sch wld].
  match goal with |- wp _ _ _ ?s => change s with (mk (end_state m tx (sch st)) (wld st)) end.
  set (st0 := mk _ _) in *.
  destruct (priority m =? BUNDLE_MARKER); [by wp_step|].
  wp_step. apply auction_wp_emit_tx_event; [done|]. intros st1 Hq1. apply auction_wp_count. intros st2 Hq2.
  pose proof (transitivity Hq1 Hq2) as Hq. wp_step. apply (wp_insert_checked_inv _ O').
  - by eapply auction_quiet_inv.
  - by rewrite (auction_quiet_held O' _ _ Hq).
  - by eapply auction_quiet_live.
  - by eapply auction_quiet_lockable.
  - done.
  - intros f st3 _ HI3. wp_step. by split.
Qed.

(** A response for a transaction that does not execute changes nothing. *)
Lemma auction_on_unprocessed_other O m (st : S) :
  AInv O st → key m ∉ okeys O → on_unprocessed m st = Ok (Keep, st).
Proof.
  intros HI Hk. unfold on_unprocessed, remove_executing, bindM, self, gets, update, modify, mret, M_ret. simpl.
  assert (key m ∉ executing_tx (sch st)) as Hex by (by rewrite (executing_okeys O)).
  rewrite bool_decide_eq_false_2 by done. do 2 f_equal. destruct st as [[] w]. simpl in *.
  do 2 f_equal. set_solver.
Qed.

(** The transaction that can be retried is put back. *)
Lemma wp_auction_put_back O m (b : bool) (Q : unit → S → Prop) (st : S) :
  AInv O st → key m ∉ held_keys O (sch st) → live (wld st) (key m) → lockable (wld st) (key m) →
  is_u64 (cost m) → (∀ st', AInv O st' → Q tt st') →
  wp benign
    (if b then
       let* d := self deferred_tx in
       let '(new, d') := iset_insert m d in
       update (λ s, s <| deferred_tx := d' |>) ;;
       assert "on_execute: deferred" new
     else insert_checked m) Q st.
Proof.
  intros HI Hk Hl Hlock Hm HQ. destruct b.
  - wp_steps. destruct (iset_insert_new m (deferred_tx (sch st))) as (d' & -> & Hd').
    { intros Hin. by apply Hk, deferred_held. }
    wp_steps. apply wp_assert; [done|intros _]. apply HQ. by apply (auction_insert_deferred_inv O m).
  - apply (wp_insert_checked_inv _ O); [done..|]. intros f st' _ HI'. by apply HQ.
Qed.

(** The eviction at the end of [on_execute]. *)
Lemma wp_execute_evict_inv O (Q : unit → S → Prop) (st : S) :
  AInv O st → (∀ st', AInv O st' → Q tt st') →
  wp benign (
    when (checked_capacity (sch st) <? pending_len (sch st))%nat (
      let* o := pop_first_checked in
      match o with
      | Some evicted => evict_checked evicted ;; increment m_execute_evict 1
      | None => mret tt
      end)) Q st.
Proof.
  intros HI HQ. apply wp_when; intros _; [|by apply HQ]. wp_step. apply (wp_pop_first_inv O); [done| |].
  - intros _. wp_step. by apply HQ.
  - intros m l f Hc Hf. wp_step. apply (wp_evict_checked_inv O m l f); [done..|]. intros st1 HI1 _ _.
    apply auction_wp_increment. intros st2 Hq. apply HQ. by eapply auction_quiet_inv.
Qed.

Lemma auction_on_execute_ok O O' b m rep (st : S) :
  AInv O st → O ≡ₚ (b, m) :: O' → wp benign (on_execute m rep) (decided_inv O' (key m)) st.
Proof.
  intros HI HO. destruct (outstanding_entry O O' b m st HI HO) as [tx Ho].
  destruct (end_state_inv O O' b m tx st HI HO Ho) as [HI' Hk]. destruct Ho as [Htx Hl Hlock Hex [Hc Hcost]].
  unfold on_execute, remove_executing. wp_steps. rewrite bool_decide_eq_true_2 by done.
  apply wp_assert; [done|intros _]. wp_steps. cbn [sch wld].
  eapply wp_of_res; [by apply u64_sub_ok; [apply (ainv_cus_u64 _ _ HI)|]|]. wp_steps. cbn [sch wld].
  apply (wp_unlock _ _ tx); [done|]. cbn [sch wld].
  change (mk _ (wld st)) with (mk (end_state m tx (sch st)) (wld st)). set (st0 := mk _ _) in *.
  wp_step. apply (wp_mono _ _ (λ a st1, quiet st0 st1)).
  { destruct (not_included_reason rep =? reason_NONE); wp_step; apply auction_wp_bump; intros st1 Hq1; wp_step;
      apply auction_wp_increment; intros st2 Hq2; wp_step; by etransitivity. }
  intros a st1 Hq1. wp_step. apply auction_wp_emit_tx_event; [by eapply auction_quiet_live|].
  intros st2 Hq2. pose proof (transitivity Hq1 Hq2) as Hq. pose proof (auction_quiet_inv O' _ _ Hq HI') as HI2.
  assert (key m ∉ held_keys O' (sch st2)) as Hk2 by (by rewrite (auction_quiet_held O' _ _ Hq)).
  destruct (_ || _); [by wp_step|]. do 2 wp_step. wp_step. apply (wp_auction_put_back O' m); [done| | | |done|].
  - done.
  - by eapply auction_quiet_live.
  - by eapply auction_quiet_lockable.
  - intros st3 HI3. do 2 wp_step. wp_step. apply (wp_execute_evict_inv O'); [done|]. intros st4 HI4. wp_step. by split.
Qed.

(** ** Checks *)

(** A response names at most one failure, and without one the worker did what
    the request asked for. *)
Definition well_formed_check (rep : CheckResponse) : Prop :=
  match check_failures rep with
  | (true, false, false) | (false, true, false) | (false, false, true) => True
  | (false, false, false) =>
      fee_payer_balance_flags rep = Z.lor fee_payer_REQUESTED fee_payer_PERFORMED ∧
      resolve_flags rep = Z.lor resolve_REQUESTED resolve_PERFORMED ∧
      has_flag (status_check_flags rep) status_REQUESTED = true ∧
      has_flag (status_check_flags rep) status_PERFORMED = true
  | _ => False
  end.

Definition check_failed (rep : CheckResponse) : bool :=
  let '(p, r, s) := check_failures rep in p || r || s.

Definition check_ignored (m : PriorityId) (s : Sched) : bool :=
  bool_decide (key m ∈ executing_tx s) || iset_contains m (deferred_tx s).

Definition resolves_filtered (keys : option (list Pubkey)) (s : Sched) : bool :=
  existsb (λ k, bool_decide (k ∈ filter_keys s)) (default [] keys).

(** A check response is for a transaction that executes or waits, for a
    recheck, or for a transaction the scheduler does not hold yet. *)
Definition checkable (O : list (bool * PriorityId)) (m : PriorityId) (s : Sched) : Prop :=
  m ∈ checked_tx s ∨ key m ∉ held_keys O s ∨ check_ignored m s = true.

Lemma wp_remove_checked_inv E O m (Q : bool → S → Prop) (st : S) :
  AInv O st → live (wld st) (key m) → m ∈ checked_tx (sch st) ∨ key m ∉ held_keys O (sch st) →
  (∀ b st', AInv O st' → (key m ∉ held_keys O (sch st')) → Q b st') →
  wp E (remove_checked m) Q st.
Proof.
  intros HI Hl Hm HQ. unfold remove_checked. wp_steps. unfold btree_remove.
  destruct (btree_contains m (checked_tx (sch st))) eqn:Hin; last first.
  { wp_steps. apply btree_contains_false in Hin. apply HQ; [done|]. by destruct Hm. }
  apply btree_contains_spec in Hin. wp_steps. unfold dequeue_tx. wp_step. apply wp_locks; [done|].
  unfold update_engine. wp_steps. cbn [sch wld]. set (st' := mk _ _).
  assert (held_keys O (sch st) ≡ₚ key m :: held_keys O (sch st')) as Hh.
  { unfold held_keys, locking_keys. simpl. rewrite (remove_sorted_Permutation m _ Hin) at 1. solve_Permutation. }
  pose proof (ainv_keys _ _ HI) as Hnd. rewrite Hh in Hnd. apply NoDup_cons in Hnd as [Hk _]. apply HQ; [|done].
  destruct st as [s w]. unfold st'. eapply AInv_smaller; [done| |done]. split; simpl; try done.
  apply remove_sorted_sublist.
Qed.

Lemma wp_auction_check_failed O m (p r s : bool) (Q : TxDecision → S → Prop) (st : S) :
  AInv O st → live (wld st) (key m) → m ∈ checked_tx (sch st) ∨ key m ∉ held_keys O (sch st) →
  (p, r, s) ∈ [(true, false, false); (false, true, false); (false, false, true)] →
  (∀ st', AInv O st' → (key m ∉ held_keys O (sch st')) → Q Drop st') →
  wp benign (
    let* reason :=
      match p, r, s with
      | true, false, false => mret ParseOrSanitize
      | false, true, false => mret AccountResolution
      | false, false, true => mret StatusCheck
      | _, _, _ => panic (PUnreachable "on_check: reason")
      end in
    emit_tx_event (key m) (priority m) (CheckErr reason) ;;
    increment m_check_err 1 ;;
    bump check_err 1 ;;
    let* _ := remove_checked m in
    mret Drop) Q st.
Proof.
  intros HI Hl Hm Hwf HQ. wp_step.
  assert (∀ reason, wp benign (
    emit_tx_event (key m) (priority m) (CheckErr reason) ;;
    increment m_check_err 1 ;;
    bump check_err 1 ;;
    let* _ := remove_checked m in
    mret Drop) Q st) as Hrest.
  { intros reason. wp_step. apply auction_wp_emit_tx_event; [done|]. intros st1 Hq1.
    apply auction_wp_count. intros st2 Hq2. pose proof (transitivity Hq1 Hq2) as Hq.
    wp_step. apply (wp_remove_checked_inv _ O).
    - by eapply auction_quiet_inv.
    - by eapply auction_quiet_live.
    - rewrite (auction_quiet_held O _ _ Hq). destruct Hq as [[stats ->] _]. done.
    - intros b st3 HI3 Hk3. wp_step. by apply HQ. }
  rewrite !elem_of_cons, elem_of_nil in Hwf.
  destruct Hwf as [[= -> -> ->]|[[= -> -> ->]|[[= -> -> ->]|[]]]]; apply wp_ret, Hrest.
Qed.

(** Making room for a first check. *)
Lemma wp_check_evict_inv O m (Q : unit → S → Prop) (st : S) :
  AInv O st → key m ∉ held_keys O (sch st) → live (wld st) (key m) → lockable (wld st) (key m) →
  (checked_tx (sch st) = [] → (pending_len (sch st) < checked_capacity (sch st))%nat) →
  (∀ st', AInv O st' → (key m ∉ held_keys O (sch st')) → live (wld st') (key m) →
     lockable (wld st') (key m) → Q tt st') →
  wp benign (
    when (checked_capacity (sch st) <=? pending_len (sch st))%nat (
      let* o := pop_first_checked in
      let* id := unwrap "on_check: pop_first" o in
      evict_checked id ;;
      increment m_check_evict 1 ;;
      bump check_evict 1)) Q st.
Proof.
  intros HI Hk Hl Hlock Hcap HQ. apply wp_when; intros Hc; [|by apply HQ].
  apply Nat.leb_le in Hc. wp_step. apply (wp_pop_first_inv O); [done| |].
  { intros Hnil. specialize (Hcap Hnil). lia. }
  intros id l f Hck Hf. simpl. wp_steps. apply (wp_evict_checked_inv O id l f); [done..|].
  intros st1 HI1 Hh1 Hw1. assert (key m ≠ key id) as Hne.
  { intros Heq. apply Hk. rewrite Heq. apply checked_held. rewrite Hck. by left. }
  wp_step. apply auction_wp_increment. intros st2 Hq1. apply auction_wp_bump. intros st3 Hq2.
  pose proof (transitivity Hq1 Hq2) as Hq. apply HQ.
  - by eapply auction_quiet_inv.
  - rewrite (auction_quiet_held O _ _ Hq). by apply Hh1.
  - eapply auction_quiet_live; [done|]. unfold live. by rewrite Hw1.
  - eapply auction_quiet_lockable; [done|]. unfold lockable, tx_locks. by rewrite Hw1.
Qed.

Lemma auction_on_check_ok O m rep resolved (st : S) :
  AInv O st → live (wld st) (key m) → is_u64 (cost m) → well_formed_check rep →
  (check_failed rep = false → lockable (wld st) (key m)) → checkable O m (sch st) →
  (checked_tx (sch st) = [] → (pending_len (sch st) < checked_capacity (sch st))%nat) →
  wp benign (on_check m rep resolved) (decided_inv O (key m)) st.
Proof.
  intros HI Hl Hcost Hwf Hlock Hm Hcap. unfold on_check. wp_steps.
  fold (check_ignored m (sch st)). unfold checkable in Hm.
  destruct (check_ignored m (sch st)) eqn:Hig; [by wp_steps|].
  assert (m ∈ checked_tx (sch st) ∨ key m ∉ held_keys O (sch st)) as Hm' by naive_solver.
  unfold well_formed_check, check_failed in *.
  destruct (check_failures rep) as [[p r] s]. cbv beta iota in *. destruct (p || r || s) eqn:Hf.
  { eapply (wp_auction_check_failed O m); [done..| |by intros st' HI' Hk']. destruct p, r, s; try done; set_solver. }
  specialize (Hlock eq_refl). destruct p, r, s; try done. destruct Hwf as (-> & -> & Hf1 & Hf2).
  rewrite !Z.eqb_refl, Hf1, Hf2. do 4 (wp_step; apply wp_assert; [done|intros _]).
  destruct (btree_contains m (checked_tx (sch st))) eqn:Hin.
  { apply auction_wp_count. intros st' Hq. wp_step. by split; [eapply auction_quiet_inv|]. }
  apply btree_contains_false in Hin. destruct Hm' as [|Hk]; [done|].
  fold (resolves_filtered resolved (sch st)). destruct (resolves_filtered resolved (sch st)).
  { apply auction_wp_count. intros st' Hq. wp_step. split; [by eapply auction_quiet_inv|].
    intros _. by rewrite (auction_quiet_held O _ _ Hq). }
  wp_step. eapply (wp_check_evict_inv O m); [done..|]. intros st1 HI1 Hk1 Hl1 Hlock1.
  wp_step. apply (wp_insert_checked_inv _ O); [done..|]. intros f st2 Hst2 HI2.
  wp_step. apply auction_wp_emit_tx_event; [by rewrite Hst2|]. intros st3 Hq3.
  apply auction_wp_count. intros st4 Hq4. wp_step. split; [|done]. eapply auction_quiet_inv, HI2. by etransitivity.
Qed.
End Returns.
