(* ===== verification/AuctionIngest.v ===== *)
(** * Ingestion keeps the auction scheduler's invariant

    The TPU closure, Jito packets and bundles, and the expiry of bundles
    against the invariant of [AuctionInvariant]: what is kept is new to the
    scheduler, what is refused or evicted is dropped. *)

From S2P Require Import Prelude F64 BTreeSet Types Events Externals TipProgram Costs Common Outstanding.
From S2P Require Import AuctionLocks AuctionEngine AuctionState AuctionScheduler.
From S2P Require Import AuctionHandlers AuctionExecute AuctionInvariant AuctionReturns.

Section Ingest.
Context `{Profile} `{AgaveBindings} `{World W} `{!WorldLaws} `{LibM} `{HashMapOrder}
  {Heap DSet : Type} `{MinMaxHeap Heap PriorityId} `{!MinMaxHeapLaws Heap PriorityId}
  `{IndexSet DSet PriorityId} `{!IndexSetLaws DSet PriorityId}.
Abbreviation Sched := (AuctionBatchScheduler Heap DSet).
Abbreviation S := (St Sched W).
Abbreviation Outstanding := (list (bool * PriorityId)).

(** Besides the benign panics: sums of costs, fees and tips that overflow, and
    the difference of [effective_remaining_cu], in a build with overflow
    checks. *)
Definition ingest_panic (p : Panic) : Prop := benign p ∨ ∃ site, p = POverflow site.

Lemma auction_wp_ingest {A} (m : M S A) Q st : wp benign m Q st → wp ingest_panic m Q st.
Proof. intros Hm. eapply wp_weaken; [done|]. by left. Qed.

Lemma auction_wp_overflows {A} (r : Res A) Q (st : S) :
  overflows_only r → (∀ a, r = Ok a → Q a st) → wp ingest_panic (of_res r) Q st.
Proof.
  intros Hr HQ. apply wp_of_res_cases; [done| |].
  - intros p ->. by right.
  - by intros ->.
Qed.

Lemma auction_wp_u64_add site a b Q (st : S) :
  (∀ v, is_u64 v → Q v st) → wp ingest_panic (of_res (u64_add site a b)) Q st.
Proof.
  intros HQ. apply auction_wp_overflows; [apply checked_result_overflows|].
  intros v Hv. apply HQ. by eapply checked_result_u64.
Qed.

Lemma score_overflows costs ls tip (s : Sched) : overflows_only (score_with_auction costs ls tip s).
Proof.
  unfold score_with_auction. destruct (count_locks ls). apply overflows_bind; [apply checked_result_overflows|done].
Qed.

Lemma auction_priority_overflows rt cu tx (s : Sched) : overflows_only (calculate_priority rt cu tx s).
Proof.
  unfold calculate_priority. destruct (derive_costs _ _); [|done].
  apply overflows_bind; [apply sum_u64_overflows|]. intros tip. apply score_overflows.
Qed.

Lemma remaining_cu_overflows p (s : Sched) : overflows_only (effective_remaining_cu p s).
Proof.
  unfold effective_remaining_cu. apply overflows_bind; [apply checked_result_overflows|]. intros used.
  apply overflows_bind; [apply checked_result_overflows|]. intros left. apply checked_result_overflows.
Qed.

(** ** Transactions *)

Lemma auction_on_tpu_ok O k (st : S) :
  AInv O st → k ∉ held_keys O (sch st) → live (wld st) k →
  wp ingest_panic (on_tpu k) (decided_inv O k) st.
Proof.
  intros HI Hk Hl. pose proof Hl as (tx & Htx & _). unfold on_tpu. wp_steps.
  apply auction_wp_overflows; [apply remaining_cu_overflows|]. intros cu _. wp_steps.
  apply (wp_transaction _ _ tx); [done|]. wp_step.
  apply auction_wp_overflows; [apply auction_priority_overflows|]. intros pc _. apply auction_wp_ingest.
  assert (∀ st', quiet st st' → decided_inv O k Drop st') as Hdrop.
  { intros st' Hq. split; [by eapply auction_quiet_inv|]. intros _. by rewrite (auction_quiet_held O _ _ Hq). }
  destruct pc as [[prio c]|]; [|apply auction_wp_count; intros st' Hq; wp_step; by apply Hdrop].
  wp_steps. destruct (should_filter_static (sch st) (data tx)).
  { apply auction_wp_count. intros st' Hq. wp_step. by apply Hdrop. }
  do 2 wp_step. wp_step. apply auction_wp_emit_tx_event; [done|]. intros st1 Hq1.
  apply auction_wp_count. intros st2 Hq2. wp_step. split; [|done].
  eapply auction_quiet_inv; [exact (transitivity Hq1 Hq2)|].
  by apply (auction_push_unchecked_inv O {| priority := prio; cost := c; key := k |} st).
Qed.

Lemma wp_evict_unchecked_inv O (Q : unit → S → Prop) (st : S) :
  AInv O st → heap_elements (unchecked_tx (sch st)) ≠ [] →
  (∀ st', AInv O st' → heap_len (unchecked_tx (sch st)) = Datatypes.S (heap_len (unchecked_tx (sch st'))) →
     (∀ k, k ∉ held_keys O (sch st) → k ∉ held_keys O (sch st')) →
     (∀ k, k ∉ held_keys O (sch st) → w_transaction (wld st') k = w_transaction (wld st) k) → Q tt st') →
  wp benign evict_unchecked Q st.
Proof.
  intros HI Hne HQ. unfold evict_unchecked. wp_steps.
  destruct (heap_pop_min (unchecked_tx (sch st))) as [[m h]|] eqn:Hpop; last first.
  { by apply heap_pop_min_None in Hpop. }
  pose proof (heap_pop_min_Some _ _ _ Hpop) as [Hp _].
  destruct (auction_pop_unchecked_inv O m h st HI Hp) as (HI' & Hk & Hl).
  assert (held_keys O (sch st) ≡ₚ key m :: held_keys O ((sch st) <| unchecked_tx := h |>)) as Hh.
  { unfold held_keys, locking_keys. simpl. by rewrite Hp. }
  simpl. wp_steps. apply auction_wp_emit_tx_event; [done|]. intros st1 Hq.
  pose proof (auction_quiet_inv O _ _ Hq HI') as HI1. pose proof (auction_quiet_held O _ _ Hq) as Hh1.
  unfold drop_transaction. wp_step. apply HQ; simpl.
  - destruct st1. apply AInv_drop; [done|]. simpl in *. by rewrite Hh1.
  - destruct Hq as [[stats ->] _]. simpl. by rewrite !heap_len_elements, Hp.
  - simpl in Hh1. rewrite Hh1. intros k Hn Hin. apply Hn. rewrite Hh. by right.
  - intros k Hn. rewrite drop_transaction_other.
    + destruct Hq as [_ Hw]. simpl in Hw. by rewrite Hw.
    + intros <-. apply Hn. rewrite Hh. by left.
Qed.

(** Two counters, then the bridge drops the transaction. *)
Lemma wp_auction_refuse O k mt (field : SlotStatsEvent → Z) `{!Setter field} (Q : unit → S → Prop) (st : S) :
  AInv O st → k ∉ held_keys O (sch st) → (∀ st', AInv O st' → Q tt st') →
  wp benign (increment mt 1 ;; bump field 1 ;; drop_transaction k) Q st.
Proof.
  intros HI Hk HQ. apply auction_wp_count. intros st1 Hq. unfold drop_transaction. wp_step. apply HQ.
  pose proof (auction_quiet_inv O _ _ Hq HI) as HI1. pose proof (auction_quiet_held O _ _ Hq) as Hh.
  destruct st1. apply AInv_drop; [done|]. simpl in *. by rewrite Hh.
Qed.

Lemma wp_auction_packet_room O k (Q : unit → S → Prop) (st : S) :
  AInv O st → k ∉ held_keys O (sch st) → live (wld st) k → unchecked_capacity (sch st) ≠ 0%nat →
  (∀ st', AInv O st' → (k ∉ held_keys O (sch st')) → live (wld st') k → Q tt st') →
  wp benign (when (heap_len (unchecked_tx (sch st)) =? unchecked_capacity (sch st))%nat (
    evict_unchecked ;; increment m_recv_packet_evict 1)) Q st.
Proof.
  intros HI Hk Hl Hcap HQ. apply wp_when; intros Hc; [|by apply HQ]. apply Nat.eqb_eq in Hc.
  wp_step. apply (wp_evict_unchecked_inv O); [done|intros Hnil|].
  { rewrite heap_len_elements, Hnil in Hc. by simpl in Hc. }
  intros st1 HI1 _ Hh1 Hw1. apply auction_wp_increment. intros st2 Hq. apply HQ.
  - by eapply auction_quiet_inv.
  - rewrite (auction_quiet_held O _ _ Hq). by apply Hh1.
  - eapply auction_quiet_live; [done|]. unfold live. by rewrite Hw1.
Qed.

Lemma auction_on_packet_ok O packet (st : S) :
  AInv O st → unchecked_capacity (sch st) ≠ 0%nat →
  wp ingest_panic (on_packet packet) (λ _ st', AInv O st') st.
Proof.
  intros HI Hcap. unfold on_packet, insert_transaction. wp_steps.
  destruct (w_insert_transaction packet (wld st)) as [[k|] w'] eqn:Hins; destruct st as [s w]; simpl in *; last first.
  { wp_steps. apply insert_transaction_refused in Hins. by eapply AInv_pools. }
  destruct (AInv_insert O s w w' packet k HI Hins) as (HI' & Hk & Hl & _). pose proof Hl as (tx & Htx & _).
  wp_steps. apply auction_wp_overflows; [apply remaining_cu_overflows|]. intros cu _. wp_steps.
  apply (wp_transaction _ _ tx); [done|]. wp_step.
  apply auction_wp_overflows; [apply auction_priority_overflows|]. intros pc _. apply auction_wp_ingest.
  destruct pc as [[prio c]|]; [|by apply (wp_auction_refuse O k)].
  wp_steps. cbn [sch]. destruct (should_filter_static s (data tx)); [by apply (wp_auction_refuse O k)|].
  wp_step. apply (wp_auction_packet_room O k _ (mk s w')); [done..|]. intros st1 HI1 Hk1 Hl1.
  do 2 wp_step. wp_step. apply auction_wp_emit_tx_event; [done|]. intros st2 Hq1. wp_step.
  apply auction_wp_increment. intros st3 Hq2. apply auction_wp_bump. intros st4 Hq3.
  eapply auction_quiet_inv; [exact (transitivity (transitivity Hq1 Hq2) Hq3)|]. by apply auction_push_unchecked_inv.
Qed.

(** ** Bundles *)

(** Only the engine's queues differ. *)
Definition requeued (s s' : Sched) : Prop := same_pools s s' ∧ bundle_capacity s' = bundle_capacity s.

Lemma requeued_trans s1 s2 s3 : requeued s1 s2 → requeued s2 s3 → requeued s1 s3.
Proof.
  intros [((He & Hc & Hl) & Hu & Hck & Hd & Hb) Hcap] [((He' & Hc' & Hl') & Hu' & Hck' & Hd' & Hb') Hcap'].
  unfold requeued, same_pools, same_executions, same_locks in *. split_and!; congruence.
Qed.

Lemma quiet_requeued (st st' : S) : quiet st st' → requeued (sch st) (sch st').
Proof. intros [[stats ->] _]. done. Qed.

Lemma wp_queue_all E ks (Q : unit → S → Prop) (st : S) :
  (∀ k, k ∈ ks → live (wld st) k) →
  (∀ s', requeued (sch st) s' → Q tt (mk s' (wld st))) → wp E (for_each ks queue_tx) Q st.
Proof.
  revert st. induction ks as [|k ks IH]; intros [s w] Hl HQ; simpl in *.
  { wp_step. by apply HQ. }
  wp_step. unfold queue_tx at 1. wp_step. apply wp_locks; [apply Hl; by left|]. unfold update_engine. wp_step.
  apply IH; [intros; apply Hl; by right|]. intros s' Hs'. apply HQ. eapply requeued_trans, Hs'. done.
Qed.

Lemma wp_drop_all E O ks (Q : unit → S → Prop) (st : S) :
  AInv O st → (∀ k, k ∈ ks → k ∉ held_keys O (sch st)) →
  (∀ w', AInv O (mk (sch st) w') → Q tt (mk (sch st) w')) → wp E (drop_keys ks) Q st.
Proof.
  revert st. induction ks as [|k ks IH]; intros [s w] HI Hks HQ; unfold drop_keys in *; simpl in *.
  { wp_step. by apply HQ. }
  wp_step. unfold drop_transaction at 1. wp_step. apply (IH (mk s (w_drop_transaction k w))); simpl.
  - apply AInv_drop; [done|]. apply Hks. by left.
  - intros k' Hk'. apply Hks. by right.
  - done.
Qed.

(** Dequeuing and dropping the transactions of a bundle. *)
Lemma wp_discard_keys E ks (Q : unit → S → Prop) (st : S) :
  NoDup ks → (∀ k, k ∈ ks → live (wld st) k) →
  (∀ s' w', requeued (sch st) s' → (∀ k, k ∉ ks → w_transaction w' k = w_transaction (wld st) k) →
     Q tt (mk s' w')) →
  wp E (discard_keys ks) Q st.
Proof.
  revert st. induction ks as [|k ks IH]; intros [s w] Hnd Hl HQ; unfold discard_keys in *; simpl in *.
  { wp_step. by apply HQ. }
  apply NoDup_cons in Hnd as [Hk Hnd]. wp_step. wp_step. unfold dequeue_tx at 1. wp_step.
  apply wp_locks; [apply Hl; by left|]. unfold update_engine, drop_transaction. do 2 wp_step.
  assert (∀ k', k' ≠ k → w_transaction (w_drop_transaction k w) k' = w_transaction w k') as Hw.
  { intros k' Hne. by apply drop_transaction_other. }
  apply IH; [done| |].
  - intros k' Hk'. unfold live. simpl. rewrite Hw by (by intros ->). apply Hl. by right.
  - intros s' w' Hs' Hw'. apply HQ; [eapply requeued_trans, Hs'; done|].
    intros k' [Hne Hk']%not_elem_of_cons. rewrite Hw' by done. simpl. by apply Hw.
Qed.

(** Keys that were inserted for a bundle: new to the scheduler. *)
Definition inserted (O : Outstanding) (s : Sched) (w : W) (ks : list TransactionKey) : Prop :=
  NoDup (ks ++ held_keys O s) ∧ (∀ k, k ∈ ks → live w k) ∧ ∀ k, k ∈ ks → lockable w k.

(** The bridge names no account of a packet's transaction twice. *)
Definition lockable_packet (packet : u8s) : Prop :=
  ∀ w k w', w_insert_transaction packet w = (Some k, w') → lockable w' k.

Lemma auction_inserted_not_held O s w ks : inserted O s w ks → ∀ k, k ∈ ks → k ∉ held_keys O s.
Proof. intros [Hnd _] k Hk. apply NoDup_app in Hnd as (_ & Hd & _). by apply Hd. Qed.

Lemma auction_inserted_snoc O s w w' ks packet k :
  AInv O (mk s w) → inserted O s w ks → w_insert_transaction packet w = (Some k, w') →
  lockable_packet packet → inserted O s w' (ks ++ [k]).
Proof.
  intros HI (Hnd & Hl & Hlock) Hins Hpk. destruct (AInv_insert O s w w' packet k HI Hins) as (_ & Hk & Hlk & Hw).
  destruct (insert_transaction_fresh _ _ _ _ Hins) as (Hnone & _ & _).
  assert (k ∉ ks) as Hkks.
  { intros (tx & Htx & _)%Hl. congruence. }
  split; [|split].
  - rewrite <- (assoc_L (++)). simpl. rewrite <- Permutation_middle. apply NoDup_cons.
    split; [|done]. rewrite elem_of_app. tauto.
  - intros k' [Hk'|Hk'%list_elem_of_singleton]%elem_of_app; [|by subst].
    unfold live. rewrite Hw by (by intros ->). by apply Hl.
  - intros k' [Hk'|Hk'%list_elem_of_singleton]%elem_of_app; [|subst; by eapply Hpk].
    unfold lockable, tx_locks. rewrite Hw by (by intros ->). by apply Hlock.
Qed.

(** The keys stay inserted when the scheduler holds no more and the bridge
    keeps them. *)
Lemma auction_inserted_mono O s w s' w' ks :
  inserted O s w ks → held_keys O s' ⊆+ held_keys O s →
  (∀ k, k ∈ ks → w_transaction w' k = w_transaction w k) → inserted O s' w' ks.
Proof.
  intros (Hnd & Hl & Hlock) Hsub Hw. split; [|split].
  - eapply submseteq_NoDup, Hnd. by apply submseteq_app.
  - intros k Hk. unfold live. rewrite Hw by done. by apply Hl.
  - intros k Hk. unfold lockable, tx_locks. rewrite Hw by done. by apply Hlock.
Qed.

Lemma wp_auction_ingest_failed O ks (Q : option (list TransactionKey * Z * Z) → S → Prop) (st : S) :
  AInv O st → (∀ k, k ∈ ks → k ∉ held_keys O (sch st)) → (∀ st', AInv O st' → Q None st') →
  wp ingest_panic (drop_keys ks ;; increment m_recv_bundle_err 1 ;; mret None) Q st.
Proof.
  intros HI Hks HQ. apply auction_wp_ingest. wp_step. apply (wp_drop_all _ O); [done..|]. intros w' HI'. wp_step.
  apply auction_wp_increment. intros st' Hq. wp_steps. apply HQ. by eapply auction_quiet_inv.
Qed.

Lemma auction_ingest_bundle_spec O packets ks c r (Q : option (list TransactionKey * Z * Z) → S → Prop) (st : S) :
  AInv O st → inserted O (sch st) (wld st) ks → Forall lockable_packet packets → is_u64 c →
  (∀ st', AInv O st' → Q None st') →
  (∀ w' ks' c' r', AInv O (mk (sch st) w') → inserted O (sch st) w' ks' →
     length ks' = (length ks + length packets)%nat → is_u64 c' →
     Q (Some (ks', c', r')) (mk (sch st) w')) →
  wp ingest_panic (ingest_bundle packets ks c r) Q st.
Proof.
  revert ks c r st. induction packets as [|packet packets IH]; intros ks c r [s w] HI Hins Hpks Hc HN HS; simpl.
  { wp_steps. apply HS; done || (simpl; lia). }
  apply Forall_cons in Hpks as [Hpk Hpks]. unfold insert_transaction. wp_steps. simpl in *.
  destruct (w_insert_transaction packet w) as [[k|] w'] eqn:Hi; last first.
  { apply insert_transaction_refused in Hi.
    apply (wp_auction_ingest_failed O ks _ (mk s w')); [by eapply AInv_pools| |done]. by eapply auction_inserted_not_held. }
  destruct (AInv_insert O s w w' packet k HI Hi) as (HI' & _ & Hl & _).
  pose proof (auction_inserted_snoc O s w w' ks packet k HI Hins Hi Hpk) as Hins'.
  pose proof (auction_inserted_not_held _ _ _ _ Hins') as Hnh.
  assert (wp ingest_panic (drop_keys (ks ++ [k]) ;; increment m_recv_bundle_err 1 ;; mret None) Q (mk s w')) as Hfail.
  { by apply (wp_auction_ingest_failed O (ks ++ [k]) _ (mk s w')). }
  cbn [fst snd]. cbv iota zeta. wp_steps. destruct Hl as (tx & Htx & _). apply (wp_transaction _ _ tx); [done|].
  destruct (derive_costs _ _) as [costs|]; [|exact Hfail]. wp_step.
  apply auction_wp_overflows; [apply sum_u64_overflows|]. intros tip _. wp_steps.
  apply auction_wp_overflows; [apply score_overflows|]. intros [[score cost]|] _; [|exact Hfail].
  destruct (_ <? _); [exact Hfail|]. wp_step.
  apply auction_wp_u64_add. intros c' Hc'. wp_step. apply auction_wp_u64_add. intros r' _.
  apply (IH (ks ++ [k]) c' r' (mk s w')); try done.
  intros w2 ks' c2 r2 HI2 Hins2 Hlen Hc2. apply HS; try done. rewrite Hlen, length_app. simpl. lia.
Qed.

(** A bundle leaves the collection. *)
Lemma requeued_inv O (st : S) s' : AInv O st → requeued (sch st) s' → AInv O (mk s' (wld st)).
Proof. intros HI [Hs _]. destruct st. by eapply AInv_pools. Qed.

Lemma auction_pop_bundle O b l (st : S) :
  AInv O st → bundles (sch st) = b :: l →
  AInv O (mk ((sch st) <| bundles := l |>) (wld st)) ∧
  held_keys O (sch st) ≡ₚ keys b ++ held_keys O ((sch st) <| bundles := l |>).
Proof.
  intros HI Hb. split.
  - destruct st as [s w]. eapply AInv_smaller; [done| |done]. split; simpl in *; try done. rewrite Hb. by apply sublist_cons.
  - unfold held_keys, locking_keys. simpl. rewrite Hb. simpl. solve_Permutation.
Qed.

(** Discarding keys the scheduler no longer holds. *)
Lemma wp_discard_inv E O ks (Q : unit → S → Prop) (st : S) :
  AInv O st → NoDup (ks ++ held_keys O (sch st)) → (∀ k, k ∈ ks → live (wld st) k) →
  (∀ s' w', AInv O (mk s' w') → requeued (sch st) s' →
     (∀ k, k ∉ ks → w_transaction w' k = w_transaction (wld st) k) → Q tt (mk s' w')) →
  wp E (discard_keys ks) Q st.
Proof.
  intros HI (Hnd & Hd & _)%NoDup_app Hl HQ. apply wp_discard_keys; [done..|].
  intros s' w' Hs' Hw'. apply HQ; [|done..]. destruct st as [s w].
  eapply AInv_smaller; [done|by apply same_pools_smaller, Hs'|]. simpl in *.
  rewrite (same_pools_held O _ _ (proj1 Hs')). intros k Hk. apply Hw'. intros Hin. by apply (Hd k).
Qed.

Lemma wp_auction_evict_bundle O b l (Q : unit → S → Prop) (st : S) :
  AInv O st → bundles (sch st) = b :: l →
  (∀ st', AInv O st' → held_keys O (sch st') ⊆+ held_keys O (sch st) →
     (∀ k, k ∉ held_keys O (sch st) → w_transaction (wld st') k = w_transaction (wld st) k) → Q tt st') →
  wp benign evict_bundle Q st.
Proof.
  intros HI Hb HQ. destruct (auction_pop_bundle O b l st HI Hb) as [HI' Hp].
  pose proof (ainv_keys _ _ HI) as Hnd. rewrite Hp in Hnd.
  unfold evict_bundle. wp_steps. rewrite Hb. simpl. wp_steps. apply (wp_discard_inv _ O); [done|exact Hnd| |].
  { intros k Hk. apply (ainv_live _ _ HI). rewrite Hp, elem_of_app. by left. }
  intros s' w' HI1 Hs' Hw'. apply auction_wp_increment. intros st' Hq. apply HQ; [by eapply auction_quiet_inv| |].
  - rewrite (auction_quiet_held O _ _ Hq). simpl. rewrite (same_pools_held O _ _ (proj1 Hs')), Hp. by apply submseteq_inserts_l.
  - intros k Hk. destruct Hq as [_ ->]. apply Hw'. intros Hin. apply Hk. rewrite Hp, elem_of_app. by left.
Qed.

Lemma auction_insert_bundle_inv O b (st : S) :
  AInv O st → inserted O (sch st) (wld st) (keys b) → is_u64 (b_cost b) → keys b ≠ [] →
  AInv O (mk ((sch st) <| bundles ::= insert_sorted b |>) (wld st)).
Proof.
  intros HI (Hnd & Hl & Hlock) Hc Hne.
  assert (b ∉ bundles (sch st)) as Hb.
  { intros Hin. destruct (keys b) as [|k ks] eqn:Hk; [done|]. apply NoDup_app in Hnd as (_ & Hd & _).
    apply (Hd k); [by left|]. eapply bundle_held; [done|]. rewrite Hk. by left. }
  assert (held_keys O ((sch st) <| bundles ::= insert_sorted b |>) ≡ₚ keys b ++ held_keys O (sch st)) as Hp.
  { unfold held_keys, locking_keys. simpl. rewrite (insert_sorted_Permutation b _ Hb). simpl. solve_Permutation. }
  destruct st as [s w]. eapply (AInv_change O s w); [done|done|..]; try apply HI; try done.
  - apply insert_sorted_sorted, (ainv_bundles _ _ HI).
  - simpl. rewrite insert_sorted_Permutation by done. apply Forall_cons. split; [done|]. apply (ainv_bundle_costs _ _ HI).
  - by rewrite Hp.
  - intros k. rewrite Hp. intros [Hk|Hk]%elem_of_app; [by apply Hl|by apply (ainv_live _ _ HI)].
  - intros k Hk. destruct (decide (k ∈ keys b)) as [Hkb|Hkb]; [right; by apply Hlock|].
    left. split; [|done]. revert Hk. rewrite !auction_elem_of_locking. simpl.
    intros [?|[?|[?|(b' & Hb' & ?)]]]; [tauto..|]. do 3 right. exists b'. split; [|done].
    rewrite insert_sorted_Permutation, elem_of_cons in Hb' by done. destruct Hb'; [by subst|done].
Qed.

Lemma wp_auction_emit_all ks prio action (Q : unit → S → Prop) (st : S) :
  (∀ k, k ∈ ks → live (wld st) k) → (∀ st', quiet st st' → Q tt st') →
  wp benign (for_each ks (λ k, emit_tx_event k prio action)) Q st.
Proof.
  revert st. induction ks as [|k ks IH]; intros st Hl HQ; simpl; [wp_step; by apply HQ|].
  wp_step. apply auction_wp_emit_tx_event; [apply Hl; by left|]. intros st1 Hq1. apply IH.
  - intros k' Hk'. eapply auction_quiet_live; [done|]. apply Hl. by right.
  - intros st2 Hq2. apply HQ. by etransitivity.
Qed.

Lemma wp_auction_any_filtered E ks (Q : bool → S → Prop) (st : S) :
  (∀ k, k ∈ ks → live (wld st) k) → (∀ b, Q b st) → wp E (any_filtered ks) Q st.
Proof.
  intros Hl HQ. induction ks as [|k ks IH]; simpl; [by wp_steps|]. wp_step.
  destruct (Hl k ltac:(by left)) as (tx & Htx & _). apply (wp_transaction _ _ tx); [done|].
  wp_steps. destruct (should_filter_static _ _); [by wp_steps|]. apply IH. intros k' Hk'. apply Hl. by right.
Qed.

(** From the room for the bundle on. *)
Lemma wp_store_bundle O ks prio c (Q : unit → S → Prop) (st : S) :
  AInv O st → inserted O (sch st) (wld st) ks → ks ≠ [] → is_u64 c → bundle_capacity (sch st) ≠ 0%nat →
  (∀ st', AInv O st' → Q tt st') →
  wp benign (
    let* s := self id in
    when (length (bundles s) =? bundle_capacity s)%nat evict_bundle ;;
    increment m_recv_bundle_ok 1 ;;
    for_each ks queue_tx ;;
    let* now := call w_instant_now in
    update (λ s, s <| bundles ::= λ l, (btree_insert
      {| b_priority := prio; b_cost := c; received_at := now; keys := ks |} l).2 |>)) Q st.
Proof.
  intros HI Hins Hne Hc Hcap HQ. do 2 wp_step. wp_step.
  apply (wp_mono _ _ (λ _ st1, AInv O st1 ∧ inserted O (sch st1) (wld st1) ks)).
  { apply wp_when; intros Hlen; [|done]. apply Nat.eqb_eq in Hlen.
    destruct (bundles (sch st)) as [|b l] eqn:Hb; [simpl in Hlen; lia|].
    apply (wp_auction_evict_bundle O b l); [done..|]. intros st1 HI1 Hsub Hw. split; [done|].
    eapply auction_inserted_mono; [done..|]. intros k Hk. apply Hw. by eapply auction_inserted_not_held. }
  intros [] st1 [HI1 Hins1]. wp_step. apply auction_wp_increment. intros st2 Hq2.
  pose proof (auction_quiet_inv O _ _ Hq2 HI1) as HI2.
  assert (inserted O (sch st2) (wld st2) ks) as Hins2.
  { eapply auction_inserted_mono; [done|by rewrite (auction_quiet_held O _ _ Hq2)|]. intros k _. by destruct Hq2 as [_ ->]. }
  wp_step. apply wp_queue_all; [apply Hins2|]. intros s3 Hs3. wp_steps. cbn [sch wld].
  set (b := Build_BundleId _ _ _ _). set (w3 := (w_instant_now (wld st2)).2).
  assert (w_transaction w3 = w_transaction (wld st2)) as Hw3 by apply instant_now_transaction.
  apply HQ, (auction_insert_bundle_inv O b (mk s3 w3)); [|simpl|done|done].
  - destruct st2. eapply AInv_pools; [done|apply Hs3|done].
  - eapply auction_inserted_mono; [done| |intros; by rewrite Hw3].
    by rewrite (same_pools_held O _ _ (proj1 Hs3)).
Qed.

Lemma auction_on_bundle_ok O packets (st : S) :
  AInv O st → packets ≠ [] → Forall lockable_packet packets → bundle_capacity (sch st) ≠ 0%nat →
  wp ingest_panic (on_bundle packets) (λ _ st', AInv O st') st.
Proof.
  intros HI Hne Hpks Hcap. unfold on_bundle. wp_step.
  assert (is_u64 0) by (unfold is_u64, U64_MAX; lia).
  apply (auction_ingest_bundle_spec O packets [] 0 0); [done| |done|done|by intros; wp_steps|].
  { split; [apply (ainv_keys _ _ HI)|]. split; intros k Hk; by apply elem_of_nil in Hk. }
  intros w' ks c r HI' Hins Hlen Hc. apply auction_wp_ingest. wp_step.
  apply wp_auction_any_filtered; [apply Hins|]. intros []; wp_step.
  { apply auction_wp_increment. intros st' Hq. apply (wp_drop_all _ O); [by eapply auction_quiet_inv| |done].
    rewrite (auction_quiet_held O _ _ Hq). by eapply auction_inserted_not_held. }
  assert (ks ≠ []) as Hks by (destruct ks, packets; done).
  apply wp_unwrap; [by destruct ks|]. intros k Hk%list_elem_of_lookup_2. wp_step.
  destruct (proj1 (proj2 Hins) k Hk) as (tx & Htx & Hsig). unfold signed in Hsig.
  apply (wp_transaction _ _ tx); [done|]. wp_step.
  apply wp_unwrap; [by destruct (tv_signatures (data tx))|]. intros sig _. cbv zeta. wp_step.
  apply (wp_auction_emit_all ks); [apply Hins|]. intros st1 Hq. apply (wp_store_bundle O); [| |done|done| |done].
  - by eapply auction_quiet_inv.
  - eapply auction_inserted_mono; [done|by rewrite (auction_quiet_held O _ _ Hq)|]. intros k' _. by destruct Hq as [_ ->].
  - destruct Hq as [[stats ->] _]. done.
Qed.

(** ** Expiry *)

Lemma concat_Permutation {A} (ls ls' : list (list A)) : ls ≡ₚ ls' → concat ls ≡ₚ concat ls'.
Proof. induction 1; simpl; [done|by f_equiv|solve_Permutation|by etransitivity]. Qed.

Lemma wp_discard_bundles O l (Q : unit → S → Prop) (st : S) :
  AInv O st → NoDup (concat (keys <$> l) ++ held_keys O (sch st)) →
  (∀ b k, b ∈ l → k ∈ keys b → live (wld st) k) → (∀ st', AInv O st' → Q tt st') →
  wp benign (for_each l (λ b,
    update (λ s, s <| bundles ::= λ l, (btree_remove b l).2 |>) ;;
    increment m_recv_bundle_expired 1 ;;
    discard_keys (keys b))) Q st.
Proof.
  revert st. induction l as [|b l IH]; intros st HI Hnd Hl HQ; cbn [for_each]; [wp_step; by apply HQ|].
  simpl in Hnd. rewrite <- (assoc_L (++)) in Hnd. pose proof Hnd as (_ & Hd & _)%NoDup_app. do 4 wp_step.
  set (st1 := mk _ _). assert (smaller (sch st) (sch st1)) as Hs1.
  { split; simpl; try done. apply remove_sorted_sublist. }
  assert (AInv O st1) as HI1 by (destruct st as [s w]; by eapply AInv_smaller).
  pose proof (smaller_held O _ _ Hs1) as Hh1. apply auction_wp_increment. intros st2 Hq.
  pose proof (auction_quiet_held O _ _ Hq) as Hh2. pose proof Hq as [_ Hw2]. change (wld st1) with (wld st) in Hw2.
  apply (wp_discard_inv _ O).
  - by eapply auction_quiet_inv.
  - rewrite Hh2. eapply submseteq_NoDup, Hnd. apply submseteq_app; [done|]. by apply submseteq_inserts_l.
  - intros k Hk. unfold live. rewrite Hw2. apply (Hl b); [by left|done].
  - intros s3 w3 HI3 Hs3 Hw3. apply IH; [done| | |done].
    + simpl. rewrite (same_pools_held O _ _ (proj1 Hs3)), Hh2.
      apply NoDup_app in Hnd as (_ & _ & Hnd). eapply submseteq_NoDup, Hnd. by apply submseteq_app.
    + intros b' k Hb' Hk. unfold live. simpl. rewrite Hw3, Hw2; [apply (Hl b'); [by right|done]|].
      intros Hin. apply (Hd k Hin). rewrite elem_of_app, elem_of_concat. left. exists (keys b').
      split; [done|by apply list_elem_of_fmap_2].
Qed.

Lemma auction_drop_expired_ok O (st : S) :
  AInv O st → wp benign drop_expired_bundles (λ _ st', AInv O st') st.
Proof.
  intros HI. unfold drop_expired_bundles. wp_steps. cbn [sch wld btree_extract_if]. set (p := is_expired _ _).
  do 2 wp_step. set (st1 := mk _ _).
  assert (held_keys O (sch st) ≡ₚ concat (keys <$> List.filter p (bundles (sch st))) ++ held_keys O (sch st1)) as Hp.
  { unfold held_keys, locking_keys. simpl.
    rewrite (concat_Permutation _ _ (fmap_Permutation keys _ _ (filter_split p (bundles (sch st))))) at 1.
    rewrite fmap_app, concat_app. solve_Permutation. }
  apply (wp_discard_bundles O); [| | |done].
  - destruct st as [s w]. eapply AInv_smaller; [exact HI| |].
    + split; simpl; try done. apply filter_sublist.
    + intros k _. simpl. by rewrite instant_now_transaction.
  - rewrite <- Hp. apply (ainv_keys _ _ HI).
  - intros b k Hb Hk. unfold live. simpl. rewrite instant_now_transaction. apply (ainv_live _ _ HI).
    rewrite Hp, elem_of_app, elem_of_concat. left. exists (keys b). split; [done|by apply list_elem_of_fmap_2].
Qed.
End Ingest.
