(* ===== verification/AuctionSlot.v ===== *)
(** * Slots of the auction scheduler

    The roll to a new slot and the transactions that make the leader the tip
    receiver, against the invariant of [AuctionInvariant].  The second of them
    may be sent without its locks. *)

From S2P Require Import Prelude F64 BTreeSet Types Events Externals TipProgram Costs Common Outstanding.
From S2P Require Import AuctionLocks AuctionEngine AuctionState AuctionScheduler.
From S2P Require Import AuctionHandlers AuctionExecute AuctionInvariant AuctionReturns AuctionIngest.

Section Slot.
Context `{Profile} `{AgaveBindings} `{World W} `{!WorldLaws} `{LibM} `{HashMapOrder}
  {Heap DSet : Type} `{MinMaxHeap Heap PriorityId} `{!MinMaxHeapLaws Heap PriorityId}
  `{IndexSet DSet PriorityId} `{!IndexSetLaws DSet PriorityId}.
Abbreviation Sched := (AuctionBatchScheduler Heap DSet).
Abbreviation S := (St Sched W).
Abbreviation Outstanding := (list (bool * PriorityId)).

(** The bridge refusing one of the scheduler's own transactions, and the end of
    the slots' range, besides the benign panics. *)
Definition slot_panic (p : Panic) : Prop :=
  benign p ∨ p ∈ [POverflow "become_tip_receiver: slot + 4"; PUnwrap "become_tip_receiver: insert init";
                  PUnwrap "become_tip_receiver: insert change"].

Lemma wp_slot {A} (m : M S A) Q st : wp benign m Q st → wp slot_panic m Q st.
Proof. intros Hm. eapply wp_weaken; [done|]. by left. Qed.

(** ** Deferred transactions come back *)

Lemma wp_insert_all E O l (Q : unit → S → Prop) (st : S) :
  AInv O st → NoDup ((key <$> l) ++ held_keys O (sch st)) →
  (∀ m, m ∈ l → live (wld st) (key m) ∧ lockable (wld st) (key m) ∧ is_u64 (cost m)) →
  (∀ st', AInv O st' → tip_config (sch st') = tip_config (sch st) → slot (sch st') = slot (sch st) → Q tt st') →
  wp E (for_each l insert_checked) Q st.
Proof.
  revert st. induction l as [|m l IH]; intros st HI Hnd Hl HQ; cbn [for_each]; [wp_step; by apply HQ|].
  cbn in Hnd. apply NoDup_cons in Hnd as [Hm Hnd]. rewrite elem_of_app in Hm.
  destruct (Hl m ltac:(by left)) as (Hlm & Hlk & Hc). wp_step.
  apply (wp_insert_checked_inv _ O); [done|tauto|done..|]. intros f st1 -> HI1. apply IH; [done| | |done].
  - assert (m ∉ checked_tx (sch st)) as Hnc by (intros Hin; apply Hm; right; by apply checked_held).
    pose proof (auction_held_insert_checked O m _ Hnc) as Hp.
    match goal with |- NoDup (_ ++ held_keys O ?s) =>
      assert (held_keys O s ≡ₚ key m :: held_keys O (sch st)) as -> by exact Hp end.
    rewrite <- Permutation_middle. apply NoDup_cons. rewrite elem_of_app. tauto.
  - intros m' Hm'. apply Hl. by right.
Qed.

Lemma wp_drain_deferred_inv E O (Q : unit → S → Prop) (st : S) :
  AInv O st →
  (∀ st', AInv O st' → tip_config (sch st') = tip_config (sch st) → slot (sch st') = slot (sch st) → Q tt st') →
  wp E drain_deferred Q st.
Proof.
  intros HI HQ. unfold drain_deferred. wp_steps.
  destruct (iset_drain_spec (deferred_tx (sch st))) as (d & -> & Hd). wp_steps. set (st1 := mk _ _).
  assert (held_keys O (sch st) ≡ₚ (key <$> iset_elements (deferred_tx (sch st))) ++ held_keys O (sch st1)) as Hh.
  { unfold held_keys, locking_keys. simpl. rewrite Hd. simpl. solve_Permutation. }
  assert (AInv O st1) as HI1.
  { destruct st as [s w]. eapply AInv_smaller; [done| |done]. split; simpl in *; try done.
    rewrite Hd. apply sublist_nil_l. }
  apply (wp_insert_all _ O); [done| | |done].
  - rewrite <- Hh. apply (ainv_keys _ _ HI).
  - intros m Hm. split; [by apply (ainv_live _ _ HI), deferred_held|]. split.
    + apply (ainv_lockable _ _ HI), auction_elem_of_locking. right; left. by exists m.
    + pose proof (ainv_waiting_costs _ _ HI) as Hc. apply Forall_app in Hc as [_ Hc].
      rewrite Forall_forall in Hc. by apply Hc.
Qed.

(** ** The roll *)

(** Steps on the fields the invariant does not speak of. *)
Lemma pools_inv O (st st' : S) :
  AInv O st → same_pools (sch st) (sch st') → w_transaction (wld st') = w_transaction (wld st) → AInv O st'.
Proof. intros HI Hs Hw. destruct st, st'. by eapply AInv_pools. Qed.

Lemma same_pools_trans (s1 s2 s3 : Sched) : same_pools s1 s2 → same_pools s2 s3 → same_pools s1 s3.
Proof. unfold same_pools, same_executions, same_locks. intros ((?&?&?)&?&?&?&?) ((?&?&?)&?&?&?&?). split_and!; congruence. Qed.

(** Nothing changed but what the invariant does not speak of; the tip
    configuration is the same. *)
Definition aside (st st' : S) : Prop :=
  same_pools (sch st) (sch st') ∧ tip_config (sch st') = tip_config (sch st) ∧
  w_transaction (wld st') = w_transaction (wld st).

Lemma aside_refl st : aside st st.
Proof. done. Qed.

Lemma aside_trans st1 st2 st3 : aside st1 st2 → aside st2 st3 → aside st1 st3.
Proof. intros (Hp & Ht & Hw) (Hp' & Ht' & Hw'). split; [by eapply same_pools_trans|]. split; congruence. Qed.

Lemma aside_inv O st st' : aside st st' → AInv O st → AInv O st'.
Proof. intros (Hp & _ & Hw) HI. by eapply pools_inv. Qed.

Lemma quiet_aside (st st' : S) : quiet st st' → aside st st'.
Proof. intros Hq. split; [by apply quiet_pools|]. destruct Hq as [[stats ->] ->]. done. Qed.

Lemma wp_emit_aside e ev (Q : unit → S → Prop) (st : S) :
  (∀ st', quiet st st' → Q tt st') → wp benign (emit e ev) Q st.
Proof.
  intros HQ. unfold emit. wp_steps. apply HQ. split; [by exists (slot_stats (sch st)); destruct (sch st)|]. simpl.
  by rewrite events_transaction, utc_now_transaction.
Qed.

Lemma wp_auction_roll_events p (Q : unit → S → Prop) (st : S) :
  (∀ st', aside st st' → Q tt st') →
  wp benign (
    match events (sch st) with
    | None => mret tt
    | Some em =>
        let* sl := self slot in
        when (negb (sl =? 0)) (
          let* stats := self slot_stats in
          update (λ s, s <| slot_stats := SlotStatsEvent_default |>) ;;
          emit em (SlotStats stats)) ;;
        let em' := em <| ctx ::= EventContext_set (current_slot p) |> in
        update (λ s, s <| events := Some em' |>) ;;
        emit em' SlotStart
    end) Q st.
Proof.
  intros HQ. destruct (events (sch st)) as [em|]; [|by wp_steps; apply HQ].
  wp_steps. apply (wp_mono _ _ (λ _ st1, aside st st1)).
  { apply wp_when; intros _; [|done]. wp_steps. apply wp_emit_aside. intros st' Hq.
    eapply aside_trans, quiet_aside, Hq. done. }
  intros [] st1 H1'. cbv zeta. wp_steps. apply wp_emit_aside. intros st2 Hq. apply HQ.
  eapply aside_trans; [exact H1'|]. eapply aside_trans, quiet_aside, Hq. done.
Qed.

Lemma auction_roll_slot_ok O p (Q : unit → S → Prop) (st : S) :
  AInv O st →
  (∀ st', AInv O st' → tip_config (sch st') = tip_config (sch st) → slot (sch st') = current_slot p → Q tt st') →
  wp benign (roll_slot p) Q st.
Proof.
  intros HI HQ. unfold roll_slot. do 3 wp_step. apply wp_auction_roll_events. intros st1 Ha. wp_steps.
  set (st2 := mk _ _). assert (aside st st2) as Ha2 by (eapply aside_trans; [exact Ha|done]).
  apply (wp_drain_deferred_inv _ O); [by eapply aside_inv|]. intros st3 HI3 Ht Hs.
  unfold start_recheck. wp_steps. apply HQ.
  - by eapply pools_inv.
  - simpl. rewrite Ht. apply Ha2.
  - simpl. by rewrite Hs.
Qed.

(** ** The tip receiver *)

Definition tip_meta (k : TransactionKey) : PriorityId := {| priority := BUNDLE_MARKER; cost := 0; key := k |}.

(** The two tip transactions, of which the second holds its locks or not. *)
Definition tip_entries (k1 k2 : TransactionKey) (b : bool) : Outstanding := [(true, tip_meta k1); (b, tip_meta k2)].

Lemma locked_tips k1 k2 b k : locked (tip_entries k1 k2 b) k ↔ k = k1 ∨ (b = true ∧ k = k2).
Proof.
  unfold locked, tip_entries. setoid_rewrite elem_of_cons. setoid_rewrite list_elem_of_singleton. split.
  - intros (m & [[= ->]|[= <- ->]] & <-); [by left|by right].
  - intros [->|[-> ->]]; [exists (tip_meta k1)|exists (tip_meta k2)]; auto.
Qed.

(** Transactions that were inserted and declared. *)
Lemma AInv_tip O k1 k2 b s s' w w' :
  AInv O (mk s w) → inserted O s w [k1; k2] → w_transaction w' = w_transaction w →
  unchecked_tx s' = unchecked_tx s → checked_tx s' = checked_tx s →
  deferred_tx s' = deferred_tx s → bundles s' = bundles s → in_flight_cus s' = in_flight_cus s →
  executing_tx s' = list_to_set [k1; k2] ∪ executing_tx s →
  exclusive (table (mk s' w')) →
  (∀ a k x, holder (table (mk s' w')) a k x ↔
     ((k = k1 ∨ (b = true ∧ k = k2)) ∧ (a, x) ∈ tx_locks w k) ∨ holder (table (mk s w)) a k x) →
  AInv (tip_entries k1 k2 b ++ O) (mk s' w').
Proof.
  intros HI (Hnd & Hl & Hlock) Hw Hu Hc Hd Hb Hcus He Hx Hh.
  assert (∀ O, held_keys O s' = held_keys O s) as Hheld by (intros; unfold held_keys, locking_keys; by rewrite Hu, Hc, Hd, Hb).
  assert (∀ s, held_keys (tip_entries k1 k2 b ++ O) s ≡ₚ [k1; k2] ++ held_keys O s) as Hnew.
  { intros s0. unfold held_keys, locking_keys. cbn. solve_Permutation. }
  apply (AInv_begin O (tip_entries k1 k2 b) s w); rewrite ?Hc, ?Hd, ?Hb; try apply HI; try done.
  - rewrite Hcus. apply HI.
  - repeat constructor; simpl; unfold U64_MAX; lia.
  - by rewrite Hnew, Hheld.
  - intros k. rewrite Hnew, Hheld. intros [Hk|Hk]%elem_of_app; unfold live; rewrite Hw;
      [by apply Hl|by apply (ainv_live _ _ HI)].
  - intros k Hk. unfold lockable. rewrite (tx_locks_transaction w) by by rewrite Hw.
    destruct (decide (k ∈ [k1; k2])) as [|Hks]; [by apply Hlock|]. apply (ainv_lockable _ _ HI).
    revert Hk. rewrite !auction_elem_of_locking, Hc, Hd, Hb. simpl. rewrite !elem_of_cons in *. naive_solver.
  - intros k _. by rewrite Hw.
  - intros m [[= _]|[[= _ ->]|[]%elem_of_nil]%elem_of_cons]%elem_of_cons; done.
  - intros a k x. rewrite Hh, locked_tips. by rewrite (tx_locks_transaction w w') by by rewrite Hw.
Qed.

(** Inserting one of the scheduler's own transactions. *)
Definition own_packet (packet : u8s) : Prop :=
  ∃ ixs payer keypair hash, packet = sign_and_serialize ixs payer keypair hash.

Lemma auction_own_packet_lockable packet : own_packet packet → lockable_packet packet.
Proof.
  intros (ixs & payer & keypair & hash & ->) w k w' Hi.
  destruct (insert_transaction_fresh _ _ _ _ Hi) as (_ & (tx & Htx & _) & _).
  unfold lockable, tx_locks. rewrite Htx. by eapply insert_own_transaction.
Qed.

Lemma wp_auction_insert_own O ks packet site (f : TransactionKey → M S unit) Q s w :
  AInv O (mk s w) → inserted O s w ks → own_packet packet → slot_panic (PUnwrap site) →
  (∀ k w', AInv O (mk s w') → inserted O s w' (ks ++ [k]) → wp slot_panic (f k) Q (mk s w')) →
  wp slot_panic (let* o := insert_transaction packet in let* k := unwrap site o in f k) Q (mk s w).
Proof.
  intros HI Hins Hown Hsite Hf. unfold insert_transaction. wp_steps. simpl.
  destruct (w_insert_transaction packet w) as [[k|] w'] eqn:Hi; simpl; [|done].
  destruct (AInv_insert O s w w' packet k HI Hi) as (HI' & _).
  wp_steps. apply Hf; [done|]. apply (auction_inserted_snoc O s w w' ks packet k HI Hins Hi).
  by apply auction_own_packet_lockable.
Qed.

Lemma holds_nothing_held O (st : S) k : AInv O st → k ∉ held_keys O (sch st) → holds_nothing (table st) k.
Proof. intros HI Hk a w [Hlk _]%(ainv_locks _ _ HI). by apply Hk, okeys_held, locked_okeys. Qed.

(** [lock]: the answer of [acquire_locks] is ignored. *)
Lemma wp_lock E k (Q : unit → S → Prop) st :
  live (wld st) k → exclusive (table st) →
  (∀ b st', only_engine st st' → exclusive (table st') →
     table st' = (if b : bool then grant k (tx_locks (wld st) k) (table st) else table st) →
     (free (table st) (tx_locks (wld st) k) → b = true) → Q tt st') →
  wp E (lock k) Q st.
Proof.
  intros Hl Hx HQ. unfold lock. wp_step. apply wp_locks; [done|]. wp_step. apply wp_acquire; [done| |].
  - intros _ st' Ho Ht Hx'. wp_step. by apply (HQ true).
  - intros Hn. wp_step. by apply (HQ false).
Qed.

(** From the locks on. *)
Lemma wp_auction_tip_send O k1 k2 (Q : unit → S → Prop) s w :
  AInv O (mk s w) → inserted O s w [k1; k2] → free (table (mk s w)) (tx_locks w k1) →
  (∀ b st', AInv (tip_entries k1 k2 b ++ O) st' → slot (sch st') = slot s → Q tt st') →
  wp slot_panic (
    lock k1 ;;
    lock k2 ;;
    let* new := insert_executing k1 in
    assert "become_tip_receiver: executing init" new ;;
    let* new := insert_executing k2 in
    assert "become_tip_receiver: executing change" new ;;
    let* max_slot := of_res (u64_add "become_tip_receiver: slot + 4" (slot s) 4) in
    schedule (tip_batch k1 max_slot) ;;
    schedule (tip_batch k2 max_slot)) Q (mk s w).
Proof.
  intros HI Hins Hfree HQ. pose proof (auction_inserted_not_held _ _ _ _ Hins) as Hnh.
  pose proof Hins as (Hnd & Hl & Hlock).
  assert (k1 ≠ k2) as Hne by (intros ->; simpl in Hnd; apply NoDup_cons in Hnd as [Hn _]; set_solver).
  assert (∀ k, k ∈ [k1; k2] → holds_nothing (table (mk s w)) k) as Hnone.
  { intros k Hk. apply (holds_nothing_held O); [done|]. by apply Hnh. }
  assert (∀ k, k ∈ [k1; k2] → k ∉ executing_tx s) as Hex.
  { intros k Hk Hin. apply (Hnh k Hk), okeys_held. by apply (executing_okeys O (mk s w)). }
  wp_step. apply wp_lock; [apply Hl; by left|apply (ainv_exclusive _ _ HI)|].
  intros b1 st1 [e1 ->] Hx1 Ht1 Hb1. rewrite (Hb1 Hfree) in Ht1. simpl in Ht1. wp_step.
  apply wp_lock; [apply Hl; right; by left|done|]. intros b st2 [e2 ->] Hx2 Ht2 _. simpl in Ht2.
  unfold insert_executing. wp_steps. simpl.
  rewrite bool_decide_eq_true_2 by (apply Hex; by left).
  apply wp_assert; [done|intros _]. wp_steps. simpl.
  rewrite bool_decide_eq_true_2 by (specialize (Hex k2 ltac:(right; by left)); set_solver).
  apply wp_assert; [done|intros _]. wp_step.
  apply wp_of_res_cases; [intros max_slot _ | | apply checked_result_no_hang]; last first.
  { intros p ->%checked_result_panic. right. set_solver. }
  wp_step. apply wp_schedule; [left; unfold benign; set_solver|]. simpl. intros w1 Hw1.
  apply wp_schedule; [left; unfold benign; set_solver|]. simpl. intros w2 Hw2.
  apply schedule_transaction in Hw1, Hw2. apply (HQ b); [|done].
  assert (∀ a k x, holder (locks_of e2) a k x ↔
     ((k = k1 ∨ (b = true ∧ k = k2)) ∧ (a, x) ∈ tx_locks w k) ∨ holder (table (mk s w)) a k x) as Hh.
  { intros a k x. assert (holds_nothing (table (mk s w)) k1) as Hn1 by (apply Hnone; by left).
    assert (holds_nothing (grant k1 (tx_locks w k1) (table (mk s w))) k2) as Hn2.
    { apply holds_nothing_grant; [done|]. apply Hnone. right; by left. }
    assert (locks_of e1 = grant k1 (tx_locks w k1) (table (mk s w))) as He1 by exact Ht1.
    assert (locks_of e2 = if b then grant k2 (tx_locks w k2) (locks_of e1) else locks_of e1) as -> by exact Ht2.
    pose proof (Hlock k1 ltac:(by left)) as Hlk1. pose proof (Hlock k2 ltac:(right; by left)) as Hlk2.
    rewrite He1. destruct b; rewrite !holder_grant by done; naive_solver. }
  apply (AInv_tip O k1 k2 b s _ w); try done.
  - by rewrite Hw2, Hw1.
  - simpl. set_solver.
Qed.

Lemma auction_become_tip_receiver_ok O (Q : unit → S → Prop) (st : S) :
  AInv O st → tip_config (sch st) ≠ None →
  (∀ w', AInv O (mk (sch st) w') → Q tt (mk (sch st) w')) →
  (∀ k1 k2 b st', AInv (tip_entries k1 k2 b ++ O) st' → slot (sch st') = slot (sch st) → Q tt st') →
  wp slot_panic become_tip_receiver Q st.
Proof.
  intros HI Htip HQ0 HQ2. destruct st as [s w]. simpl in *. unfold become_tip_receiver. wp_steps. simpl.
  destruct (init_tip_distribution _ _ _ _) as [tip_key init_packet] eqn:Hinit.
  apply (wp_auction_insert_own O []); [done| | |right; set_solver|].
  { split; [apply HI|]. split; intros k Hk; by apply elem_of_nil in Hk. }
  { unfold init_tip_distribution in Hinit. repeat case_match; injection Hinit as <- <-; by eexists _, _, _, _. }
  intros k1 w1 HI1 Hins1. wp_step. apply wp_unwrap; [done|]. intros tip _. cbv zeta.
  apply (wp_auction_insert_own O ([] ++ [k1])); [done|done|by eexists _, _, _, _|right; set_solver|].
  intros k2 w2 HI2 Hins2. simpl in Hins2. wp_step.
  pose proof (auction_inserted_not_held _ _ _ _ Hins2) as Hnh.
  apply wp_can_lock; [apply Hins2; by left|apply (ainv_exclusive _ _ HI2)|].
  intros [] Hb; cbn [negb].
  - apply (wp_auction_tip_send O); [done|done|by apply Hb|]. intros b st'. by apply HQ2.
  - unfold drop_transaction. wp_steps. simpl. apply HQ0.
    apply AInv_drop; [apply AInv_drop|]; [done|apply Hnh; by left|apply Hnh; right; by left].
Qed.

(** ** The check at the start of a poll *)

Definition stale (st : S) : Prop :=
  (w_drain_progress (wld st)).1 = None ∧
  progress_timeout (runtime (sch st)) ≤
    Z.max 0 ((w_instant_now (w_drain_progress (wld st)).2).1 - last_progress_time (sch st)).

Lemma wp_auction_progress_check {A} (rest : M S A) Q (st : S) :
  ¬ stale st →
  (∀ st', same_pools (sch st) (sch st') → tip_config (sch st') = tip_config (sch st) →
     slot (sch st') = slot (sch st) → w_transaction (wld st') = w_transaction (wld st) →
     w_progress (wld st') = w_progress (w_drain_progress (wld st)).2 → wp slot_panic rest Q st') →
  wp slot_panic (
    let* o := call w_drain_progress in
    match o with
    | Some _ =>
        let* now := call w_instant_now in
        update (λ s, s <| last_progress_time := now |>)
    | None =>
        let* now := call w_instant_now in
        let* s := self id in
        assert "Agave disconnected"
          (Z.max 0 (now - last_progress_time s) <? progress_timeout (runtime s))
    end ;;
    rest) Q st.
Proof.
  intros Hst HQ. wp_step. wp_step. wp_step. cbn [sch wld].
  set (w1 := (w_drain_progress (wld st)).2).
  assert (w_transaction (w_instant_now w1).2 = w_transaction (wld st)) as Hw.
  { rewrite instant_now_transaction. apply drain_progress_transaction. }
  destruct ((w_drain_progress (wld st)).1) as [p|] eqn:E; wp_steps; cbn [sch wld].
  - apply HQ; [done|done|done|exact Hw|apply instant_now_progress].
  - apply wp_assert; [intros Hlt%Z.ltb_ge; by destruct Hst|intros _].
    apply HQ; [done|done|done|exact Hw|apply instant_now_progress].
Qed.

(** Entries of tip transactions. *)
Definition tips (new : Outstanding) : Prop := Forall (λ bm, bm.2 = tip_meta (key bm.2)) new.

Lemma wp_auction_maybe_leader O (b : bool) (Q : unit → S → Prop) (st : S) :
  AInv O st → tip_config (sch st) ≠ None →
  (∀ new st', tips new → AInv (new ++ O) st' → slot (sch st') = slot (sch st) → Q tt st') →
  wp slot_panic (when b (
    emit_event LeaderReady ;;
    update (λ s, s <| slot_stats ::= λ st, st <| was_leader_ready := true |> |>) ;;
    become_tip_receiver)) Q st.
Proof.
  intros HI Htip HQ. assert (tips []) by constructor.
  apply wp_when; intros _; [|by apply (HQ [])]. wp_step. apply wp_slot.
  apply (wp_mono _ _ (λ _ st1, quiet st st1)).
  { unfold emit_event. wp_steps. destruct (events (sch st)) as [em|]; [by apply wp_emit_aside|by wp_steps]. }
  intros [] st1 Hq. do 2 wp_step. set (st2 := mk _ _).
  assert (quiet st st2) as [Hs Hw] by (etransitivity; [exact Hq|]; split; [by eexists|done]).
  destruct Hs as [stats Hs]. apply (auction_become_tip_receiver_ok O); [|by rewrite Hs| |].
  - apply (auction_quiet_inv _ st); [|done]. split; [by exists stats|done].
  - intros w' HI'. apply (HQ []); [done..|]. simpl. change (slot (sch st2) = slot (sch st)). by rewrite Hs.
  - intros k1 k2 b' st' HI'. rewrite Hs. apply (HQ (tip_entries k1 k2 b')); [|done]. by repeat constructor.
Qed.

Lemma auction_check_slot_roll_ok O (st : S) :
  AInv O st → ¬ stale st → tip_config (sch st) ≠ None →
  wp slot_panic check_slot_roll (λ _ st',
    (∃ new, tips new ∧ AInv (new ++ O) st') ∧
    slot (sch st') = current_slot (w_progress (w_drain_progress (wld st)).2)) st.
Proof.
  intros HI Hst Htip. unfold check_slot_roll. apply wp_auction_progress_check; [done|].
  intros st1 Hp1 Ht1 Hs1 Hw1 Hpr1. wp_steps.
  assert (AInv O st1) as HI1 by by eapply pools_inv. rewrite <- Hpr1, <- Ht1 in *.
  apply (wp_mono _ _ (λ _ st2, AInv O st2 ∧ tip_config (sch st2) = tip_config (sch st1) ∧
    slot (sch st2) = current_slot (w_progress (wld st1)))).
  { apply wp_when; intros Heq.
    - apply wp_slot. apply (auction_roll_slot_ok O); [done|]. intros st2 HI2 Ht2 Hs2. done.
    - apply negb_false_iff, Z.eqb_eq in Heq. done. }
  intros [] st2 (HI2 & Ht2 & Hs2). apply (wp_auction_maybe_leader O); [done|by rewrite Ht2|].
  intros new st3 Hnew HI3 Hs3. split; [by exists new|]. by rewrite Hs3.
Qed.
End Slot.
