(* ===== verification/AuctionChecks.v ===== *)
(** * The auction scheduler requests checks

    [schedule_checks] takes the unchecked transactions, best first, then walks
    the checked ones downwards.  The walk never ends once the transaction it
    starts from is gone ([AuctionScoring.schedule_checks_spins]); these proofs
    show that this is the only way not to end, and that the scheduler's
    invariant holds whenever [schedule_checks] returns. *)

From S2P Require Import Prelude F64 BTreeSet Types Events Externals TipProgram Costs Common Outstanding.
From S2P Require Import AuctionLocks AuctionEngine AuctionState AuctionScheduler AuctionScoring.
From S2P Require Import AuctionHandlers AuctionExecute AuctionInvariant AuctionReturns AuctionSlot.

Section Checks.
Context `{Profile} `{AgaveBindings} `{World W} `{!WorldLaws} `{LibM} `{HashMapOrder}
  {Heap DSet : Type} `{MinMaxHeap Heap PriorityId} `{!MinMaxHeapLaws Heap PriorityId}
  `{IndexSet DSet PriorityId} `{!IndexSetLaws DSet PriorityId}.
Abbreviation Sched := (AuctionBatchScheduler Heap DSet).
Abbreviation S := (St Sched W).
Implicit Types (b : bool).

(** ** What is left to check *)

Definition recheck_left (s : Sched) : nat :=
  match next_recheck s with
  | None => 0
  | Some c => Datatypes.S (below_count c (checked_tx s))
  end.

Definition checks_left (s : Sched) : nat := heap_len (unchecked_tx s) + recheck_left s.

(** The walk, if it is under way, stands at a checked transaction. *)
Definition recheck_ready (s : Sched) : Prop := ∀ c, next_recheck s = Some c → c ∈ checked_tx s.

(** What is checked does not execute, so only a transaction that left the
    checked ones stops the walk. *)
Lemma recheck_gone_not_ready O (st : S) : AInv O st → recheck_gone (sch st) ↔ ¬ recheck_ready (sch st).
Proof.
  intros HI. unfold recheck_gone, recheck_ready. split.
  - intros (c & Hc & Hg) Hr. specialize (Hr c Hc). apply andb_false_iff in Hg as [Hn|Hx].
    + apply btree_contains_false in Hn. done.
    + apply bool_decide_eq_false in Hx. apply Hx. rewrite (executing_okeys O) by done. intros Hin.
      pose proof (ainv_keys _ _ HI) as Hnd. unfold held_keys, locking_keys in Hnd.
      apply NoDup_app in Hnd as (_ & _ & Hnd). apply NoDup_app in Hnd as (_ & Hd & _).
      apply (Hd (key c)); [by apply list_elem_of_fmap_2|]. rewrite !elem_of_app. auto.
  - intros Hn. destruct (next_recheck (sch st)) as [c|]; [|by destruct Hn].
    exists c. split; [done|]. apply andb_false_iff. left. apply btree_contains_false.
    intros Hin. by destruct Hn as []; intros ? [= <-].
Qed.

Lemma recheck_ready_not_gone (s : Sched) : ¬ recheck_gone s → recheck_ready s.
Proof.
  intros Hg c Hc. destruct (decide (c ∈ checked_tx s)); [done|].
  destruct Hg. exists c. split; [done|]. apply andb_false_iff. left. by apply btree_contains_false.
Qed.

Lemma auction_recheck_left_below c (s : Sched) :
  (recheck_left (s <| next_recheck := btree_below c (checked_tx s) |>) ≤ below_count c (checked_tx s))%nat.
Proof.
  unfold recheck_left. simpl. destruct (btree_below c (checked_tx s)) eqn:E; [|lia].
  apply btree_below_count in E. lia.
Qed.

(** ** One transaction to check *)

Definition recheckable (s : Sched) (kt : KeyedTransactionMeta) : Prop :=
  km_key kt = key (km_meta kt) ∧ km_meta kt ∈ checked_tx s ∧ km_key kt ∉ executing_tx s.

Lemma auction_recheck_next E b fuel Q (st : S) :
  (b = true → ¬ recheck_gone (sch st) ∧ (0 < fuel)%nat) →
  (∀ o r, let s' := (sch st) <| next_recheck := r |> in
     recheck_ready s' →
     match o with
     | None => r = None
     | Some kt => recheckable (sch st) kt ∧ (recheck_left s' < recheck_left (sch st))%nat
     end → Q o (mk s' (wld st))) →
  wpb b E (recheck_next fuel) Q st.
Proof.
  intros Hb HQ. destruct fuel as [|fuel].
  { destruct b; [destruct (Hb eq_refl); lia|by intros a s']. }
  destruct (next_recheck (sch st)) as [c|] eqn:Hc; last first.
  { apply wpb_wp. simpl. wp_steps. rewrite Hc. wp_step. specialize (HQ None None).
    destruct st as [[] w]. simpl in *. subst. by apply HQ. }
  destruct (btree_contains c (checked_tx (sch st)) && bool_decide (key c ∉ executing_tx (sch st))) eqn:Hg; last first.
  { assert (recheck_gone (sch st)) as Hgone by by exists c. destruct b; [by destruct (Hb eq_refl)|].
    intros a s'. by rewrite recheck_next_spins. }
  apply wpb_wp. simpl. wp_step. wp_step. rewrite Hc. wp_step. wp_step. cbn [sch wld].
  rewrite Hg. wp_step.
  apply andb_true_iff in Hg as [Hin%btree_contains_spec Hex%bool_decide_eq_true].
  apply (HQ (Some _) (btree_below c (checked_tx (sch st)))).
  - intros c'. simpl. intros [? _]%btree_below_Some. done.
  - split; [by split_and!|]. pose proof (auction_recheck_left_below c (sch st)). unfold recheck_left at 2. rewrite Hc.
    simpl in *. lia.
Qed.

(** The best unchecked transaction. *)
Definition best_unchecked (s : Sched) (kt : KeyedTransactionMeta) : Prop :=
  km_key kt = key (km_meta kt) ∧ km_meta kt ∈ heap_elements (unchecked_tx s) ∧
  ∀ y, y ∈ heap_elements (unchecked_tx s) → rle y (km_meta kt).

Definition exhausted (s : Sched) : Prop :=
  heap_elements (unchecked_tx s) = [] ∧ next_recheck s = None.

Definition taken (s : Sched) (h : Heap) (r : option PriorityId) : Sched :=
  s <| unchecked_tx := h |> <| next_recheck := r |>.

(** The walk may be resumed where it stands. *)
Definition resumable b (s : Sched) : Prop := b = true → recheck_ready s.

Lemma auction_pop_next E O b fuel Q (st : S) :
  AInv O st → resumable b (sch st) → (b = true → (0 < fuel)%nat) →
  (∀ o h r, let s' := taken (sch st) h r in
     AInv O (mk s' (wld st)) → resumable b s' →
     match o with
     | None => exhausted s'
     | Some kt =>
         (best_unchecked (sch st) kt ∨
          (heap_elements (unchecked_tx (sch st)) = [] ∧ recheckable (sch st) kt)) ∧
         (heap_len h ≤ heap_len (unchecked_tx (sch st)))%nat ∧
         (checks_left s' < checks_left (sch st))%nat
     end → Q o (mk s' (wld st))) →
  wpb b E (pop_next fuel) Q st.
Proof.
  intros HI Hr Hfuel HQ. unfold pop_next. apply wpb_bind, wpb_wp. wp_step.
  destruct (heap_pop_max (unchecked_tx (sch st))) as [[m h]|] eqn:Hpop.
  - pose proof (heap_pop_max_Some _ _ _ Hpop) as [Hp Hmax].
    destruct (auction_pop_unchecked_inv O m h st HI Hp) as (HI' & _). apply wpb_wp. wp_steps.
    specialize (HQ (Some {| km_key := key m; km_meta := m |}) h (next_recheck (sch st))).
    destruct st as [[] w]. apply HQ; [exact HI'|exact Hr|]. simpl in *. split.
    + left. split_and!; [done|rewrite Hp; by left|]. intros y. simpl. rewrite Hp.
      intros [->|Hy]%elem_of_cons; [|by apply Hmax]. apply rle_lt_eq. by right.
    + unfold checks_left, recheck_left. simpl. rewrite !heap_len_elements, Hp. simpl. lia.
  - apply heap_pop_max_None in Hpop. apply auction_recheck_next.
    { intros Hb. split; [|by apply Hfuel]. rewrite (recheck_gone_not_ready O) by done. by intros []; apply Hr. }
    intros o r s' Hr' Ho. specialize (HQ o (unchecked_tx (sch st)) r).
    assert (s' = taken (sch st) (unchecked_tx (sch st)) r) as Hs' by (unfold s', taken; by destruct (sch st)).
    rewrite Hs' in *. apply HQ; [by eapply pools_inv|by intros _|].
    destruct o as [kt|]; [|by subst]. destruct Ho as [Hkt Hlt]. split; [by right|].
    split; [done|]. unfold checks_left. simpl in *. lia.
Qed.

(** ** One batch *)

Definition extended (s : Sched) (h : Heap) (r : option PriorityId)
    (new : list KeyedTransactionMeta) : Sched :=
  (taken s h r) <| schedule_batch ::= λ l, l ++ new |>.

Lemma auction_extended_nil s : extended s (unchecked_tx s) (next_recheck s) [] = s.
Proof. unfold extended, taken. destruct s. simpl. by rewrite app_nil_r. Qed.

Lemma auction_extended_extended s h1 r1 new1 h2 r2 new2 :
  extended (extended s h1 r1 new1) h2 r2 new2 = extended s h2 r2 (new1 ++ new2).
Proof. unfold extended, taken. simpl. by rewrite (assoc_L (++)). Qed.

Lemma auction_extend_batch E O b fuel n Q (st : S) :
  AInv O st → resumable b (sch st) → (b = true → (0 < fuel)%nat) →
  (∀ h r new, let s' := extended (sch st) h r new in
     AInv O (mk s' (wld st)) → resumable b s' → (length new ≤ n)%nat →
     (heap_len h ≤ heap_len (unchecked_tx (sch st)))%nat →
     (checks_left s' + length new ≤ checks_left (sch st))%nat →
     ((length new < n)%nat → exhausted s') → Q tt (mk s' (wld st))) →
  wpb b E (extend_batch fuel n) Q st.
Proof.
  revert st. induction n as [|n IH]; intros [s w] HI Hr Hfuel HQ; simpl in *.
  { apply wpb_wp. wp_steps. specialize (HQ (unchecked_tx s) (next_recheck s) []).
    rewrite auction_extended_nil in HQ. apply HQ; simpl; done || lia. }
  apply wpb_bind, (auction_pop_next _ O); [done..|]. intros o h r s1 HI1 Hr1 Ho. destruct o as [kt|]; last first.
  { apply wpb_wp. wp_steps. specialize (HQ h r []).
    assert (extended s h r [] = s1) as Heq.
    { unfold extended, s1. simpl. unfold taken. simpl. by rewrite app_nil_r. }
    rewrite Heq in HQ. destruct Ho as [Hh Hn].
    change (heap_elements h = []) in Hh. change (r = None) in Hn.
    apply HQ; simpl; [done|done|lia|rewrite heap_len_elements, Hh; simpl; lia| |done].
    unfold checks_left at 1, recheck_left at 1.
    change (next_recheck s1) with r. change (unchecked_tx s1) with h.
    rewrite Hn, heap_len_elements, Hh. simpl. lia. }
  apply wpb_bind, wpb_wp. wp_steps. destruct Ho as (_ & Hlen1 & Hlt). set (s2 := extended s h r [kt]).
  assert (AInv O (mk s2 w)) as HI2 by by eapply (pools_inv O (mk s1 w)).
  assert (checks_left s2 = checks_left s1) as Heq by done. simpl in Hlt.
  apply (IH (mk s2 w)); [done..|].
  intros h' r' new HI' Hr' Hlen Hsub Hleft Hex. simpl in *. unfold s2 in *.
  rewrite auction_extended_extended in *. apply HQ; simpl; [done|done|lia|lia| |intros; apply Hex; lia].
  change (checks_left (extended s h r [kt])) with (checks_left s1) in Hleft. simpl in Hleft. lia.
Qed.

(** ** The loop *)

(** Why the loop stops. *)
Definition checks_stop (st : S) : Prop :=
  (max_check_batches (runtime (sch st)) ≤ w_worker_len (wld st) CHECK_WORKER)%nat ∨
  w_worker_rem (wld st) CHECK_WORKER = 0%nat ∨ exhausted (sch st).

(** What [schedule_checks] leaves alone, and that it only takes out of the heap. *)
Definition checks_done O b (st st' : S) : Prop :=
  AInv O st' ∧ resumable b (sch st') ∧ checked_tx (sch st') = checked_tx (sch st) ∧
  (heap_len (unchecked_tx (sch st')) ≤ heap_len (unchecked_tx (sch st)))%nat.

Lemma auction_checks_round O b fuel Q (st : S) :
  AInv O st → resumable b (sch st) → (b = true → (0 < fuel)%nat) →
  (∀ c st', checks_done O b st st' →
     match c with
     | Continue => (checks_left (sch st') < checks_left (sch st))%nat
     | Break => checks_stop st'
     end → Q c st') →
  wpb b benign (schedule_checks_round fuel) Q st.
Proof.
  intros HI Hr Hfuel HQ. unfold schedule_checks_round.
  apply wpb_bind, wpb_wp. wp_step. apply wpb_bind, wpb_wp. wp_step. apply wpb_bind, wpb_wp. wp_step.
  destruct ((w_worker_len (wld st) CHECK_WORKER <? max_check_batches (runtime (sch st)))%nat) eqn:Hlen;
    cbn [andb]; last first.
  { apply wpb_wp. wp_steps. apply HQ; [done|]. left. by apply Nat.ltb_ge. }
  destruct ((0 <? w_worker_rem (wld st) CHECK_WORKER)%nat) eqn:Hrem; last first.
  { apply wpb_wp. wp_steps. apply HQ; [done|]. right; left. apply Nat.ltb_ge in Hrem. lia. }
  apply wpb_bind, wpb_wp. wp_steps. set (st1 := mk _ _).
  assert (AInv O st1) as HI1 by by apply (pools_inv O st).
  apply wpb_bind, (auction_extend_batch _ O); [done..|].
  intros h r new s' HI' Hr' Hn Hsub Hleft Hex. apply wpb_wp. wp_steps. cbn [sch wld].
  change (checks_left (sch st1)) with (checks_left (sch st)) in Hleft.
  change (schedule_batch s') with new. destruct new as [|kt new].
  { wp_steps. apply HQ; [done|]. right; right. apply Hex. simpl. lia. }
  wp_step. apply wp_schedule; [unfold benign; set_solver|]. cbn [sch wld]. intros w' Hw'. wp_steps.
  apply HQ; simpl in *; [|lia]. split; [|done].
  eapply (pools_inv O (mk s' _)); [exact HI'|done|]. by apply schedule_transaction in Hw'.
Qed.

Lemma auction_schedule_checks O b fuel (st : S) :
  AInv O st → resumable b (sch st) → (b = true → checks_left (sch st) < fuel)%nat →
  wpb b benign (schedule_checks fuel) (λ _ st', checks_done O b st st' ∧ checks_stop st') st.
Proof.
  intros HI Hr Hfuel. unfold schedule_checks. apply wpb_bind, wpb_wp. wp_step. apply wpb_bind.
  eapply wpb_mono with (Q := λ _ st', checks_done O b st st' ∧ checks_stop st').
  { apply (wpb_loop_fuel b benign _ (λ st', checks_done O b st st') _ (λ st', checks_left (sch st'))); [done|done|].
    intros st1 (HI1 & Hr1 & Hc1 & Hh1). apply (auction_checks_round O); [done..|intros Hb; specialize (Hfuel Hb); lia|].
    intros c st2 (HI2 & Hr2 & Hc2 & Hh2) Hc.
    assert (checks_done O b st st2) by (split_and!; [done|done|by rewrite Hc2|lia]). by destruct c. }
  intros [] st1 [(HI1 & Hr1 & Hc1 & Hh1) Hstop]. apply wpb_wp. wp_steps. unfold increment. wp_step.
  set (st2 := mk _ _). assert (AInv O st2) as HI2.
  { eapply pools_inv; [exact HI1|done|apply metric_increment_transaction]. }
  unfold bump. wp_steps.
  apply wp_of_res_cases; [|intros p ->%checked_result_panic; unfold benign; set_solver|apply checked_result_no_hang].
  intros v _. wp_steps. split.
  - split; [|done]. by apply (pools_inv O st2).
  - unfold checks_stop, st2 in *. cbn [sch wld]. rewrite metric_increment_worker_len, metric_increment_worker_rem. done.
Qed.

(** C25: unless the transaction to recheck has left the checked ones,
    [schedule_checks] ends: with the check worker's queue full, or with nothing
    left to check. With [schedule_checks_spins], that is the only way not to
    end. *)
Theorem auction_schedule_checks_ends O fuel (st : S) :
  AInv O st → ¬ recheck_gone (sch st) → (checks_left (sch st) < fuel)%nat →
  wp benign (schedule_checks fuel) (λ _ st',
    AInv O st' ∧ ¬ recheck_gone (sch st') ∧ checked_tx (sch st') = checked_tx (sch st) ∧
    (heap_len (unchecked_tx (sch st')) ≤ heap_len (unchecked_tx (sch st)))%nat ∧
    ((max_check_batches (runtime (sch st')) ≤ w_worker_len (wld st') CHECK_WORKER)%nat ∨
     w_worker_rem (wld st') CHECK_WORKER = 0%nat ∨ exhausted (sch st'))) st.
Proof.
  intros HI Hg Hfuel. assert (resumable true (sch st)) as Hr by (intros _; by apply recheck_ready_not_gone).
  eapply wp_mono; [exact (auction_schedule_checks O true fuel st HI Hr (λ _, Hfuel))|].
  intros [] st' [(HI' & Hr' & Hc & Hh) Hstop]. split_and!; [done| |done..].
  rewrite (recheck_gone_not_ready O) by done. intros Hn. by apply Hn, Hr'.
Qed.
End Checks.
