(* ===== verification/AuctionRounds.v ===== *)
(** * Rounds of the auction scheduler keep its invariant

    What [schedule_execute_worker] starts, and the steps that only touch the
    engine's prices and queues.  [schedule_checks] may not end
    ([AuctionScoring.schedule_checks_spins]); when it does, the invariant
    holds. *)

From S2P Require Import Prelude F64 BTreeSet Types Events Externals TipProgram Costs Common Outstanding.
From S2P Require Import AuctionLocks AuctionEngine AuctionState AuctionScheduler.
From S2P Require Import AuctionHandlers AuctionExecute AuctionInvariant AuctionReturns.

Section Rounds.
Context `{Profile} `{AgaveBindings} `{World W} `{!WorldLaws} `{LibM} `{HashMapOrder}
  {Heap DSet : Type} `{MinMaxHeap Heap PriorityId} `{!MinMaxHeapLaws Heap PriorityId}
  `{IndexSet DSet PriorityId} `{!IndexSetLaws DSet PriorityId}.
Abbreviation Sched := (AuctionBatchScheduler Heap DSet).
Abbreviation S := (St Sched W).
Abbreviation Outstanding := (list (bool * PriorityId)).

(** ** New executions *)

(** Entries that hold their locks. *)
Definition entries (ms : list PriorityId) : Outstanding := (λ m, (true, m)) <$> ms.

Lemma auction_okeys_entries ms O : okeys (entries ms ++ O) = (key <$> ms) ++ okeys O.
Proof. unfold okeys, entries. by rewrite fmap_app, <- list_fmap_compose. Qed.

Lemma locked_entries ms k : locked (entries ms) k ↔ k ∈ key <$> ms.
Proof.
  unfold locked, entries. rewrite list_elem_of_fmap. setoid_rewrite list_elem_of_fmap. naive_solver.
Qed.

Lemma entries_marked ms m : (false, m) ∉ entries ms.
Proof. intros (m' & [=] & _)%list_elem_of_fmap. Qed.

Lemma AInv_start O ms s w s' w' :
  AInv O (mk s w) → w_transaction w' = w_transaction w →
  checked_tx s' `sublist_of` checked_tx s → bundles s' `sublist_of` bundles s →
  deferred_tx s' = deferred_tx s → unchecked_tx s' = unchecked_tx s →
  locking_keys (entries ms ++ O) s' ≡ₚ locking_keys O s →
  executing_tx s' = list_to_set (key <$> ms) ∪ executing_tx s →
  in_flight_cus s' = sum_costs (entries ms) + in_flight_cus s → is_u64 (in_flight_cus s') →
  Forall (λ m, is_u64 (cost m)) ms →
  exclusive (table (mk s' w')) →
  (∀ a k x, holder (table (mk s' w')) a k x ↔
     (k ∈ key <$> ms ∧ (a, x) ∈ tx_locks w k) ∨ holder (table (mk s w)) a k x) →
  AInv (entries ms ++ O) (mk s' w').
Proof.
  intros HI Hw Hc Hb Hd Hu Hlk He Hcus Hcu Hms Hx Hh.
  assert (held_keys (entries ms ++ O) s' ≡ₚ held_keys O s) as Hheld.
  { unfold held_keys. rewrite Hu. by apply Permutation_app_head. }
  assert (∀ k, tx_locks w' k = tx_locks w k) as Hl by (intros; apply tx_locks_transaction; by rewrite Hw).
  apply (AInv_begin O (entries ms) s w); try done.
  - eapply sorted_sublist, (ainv_sorted _ _ HI). done.
  - eapply sorted_sublist, (ainv_bundles _ _ HI). done.
  - rewrite Hd. eapply Forall_sublist_of, (ainv_waiting_costs _ _ HI). by apply sublist_app.
  - eapply Forall_sublist_of, (ainv_bundle_costs _ _ HI). done.
  - rewrite He. unfold okeys, entries. by rewrite <- list_fmap_compose.
  - unfold entries. by apply Forall_fmap.
  - rewrite Hheld. apply (ainv_keys _ _ HI).
  - intros k. rewrite Hheld. intros Hk. unfold live. rewrite Hw. by apply (ainv_live _ _ HI).
  - intros k. rewrite Hlk. intros Hk. unfold lockable. rewrite Hl. by apply (ainv_lockable _ _ HI).
  - intros k _. by rewrite Hw.
  - intros m Hm. by apply entries_marked in Hm.
  - intros a k x. rewrite Hh, locked_entries. by rewrite Hl.
Qed.

Lemma AInv_ready O budget (st : S) :
  AInv O st → is_u64 budget → in_flight_cus (sch st) + budget ≤ U64_MAX → ready budget st.
Proof.
  intros HI Hb Hsum. split; [apply HI|apply HI| |done|].
  - intros m Hm. split; [by apply (ainv_live _ _ HI), checked_held|].
    pose proof (ainv_waiting_costs _ _ HI) as Hc. apply Forall_app in Hc as [Hc _].
    rewrite Forall_forall in Hc. apply (Hc m Hm).
  - split; [apply (ainv_cus_u64 _ _ HI)|done].
Qed.

(** ** Declaring a batch *)

Definition with_executing (ks : list TransactionKey) (s : Sched) : Sched :=
  s <| executing_tx := list_to_set ks ∪ executing_tx s |>.

Lemma with_executing_nil s : with_executing [] s = s.
Proof. unfold with_executing. destruct s. simpl. by rewrite (union_empty_l_L _). Qed.

Lemma wp_declare batch (Q : unit → S → Prop) (st : S) :
  NoDup (km_key <$> batch) →
  (∀ k, k ∈ km_key <$> batch → (k ∉ executing_tx (sch st)) ∧ live (wld st) k) →
  (∀ st', quiet (mk (with_executing (km_key <$> batch) (sch st)) (wld st)) st' → Q tt st') →
  wp benign (declare_executing batch) Q st.
Proof.
  revert st. induction batch as [|kt batch IH]; intros st Hnd Hk HQ; unfold declare_executing in *; csimpl in *.
  { wp_step. apply HQ. rewrite with_executing_nil. by destruct st. }
  apply NoDup_cons in Hnd as [Hn Hnd]. destruct (Hk (km_key kt) ltac:(by left)) as [Hex Hl].
  wp_step. wp_step. unfold insert_executing. wp_steps. rewrite bool_decide_eq_true_2 by done.
  apply wp_assert; [done|intros _]. apply auction_wp_emit_tx_event; [done|]. intros st1 Hq.
  pose proof Hq as [[stats Hs] Hw]. simpl in Hs, Hw. apply IH; [done| |].
  - intros k Hin. destruct (Hk k ltac:(by right)) as [Hex' Hl']. unfold live. rewrite Hw, Hs. split; [|done].
    simpl. rewrite not_elem_of_union, not_elem_of_singleton. split; [by intros ->|done].
  - intros st2 Hq2. apply HQ. etransitivity; [|exact Hq2]. split; [|exact Hw].
    exists stats. rewrite Hs. unfold with_executing. simpl. by rewrite (assoc_L (∪)), (comm_L (∪) {[km_key kt]}).
Qed.

(** ** One attempt *)

(** The batch that is in [schedule_batch] was sent, its transactions are not
    declared yet; or it is empty and nothing was sent. *)
Record attempted (O : Outstanding) (total : Z) (budget : Z) (st : S) : Prop := {
  at_keys : ∀ kt, kt ∈ schedule_batch (sch st) → km_key kt = key (km_meta kt);
  at_inv : AInv (entries (km_meta <$> schedule_batch (sch st)) ++ O)
    (mk (with_executing (km_key <$> schedule_batch (sch st)) (sch st)) (wld st));
  at_fresh k : k ∈ km_key <$> schedule_batch (sch st) → k ∉ executing_tx (sch st);
  at_budget : is_u64 budget;
  at_total : in_flight_cus (sch st) + budget = total;
}.

Lemma attempted_none O total budget (st : S) :
  AInv O st → schedule_batch (sch st) = [] → is_u64 budget → in_flight_cus (sch st) + budget = total →
  attempted O total budget st.
Proof.
  intros HI Hb Hu Ht. split; rewrite ?Hb; try done.
  - intros kt Hin. by apply elem_of_nil in Hin.
  - csimpl. rewrite with_executing_nil. by destruct st.
  - intros k Hin. by apply elem_of_nil in Hin.
Qed.

Lemma not_executing O (st : S) k : AInv O st → k ∉ okeys O → k ∉ executing_tx (sch st).
Proof. intros HI Hk. by rewrite (executing_okeys O). Qed.

(** What waits is not executing. *)
Lemma locking_disjoint O (st : S) ks :
  AInv O st → (∃ l, locking_keys O (sch st) ≡ₚ ks ++ okeys O ++ l) → ∀ k, k ∈ ks → k ∉ executing_tx (sch st).
Proof.
  intros HI [l Hp] k Hk. apply (not_executing O); [done|]. intros Hin.
  pose proof (ainv_keys _ _ HI) as Hnd. unfold held_keys in Hnd. apply NoDup_app in Hnd as (_ & _ & Hnd).
  rewrite Hp in Hnd. apply NoDup_app in Hnd as (_ & Hd & _). apply (Hd k Hk), elem_of_app. by left.
Qed.

Lemma wp_attempt_transaction O budget worker (Q : bool * Z → S → Prop) (st : S) :
  AInv O st → schedule_batch (sch st) = [] → is_u64 budget → in_flight_cus (sch st) + budget ≤ U64_MAX →
  (∀ b budget' st', attempted O (in_flight_cus (sch st) + budget) budget' st' →
     (b = false → budget' = budget ∧ st' = st) → Q (b, budget') st') →
  wp benign (try_schedule_transaction budget worker) Q st.
Proof.
  intros HI Hb Hu Hsum HQ. apply try_schedule_transaction_ok; [by apply (AInv_ready O)| |].
  2: { intros _. apply HQ; [by apply attempted_none|done]. }
  intros m e w' (Hin & [Hcm Hfree] & _) Hw' He Hx. apply HQ; [|done].
  assert (is_u64 (cost m)) as Hc.
  { pose proof (ainv_waiting_costs _ _ HI) as Hwc. apply Forall_app in Hwc as [Hwc _].
    rewrite Forall_forall in Hwc. by apply Hwc. }
  pose proof (ainv_cus_u64 _ _ HI) as Hcu.
  assert (∃ l, locking_keys O (sch st) ≡ₚ [key m] ++ okeys O ++ l ∧
    locking_keys (entries [m] ++ O) (after_transaction m e (sch st)) ≡ₚ [key m] ++ okeys O ++ l) as (l & Hl1 & Hl2).
  { exists ((key <$> remove_sorted m (checked_tx (sch st))) ++ (key <$> iset_elements (deferred_tx (sch st))) ++
      concat (keys <$> bundles (sch st))).
    unfold locking_keys. rewrite auction_okeys_entries. cbn -[fmap concat]. split; [|solve_Permutation].
    rewrite (remove_sorted_Permutation m _ Hin) at 1. csimpl. solve_Permutation. }
  assert (key m ∉ executing_tx (sch st)) as Hex.
  { apply (locking_disjoint O st [key m]); [done|by exists l|by left]. }
  assert (schedule_batch (after_transaction m e (sch st)) = [{| km_key := key m; km_meta := m |}]) as Hsb.
  { simpl. by rewrite Hb. }
  split; cbn [sch wld]; rewrite ?Hsb; csimpl.
  - by intros kt ->%list_elem_of_singleton.
  - destruct st as [s w]. apply (AInv_start O [m] s w); try done.
    + apply remove_sorted_sublist.
    + simpl in Hl1, Hl2 |- *. by rewrite Hl1, <- Hl2.
    + simpl. lia.
    + simpl in *. unfold is_u64 in *. lia.
    + by apply Forall_singleton.
    + intros a k x. change (table _) with (locks_of e) at 1. rewrite He. simpl.
      rewrite holder_grant; [|apply (ainv_lockable _ _ HI); simpl; rewrite Hl1; by left|].
      * rewrite list_elem_of_singleton. naive_solver.
      * intros a' x' [Hlk _]%(ainv_locks _ _ HI). apply Hex. by apply (executing_okeys O), locked_okeys.
  - by intros k ->%list_elem_of_singleton.
  - unfold is_u64 in *. lia.
  - simpl. lia.
Qed.

(** The entries of a bundle's batch. *)
Lemma bundle_batch_fields b :
  (km_key <$> bundle_batch b = keys b) ∧ (key <$> (km_meta <$> bundle_batch b) = keys b) ∧
  ∀ kt, kt ∈ bundle_batch b → km_key kt = key (km_meta kt).
Proof.
  unfold bundle_batch. split_and!.
  - rewrite fmap_imap. apply list_eq. intros i. rewrite list_lookup_imap. by destruct (keys b !! i).
  - rewrite !fmap_imap. apply list_eq. intros i. rewrite list_lookup_imap. by destruct (keys b !! i).
  - intros kt (i & Hi)%list_elem_of_lookup_1. rewrite list_lookup_imap in Hi.
    destruct (keys b !! i); [|done]. by injection Hi as <-.
Qed.

Lemma bundle_batch_cons b k ks :
  keys b = k :: ks →
  km_meta <$> bundle_batch b = {| priority := BUNDLE_MARKER; cost := b_cost b; key := k |} ::
    ((λ k, {| priority := BUNDLE_MARKER; cost := 0; key := k |}) <$> ks).
Proof.
  intros Hk. unfold bundle_batch. rewrite Hk. csimpl. f_equal.
  rewrite fmap_imap. apply list_eq. intros i. rewrite list_lookup_imap, list_lookup_fmap. done.
Qed.

Lemma bundle_batch_costs b :
  keys b ≠ [] → is_u64 (b_cost b) →
  sum_costs (entries (km_meta <$> bundle_batch b)) = b_cost b ∧
  Forall (λ m, is_u64 (cost m)) (km_meta <$> bundle_batch b).
Proof.
  destruct (keys b) as [|k ks] eqn:Hk; [done|]. intros _ Hc. rewrite (bundle_batch_cons b k ks Hk).
  set (zero := λ k, {| priority := BUNDLE_MARKER; cost := 0; key := k |}). split.
  - assert (sum_costs (entries (zero <$> ks)) = 0) as Hz by (clear; induction ks as [|? ? IH]; [done|exact IH]).
    unfold entries, sum_costs in *. csimpl. rewrite Hz. lia.
  - constructor; [done|]. apply Forall_fmap, Forall_forall. intros x _. unfold is_u64, U64_MAX. simpl. lia.
Qed.

Lemma AInv_fresh_keys O b (st : S) :
  AInv O st → b ∈ bundles (sch st) → fresh_keys (wld st) (table st) (keys b) ∧
  is_u64 (b_cost b) ∧ keys b ≠ [].
Proof.
  intros HI Hb. pose proof (ainv_bundle_costs _ _ HI) as Hc. rewrite Forall_forall in Hc. split; [|by apply Hc].
  pose proof (ainv_keys _ _ HI) as Hnd. unfold held_keys, locking_keys in Hnd.
  do 3 (apply NoDup_app in Hnd as (_ & _ & Hnd)). apply NoDup_app in Hnd as (_ & Hd & Hnd).
  apply elem_of_Permutation in Hb as [l Hl]. split.
  - revert Hnd. rewrite Hl. simpl. by intros [? _]%NoDup_app.
  - intros k Hk. assert (b ∈ bundles (sch st)) as Hin by (rewrite Hl; by left).
    assert (k ∈ locking_keys O (sch st)) as Hlk by (apply auction_elem_of_locking; do 3 right; by exists b).
    split; [by apply (ainv_live _ _ HI), auction_locking_held|]. split; [by apply (ainv_lockable _ _ HI)|].
    intros a x [Hlo _]%(ainv_locks _ _ HI). apply (Hd k); [by apply locked_okeys|].
    apply elem_of_concat. exists (keys b). split; [done|by apply list_elem_of_fmap_2].
Qed.

Lemma wp_attempt_bundle O budget worker (Q : Z → S → Prop) (st : S) :
  AInv O st → schedule_batch (sch st) = [] → bundles (sch st) ≠ [] → is_u64 budget →
  in_flight_cus (sch st) + budget ≤ U64_MAX →
  (∀ budget' st', attempted O (in_flight_cus (sch st) + budget) budget' st' → Q budget' st') →
  wp benign (try_schedule_bundle budget worker) Q st.
Proof.
  intros HI Hsb Hne Hu Hsum HQ.
  destruct (last (bundles (sch st))) as [b|] eqn:Hlast; [|by apply last_None in Hlast].
  pose proof (removelast_last _ _ Hlast) as Hrl.
  assert (b ∈ bundles (sch st)) as Hin by (rewrite Hrl; apply elem_of_app; right; by left).
  destruct (AInv_fresh_keys O b st HI Hin) as (Hf & Hc & Hks).
  apply (try_schedule_bundle_ok _ _ b); [by apply (AInv_ready O)|done|done|apply Hc| |]; last first.
  { intros st' _ [e ->] Ht. destruct st as [s w]. apply HQ, attempted_none; [|done..].
    eapply AInv_pools; [done| |done]. by split_and!. }
  intros e w' (Hle & _ & _) Hw' He Hx. apply HQ. pose proof (ainv_cus_u64 _ _ HI) as Hcu.
  destruct (bundle_batch_fields b) as (Hkeys & Hmkeys & Hkt). destruct (bundle_batch_costs b Hks Hc) as [Hcost Hcosts].
  assert (∃ l, locking_keys O (sch st) ≡ₚ keys b ++ okeys O ++ l ∧
    locking_keys (entries (km_meta <$> bundle_batch b) ++ O) (after_bundle b e (sch st)) ≡ₚ keys b ++ okeys O ++ l)
    as (l & Hl1 & Hl2).
  { exists ((key <$> checked_tx (sch st)) ++ (key <$> iset_elements (deferred_tx (sch st))) ++
      concat (keys <$> removelast (bundles (sch st)))).
    unfold locking_keys. rewrite auction_okeys_entries, Hmkeys. cbn -[fmap concat removelast]. split; [|solve_Permutation].
    rewrite Hrl at 1. rewrite fmap_app, concat_app. csimpl. rewrite app_nil_r. solve_Permutation. }
  assert (schedule_batch (after_bundle b e (sch st)) = bundle_batch b) as Hsb' by (simpl; by rewrite Hsb).
  split; cbn [sch wld]; rewrite ?Hsb', ?Hkeys.
  - exact Hkt.
  - destruct st as [s w]. apply (AInv_start O _ s w); try done.
    + apply removelast_sublist.
    + simpl in Hl1, Hl2 |- *. by rewrite Hl1, <- Hl2.
    + by rewrite Hmkeys.
    + rewrite Hcost. simpl. lia.
    + simpl in *. unfold is_u64 in *. lia.
    + intros a k x. change (table _) with (locks_of e) at 1. rewrite He, Hmkeys. by apply holder_grant_all.
  - apply (locking_disjoint O st (keys b)); [done|by exists l].
  - unfold is_u64 in *. lia.
  - simpl. lia.
Qed.

(** ** One worker *)

(** What the turn of a worker starts. *)
Definition started (worker : nat) (budget : Z) (st st' : S) : list PriorityId :=
  if (budget =? 0) || negb (w_worker_len (wld st) worker =? 0)%nat then []
  else km_meta <$> schedule_batch (sch st').

(** The invariant after a turn, and the CUs it moved out of the budget. *)
Definition turned (O : Outstanding) (total : Z) (ms : list PriorityId) (budget : Z) (st : S) : Prop :=
  AInv (entries ms ++ O) st ∧ is_u64 budget ∧ in_flight_cus (sch st) + budget = total.

(** The end of a turn, after the attempts. *)
Definition declare_batch (budget : Z) : M S (Flow * Z) :=
  let* batch := self schedule_batch in
  match batch with
  | [] => mret (Break, budget)
  | _ :: _ =>
      declare_executing batch ;;
      bump execute_requested (Z.of_nat (length batch)) ;;
      mret (Continue, budget)
  end.

Lemma wp_auction_declare_batch O total budget (Q : Flow * Z → S → Prop) (st : S) :
  attempted O total budget st →
  (∀ c st', turned O total (km_meta <$> schedule_batch (sch st')) budget st' → Q (c, budget) st') →
  wp benign (declare_batch budget) Q st.
Proof.
  intros [Hk HI Hf Hb Ht] HQ. unfold declare_batch. wp_step. wp_step. destruct (schedule_batch (sch st)) as [|kt l] eqn:Hsb.
  { wp_step. apply HQ. rewrite Hsb. csimpl in *. rewrite with_executing_nil in HI. destruct st. done. }
  rewrite <- Hsb in *. assert (okeys (entries (km_meta <$> schedule_batch (sch st)) ++ O) =
    (km_key <$> schedule_batch (sch st)) ++ okeys O) as Hok.
  { rewrite auction_okeys_entries, <- list_fmap_compose. f_equal. apply list_fmap_ext. intros i kt' Hkt.
    symmetry. by eapply Hk, list_elem_of_lookup_2. }
  wp_step. apply wp_declare.
  - pose proof (ainv_keys _ _ HI) as Hnd. unfold held_keys, locking_keys in Hnd. rewrite Hok in Hnd.
    do 3 (apply NoDup_app in Hnd as (_ & _ & Hnd)). by do 2 apply NoDup_app in Hnd as [Hnd _].
  - intros k Hin. split; [by apply Hf|]. apply (ainv_live _ _ HI), okeys_held. rewrite Hok, elem_of_app. by left.
  - intros st1 Hq. wp_step. apply auction_wp_bump. intros st2 Hq2. pose proof (transitivity Hq Hq2) as Hq'.
    wp_step. apply HQ. pose proof Hq' as [[stats Hs] _].
    assert (schedule_batch (sch st2) = schedule_batch (sch st)) as -> by (by rewrite Hs).
    split; [|split; [done|by rewrite Hs]]. by eapply auction_quiet_inv.
Qed.

Lemma auction_worker_ok O worker budget (st : S) :
  AInv O st → is_u64 budget → in_flight_cus (sch st) + budget ≤ U64_MAX →
  wp benign (schedule_execute_worker worker budget) (λ r st',
    turned O (in_flight_cus (sch st) + budget) (started worker budget st st') r.2 st') st.
Proof.
  intros HI Hb Hsum. unfold schedule_execute_worker, started.
  destruct (budget =? 0); [by wp_step|]. wp_step. wp_step.
  destruct (w_worker_len (wld st) worker =? 0)%nat; cbn [negb orb]; [|by wp_step].
  do 4 wp_step. set (st1 := mk ((sch st) <| schedule_batch := [] |>) (wld st)).
  assert (AInv O st1) as HI1 by (destruct st; by eapply AInv_pools).
  change (in_flight_cus (sch st)) with (in_flight_cus (sch st1)) in *.
  set (Q := λ (r : Flow * Z) (st' : S), turned O (in_flight_cus (sch st1) + budget)
    (km_meta <$> schedule_batch (sch st')) r.2 st').
  assert (∀ b st', attempted O (in_flight_cus (sch st1) + budget) b st' → wp benign (declare_batch b) Q st') as Hrest.
  { intros b st' Ha. by eapply wp_auction_declare_batch. }
  set (Qm := λ (a : bool * Z) (st' : S), wp benign (if a.1 then mret (Break, a.2) else declare_batch a.2) Q st').
  assert (wp benign (try_schedule_transaction budget worker) (λ a st',
    (a.1 = false → a.2 = budget ∧ st' = st1) ∧ wp benign (declare_batch a.2) Q st') st1) as Htx.
  { apply (wp_attempt_transaction O); try done. intros b budget' st' Ha Hsame. split; [exact Hsame|by apply Hrest]. }
  assert (bundles (sch st) ≠ [] →
    wp benign (let* b := try_schedule_bundle budget worker in mret (false, b)) Qm st1) as Hbundle.
  { intros Hne. wp_step. by apply (wp_attempt_bundle O). }
  wp_step. apply wp_mono with (Q := Qm); [|by intros [[] b] st' Ha].
  destruct (btree_last (checked_tx (sch st))) as [m|]; csimpl;
    destruct (btree_last (bundles (sch st))) as [b|] eqn:Hl; csimpl.
  all: try (assert (bundles (sch st) ≠ []) as Hne by (intros Hn; unfold btree_last in Hl; by rewrite Hn in Hl)).
  - destruct (rcmp (priority m) (b_priority b)); [|by apply Hbundle|]; (wp_step; eapply wp_mono; [exact Htx|]);
      (intros [[] b'] st' [Hsame Ha]; [by apply wp_ret|]);
      (destruct (Hsame eq_refl) as [Heq ->]; simpl in Heq; subst b'; by apply Hbundle).
  - wp_step. eapply wp_mono; [exact Htx|]. by intros [b' budget'] st' [_ Ha].
  - by apply Hbundle.
  - wp_step. split; [exact HI1|done].
Qed.

(** ** A round *)

Lemma wp_auction_workers O workers budget (st : S) :
  AInv O st → is_u64 budget → in_flight_cus (sch st) + budget ≤ U64_MAX →
  wp benign (for_acc workers budget schedule_execute_worker) (λ budget' st', ∃ ms,
    turned O (in_flight_cus (sch st) + budget) ms budget' st') st.
Proof.
  intros HI Hb Hcus. set (total := in_flight_cus (sch st) + budget) in *.
  apply (wp_for_acc _ _ _ _ (λ _ b st', ∃ ms, turned O total ms b st')); [by exists []|done|].
  intros worker l b s (ms & HIs & Hbs & Hsum).
  eapply wp_mono; [apply (auction_worker_ok (entries ms ++ O)); [done..|lia]|].
  intros [c b'] s' (HI' & Hb' & Hsum'). simpl in *. rewrite Hsum in Hsum'.
  assert (∃ ms', turned O total ms' b' s') as Hnext.
  { exists (started worker b s s' ++ ms). split; [|done]. unfold entries in *. by rewrite fmap_app, <- (assoc_L (++)). }
  by destruct c.
Qed.

(** What starts adds its costs. *)
Lemma entries_cus O ms (st st' : S) :
  AInv O st → AInv (entries ms ++ O) st' → in_flight_cus (sch st) ≤ in_flight_cus (sch st').
Proof.
  intros HI HI'. rewrite (ainv_cus _ _ HI), (ainv_cus _ _ HI').
  pose proof (ainv_costs _ _ HI') as Hc. apply Forall_app in Hc as [Hc _].
  pose proof (sum_costs_nonneg _ Hc) as Hn. assert (sum_costs (entries ms ++ O) = sum_costs (entries ms) + sum_costs O) as ->.
  { generalize (entries ms). intros es. induction es as [|e es IH]; [done|]. simpl in *. lia. }
  lia.
Qed.

Lemma auction_schedule_execute_ok `{!AgaveBindingsLaws} O (st : S) :
  AInv O st →
  leader_state (w_progress (wld st)) = LEADER_READY →
  budget_in_range (w_progress (wld st)) (runtime (sch st)) (in_flight_cus (sch st)) →
  wp benign schedule_execute (λ _ st', ∃ ms,
    AInv (entries ms ++ O) st' ∧
    in_flight_cus (sch st) ≤ in_flight_cus (sch st') ∧
    block_used (w_progress (wld st)) + in_flight_cus (sch st') ≤
      Z.max (block_share (w_progress (wld st)) (runtime (sch st)))
            (block_used (w_progress (wld st)) + in_flight_cus (sch st))) st.
Proof.
  intros HI Hlead Hrange. pose proof (ainv_cus_u64 _ _ HI) as Hiu.
  pose proof (block_share_bounds _ _ _ Hrange) as Hshare. pose proof (block_used_nonneg (w_progress (wld st))).
  unfold schedule_execute. do 3 wp_step. apply wp_debug_assert; [by rewrite Hlead, Z.eqb_refl|]. wp_steps.
  eapply wp_of_res; [apply share_budget_ok; [done|apply Hiu]|]. wp_steps.
  destruct Hrange as (_ & _ & _ & _ & Hmax).
  eapply wp_mono; [apply (wp_auction_workers O); [done|unfold is_u64, saturating_sub in *; lia..]|].
  intros b st' (ms & HI' & Hb & Hsum). wp_steps. exists ms. split; [done|]. split; [by eapply entries_cus|].
  unfold saturating_sub, is_u64 in *. lia.
Qed.

(** C11: a round of [schedule_execute] as leader keeps the invariant: what it
    starts holds its locks, so it is compatible with what is in flight; it never
    brings the CUs that are used or in flight above the share of the block that
    the slot's progress allows (where they were above it already, it starts
    nothing that costs). No assertion fails. *)
Theorem auction_schedule_execute_budget `{!AgaveBindingsLaws} O (st : S) :
  AInv O st →
  leader_state (w_progress (wld st)) = LEADER_READY →
  budget_in_range (w_progress (wld st)) (runtime (sch st)) (in_flight_cus (sch st)) →
  wp benign schedule_execute (λ _ st', ∃ ms,
    AInv (entries ms ++ O) st' ∧
    in_flight_cus (sch st) ≤ in_flight_cus (sch st') ∧
    block_used (w_progress (wld st)) + in_flight_cus (sch st') ≤
      Z.max (block_share (w_progress (wld st)) (runtime (sch st)))
            (block_used (w_progress (wld st)) + in_flight_cus (sch st))) st.
Proof. apply auction_schedule_execute_ok. Qed.
End Rounds.
