(* ===== verification/AuctionReach.v ===== *)
(** * Reachable states of the auction scheduler

    The scheduler as a state machine, as in [BatchReach]: a step is one handler
    run to its end (or something the outside does), on a state and the
    executions that are out.  An entry is marked with whether it holds its
    locks, because the second tip transaction runs without them. *)

From S2P Require Import Prelude F64 BTreeSet Types Events Externals TipProgram Costs Common Outstanding Drains.
From S2P Require Import AuctionLocks AuctionEngine AuctionState AuctionScheduler AuctionScoring.
From S2P Require Import AuctionHandlers AuctionExecute AuctionInvariant AuctionReturns.
From S2P Require Import AuctionIngest AuctionSlot AuctionChecks AuctionRounds.

Section Reach.
Context `{Profile} `{AgaveBindings} `{!AgaveBindingsLaws} `{World W} `{!WorldLaws} `{LibM} `{HashMapOrder}
  {Heap DSet : Type} `{MinMaxHeap Heap PriorityId} `{!MinMaxHeapLaws Heap PriorityId}
  `{IndexSet DSet PriorityId} `{!IndexSetLaws DSet PriorityId}.
Abbreviation Sched := (AuctionBatchScheduler Heap DSet).
Abbreviation S := (St Sched W).
Abbreviation Outstanding := (list (bool * PriorityId)).

(** The tip transactions a slot check sent: the keys that are executing now,
    each with whether it got its locks. *)
Definition tip_started (st st' : S) : Outstanding :=
  (λ k, (holds_locks st' k, tip_meta k)) <$> elements (executing_tx (sch st') ∖ executing_tx (sch st)).

(** What a check response may be about. *)
Record check_ok O m rep (st : S) : Prop := {
  ck_live : live (wld st) (key m);
  ck_cost : is_u64 (cost m);
  ck_wf : well_formed_check rep;
  ck_lockable : check_failed rep = false → lockable (wld st) (key m);
  ck_held : checkable O m (sch st);
  ck_room : checked_tx (sch st) = [] → (pending_len (sch st) < checked_capacity (sch st))%nat;
}.

Inductive auction_step (O : Outstanding) (st : S) : Outstanding → S → Prop :=
(** The outside moves, but leaves the scheduler's transactions in place. *)
| astep_environment w' :
    (∀ k, k ∈ held_keys O (sch st) → w_transaction w' k = w_transaction (wld st) k) →
    auction_step O st O (mk (sch st) w')
| astep_unprocessed O' b m d st' :
    O ≡ₚ (b, m) :: O' → on_unprocessed m st = Ok (d, st') →
    auction_step O st O' (after_decision (key m) d st')
| astep_execute O' b m rep d st' :
    O ≡ₚ (b, m) :: O' → on_execute m rep st = Ok (d, st') →
    auction_step O st O' (after_decision (key m) d st')
| astep_check m rep resolved d st' :
    check_ok O m rep st → on_check m rep resolved st = Ok (d, st') →
    auction_step O st O (after_decision (key m) d st')
| astep_tpu k d st' :
    k ∉ held_keys O (sch st) → live (wld st) k → on_tpu k st = Ok (d, st') →
    auction_step O st O (after_decision k d st')
| astep_evict st' :
    heap_elements (unchecked_tx (sch st)) ≠ [] → evict_unchecked st = Ok (tt, st') →
    auction_step O st O st'
| astep_packet packet st' :
    unchecked_capacity (sch st) ≠ 0%nat → on_packet packet st = Ok (tt, st') →
    auction_step O st O st'
| astep_bundle packets st' :
    packets ≠ [] → Forall lockable_packet packets → bundle_capacity (sch st) ≠ 0%nat →
    on_bundle packets st = Ok (tt, st') →
    auction_step O st O st'
| astep_jito_config c h :
    auction_step O st O (mk ((sch st) <| tip_config := c |> <| recent_blockhash := h |>) (wld st))
| astep_expire st' : drop_expired_bundles st = Ok (tt, st') → auction_step O st O st'
| astep_slot st' :
    ¬ stale st → tip_config (sch st) ≠ None → check_slot_roll st = Ok (tt, st') →
    auction_step O st (tip_started st st' ++ O) st'
| astep_tick st' : process_auction_tick st = Ok (tt, st') → auction_step O st O st'
| astep_checks fuel st' : schedule_checks fuel st = Ok (tt, st') → auction_step O st O st'
| astep_start worker budget r st' :
    is_u64 budget → in_flight_cus (sch st) + budget ≤ U64_MAX →
    schedule_execute_worker worker budget st = Ok (r, st') →
    auction_step O st (entries (started worker budget st st') ++ O) st'
| astep_recheck st' : start_recheck st = Ok (tt, st') → auction_step O st O st'
| astep_set_config u c b cutoff checks expiry timeout :
    auction_step O st O (mk (set_runtime_config u c b cutoff checks expiry timeout (sch st)) (wld st))
| astep_set_prices cu wl rl t sp :
    auction_step O st O (mk (update_base_prices cu wl rl t sp (sch st)) (wld st)).

Inductive auction_reachable : Outstanding → S → Prop :=
| areach_start evs args w s w' :
    new_with_jito evs args w = Ok (s, w') → auction_reachable [] (mk s w')
| areach_step O st O' st' :
    auction_reachable O st → auction_step O st O' st' → auction_reachable O' st'.

(** ** The invariant *)

Lemma auction_new_inv evs args w s w' :
  new_with_jito evs args w = Ok (s, w') → AInv [] (mk s w').
Proof.
  unfold new_with_jito. destruct (w_jito_recv_timeout w) as [[[c| | | |]|] w1]; try done.
  destruct (w_instant_now w1) as [now w2]. intros [= <- <-]. set (s0 := Build_AuctionBatchScheduler _ _ _ _ _ _ _ _ _ _ _ _ _ _ _ _ _ _ _ _ _ _ _ _ _ _ _).
  assert (held_keys [] s0 = []) as Hh.
  { unfold held_keys, locking_keys. simpl. by rewrite heap_elements_empty, iset_elements_empty. }
  assert (∀ k, k ∉ held_keys [] s0) as Hno by (intros k Hk; rewrite Hh in Hk; by apply elem_of_nil in Hk).
  assert (table (mk s0 w2) = ∅) as Ht by done.
  split; cbn [sch wld]; rewrite ?Hh, ?Ht; try done.
  1-2: constructor.
  - constructor.
  - simpl. by rewrite iset_elements_empty.
  - intros k Hk. by apply elem_of_nil in Hk.
  - intros k Hk. by destruct (Hno k); apply auction_locking_held.
  - apply exclusive_empty.
  - intros m Hm. by apply elem_of_nil in Hm.
  - intros a k b. split; [|by intros [(m & Hm%elem_of_nil & _) _]]. by intros (l & Hl & _).
Qed.

Lemma auction_decision_inv O k d (st : S) : decided_inv O k d st → AInv O (after_decision k d st).
Proof. intros [HI Hd]. destruct d; [done|]. destruct st as [s w]. apply AInv_drop; [done|]. by apply Hd. Qed.

(** The handlers whose answer the bridge acts on. *)
Lemma wp_decided E O k (m : M S TxDecision) (st : S) :
  wp E m (decided_inv O k) st → wp E m (λ d st', AInv O (after_decision k d st')) st.
Proof. intros Hm. eapply wp_mono; [exact Hm|]. intros d st'. apply auction_decision_inv. Qed.

Lemma auction_on_check_decided O m rep resolved (st : S) :
  AInv O st → check_ok O m rep st →
  wp benign (on_check m rep resolved) (λ d st', AInv O (after_decision (key m) d st')) st.
Proof. intros HI []. by apply wp_decided, auction_on_check_ok. Qed.

Lemma auction_environment_inv O (st : S) w' :
  AInv O st → (∀ k, k ∈ held_keys O (sch st) → w_transaction w' k = w_transaction (wld st) k) →
  AInv O (mk (sch st) w').
Proof. intros HI Hw. destruct st as [s w]. by eapply AInv_smaller; [done|apply same_pools_smaller|]. Qed.

(** The keys a slot check adds to the executing ones, and the marks read off
    the lock table. *)
Lemma auction_tip_started O new (st st' : S) :
  AInv O st → tips new → AInv (new ++ O) st' → AInv (tip_started st st' ++ O) st'.
Proof.
  intros HI Hnew HI'. pose proof (AInv_retag O new st' HI') as HR. eapply AInv_Permutation, HR.
  apply Permutation_app; [|done]. unfold tip_started.
  assert ((λ bm : bool * PriorityId, (holds_locks st' (key bm.2), bm.2)) <$> new =
    (λ k, (holds_locks st' k, tip_meta k)) <$> okeys new) as ->.
  { unfold okeys. rewrite <- list_fmap_compose. apply list_fmap_ext. intros i bm Hi. simpl. f_equal.
    unfold tips in Hnew. rewrite Forall_forall in Hnew. by eapply Hnew, list_elem_of_lookup_2. }
  apply fmap_Permutation. assert (okeys (new ++ O) = okeys new ++ okeys O) as Hok by apply fmap_app.
  pose proof (ainv_keys _ _ HI') as Hnd. unfold held_keys, locking_keys in Hnd. rewrite Hok in Hnd.
  do 3 (apply NoDup_app in Hnd as (_ & _ & Hnd)). apply NoDup_app in Hnd as (Hnd & _ & _).
  apply NoDup_app in Hnd as (Hks & Hd & _). apply NoDup_Permutation; [done|apply NoDup_elements|].
  intros k. rewrite elem_of_elements, elem_of_difference.
  rewrite (executing_okeys (new ++ O) st'), (executing_okeys O st) by done. rewrite Hok, elem_of_app.
  split; [|tauto]. intros Hk. split; [by left|]. by apply Hd.
Qed.

Lemma process_tick_locks now stats rem ms e : locks_of (AuctionEngine.process_tick now stats rem ms e) = locks_of e.
Proof. done. Qed.

Lemma auction_tick_ok O (Q : unit → S → Prop) E (st : S) :
  AInv O st → (∀ st', AInv O st' → checked_tx (sch st') = checked_tx (sch st) → Q tt st') →
  wp E process_auction_tick Q st.
Proof.
  intros HI HQ. unfold process_auction_tick. wp_steps. destruct (market _ _) as [stats ms]. wp_steps.
  unfold update_engine. wp_steps. apply HQ; [|done].
  apply (pools_inv O st); [done| |apply instant_now_transaction]. split_and!; done.
Qed.

Lemma auction_step_inv O (st : S) O' st' : AInv O st → auction_step O st O' st' → AInv O' st'.
Proof.
  intros HI Hstep.
  destruct Hstep as [w' Hw|O' b m d st' HO Heq|O' b m rep d st' HO Heq
    |m rep resolved d st' Hck Heq|k d st' Hk Hl Heq|st' Hne Heq
    |packet st' Hcap Heq|packets st' Hne Hpks Hcap Heq|c h|st' Heq|st' Hst Htip Heq
    |st' Heq|fuel st' Heq|worker budget r st' Hb Hsum Heq|st' Heq|u c b cutoff checks expiry timeout
    |cu wl rl t sp].
  - by apply auction_environment_inv.
  - exact (wlp_wp _ _ _ _ (wp_decided _ O' _ _ st (auction_on_unprocessed_ok O O' b m st HI HO)) _ _ Heq).
  - exact (wlp_wp _ _ _ _ (wp_decided _ O' _ _ st (auction_on_execute_ok O O' b m rep st HI HO)) _ _ Heq).
  - exact (wlp_wp _ _ _ _ (auction_on_check_decided O m rep resolved st HI Hck) _ _ Heq).
  - exact (wlp_wp _ _ _ _ (wp_decided _ O _ _ st (auction_on_tpu_ok O k st HI Hk Hl)) _ _ Heq).
  - revert Heq. apply (wlp_wp benign _ (λ _ st', AInv O st')). by apply (wp_evict_unchecked_inv O).
  - exact (wlp_wp _ _ _ _ (auction_on_packet_ok O packet st HI Hcap) _ _ Heq).
  - exact (wlp_wp _ _ _ _ (auction_on_bundle_ok O packets st HI Hne Hpks Hcap) _ _ Heq).
  - by apply (pools_inv O st).
  - exact (wlp_wp _ _ _ _ (auction_drop_expired_ok O st HI) _ _ Heq).
  - destruct (wlp_wp _ _ _ _ (auction_check_slot_roll_ok O st HI Hst Htip) _ _ Heq) as [(new & Hnew & HI') _].
    by eapply auction_tip_started.
  - revert Heq. apply (wlp_wp no_panic _ (λ _ st', AInv O st')). by apply (auction_tick_ok O).
  - destruct (auction_schedule_checks O false fuel st HI (λ E, match E with end) (λ E, match E with end) _ _ Heq)
      as [(HI' & _) _]. done.
  - destruct (wlp_wp _ _ _ _ (auction_worker_ok O worker budget st HI Hb Hsum) _ _ Heq) as [HI' _]. done.
  - injection Heq as <-. by apply (pools_inv O st).
  - by apply (pools_inv O st).
  - by apply (pools_inv O st).
Qed.

Lemma auction_reachable_inv O (st : S) : auction_reachable O st → AInv O st.
Proof.
  induction 1 as [evs args w s w' Heq|O st O' st' _ IH Hstep].
  - by eapply auction_new_inv.
  - by eapply auction_step_inv.
Qed.

Lemma elem_of_okeys_spec (O : Outstanding) k : k ∈ okeys O ↔ ∃ b m, (b, m) ∈ O ∧ key m = k.
Proof.
  unfold okeys. rewrite list_elem_of_fmap. split.
  - intros ([b m] & -> & Hin). by exists b, m.
  - intros (b & m & Hin & <-). by exists (b, m).
Qed.

(** C5: in every reachable state two different transactions that execute with
    their locks never conflict, not even inside one bundle: an account both of
    them lock is only read by both. The only ones to execute without their
    locks are tip transactions. *)
Theorem auction_reachable_conflict_free (O : Outstanding) (st : S) :
  auction_reachable O st →
  (∀ m m' addr w w', (true, m) ∈ O → (true, m') ∈ O → key m ≠ key m' →
    (addr, w) ∈ tx_locks (wld st) (key m) → (addr, w') ∈ tx_locks (wld st) (key m') →
    w = false ∧ w' = false) ∧
  ∀ m, (false, m) ∈ O → m = tip_meta (key m).
Proof.
  intros HI%auction_reachable_inv. split.
  - intros m m' addr w w' Hm Hm' Hne Hw Hw'. eapply (ainv_exclusive _ _ HI); [| |exact Hne].
    + apply (ainv_locks _ _ HI). split; [by exists m|done].
    + apply (ainv_locks _ _ HI). split; [by exists m'|done].
  - intros [p c k] [Hp Hc]%(ainv_unlocked _ _ HI). simpl in *. by subst.
Qed.

(** C6: in every reachable state the CU counter is the sum of the costs of the
    executions that are out, [executing_tx] has exactly their keys, the engine
    holds exactly the locks of those that execute with locks, and nothing is
    left behind when no execution is out. *)
Theorem auction_reachable_accounted (O : Outstanding) (st : S) :
  auction_reachable O st →
  in_flight_cus (sch st) = sum_costs O ∧
  (∀ k, k ∈ executing_tx (sch st) ↔ ∃ b m, (b, m) ∈ O ∧ key m = k) ∧
  (∀ addr k w, holder (table st) addr k w ↔
     (∃ m, (true, m) ∈ O ∧ key m = k) ∧ (addr, w) ∈ tx_locks (wld st) k) ∧
  (O = [] → account_locks (lock_manager (auction_engine (sch st))) = ∅).
Proof.
  intros HI%auction_reachable_inv. split_and!.
  - apply HI.
  - intros k. rewrite <- elem_of_okeys_spec. by apply executing_okeys.
  - exact (ainv_locks _ _ HI).
  - intros ->. apply map_empty. intros a. destruct (account_locks _ !! a) as [l|] eqn:Hl; [|done].
    pose proof (excl_nonempty _ (ainv_exclusive _ _ HI) a l Hl) as Hne.
    apply map_choose in Hne as (k & w & Hk).
    assert (holder (table st) a k w) as [(m & Hm%elem_of_nil & _) _]%(ainv_locks _ _ HI); [|done]. by exists l.
Qed.

(** C12: in every reachable state each field is of the type its use relies on:
    the sets are in order without duplicates, the CU counter and all costs fit
    64 bits, a key is in one place only (unchecked, checked, deferred, executing
    or in one bundle), and the bridge has every transaction that is referred to,
    with a signature. *)
Theorem auction_reachable_typed (O : Outstanding) (st : S) :
  auction_reachable O st →
  let s := sch st in
  sorted (checked_tx s) ∧ sorted (bundles s) ∧ is_u64 (in_flight_cus s) ∧
  (∀ m, m ∈ checked_tx s ++ iset_elements (deferred_tx s) ++ O.*2 → is_u64 (cost m)) ∧
  (∀ b, b ∈ bundles s → is_u64 (b_cost b) ∧ keys b ≠ []) ∧
  NoDup ((key <$> heap_elements (unchecked_tx s)) ++ (key <$> checked_tx s) ++
         (key <$> iset_elements (deferred_tx s)) ++ okeys O ++ concat (keys <$> bundles s)) ∧
  (∀ k, (k ∈ key <$> heap_elements (unchecked_tx s) ++ checked_tx s ++ iset_elements (deferred_tx s)) ∨
        k ∈ executing_tx s ∨ (∃ b, b ∈ bundles s ∧ k ∈ keys b) →
     ∃ tx, w_transaction (wld st) k = Some tx ∧ signed tx).
Proof.
  intros HI%auction_reachable_inv s. subst s. split_and!; try apply HI.
  - intros m. rewrite (assoc_L (++)). intros [Hm|Hm]%elem_of_app.
    + pose proof (ainv_waiting_costs _ _ HI) as Hc. rewrite Forall_forall in Hc. by apply Hc.
    + pose proof (ainv_costs _ _ HI) as Hc. rewrite Forall_forall in Hc.
      apply list_elem_of_fmap in Hm as (bm & -> & Hin). by apply Hc.
  - pose proof (ainv_bundle_costs _ _ HI) as Hc. by rewrite Forall_forall in Hc.
  - intros k Hk. apply (ainv_live _ _ HI). unfold held_keys. rewrite elem_of_app, auction_elem_of_locking.
    rewrite (executing_okeys O) in Hk by done. rewrite list_elem_of_fmap in *.
    destruct Hk as [(m & -> & Hm)|Hk]; [|tauto]. rewrite !elem_of_app in Hm. naive_solver.
Qed.
End Reach.
