(* ===== verification/AuctionPoll.v ===== *)
(** * A whole poll of the auction scheduler

    The scheduler as an instance of [Polling]'s interface, and [poll], phase by
    phase, as in [BatchPoll].  It ends if the transaction to recheck is still
    there when the checks begin; where it is gone, the poll may not end
    ([AuctionScoring.schedule_checks_spins]). *)

From S2P Require Import Prelude F64 BTreeSet Types Events Externals TipProgram Costs Common.
From S2P Require Import Outstanding Drains Polling.
From S2P Require Import AuctionLocks AuctionEngine AuctionState AuctionScheduler AuctionScoring.
From S2P Require Import AuctionHandlers AuctionExecute AuctionInvariant AuctionReturns.
From S2P Require Import AuctionIngest AuctionSlot AuctionChecks AuctionRounds AuctionReach.

Section Poll.
Context `{Profile} `{AgaveBindings} `{!AgaveBindingsLaws} `{World W} `{!WorldLaws}
  `{!Pending W} `{!PendingLaws W} `{LibM} `{HashMapOrder}
  {Heap DSet : Type} `{MinMaxHeap Heap PriorityId} `{!MinMaxHeapLaws Heap PriorityId}
  `{IndexSet DSet PriorityId} `{!IndexSetLaws DSet PriorityId}.
Abbreviation Sched := (AuctionBatchScheduler Heap DSet).
Abbreviation S := (St Sched W).

(** ** Frames *)

(** What is set from outside. *)
Definition settings (s : Sched) : nat * nat * nat * RuntimeConfig :=
  (unchecked_capacity s, checked_capacity s, bundle_capacity s, runtime s).

Abbreviation KeepsAll m := (Keeps (W := W) settings m).

Lemma auction_keeps_bump (field : SlotStatsEvent → Z) `{!Setter field} n : KeepsAll (bump field n).
Proof. unfold bump. keeps_tac. Qed.
#[local] Hint Resolve auction_keeps_bump : frame.

Lemma auction_keeps_emit_event ev : KeepsAll (emit_event ev).
Proof. unfold emit_event. keeps_tac. Qed.
#[local] Hint Resolve auction_keeps_emit_event : frame.

Lemma auction_keeps_emit_tx_event k prio action : KeepsAll (emit_tx_event k prio action).
Proof. unfold emit_tx_event. keeps_tac. Qed.
#[local] Hint Resolve auction_keeps_emit_tx_event : frame.

Lemma auction_keeps_tx_locks_of k : KeepsAll (tx_locks_of k).
Proof. unfold tx_locks_of. keeps_tac. Qed.
#[local] Hint Resolve auction_keeps_tx_locks_of : frame.

Lemma auction_keeps_update_engine f : KeepsAll (update_engine f).
Proof. unfold update_engine. keeps_tac. Qed.
#[local] Hint Resolve auction_keeps_update_engine : frame.

Lemma auction_keeps_acquire_locks k ls : KeepsAll (acquire_locks k ls).
Proof. unfold acquire_locks. keeps_tac. Qed.
#[local] Hint Resolve auction_keeps_acquire_locks : frame.

Lemma auction_keeps_can_lock k : KeepsAll (can_lock k).
Proof. unfold can_lock. keeps_tac. Qed.
#[local] Hint Resolve auction_keeps_can_lock : frame.

Lemma auction_keeps_lock k : KeepsAll (lock k).
Proof. unfold lock. keeps_tac. Qed.
#[local] Hint Resolve auction_keeps_lock : frame.

Lemma auction_keeps_unlock k : KeepsAll (unlock k).
Proof. unfold unlock. keeps_tac. Qed.
#[local] Hint Resolve auction_keeps_unlock : frame.

Lemma auction_keeps_queue_tx k : KeepsAll (queue_tx k).
Proof. unfold queue_tx. keeps_tac. Qed.
#[local] Hint Resolve auction_keeps_queue_tx : frame.

Lemma auction_keeps_dequeue_tx k : KeepsAll (dequeue_tx k).
Proof. unfold dequeue_tx. keeps_tac. Qed.
#[local] Hint Resolve auction_keeps_dequeue_tx : frame.

Lemma auction_keeps_insert_checked m : KeepsAll (insert_checked m).
Proof. unfold insert_checked. keeps_tac. Qed.
#[local] Hint Resolve auction_keeps_insert_checked : frame.

Lemma auction_keeps_remove_checked m : KeepsAll (remove_checked m).
Proof. unfold remove_checked. keeps_tac. Qed.
#[local] Hint Resolve auction_keeps_remove_checked : frame.

Lemma auction_keeps_pop_first_checked : KeepsAll pop_first_checked.
Proof. unfold pop_first_checked. keeps_tac. Qed.
#[local] Hint Resolve auction_keeps_pop_first_checked : frame.

Lemma auction_keeps_evict_checked m : KeepsAll (evict_checked m).
Proof. unfold evict_checked. keeps_tac. Qed.
#[local] Hint Resolve auction_keeps_evict_checked : frame.

Lemma auction_keeps_insert_executing k : KeepsAll (insert_executing k).
Proof. unfold insert_executing. keeps_tac. Qed.
#[local] Hint Resolve auction_keeps_insert_executing : frame.

Lemma auction_keeps_remove_executing k : KeepsAll (remove_executing k).
Proof. unfold remove_executing. keeps_tac. Qed.
#[local] Hint Resolve auction_keeps_remove_executing : frame.

Lemma auction_keeps_on_response r : KeepsAll (on_response r).
Proof. unfold on_response, on_unprocessed, on_check, on_execute. keeps_tac. Qed.

Lemma auction_keeps_tick : KeepsAll process_auction_tick.
Proof. unfold process_auction_tick. keeps_tac. Qed.

Lemma auction_keeps_evict_unchecked : KeepsAll evict_unchecked.
Proof. unfold evict_unchecked. keeps_tac. Qed.
#[local] Hint Resolve auction_keeps_evict_unchecked : frame.

Lemma auction_keeps_on_tpu k : KeepsAll (on_tpu k).
Proof. unfold on_tpu. keeps_tac. Qed.

Lemma auction_keeps_on_packet p : KeepsAll (on_packet p).
Proof. unfold on_packet. keeps_tac. Qed.

Lemma auction_keeps_drop_keys ks : KeepsAll (drop_keys ks).
Proof. unfold drop_keys. keeps_tac. Qed.
#[local] Hint Resolve auction_keeps_drop_keys : frame.

Lemma auction_keeps_discard_keys ks : KeepsAll (discard_keys ks).
Proof. unfold discard_keys. keeps_tac. Qed.
#[local] Hint Resolve auction_keeps_discard_keys : frame.

Lemma auction_keeps_ingest_bundle packets ks c r : KeepsAll (ingest_bundle packets ks c r).
Proof. revert ks c r. induction packets; intros; simpl; keeps_tac. Qed.
#[local] Hint Resolve auction_keeps_ingest_bundle : frame.

Lemma auction_keeps_any_filtered ks : KeepsAll (any_filtered ks).
Proof. induction ks; simpl; keeps_tac. Qed.
#[local] Hint Resolve auction_keeps_any_filtered : frame.

Lemma auction_keeps_on_bundle packets : KeepsAll (on_bundle packets).
Proof. unfold on_bundle, evict_bundle. keeps_tac. Qed.

Lemma auction_keeps_drop_expired_bundles : KeepsAll drop_expired_bundles.
Proof. unfold drop_expired_bundles. keeps_tac. Qed.

Lemma auction_keeps_recheck_next fuel : KeepsAll (recheck_next fuel).
Proof. induction fuel; simpl; keeps_tac. Qed.
#[local] Hint Resolve auction_keeps_recheck_next : frame.

Lemma auction_keeps_extend_batch fuel n : KeepsAll (extend_batch fuel n).
Proof. induction n; simpl; unfold pop_next; keeps_tac. Qed.
#[local] Hint Resolve auction_keeps_extend_batch : frame.

Lemma auction_keeps_schedule_checks fuel : KeepsAll (schedule_checks fuel).
Proof. unfold schedule_checks, schedule_checks_round. keeps_tac. Qed.

Lemma auction_keeps_find_schedulable budget txs : KeepsAll (find_schedulable budget txs).
Proof. induction txs; simpl; keeps_tac. Qed.
#[local] Hint Resolve auction_keeps_find_schedulable : frame.

Lemma auction_keeps_all_can_lock ks : KeepsAll (all_can_lock ks).
Proof. induction ks; simpl; keeps_tac. Qed.
#[local] Hint Resolve auction_keeps_all_can_lock : frame.

Lemma auction_keeps_acquire_all all ks : KeepsAll (acquire_all all ks).
Proof. induction ks; simpl; unfold release_keys; keeps_tac. Qed.
#[local] Hint Resolve auction_keeps_acquire_all : frame.

Lemma auction_keeps_try_schedule_transaction budget worker : KeepsAll (try_schedule_transaction budget worker).
Proof. unfold try_schedule_transaction. keeps_tac. Qed.
#[local] Hint Resolve auction_keeps_try_schedule_transaction : frame.

Lemma auction_keeps_try_schedule_bundle budget worker : KeepsAll (try_schedule_bundle budget worker).
Proof. unfold try_schedule_bundle. keeps_tac. Qed.
#[local] Hint Resolve auction_keeps_try_schedule_bundle : frame.

Lemma auction_keeps_schedule_execute : KeepsAll schedule_execute.
Proof. unfold schedule_execute, schedule_execute_worker, declare_executing. keeps_tac. Qed.

Lemma auction_keeps_start_recheck : KeepsAll start_recheck.
Proof. unfold start_recheck. keeps_tac. Qed.
#[local] Hint Resolve auction_keeps_start_recheck : frame.

Lemma auction_keeps_update_metrics : KeepsAll update_metrics.
Proof. unfold update_metrics. keeps_tac. Qed.

Lemma auction_keeps_roll_slot p : KeepsAll (roll_slot p).
Proof. unfold roll_slot, drain_deferred. keeps_tac. Qed.
#[local] Hint Resolve auction_keeps_roll_slot : frame.

Lemma auction_keeps_become_tip_receiver : KeepsAll become_tip_receiver.
Proof. unfold become_tip_receiver. keeps_tac. Qed.
#[local] Hint Resolve auction_keeps_become_tip_receiver : frame.

(** ** The interface *)

(** The panics of a poll: the benign ones, an arithmetic overflow, or a bridge
    that refuses the scheduler's own transactions. *)
Definition poll_panic (p : Panic) : Prop := slot_panic p ∨ ∃ site, p = POverflow site.

Lemma wp_poll_benign {A} (m : M S A) Q st : wp benign m Q st → wp poll_panic m Q st.
Proof. intros Hm. eapply wp_weaken; [exact Hm|]. intros p Hp. by do 2 left. Qed.

Lemma wp_poll_ingest {A} (m : M S A) Q st : wp ingest_panic m Q st → wp poll_panic m Q st.
Proof. intros Hm. eapply wp_weaken; [exact Hm|]. intros p [Hp|Hp]; [by do 2 left|by right]. Qed.

#[export] Instance auction_handlers : Handlers W Sched bool := {|
  sc_inv := AInv;
  sc_settings := settings;
  sc_check_ok := check_ok;
  sc_packet_ok := lockable_packet;
  sc_panic := poll_panic;
  sc_on_response := on_response;
  sc_on_tpu := on_tpu;
  sc_on_packet := on_packet;
  sc_on_bundle := on_bundle;
  sc_set_tip_config c s := s <| tip_config := Some c |>;
  sc_set_blockhash h s := s <| recent_blockhash := h |>;
|}.

Lemma auction_okeys_NoDup O (st : S) : AInv O st → NoDup (okeys O).
Proof.
  intros HI. pose proof (ainv_keys _ _ HI) as Hnd. unfold held_keys, locking_keys in Hnd.
  do 3 apply NoDup_app in Hnd as (_ & _ & Hnd). by apply NoDup_app in Hnd as (Hnd & _ & _).
Qed.

Lemma auction_on_response_decided O r (st : S) :
  AInv O st → response_ok O r st →
  wp benign (on_response r) (λ d st', AInv (settle r O) (after_decision (key (wr_meta r)) d st')) st.
Proof.
  intros HI Hr. pose proof (auction_okeys_NoDup O st HI) as Hnd. unfold on_response, response_ok, settle in *.
  destruct (wr_response r) as [|rep keys|rep].
  - destruct Hr as [[b Hin]|Hk].
    + by apply wp_decided, (auction_on_unprocessed_ok O _ b), without_split.
    + rewrite without_absent by done. unfold wp. by rewrite (auction_on_unprocessed_other O).
  - by apply auction_on_check_decided.
  - destruct Hr as [b Hin]. by apply wp_decided, (auction_on_execute_ok O _ b), without_split.
Qed.

Lemma auction_on_tpu_arriving O k (st : S) w :
  AInv O st → arriving k (wld st) w →
  wp ingest_panic (on_tpu k) (λ d st', AInv O (after_decision k d st')) (mk (sch st) w).
Proof.
  intros HI Hw. assert (k ∉ held_keys O (sch st)) as Hk.
  { intros Hk. destruct (ainv_live _ _ HI k Hk) as (tx' & Htx' & _). by rewrite (ar_fresh _ _ _ Hw) in Htx'. }
  apply wp_decided, auction_on_tpu_ok; [|done|apply (ar_signed _ _ _ Hw)]. apply auction_environment_inv; [done|].
  intros k' Hk'. apply (ar_other _ _ _ Hw). by intros ->.
Qed.

#[export] Instance auction_handlers_laws : HandlersLaws W Sched bool.
Proof.
  split.
  - intros O st w HI Hw. apply auction_environment_inv; [done|]. intros k _. by rewrite Hw.
  - intros O m rep s w w' Hw [Hl Hc Hwf Hlock Hm Hcap]. split; try done; simpl in *.
    + unfold live. by rewrite Hw.
    + unfold lockable, tx_locks. by rewrite Hw.
  - intros O st HI. apply HI.
  - intros O r st HI Hr. by apply wp_poll_benign, auction_on_response_decided.
  - intros O k st w HI Hw. by apply wp_poll_ingest, auction_on_tpu_arriving.
  - intros O packet st HI [Hc _]. simpl in Hc. apply wp_poll_ingest, auction_on_packet_ok; [done|lia].
  - intros O packets st HI Hne Hl [_ Hc]. by apply wp_poll_ingest, auction_on_bundle_ok.
  - intros O c st HI. by apply (pools_inv O st).
  - intros O h st HI. by apply (pools_inv O st).
  - exact auction_keeps_on_response.
  - exact auction_keeps_on_tpu.
  - exact auction_keeps_on_packet.
  - exact auction_keeps_on_bundle.
  - intros c s. done.
  - intros h s. done.
Qed.

(** ** The drains *)

Lemma auction_drain_worker_responses_ok O (st : S) :
  AInv O st → honest (responses (wld st) (seq 0 (w_worker_count (wld st)))) O st →
  wp poll_panic drain_worker_responses (λ _ st', draining O st [] [] st') st.
Proof. exact (wp_drain_workers O st). Qed.

Lemma auction_evict_many_ok {A} O (l : list A) (st : S) :
  AInv O st → (length l ≤ heap_len (unchecked_tx (sch st)))%nat →
  wp benign (for_each l (λ _, evict_unchecked)) (λ _ st', AInv O st') st.
Proof.
  intros HI Hlen. set (I (l : list A) st' := AInv O st' ∧ (length l ≤ heap_len (unchecked_tx (sch st')))%nat).
  apply (wp_mono _ _ (λ _ st', I [] st')); [|by intros [] st' [HI' _]].
  apply wp_for_each; [done|].
  clear l st HI Hlen. intros x l st [HI Hlen]. simpl in Hlen. apply (wp_evict_unchecked_inv O); [done| |].
  - intros Hnil. rewrite heap_len_elements, Hnil in Hlen. simpl in Hlen. lia.
  - intros st' HI' Hev _ _. split; [done|]. lia.
Qed.

Lemma auction_drain_tpu_ok B st0 n (st : S) :
  (n ≤ unchecked_capacity (sch st))%nat → phase B st0 st →
  wp poll_panic (drain_tpu n) (λ _ st', phase B st0 st') st.
Proof.
  intros Hcap Hph. unfold drain_tpu. wp_steps. apply wp_poll_benign. set (shortfall := (_ - _)%nat).
  eapply wp_mono; [apply (wp_phase _ _ B st0); [keeps_tac|done|]|].
  { intros O HI. apply (auction_evict_many_ok O); [done|]. rewrite length_seq. unfold shortfall. lia. }
  intros [] st1 Hph1. apply wp_bind, wp_poll_benign.
  eapply wp_mono; [apply (wp_phase _ _ B st0); [keeps_tac|done|]|].
  { intros O HI. apply auction_wp_increment. intros st' Hq. by eapply auction_quiet_inv. }
  intros [] st2 Hph2. apply wp_bind, wp_poll_benign.
  eapply wp_mono; [apply (wp_phase _ _ B st0); [keeps_tac|done|]|].
  { intros O HI. apply auction_wp_bump. intros st' Hq. by eapply auction_quiet_inv. }
  intros [] st3. exact (wp_drain_arriving B st0 n st3).
Qed.

Lemma auction_drain_jito_ok B c p q fuel (st : S) :
  has_room c → receiving B c p q st → (length q < fuel)%nat →
  wp poll_panic (drain_jito fuel) (λ _ st', receiving B c p [] st') st.
Proof. exact (wp_jito_loop B c p q fuel st). Qed.

(** ** Scheduling *)

Lemma auction_schedule_checks_receiving B c p q fuel (st : S) :
  receiving B c p q st → ¬ recheck_gone (sch st) → (checks_left (sch st) < fuel)%nat →
  wp benign (schedule_checks fuel) (λ _ st', receiving B c p q st') st.
Proof.
  intros Hrec Hg Hfuel. apply wp_receiving_inv; [apply auction_keeps_schedule_checks|done|]. intros O HI.
  assert (resumable true (sch st)) as Hr by (intros _; by apply recheck_ready_not_gone).
  eapply wp_mono; [exact (auction_schedule_checks O true fuel st HI Hr (λ _, Hfuel))|].
  by intros [] st' [[HI' _] _].
Qed.

Lemma auction_schedule_execute_receiving c p q (st : S) :
  receiving MAX_BLOCK_UNITS_SIMD_0256 c p q st → progress_ok c p → leader_state p = LEADER_READY →
  wp benign schedule_execute (λ _ st', receiving MAX_BLOCK_UNITS_SIMD_0256 c p q st') st.
Proof.
  intros Hrec Hok Hlead. pose proof Hrec as ([_ Hs Hp] & _). subst c p.
  apply wp_receiving; [apply auction_keeps_schedule_execute|done|]. intros O HI Hsum.
  pose proof (ainv_cus_u64 _ _ HI) as [Hcus _]. rewrite <- (ainv_cus _ _ HI) in Hsum.
  eapply wp_mono; [apply (auction_schedule_execute_ok O);
    [done|done|by apply (progress_budget (settings (sch st)))]|].
  intros [] st' (ms & HI' & _ & Hused). exists (entries ms ++ O). split; [done|]. rewrite <- (ainv_cus _ _ HI').
  by apply (progress_share (settings (sch st)) (w_progress (wld st)) (in_flight_cus (sch st))).
Qed.

Lemma auction_start_recheck_receiving B c p q (st : S) :
  receiving B c p q st → wp benign start_recheck (λ _ st', receiving B c p q st') st.
Proof.
  intros Hrec. apply wp_receiving_inv; [apply auction_keeps_start_recheck|done|]. intros O HI.
  unfold start_recheck. wp_steps. by apply (pools_inv O st).
Qed.

Lemma auction_wp_set_gauge O m n (Q : unit → S → Prop) (st : S) :
  AInv O st → (∀ st', AInv O st' → Q tt st') → wp benign (set_gauge m n) Q st.
Proof.
  intros HI HQ. apply wp_update_world, HQ. apply (pools_inv O st); [done|done|apply metric_set_transaction].
Qed.

Lemma auction_update_metrics_receiving B c p q (st : S) :
  receiving B c p q st → wp benign update_metrics (λ _ st', receiving B c p q st') st.
Proof.
  intros Hrec. apply wp_receiving_inv; [apply auction_keeps_update_metrics|done|]. intros O HI.
  unfold update_metrics.
  by repeat first [wp_step | eapply (auction_wp_set_gauge O); [eassumption|intros ? ?]].
Qed.

(** ** The slot roll *)

Lemma auction_slot_roll_frame (st st1 : S) :
  check_slot_roll st = Ok (tt, st1) →
  settings (sch st1) = settings (sch st) ∧ same_seen (w_drain_progress (wld st)).2 (wld st1).
Proof.
  unfold check_slot_roll, bindM at 1, call at 1, step. destruct (w_drain_progress (wld st)) as [o w]. simpl.
  match goal with |- ?m _ = _ → _ => assert (KeepsAll m) as Hm by keeps_tac end. apply Hm.
Qed.

Lemma tips_costs (new O : list (bool * PriorityId)) : tips new → sum_costs (new ++ O) = sum_costs O.
Proof. induction 1 as [|bm new Hbm _ IH]; [done|]. simpl. rewrite IH, Hbm. done. Qed.

(** ** The poll *)

(** The part of [poll] that comes before the checks; answers [is_leader]. *)
Definition before_checks (fuel : nat) : M S bool :=
  check_slot_roll ;;
  drain_worker_responses ;;
  process_auction_tick ;;
  let* p := bridge w_progress in
  let is_leader := leader_state p =? LEADER_READY in
  (if is_leader then drain_tpu 128 else drain_tpu 1024) ;;
  drop_expired_bundles ;;
  drain_jito fuel ;;
  mret is_leader.

(** And the rest. *)
Definition from_checks (fuel : nat) (is_leader : bool) : M S unit :=
  schedule_checks fuel ;;
  when is_leader (schedule_execute ;; start_recheck) ;;
  update_metrics.

Lemma poll_parts fuel (st : S) :
  poll fuel st = (let* is_leader := before_checks fuel in from_checks fuel is_leader) st.
Proof.
  unfold poll, before_checks, from_checks, bindM, bridge, gets.
  repeat (match goal with |- context [match ?x with _ => _ end] => destruct x end; try done).
Qed.

Lemma before_checks_stable : stable before_checks.
Proof.
  unfold before_checks.
  do 6 (apply stable_bind; [apply stable_const|intros ?]).
  apply stable_bind; [apply stable_loop_fuel|intros ?]. apply stable_const.
Qed.

(** What the outside must be like for a poll to go well. *)
Record poll_ready (O : list (bool * PriorityId)) (st : S) : Prop := {
  pr_inv : AInv O st;
  pr_cus : in_flight_cus (sch st) ≤ MAX_BLOCK_UNITS_SIMD_0256;
  pr_room : has_room (settings (sch st));
  (** The validator is there, and its progress is in range. *)
  pr_connected : ¬ stale st;
  pr_progress : progress_ok (settings (sch st)) (w_progress (w_drain_progress (wld st)).2);
  (** So is the Jito thread. *)
  pr_tip : tip_config (sch st) ≠ None;
  pr_open : w_jito_open (wld st) = true;
  pr_queue : Forall jito_ok (w_jito_queue (wld st));
  (** The workers answer what they were asked. *)
  pr_honest : ∀ new st1, check_slot_roll st = Ok (tt, st1) → AInv (new ++ O) st1 →
    honest (responses (wld st1) (seq 0 (w_worker_count (wld st1)))) (new ++ O) st1;
  (** The transaction to recheck is still there when the checks begin. *)
  pr_recheck : ∀ fuel b st1, before_checks fuel st = Ok (b, st1) → ¬ recheck_gone (sch st1);
}.

Lemma auction_slot_roll_ready O (st : S) :
  poll_ready O st →
  wp poll_panic check_slot_roll (λ _ st1, ∃ O1,
    AInv O1 st1 ∧ sum_costs O1 ≤ MAX_BLOCK_UNITS_SIMD_0256 ∧
    settings (sch st1) = settings (sch st) ∧ w_progress (wld st1) = w_progress (w_drain_progress (wld st)).2 ∧
    w_jito_open (wld st1) = true ∧ w_jito_queue (wld st1) = w_jito_queue (wld st) ∧
    honest (responses (wld st1) (seq 0 (w_worker_count (wld st1)))) O1 st1) st.
Proof.
  intros []. eapply wp_weaken; [|intros p Hp; by left].
  eapply wp_mono; [by apply wp_run, (auction_check_slot_roll_ok O)|]. intros [] st1 (Heq & (new & Hnew & HI1) & _).
  pose proof (auction_slot_roll_frame st st1 Heq) as [Hset [Hp Hq Ho _]].
  exists (new ++ O). split_and!; [done| |done|done| | |by apply pr_honest0].
  - rewrite tips_costs, <- (ainv_cus _ _ pr_inv0) by done. done.
  - by rewrite Ho, drain_progress_open.
  - by rewrite Hq, drain_progress_queue.
Qed.

Lemma auction_tick_phase B st0 (st : S) :
  phase B st0 st → wp poll_panic process_auction_tick (λ _ st', phase B st0 st') st.
Proof.
  intros Hph. apply wp_phase; [apply auction_keeps_tick|done|]. intros O HI. by apply (auction_tick_ok O).
Qed.

Lemma auction_drop_expired_phase B st0 (st : S) :
  phase B st0 st → wp poll_panic drop_expired_bundles (λ _ st', phase B st0 st') st.
Proof.
  intros Hph. apply wp_poll_benign, wp_phase; [apply auction_keeps_drop_expired_bundles|done|].
  intros O HI. by apply auction_drop_expired_ok.
Qed.

(** The state after the slot roll has what [phase] speaks of. *)
Lemma before_checks_ok O (st : S) :
  poll_ready O st →
  let p := w_progress (w_drain_progress (wld st)).2 in
  eventually poll_panic before_checks (λ is_leader st1,
    receiving MAX_BLOCK_UNITS_SIMD_0256 (settings (sch st)) p [] st1 ∧
    is_leader = (leader_state p =? LEADER_READY)) st.
Proof.
  intros Hready p. unfold before_checks. apply eventually_bind_const.
  eapply wp_mono; [by apply (auction_slot_roll_ready O)|].
  intros [] st1 (O1 & HI1 & Hsum1 & Hset & Hp & Hopen & Hq & Hh). fold p in Hp.
  apply eventually_bind_const. eapply wp_mono; [by apply (auction_drain_worker_responses_ok O1)|].
  intros [] st2 (O2 & HI2 & Hsum2 & _ & Hun2).
  assert (Forall jito_ok (w_jito_queue (wld st1))) as Hok by (rewrite Hq; apply (pr_queue _ _ Hready)).
  assert (phase MAX_BLOCK_UNITS_SIMD_0256 st1 st2) as Hph2 by (exists O2; split_and!; [done|lia|done]).
  apply eventually_bind_const. eapply wp_mono; [by apply auction_tick_phase|]. intros [] st3 Hph3.
  pose proof Hph3 as (O3 & _ & _ & [Hset3 [Hp3 _ _]]). change (settings (sch st3) = settings (sch st1)) in Hset3.
  apply eventually_bind_const. wp_step. apply eventually_bind_const.
  pose proof (pr_room _ _ Hready) as Hroom. rewrite <- Hset in Hroom.
  apply (wp_mono _ _ (λ _ st', phase MAX_BLOCK_UNITS_SIMD_0256 st1 st')).
  { pose proof Hroom as [Hcap _]. injection Hset3 as Hc3 _ _ _.
    case_match; apply auction_drain_tpu_ok; try done; lia. }
  intros [] st4 Hph4. apply eventually_bind_const.
  eapply wp_mono; [by apply auction_drop_expired_phase|]. intros [] st5 Hph5.
  apply eventually_bind; [apply stable_loop_fuel|].
  exists (Datatypes.S (length (w_jito_queue (wld st1)))). intros fuel Hfuel.
  eapply wp_mono; [apply (auction_drain_jito_ok MAX_BLOCK_UNITS_SIMD_0256 (settings (sch st1)) (w_progress (wld st1))
    (w_jito_queue (wld st1))); [done|exact (phase_receiving _ st1 st5 Hph5 Hopen Hok)|lia]|].
  intros [] st6 Hrec. apply eventually_const. wp_step. rewrite Hset, Hp in Hrec. split; [done|]. by rewrite Hp3, Hp.
Qed.

Lemma from_checks_ok c p q fuel (st : S) :
  receiving MAX_BLOCK_UNITS_SIMD_0256 c p q st → progress_ok c p → ¬ recheck_gone (sch st) →
  (checks_left (sch st) < fuel)%nat →
  wp benign (from_checks fuel (leader_state p =? LEADER_READY))
    (λ _ st', receiving MAX_BLOCK_UNITS_SIMD_0256 c p q st') st.
Proof.
  intros Hrec Hp Hg Hfuel. unfold from_checks. apply wp_bind.
  eapply wp_mono; [by eapply auction_schedule_checks_receiving|]. intros [] st1 Hrec1.
  apply wp_bind, (wp_mono _ _ (λ _ st2, receiving MAX_BLOCK_UNITS_SIMD_0256 c p q st2)).
  2: intros [] st2; apply auction_update_metrics_receiving.
  apply wp_when; [intros Hlead%Z.eqb_eq|intros _; exact Hrec1]. apply wp_bind.
  eapply wp_mono; [by apply auction_schedule_execute_receiving|].
  intros [] st2. apply auction_start_recheck_receiving.
Qed.

Lemma auction_poll_ok O (st : S) :
  poll_ready O st →
  eventually poll_panic poll (λ _ st', ∃ O',
    AInv O' st' ∧ in_flight_cus (sch st') ≤ MAX_BLOCK_UNITS_SIMD_0256 ∧
    settings (sch st') = settings (sch st) ∧ w_jito_queue (wld st') = []) st.
Proof.
  intros Hready.
  assert (eventually poll_panic (λ fuel, let* is_leader := before_checks fuel in from_checks fuel is_leader)
    (λ _ st', receiving MAX_BLOCK_UNITS_SIMD_0256 (settings (sch st))
       (w_progress (w_drain_progress (wld st)).2) [] st') st) as [n Hn].
  { apply eventually_bind; [apply before_checks_stable|].
    destruct (before_checks_ok O st Hready) as [n Hn]. exists n. intros fuel Hfuel.
    eapply wp_mono; [by apply wp_run, Hn|]. intros is_leader st1 (Heq & Hrec & ->).
    exists (Datatypes.S (checks_left (sch st1))). intros fuel' Hfuel'.
    apply wp_poll_benign, from_checks_ok; [done|apply (pr_progress _ _ Hready)| |lia].
    by eapply (pr_recheck _ _ Hready). }
  exists n. intros fuel Hfuel. specialize (Hn fuel Hfuel). unfold wp in *. rewrite poll_parts.
  destruct (bindM _ _ st) as [[[] st3]|p|]; [|done..].
  destruct Hn as ([(O3 & HI3 & Hsum3) Hset3 _] & Hq3 & _). exists O3.
  by rewrite (ainv_cus _ _ HI3).
Qed.

End Poll.
