(* ===== verification/AuctionLeaks.v ===== *)
(** * No transaction is lost by the auction scheduler

    As [BatchLeaks]: every transaction in the bridge is in one of the scheduler's
    collections, executing, or with the check workers for the first time.  What
    the auction does to the queues and locks of its engine moves no transaction. *)

From S2P Require Import Prelude F64 BTreeSet Types Events Externals TipProgram Costs Common Outstanding Drains.
From S2P Require Import Strays Histories Polling AuctionLocks AuctionEngine AuctionState AuctionScheduler.
From S2P Require Import AuctionHandlers AuctionPoll.

Section AuctionLeaks.
Context `{Profile} `{AgaveBindings} `{World W} `{!WorldLaws} `{!DropLaws} `{!SentLog W} `{!SentLaws W} `{LibM} `{HashMapOrder} {Heap DSet : Type}
  `{MinMaxHeap Heap PriorityId} `{!MinMaxHeapLaws Heap PriorityId}
  `{IndexSet DSet PriorityId} `{!IndexSetLaws DSet PriorityId}.
Abbreviation Sched := (AuctionBatchScheduler Heap DSet).
Abbreviation S := (St Sched W).
Implicit Types (X Y : gset TransactionKey) (s : Sched) (st : S) (k : TransactionKey).

Definition held s : Held := {|
  h_unchecked := heap_elements (unchecked_tx s);
  h_checked := checked_tx s;
  h_deferred := iset_elements (deferred_tx s);
  h_executing := executing_tx s;
  h_bundles := bundles s;
|}.

Abbreviation strays := (Strays.strays held).
Abbreviation keeps_strays := (Strays.keeps_strays held).
Abbreviation decided_strays := (Strays.decided_strays held).
Abbreviation popping := (Strays.popping held check_flags).
Abbreviation first_checks := (Strays.first_checks held check_flags).

(** ** Parts that are still *)

Lemma auction_still_bump (field : SlotStatsEvent → Z) `{!Setter field} n : still held (bump field n).
Proof. unfold bump. still_tac. Qed.
#[local] Hint Resolve auction_still_bump : still.

Lemma auction_still_emit_event ev : still held (emit_event ev).
Proof. unfold emit_event. still_tac. Qed.
#[local] Hint Resolve auction_still_emit_event : still.

Lemma auction_still_emit_tx_event k prio action : still held (emit_tx_event k prio action).
Proof. unfold emit_tx_event. still_tac. Qed.
#[local] Hint Resolve auction_still_emit_tx_event : still.

(** The locks and queues are the engine's: nor does the batch that is built change. *)
Definition building s := (held s, schedule_batch s).

Lemma auction_still_building {A} (m : M S A) : still building m → still held m.
Proof. intros Hm st a st' Heq. destruct (Hm _ _ _ Heq) as [Hb Hw]. split; [exact (f_equal fst Hb)|done]. Qed.
#[local] Hint Resolve auction_still_building : still.

Lemma auction_building_tx_locks_of k : still building (tx_locks_of k).
Proof. unfold tx_locks_of. still_tac. Qed.
#[local] Hint Resolve auction_building_tx_locks_of : still.

Lemma auction_building_update_engine f : still building (update_engine f).
Proof. unfold update_engine. still_tac. Qed.
#[local] Hint Resolve auction_building_update_engine : still.

Lemma auction_building_acquire_locks k ls : still building (acquire_locks k ls).
Proof. unfold acquire_locks. still_tac. Qed.
#[local] Hint Resolve auction_building_acquire_locks : still.

Lemma auction_building_can_lock k : still building (can_lock k).
Proof. unfold can_lock. still_tac. Qed.

Lemma auction_building_lock k : still building (lock k).
Proof. unfold lock. still_tac. Qed.

Lemma auction_building_unlock k : still building (unlock k).
Proof. unfold unlock. still_tac. Qed.

Lemma auction_building_queue_tx k : still building (queue_tx k).
Proof. unfold queue_tx. still_tac. Qed.

Lemma auction_building_dequeue_tx k : still building (dequeue_tx k).
Proof. unfold dequeue_tx. still_tac. Qed.
#[local] Hint Resolve auction_building_can_lock auction_building_lock auction_building_unlock : still.
#[local] Hint Resolve auction_building_queue_tx auction_building_dequeue_tx : still.

Lemma auction_building_all_can_lock ks : still building (all_can_lock ks).
Proof. induction ks as [|k ks IH]; simpl; still_tac. Qed.

Lemma auction_building_find_schedulable budget txs : still building (find_schedulable budget txs).
Proof. induction txs as [|tx txs IH]; simpl; still_tac. Qed.

Lemma auction_building_acquire_all all ks : still building (acquire_all all ks).
Proof. induction ks as [|k ks IH]; simpl; unfold release_keys; still_tac. Qed.
#[local] Hint Resolve auction_building_all_can_lock auction_building_find_schedulable : still.
#[local] Hint Resolve auction_building_acquire_all : still.

Lemma auction_still_any_filtered ks : still held (any_filtered ks).
Proof. induction ks as [|k ks IH]; simpl; still_tac. Qed.
#[local] Hint Resolve auction_still_any_filtered : still.

(** ** Calls that move keys *)

Lemma auction_insert_checked_strays X m st :
  strays ({[key m]} ∪ X) st → wlp (insert_checked m) (λ _, strays X) st.
Proof.
  intros Hs. unfold insert_checked. stray_step. still_call Hs. intros _ [s w] Hs1. stray_steps.
  eapply strays_put_checked, Hs1. reflexivity.
Qed.

Lemma auction_wlp_remove_checked X m (Q : bool → S → Prop) st :
  strays X st →
  (∀ b st', strays ({[key m]} ∪ X) st' → schedule_batch (sch st') = schedule_batch (sch st) → Q b st') →
  wlp (remove_checked m) Q st.
Proof.
  intros Hs HQ. unfold remove_checked. stray_steps. destruct st as [s w]. cbn [sch].
  pose proof (btree_remove_take m (checked_tx s)) as Hl.
  destruct (btree_remove m (checked_tx s)) as [[] l]; cbn [snd] in Hl; cbv beta iota.
  - stray_steps. assert (strays ({[key m]} ∪ X) (mk (s <| checked_tx := l |>) w)) as Hs1
      by (eapply strays_take_checked, Hs; [reflexivity|done]).
    apply (wlp_still_with held _ schedule_batch _ _ _ Hs1); [still_tac|]. intros _ s2 w2 Hs2 _ Hb2.
    stray_step. by apply HQ.
  - stray_step. apply HQ; [|done]. eapply strays_mono, Hs. set_solver.
Qed.

Lemma auction_wlp_pop_first_checked X (Q : option PriorityId → S → Prop) st :
  strays X st → (∀ st', strays X st' → Q None st') →
  (∀ m st', strays ({[key m]} ∪ X) st' → Q (Some m) st') →
  wlp pop_first_checked Q st.
Proof.
  intros Hs Hn Hm. unfold pop_first_checked. stray_steps. destruct st as [s w]. cbn [sch].
  destruct (btree_pop_first (checked_tx s)) as [[m l]|] eqn:Hl; [|stray_step; by apply Hn].
  stray_steps. assert (strays ({[key m]} ∪ X) (mk (s <| checked_tx := l |>) w)) as Hs1
    by (eapply strays_take_checked, Hs; [reflexivity|by apply btree_pop_first_take]).
  still_call Hs1. intros _ st2 Hs2. stray_step. by apply Hm.
Qed.

Lemma auction_wlp_remove_executing X k (Q : bool → S → Prop) st :
  strays X st → (∀ st', strays X st' → Q false st') → (∀ st', strays ({[k]} ∪ X) st' → Q true st') →
  wlp (remove_executing k) Q st.
Proof.
  intros Hs Hf Ht. unfold remove_executing. stray_steps. destruct st as [s w]. simpl.
  case_bool_decide as Hk; [apply Ht|apply Hf].
  - eapply strays_take_executing, Hs. reflexivity.
  - eapply strays_same; [exact Hs|done|]. unfold held. simpl. f_equal. set_solver.
Qed.

Lemma auction_wlp_insert_executing X k (Q : bool → S → Prop) st :
  strays ({[k]} ∪ X) st → (∀ b st', strays X st' → Q b st') → wlp (insert_executing k) Q st.
Proof.
  intros Hs HQ. unfold insert_executing. stray_steps. apply HQ. destruct st as [s w].
  eapply strays_put_executing, Hs. reflexivity.
Qed.

(** ** Ends of checks and executions *)

Lemma auction_wlp_evict_checked X id st :
  strays ({[key id]} ∪ X) st → wlp (evict_checked id) (λ _, strays X) st.
Proof.
  intros Hs. unfold evict_checked. stray_step. still_call Hs.
  intros _ st1 Hs1. by apply wlp_drop.
Qed.

Lemma auction_on_unprocessed_strays X m st :
  strays X st → wlp (on_unprocessed m) (decided_strays X (key m)) st.
Proof.
  intros Hs. unfold on_unprocessed. stray_step. apply (auction_wlp_remove_executing X); [done|..].
  { intros st1 Hs1. by stray_step. }
  intros st1 Hs1. stray_step. still_call Hs1. intros _ st2 Hs2.
  stray_steps. set (st3 := mk _ _). assert (strays ({[key m]} ∪ X) st3) as Hs3 by exact Hs2.
  destruct (priority m =? BUNDLE_MARKER); [stray_step; by apply strays_dropped|].
  stray_step. still_call Hs3. intros _ st4 Hs4.
  stray_step. still_call Hs4. intros _ st5 Hs5.
  stray_step. still_call Hs5. intros _ st6 Hs6.
  stray_step. apply (wlp_then held X); [by apply auction_insert_checked_strays|]. intros _ st7 Hs7. by stray_step.
Qed.

Lemma auction_on_execute_put_back X m (b : bool) st :
  strays ({[key m]} ∪ X) st →
  wlp (if b then
         let* d := self deferred_tx in
         let '(new, d') := iset_insert m d in
         update (λ s, s <| deferred_tx := d' |>) ;;
         assert "on_execute: deferred" new
       else
         insert_checked m) (λ _, strays X) st.
Proof.
  intros Hs. destruct b.
  - stray_steps. destruct (iset_insert m (deferred_tx (sch st))) as [new d'] eqn:Hi. stray_steps. subst new.
    destruct (decide (m ∈ iset_elements (deferred_tx (sch st)))) as [Hm|Hm].
    { apply iset_insert_present in Hm. rewrite Hi in Hm. done. }
    destruct (iset_insert_new m _ Hm) as (d & Hd & He). rewrite Hi in Hd. injection Hd as <-.
    destruct st as [s w]. eapply strays_put_deferred, Hs. unfold held. simpl. by rewrite He.
  - by apply auction_insert_checked_strays.
Qed.

Lemma auction_on_execute_evict_strays X st :
  strays X st →
  wlp (let* o := pop_first_checked in
       match o with
       | Some evicted =>
           evict_checked evicted ;;
           increment m_execute_evict 1
       | None => mret tt
       end) (λ _, strays X) st.
Proof.
  intros Hs. stray_step. apply (auction_wlp_pop_first_checked X); [done|by intros; stray_step|]. intros id st0 Hs0.
  stray_step. apply (wlp_then held X); [by apply auction_wlp_evict_checked|].
  intros _ st1 Hs1. by still_call Hs1.
Qed.

Lemma auction_on_execute_strays X m rep st :
  strays X st → wlp (on_execute m rep) (decided_strays X (key m)) st.
Proof.
  intros Hs. unfold on_execute. stray_step. apply (auction_wlp_remove_executing X); [done|..].
  { intros st1 _. stray_step. by apply wlp_assert. }
  intros st1 Hs1. stray_steps. set (st2 := mk _ _). assert (strays ({[key m]} ∪ X) st2) as Hs2 by exact Hs1.
  still_call Hs2. intros _ st3 Hs3.
  stray_step. still_call Hs3. intros action st4 Hs4.
  stray_step. still_call Hs4. intros _ st5 Hs5.
  destruct (_ || _); [stray_step; by apply strays_dropped|].
  stray_steps. apply (wlp_then held X); [by apply auction_on_execute_put_back|]. intros _ st6 Hs6.
  stray_steps. apply wlp_when; intros _; [|by stray_step].
  apply (wlp_then held X); [by apply auction_on_execute_evict_strays|]. intros _ st7 Hs7. by stray_step.
Qed.

(** A response of the check workers to a first check settles the key. *)
Lemma auction_on_check_strays X m rep resolved st :
  strays X st → wlp (on_check m rep resolved) (decided_strays (X ∖ {[key m]}) (key m)) st.
Proof.
  intros Hs. unfold on_check. stray_steps.
  assert (∀ Y st', strays Y st' → Y ⊆ {[key m]} ∪ X → decided_strays (X ∖ {[key m]}) (key m) Drop st') as Hdrop.
  { intros Y st' Hs' HY. eapply strays_mono, strays_drop, Hs'. set_solver. }
  destruct (bool_decide (key m ∈ executing_tx (sch st)) || iset_contains m (deferred_tx (sch st))) eqn:Hig.
  { stray_step. eapply strays_untracked; [exact Hs|].
    apply orb_prop in Hig as [Hig%bool_decide_eq_true|Hig%iset_contains_spec]; [by apply hkeys_executing|].
    by apply (hkeys_deferred m (held _)). }
  destruct (check_failures rep) as [[p r] f]. destruct (p || r || f).
  { apply wlp_bind. apply (wlp_still_strays _ _ _ _ _ Hs); [by destruct p, r, f; still_tac|]. intros reason st1 Hs1.
    stray_step. still_call Hs1. intros _ st2 Hs2.
    stray_step. still_call Hs2. intros _ st3 Hs3.
    stray_step. still_call Hs3. intros _ st4 Hs4.
    stray_step. apply (auction_wlp_remove_checked X); [done|]. intros _ st5 Hs5 _.
    stray_step. by eapply Hdrop. }
  stray_steps. destruct (btree_contains m (checked_tx (sch st))) eqn:Hin.
  { apply btree_contains_spec in Hin.
    assert (strays (X ∖ {[key m]}) st) as Hs0 by by eapply strays_untracked, (hkeys_checked m (held _)).
    stray_step. still_call Hs0. intros _ st1 Hs1.
    stray_step. still_call Hs1. intros _ st2 Hs2. by stray_step. }
  destruct (existsb _ _).
  { stray_step. still_call Hs. intros _ st1 Hs1.
    stray_step. still_call Hs1. intros _ st2 Hs2.
    stray_step. eapply Hdrop; [done|]. set_solver. }
  stray_step. apply (wlp_then held X).
  { apply wlp_when; intros _; [|done]. stray_step.
    apply (auction_wlp_pop_first_checked X); [done|by intros; stray_steps|]. intros id st0 Hs0. stray_steps. simplify_eq.
    apply (wlp_then held X); [by apply auction_wlp_evict_checked|]. intros _ st1 Hs1.
    stray_step. still_call Hs1. intros _ st2 Hs2.
    by still_call Hs2. }
  intros _ st1 Hs1. stray_step. apply (wlp_then held (X ∖ {[key m]})).
  { apply auction_insert_checked_strays. eapply strays_mono, Hs1. intros k Hk. destruct (decide (k = key m)); set_solver. }
  intros _ st2 Hs2. stray_step. still_call Hs2. intros _ st3 Hs3.
  stray_step. still_call Hs3. intros _ st4 Hs4.
  stray_step. still_call Hs4. intros _ st5 Hs5. by stray_step.
Qed.

(** ** Ingest *)

Lemma auction_strays_push_unchecked X m s w :
  strays ({[key m]} ∪ X) (mk s w) → strays X (mk (s <| unchecked_tx ::= heap_push m |>) w).
Proof. intros Hs. eapply strays_put_unchecked, Hs; [reflexivity|]. simpl. by rewrite heap_push_elements. Qed.

Lemma auction_evict_unchecked_strays : keeps_strays evict_unchecked.
Proof.
  intros X [s w] Hs. unfold evict_unchecked. stray_steps. destruct a as [id h']. stray_steps. simpl in *.
  apply heap_pop_min_Some in Ha as [Hh _].
  assert (strays ({[key id]} ∪ X) (mk (s <| unchecked_tx := h' |>) w)) as Hs1
    by (eapply strays_take_unchecked, Hs; [reflexivity|simpl; by rewrite Hh]).
  still_call Hs1. intros _ st2 Hs2. by apply wlp_drop.
Qed.

Lemma auction_on_tpu_strays X k st :
  strays ({[k]} ∪ X) st → wlp (on_tpu k) (decided_strays X k) st.
Proof.
  intros Hs. unfold on_tpu. stray_steps. destruct a0 as [[prio c]|].
  - stray_steps. destruct (should_filter_static _ _).
    + stray_step. still_call Hs. intros _ st1 Hs1.
      apply (wlp_still_decided held _ ({[k]} ∪ X)); [done|still_tac|]. intros st2. apply strays_dropped.
    + stray_steps. destruct st as [s w].
      assert (strays X (mk (s <| unchecked_tx ::= heap_push {| priority := prio; cost := c; key := k |} |>) w)) as Hs1
        by by apply auction_strays_push_unchecked.
      still_call Hs1. intros _ st2 Hs2.
      stray_step. still_call Hs2. intros _ st3 Hs3.
      apply (wlp_still_decided held _ X); [done|still_tac|done].
  - stray_step. still_call Hs. intros _ st1 Hs1.
    apply (wlp_still_decided held _ ({[k]} ∪ X)); [done|still_tac|]. intros st2. apply strays_dropped.
Qed.

Lemma auction_on_packet_strays packet : keeps_strays (on_packet packet).
Proof.
  intros X st Hs. unfold on_packet. stray_step. apply (wlp_insert_transaction held X); [done|by intros; stray_step|].
  intros k st1 Hs1. stray_steps. destruct a0 as [[prio c]|].
  - stray_steps. destruct (should_filter_static _ _).
    + stray_step. still_call Hs1. intros _ st2 Hs2.
      stray_step. still_call Hs2. intros _ st3 Hs3. by apply wlp_drop.
    + stray_step. apply (wlp_then held ({[k]} ∪ X)).
      { apply keeps_strays_when; [|done]. apply keeps_strays_bind; [apply auction_evict_unchecked_strays|]. intros _.
        apply still_keeps. still_tac. }
      intros _ [s2 w2] Hs2. stray_steps.
      apply (auction_strays_push_unchecked X {| priority := prio; cost := c; key := k |}) in Hs2.
      still_call Hs2. intros _ st3 Hs3.
      by still_call Hs3.
  - stray_step. still_call Hs1. intros _ st2 Hs2.
    stray_step. still_call Hs2. intros _ st3 Hs3. by apply wlp_drop.
Qed.

(** ** Bundles *)

Lemma auction_drop_keys_strays X ks st :
  strays (list_to_set ks ∪ X) st → wlp (drop_keys ks) (λ _, strays X) st.
Proof. apply keys_gone_strays. intros. by apply wlp_drop. Qed.

(** The keys of a bundle that is ingested are in transit, those of a refused one gone. *)
Definition ingested X (o : option (list TransactionKey * Z * Z)) st : Prop :=
  match o with Some (ks, _, _) => strays (list_to_set ks ∪ X) st | None => strays X st end.

Lemma auction_refuse_bundle_strays X ks st :
  strays (list_to_set ks ∪ X) st →
  wlp (drop_keys ks ;; increment m_recv_bundle_err 1 ;; mret None) (ingested X) st.
Proof.
  intros Hs. stray_step. apply (wlp_then held X); [by apply auction_drop_keys_strays|]. intros _ st1 Hs1.
  stray_step. still_call Hs1. intros _ st2 Hs2. by stray_step.
Qed.

Lemma auction_ingest_bundle_strays X packets ks total_cost total_reward st :
  strays (list_to_set ks ∪ X) st → wlp (ingest_bundle packets ks total_cost total_reward) (ingested X) st.
Proof.
  revert ks total_cost total_reward st. induction packets as [|packet packets IH]; intros ks c r st Hs; simpl.
  { by stray_step. }
  stray_step. eapply wlp_insert_transaction; [exact Hs|intros st1 Hs1; by apply auction_refuse_bundle_strays|].
  intros k st1 Hs1. stray_steps.
  assert (strays (list_to_set (ks ++ [k]) ∪ X) st1) as Hs2 by (eapply strays_mono, Hs1; set_solver).
  destruct (derive_costs _ _); [|by apply auction_refuse_bundle_strays]. stray_steps.
  match goal with o : option (Z * Z) |- _ => destruct o as [[score cost]|] end; [|by apply auction_refuse_bundle_strays].
  destruct (_ <? _); [by apply auction_refuse_bundle_strays|]. stray_steps. by apply IH.
Qed.

(** [discard_keys]: they leave the queues, too. *)
Lemma auction_discard_keys_strays X ks st :
  strays (list_to_set ks ∪ X) st → wlp (discard_keys ks) (λ _, strays X) st.
Proof.
  apply keys_gone_strays. intros k Y st1 Hs1. stray_step. still_call Hs1. intros _ st2 Hs2. by apply wlp_drop.
Qed.

Lemma auction_evict_bundle_strays : keeps_strays evict_bundle.
Proof.
  intros X [s w] Hs. unfold evict_bundle. stray_steps. destruct a as [b l']. stray_steps. simpl in *.
  apply (wlp_then held X).
  { apply auction_discard_keys_strays. eapply strays_take_bundle, Hs; [reflexivity|by apply btree_pop_first_take]. }
  intros _ st1 Hs1. by still_call Hs1.
Qed.

Lemma auction_on_bundle_strays packets : keeps_strays (on_bundle packets).
Proof.
  intros X st Hs. unfold on_bundle. stray_step.
  eapply wlp_mono; [apply (auction_ingest_bundle_strays X); eapply strays_mono, Hs; set_solver|].
  intros [[[ks c] r]|] st1 Hs1; [|by stray_step]. cbv beta iota in Hs1.
  stray_step. still_call Hs1. intros filtered st2 Hs2. destruct filtered.
  { stray_step. still_call Hs2. intros _ st3 Hs3. by apply auction_drop_keys_strays. }
  stray_steps. still_call Hs2. intros _ st3 Hs3. stray_steps.
  apply (wlp_then held (list_to_set ks ∪ X)); [by apply keeps_strays_when; [apply auction_evict_bundle_strays|]|]. intros _ st4 Hs4.
  stray_step. still_call Hs4. intros _ st5 Hs5.
  stray_step. still_call Hs5. intros _ st5' Hs5'.
  stray_step. still_call Hs5'. intros now [s6 w6] Hs6.
  stray_steps. by eapply (strays_put_bundle held X {| b_priority := _; b_cost := _; received_at := _; keys := ks |}), Hs6.
Qed.

Lemma auction_drop_expired_bundles_strays : keeps_strays drop_expired_bundles.
Proof.
  intros X st Hs. unfold drop_expired_bundles. stray_step. still_call Hs. intros now [s w] Hs1. stray_steps. simpl.
  set (p := is_expired _ _). set (expired := List.filter p (bundles s)).
  assert (strays (bundle_keys expired ∪ X) (mk (s <| bundles := List.filter (λ b, negb (p b)) (bundles s) |>) w)) as Hs2.
  { eapply strays_less; [|exact Hs1]. apply (hkeys_set_bundles (held s)). simpl. intros k.
    rewrite elem_of_union, !elem_of_bundle_keys. intros (b & Hb & Hk).
    destruct (p b) eqn:Hp; [right|left]; exists b; (split; [|done]);
      apply list_elem_of_In, filter_In; rewrite Hp; by apply list_elem_of_In in Hb. }
  stray_steps. apply (wlp_for_each_strays held X bundle_keys); [done|exact Hs2|].
  intros b l [s3 w3] Hs3. stray_steps. simpl.
  assert (strays (list_to_set (keys b) ∪ (bundle_keys l ∪ X))
    (mk (s3 <| bundles ::= λ l, (btree_remove b l).2 |>) w3)) as Hs4.
  { assert (bundle_keys (b :: l) ⊆ list_to_set (keys b) ∪ bundle_keys l) as Hbl by by apply bundle_keys_take.
    eapply strays_mono, (strays_take_bundle held _ b), Hs3; [set_solver|reflexivity|apply btree_remove_take]. }
  still_call Hs4. intros _ st5 Hs5. by apply auction_discard_keys_strays.
Qed.

(** ** The slot roll *)

Lemma auction_drain_deferred_strays : keeps_strays drain_deferred.
Proof.
  intros X [s w] Hs. unfold drain_deferred. stray_steps. simpl.
  destruct (iset_drain_spec (deferred_tx s)) as (d & -> & Hd). stray_steps.
  apply (wlp_for_each_strays held X meta_keys); [done|..].
  - eapply strays_less; [|exact Hs]. apply (hkeys_set_deferred (held s)). simpl. set_solver.
  - intros m l st1 Hs1. apply auction_insert_checked_strays. eapply strays_mono, Hs1.
    assert (meta_keys (m :: l) ⊆ {[key m]} ∪ meta_keys l) by by apply meta_keys_take. set_solver.
Qed.

Lemma auction_become_tip_receiver_strays : keeps_strays become_tip_receiver.
Proof.
  intros X st Hs. unfold become_tip_receiver. stray_steps. destruct (init_tip_distribution _ _ _ _) as [tip_key packet].
  stray_step. apply (wlp_insert_transaction held X); [done|by intros; stray_step; apply wlp_panic|].
  intros k1 st1 Hs1. stray_steps. simplify_eq.
  apply (wlp_insert_transaction held ({[a]} ∪ X)); [done|by intros; stray_step; apply wlp_panic|].
  intros k2 st2 Hs2. stray_steps. simplify_eq.
  still_call Hs2. intros ok st4 Hs4.
  destruct (negb ok).
  { stray_step. apply (wlp_then held ({[a1]} ∪ X)); [apply wlp_drop; eapply strays_mono, Hs4; set_solver|].
    intros _ st5 Hs5. by apply wlp_drop. }
  stray_step. still_call Hs4. intros _ st5 Hs5.
  stray_step. still_call Hs5. intros _ st6 Hs6.
  stray_step. apply (auction_wlp_insert_executing ({[a1]} ∪ X)); [eapply strays_mono, Hs6; set_solver|].
  intros new st7 Hs7. stray_steps. apply (auction_wlp_insert_executing X); [done|]. intros new' st8 Hs8. stray_steps.
  still_call Hs8. intros _ st9 Hs9.
  by still_call Hs9.
Qed.

Lemma auction_still_start_recheck : still held start_recheck.
Proof. unfold start_recheck. still_tac. Qed.

Lemma auction_roll_slot_strays p : keeps_strays (roll_slot p).
Proof.
  unfold roll_slot. apply keeps_strays_bind; [apply still_keeps; still_tac|]. intros e.
  apply keeps_strays_bind; [apply still_keeps; still_tac|]. intros _.
  apply keeps_strays_bind; [apply still_keeps; still_tac|]. intros _.
  apply keeps_strays_bind; [apply auction_drain_deferred_strays|]. intros _. apply still_keeps, auction_still_start_recheck.
Qed.

Lemma auction_check_slot_roll_strays : keeps_strays check_slot_roll.
Proof.
  unfold check_slot_roll.
  apply keeps_strays_bind; [apply still_keeps, still_call, drain_progress_transaction|]. intros o.
  apply keeps_strays_bind; [apply still_keeps; still_tac|]. intros _.
  apply keeps_strays_bind; [apply still_keeps; still_tac|]. intros was_ready.
  apply keeps_strays_bind; [apply still_keeps; still_tac|]. intros p.
  apply keeps_strays_bind; [apply still_keeps; still_tac|]. intros sl.
  apply keeps_strays_bind; [apply keeps_strays_when, auction_roll_slot_strays|]. intros _. apply keeps_strays_when.
  apply keeps_strays_bind; [apply still_keeps; still_tac|]. intros _.
  apply keeps_strays_bind; [apply still_keeps; still_tac|]. intros _. apply auction_become_tip_receiver_strays.
Qed.

(** ** Check requests *)

(** The walk over the checked transactions moves the recheck only. *)
Lemma auction_wlp_recheck_next fuel (Q : option KeyedTransactionMeta → S → Prop) st :
  (∀ o r, Q o (mk ((sch st) <| next_recheck := r |>) (wld st))) → wlp (recheck_next fuel) Q st.
Proof.
  intros HQ. assert (∀ st0 : S, (∃ r, st0 = mk ((sch st) <| next_recheck := r |>) (wld st)) →
    wlp (recheck_next fuel) (λ _ st', ∃ r, st' = mk ((sch st) <| next_recheck := r |>) (wld st)) st0) as Hr.
  { induction fuel as [|fuel IH]; intros st0 [r ->]; simpl; [by stray_step|]. stray_steps. simpl.
    destruct r as [curr|]; [|stray_step; by eexists]. stray_steps.
    destruct (_ : bool); stray_steps; by (apply IH; eexists) || by eexists. }
  eapply wlp_mono; [apply Hr; exists (next_recheck (sch st)); by destruct st as [[]]|].
  intros o st' [r ->]. apply HQ.
Qed.

(** What is popped is in the batch that is built, or was asked for. *)
Definition built X st0 st : Prop := popping X st0 (batch_keys (schedule_batch (sch st))) st.

Lemma auction_pop_next_popping X st0 fuel st :
  built X st0 st →
  wlp (pop_next fuel) (λ o st',
    popping X st0 (match o with Some kt => {[km_key kt]} | None => ∅ end ∪ batch_keys (schedule_batch (sch st'))) st') st.
Proof.
  intros Hp. destruct st as [s w]. unfold pop_next. stray_steps. simpl.
  destruct (heap_pop_max (unchecked_tx s)) as [[m h]|] eqn:Hh.
  - apply heap_pop_max_Some in Hh as [Hh _]. stray_steps. by eapply (popping_pop held).
  - apply auction_wlp_recheck_next. intros o r. simpl.
    apply (popping_more held check_flags X st0 (batch_keys (schedule_batch s))); [apply union_subseteq_r|].
    by eapply popping_same, Hp.
Qed.

Lemma auction_extend_batch_built X st0 fuel n st :
  built X st0 st → wlp (extend_batch fuel n) (λ _, built X st0) st.
Proof.
  revert st. induction n as [|n IH]; intros st Hp; simpl; [by stray_step|].
  apply wlp_bind. eapply wlp_mono; [by apply auction_pop_next_popping|]. intros [kt|] [s w] Hp1; simpl in Hp1; stray_steps.
  - apply IH. unfold built. simpl. rewrite batch_keys_snoc. by eapply popping_same, Hp1.
  - unfold built. by rewrite (left_id_L ∅ (∪)) in Hp1.
Qed.

Lemma auction_schedule_checks_round_popping X st0 fuel st :
  popping X st0 ∅ st → wlp (schedule_checks_round fuel) (λ _, popping X st0 ∅) st.
Proof.
  intros Hp. unfold schedule_checks_round. stray_steps.
  destruct (_ && _); [|by stray_step]. stray_steps.
  eapply wlp_mono; [apply (auction_extend_batch_built X st0); destruct st; by eapply popping_same, Hp|].
  intros [] st1 Hp1. stray_steps. unfold built in Hp1.
  destruct (schedule_batch (sch st1)) as [|kt batch]; [by stray_step|].
  stray_step. apply (wlp_popping_schedule held check_flags X st0); [done|exact Hp1|]. intros st2 Hp2. by stray_step.
Qed.

Lemma auction_schedule_checks_strays X fuel st :
  strays X st → wlp (schedule_checks fuel) (λ _ st', strays (X ∪ first_checks st st') st') st.
Proof.
  intros Hs. unfold schedule_checks. stray_steps.
  apply wlp_mono with (λ _, popping X st ∅).
  { apply (wlp_loop_fuel _ (popping X st ∅)); [by apply popping_start|]. intros st1 Hp1.
    eapply wlp_mono; [by apply auction_schedule_checks_round_popping|]. by intros []. }
  intros _ st1 Hp1. stray_steps. eapply (wlp_popping_increment held check_flags X st ∅); [exact Hp1|].
  intros st2 Hp2. unfold bump. stray_steps. apply (popping_end held check_flags). destruct st2. by eapply popping_same, Hp2.
Qed.

(** ** Execution *)

(** What has left the collections is in the batch. *)
Definition batched X st : Prop := strays (batch_keys (schedule_batch (sch st)) ∪ X) st.

Lemma auction_strays_batched X st : strays X st → batched X st.
Proof. apply strays_mono. set_solver. Qed.

Lemma auction_strays_pop_bundle X b l s w :
  btree_pop_last (bundles s) = Some (b, l) → list_to_set (keys b) ⊆ batch_keys (schedule_batch s) →
  strays X (mk s w) → batched X (mk (s <| bundles := l |>) w).
Proof.
  intros Hl%btree_pop_last_take Hk Hs. eapply strays_less; [|exact Hs]. apply (hkeys_set_bundles (held s)).
  apply bundle_keys_take in Hl. simpl. set_solver.
Qed.

Lemma auction_elem_of_batch_keys_app k l l' : k ∈ batch_keys (l ++ l') ↔ k ∈ batch_keys l ∨ k ∈ km_key <$> l'.
Proof. unfold batch_keys. rewrite !elem_of_list_to_set, fmap_app, elem_of_app. done. Qed.

(** A transaction that is not scheduled stays where it is. *)
Lemma auction_try_schedule_transaction_strays X budget worker st :
  strays X st →
  wlp (try_schedule_transaction budget worker) (λ r st', if r.1 then batched X st' else strays X st') st.
Proof.
  intros Hs. unfold try_schedule_transaction. stray_steps. still_call Hs. intros [tx|] st1 Hs1; [|by stray_step].
  stray_step. still_call Hs1. intros ls st2 Hs2.
  stray_step. still_call Hs2. intros ok st3 Hs3. destruct (negb ok); [by stray_step|].
  stray_step. still_call Hs3. intros _ st4 Hs4.
  stray_steps. set (st5 := mk _ _). assert (strays X st5) as Hs5 by exact Hs4.
  apply (wlp_still_with held X schedule_batch _ _ _ Hs5); [still_tac|]. intros _ s6 w6 Hs6 _ Hb6.
  stray_steps. set (st7 := mk _ _). assert (strays X st7) as Hs7 by exact Hs6.
  apply (auction_wlp_remove_checked X); [done|]. intros removed st8 Hs8 Hb8. stray_steps. cbn [fst].
  eapply strays_mono, Hs8. apply union_mono_r. rewrite Hb8. cbn [st7 sch]. simpl in Hb6. simpl. rewrite Hb6.
  intros k Hk%elem_of_singleton. apply auction_elem_of_batch_keys_app. right. subst k. by left.
Qed.

Lemma auction_km_key_bundle_batch b : km_key <$> bundle_batch b = keys b.
Proof.
  unfold bundle_batch. rewrite fmap_imap. simpl.
  rewrite (imap_ext _ (const id)) by done. rewrite imap_const. apply list_fmap_id.
Qed.

Lemma auction_try_schedule_bundle_strays X budget worker st :
  strays X st → wlp (try_schedule_bundle budget worker) (λ _, batched X) st.
Proof.
  intros Hs. unfold try_schedule_bundle. stray_steps. rename a into b, Ha into Hbundle.
  destruct (_ <? _); [stray_step; by apply auction_strays_batched|].
  stray_step. apply (wlp_still_with held X schedule_batch _ _ _ Hs); [still_tac|]. intros free s1 w1 Hs1 Hh1 _.
  destruct (negb free); [stray_step; by apply auction_strays_batched|].
  stray_step. apply (wlp_still_with held X schedule_batch _ _ _ Hs1); [still_tac|]. intros ok s2 w2 Hs2 Hh2 _.
  destruct (negb ok); [stray_step; by apply auction_strays_batched|].
  stray_steps. cbn [sch wld]. set (st3 := mk _ _). assert (strays X st3) as Hs3 by exact Hs2.
  apply (wlp_still_with held X schedule_batch _ _ _ Hs3); [still_tac|]. intros _ s4 w4 Hs4 Hh4 Hb4.
  stray_steps. cbn [sch wld]. set (st5 := mk _ _). assert (strays X st5) as Hs5 by exact Hs4.
  apply (wlp_still_with held X schedule_batch _ _ _ Hs5); [still_tac|]. intros _ s6 w6 Hs6 Hh6 Hb6.
  stray_steps. destruct a2 as [b' l']. cbn [sch] in Ha2. stray_steps. cbn [sch wld].
  injection Hh1 as _ _ _ _ Hc1. injection Hh2 as _ _ _ _ Hc2. injection Hh4 as _ _ _ _ Hc4. injection Hh6 as _ _ _ _ Hc6.
  simpl in *. apply auction_strays_pop_bundle with (b := b'); [done| |exact Hs6]. rewrite Hb6, Hb4. intros k Hk%elem_of_list_to_set.
  apply auction_elem_of_batch_keys_app. right. rewrite Hc6, Hc4, Hc2, Hc1 in Ha2.
  rewrite auction_km_key_bundle_batch. by rewrite <- (btree_pop_last_inv _ _ _ _ Hbundle Ha2).
Qed.

(** The best transaction, or the best bundle when none can be scheduled. *)
Lemma auction_transaction_or_bundle_strays X budget worker st :
  strays X st →
  wlp (let* ' (scheduled, b) := try_schedule_transaction budget worker in
       if scheduled : bool then mret (false, b)
       else let* b := try_schedule_bundle b worker in mret (false, b))
    (λ (nb : bool * Z) st', if nb.1 then strays X st' else batched X st') st.
Proof.
  intros Hs. stray_step. eapply wlp_mono; [by apply auction_try_schedule_transaction_strays|].
  intros [[] b] st1 Hs1; [by stray_step|]. cbn [fst] in Hs1.
  stray_step. eapply wlp_mono; [by apply auction_try_schedule_bundle_strays|]. intros b' st2 Hs2. by stray_step.
Qed.

Lemma auction_declare_executing_strays X batch st :
  strays (batch_keys batch ∪ X) st → wlp (declare_executing batch) (λ _, strays X) st.
Proof.
  intros Hs. unfold declare_executing.
  apply (wlp_for_each_strays held X batch_keys); [done..|]. intros x l st1 Hs1.
  stray_step. apply (auction_wlp_insert_executing (batch_keys l ∪ X)).
  { eapply strays_mono, Hs1. unfold batch_keys. simpl. set_solver. }
  intros new st2 Hs2. stray_steps. by still_call Hs2.
Qed.

Lemma auction_schedule_execute_worker_strays worker budget : keeps_strays (schedule_execute_worker worker budget).
Proof.
  intros X st Hs. unfold schedule_execute_worker. destruct (budget =? 0); [by stray_step|].
  stray_steps. destruct (negb _); [by stray_step|]. stray_steps.
  set (st1 := mk _ _). assert (strays X st1) as Hs1 by exact Hs.
  apply wlp_mono with (λ (nb : bool * Z) st', if nb.1 then strays X st' else batched X st').
  { destruct (priority <$> _), (b_priority <$> _); [destruct (rcmp _ _)|..].
    1, 3: by apply auction_transaction_or_bundle_strays.
    - stray_step. eapply wlp_mono; [by apply auction_try_schedule_bundle_strays|]. intros b st2 Hs2. by stray_step.
    - stray_step. eapply wlp_mono; [by apply auction_try_schedule_transaction_strays|]. intros [[] b] st2 Hs2; stray_step; [done|].
      by apply auction_strays_batched.
    - stray_step. eapply wlp_mono; [by apply auction_try_schedule_bundle_strays|]. intros b st2 Hs2. by stray_step.
    - by stray_step. }
  intros [none budget'] st2 Hs2. simpl in Hs2. destruct none; [by stray_step|]. stray_steps.
  unfold batched in Hs2. destruct (schedule_batch (sch st2)) as [|kt batch] eqn:Hb.
  { stray_step. eapply strays_mono, Hs2. unfold batch_keys. simpl. set_solver. }
  stray_step. apply (wlp_then held X); [by apply auction_declare_executing_strays|]. intros _ st3 Hs3.
  stray_step. still_call Hs3. intros _ st4 Hs4. by stray_step.
Qed.

(** ** The run of a scheduler

    A state with two sets of keys: [out], those that were sent to the check
    worker for the first time and have not been answered, and [lost], those
    whose first check came back unprocessed.  A step is one handler run to its
    end; [out] grows by what the scheduler handed to the bridge in a check
    request, and a response takes its key out. *)
Abbreviation Run := (gset TransactionKey * gset TransactionKey * S)%type.

Inductive run_step : Run → Run → Prop :=
(** What leaves the collections alone and brings no transaction: the outside,
    settings, metrics. *)
| run_still out lost st s' w' :
    held s' = held (sch st) →
    (∀ k, w_transaction w' k ≠ None → w_transaction (wld st) k ≠ None) →
    run_step (out, lost, st) (out, lost, mk s' w')
| run_unprocessed_execution out lost m st d st' :
    key m ∈ executing_tx (sch st) → on_unprocessed m st = Ok (d, st') →
    run_step (out, lost, st) (out, lost, after_decision (key m) d st')
| run_unprocessed_check out lost m st d st' :
    key m ∉ executing_tx (sch st) → on_unprocessed m st = Ok (d, st') →
    run_step (out, lost, st) (out ∖ {[key m]}, lost ∪ (out ∩ {[key m]}), after_decision (key m) d st')
| run_execute out lost m rep st d st' :
    on_execute m rep st = Ok (d, st') → run_step (out, lost, st) (out, lost, after_decision (key m) d st')
| run_check out lost m rep resolved st d st' :
    on_check m rep resolved st = Ok (d, st') →
    run_step (out, lost, st) (out ∖ {[key m]}, lost, after_decision (key m) d st')
| run_tpu out lost k w st d st' :
    (∀ k', k' ≠ k → w_transaction w k' = w_transaction (wld st) k') →
    on_tpu k (mk (sch st) w) = Ok (d, st') → run_step (out, lost, st) (out, lost, after_decision k d st')
| run_evict out lost st st' : evict_unchecked st = Ok (tt, st') → run_step (out, lost, st) (out, lost, st')
| run_packet out lost packet st st' : on_packet packet st = Ok (tt, st') → run_step (out, lost, st) (out, lost, st')
| run_bundle out lost packets st st' : on_bundle packets st = Ok (tt, st') → run_step (out, lost, st) (out, lost, st')
| run_expire out lost st st' : drop_expired_bundles st = Ok (tt, st') → run_step (out, lost, st) (out, lost, st')
| run_slot out lost st st' : check_slot_roll st = Ok (tt, st') → run_step (out, lost, st) (out, lost, st')
| run_checks out lost fuel st st' :
    schedule_checks fuel st = Ok (tt, st') → run_step (out, lost, st) (out ∪ first_checks st st', lost, st')
| run_start_execution out lost worker budget st r st' :
    schedule_execute_worker worker budget st = Ok (r, st') → run_step (out, lost, st) (out, lost, st').

(** A scheduler that is new, with an empty bridge. *)
Definition run_start (r : Run) : Prop :=
  ∃ evs args w s w',
    (∀ k, w_transaction w' k = None) ∧ new_with_jito evs args w = Ok (s, w') ∧ r = (∅, ∅, mk s w').

Definition run (r : Run) : Prop := ∃ r0, run_start r0 ∧ rtc run_step r0 r.

(** All strays are out or lost. *)
Definition run_strays (r : Run) : Prop := strays (r.1.1 ∪ r.1.2) r.2.

Lemma auction_run_step_strays r r' : run_step r r' → run_strays r → run_strays r'.
Proof.
  unfold run_strays. intros Hstep Hs.
  destruct Hstep as [out lost st s' w' Hc Hw|out lost m st d st' _ Heq|out lost m st d st' _ Heq|out lost m rep st d st' Heq
    |out lost m rep resolved st d st' Heq|out lost k w st d st' Hw Heq|out lost st st' Heq|out lost packet st st' Heq
    |out lost packets st st' Heq|out lost st st' Heq|out lost st st' Heq|out lost fuel st st' Heq
    |out lost worker budget st r st' Heq]; simpl in *.
  - destruct st as [s w]. eapply strays_change; [exact Hs|exact Hw|]. simpl in *. by rewrite Hc.
  - by eapply auction_on_unprocessed_strays.
  - eapply strays_mono; [|by eapply auction_on_unprocessed_strays]. intros k Hk. destruct (decide (k = key m)); set_solver.
  - by eapply auction_on_execute_strays.
  - eapply strays_mono; [|by eapply auction_on_check_strays]. set_solver.
  - eapply auction_on_tpu_strays; [|exact Heq]. intros k' Hk'. simpl in *.
    destruct (decide (k' = k)) as [->|Hne]; [set_solver|]. rewrite Hw in Hk' by done.
    specialize (Hs k' Hk'). set_solver.
  - by eapply auction_evict_unchecked_strays.
  - by eapply auction_on_packet_strays.
  - by eapply auction_on_bundle_strays.
  - by eapply auction_drop_expired_bundles_strays.
  - by eapply auction_check_slot_roll_strays.
  - eapply strays_mono; [|by eapply auction_schedule_checks_strays]. set_solver.
  - by eapply auction_schedule_execute_worker_strays.
Qed.

Lemma auction_run_no_strays r : run r → run_strays r.
Proof.
  intros (r0 & (evs & args & w & s & w' & Hw & _ & ->) & Hsteps).
  assert (run_strays (∅, ∅, mk s w')) as Hs by (intros k Hk; by rewrite Hw in Hk).
  revert Hs. induction Hsteps as [|r1 r2 r3 Hstep _ IH]; [done|]. intros Hs. by eapply IH, auction_run_step_strays.
Qed.

(** A first check that comes back unprocessed is forgotten: nothing happens, and
    no collection has the transaction. *)
Lemma auction_unprocessed_check_forgotten m st :
  key m ∉ executing_tx (sch st) → on_unprocessed m st = Ok (Keep, st).
Proof.
  intros Hk. destruct st as [s w]. simpl in Hk. unfold on_unprocessed, remove_executing. simpl.
  unfold bindM, self, gets, update, modify. simpl. rewrite bool_decide_eq_false_2 by done. simpl.
  assert (executing_tx s ∖ {[key m]} = executing_tx s) as -> by set_solver. by destruct s.
Qed.

(** ** A poll is such a run *)

(** The states that the run from [r] leads to. *)
Definition reached (r : Run) st : Prop := ∃ out lost, rtc run_step r (out, lost, st).

Lemma auction_reached_still r st s' w' :
  reached r st → held s' = held (sch st) → w_transaction w' = w_transaction (wld st) →
  reached r (mk s' w').
Proof.
  intros (out & lost & Hr) Hc Hw. exists out, lost. eapply rtc_r; [exact Hr|]. apply run_still; [done|].
  intros k. by rewrite Hw.
Qed.

Abbreviation covered r := (Histories.covered (reached r)).

Lemma auction_covered_step {A} r (m : M S A) :
  (∀ out lost st a st', m st = Ok (a, st') → ∃ out' lost', run_step (out, lost, st) (out', lost', st')) → covered r m.
Proof.
  intros Hm st (out & lost & Hr) a st' Heq. destruct (Hm out lost st a st' Heq) as (out' & lost' & Hstep).
  exists out', lost'. by eapply rtc_r.
Qed.

Lemma auction_covered_schedule_checks r fuel : covered r (schedule_checks fuel).
Proof. apply auction_covered_step. intros out lost st [] st' Heq. eexists _, _. by eapply run_checks. Qed.

Lemma auction_covered_worker r worker budget : covered r (schedule_execute_worker worker budget).
Proof. apply auction_covered_step. intros out lost st b st' Heq. eexists _, _. by eapply run_start_execution. Qed.

Lemma auction_covered_evict_unchecked r : covered r evict_unchecked.
Proof. apply auction_covered_step. intros out lost st [] st' Heq. eexists _, _. by apply run_evict. Qed.

Lemma auction_covered_on_packet r packet : covered r (on_packet packet).
Proof. apply auction_covered_step. intros out lost st [] st' Heq. eexists _, _. by eapply run_packet. Qed.

Lemma auction_covered_on_bundle r packets : covered r (on_bundle packets).
Proof. apply auction_covered_step. intros out lost st [] st' Heq. eexists _, _. by eapply run_bundle. Qed.

Lemma auction_covered_drop_expired_bundles r : covered r drop_expired_bundles.
Proof. apply auction_covered_step. intros out lost st [] st' Heq. eexists _, _. by apply run_expire. Qed.

Lemma auction_covered_check_slot_roll r : covered r check_slot_roll.
Proof. apply auction_covered_step. intros out lost st [] st' Heq. eexists _, _. by apply run_slot. Qed.
#[local] Hint Resolve auction_covered_schedule_checks auction_covered_worker : covered.
#[local] Hint Resolve auction_covered_evict_unchecked auction_covered_on_packet : covered.
#[local] Hint Resolve auction_covered_on_bundle auction_covered_drop_expired_bundles : covered.
#[local] Hint Resolve auction_covered_check_slot_roll : covered.

Context `{!Pending W} `{!PendingLaws W} `{!AgaveBindingsLaws}.

Lemma auction_reached_response r0 r st d st' :
  on_response r st = Ok (d, st') → reached r0 st → reached r0 (after_decision (key (wr_meta r)) d st').
Proof.
  unfold on_response. intros Heq (out & lost & Hr). destruct (wr_response r).
  - destruct (decide (key (wr_meta r) ∈ executing_tx (sch st))) as [Hk|Hk]; eexists _, _;
      (eapply rtc_r; [exact Hr|]); [by eapply run_unprocessed_execution|by eapply run_unprocessed_check].
  - eexists _, _. eapply rtc_r; [exact Hr|]. by eapply run_check.
  - eexists _, _. eapply rtc_r; [exact Hr|]. by eapply run_execute.
Qed.

Lemma auction_covered_responses r0 i : covered r0 (w_drain_worker i on_response).
Proof. apply (covered_drain_worker held _ (auction_reached_still r0)). apply auction_reached_response. Qed.

Lemma auction_covered_tpu r0 n : covered r0 (w_drain_tpu on_tpu n).
Proof.
  apply (covered_drain_tpu_calls held _ (auction_reached_still r0)). intros k w st d st' Hw Heq (out & lost & Hr).
  exists out, lost. eapply rtc_r; [exact Hr|]. by eapply run_tpu.
Qed.
#[local] Hint Resolve auction_covered_responses auction_covered_tpu : covered.
#[local] Hint Resolve auction_still_start_recheck jito_try_recv_transaction : still.

(** What a poll does is a run of its handlers. *)
Lemma auction_poll_covered r0 fuel : covered r0 (poll fuel).
Proof.
  unfold poll, drain_worker_responses, drain_tpu, drain_jito, drain_jito_round, schedule_execute, update_metrics.
  covered_tac (auction_reached_still r0).
Qed.

(** C8: no transaction is lost but by a first check that comes back unprocessed.
    Whatever the scheduler did, every transaction in the bridge is waiting,
    checked, deferred or executing, is part of a bundle, was handed to the check
    worker in a request that has not been answered, or is one whose first check
    came back unprocessed.  And a poll whose surroundings are in order
    ([poll_ready]) ends, having done nothing but such steps. *)
Theorem auction_no_transaction_lost out lost st :
  run (out, lost, st) →
  (∀ k, w_transaction (wld st) k ≠ None →
     (∃ m, m ∈ heap_elements (unchecked_tx (sch st)) ∧ key m = k) ∨
     (∃ m, m ∈ checked_tx (sch st) ∧ key m = k) ∨
     (∃ m, m ∈ iset_elements (deferred_tx (sch st)) ∧ key m = k) ∨
     k ∈ executing_tx (sch st) ∨ (∃ b, b ∈ bundles (sch st) ∧ k ∈ keys b) ∨ k ∈ out ∨ k ∈ lost) ∧
  (∀ O, poll_ready O st →
     eventually poll_panic poll (λ _ st', ∃ out' lost', rtc run_step (out, lost, st) (out', lost', st')) st).
Proof.
  intros Hr. split.
  - intros k Hk. apply (auction_run_no_strays _ Hr) in Hk. cbn [fst snd] in Hk.
    apply elem_of_union in Hk as [Hk%elem_of_hkeys|Hk%elem_of_union]; simpl in *; tauto.
  - intros O [n Hn]%auction_poll_ok. exists n. intros fuel Hfuel. eapply wp_mono; [by apply wp_run, Hn|].
    intros [] st' [Heq _]. by eapply auction_poll_covered; [exists out, lost|].
Qed.
End AuctionLeaks.
