(* ===== verification/ReplayBench.v ===== *)
(** * The replay benchmark (external-scheduler/benches/replay_bench.rs)

    The replay of the slots of [ReplayLog] through a scheduler: the transactions
    of a tick are queued, the progress of the slot is announced, and the
    scheduler is polled with its batches answered at once.  The scheduler is the
    [poll] of the trait [SchedulerExt]; a deserialized transaction is its
    signatures and its serialization. *)

From S2P Require Import Prelude F64 BTreeSet Types Events Externals RustString TipProgram Costs Common.
From S2P Require Import TestBridge ReplayLog BatchScheduler AuctionLocks AuctionEngine AuctionScheduler.
From Stdlib Require Import Ascii.
#[local] Open Scope list_scope.
#[local] Open Scope Z_scope.

Record VersionedTransaction := { vt_signatures : list u8s; vt_bytes : u8s }.

(** ** Synthetic congestion *)

(** The first four bytes of the only signature are replaced. *)
Definition synth_bytes (i : Z) (bytes : u8s) : u8s :=
  match bytes with
  | 1 :: rest => if (5 <? length bytes)%nat then 1 :: to_le_bytes 4 i ++ drop 4 rest else bytes
  | _ => bytes
  end.

(** [format!("synth_{}", i)]. *)
Definition synth_entry (name : Z → string) (base_ts : Z) (template : TxInEntry) (i : Z) : TxInEntry := {|
  timestamp_ns := base_ts + i * 1000;
  tx_bytes := synth_bytes i (tx_bytes template);
  signature := ("synth_" +:+ name i)%string;
|}.

Section Synthetic.
Context `{Profile} (base64_decode : string → option u8s).
Context (name : Z → string) (deserialize_tx : u8s → option VersionedTransaction).

(** The first entry that deserializes, or else the first. *)
Definition template_of (es : list TxInEntry) (e0 : TxInEntry) : TxInEntry :=
  default e0 (snd <$> list_find (λ e, is_Some (deserialize_tx (tx_bytes e))) es).

(** [new_entries]: a microsecond apart, from 100 ms after the template. *)
Definition synthetic_entries (template : TxInEntry) : list TxInEntry :=
  let base_ts := timestamp_ns template + 100000000 in
  (λ i, synth_entry name base_ts template (Z.of_nat i)) <$> seq 0 3000.

Definition inject_synthetic (log : Log) : Log :=
  match log_entries log with
  | [] => log
  | e0 :: _ =>
      let new_entries := synthetic_entries (template_of (log_entries log) e0) in
      {| log_entries := sort_by_key timestamp_ns (log_entries log ++ new_entries);
         dropped_on_receive := dropped_on_receive log;
         mainnet_processed := list_to_set (signature <$> new_entries) ∪ mainnet_processed log |}
  end.

(** What [main] replays: [None] where it gives up, on a log without arrivals. *)
Definition load_windows (contents : option string) : Res (option (Log * list LeaderWindow)) :=
  log ← parse_log base64_decode contents;
  match log_entries log with
  | [] => mret None
  | _ :: _ =>
      let log := inject_synthetic log in
      windows ← segment_into_windows (log_entries log);
      mret (Some (log, windows))
  end.
End Synthetic.

(** ** One slot *)

Section ReplayWindow.
Context `{Profile} `{AgaveBindings} `{TestBindings} `{World W} `{!AgaveSession W} {D : Type}.
Context (fuel : nat) (poll : M (St D W) unit) (deserialize_tx : u8s → option VersionedTransaction).
Abbreviation S := (St D W).

Definition bench_progress : ProgressMessage := {|
  leader_state := NOT_LEADER;
  current_slot := 100;
  next_leader_slot := 101;
  remaining_cost_units := BLOCK_CU_BUDGET;
  current_slot_progress := 0;
|}.

Record Tally := { packed : Z; revenue : Z; batches : Z; packed_signatures : gset string }.

Definition no_tally : Tally := {| packed := 0; revenue := 0; batches := 0; packed_signatures := ∅ |}.

(** One transaction of a batch is answered and counted. *)
Definition on_executed (fee_lookup : gmap string Z) (batch : ScheduleBatch) (i : nat) (t : Tally) : M S Tally :=
  let* rep := execute_ok in
  queue_execute_response batch i rep ;;
  let* packed := of_res (u64_add "total_packed" (packed t) 1) in
  let* meta := unwrap "batch.transactions[i]" (sb_transactions batch !! i) in
  let* tx_data := transaction (km_key meta) in
  let* sig := unwrap "signatures()[0]" (tv_signatures (data tx_data) !! 0%nat) in
  let sig_str := signature_to_string sig in
  let* revenue := of_res (u64_add "total_revenue" (revenue t) (default 0 (fee_lookup !! sig_str))) in
  mret {| packed := packed; revenue := revenue; batches := batches t;
          packed_signatures := {[sig_str]} ∪ packed_signatures t |}.

Fixpoint fold_m {A B} (f : B → A → M S A) (l : list B) (a : A) : M S A :=
  match l with
  | [] => mret a
  | x :: l' => let* a' := f x a in fold_m f l' a'
  end.

Definition on_scheduled (fee_lookup : gmap string Z) (batch : ScheduleBatch) (t : Tally) : M S Tally :=
  if Z.land (sb_flags batch) 1 =? 0 then
    queue_checks_ok batch ;;
    mret t
  else
    let* batches := of_res (u64_add "total_batches" (batches t) 1) in
    fold_m (on_executed fee_lookup batch) (seq 0 (length (sb_transactions batch)))
      {| packed := packed t; revenue := revenue t; batches := batches;
         packed_signatures := packed_signatures t |}.

(** [while let Some(batch) = bridge.pop_schedule()]: whether there was one. *)
Fixpoint answer_all (fuel : nat) (fee_lookup : gmap string Z) (scheduled_any : bool) (t : Tally)
    : M S (bool * Tally) :=
  match fuel with
  | O => hang
  | Datatypes.S fuel' =>
      let* batch := pop_schedule in
      match batch with
      | None => mret (scheduled_any, t)
      | Some batch =>
          let* t' := on_scheduled fee_lookup batch t in
          answer_all fuel' fee_lookup true t'
      end
  end.

(** The rounds of a tick, ten at most; a batch that the last look at the queue
    finds is lost. *)
Fixpoint settle (rounds : nat) (fee_lookup : gmap string Z) (t : Tally) : M S Tally :=
  match rounds with
  | O => mret t
  | Datatypes.S rounds' =>
      let* ' (scheduled_any, t') := answer_all fuel fee_lookup false t in
      poll ;;
      if scheduled_any : bool then settle rounds' fee_lookup t'
      else
        poll ;;
        let* batch := pop_schedule in
        match batch with
        | None => mret t'
        | Some _ => settle rounds' fee_lookup t'
        end
  end.

(** The transactions of a tick go to the TPU, but for those that the validator
    dropped; the count of those that did. *)
Definition queue_entry (window : LeaderWindow) (dropped : gset string) (idx : nat) (total_tx_in : Z) : M S Z :=
  let* entry := unwrap "window.entries[entry_idx]" (entries window !! idx) in
  if bool_decide (signature entry ∈ dropped) then mret total_tx_in
  else
    match deserialize_tx (tx_bytes entry) with
    | None => mret total_tx_in
    | Some tx => queue_tpu (vt_bytes tx) ;; of_res (u64_add "total_tx_in" total_tx_in 1)
    end.

Definition tick_progress (slot_base : Z) (tick : nat) : ProgressMessage :=
  let current_slot := slot_base + Z.of_nat tick / TICKS_PER_SLOT in
  {| leader_state := LEADER_READY;
     current_slot := current_slot;
     next_leader_slot := current_slot + 1;
     remaining_cost_units := BLOCK_CU_BUDGET;
     current_slot_progress := Z.of_nat tick mod TICKS_PER_SLOT * 100 / TICKS_PER_SLOT |}.

Definition replay_tick (window : LeaderWindow) (slot_base : Z) (dropped : gset string) (fee_lookup : gmap string Z)
    (tick_bucket : nat * list nat) (acc : Z * Tally) : M S (Z * Tally) :=
  let '(tick, bucket) := tick_bucket in
  let '(total_tx_in, t) := acc in
  let* total_tx_in := fold_m (queue_entry window dropped) bucket total_tx_in in
  queue_progress (tick_progress slot_base tick) ;;
  let* t := settle 10 fee_lookup t in
  mret (total_tx_in, t).

(** The fees by the signature in the log. *)
Definition fees_of (es : list TxInEntry) : gmap string Z :=
  foldl (λ fees e, match deserialize_tx (tx_bytes e) with
                   | Some tx => <[signature e := extract_fee_lamports (vt_signatures tx)]> fees
                   | None => fees
                   end) ∅ es.

Definition replay_window (window : LeaderWindow) (slot_base : Z) (dropped processed : gset string) : M S BenchReport :=
  let fee_lookup := fees_of (entries window) in
  let* ' (total_ticks, tick_buckets) := of_res (assign_ticks_real window) in
  (* A dummy pre-poll to allow the scheduler to initialize. *)
  queue_progress {| leader_state := NOT_LEADER;
                    current_slot := saturating_sub slot_base 1;
                    next_leader_slot := next_leader_slot bench_progress;
                    remaining_cost_units := remaining_cost_units bench_progress;
                    current_slot_progress := current_slot_progress bench_progress |} ;;
  poll ;;
  let* ' (total_tx_in, t) := fold_m (replay_tick window slot_base dropped fee_lookup)
                              (imap pair tick_buckets) (0, no_tally) in
  mret {|
    total_packed := packed t;
    total_dropped := saturating_sub total_tx_in (packed t);
    total_revenue_lamports := revenue t;
    total_batches := batches t;
    total_tx_in := total_tx_in;
    total_windows := 1;
    avg_batch_size := f64_zero;
    packed_mainnet_processed := Z.of_nat (size (packed_signatures t ∩ processed));
    total_mainnet_processed := Z.of_nat (length (filter (λ e, signature e ∈ processed) (entries window)));
  |}.

Lemma answer_none f fee_lookup b t st st0 :
  (0 < f)%nat → pop_schedule st = Ok (None, st0) → answer_all f fee_lookup b t st = Ok ((b, t), st0).
Proof. intros Hf Hn. destruct f; [lia|]. simpl. unfold bindM. by rewrite Hn. Qed.

(** A tick that begins with nothing to answer loses a batch: when the two
    polls of its first round schedule something, the look at the queue that
    decides whether to go on takes the first batch out, and the rest of the
    tick goes on as if it had never been scheduled. *)
Lemma settle_loses_batch rounds fee_lookup t st st0 st1 st2 st3 batch :
  pop_schedule st = Ok (None, st0) →
  poll st0 = Ok (tt, st1) →
  poll st1 = Ok (tt, st2) →
  pop_schedule st2 = Ok (Some batch, st3) →
  (0 < fuel)%nat →
  settle (Datatypes.S rounds) fee_lookup t st = settle rounds fee_lookup t st3.
Proof.
  intros Hn H1' H2' Hb Hf. cbn [settle]. unfold bindM.
  by rewrite (answer_none _ _ _ _ _ _ Hf Hn), H1', H2', Hb.
Qed.
End ReplayWindow.

(** ** All slots *)

Section ReplayAll.
Context `{Profile} `{AgaveBindings} `{TestBindings} `{World W} `{!AgaveSession W} {D : Type}.
Context (fuel : nat) (poll : M (St D W) unit) (deserialize_tx : u8s → option VersionedTransaction).
(** [make_scheduler] with the bridge: both are new for every slot. *)
Context (make_scheduler : Res (D * W)).

Definition BenchReport_default : BenchReport := {|
  total_packed := 0; total_dropped := 0; total_revenue_lamports := 0; total_batches := 0; total_tx_in := 0;
  total_windows := 0; avg_batch_size := f64_zero; packed_mainnet_processed := 0; total_mainnet_processed := 0 |}.

Definition add_report (report partial : BenchReport) : Res BenchReport :=
  packed ← u64_add "total_packed" (total_packed report) (total_packed partial);
  dropped ← u64_add "total_dropped" (total_dropped report) (total_dropped partial);
  revenue ← u64_add "total_revenue_lamports" (total_revenue_lamports report) (total_revenue_lamports partial);
  batches ← u64_add "total_batches" (total_batches report) (total_batches partial);
  tx_in ← u64_add "total_tx_in" (total_tx_in report) (total_tx_in partial);
  packed_processed ← u64_add "packed_mainnet_processed"
    (packed_mainnet_processed report) (packed_mainnet_processed partial);
  processed ← u64_add "total_mainnet_processed"
    (total_mainnet_processed report) (total_mainnet_processed partial);
  mret {|
    total_packed := packed; total_dropped := dropped; total_revenue_lamports := revenue;
    total_batches := batches; total_tx_in := tx_in; total_windows := total_windows report;
    avg_batch_size := avg_batch_size report; packed_mainnet_processed := packed_processed;
    total_mainnet_processed := processed |}.

Definition replay_slot (dropped processed : gset string) (acc : BenchReport * Z) (slot : LeaderWindow)
    : Res (BenchReport * Z) :=
  let '(report, slot_base) := acc in
  '(s, w) ← make_scheduler;
  '(partial, _) ← replay_window fuel poll deserialize_tx slot slot_base dropped processed (mk s w);
  report ← add_report report partial;
  slot_base ← u64_add "current_slot_base" slot_base 1;
  mret (report, slot_base).

Definition replay_leader_window (dropped processed : gset string) (acc : BenchReport * Z) (window : LeaderWindow)
    : Res (BenchReport * Z) :=
  slots ← segment_window_into_slots window;
  '(report, slot_base) ← fold_res (replay_slot dropped processed) acc slots;
  windows ← u64_add "total_windows" (total_windows report) 1;
  slot_base ← u64_add "current_slot_base" slot_base 10;
  mret (report <| total_windows := windows |>, slot_base).

Definition replay_all (windows : list LeaderWindow) (dropped processed : gset string) : Res BenchReport :=
  '(report, _) ← fold_res (replay_leader_window dropped processed) (BenchReport_default, 100) windows;
  mret (finalize report).
End ReplayAll.

(** ** The schedulers *)

Section MakeSchedulers.
Context `{Profile} `{AgaveBindings} `{TestBindings} `{World W} `{!AgaveSession W} `{LibM} `{HashMapOrder}.
Context {Heap DSet : Type} `{MinMaxHeap Heap PriorityId} `{IndexSet DSet PriorityId}.

(** The channel, with its first two messages, and the bridge. *)
Definition bench_world (w : W) : W :=
  let '(builder, w) := pubkey_new_unique w in
  let w := jito_send (JBuilderConfig {| builder_key := builder; commission := 0 |}) w in
  let '(receiver, w) := pubkey_new_unique w in
  let '(block_builder, w) := pubkey_new_unique w in
  jito_send (JTipConfig {| tip_receiver := receiver; block_builder := block_builder |}) w.

Definition bench_runtime : RuntimeConfig :=
  RuntimeConfig_default <| bundle_expiry := from_secs 100 |> <| progress_timeout := from_secs 100 |>.

Definition make_batch_scheduler : Res (BatchScheduler Heap DSet * W) :=
  let w := bench_world (session_new 5 4) in
  let '(vote_account, w) := pubkey_new_unique w in
  let '(merkle_authority, w) := pubkey_new_unique w in
  let '(keypair, w) := keypair_new w in
  BatchScheduler.new_with_jito None {|
    BatchScheduler.args_tip :=
      {| vote_account := vote_account; merkle_authority := merkle_authority; commission_bps := 0 |};
    BatchScheduler.args_keypair := keypair;
    BatchScheduler.args_filter_keys := ∅;
    BatchScheduler.args_unchecked_capacity := Z.to_nat 65536;
    BatchScheduler.args_checked_capacity := Z.to_nat 65536;
    BatchScheduler.args_bundle_capacity := Z.to_nat 1024;
    BatchScheduler.args_runtime := bench_runtime;
  |} w.

Definition make_auction_scheduler : Res (AuctionBatchScheduler Heap DSet * W) :=
  let w := bench_world (session_new 5 4) in
  let '(vote_account, w) := pubkey_new_unique w in
  let '(merkle_authority, w) := pubkey_new_unique w in
  let '(keypair, w) := keypair_new w in
  '(s, w) ← AuctionScheduler.new_with_jito None {|
    args_tip := {| vote_account := vote_account; merkle_authority := merkle_authority; commission_bps := 0 |};
    args_keypair := keypair;
    args_filter_keys := ∅;
    args_unchecked_capacity := Z.to_nat 65536;
    args_checked_capacity := Z.to_nat 65536;
    args_bundle_capacity := Z.to_nat 1024;
    args_runtime := bench_runtime;
    args_scoring := AuctionBatchConfig_default;
  |} w;
  mret (update_base_prices (f64_lit 1 1000) (f64_of_Z 10) f64_one (f64_of_Z 10) (f64_of_Z 10) s, w).
End MakeSchedulers.
