(* ===== verification/ReplayLayout.v ===== *)
(** * What the replay benchmark replays

    From the log to the ticks: the log is parsed, synthetic transactions are
    injected, and what [main] then replays is cut into windows, slots and
    ticks. *)

From stdpp Require Import sorting.
From S2P Require Import Prelude RustString Types ReplayLog ReplaySegments ReplayParse ReplayBench.
#[local] Open Scope list_scope.
#[local] Open Scope Z_scope.

Section Layout.
Context `{Profile}.

(** A slot is replayed within the ticks of one slot. *)
Definition replayed_slot (s : LeaderWindow) : Prop :=
  ∃ e total buckets, hd_error (entries s) = Some e ∧ assign_ticks_real s = Ok (total, buckets) ∧
    1 ≤ total ≤ TICKS_PER_SLOT ∧ ticks_of (entries s) (timestamp_ns e) total buckets.

Definition replayed_window (w : LeaderWindow) : Prop :=
  ∃ e slots, hd_error (entries w) = Some e ∧ segment_window_into_slots w = Ok slots ∧
    slot_groups (timestamp_ns e) (entries w) (entries <$> slots) ∧
    Forall (λ s, covers s ∧ replayed_slot s) slots.

Lemma covers_replayed s : arrivals (entries s) → entries s ≠ [] → covers s → replayed_slot s.
Proof.
  intros Ha Hne [[Hd1 Hd] Hext]. destruct (entries s) as [|e es] eqn:He; [done|].
  destruct (assign_ticks_real_ok s e) as (buckets & Heq & Hticks).
  - by rewrite He.
  - by rewrite He.
  - intros x Hx. apply Hext; rewrite He in *; [by left|done].
  - apply Z.div_lt_upper_bound; [done|]. unfold slot_ns, tick_ns in *. lia.
  - exists e, (Z.max (duration_ns s / tick_ns) 1), buckets. rewrite He in *. split_and!; try done; [lia|].
    assert (duration_ns s / tick_ns ≤ 64); [|unfold TICKS_PER_SLOT; lia].
    apply Z.div_le_upper_bound; [done|]. unfold slot_ns, tick_ns in *. lia.
Qed.

Lemma arrivals_group gs g : arrivals (concat gs) → g ∈ gs → arrivals g.
Proof.
  intros Ha (l & k & ->)%list_elem_of_split. rewrite concat_app in Ha. apply arrivals_app in Ha as [_ Ha].
  simpl in Ha. by apply arrivals_app in Ha as [Ha _].
Qed.

Lemma well_formed_replayed w : well_formed w → replayed_window w.
Proof.
  intros Hw. destruct (segment_window_into_slots_ok w Hw) as (e & slots & He & Heq & Hg & Hcov).
  exists e, slots. split_and!; [done..|]. destruct Hg as (Hc & Hne & _).
  rewrite Forall_forall in Hcov. apply Forall_forall. intros s Hs. split; [by apply Hcov|].
  assert (entries s ∈ entries <$> slots) as Hin by (apply list_elem_of_fmap; by exists s).
  apply covers_replayed; [|by rewrite Forall_forall in Hne; apply Hne|by apply Hcov].
  apply (arrivals_group (entries <$> slots)); [|done]. rewrite Hc. apply Hw.
Qed.

(** Transactions in the order of their arrival are laid out. *)
Lemma layout_ok es :
  arrivals es → (∀ a b, a ∈ es → b ∈ es → timestamp_ns b - timestamp_ns a < 2 ^ 64 * slot_ns) →
  ∃ windows, segment_into_windows es = Ok windows ∧ window_groups es (entries <$> windows) ∧
    Forall (λ w, spans w ∧ replayed_window w) windows.
Proof.
  intros Ha Hshort. destruct (segment_into_windows_ok _ Ha) as (ws & Heq & Hg & Hsp).
  exists ws. split_and!; [done..|]. destruct Hg as (Hc & Hne & _).
  rewrite Forall_forall in Hsp. apply Forall_forall. intros w Hw. split; [by apply Hsp|].
  assert (entries w ∈ entries <$> ws) as Hin by (apply list_elem_of_fmap; by exists w).
  assert (∀ x, x ∈ entries w → x ∈ es) as Hsub.
  { intros x Hx. rewrite <- Hc. apply elem_of_concat. by exists (entries w). }
  apply well_formed_replayed. split; [by apply (arrivals_group (entries <$> ws)); [rewrite Hc|]|by apply Hsp|].
  destruct (Hsp w Hw) as (a & b & Hh & Hl & ->). apply Z.div_lt_upper_bound; [done|].
  rewrite Z.mul_comm. apply Hshort; apply Hsub.
  - destruct (entries w); [done|]. injection Hh as ->. by left.
  - apply last_Some in Hl as (k & ->). apply elem_of_app. right. by left.
Qed.

(** ** With the synthetic transactions *)

Context (base64_decode : string → option u8s).
Context (name : Z → string) (deserialize_tx : u8s → option VersionedTransaction).

Lemma template_of_in es e0 : e0 ∈ es → template_of deserialize_tx es e0 ∈ es.
Proof.
  intros He. unfold template_of. destruct (list_find _ es) as [[i e]|] eqn:Hf; [|done]. simpl.
  apply list_find_Some in Hf as (Hi & _ & _). by eapply list_elem_of_lookup_2.
Qed.

Lemma synthetic_times template e :
  e ∈ synthetic_entries name template →
  timestamp_ns template + 100000000 ≤ timestamp_ns e < timestamp_ns template + 103000000.
Proof. intros (i & -> & Hi%elem_of_seq)%list_elem_of_fmap. simpl. lia. Qed.

#[local] Opaque synthetic_entries.

(** The entries that are replayed: those of the log and the synthetic ones, in
    the order of their times. *)
Lemma injected_arrivals log template :
  Forall (λ e, is_stamp (timestamp_ns e)) (log_entries log) → template ∈ log_entries log →
  arrivals (sort_by_key timestamp_ns (log_entries log ++ synthetic_entries name template)).
Proof.
  intros Hr Ht. split; [apply sort_by_key_sorted|]. rewrite sort_by_key_Permutation. apply Forall_app.
  rewrite Forall_forall in Hr. split; apply Forall_forall.
  - intros e He. specialize (Hr e He). unfold is_stamp, is_u128 in *. lia.
  - intros e He%synthetic_times. specialize (Hr _ Ht). unfold is_stamp, is_u128 in *. lia.
Qed.

Lemma injected_short es template a b :
  (∀ a b, a ∈ es → b ∈ es → timestamp_ns b - timestamp_ns a < 2 ^ 63 * slot_ns) → template ∈ es →
  a ∈ es ++ synthetic_entries name template → b ∈ es ++ synthetic_entries name template →
  timestamp_ns b - timestamp_ns a < 2 ^ 64 * slot_ns.
Proof.
  intros Hes Ht. assert (∀ x, x ∈ es ++ synthetic_entries name template →
    ∃ y, y ∈ es ∧ 0 ≤ timestamp_ns x - timestamp_ns y < 103000000) as Hnear.
  { intros x [Hx|Hx%synthetic_times]%elem_of_app; [exists x|exists template]; (split; [done|lia]). }
  intros (a' & Ha & Ha')%Hnear (b' & Hb & Hb')%Hnear. pose proof (Hes a' b' Ha Hb). unfold slot_ns in *. lia.
Qed.

(** C34: What [main] makes of a log before it replays it.  If the log parses,
    has an arrival, and spans less than 2^63 slots, then it is replayed with the
    synthetic transactions that imitate one of its own, all in the order of
    their times, none lost; and the layout does not panic.  The leader windows
    partition these transactions: neighbours in a window are less than five
    seconds apart, the last of a window and the first of the next at least five.
    The slots partition a window by the 400 ms in which its transactions
    arrived.  The ticks partition a slot by the 6.25 ms; a slot has at most 64
    of them, so it is replayed under one slot number.  A log that does not parse
    could not be read or has a timestamp with a number that overflows. *)
Theorem replay_layout contents :
  match parse_log base64_decode contents with
  | Ok log =>
      log_entries log ≠ [] →
      (∀ a b, a ∈ log_entries log → b ∈ log_entries log → timestamp_ns b - timestamp_ns a < 2 ^ 63 * slot_ns) →
      ∃ log' windows, load_windows base64_decode name deserialize_tx contents = Ok (Some (log', windows)) ∧
        (∃ template, template ∈ log_entries log ∧
           log_entries log' ≡ₚ log_entries log ++ synthetic_entries name template) ∧
        StronglySorted arrives_before (log_entries log') ∧
        window_groups (log_entries log') (entries <$> windows) ∧
        Forall (λ w, spans w ∧ replayed_window w) windows
  | Panicked p => contents = None ∨ ∃ site, p = POverflow site
  | Hang => False
  end.
Proof.
  destruct (parse_log base64_decode contents) as [log|p|] eqn:Hlog.
  - intros Hne Hshort. destruct (parse_log_range _ _ _ Hlog) as [_ Hr]. unfold load_windows. rewrite Hlog. simpl.
    unfold inject_synthetic. destruct (log_entries log) as [|e0 es] eqn:Hes; [done|]. rewrite <- Hes in *.
    set (template := template_of deserialize_tx (log_entries log) e0).
    assert (template ∈ log_entries log) as Ht by (apply template_of_in; rewrite Hes; by left).
    pose proof (injected_arrivals log template Hr Ht) as Ha.
    destruct (layout_ok _ Ha) as (windows & Heq & Hg & Hw).
    { intros a b. rewrite !sort_by_key_Permutation. by apply injected_short. }
    eexists _, windows. simpl. rewrite Heq. split; [done|]. split_and!; [|apply Ha|done|done].
    exists template. split; [done|apply sort_by_key_Permutation].
  - destruct contents as [contents|]; [right|by left].
    pose proof (parse_log_overflows base64_decode contents) as Ho. by rewrite Hlog in Ho.
  - destruct contents as [contents|]; [|done].
    pose proof (parse_log_overflows base64_decode contents) as Ho. by rewrite Hlog in Ho.
Qed.
End Layout.
