(* ===== verification/ReplayWitness.v ===== *)
(** * A log of the replay benchmark

    A small log in the documented format, read and laid out by computation, the
    properties of [ReplayParse] and [ReplayLayout] on it, and what the parser
    makes of timestamps that are not of the documented format or not of one
    month. *)

From stdpp Require Import sorting pretty.
From S2P Require Import Prelude RustString Types TipProgram ReplayLog ReplaySegments ReplayParse ReplayBench ReplayLayout.
From Stdlib Require Import Ascii.
#[local] Open Scope list_scope.
#[local] Open Scope Z_scope.

#[local] Instance replay_profile : Profile := true.

(** Base64 is left to the letters themselves. *)
Definition letters (s : string) : option u8s := Some (byte_string s).

Definition at_time (s ns : Z) : Stamp :=
  {| year := 2026; month := 5; day := 25; hour := 16; minute := 4; sec := s; nanos := ns |}.

Definition arrived (s ns : Z) (sig : string) : LogLine := TxIn (at_time s ns) sig "AB" [65; 66].

(** Two leader windows, one written out of order; the first has two slots. *)
Definition demo_log : list LogLine := [
  Separator "----";
  arrived 0 0 "a";
  arrived 0 7000000 "b";
  arrived 20 0 "d";
  TxOut (at_time 0 9000000) "a" "Ok(())";
  arrived 0 500000000 "c";
  TxOut (at_time 20 1) "d" "Err(DropOnReceive)"
]%string.

Lemma demo_log_ok : Forall (line_ok letters) demo_log.
Proof. repeat (apply Forall_cons; split); try apply Forall_nil; cbn; done || (split_and!; by vm_compute). Qed.

Lemma demo_log_one_day a b :
  a ∈ arrivals_of demo_log → b ∈ arrivals_of demo_log → ¬ month_end (ar_stamp a) (ar_stamp b).
Proof.
  intros Ha _ (_ & _ & Hd & _).
  assert (∀ a, a ∈ arrivals_of demo_log → day (ar_stamp a) = 25) as Hday.
  { apply Forall_forall. apply (bool_decide_unpack _). by vm_compute. }
  by rewrite (Hday a Ha) in Hd.
Qed.

Lemma parse_log_roundtrip_witness :
  ∃ (ts : Stamp → Z) (l : list Arrival),
    parse_log letters (Some (log_text demo_log)) = Ok {|
      log_entries := entry_of ts <$> l;
      dropped_on_receive := {["d"]};
      mainnet_processed := {["a"]} |}%string ∧
    l ≡ₚ arrivals_of demo_log ∧ StronglySorted (by_key ar_epoch) l.
Proof.
  destruct (parse_log_roundtrip letters demo_log demo_log_ok demo_log_one_day) as (ts & l & Heq & Hp & Hs & _).
  exists ts, l. split; [|exact (conj Hp Hs)].
  replace {["d"%string]} with (list_to_set (outcomes true demo_log) : gset string) by by vm_compute.
  replace {["a"%string]} with (list_to_set (outcomes false demo_log) : gset string) by by vm_compute. exact Heq.
Defined.

Definition demo_parsed : Log :=
  ltac:(let r := eval vm_compute in (parse_log letters (Some (log_text demo_log))) in
        lazymatch r with Ok ?log => exact log end).

Lemma demo_parsed_eq : parse_log letters (Some (log_text demo_log)) = Ok demo_parsed.
Proof. vm_compute. reflexivity. Qed.

Lemma demo_parsed_short a b :
  a ∈ log_entries demo_parsed → b ∈ log_entries demo_parsed → timestamp_ns b - timestamp_ns a < 2 ^ 63 * slot_ns.
Proof.
  intros Ha Hb. assert (∀ e, e ∈ log_entries demo_parsed → 0 ≤ timestamp_ns e ≤ 2 ^ 70) as Hr.
  { apply Forall_forall. apply (bool_decide_unpack _). by vm_compute. }
  pose proof (Hr a Ha). pose proof (Hr b Hb). unfold slot_ns. lia.
Qed.

(** All bytes are a transaction. *)
Definition any_tx (bytes : u8s) : option VersionedTransaction := Some {| vt_signatures := []; vt_bytes := bytes |}.

Lemma replay_layout_witness :
  ∃ log' windows, load_windows letters pretty any_tx (Some (log_text demo_log)) = Ok (Some (log', windows)) ∧
    (∃ template, template ∈ log_entries demo_parsed ∧
       log_entries log' ≡ₚ log_entries demo_parsed ++ synthetic_entries pretty template) ∧
    StronglySorted arrives_before (log_entries log') ∧
    window_groups (log_entries log') (entries <$> windows) ∧
    Forall (λ w, spans w ∧ replayed_window w) windows.
Proof.
  pose proof (replay_layout letters pretty any_tx (Some (log_text demo_log))) as Hl.
  rewrite demo_parsed_eq in Hl. exact (Hl ltac:(done) demo_parsed_short).
Defined.

(** The signatures and the duration of the slots of each window. *)
Definition slot_row (s : LeaderWindow) : list string * Z := (map signature (entries s), duration_ns s).

Definition layout (es : list TxInEntry) : Res (list (list (list string * Z))) :=
  windows ← segment_into_windows es;
  fold_res (λ rows w, slots ← segment_window_into_slots w; Ok (rows ++ [map slot_row slots])) [] windows.

Example demo_layout :
  layout (log_entries demo_parsed)
  = Ok [[(["a"; "b"], 400000000); (["c"], 100000000)]; [(["d"], 400000000)]]%string.
Proof. by vm_compute. Qed.

(** A month has thirty days when days are counted: an hour of the first of
    February comes before a later hour of the thirty-first of January. *)
Example month_end_out_of_order :
  ∃ a b, parse_timestamp_ns "2026-01-31" "23:00:00.0" = Ok (Some a) ∧
         parse_timestamp_ns "2026-02-01" "01:00:00.0" = Ok (Some b) ∧ b < a.
Proof. eexists _, _. split_and!; [vm_compute; reflexivity..|]. lia. Qed.

(** Digits after the point are nanoseconds, however many there are: half a
    second is read as five nanoseconds. *)
Example short_fraction :
  ∃ a, parse_timestamp_ns "2026-05-25" "16:04:00.0" = Ok (Some a) ∧
       parse_timestamp_ns "2026-05-25" "16:04:00.5" = Ok (Some (a + 5)).
Proof. eexists. split; vm_compute; reflexivity. Qed.
