(* ===== verification/AuctionTests.v ===== *)
(** * The tests of the auction scheduler
    (schedulers/auction-batch-scheduler/src/lib.rs, [mod tests])

    As [BatchTests]; a score that the tests compute by hand is
    [score_with_auction] of the scheduler. *)

From S2P Require Import Prelude F64 BTreeSet Types Events Externals TipProgram Costs.
From S2P Require Import Common TestBridge AuctionLocks AuctionEngine AuctionScheduler.

Section AuctionTests.
Context `{Profile} `{AgaveBindings} `{TestBindings} `{ComputeBudgetInterface} `{World W} `{!AgaveSession W}.
Context `{LibM} `{HashMapOrder} {Heap DSet : Type} `{MinMaxHeap Heap PriorityId} `{IndexSet DSet PriorityId}.
Context (fuel : nat).
Abbreviation Sched := (AuctionBatchScheduler Heap DSet).
Abbreviation S := (St Sched W).

Definition test_scheduler : Res (Sched * W) :=
  let w := session_new 5 4 in
  let '(builder, w) := pubkey_new_unique w in
  let w := jito_send (JBuilderConfig {| builder_key := builder; commission := 0 |}) w in
  let '(vote_account, w) := pubkey_new_unique w in
  let '(merkle_authority, w) := pubkey_new_unique w in
  let '(keypair, w) := keypair_new w in
  new_with_jito None {|
    args_tip := {| vote_account := vote_account; merkle_authority := merkle_authority; commission_bps := 0 |};
    args_keypair := keypair;
    args_filter_keys := ∅;
    args_unchecked_capacity := 64;
    args_checked_capacity := 64;
    args_bundle_capacity := 16;
    args_runtime := RuntimeConfig_default;
    args_scoring := AuctionBatchConfig_default;
  |} w.

Definition run_test (test : M S unit) : Res unit :=
  '(s, w) ← test_scheduler;
  '(_, _) ← test (mk s w);
  mret tt.

Definition assert_that (site : string) (f : Sched → bool) : M S unit :=
  let* b := self f in assert site b.

Definition poll_with (p : ProgressMessage) : M S unit :=
  queue_progress p ;; poll fuel.

Definition mock_tx_with_locks (payer : Keypair) (cu_limit cu_price : Z) (write_keys read_keys : list Pubkey)
    : M S u8s :=
  let metas := ((λ k, meta_new k false) <$> write_keys) ++ ((λ k, meta_new_readonly k false) <$> read_keys) in
  let* program_id := call pubkey_new_unique in
  mret (sign_and_serialize
    [set_compute_unit_limit cu_limit; set_compute_unit_price cu_price;
     {| program_id := program_id; accounts := metas; ix_bytes := [] |}]
    (keypair_pubkey payer) payer 1%N).

Definition tpu_recv_schedules_check : M S unit :=
  let* tx := new_noop 25000 1000 in
  queue_tpu tx ;;
  poll_with MOCK_PROGRESS ;;
  let* batch := popped in
  assert "flags & 1 == CHECK" (is_check batch) ;;
  batch_len batch 1.

Definition check_ok_moves_to_checked : M S unit :=
  let* tx := new_noop 25000 100000 in
  queue_tpu tx ;;
  poll_with MOCK_PROGRESS ;;
  let* check_batch := popped in
  queue_check_response_ok check_batch 0 None ;;
  poll_with MOCK_PROGRESS ;;
  assert_that "checked_tx.len()" (λ s, length (checked_tx s) =? 1)%nat.

(** [scheduler.score_with_auction] of a packet, once it is in the bridge. *)
Definition score_of_packet (tx_bytes : u8s) : M S (option (Z * Z)) :=
  let* k := insert_transaction tx_bytes in
  let* tx_state := unwrap "insert_transaction" k in
  let* tx := transaction tx_state in
  let* rt := bridge w_runtime in
  let* costs := unwrap "derive_costs" (derive_costs (data tx) (feature_set rt)) in
  let* s := self id in
  of_res (score_with_auction costs (locks tx) 0 s).

Definition is_some {A} (o : option A) : bool := match o with Some _ => true | None => false end.

(** A score that is there and whose priority is zero. *)
Definition scored_zero (score : option (Z * Z)) : M S unit :=
  assert "score.is_some()" (is_some score) ;;
  let* pc := unwrap "score" score in
  assert "priority == 0" (pc.1 =? 0).

Definition test_auction_scheduler_congestion_bench : M S unit :=
  let* hot_account := call pubkey_new_unique in
  let* cold_account := call pubkey_new_unique in
  (* 1. Fill the queue with transactions targeting the hot_account. *)
  for_each (seq 0 10) (λ _,
    let* payer := call keypair_new in
    let* tx := mock_tx_with_locks payer 50000 10000 [hot_account] [] in
    queue_tpu tx) ;;
  poll_with MOCK_PROGRESS ;;
  queue_all_checks_ok fuel ;;
  poll_with MOCK_PROGRESS ;;
  assert_that "checked_tx.len()" (λ s, length (checked_tx s) =? 10)%nat ;;
  assert_that "hot_depth > 0.0" (λ s,
    f64_lt f64_zero (LockManager.queue_depth hot_account (lock_manager (auction_engine s)))) ;;
  (* 2. A low-paying transaction targeting the hot account. *)
  let* payer_low_hot := call keypair_new in
  let* tx_low_hot := mock_tx_with_locks payer_low_hot 50000 50 [hot_account] [] in
  let* low_hot_score := score_of_packet tx_low_hot in
  scored_zero low_hot_score ;;
  (* 3. A high-paying transaction targeting the hot account. *)
  let* payer_high_hot := call keypair_new in
  let* tx_high_hot := mock_tx_with_locks payer_high_hot 50000 20000 [hot_account] [] in
  let* high_hot_score := score_of_packet tx_high_hot in
  assert "high_hot_score.is_some()" (is_some high_hot_score) ;;
  (* 4. A low-paying transaction targeting the cold account. *)
  let* payer_low_cold := call keypair_new in
  let* tx_low_cold := mock_tx_with_locks payer_low_cold 50000 5000 [cold_account] [] in
  let* low_cold_score := score_of_packet tx_low_cold in
  assert "low_cold_score.is_some()" (is_some low_cold_score).

(** [ProgressMessage { current_slot_progress, ..MOCK_PROGRESS }]. *)
Definition progress_at (progress : Z) : ProgressMessage := {|
  leader_state := leader_state MOCK_PROGRESS;
  current_slot := current_slot MOCK_PROGRESS;
  next_leader_slot := next_leader_slot MOCK_PROGRESS;
  remaining_cost_units := remaining_cost_units MOCK_PROGRESS;
  current_slot_progress := progress;
|}.

Definition test_time_decay_penalty : M S unit :=
  let* payer := call keypair_new in
  let tx := noop_with_budget payer 25000 600 in
  (* 1. Early in the slot. *)
  poll_with (progress_at 0) ;;
  let* score_early := score_of_packet tx in
  assert "score_early.is_some()" (is_some score_early) ;;
  (* 2. Late in the slot. *)
  poll_with (progress_at 95) ;;
  let* score_late := score_of_packet tx in
  scored_zero score_late.

Definition test_jito_bundle_pricing_atomic : M S unit :=
  let* payer1 := call keypair_new in
  let* payer2 := call keypair_new in
  (* 1. Queue a low-paying bundle. *)
  send_bundle [noop_with_budget payer1 25000 10; noop_with_budget payer2 25000 10] ;;
  poll_with MOCK_PROGRESS ;;
  assert_that "bundles.len() == 1" (λ s, length (bundles s) =? 1)%nat ;;
  let* bs := self bundles in
  let* low_bundle := unwrap "bundles.iter().next()" (hd_error bs) in
  assert "low_bundle.priority == 0" (b_priority low_bundle =? 0) ;;
  (* 2. Queue a high-paying bundle. *)
  send_bundle [noop_with_budget payer1 25000 5000; noop_with_budget payer2 25000 5000] ;;
  poll fuel ;;
  assert_that "bundles.len() == 2" (λ s, length (bundles s) =? 2)%nat ;;
  let* bs := self bundles in
  let* first := unwrap "bundle_iter.next()" (bs !! 0%nat) in
  assert "first.priority == 0" (b_priority first =? 0) ;;
  let* second := unwrap "bundle_iter.next()" (bs !! 1%nat) in
  assert "second.priority > 0" (0 <? b_priority second).

Definition auction_tests : list (string * M S unit) := [
  ("tpu_recv_schedules_check", tpu_recv_schedules_check);
  ("check_ok_moves_to_checked", check_ok_moves_to_checked);
  ("test_auction_scheduler_congestion_bench", test_auction_scheduler_congestion_bench);
  ("test_time_decay_penalty", test_time_decay_penalty);
  ("test_jito_bundle_pricing_atomic", test_jito_bundle_pricing_atomic)
]%string.
End AuctionTests.
