(* ===== verification/ComparativeBench.v ===== *)
(** * The comparative benchmark (external-scheduler/benches/comparative_bench.rs)

    One slot of 64 ticks through either scheduler: new transactions at each tick,
    most of them for one account; what is scheduled is executed for four ticks.
    What the two functions [run_*] share is written once, over the scheduler's
    [poll]. *)

From S2P Require Import Prelude F64 BTreeSet Types Events Externals TipProgram Costs Common TestBridge.
From S2P Require Import JitoThread BatchScheduler AuctionLocks AuctionEngine AuctionScheduler ReplayBench.

(** ** The transactions of a tick *)

(** What of [Transaction] and of the hasher the benchmark uses: the first
    signature of a signed transaction; [state.hash(&mut DefaultHasher::new())],
    whose algorithm the standard library leaves open. *)
Class BenchCrates := {
  first_signature : u8s → Signature;
  default_hash : Z → Z;
}.

Record InFlightTx := { if_batch : ScheduleBatch; if_index : nat; remaining_ticks : Z }.

Record ComparativeReport := {
  cr_packed : Z;
  cr_revenue : Z;
  cr_batches : Z;
  cr_avg_batch_size : f64;
}.

(** The counters, the fees and the transactions that execute. *)
Record Slot := {
  sl_packed : Z;
  sl_revenue : Z;
  sl_batches : Z;
  fee_lookup : gmap string Z;
  in_flight : list InFlightTx;
}.

#[export] Instance Slot_eta : Eta Slot := λ s, {|
  sl_packed := sl_packed s; sl_revenue := sl_revenue s; sl_batches := sl_batches s;
  fee_lookup := fee_lookup s; in_flight := in_flight s |}.

Definition slot_start : Slot :=
  {| sl_packed := 0; sl_revenue := 0; sl_batches := 0; fee_lookup := ∅; in_flight := [] |}.

Section ComparativeBench.
Context `{Profile} `{AgaveBindings} `{TestBindings} `{ComputeBudgetInterface} `{!BenchCrates}
  `{World W} `{!AgaveSession W} {D : Type}.
Context (fuel : nat) (poll : M (St D W) unit).
Abbreviation S := (St D W).

Definition bench_noop (payer : Keypair) (cu_limit cu_price : Z) (locks : list (Pubkey * bool)) : M S u8s :=
  let metas := (λ kw, if kw.2 : bool then meta_new kw.1 false else meta_new_readonly kw.1 false) <$> locks in
  let* program_id := call pubkey_new_unique in
  mret (sign_and_serialize
    [set_compute_unit_limit cu_limit; set_compute_unit_price cu_price;
     {| program_id := program_id; accounts := metas; ix_bytes := [] |}]
    (keypair_pubkey payer) payer 0%N).

(** [Pubkey::new_from_array([lo, hi, 0, ..])]. *)
Definition bench_account (lo hi : Z) : Pubkey := pubkey_of_bytes (lo :: hi :: replicate 30 0).

(** The account a random number stands for: the hot one in 60 of 100 cases. *)
Definition account_of (r : Z) : Pubkey :=
  if r mod 100 <? 60 then bench_account 0 0
  else
    let cold_idx := r mod 4990 + 10 in
    bench_account (Z.land cold_idx 255) (Z.land (Z.shiftr cold_idx 8) 255).

Definition bench_fee : Z := 25000 * 200000 / 1000000.

(** One turn of the loop, from the hasher's state. *)
Definition generate_transaction (state : Z) (fees : gmap string Z) : M S (u8s * Z * gmap string Z) :=
  let r := default_hash state in
  let* payer := call keypair_new in
  let* tx := bench_noop payer 25000 200000 [(account_of r, true)] in
  mret (tx, r, <[signature_to_string (first_signature tx) := bench_fee]> fees).

Fixpoint generate_transactions (n : nat) (state : Z) (fees : gmap string Z) : M S (list u8s * gmap string Z) :=
  match n with
  | O => mret ([], fees)
  | Datatypes.S n' =>
      let* ' (tx, state, fees) := generate_transaction state fees in
      let* ' (txs, fees) := generate_transactions n' state fees in
      mret (tx :: txs, fees)
  end.

Definition generate_tick_transactions (txs_per_tick tick : nat) (fees : gmap string Z)
    : M S (list u8s * gmap string Z) :=
  generate_transactions txs_per_tick (Z.of_nat tick + 99999) fees.

(** ** A tick *)

(** [in_flight.retain_mut(..)]: what is finished, and what goes on.  A
    transaction enters with four ticks to go and leaves with none. *)
Fixpoint progress_in_flight (items : list InFlightTx) : Res (list (ScheduleBatch * nat) * list InFlightTx) :=
  match items with
  | [] => mret ([], [])
  | item :: items' =>
      remaining ← checked_result 32 "remaining_ticks" (remaining_ticks item - 1);
      '(finished, kept) ← progress_in_flight items';
      mret (if remaining =? 0 then ((if_batch item, if_index item) :: finished, kept)
            else (finished, {| if_batch := if_batch item; if_index := if_index item; remaining_ticks := remaining |} :: kept))
  end.

(** A finished transaction is counted and answered. *)
Definition on_finished (batch : ScheduleBatch) (index : nat) (t : Slot) : M S Slot :=
  let* tx := unwrap "batch.transactions[index]" (sb_transactions batch !! index) in
  let* there := contains_tx (km_key tx) in
  if negb there then mret t
  else
    let* packed := of_res (u64_add "total_packed" (sl_packed t) 1) in
    let* tx_data := transaction (km_key tx) in
    let* sig := unwrap "signatures()[0]" (tv_signatures (data tx_data) !! 0%nat) in
    let* revenue := of_res (u64_add "total_revenue" (sl_revenue t)
                              (default 0 (fee_lookup t !! signature_to_string sig))) in
    let* rep := execute_ok in
    queue_execute_response batch index rep ;;
    mret (t <| sl_packed := packed |> <| sl_revenue := revenue |>).

Definition finish_all (items : list (ScheduleBatch * nat)) (t : Slot) : M S Slot :=
  fold_m (λ bi t, on_finished bi.1 bi.2 t) items t.

(** The check of a transaction that is in the bridge still. *)
Definition answer_check (batch : ScheduleBatch) (i : nat) : M S unit :=
  let* tx := unwrap "batch.transactions[i]" (sb_transactions batch !! i) in
  let* there := contains_tx (km_key tx) in
  when there (queue_check_response_ok batch i None).

Definition on_batch (batch : ScheduleBatch) (t : Slot) : M S Slot :=
  let indices := seq 0 (length (sb_transactions batch)) in
  if Z.land (sb_flags batch) 1 =? 0 then
    for_each indices (answer_check batch) ;;
    mret t
  else
    let* batches := of_res (u64_add "total_batches" (sl_batches t) 1) in
    mret (t <| sl_batches := batches |>
            <| in_flight ::= λ l, l ++ ((λ i, {| if_batch := batch; if_index := i; remaining_ticks := 4 |}) <$> indices) |>).

(** [while let Some(batch) = bridge.pop_schedule()]. *)
Fixpoint take_batches (fuel : nat) (t : Slot) : M S Slot :=
  match fuel with
  | O => hang
  | Datatypes.S fuel' =>
      let* batch := pop_schedule in
      match batch with
      | None => mret t
      | Some batch => let* t := on_batch batch t in take_batches fuel' t
      end
  end.

Definition slot_progress (tick : nat) : ProgressMessage := {|
  leader_state := if (10 <=? tick)%nat then LEADER_READY else NOT_LEADER;
  current_slot := 10;
  next_leader_slot := 11;
  remaining_cost_units := 48000000;
  current_slot_progress := Z.of_nat tick * 100 / 64;
|}.

Definition run_tick (txs_per_tick tick : nat) (t : Slot) : M S Slot :=
  (* Progress in-flight execution duration. *)
  let* ' (finished, kept) := of_res (progress_in_flight (in_flight t)) in
  let* t := finish_all finished (t <| in_flight := kept |>) in
  (* Generate random transactions arriving in this tick. *)
  let* ' (new_txs, fees) := generate_tick_transactions txs_per_tick tick (fee_lookup t) in
  for_each new_txs queue_tpu ;;
  queue_progress (slot_progress tick) ;;
  poll ;;
  take_batches fuel (t <| fee_lookup := fees |>).

(** [run_batch_scheduler] and [run_auction_scheduler], the scheduler made:
    [ticks] is 64, [txs_per_tick] is 250. *)
Definition run_slot (ticks txs_per_tick : nat) : M S ComparativeReport :=
  let* t := fold_m (run_tick txs_per_tick) (seq 0 ticks) slot_start in
  (* Clean up remaining in-flight at the end of slot. *)
  let* t := finish_all ((λ item, (if_batch item, if_index item)) <$> in_flight t) (t <| in_flight := [] |>) in
  mret {|
    cr_packed := sl_packed t;
    cr_revenue := sl_revenue t;
    cr_batches := sl_batches t;
    cr_avg_batch_size :=
      if 0 <? sl_batches t then f64_div (f64_of_Z (sl_packed t)) (f64_of_Z (sl_batches t)) else f64_zero |}.
End ComparativeBench.

(** ** The two schedulers *)

Section Runs.
Context `{Profile} `{AgaveBindings} `{TestBindings} `{ComputeBudgetInterface} `{!BenchCrates}
  `{World W} `{!AgaveSession W} `{LibM} `{HashMapOrder}.
Context {Heap DSet : Type} `{MinMaxHeap Heap PriorityId} `{IndexSet DSet PriorityId} (fuel : nat).

Definition slot_batch_scheduler : Res (BatchScheduler Heap DSet * W) :=
  let w := bench_world (session_new 5 4) in
  let '(vote_account, w) := pubkey_new_unique w in
  let '(merkle_authority, w) := pubkey_new_unique w in
  let '(keypair, w) := keypair_new w in
  BatchScheduler.new_with_jito None {|
    BatchScheduler.args_tip :=
      {| vote_account := vote_account; merkle_authority := merkle_authority; commission_bps := 0 |};
    BatchScheduler.args_keypair := keypair;
    BatchScheduler.args_filter_keys := ∅;
    BatchScheduler.args_unchecked_capacity := Z.to_nat 65536;
    BatchScheduler.args_checked_capacity := Z.to_nat 65536;
    BatchScheduler.args_bundle_capacity := Z.to_nat 1024;
    BatchScheduler.args_runtime := RuntimeConfig_default;
  |} w.

Definition slot_auction_scheduler : Res (AuctionBatchScheduler Heap DSet * W) :=
  let w := bench_world (session_new 5 4) in
  let '(vote_account, w) := pubkey_new_unique w in
  let '(merkle_authority, w) := pubkey_new_unique w in
  let '(keypair, w) := keypair_new w in
  '(s, w) ← AuctionScheduler.new_with_jito None {|
    args_tip := {| vote_account := vote_account; merkle_authority := merkle_authority; commission_bps := 0 |};
    args_keypair := keypair;
    args_filter_keys := ∅;
    args_unchecked_capacity := Z.to_nat 65536;
    args_checked_capacity := Z.to_nat 65536;
    args_bundle_capacity := Z.to_nat 1024;
    args_runtime := RuntimeConfig_default;
    args_scoring := AuctionBatchConfig_default;
  |} w;
  mret (update_base_prices (f64_lit 1 1000) (f64_of_Z 10) f64_one (f64_of_Z 10) (f64_of_Z 10) s, w).

Definition run_batch_scheduler (ticks txs_per_tick : nat) : Res ComparativeReport :=
  '(s, w) ← slot_batch_scheduler;
  '(report, _) ← run_slot fuel (BatchScheduler.poll fuel) ticks txs_per_tick (mk s w);
  mret report.

Definition run_auction_scheduler (ticks txs_per_tick : nat) : Res ComparativeReport :=
  '(s, w) ← slot_auction_scheduler;
  '(report, _) ← run_slot fuel (AuctionScheduler.poll fuel) ticks txs_per_tick (mk s w);
  mret report.
End Runs.
