(* ===== verification/TestWorld.v ===== *)
(** * The world the tests run in

    The crates and the bridge of [Externals], and the validator's end of
    [TestBridge], as functions that compute: a packet is the list of a
    transaction's instructions with its payer, costs are those of the signature,
    the written accounts and the requested compute units, and the fee is the
    base fee of a signature plus price times limit.  [ln] and [powf] are computed
    from power series. *)

From stdpp Require Import pretty.
From S2P Require Import Prelude F64 BTreeSet Types Events Externals EventJson TipProgram Costs Common.
From Stdlib Require Import Ascii.
From S2P Require Import AuctionLocks TestBridge Drains ModelWorld.

(** ** Compute budget instructions *)

Definition COMPUTE_BUDGET : Pubkey :=
  Eval vm_compute in pubkey "ComputeBudget111111111111111111111111111111".

Definition compute_budget_ix (data : u8s) : Instruction :=
  {| program_id := COMPUTE_BUDGET; accounts := []; ix_bytes := data |}.

#[export] Instance test_compute_budget : ComputeBudgetInterface := {|
  set_compute_unit_limit n := compute_budget_ix (2 :: to_le_bytes 4 n);
  set_compute_unit_price n := compute_budget_ix (3 :: to_le_bytes 8 n);
|}.

(** The value the last instruction with this tag sets. *)
Definition budget_value (tag : Z) (ixs : list (Pubkey * InstructionView)) : option Z :=
  last (omap (λ pi : Pubkey * InstructionView,
    match ix_data pi.2 with
    | t :: bytes => if bool_decide (pi.1 = COMPUTE_BUDGET) && (t =? tag) then Some (from_le_bytes bytes) else None
    | [] => None
    end) ixs).

(** ** Packets *)

Definition encode_meta (m : AccountMeta) : u8s :=
  [Z.of_N (am_pubkey m); Z.b2z (am_is_signer m); Z.b2z (am_is_writable m)].

Definition encode_ix (ix : Instruction) : u8s :=
  Z.of_N (program_id ix) :: Z.of_nat (length (accounts ix)) :: Z.of_nat (length (ix_bytes ix))
  :: (accounts ix ≫= encode_meta) ++ ix_bytes ix.

Definition encode_transaction (ixs : list Instruction) (payer : Pubkey) : u8s :=
  Z.of_N payer :: Z.of_nat (length ixs) :: (ixs ≫= encode_ix).

Fixpoint decode_metas (n : nat) (l : u8s) : option (list AccountMeta * u8s) :=
  match n, l with
  | O, _ => Some ([], l)
  | S n', k :: s :: w :: l' =>
      '(ms, r) ← decode_metas n' l';
      Some ({| am_pubkey := Z.to_N k; am_is_signer := 0 <? s; am_is_writable := 0 <? w |} :: ms, r)
  | _, _ => None
  end.

Definition decode_ix (l : u8s) : option (Instruction * u8s) :=
  match l with
  | k :: n :: m :: l' =>
      '(ms, r) ← decode_metas (Z.to_nat n) l';
      if (Z.to_nat m <=? length r)%nat
      then Some ({| program_id := Z.to_N k; accounts := ms; ix_bytes := take (Z.to_nat m) r |},
                 drop (Z.to_nat m) r)
      else None
  | _ => None
  end.

Fixpoint decode_ixs (n : nat) (l : u8s) : option (list Instruction * u8s) :=
  match n with
  | O => Some ([], l)
  | S n' =>
      '(ix, r) ← decode_ix l;
      '(ixs, r') ← decode_ixs n' r;
      Some (ix :: ixs, r')
  end.

(** All of the packet must be used. *)
Definition decode_transaction (l : u8s) : option (list Instruction * Pubkey) :=
  match l with
  | payer :: n :: l' =>
      '(ixs, r) ← decode_ixs (Z.to_nat n) l';
      match r with [] => Some (ixs, Z.to_N payer) | _ :: _ => None end
  | _ => None
  end.

Lemma decode_encode_metas ms l : decode_metas (length ms) ((ms ≫= encode_meta) ++ l) = Some (ms, l).
Proof.
  induction ms as [|[k s w] ms IH]; [done|]. rewrite bind_cons, <- app_assoc.
  cbn [length decode_metas encode_meta app]. rewrite IH. simpl. rewrite N2Z.id. by destruct s, w.
Qed.

Lemma decode_encode_ix ix l : decode_ix (encode_ix ix ++ l) = Some (ix, l).
Proof.
  destruct ix as [p ms d]. unfold decode_ix, encode_ix. cbn [app program_id accounts ix_bytes].
  rewrite <- app_assoc, !Nat2Z.id, decode_encode_metas. simpl. rewrite N2Z.id.
  replace (length d <=? length (d ++ l))%nat with true
    by (symmetry; apply Nat.leb_le; rewrite length_app; lia).
  by rewrite take_app_length, drop_app_length.
Qed.

Lemma decode_encode_ixs ixs l : decode_ixs (length ixs) ((ixs ≫= encode_ix) ++ l) = Some (ixs, l).
Proof.
  induction ixs as [|ix ixs IH]; [done|]. rewrite bind_cons, <- app_assoc. cbn [length decode_ixs].
  rewrite decode_encode_ix. simpl. by rewrite IH.
Qed.

(** What the tests send is what the bridge sees. *)
Lemma decode_encode_transaction ixs payer :
  decode_transaction (encode_transaction ixs payer) = Some (ixs, payer).
Proof.
  unfold decode_transaction, encode_transaction. rewrite Nat2Z.id, N2Z.id.
  rewrite <- (app_nil_r (ixs ≫= encode_ix)), decode_encode_ixs. done.
Qed.

(** ** Transactions *)

Definition static_keys (ixs : list Instruction) (payer : Pubkey) : list Pubkey :=
  remove_dups (payer :: (ixs ≫= λ ix, (am_pubkey <$> accounts ix) ++ [program_id ix])).

Definition is_writable (ixs : list Instruction) (payer k : Pubkey) : bool :=
  bool_decide (k = payer) ||
  existsb (λ ix, existsb (λ m, bool_decide (am_pubkey m = k) && am_is_writable m) (accounts ix)) ixs.

Definition index_of (l : list Pubkey) (k : Pubkey) : Z :=
  Z.of_nat (default 0%nat (fst <$> list_find (λ k', k' = k) l)).

Definition compiled (ixs : list Instruction) (payer : Pubkey) (packet : u8s) : TransactionState :=
  let keys := static_keys ixs payer in
  {| data := {|
       tv_signatures := [payer];
       tv_static_account_keys := keys;
       tv_program_instructions := (λ ix, (program_id ix, {|
         ix_accounts := index_of keys ∘ am_pubkey <$> accounts ix;
         ix_data := ix_bytes ix |})) <$> ixs;
       tv_raw := packet;
     |};
     locks := (λ k, (k, is_writable ixs payer k)) <$> keys;
     is_simple_vote := false |}.

Definition test_compile (_ : TransactionKey) (packet : u8s) : option TransactionState :=
  '(ixs, payer) ← decode_transaction packet;
  Some (compiled ixs payer packet).

(** ** Text

    base58 of 64 bytes, RFC 3339 timestamps and indented JSON. *)

Section Text.
#[local] Open Scope string_scope.
#[local] Open Scope Z_scope.

(** The digits of [n], least significant first; [n] has at most [fuel]. *)
Fixpoint digits (fuel : nat) (base n : N) : list N :=
  match fuel with
  | O => []
  | S fuel' => if (n =? 0)%N then [] else (n mod base)%N :: digits fuel' base (n / base)%N
  end.

Definition base58_char (d : N) : string :=
  match String.get (N.to_nat d) base58_alphabet with Some a => String a EmptyString | None => EmptyString end.

Definition signature_base58 (s : Signature) : string :=
  String.concat "" (app (replicate (64 - length (digits 64 256 s)) "1")
                        (base58_char <$> reverse (digits 88 58 s))).

(** [n] with leading zeros up to [width] digits. *)
Definition padded (width : nat) (n : Z) : string :=
  let s := pretty n in
  String.concat "" (replicate (width - String.length s) "0") +:+ s.

(** Year, month and day of the days since 1970-01-01. *)
Definition civil (days : Z) : Z * Z * Z :=
  let z := days + 719468 in
  let era := z / 146097 in
  let doe := z - era * 146097 in
  let yoe := (doe - doe / 1460 + doe / 36524 - doe / 146096) / 365 in
  let doy := doe - (365 * yoe + yoe / 4 - yoe / 100) in
  let mp := (5 * doy + 2) / 153 in
  let m := if mp <? 10 then mp + 3 else mp - 9 in
  (yoe + era * 400 + (if m <=? 2 then 1 else 0), m, doy - (153 * mp + 2) / 5 + 1).

Definition fraction (nanos : Z) : string :=
  if nanos =? 0 then ""
  else if nanos mod 1000000 =? 0 then "." +:+ padded 3 (nanos / 1000000)
  else if nanos mod 1000 =? 0 then "." +:+ padded 6 (nanos / 1000)
  else "." +:+ padded 9 nanos.

Definition test_rfc3339 (t : Z) : string :=
  let secs := t / 1000000000 in
  let tod := secs mod 86400 in
  let '(y, m, d) := civil (secs / 86400) in
  padded 4 y +:+ "-" +:+ padded 2 m +:+ "-" +:+ padded 2 d +:+ "T" +:+ padded 2 (tod / 3600) +:+ ":"
  +:+ padded 2 (tod / 60 mod 60) +:+ ":" +:+ padded 2 (tod mod 60) +:+ fraction (t mod 1000000000) +:+ "Z".

Definition quote : string := String "034" EmptyString.
Definition line_end : string := String "010" EmptyString.

(** Strings without characters that JSON escapes. *)
Fixpoint json_text (indent : string) (j : Json) : string :=
  match j with
  | JNull => "null"
  | JBool b => if b then "true" else "false"
  | JNumber n => pretty n
  | JString s => quote +:+ s +:+ quote
  | JObject [] => "{}"
  | JObject fields =>
      let inner := indent +:+ "  " in
      "{" +:+ line_end
      +:+ String.concat ("," +:+ line_end)
            (map (λ kv, inner +:+ quote +:+ kv.1 +:+ quote +:+ ": " +:+ json_text inner kv.2) fields)
      +:+ line_end +:+ indent +:+ "}"
  end.

End Text.

#[export] Instance test_serde : Serde := {| rfc3339 := test_rfc3339; to_string_pretty := json_text EmptyString |}.

(** ** The crates *)

Definition written (tx : TransactionView) : nat :=
  match decode_transaction (tv_raw tx) with
  | Some (ixs, payer) => length (filter (λ k, is_writable ixs payer k) (static_keys ixs payer))
  | None => 0
  end.

#[export] Instance test_crates : SolanaCrates := {|
  FeatureSet := unit;
  FeeFeatures := unit;
  Keypair := Pubkey;
  RuntimeTransaction := TransactionView;
  ComputeBudgetDetails := list (Pubkey * InstructionView);
  system_program_ID := 0%N;
  keypair_pubkey k := k;
  pubkey_to_bytes k := [Z.of_N k];
  find_program_address seeds program := ((program + 1)%N, 255);
  sign_and_serialize ixs payer _ _ := encode_transaction ixs payer;
  runtime_transaction_try_new tx := Some tx;
  compute_budget_details_try_from ixs := Some ixs;
  sanitize_and_convert_to_compute_budget_limits ixs _ :=
    let limit := default 200000 (budget_value 2 ixs) in
    Some {| compute_unit_limit := limit;
            prioritization_fee := (default 0 (budget_value 3 ixs) * limit + 999999) / 1000000 |};
  cost_model_sum tx _ :=
    720 + 300 * Z.of_nat (written tx) + default 200000 (budget_value 2 (tv_program_instructions tx));
  calculate_fee_details tx lamports fee _ :=
    {| transaction_fee := lamports * Z.of_nat (length (tv_signatures tx)); fd_prioritization_fee := fee |};
  signature_to_string := signature_base58;
|}.

#[export] Instance test_bindings : TestBindings := {|
  NOT_LEADER := 0;
  status_ALREADY_PROCESSED := 4;
  reason_ALREADY_PROCESSED := 8;
|}.

(** ** The bridge and the validator's end of it *)

Definition test_runtime : RuntimeState :=
  {| feature_set := tt; lamports_per_signature := 5000; burn_percent := 50; fee_features := tt |}.

#[export] Instance test_world : World ModelWorld := bridge_world test_runtime test_compile.

Lemma test_compile_compiled k packet tx :
  test_compile k packet = Some tx → ∃ ixs payer, tx = compiled ixs payer packet.
Proof.
  unfold test_compile. destruct (decode_transaction packet) as [[ixs payer]|]; [|done].
  intros [= <-]. by exists ixs, payer.
Qed.

Lemma compiled_accounts ixs payer packet : NoDup (locks (compiled ixs payer packet)).*1.
Proof.
  simpl. rewrite <- list_fmap_compose. rewrite (list_fmap_ext _ id) by done.
  rewrite list_fmap_id. apply NoDup_remove_dups.
Qed.

#[export] Instance test_world_laws : WorldLaws.
Proof.
  apply bridge_world_laws.
  - by intros k packet tx (ixs & payer & ->)%test_compile_compiled.
  - intros ixs payer keypair hash k tx (ixs' & payer' & ->)%test_compile_compiled.
    apply compiled_accounts.
Qed.

#[export] Instance test_drop_laws : DropLaws.
Proof. apply bridge_drop_laws. Qed.

#[export] Instance test_pending : Pending ModelWorld := bridge_pending test_runtime test_compile.

#[export] Instance test_pending_laws : PendingLaws ModelWorld.
Proof.
  apply bridge_pending_laws. by intros k packet tx (ixs & payer & ->)%test_compile_compiled.
Qed.

(** The oldest batch for a worker: batches are kept newest first. *)
Fixpoint pop_oldest (i : nat) (l : list ScheduleBatch) : option (ScheduleBatch * list ScheduleBatch) :=
  match l with
  | [] => None
  | b :: l' =>
      match pop_oldest i l' with
      | Some (b', l'') => Some (b', b :: l'')
      | None => if (sb_worker b =? i)%nat then Some (b, l') else None
      end
  end.

Definition test_read_schedule (i : nat) (w : ModelWorld) : option ScheduleBatch * ModelWorld :=
  match pop_oldest i (mw_sent w) with
  | None => (None, w)
  | Some (b, l) =>
      (Some b, w <| mw_sent := l |>
                 <| mw_workers ::= alter (λ '(len, rem), (Nat.pred len, S rem)) i |>)
  end.

Definition test_session_new (workers capacity : nat) : ModelWorld := {|
  mw_progress := {| leader_state := 0; current_slot := 0; next_leader_slot := 0;
                    remaining_cost_units := 0; current_slot_progress := 0 |};
  mw_pending_progress := false;
  mw_workers := replicate workers (0, capacity)%nat;
  mw_tpu := [];
  mw_responses := replicate workers [];
  mw_table := ∅;
  mw_sent := [];
  mw_clock := 1000;
  mw_jito := [];
  mw_cancelled := false;
  mw_counters := [];
|}.

(** New keys are told from the clock. *)
Definition test_key_new (w : ModelWorld) : Pubkey * ModelWorld :=
  (Z.to_N (mw_clock w), w <| mw_clock ::= Z.succ |>).

#[export] Instance test_session : AgaveSession ModelWorld := {|
  session_new := test_session_new;
  session_workers w := length (mw_workers w);
  write_progress p w := w <| mw_progress := p |> <| mw_pending_progress := true |>;
  write_tpu packet w := w <| mw_tpu ::= λ l, l ++ [packet] |>;
  write_response i r w := w <| mw_responses ::= alter (λ l, l ++ [r]) i |>;
  read_schedule := test_read_schedule;
  state_len w := size (mw_table w);
  jito_send u w := w <| mw_jito ::= λ l, l ++ [u] |>;
  keypair_new := test_key_new;
  pubkey_new_unique := test_key_new;
|}.

(** ** [ln] and [powf]

    [ln x] is [2 atanh ((x - 1) / (x + 1))] for [x] between a half and two, to
    which a power of two brings it; [exp] a Taylor sum, squared ten times. *)

Definition f64_two : f64 := Eval vm_compute in f64_of_Z 2.

Definition ln_series (x : f64) : f64 :=
  let y := f64_div (f64_sub x f64_one) (f64_add x f64_one) in
  let y2 := f64_mul y y in
  f64_mul (f64_mul f64_two y)
    (fold_right (λ k acc, f64_add (f64_lit 1 (2 * Z.of_nat k + 1)) (f64_mul y2 acc)) f64_zero (seq 0 19)).

Definition f64_ln2 : f64 := Eval vm_compute in ln_series f64_two.

Definition reduce (xk : f64 * Z) : f64 * Z :=
  let '(x, k) := xk in
  if f64_lt f64_two x then (f64_div x f64_two, k + 1)
  else if f64_lt x (f64_lit 1 2) then (f64_mul x f64_two, k - 1) else xk.

Definition series_ln (x : f64) : f64 :=
  let '(x, k) := Nat.iter 64 reduce (x, 0) in
  f64_add (f64_mul (f64_of_Z k) f64_ln2) (ln_series x).

Definition series_exp (x : f64) : f64 :=
  let z := f64_div x (f64_of_Z 1024) in
  Nat.iter 10 (λ x, f64_mul x x)
    (fold_right (λ k acc, f64_add f64_one (f64_div (f64_mul z acc) (f64_of_Z (Z.of_nat k)))) f64_one (seq 1 12)).

#[export] Instance test_libm : LibM :=
  {| f64_ln := series_ln; f64_powf x y := series_exp (f64_mul y (series_ln x)) |}.

(** A map gives its values in the order of its keys. *)
#[export] Instance test_order : HashMapOrder := {| hash_values m := (map_to_list m).*2 |}.
