(* ===== verification/TestRuns.v ===== *)
(** * The repository's tests, run

    Every test of the two schedulers, in the test world, by computation: with
    overflow checks, as [cargo test] builds, and without, as a release build
    does.  The assertions of the tests are the conditions under which their
    programs return. *)

From S2P Require Import Prelude F64 BTreeSet Types Events Externals LockTable TipProgram Costs.
From S2P Require Import Common TestBridge BatchScheduler AuctionLocks AuctionEngine AuctionScheduler.
From S2P Require Import ModelWorld TestWorld EventJson EventTests BatchTests AuctionTests.

(** No loop of a test makes more rounds than this. *)
Definition test_fuel : nat := 300.

Definition passes (r : Res unit) : bool := match r with Ok _ => true | _ => false end.

Abbreviation BatchSched := (BatchScheduler (list PriorityId) (list_set PriorityId)).
Abbreviation AuctionSched := (AuctionBatchScheduler (list PriorityId) (list_set PriorityId)).

Definition run_batch `{Profile} (test : M (St BatchSched ModelWorld) unit) : bool :=
  passes (BatchTests.run_test test).

Definition run_auction `{Profile} (test : M (St AuctionSched ModelWorld) unit) : bool :=
  passes (AuctionTests.run_test test).

(** The tests of the batch scheduler pass: its model does, on the scenarios the
    authors wrote for the code, what they expect of the code, in a build with
    overflow checks and in one without. *)
Example batch_tests_pass :
  ∀ profile : Profile, forallb (λ t, run_batch t.2) (batch_tests test_fuel) = true.
Proof. intros []; by vm_compute. Qed.

(** The tests of the auction scheduler pass likewise, floating point arithmetic
    included. *)
Example auction_tests_pass :
  ∀ profile : Profile, forallb (λ t, run_auction t.2) (auction_tests test_fuel) = true.
Proof. intros []; by vm_compute. Qed.

(** The tests of the events pass: the subjects and the JSON text of every
    kind of event, to the character. *)
Lemma event_tests_pass : forallb id event_tests = true.
Proof. by vm_compute. Qed.

(** ** What the scores of the congestion test do not show

    The transaction that pays little gets priority zero on the account without
    congestion, too. *)
Definition low_scores (test_price : Z) : M (St AuctionSched ModelWorld) (option (Z * Z) * option (Z * Z)) :=
  let* hot_account := call pubkey_new_unique in
  let* cold_account := call pubkey_new_unique in
  for_each (seq 0 10) (λ _,
    let* payer := call keypair_new in
    let* tx := mock_tx_with_locks payer 50000 10000 [hot_account] [] in
    queue_tpu tx) ;;
  AuctionTests.poll_with test_fuel MOCK_PROGRESS ;;
  queue_all_checks_ok test_fuel ;;
  AuctionTests.poll_with test_fuel MOCK_PROGRESS ;;
  let* payer := call keypair_new in
  let* tx_hot := mock_tx_with_locks payer 50000 test_price [hot_account] [] in
  let* hot := score_of_packet tx_hot in
  let* tx_cold := mock_tx_with_locks payer 50000 test_price [cold_account] [] in
  let* cold := score_of_packet tx_cold in
  mret (hot, cold).

Lemma low_score_without_congestion :
  ('(s, w) ← AuctionTests.test_scheduler;
   '(r, _) ← low_scores 50 (mk s w);
   mret (option_map fst r.1, option_map fst r.2)) = Ok (Some 0, Some 0).
Proof. by vm_compute. Qed.
