(* ===== verification/ReplayRuns.v ===== *)
(** * The benchmarks, run

    The log of [ReplayWitness], with transactions of the test world in it, read,
    laid out and replayed through both schedulers by computation; and a part of
    the comparative benchmark. *)

From S2P Require Import Prelude F64 BTreeSet Types Events Externals RustString TipProgram Costs Common.
From S2P Require Import TestBridge ReplayLog ReplayParse ReplayWitness BatchScheduler AuctionLocks AuctionEngine.
From S2P Require Import AuctionScheduler ReplayBench ComparativeBench ModelWorld TestWorld.
From S2P Require BatchTests.
From Stdlib Require Import Ascii.
#[local] Open Scope list_scope.
#[local] Open Scope Z_scope.

(** A letter stands for the transaction of the payer it names; its signature's
    bytes are the letter and zeros. *)
Definition letter_tx (s : string) : option u8s :=
  match s with
  | String a EmptyString =>
      let k := N_of_ascii a in
      Some (encode_transaction [set_compute_unit_limit 25000; set_compute_unit_price 200000] k)
  | _ => None
  end.

Definition letter_deserialize (packet : u8s) : option VersionedTransaction :=
  '(_, payer) ← decode_transaction packet;
  Some {| vt_signatures := [[Z.of_N payer; 0; 0; 0]]; vt_bytes := packet |}.

(** The signature in the log is the one of the transaction. *)
Definition logged (s ns : Z) (letter : ascii) : LogLine :=
  let text := String letter EmptyString in
  TxIn (at_time s ns) (signature_base58 (N_of_ascii letter)) text (default [] (letter_tx text)).

Definition replay_log_lines : list LogLine := [
  logged 0 0 "a"; logged 0 7000000 "b"; logged 0 500000000 "c"; logged 20 0 "d";
  TxOut (at_time 0 9000000) (signature_base58 (N_of_ascii "a")) "Ok(())";
  TxOut (at_time 20 1) (signature_base58 (N_of_ascii "d")) "Err(DropOnReceive)"
]%string%char.

Definition replay_with {D} (poll : M (St D ModelWorld) unit) (make : Res (D * ModelWorld)) : Res BenchReport :=
  log ← parse_log letter_tx (Some (log_text replay_log_lines));
  windows ← segment_into_windows (log_entries log);
  replay_all 100 poll letter_deserialize make windows (dropped_on_receive log) (mainnet_processed log).

Definition batch_report : Res BenchReport :=
  replay_with (BatchScheduler.poll 100)
    (make_batch_scheduler (Heap := list PriorityId) (DSet := list_set PriorityId)).

Definition auction_report : Res BenchReport :=
  replay_with (AuctionScheduler.poll 100)
    (make_auction_scheduler (Heap := list PriorityId) (DSet := list_set PriorityId)).

(** ** Nothing but the tip transactions is executed

    Three transactions go in, and none comes out: what the schedulers ask for
    first in a tick, the check of what has just arrived, is lost.  The count of
    five is of the transactions by which the schedulers became tip receivers,
    two in each slot, less the one that was lost in the slot without arrivals. *)
Example replay_executes_tips_only :
  (r ← batch_report; mret (total_tx_in r, total_packed r, total_revenue_lamports r, packed_mainnet_processed r,
                           total_dropped r))
  = Ok (3, 5, 0, 0, 0).
Proof. by vm_compute. Qed.

(** One tick of the batch scheduler of the tests, with one transaction queued. *)
Abbreviation BenchSt := (St (BatchScheduler (list PriorityId) (list_set PriorityId)) ModelWorld).

Definition tick_start : Res BenchSt :=
  '(s, w) ← BatchTests.test_scheduler;
  let tx := default [] (letter_tx (String "a" EmptyString)) in
  '(_, st) ← (provide_tip_config ;; queue_progress bench_progress ;; BatchScheduler.poll 100 ;;
             queue_tpu tx ;; queue_progress (tick_progress 100 0)) (mk s w);
  mret st.

Definition state_of {A} (r : Res (A * BenchSt)) : option BenchSt :=
  match r with Ok (_, st) => Some st | _ => None end.

Definition tick0 : BenchSt :=
  ltac:(let r := eval vm_compute in tick_start in lazymatch r with Ok ?st => exact st end).
Definition tick1 : BenchSt := ltac:(end_state (BatchScheduler.poll 100 tick0)).
Definition tick2 : BenchSt := ltac:(end_state (BatchScheduler.poll 100 tick1)).
Definition tick3 : BenchSt := ltac:(end_state (pop_schedule tick2)).

(** The batch that is lost is the check of the transaction. *)
Definition lost_batch : ScheduleBatch :=
  ltac:(let r := eval vm_compute in (pop_schedule tick2) in
        lazymatch r with Ok (Some ?b, _) => exact b end).

Example lost_batch_is_check : is_check lost_batch = true ∧ length (sb_transactions lost_batch) = 1%nat.
Proof. by vm_compute. Qed.

Lemma tick0_empty : pop_schedule tick0 = Ok (None, tick0).
Proof. vm_cast_no_check (eq_refl (Ok (@None ScheduleBatch, tick0))). Qed.
Lemma tick1_eq : BatchScheduler.poll 100 tick0 = Ok (tt, tick1).
Proof. vm_cast_no_check (eq_refl (Ok (tt, tick1))). Qed.
Lemma tick2_eq : BatchScheduler.poll 100 tick1 = Ok (tt, tick2).
Proof. vm_cast_no_check (eq_refl (Ok (tt, tick2))). Qed.
Lemma tick3_eq : pop_schedule tick2 = Ok (Some lost_batch, tick3).
Proof. vm_cast_no_check (eq_refl (Ok (Some lost_batch, tick3))). Qed.

Lemma settle_loses_batch_witness :
  settle 100 (BatchScheduler.poll 100) (S 9) ∅ no_tally tick0
  = settle 100 (BatchScheduler.poll 100) 9 ∅ no_tally tick3.
Proof.
  exact (settle_loses_batch 100 (BatchScheduler.poll 100) 9 ∅ no_tally tick0 tick0 tick1 tick2 tick3 lost_batch
    tick0_empty tick1_eq tick2_eq tick3_eq (Nat.lt_0_succ 99)).
Defined.

(** ** The comparative benchmark

    24 of the 64 ticks, two transactions in each: the signature of a transaction
    of the test world is its payer; the hasher is a linear congruence. *)

#[local] Instance test_bench : BenchCrates := {|
  first_signature packet := match decode_transaction packet with Some (_, payer) => payer | None => 0%N end;
  default_hash n := (n * 6364136223846793005 + 1442695040888963407) mod 2 ^ 64 / 65536 |}.

Definition totals (r : Res ComparativeReport) : Res (Z * Z * Z) :=
  r ← r; mret (cr_packed r, cr_revenue r, cr_batches r).

(** The auction scheduler passes over what conflicts with the hot account; the
    batch scheduler waits for it, and packs half as many.  Each counts its two
    tip transactions, which pay nothing; a batch is one transaction. *)
Example comparative_slot :
  totals (run_batch_scheduler (Heap := list PriorityId) (DSet := list_set PriorityId) 100 24 2) = Ok (13, 55000, 13) ∧
  totals (run_auction_scheduler (Heap := list PriorityId) (DSet := list_set PriorityId) 100 24 2) = Ok (25, 115000, 25).
Proof. split; by vm_compute. Qed.
