(* ===== verification/Host.v ===== *)
(** * The process that hosts a scheduler
    (external-scheduler/src/config_store.rs, scheduler_thread.rs, main.rs)

    The configuration and what becomes of it, the loop that polls the
    scheduler, and how the exits of the threads become the exit of the process.
    [Process] has the threads themselves. *)

From S2P Require Import Prelude F64 BTreeSet Types Events Externals LockTable TipProgram Costs Common.
From S2P Require Import JitoThread IntervalStream JitoSession BatchScheduler BatchInvariant BatchReach.
From S2P Require Import AuctionLocks AuctionEngine AuctionScheduler AuctionInvariant AuctionReach.

(** ** The configuration file *)

Module Config.
Record TipDistributionConfigData := {
  vote_account : string; merkle_authority : string; commission_bps : Z }.

Record JitoConfigData := { http_rpc : string; ws_rpc : string; block_engine : string }.

Record BatchSchedulerConfigData := {
  batch_keypair_path : string;
  batch_tip : TipDistributionConfigData;
  batch_jito : JitoConfigData;
  batch_unchecked_capacity : nat;
  batch_checked_capacity : nat;
  batch_bundle_capacity : nat;
  batch_block_fill_cutoff : Z;
  batch_max_check_batches : Z;
  batch_bundle_expiry_ms : Z;
  batch_progress_timeout_sec : Z;
}.

Record AuctionBatchScoringConfig := { scoring_min_score : Z }.

Record AuctionBatchSchedulerConfigData := {
  auction_keypair_path : string;
  auction_tip : TipDistributionConfigData;
  auction_jito : JitoConfigData;
  auction_unchecked_capacity : nat;
  auction_checked_capacity : nat;
  auction_bundle_capacity : nat;
  auction_block_fill_cutoff : Z;
  auction_max_check_batches : Z;
  auction_bundle_expiry_ms : Z;
  auction_progress_timeout_sec : Z;
  auction_scoring : option AuctionBatchScoringConfig;
}.

Record SchedulerConfig := {
  batch : option BatchSchedulerConfigData;
  auction : option AuctionBatchSchedulerConfigData;
}.

Record ConfigData := {
  logs_server : option string;
  config_filter_keys : gset Pubkey;
  scheduler : SchedulerConfig;
}.

Definition TipDistributionConfigData_default : TipDistributionConfigData :=
  {| vote_account := ""; merkle_authority := ""; commission_bps := 0 |}.

Definition JitoConfigData_default : JitoConfigData :=
  {| http_rpc := ""; ws_rpc := ""; block_engine := "" |}.

Definition BatchSchedulerConfigData_default : BatchSchedulerConfigData := {|
  batch_keypair_path := "";
  batch_tip := TipDistributionConfigData_default;
  batch_jito := JitoConfigData_default;
  batch_unchecked_capacity := Z.to_nat (64 * 1024);
  batch_checked_capacity := Z.to_nat (64 * 1024);
  batch_bundle_capacity := 1024;
  batch_block_fill_cutoff := 20;
  batch_max_check_batches := 4;
  batch_bundle_expiry_ms := 200;
  batch_progress_timeout_sec := 5;
|}.

Definition AuctionBatchSchedulerConfigData_default : AuctionBatchSchedulerConfigData := {|
  auction_keypair_path := "";
  auction_tip := TipDistributionConfigData_default;
  auction_jito := JitoConfigData_default;
  auction_unchecked_capacity := Z.to_nat (64 * 1024);
  auction_checked_capacity := Z.to_nat (64 * 1024);
  auction_bundle_capacity := 1024;
  auction_block_fill_cutoff := 20;
  auction_max_check_batches := 4;
  auction_bundle_expiry_ms := 200;
  auction_progress_timeout_sec := 5;
  auction_scoring := None;
|}.

Definition SchedulerConfig_default : SchedulerConfig := {| batch := None; auction := None |}.

Definition ConfigData_default : ConfigData :=
  {| logs_server := None; config_filter_keys := ∅; scheduler := SchedulerConfig_default |}.
End Config.
Import Config.

Class HostCrates `{SolanaCrates} := {
  (** [Keypair::read_from_file]. *)
  keypair_read_from_file : string → option Keypair;
}.

(** ** Which scheduler is started, and how *)

Section Setup.
Context `{HostCrates} `{JitoCrates}.

(** [..unwrap()] outside of the state monad. *)
Definition unwrap_res {A} (site : string) (o : option A) : Res A :=
  match o with Some a => Ok a | None => Panicked (PUnwrap site) end.

Definition tip_args (tip : TipDistributionConfigData) : Res TipDistributionArgs :=
  vote ← unwrap_res "Pubkey::from_str: vote_account" (pubkey_from_str (Config.vote_account tip));
  merkle ← unwrap_res "Pubkey::from_str: merkle_authority" (pubkey_from_str (Config.merkle_authority tip));
  mret {| TipProgram.vote_account := vote; TipProgram.merkle_authority := merkle;
          TipProgram.commission_bps := Config.commission_bps tip |}.

Definition jito_args (jito : JitoConfigData) : JitoArgs := {|
  JitoThread.http_rpc := Config.http_rpc jito;
  JitoThread.ws_rpc := Config.ws_rpc jito;
  JitoThread.block_engine := Config.block_engine jito |}.

Definition batch_runtime (b : BatchSchedulerConfigData) : RuntimeConfig := {|
  max_check_batches := Z.to_nat (batch_max_check_batches b);
  block_fill_cutoff := batch_block_fill_cutoff b;
  progress_timeout := from_secs (batch_progress_timeout_sec b);
  bundle_expiry := from_millis (batch_bundle_expiry_ms b);
|}.

Definition auction_runtime (a : AuctionBatchSchedulerConfigData) : RuntimeConfig := {|
  max_check_batches := Z.to_nat (auction_max_check_batches a);
  block_fill_cutoff := auction_block_fill_cutoff a;
  progress_timeout := from_secs (auction_progress_timeout_sec a);
  bundle_expiry := from_millis (auction_bundle_expiry_ms a);
|}.

Definition batch_args (c : ConfigData) (b : BatchSchedulerConfigData)
    : Res (BatchSchedulerArgs * JitoArgs) :=
  keypair ← unwrap_res "Keypair::read_from_file" (keypair_read_from_file (batch_keypair_path b));
  tip ← tip_args (batch_tip b);
  mret ({|
    BatchScheduler.args_tip := tip;
    BatchScheduler.args_keypair := keypair;
    BatchScheduler.args_filter_keys := config_filter_keys c;
    BatchScheduler.args_unchecked_capacity := batch_unchecked_capacity b;
    BatchScheduler.args_checked_capacity := batch_checked_capacity b;
    BatchScheduler.args_bundle_capacity := batch_bundle_capacity b;
    BatchScheduler.args_runtime := batch_runtime b;
  |}, jito_args (batch_jito b)).

Definition auction_args (c : ConfigData) (a : AuctionBatchSchedulerConfigData)
    : Res (AuctionBatchSchedulerArgs * JitoArgs) :=
  keypair ← unwrap_res "Keypair::read_from_file" (keypair_read_from_file (auction_keypair_path a));
  tip ← tip_args (auction_tip a);
  mret ({|
    AuctionScheduler.args_tip := tip;
    AuctionScheduler.args_keypair := keypair;
    AuctionScheduler.args_filter_keys := config_filter_keys c;
    AuctionScheduler.args_unchecked_capacity := auction_unchecked_capacity a;
    AuctionScheduler.args_checked_capacity := auction_checked_capacity a;
    AuctionScheduler.args_bundle_capacity := auction_bundle_capacity a;
    AuctionScheduler.args_runtime := auction_runtime a;
    args_scoring :=
      from_option (λ s, {| min_score := scoring_min_score s |}) AuctionBatchConfig_default (auction_scoring a);
  |}, jito_args (auction_jito a)).

Inductive Hosted :=
| HostedBatch (args : BatchSchedulerArgs) (jito : JitoArgs)
| HostedAuction (args : AuctionBatchSchedulerArgs) (jito : JitoArgs).

(** The auction scheduler wins when both are configured. *)
Definition setup (c : ConfigData) : Res Hosted :=
  match auction (scheduler c) with
  | Some a => aj ← auction_args c a; mret (HostedAuction aj.1 aj.2)
  | None =>
      match batch (scheduler c) with
      | Some b => bj ← batch_args c b; mret (HostedBatch bj.1 bj.2)
      | None => Panicked (PUnreachable "No scheduler configuration found")
      end
  end.
End Setup.

Record ClientLogon := {
  worker_count : Z;
  allocator_size : Z;
  allocator_handles : Z;
  tpu_to_pack_capacity : Z;
  progress_tracker_capacity : Z;
  pack_to_worker_capacity : Z;
  worker_to_pack_capacity : Z;
  logon_flags : Z;
}.

(** The session that [spawn] asks for. *)
Definition client_logon (worker_threads : Z) : ClientLogon := {|
  worker_count := worker_threads;
  allocator_size := 2 * 1024 * 1024 * 1204;
  allocator_handles := 1;
  tpu_to_pack_capacity := 2 ^ 16;
  progress_tracker_capacity := 128;
  pack_to_worker_capacity := 128;
  worker_to_pack_capacity := 256;
  logon_flags := 0;
|}.

(** ** The scheduler thread *)

Section BatchHost.
Context `{Profile} `{AgaveBindings} `{World W} {Heap DSet : Type}
  `{MinMaxHeap Heap PriorityId} `{IndexSet DSet PriorityId}.
Abbreviation BatchSched := (BatchScheduler.BatchScheduler Heap DSet).
Abbreviation BatchSt := (St BatchSched W).

(** The configuration is applied before each poll. *)
Definition apply_batch_config (c : ConfigData) (s : BatchSched) : BatchSched :=
  match batch (scheduler c) with
  | None => s
  | Some b =>
      BatchScheduler.set_runtime_config (batch_unchecked_capacity b) (batch_checked_capacity b)
        (batch_bundle_capacity b) (batch_block_fill_cutoff b) (Z.to_nat (batch_max_check_batches b))
        (from_millis (batch_bundle_expiry_ms b)) (from_secs (batch_progress_timeout_sec b)) s
  end.

Definition batch_host_poll (c : ConfigData) (fuel : nat) : M BatchSt unit :=
  update (apply_batch_config c) ;; BatchScheduler.poll fuel.

(** One round of [while !shutdown.is_cancelled()]. *)
Definition batch_host_round (c : ConfigData) (fuel : nat) : M BatchSt Flow :=
  let* cancelled := bridge w_shutdown_is_cancelled in
  if cancelled : bool then mret Break else batch_host_poll c fuel ;; mret Continue.

Definition batch_host_loop (c : ConfigData) (rounds fuel : nat) : M BatchSt unit :=
  loop_fuel rounds (batch_host_round c fuel).

(** What [setup] passes on and what each poll applies agree, field by field. *)
Lemma batch_config_started `{!HostCrates} `{!JitoCrates} c args jito evs (w w' : W) (s : BatchSched) :
  setup c = Ok (HostedBatch args jito) → BatchScheduler.new_with_jito evs args w = Ok (s, w') →
  apply_batch_config c s = s.
Proof.
  unfold setup, apply_batch_config. destruct (auction (scheduler c)) as [a|].
  { intros Ha. destruct (auction_args c a) as [[]|?|]; done. }
  destruct (batch (scheduler c)) as [b|]; [|done]. unfold batch_args.
  destruct (unwrap_res _ _) as [kp|?|]; simpl; [|done..].
  destruct (tip_args _) as [tip|?|]; simpl; [|done..]. intros [= <- <-].
  unfold BatchScheduler.new_with_jito. destruct (w_jito_recv_timeout w) as [[[bc| | | |]|] w1]; try done.
  destruct (w_instant_now w1) as [now w2]. by intros [= <- <-].
Qed.

(** A new configuration leads from a reachable state to a reachable one with the
    same executions in flight: what is proved of the reachable states holds
    whenever the file is changed. *)
Lemma batch_config_reachable `{!WorldLaws} `{!MinMaxHeapLaws Heap PriorityId}
    `{!IndexSetLaws DSet PriorityId} c O (st : BatchSt) :
  reachable O st → reachable O (mk (apply_batch_config c (sch st)) (wld st)).
Proof.
  intros Hr. unfold apply_batch_config. destruct (batch (scheduler c)) as [b|]; [|by destruct st].
  eapply reach_step; [exact Hr|apply step_set_config].
Qed.
End BatchHost.

Section AuctionHost.
Context `{Profile} `{AgaveBindings} `{World W} `{LibM} `{HashMapOrder} {Heap DSet : Type}
  `{MinMaxHeap Heap PriorityId} `{IndexSet DSet PriorityId}.
Abbreviation AuctionSched := (AuctionBatchScheduler Heap DSet).
Abbreviation AuctionSt := (St AuctionSched W).

Definition apply_auction_config (c : ConfigData) (s : AuctionSched) : AuctionSched :=
  match auction (scheduler c) with
  | None => s
  | Some a =>
      AuctionScheduler.set_runtime_config (auction_unchecked_capacity a) (auction_checked_capacity a)
        (auction_bundle_capacity a) (auction_block_fill_cutoff a) (Z.to_nat (auction_max_check_batches a))
        (from_millis (auction_bundle_expiry_ms a)) (from_secs (auction_progress_timeout_sec a)) s
  end.

Definition auction_host_poll (c : ConfigData) (fuel : nat) : M AuctionSt unit :=
  update (apply_auction_config c) ;; AuctionScheduler.poll fuel.

Definition auction_host_round (c : ConfigData) (fuel : nat) : M AuctionSt Flow :=
  let* cancelled := bridge w_shutdown_is_cancelled in
  if cancelled : bool then mret Break else auction_host_poll c fuel ;; mret Continue.

Definition auction_host_loop (c : ConfigData) (rounds fuel : nat) : M AuctionSt unit :=
  loop_fuel rounds (auction_host_round c fuel).

Lemma auction_config_started `{!HostCrates} `{!JitoCrates} c args jito evs (w w' : W) (s : AuctionSched) :
  setup c = Ok (HostedAuction args jito) → AuctionScheduler.new_with_jito evs args w = Ok (s, w') →
  apply_auction_config c s = s.
Proof.
  unfold setup, apply_auction_config. destruct (auction (scheduler c)) as [a|]; last first.
  { destruct (batch (scheduler c)) as [b|]; [|done]. destruct (batch_args c b) as [[]|?|]; done. }
  unfold auction_args. destruct (unwrap_res _ _) as [kp|?|]; simpl; [|done..].
  destruct (tip_args _) as [tip|?|]; simpl; [|done..]. intros [= <- <-].
  unfold AuctionScheduler.new_with_jito. destruct (w_jito_recv_timeout w) as [[[bc| | | |]|] w1]; try done.
  destruct (w_instant_now w1) as [now w2]. by intros [= <- <-].
Qed.

Lemma auction_config_reachable `{!WorldLaws} `{!MinMaxHeapLaws Heap PriorityId}
    `{!IndexSetLaws DSet PriorityId} c O (st : AuctionSt) :
  auction_reachable O st → auction_reachable O (mk (apply_auction_config c (sch st)) (wld st)).
Proof.
  intros Hr. unfold apply_auction_config. destruct (auction (scheduler c)) as [a|]; [|by destruct st].
  eapply areach_step; [exact Hr|apply astep_set_config].
Qed.
End AuctionHost.

(** A scheduler that was started from a configuration already runs with it:
    what [setup] passes on and what each poll applies agree, field by field, for
    either scheduler. *)
Lemma config_applied `{Profile} `{AgaveBindings} `{World W} `{LibM} `{HashMapOrder} {Heap DSet : Type}
    `{MinMaxHeap Heap PriorityId} `{IndexSet DSet PriorityId} `{!HostCrates} `{!JitoCrates}
    c jito evs (w w' : W) :
  (∀ args (s : BatchScheduler.BatchScheduler Heap DSet),
     setup c = Ok (HostedBatch args jito) → BatchScheduler.new_with_jito evs args w = Ok (s, w') →
     apply_batch_config c s = s) ∧
  (∀ args (s : AuctionBatchScheduler Heap DSet),
     setup c = Ok (HostedAuction args jito) → AuctionScheduler.new_with_jito evs args w = Ok (s, w') →
     apply_auction_config c s = s).
Proof. split; intros args s; [apply batch_config_started|apply auction_config_started]. Qed.

(** ** The Jito thread and the scheduler *)

Section Startup.
Context `{Profile} `{AgaveBindings} `{World W} `{LibM} `{HashMapOrder} {Heap DSet : Type}
  `{MinMaxHeap Heap PriorityId} `{IndexSet DSet PriorityId}
  `{!JitoCrates} `{!JitoNetwork Net} `{!UpdateChannel C} `{!UpdateChannelLaws C}
  `{!Async Net Fut (option (Hash * Z))}.

(** C28: a scheduler that takes the first message the Jito thread sent does not
    meet its [unreachable!]: it starts, with the block builder's configuration
    that the thread sent. *)
Theorem jito_startup sessions keypair ws c0 n0 st' evs batch_args auction_args (w w' : W) u :
  ch_sent c0 = [] → run sessions keypair ws (mk c0 n0) = Ok (tt, st') →
  w_jito_recv_timeout w = (Some u, w') → hd_error (ch_sent (sch st')) = Some u →
  ∃ c, u = JBuilderConfig c ∧
    (∃ (s : BatchScheduler.BatchScheduler Heap DSet) w'', BatchScheduler.new_with_jito evs batch_args w = Ok (s, w'') ∧
       BatchScheduler.builder_config s = c) ∧
    (∃ (s : AuctionBatchScheduler Heap DSet) w'', AuctionScheduler.new_with_jito evs auction_args w = Ok (s, w'') ∧
       AuctionScheduler.builder_config s = c).
Proof.
  intros Hc0 Hrun Hrecv Hhd. pose proof (run_sent sessions keypair ws (mk c0 n0)) as Hsent.
  unfold wp in Hsent. rewrite Hrun in Hsent. destruct Hsent as (msgs & Ht & Hs).
  unfold JitoSession.sent in Hs. simpl in Hs. rewrite Hs, Hc0 in Hhd. destruct (thread_trace_first msgs u Ht Hhd) as [c ->].
  exists c. split; [done|]. unfold BatchScheduler.new_with_jito, AuctionScheduler.new_with_jito.
  rewrite Hrecv. destruct (w_instant_now w') as [now w'']. split; by eexists _, w''.
Qed.
End Startup.

(** ** The exit of the process *)

(** What a panic carries. *)
Inductive Payload := PayloadStr (message : string) | PayloadString (message : string) | PayloadOther.

(** The output of [spawn_blocking(|| thread.join())]: [None] in [Joined] is
    [Ok(())]. *)
Inductive JoinOutcome := Joined (r : option Payload) | JoinFailed (message : string).

(** [exit.and(result)]. *)
Definition exit_and (exit result : option Payload) : option Payload :=
  match exit with None => result | Some e => Some e end.

(** Wait for the other threads. *)
Fixpoint await_rest (exit : option Payload) (outcomes : list JoinOutcome) : Res (option Payload) :=
  match outcomes with
  | [] => Ok exit
  | Joined r :: outcomes' => await_rest (exit_and exit r) outcomes'
  | JoinFailed _ :: _ => Panicked (PUnwrap "thread.unwrap")
  end.

(** [await_shutdown], given whether the shutdown comes before any thread's exit,
    and the threads' outcomes in the order of their exits. [None]: [Ok(())]. *)
Definition await_shutdown (cancelled : bool) (outcomes : list JoinOutcome) : Res (option Payload) :=
  if cancelled then await_rest None outcomes
  else
    match outcomes with
    | [] => Panicked (PUnwrap "threads.next")
    | Joined None :: rest => await_rest (Some (PayloadStr "Thread exited unexpectedly")) rest
    | Joined (Some panic) :: rest => await_rest (Some panic) rest
    | JoinFailed _ :: rest => await_rest (Some PayloadOther) rest
    end.

Definition panic_result_to_error (p : Payload) : string :=
  match p with
  | PayloadStr message => message
  | PayloadString message => message
  | PayloadOther => "task panicked"
  end.

(** What [main] returns: [None] is [Ok(())]. [run]: the outcome of the scheduler
    task, when it ends before a signal. *)
Definition main_exit (run : option (string + option Payload)) : option string :=
  match run with
  | None => None
  | Some (inl join_error) => Some join_error
  | Some (inr None) => None
  | Some (inr (Some panic)) => Some (panic_result_to_error panic)
  end.

Definition error_of (o : JoinOutcome) : option Payload :=
  match o with Joined r => r | JoinFailed _ => None end.

Lemma await_rest_spec exit outcomes :
  Forall (λ o, ∃ r, o = Joined r) outcomes →
  await_rest exit outcomes = Ok (match exit with Some e => Some e | None => hd_error (omap error_of outcomes) end).
Proof.
  intros Ho. revert exit. induction Ho as [|o outcomes [r ->] _ IH]; intros exit; simpl.
  { by destruct exit. }
  rewrite IH. by destruct exit, r.
Qed.

(** The result is the first error of a thread; without one it is a success
    exactly if a shutdown was asked for before any thread ended. *)
Lemma await_shutdown_first_error cancelled outcomes :
  outcomes ≠ [] → Forall (λ o, ∃ r, o = Joined r) outcomes →
  await_shutdown cancelled outcomes = Ok (
    if cancelled then hd_error (omap error_of outcomes)
    else match outcomes with
         | Joined (Some e) :: _ => Some e
         | _ => Some (PayloadStr "Thread exited unexpectedly")
         end).
Proof.
  intros Hne Ho. unfold await_shutdown. destruct cancelled; [by rewrite await_rest_spec|].
  destruct Ho as [|o outcomes [r ->] Ho]; [done|]. by destruct r; rewrite await_rest_spec.
Qed.
