(* ===== verification/Startup.v ===== *)
(** * Start-up (JitoThread::spawn, BatchScheduler::new, AuctionBatchScheduler::new)

    From a configuration to a scheduler that can be polled: the endpoint of the
    block engine, the Jito thread, and the scheduler that waits for its first
    message.  Everything that can fail panics. *)

From S2P Require Import Prelude F64 BTreeSet Types Events Externals LockTable TipProgram Costs Common.
From S2P Require Import JitoThread BatchScheduler BatchInvariant BatchReach.
From S2P Require Import AuctionLocks AuctionEngine AuctionScheduler AuctionInvariant AuctionReach Host.
Import Config.

(** [tonic::transport::Endpoint]. *)
Class TonicEndpoint := {
  Endpoint : Type;
  from_shared : string → option Endpoint;
  tcp_keepalive : Z → Endpoint → Endpoint;
  tls_config : Endpoint → option Endpoint;
}.

Section Startup.
Context `{Profile} `{AgaveBindings} `{World W} `{LibM} `{HashMapOrder} {Heap DSet : Type}
  `{MinMaxHeap Heap PriorityId} `{IndexSet DSet PriorityId} `{!HostCrates} `{!JitoCrates} `{!TonicEndpoint}.
Abbreviation BatchSched := (BatchScheduler.BatchScheduler Heap DSet).
Abbreviation AuctionSched := (AuctionBatchScheduler Heap DSet).

(** [JitoThread::spawn] up to the thread: the block engine's endpoint. *)
Definition jito_endpoint (config : JitoArgs) : Res Endpoint :=
  let enable_tls := String.prefix "https" (JitoThread.block_engine config) in
  endpoint ← unwrap_res "Endpoint::from_shared" (from_shared (JitoThread.block_engine config));
  let endpoint := tcp_keepalive (from_secs 60) endpoint in
  if enable_tls : bool then unwrap_res "tls_config" (tls_config endpoint) else mret endpoint.

(** [BatchScheduler::new] and [AuctionBatchScheduler::new]. *)
Definition batch_new (events : option EventEmitter) (args : BatchSchedulerArgs) (jito : JitoArgs) (w : W)
    : Res (BatchSched * W) :=
  _ ← jito_endpoint jito;
  BatchScheduler.new_with_jito events args w.

Definition auction_new (events : option EventEmitter) (args : AuctionBatchSchedulerArgs) (jito : JitoArgs) (w : W)
    : Res (AuctionSched * W) :=
  _ ← jito_endpoint jito;
  AuctionScheduler.new_with_jito events args w.

Inductive Running := RunningBatch (s : BatchSched) | RunningAuction (s : AuctionSched).

(** [SchedulerThread::setup] up to the threads. *)
Definition start (events : option EventEmitter) (c : ConfigData) (w : W) : Res (Running * W) :=
  hosted ← setup c;
  match hosted with
  | HostedAuction args jito => '(s, w) ← auction_new events args jito w; mret (RunningAuction s, w)
  | HostedBatch args jito => '(s, w) ← batch_new events args jito w; mret (RunningBatch s, w)
  end.

(** ** When it succeeds *)

Record SchedulerSettings := { keypair_path : string; tip_data : TipDistributionConfigData; jito_data : JitoConfigData }.

Definition batch_settings (b : BatchSchedulerConfigData) : SchedulerSettings :=
  {| keypair_path := batch_keypair_path b; tip_data := batch_tip b; jito_data := batch_jito b |}.
Definition auction_settings (a : AuctionBatchSchedulerConfigData) : SchedulerSettings :=
  {| keypair_path := auction_keypair_path a; tip_data := auction_tip a; jito_data := auction_jito a |}.

(** The settings of the scheduler that is started. *)
Definition configured (c : ConfigData) : option SchedulerSettings :=
  match auction (scheduler c), batch (scheduler c) with
  | Some a, _ => Some (auction_settings a)
  | None, Some b => Some (batch_settings b)
  | None, None => None
  end.

(** The keypair's file, the addresses and the endpoint are well-formed, and the
    first message of the Jito thread comes in time. *)
Definition can_start (w : W) (s : SchedulerSettings) : Prop :=
  is_Some (keypair_read_from_file (keypair_path s)) ∧
  is_Some (pubkey_from_str (Config.vote_account (tip_data s))) ∧
  is_Some (pubkey_from_str (Config.merkle_authority (tip_data s))) ∧
  (∃ endpoint, jito_endpoint (jito_args (jito_data s)) = Ok endpoint) ∧
  (∃ builder w', w_jito_recv_timeout w = (Some (JBuilderConfig builder), w')).

Lemma jito_endpoint_returns config : jito_endpoint config ≠ Hang.
Proof.
  unfold jito_endpoint, unwrap_res. destruct (from_shared _) as [e|]; [|done]. simpl.
  destruct (String.prefix _ _); [|done]. by destruct (tls_config _).
Qed.

(** What start-up answers is a start, or a panic that names what is missing. *)
Definition start_outcome {A} (ok : A → Prop) (w : W) (s : SchedulerSettings) (r : Res A) : Prop :=
  match r with
  | Ok a => can_start w s ∧ ok a
  | Panicked _ => ¬ can_start w s
  | Hang => False
  end.

(** Each step that may panic, in the order of the code. *)
Ltac start_cases jito w :=
  unfold tip_args, unwrap_res, start_outcome, can_start; simpl;
  destruct (keypair_read_from_file _); simpl; [|by intros [[] _]];
  destruct (pubkey_from_str (Config.vote_account _)); simpl; [|by intros (_ & [] & _)];
  destruct (pubkey_from_str (Config.merkle_authority _)); simpl; [|by intros (_ & _ & [] & _)];
  pose proof (jito_endpoint_returns (jito_args jito));
  destruct (jito_endpoint (jito_args jito)); simpl; [|by intros (_ & _ & _ & [] & _)|done];
  unfold BatchScheduler.new_with_jito, AuctionScheduler.new_with_jito;
  destruct (w_jito_recv_timeout w) as [[[]|] w1]; [|naive_solver..];
  destruct (w_instant_now w1); split; [by eauto 10|by eexists _, _].

Lemma batch_starts events c b w :
  start_outcome (λ sw, ∃ args jito, batch_args c b = Ok (args, jito) ∧ BatchScheduler.new_with_jito events args w = Ok sw)
    w (batch_settings b) (aj ← batch_args c b; batch_new events aj.1 aj.2 w).
Proof. unfold batch_args, batch_new. start_cases (batch_jito b) w. Qed.

Lemma auction_starts events c a w :
  start_outcome (λ sw, ∃ args jito, auction_args c a = Ok (args, jito) ∧ AuctionScheduler.new_with_jito events args w = Ok sw)
    w (auction_settings a) (aj ← auction_args c a; auction_new events aj.1 aj.2 w).
Proof. unfold auction_args, auction_new. start_cases (auction_jito a) w. Qed.

Context `{!WorldLaws} `{!MinMaxHeapLaws Heap PriorityId} `{!IndexSetLaws DSet PriorityId}.

(** The scheduler that was started: it runs with the configuration, and it is in
    a state from which all that is proved of the reachable states follows. *)
Definition start_state (c : ConfigData) (started : Running) (w : W) : Prop :=
  match started with
  | RunningBatch s => auction (scheduler c) = None ∧ reachable [] (mk s w) ∧ apply_batch_config c s = s
  | RunningAuction s => auction_reachable [] (mk s w) ∧ apply_auction_config c s = s
  end.

(** C32: start-up succeeds exactly if a scheduler is configured, its keypair can
    be read, its addresses parse, the block engine's endpoint is well-formed and
    the first message of the Jito thread is the block builder's configuration,
    in time; otherwise it panics.  The scheduler that was started is the auction
    scheduler if both are configured; it already runs with the configuration,
    and it is in a reachable state with nothing in flight. *)
Theorem startup events c w :
  match start events c w with
  | Ok (started, w') => (∃ s, configured c = Some s ∧ can_start w s) ∧ start_state c started w'
  | Panicked _ => ∀ s, configured c = Some s → ¬ can_start w s
  | Hang => False
  end.
Proof.
  unfold start, setup, configured. destruct (auction (scheduler c)) as [a|] eqn:Ha.
  - pose proof (auction_starts events c a w) as Hs. destruct (auction_args c a) as [[args jito]|p|] eqn:Hargs; simpl in *;
      [|by intros s [= <-]|done].
    destruct (auction_new events args jito w) as [[s w']|p|]; simpl in *; [|by intros s [= <-]|done].
    destruct Hs as (Hc & args' & jito' & Heq & Hnew). simplify_eq. split; [by eexists|]. split.
    + by eapply areach_start.
    + eapply auction_config_started; [|exact Hnew]. unfold setup. by rewrite Ha, Hargs.
  - destruct (batch (scheduler c)) as [b|] eqn:Hb; [|done].
    pose proof (batch_starts events c b w) as Hs. destruct (batch_args c b) as [[args jito]|p|] eqn:Hargs; simpl in *;
      [|by intros s [= <-]|done].
    destruct (batch_new events args jito w) as [[s w']|p|]; simpl in *; [|by intros s [= <-]|done].
    destruct Hs as (Hc & args' & jito' & Heq & Hnew). simplify_eq. split; [by eexists|]. split; [done|]. split.
    + by eapply reach_start.
    + eapply batch_config_started; [|exact Hnew]. unfold setup. by rewrite Ha, Hb, Hargs.
Qed.
End Startup.
