(* ===== verification/Process.v ===== *)
(** * The threads of the process, and how it ends
    (external-scheduler/src/main.rs, scheduler_thread.rs)

    Three tasks run next to each other: [main], which waits for a signal or for
    the scheduler task; the scheduler task ([SchedulerThread::run]), which sets
    up the threads and awaits their exits; and those threads.  They share the
    cancellation token.  A step is one thing one of them does, in any order.
    When [main] returns, the runtime is dropped, which waits for the tasks that
    block on the threads. *)

From S2P Require Import Prelude F64 BTreeSet Types Externals TipProgram Common Drains Host.
From S2P Require Import AuctionLocks AuctionEngine AuctionScheduler.

(** [SchedulerThread::run]: before [setup] is through; in the [select!] of
    [await_shutdown]; in its loop, with the [exit] so far; after it. *)
Inductive Task :=
| TaskSetup
| TaskSelecting
| TaskDraining (exit : option Payload)
| TaskDone (exit : option Payload)
| TaskPanicked (message : string)
| TaskAborted.

(** [main]: in its [select!]; awaiting the aborted task; returned. *)
Inductive Main := MainSelecting | MainAborting | MainDone (result : option string).

Record Process := {
  (** [shutdown.is_cancelled()]. *)
  token : bool;
  (** A signal was handled. *)
  signalled : bool;
  (** The threads whose exits are awaited and have not come yet. *)
  awaited : gset nat;
  (** The exits that have come and were not taken by the task yet, and those
      that were. *)
  joined : list JoinOutcome;
  taken : list JoinOutcome;
  task : Task;
  main : Main;
}.

#[export] Instance Process_eta : Eta Process := λ p, {|
  token := token p; signalled := signalled p; awaited := awaited p; joined := joined p;
  taken := taken p; task := task p; main := main p |}.

Definition task_finished (t : Task) : bool :=
  match t with TaskDone _ | TaskPanicked _ | TaskAborted => true | _ => false end.

(** [opt.unwrap()] in the [select!]: the first exit. *)
Definition first_exit (o : JoinOutcome) : option Payload :=
  match o with
  | Joined None => Some (PayloadStr "Thread exited unexpectedly")
  | Joined (Some panic) => Some panic
  | JoinFailed _ => Some PayloadOther
  end.

(** One more exit in the loop. *)
Definition next_exit (exit : option Payload) (o : JoinOutcome) : Task :=
  match o with
  | Joined r => TaskDraining (exit_and exit r)
  | JoinFailed message => TaskPanicked message
  end.

Section Process.
(** The threads [setup] spawns, and how each of them may end while the token is
    [token]. *)
Context (threads : gset nat) (may_end : nat → bool → JoinOutcome → Prop).

Inductive thread_step (p : Process) : Process → Prop :=
| thread_exits i o :
    i ∈ awaited p → may_end i (token p) o →
    thread_step p (p <| awaited ::= λ l, l ∖ {[i]} |> <| joined ::= λ l, l ++ [o] |>).

Inductive task_step (p : Process) : Process → Prop :=
| setup_done :
    task p = TaskSetup → task_step p (p <| task := TaskSelecting |> <| awaited := threads |>)
| setup_panics message :
    task p = TaskSetup → task_step p (p <| task := TaskPanicked message |>)
| select_cancelled :
    task p = TaskSelecting → token p = true →
    task_step p (p <| task := TaskDraining None |> <| token := true |>)
| select_exit o rest :
    task p = TaskSelecting → joined p ≡ₚ o :: rest →
    task_step p (p <| task := TaskDraining (first_exit o) |> <| token := true |>
                   <| joined := rest |> <| taken ::= λ l, l ++ [o] |>)
| drain_exit exit o rest :
    task p = TaskDraining exit → joined p ≡ₚ o :: rest →
    task_step p (p <| task := next_exit exit o |> <| joined := rest |> <| taken ::= λ l, l ++ [o] |>)
| drain_done exit :
    task p = TaskDraining exit → awaited p = ∅ → joined p = [] →
    task_step p (p <| task := TaskDone exit |>).

Definition signal_step (p p' : Process) : Prop :=
  main p = MainSelecting ∧ p' = p <| signalled := true |> <| token := true |> <| main := MainAborting |>.

Inductive main_step (p : Process) : Process → Prop :=
(** The scheduler task's end. *)
| main_task_done exit :
    main p = MainSelecting → task p = TaskDone exit →
    main_step p (p <| token := true |> <| main := MainDone (main_exit (Some (inr exit))) |>)
| main_task_panicked message :
    main p = MainSelecting → task p = TaskPanicked message →
    main_step p (p <| token := true |> <| main := MainDone (main_exit (Some (inl message))) |>)
(** [abort] takes effect where the task awaits something. *)
| main_aborts :
    main p = MainAborting → task_finished (task p) = false →
    main_step p (p <| task := TaskAborted |>)
| main_aborted :
    main p = MainAborting → task_finished (task p) = true →
    main_step p (p <| main := MainDone (main_exit None) |>).

Definition inner_step (p p' : Process) : Prop := thread_step p p' ∨ task_step p p' ∨ main_step p p'.
Definition process_step (p p' : Process) : Prop := inner_step p p' ∨ signal_step p p'.

Definition process_start : Process := {|
  token := false; signalled := false; awaited := ∅; joined := []; taken := [];
  task := TaskSetup; main := MainSelecting |}.

Definition process_reachable : Process → Prop := rtc process_step process_start.

(** [main] has returned and the runtime is dropped. *)
Definition exited (p : Process) : Prop := (∃ result, main p = MainDone result) ∧ awaited p = ∅.

(** All threads run, nobody has asked for a shutdown. *)
Definition healthy (p : Process) : Prop :=
  main p = MainSelecting ∧ task p = TaskSelecting ∧ awaited p = threads ∧ joined p = [] ∧
  token p = false ∧ signalled p = false.

(** ** What holds in every reachable state *)

(** The exits taken so far make [exit]; without a signal the first of them came
    before any shutdown. *)
Definition exit_so_far (p : Process) (exit : option Payload) : Prop :=
  ∃ cancelled, (cancelled = true → signalled p = true) ∧ (cancelled = false → taken p ≠ []) ∧
    await_shutdown cancelled (taken p) = Ok exit.

Definition early (o : JoinOutcome) : Prop := ∃ i, may_end i false o.

Definition task_inv (p : Process) : Prop :=
  match task p with
  | TaskSetup => awaited p = ∅ ∧ joined p = [] ∧ taken p = [] ∧ token p = signalled p
  | TaskSelecting =>
      awaited p ⊆ threads ∧ (size (awaited p) + length (joined p))%nat = size threads ∧ taken p = [] ∧
      token p = signalled p ∧ (signalled p = false → Forall early (joined p))
  | TaskDraining exit => token p = true ∧ exit_so_far p exit
  | TaskDone exit => awaited p = ∅ ∧ joined p = [] ∧ token p = true ∧ exit_so_far p exit
  | TaskPanicked _ => True
  | TaskAborted => signalled p = true
  end.

Definition main_inv (p : Process) : Prop :=
  match main p with
  | MainSelecting => signalled p = false
  | MainAborting => signalled p = true ∧ token p = true
  | MainDone r =>
      token p = true ∧
      if signalled p then r = None
      else (∃ message, task p = TaskPanicked message ∧ r = Some message) ∨
           (∃ exit, task p = TaskDone exit ∧ r = main_exit (Some (inr exit)))
  end.

Definition taken_inv (p : Process) : Prop :=
  signalled p = false → match taken p with [] => True | o :: _ => early o end.

Definition process_inv (p : Process) : Prop := task_inv p ∧ main_inv p ∧ taken_inv p.

Lemma await_rest_snoc exit l o exit' :
  await_rest exit l = Ok exit' → await_rest exit (l ++ [o]) = await_rest exit' [o].
Proof. revert exit. induction l as [|[r|m] l IH]; intros exit; simpl; [by intros [= ->]|apply IH|done]. Qed.

Lemma exit_so_far_first p o exit :
  taken p = [o] → exit = first_exit o → exit_so_far p exit.
Proof. intros Ht ->. exists false. rewrite Ht. by destruct o as [[]|]. Qed.

Lemma exit_so_far_next (p p' : Process) exit o exit' :
  exit_so_far p exit → taken p' = taken p ++ [o] → (signalled p = true → signalled p' = true) →
  next_exit exit o = TaskDraining exit' → exit_so_far p' exit'.
Proof.
  intros (c & Hc & Hne & Ha) Ht Hs Hn. exists c. rewrite Ht. split; [auto|]. split; [by destruct (taken p)|].
  destruct o as [r|m]; [|done]. injection Hn as <-.
  destruct c; simpl in *; [by erewrite await_rest_snoc|].
  destruct (taken p) as [|[[e|]|m] l]; simpl in *; [by destruct Hne|..]; by erewrite await_rest_snoc.
Qed.

Lemma process_start_inv : process_inv process_start.
Proof. done. Qed.

Lemma thread_step_inv p p' : thread_step p p' → process_inv p → process_inv p'.
Proof.
  intros [i o Hi Ho] (Ht & Hm & Hk). split; [|split; [exact Hm|exact Hk]].
  unfold task_inv in *. simpl. destruct (task p); [..|done|done].
  - destruct Ht as (Ha & _). set_solver.
  - destruct Ht as (Hsub & Hsize & Hta & Htok & Hj). split_and!; [set_solver| |done|done|].
    + rewrite length_app. simpl. rewrite size_difference by set_solver. rewrite size_singleton.
      assert (size {[i]} ≤ size (awaited p))%nat as Hle by (apply subseteq_size; set_solver).
      rewrite size_singleton in Hle. lia.
    + intros Hs. apply Forall_app. split; [by apply Hj|]. constructor; [|done]. exists i.
      rewrite Htok, Hs in Ho. done.
  - exact Ht.
  - destruct Ht as (Ha & _). set_solver.
Qed.

Lemma exit_so_far_same (p p' : Process) exit :
  exit_so_far p exit → taken p' = taken p → (signalled p = true → signalled p' = true) → exit_so_far p' exit.
Proof. intros (c & Hc & Hne & Ha) Ht Hs. exists c. rewrite Ht. auto. Qed.

(** The task's own steps leave [main] where it is, and it does not end while it
    is what [main] reports. *)
Lemma main_inv_task (p p' : Process) :
  main_inv p → task_finished (task p) = false → main p' = main p → signalled p' = signalled p →
  (token p = true → token p' = true) → main_inv p'.
Proof.
  unfold main_inv. intros Hm Hf -> -> Htok. destruct (main p); [done|naive_solver|].
  destruct Hm as [Ht Hm]. split; [auto|]. destruct (signalled p); [done|].
  destruct Hm as [(message & Heq & _)|(exit & Heq & _)]; by rewrite Heq in Hf.
Qed.

Lemma task_step_inv p p' : task_step p p' → process_inv p → process_inv p'.
Proof.
  intros Hstep (Ht & Hm & Hk). unfold task_inv in Ht.
  assert (task_finished (task p) = false ∧ main p' = main p ∧ signalled p' = signalled p ∧
    (token p = true → token p' = true)) as (Hf & Hmain & Hs & Htok).
  { destruct Hstep as [Heq|message Heq|Heq _|o rest Heq _|exit o rest Heq _|exit Heq _ _]; by rewrite Heq. }
  split; [|split; [by eapply main_inv_task|]].
  - destruct Hstep as [Heq|message Heq|Heq Htk|o rest Heq Hj|exit o rest Heq Hj|exit Heq Ha Hj]; rewrite Heq in Ht;
      unfold task_inv; simpl.
    + destruct Ht as (_ & Hj & Hta & Htk). rewrite Hj, Hta. split_and!; [done|simpl; lia|done|done|by constructor].
    + done.
    + split; [done|]. exists true. destruct Ht as (_ & _ & Hta & Htk' & _). rewrite Hta. by rewrite <- Htk'.
    + split; [done|]. apply (exit_so_far_first _ o); [|done]. destruct Ht as (_ & _ & Hta & _). simpl. by rewrite Hta.
    + destruct Ht as [Htk Hex]. destruct (next_exit exit o) as [| |exit'| | |] eqn:Hn; try by destruct o.
      split; [done|]. by eapply exit_so_far_next; [exact Hex|reflexivity|done|].
    + destruct Ht as [Htk Hex]. split_and!; [done..|]. by eapply exit_so_far_same.
  - intros Hs'. rewrite Hs in Hs'. specialize (Hk Hs').
    destruct Hstep as [Heq|message Heq|Heq Htk|o rest Heq Hj|exit o rest Heq Hj|exit Heq Ha Hj]; simpl; try exact Hk.
    + rewrite Heq in Ht. destruct Ht as (_ & _ & Hta & _ & Hearly). rewrite Hta. simpl.
      specialize (Hearly Hs'). rewrite Hj in Hearly. by inversion Hearly.
    + rewrite Heq in Ht. destruct Ht as [_ (c & Hc & Hne & _)].
      destruct (taken p); [|exact Hk]. destruct c; [by rewrite Hc in Hs'|by destruct Hne].
Qed.

Lemma main_step_inv p p' : main_step p p' → process_inv p → process_inv p'.
Proof.
  intros Hstep (Ht & Hm & Hk). unfold main_inv in Hm.
  destruct Hstep as [exit Hmain Htask|message Hmain Htask|Hmain Htask|Hmain Htask]; rewrite Hmain in Hm.
  - split; [|split; [|exact Hk]]; unfold task_inv, main_inv in *; simpl; rewrite Htask in *.
    + destruct Ht as (Ha & Hj & Htk & Hex). split_and!; [done..|]. by eapply exit_so_far_same.
    + rewrite Hm. split; [done|]. right. by exists exit.
  - split; [|split; [|exact Hk]]; unfold task_inv, main_inv in *; simpl; rewrite Htask in *; [done|].
    rewrite Hm. split; [done|]. left. by exists message.
  - destruct Hm as [Hs Htk]. split; [exact Hs|]. split; [|exact Hk]. unfold main_inv. simpl. by rewrite Hmain.
  - destruct Hm as [Hs Htk]. split; [|split; [|exact Hk]].
    + unfold task_inv in *. simpl. by destruct (task p).
    + unfold main_inv. simpl. by rewrite Hs.
Qed.

Lemma signal_step_inv p p' : signal_step p p' → process_inv p → process_inv p'.
Proof.
  intros [Hmain ->] (Ht & Hm & Hk). split; [|split; [done|done]].
  unfold task_inv in *. simpl. destruct (task p); [naive_solver| |..|done|done].
  - naive_solver.
  - destruct Ht as [_ Hex]. split; [done|]. by eapply exit_so_far_same.
  - destruct Ht as (Ha & Hj & _ & Hex). split_and!; [done..|]. by eapply exit_so_far_same.
Qed.

Lemma process_reachable_inv p : process_reachable p → process_inv p.
Proof.
  intros Hr. apply (rtc_ind_r (R := process_step) (λ p, process_inv p) process_start); [done| |exact Hr].
  intros p1 p2 _ [[Hs|[Hs|Hs]]|Hs];
    [by apply thread_step_inv|by apply task_step_inv|by apply main_step_inv|by apply signal_step_inv].
Qed.

(** ** Every run ends *)

Definition main_rank (m : Main) : nat :=
  match m with MainSelecting => 2 | MainAborting => 1 | MainDone _ => 0 end.

Definition task_rank (t : Task) : nat :=
  match t with
  | TaskSetup => 3 + 2 * size threads
  | TaskSelecting => 2
  | TaskDraining _ => 1
  | _ => 0
  end.

(** Steps that are left, at most. *)
Definition steps_left (p : Process) : nat :=
  main_rank (main p) + task_rank (task p) + 2 * size (awaited p) + length (joined p).

Lemma size_without (i : nat) (X : gset nat) : i ∈ X → size X = Datatypes.S (size (X ∖ {[i]})).
Proof.
  intros Hi. rewrite size_difference by set_solver. rewrite size_singleton.
  assert (size ({[i]} : gset nat) ≤ size X)%nat as Hle by (apply subseteq_size; set_solver).
  rewrite size_singleton in Hle. lia.
Qed.

Lemma process_step_decreases p p' : process_step p p' → (steps_left p' < steps_left p)%nat.
Proof.
  unfold steps_left. intros [[[i o Hi _]|[Hs|Hs]]|[Hmain ->]]; simpl.
  - rewrite (size_without i (awaited p) Hi), length_app. simpl. lia.
  - destruct Hs as [Heq|message Heq|Heq _|o rest Heq Hj|exit o rest Heq Hj|exit Heq Ha Hj]; rewrite Heq; simpl;
      try lia; apply Permutation_length in Hj; simpl in Hj; try lia. destruct o; simpl; lia.
  - destruct Hs as [exit Hmain Htask|message Hmain Htask|Hmain Htask|Hmain Htask]; simpl; rewrite Hmain; simpl; try lia.
    assert (0 < task_rank (task p))%nat; [|lia]. destruct (task p); simpl in *; try lia; done.
  - rewrite Hmain. simpl. lia.
Qed.

Hypothesis ends_when_cancelled : ∀ i, i ∈ threads → ∃ o, may_end i true o.

(** The threads that are awaited are threads of the process. *)
Definition awaited_inv (p : Process) : Prop := awaited p ⊆ threads.

Lemma awaited_reachable p : process_reachable p → awaited_inv p.
Proof.
  intros Hr. apply (rtc_ind_r (R := process_step) awaited_inv process_start); [by unfold awaited_inv| |exact Hr].
  unfold awaited_inv. intros p1 p2 _ [[[i o Hi _]|[Hs|Hs]]|[_ ->]] Hsub; simpl; [set_solver|..|done].
  - by destruct Hs.
  - by destruct Hs.
Qed.

(** While nobody asked for a shutdown and the task selects, no thread's exit is
    left to come if some have come. *)
Lemma selecting_stuck p :
  process_reachable p → task p = TaskSelecting → (∀ p', ¬ task_step p p') → main p = MainSelecting → healthy p.
Proof.
  intros Hr Htask Hst Hmain. destruct (process_reachable_inv p Hr) as (Ht & Hm & _).
  unfold task_inv, main_inv in *. rewrite Htask in Ht. rewrite Hmain in Hm.
  destruct Ht as (Hsub & Hsize & _ & Htok & _).
  assert (joined p = []) as Hj.
  { destruct (joined p) as [|o rest] eqn:Hj; [done|]. destruct (Hst _ (select_exit p o rest Htask ltac:(by rewrite Hj))). }
  rewrite Hj in Hsize. split_and!; try done; [|by rewrite Htok].
  apply set_subseteq_size_eq; [done|]. simpl in Hsize. lia.
Qed.

(** The task goes on while it is not through, unless an exit is still to come. *)
Lemma task_goes_on p :
  task_finished (task p) = false → (∀ p', ¬ task_step p p') →
  task p = TaskSelecting ∨ (∃ exit, task p = TaskDraining exit) ∧ awaited p ≠ ∅.
Proof.
  intros Hf Hst. destruct (task p) as [| |exit| | |] eqn:Ht; try done; [|by left|].
  - destruct (Hst _ (setup_done p Ht)).
  - right. split; [by eexists|]. intros Ha. destruct (joined p) as [|o rest] eqn:Hj.
    + exact (Hst _ (drain_done p exit Ht Ha Hj)).
    + exact (Hst _ (drain_exit p exit o rest Ht ltac:(by rewrite Hj))).
Qed.

Lemma awaited_may_exit p :
  process_reachable p → token p = true → awaited p ≠ ∅ → ∃ p', thread_step p p'.
Proof using ends_when_cancelled.
  intros Hr Htok [i Hi]%set_choose_L. destruct (ends_when_cancelled i) as [o Ho]; [by apply (awaited_reachable p Hr)|].
  eexists. apply (thread_exits p i o Hi). by rewrite Htok.
Qed.

(** A thread that does not end is awaited for good. *)
Lemma deaf_awaited i p p' :
  process_reachable p → i ∈ awaited p → (∀ cancelled o, ¬ may_end i cancelled o) → rtc process_step p p' →
  i ∈ awaited p'.
Proof.
  intros Hr Hi Hdeaf Hsteps. revert Hr Hi. induction Hsteps as [p|p p1 p' Hstep _ IH]; [done|].
  intros Hr Hi. apply IH; [by eapply rtc_r|].
  destruct Hstep as [[[j o Hj Ho]|[Hs|Hs]]|[_ ->]]; simpl; [| | |done].
  - destruct (decide (i = j)) as [->|]; [by apply Hdeaf in Ho|set_solver].
  - destruct Hs as [Heq| | | | |]; simpl; try done.
    destruct (process_reachable_inv p Hr) as [Ht _]. unfold task_inv in Ht. rewrite Heq in Ht. set_solver.
  - by destruct Hs.
Qed.

(** Once a shutdown is asked for, it stays so. *)
Lemma token_stays p p' : rtc process_step p p' → token p = true → token p' = true.
Proof.
  intros Hsteps. induction Hsteps as [p|p p1 p' Hstep _ IH]; [done|]. intros Htok. apply IH.
  destruct Hstep as [[[i o _ _]|[Hs|Hs]]|[_ ->]]; [done|by destruct Hs..|done].
Qed.

(** Where only a signal can go on, the process is over or in good health. *)
Lemma stuck_over p :
  process_reachable p → (∀ p', ¬ inner_step p p') → exited p ∨ healthy p.
Proof using ends_when_cancelled.
  intros Hr Hst. destruct (process_reachable_inv p Hr) as (Ht & Hm & _).
  assert (∀ p', ¬ thread_step p p') as Hth by (intros p' ?; by apply (Hst p'); left).
  assert (∀ p', ¬ task_step p p') as Hta by (intros p' ?; by apply (Hst p'); right; left).
  assert (∀ p', ¬ main_step p p') as Hma by (intros p' ?; by apply (Hst p'); right; right).
  assert (token p = true → awaited p = ∅) as Hdone.
  { intros Htok. destruct (decide (awaited p = ∅)) as [|Ha]; [done|].
    destruct (awaited_may_exit p Hr Htok Ha) as [p' Hp']. by apply Hth in Hp'. }
  unfold main_inv, task_inv in Hm, Ht. destruct (main p) as [| |r] eqn:Hmain.
  - right. destruct (task_finished (task p)) eqn:Hf; [exfalso|].
    + destruct (task p) eqn:Htask; try done; [by eapply Hma, main_task_done|by eapply Hma, main_task_panicked|congruence].
    + destruct (task_goes_on p Hf Hta) as [Htask|[[exit Htask] Ha]]; [by apply selecting_stuck|].
      rewrite Htask in Ht. destruct Ht as [Htok _]. by specialize (Hdone Htok).
  - exfalso. destruct (task_finished (task p)) eqn:Hf; [by eapply Hma, main_aborted|by eapply Hma, main_aborts].
  - left. destruct Hm as [Htok _]. split; [by eexists|auto].
Qed.

(** C30: Suppose that every thread of the process can end once the shutdown is
    asked for (a scheduler that is stuck in [drain_jito] cannot, and the process
    then waits for it).  However its threads, tasks and signals interleave:
    every step leads nearer to the end, so no run is infinite; a run that can
    only be continued by a signal is over, or everything is well: all threads
    run and nobody has asked for a shutdown; and from a shutdown on, by a
    signal, by a thread that ended or panicked, or by a task that did, every run
    that cannot be continued has ended in the exit of the process, with no
    thread left. *)
Theorem process_ends p :
  process_reachable p →
  (∀ p', process_step p p' → (steps_left p' < steps_left p)%nat) ∧
  ((∀ p', ¬ inner_step p p') → exited p ∨ healthy p) ∧
  (token p = true → ∀ p', rtc process_step p p' → (∀ p'', ¬ inner_step p' p'') → exited p').
Proof using ends_when_cancelled.
  intros Hr. split; [by apply process_step_decreases|]. split; [by apply stuck_over|].
  intros Htok p' Hsteps Hst. pose proof (token_stays p p' Hsteps Htok) as Htok'.
  destruct (stuck_over p') as [|(_ & _ & _ & _ & Hno & _)]; [by unfold process_reachable in *; etrans|done..|congruence].
Qed.

(** Without a shutdown [await_shutdown] answers the error of the first exit. *)
Lemma await_rest_error error outcomes exit : await_rest (Some error) outcomes = Ok exit → exit = Some error.
Proof. induction outcomes as [|[r|m] outcomes IH]; simpl; [by intros [= <-]|apply IH|done]. Qed.

Lemma await_error o outcomes exit :
  await_shutdown false (o :: outcomes) = Ok exit → ∃ error, exit = Some error ∧ first_exit o = Some error.
Proof. destruct o as [[e|]|m]; simpl; intros Hex%await_rest_error; by eexists. Qed.

(** C31: what the process reports, however its threads, tasks and signals
    interleave.  After a signal it is a success, whatever became of the threads;
    without one it is an error: that of the scheduler task when it panicked, or
    the error of the thread that ended first, while no shutdown was asked for,
    once all threads have ended; it is what [await_shutdown] makes of the exits. *)
Theorem process_outcome p r :
  process_reachable p → main p = MainDone r →
  if signalled p then r = None
  else
    (∃ message, task p = TaskPanicked message ∧ r = Some message) ∨
    ∃ error, r = Some (panic_result_to_error error) ∧ await_shutdown false (taken p) = Ok (Some error) ∧
      awaited p = ∅ ∧ joined p = [] ∧ ∃ o rest, taken p = o :: rest ∧ early o ∧ first_exit o = Some error.
Proof.
  intros Hr Hmain. destruct (process_reachable_inv p Hr) as (Ht & Hm & Hk).
  unfold main_inv in Hm. rewrite Hmain in Hm. destruct Hm as [_ Hm].
  destruct (signalled p) eqn:Hs; [done|]. destruct Hm as [Hm|(exit & Htask & ->)]; [by left|]. right.
  unfold task_inv in Ht. rewrite Htask in Ht. destruct Ht as (Ha & Hj & _ & c & Hc & Hne & Hex).
  destruct c; [by rewrite Hc in Hs|]. specialize (Hk Hs). destruct (taken p) as [|o rest] eqn:Hta; [by destruct Hne|].
  destruct (await_error _ _ _ Hex) as (error & -> & Hfirst).
  exists error. split_and!; [done..|]. by exists o, rest.
Qed.
End Process.

(** ** The scheduler's thread *)

(** How a loop over [round] may end: with [Break], or with the panic that
    [payload_of] makes of one. *)
Definition loop_may_end {S} (payload_of : Panic → Payload) (cancelled : S → bool) (round : M S Flow)
    (token : bool) (o : JoinOutcome) : Prop :=
  ∃ rounds st,
    match loop_fuel rounds round st with
    | Ok (_, st') => cancelled st' = token ∧ o = Joined None
    | Panicked p => o = Joined (Some (payload_of p))
    | Hang => False
    end.

Lemma loop_ends_when_cancelled {S} payload_of (cancelled : S → bool) round :
  (∀ st st', round st = Ok (Break, st') → cancelled st' = true) →
  ¬ loop_may_end payload_of cancelled round false (Joined None).
Proof.
  intros Hbreak (rounds & st & Hend). revert st Hend.
  induction rounds as [|rounds IH]; intros st; simpl; [done|]. unfold bindM.
  destruct (round st) as [[[] st1]|p|] eqn:Hround; [apply IH|..|done|done].
  intros [Hc _]. apply Hbreak in Hround. congruence.
Qed.

(** A scheduler that nobody asked to shut down ends by a panic only. *)
Section SchedulerThread.
Context `{Profile} `{AgaveBindings} `{World W} `{LibM} `{HashMapOrder} {Heap DSet : Type}
  `{MinMaxHeap Heap PriorityId} `{IndexSet DSet PriorityId}.
Context (payload_of : Panic → Payload) (c : Config.ConfigData) (fuel : nat).

Definition batch_may_end : bool → JoinOutcome → Prop :=
  loop_may_end payload_of (λ st : St (BatchScheduler.BatchScheduler Heap DSet) W, w_shutdown_is_cancelled (wld st))
    (batch_host_round c fuel).

Definition auction_may_end : bool → JoinOutcome → Prop :=
  loop_may_end payload_of (λ st : St (AuctionBatchScheduler Heap DSet) W, w_shutdown_is_cancelled (wld st))
    (auction_host_round c fuel).

Lemma batch_ends_when_cancelled : ¬ batch_may_end false (Joined None).
Proof.
  apply loop_ends_when_cancelled. intros st st'. unfold batch_host_round, bindM, bridge, gets.
  destruct (w_shutdown_is_cancelled (wld st)) eqn:Hc; [by intros [= <-]|].
  by destruct (batch_host_poll c fuel st) as [[[] st1]|p|].
Qed.

Lemma auction_ends_when_cancelled : ¬ auction_may_end false (Joined None).
Proof.
  apply loop_ends_when_cancelled. intros st st'. unfold auction_host_round, bindM, bridge, gets.
  destruct (w_shutdown_is_cancelled (wld st)) eqn:Hc; [by intros [= <-]|].
  by destruct (auction_host_poll c fuel st) as [[[] st1]|p|].
Qed.
End SchedulerThread.
