(* ===== verification/ConfigFile.v ===== *)
(** * The configuration file (external-scheduler/src/config_store.rs, etc/*.toml)

    [ConfigStore::from_file] and what the derived [Deserialize] instances make
    of the tables of a TOML document: a missing field is an error, unless it is
    optional; fields that are not known are ignored.  The TOML parser, and how
    a [Pubkey] is written, are third-party code. *)

From S2P Require Import Prelude Types Externals TipProgram Common JitoThread BatchScheduler AuctionEngine AuctionScheduler Host.
Import Config.
#[local] Open Scope string_scope.
#[local] Open Scope list_scope.
#[local] Open Scope Z_scope.

#[warnings="-register-all"]
Inductive Toml :=
| TomlString (s : string)
| TomlInt (z : Z)
| TomlArray (l : list Toml)
| TomlTable (fields : list (string * Toml)).

Class TomlCrates := {
  (** [toml::from_str], up to the derived instances. *)
  toml_parse : string → option Toml;
  pubkey_from_toml : Toml → option Pubkey;
}.

(** ** Fields *)

(** The keys of a table are distinct. *)
Definition toml_field (k : string) (t : Toml) : option Toml :=
  match t with
  | TomlTable fields => snd <$> (snd <$> list_find (λ kv, kv.1 = k) fields)
  | _ => None
  end.

Definition toml_string (t : Toml) : option string :=
  match t with TomlString s => Some s | _ => None end.

(** An integer of the type's range. *)
Definition toml_uint (max : Z) (t : Toml) : option Z :=
  match t with
  | TomlInt z => if decide (0 ≤ z ≤ max) then Some z else None
  | _ => None
  end.

Definition toml_usize (t : Toml) : option nat := Z.to_nat <$> toml_uint U64_MAX t.

Definition U16_MAX : Z := 2 ^ 16 - 1.

Definition required {A} (f : Toml → option A) (k : string) (t : Toml) : option A :=
  v ← toml_field k t; f v.

(** A field of an [Option] type may be missing. *)
Definition optional {A} (f : Toml → option A) (k : string) (t : Toml) : option (option A) :=
  match toml_field k t with
  | None => Some None
  | Some v => Some <$> f v
  end.

(** ** The derived instances *)

Definition TipDistributionConfigData_from_toml (t : Toml) : option TipDistributionConfigData :=
  vote_account ← required toml_string "vote_account" t;
  merkle_authority ← required toml_string "merkle_authority" t;
  commission_bps ← required (toml_uint U16_MAX) "commission_bps" t;
  Some {| vote_account := vote_account; merkle_authority := merkle_authority; commission_bps := commission_bps |}.

Definition JitoConfigData_from_toml (t : Toml) : option JitoConfigData :=
  http_rpc ← required toml_string "http_rpc" t;
  ws_rpc ← required toml_string "ws_rpc" t;
  block_engine ← required toml_string "block_engine" t;
  Some {| http_rpc := http_rpc; ws_rpc := ws_rpc; block_engine := block_engine |}.

Definition BatchSchedulerConfigData_from_toml (t : Toml) : option BatchSchedulerConfigData :=
  keypair_path ← required toml_string "keypair_path" t;
  tip ← required TipDistributionConfigData_from_toml "tip" t;
  jito ← required JitoConfigData_from_toml "jito" t;
  unchecked_capacity ← required toml_usize "unchecked_capacity" t;
  checked_capacity ← required toml_usize "checked_capacity" t;
  bundle_capacity ← required toml_usize "bundle_capacity" t;
  block_fill_cutoff ← required (toml_uint U8_MAX) "block_fill_cutoff" t;
  max_check_batches ← required (toml_uint U8_MAX) "max_check_batches" t;
  bundle_expiry_ms ← required (toml_uint U64_MAX) "bundle_expiry_ms" t;
  progress_timeout_sec ← required (toml_uint U64_MAX) "progress_timeout_sec" t;
  Some {|
    batch_keypair_path := keypair_path;
    batch_tip := tip;
    batch_jito := jito;
    batch_unchecked_capacity := unchecked_capacity;
    batch_checked_capacity := checked_capacity;
    batch_bundle_capacity := bundle_capacity;
    batch_block_fill_cutoff := block_fill_cutoff;
    batch_max_check_batches := max_check_batches;
    batch_bundle_expiry_ms := bundle_expiry_ms;
    batch_progress_timeout_sec := progress_timeout_sec;
  |}.

Definition AuctionBatchScoringConfig_from_toml (t : Toml) : option AuctionBatchScoringConfig :=
  min_score ← required (toml_uint U64_MAX) "min_score" t;
  Some {| scoring_min_score := min_score |}.

Definition AuctionBatchSchedulerConfigData_from_toml (t : Toml) : option AuctionBatchSchedulerConfigData :=
  keypair_path ← required toml_string "keypair_path" t;
  tip ← required TipDistributionConfigData_from_toml "tip" t;
  jito ← required JitoConfigData_from_toml "jito" t;
  unchecked_capacity ← required toml_usize "unchecked_capacity" t;
  checked_capacity ← required toml_usize "checked_capacity" t;
  bundle_capacity ← required toml_usize "bundle_capacity" t;
  block_fill_cutoff ← required (toml_uint U8_MAX) "block_fill_cutoff" t;
  max_check_batches ← required (toml_uint U8_MAX) "max_check_batches" t;
  bundle_expiry_ms ← required (toml_uint U64_MAX) "bundle_expiry_ms" t;
  progress_timeout_sec ← required (toml_uint U64_MAX) "progress_timeout_sec" t;
  scoring ← optional AuctionBatchScoringConfig_from_toml "scoring" t;
  Some {|
    auction_keypair_path := keypair_path;
    auction_tip := tip;
    auction_jito := jito;
    auction_unchecked_capacity := unchecked_capacity;
    auction_checked_capacity := checked_capacity;
    auction_bundle_capacity := bundle_capacity;
    auction_block_fill_cutoff := block_fill_cutoff;
    auction_max_check_batches := max_check_batches;
    auction_bundle_expiry_ms := bundle_expiry_ms;
    auction_progress_timeout_sec := progress_timeout_sec;
    auction_scoring := scoring;
  |}.

(** The schedulers' tables are renamed. *)
Definition SchedulerConfig_from_toml (t : Toml) : option SchedulerConfig :=
  batch ← optional BatchSchedulerConfigData_from_toml "Batch" t;
  auction ← optional AuctionBatchSchedulerConfigData_from_toml "Auction" t;
  Some {| batch := batch; auction := auction |}.

Section ConfigFile.
Context `{TomlCrates}.

Definition pubkeys_from_toml (t : Toml) : option (gset Pubkey) :=
  match t with
  | TomlArray l => list_to_set <$> mapM pubkey_from_toml l
  | _ => None
  end.

Definition ConfigData_from_toml (t : Toml) : option ConfigData :=
  logs_server ← optional toml_string "logs_server" t;
  filter_keys ← required pubkeys_from_toml "filter_keys" t;
  scheduler ← required SchedulerConfig_from_toml "scheduler" t;
  Some {| logs_server := logs_server; config_filter_keys := filter_keys; scheduler := scheduler |}.

(** The contents of the file, if it can be read; [None] is an error. *)
Definition from_file (contents : option string) : option ConfigData :=
  contents ← contents;
  t ← toml_parse contents;
  ConfigData_from_toml t.
End ConfigFile.

(** The defaults of the fields, which no instance in use refers to. *)
Definition default_unchecked_capacity : nat := Z.to_nat (64 * 1024).
Definition default_checked_capacity : nat := Z.to_nat (64 * 1024).
Definition default_bundle_capacity : nat := 1024.
Definition default_block_fill_cutoff : Z := 20.
Definition default_max_check_batches : Z := 4.
Definition default_bundle_expiry_ms : Z := 200.
Definition default_progress_timeout_sec : Z := 5.
Definition default_weight_fee : Z := 1.
Definition default_weight_efficiency : Z := 1.
Definition default_min_score : Z := 0.

(** ** The documents of the repository *)

Section Shipped.

(** The tables [scheduler.Batch] and [scheduler.Auction], but for the scoring. *)
Definition shipped_scheduler : list (string * Toml) := [
  ("keypair_path", TomlString "./agave/test-ledger/validator-keypair.json");
  ("unchecked_capacity", TomlInt 65536);
  ("checked_capacity", TomlInt 65536);
  ("bundle_capacity", TomlInt 1024);
  ("block_fill_cutoff", TomlInt 20);
  ("max_check_batches", TomlInt 4);
  ("bundle_expiry_ms", TomlInt 200);
  ("progress_timeout_sec", TomlInt 5);
  ("tip", TomlTable [
    ("vote_account", TomlString "5cJyfCLBfghRtoCuVJNreJgNCStqXLrhHmRhSRYtbgtr");
    ("merkle_authority", TomlString "8F4jGUmxF36vQ6yabnsxX6AQVXdKBhs8kGSUuRKSg8Xt");
    ("commission_bps", TomlInt 10000)]);
  ("jito", TomlTable [
    ("http_rpc", TomlString "http://127.0.0.1:8899");
    ("ws_rpc", TomlString "ws://127.0.0.1:8900");
    ("block_engine", TomlString "https://mainnet.block-engine.jito.wtf")])
].

Definition shipped_document (scheduler : string) (table : list (string * Toml)) : Toml := TomlTable [
  ("logs_server", TomlString "127.0.0.1:9000");
  ("filter_keys", TomlArray []);
  ("scheduler", TomlTable [(scheduler, TomlTable table)])
].

Definition batch_toml : Toml := shipped_document "Batch" shipped_scheduler.

Definition auction_toml : Toml :=
  shipped_document "Auction" (shipped_scheduler ++ [("scoring", TomlTable [("min_score", TomlInt 0)])]).
End Shipped.

(** ** What becomes of them *)

Section ShippedLaws.
Context `{TomlCrates} `{HostCrates} `{JitoCrates}.

Definition shipped_runtime : RuntimeConfig := {|
  max_check_batches := Z.to_nat default_max_check_batches;
  block_fill_cutoff := default_block_fill_cutoff;
  progress_timeout := from_secs default_progress_timeout_sec;
  bundle_expiry := from_millis default_bundle_expiry_ms;
|}.

Definition shipped_jito : JitoArgs := {|
  JitoThread.http_rpc := "http://127.0.0.1:8899";
  JitoThread.ws_rpc := "ws://127.0.0.1:8900";
  JitoThread.block_engine := "https://mainnet.block-engine.jito.wtf";
|}.

(** What [setup] makes of a document. *)
Definition hosted (t : Toml) : option (Res Hosted) := setup <$> ConfigData_from_toml t.

Variables (keypair : Keypair) (vote merkle : Pubkey).
Hypothesis keypair_file : keypair_read_from_file "./agave/test-ledger/validator-keypair.json" = Some keypair.
Hypothesis vote_key : pubkey_from_str "5cJyfCLBfghRtoCuVJNreJgNCStqXLrhHmRhSRYtbgtr" = Some vote.
Hypothesis merkle_key : pubkey_from_str "8F4jGUmxF36vQ6yabnsxX6AQVXdKBhs8kGSUuRKSg8Xt" = Some merkle.

Definition shipped_tip : TipDistributionArgs := {|
  TipProgram.vote_account := vote; TipProgram.merkle_authority := merkle; TipProgram.commission_bps := 10000 |}.

(** The two configuration files of the repository are accepted, and each
    starts its scheduler: with the addresses that the file gives, no filter, and
    the capacities, limits and timeouts that the code calls defaults. *)
Lemma shipped_configs :
  hosted batch_toml = Some (Ok (HostedBatch {|
    BatchScheduler.args_tip := shipped_tip;
    BatchScheduler.args_keypair := keypair;
    BatchScheduler.args_filter_keys := ∅;
    BatchScheduler.args_unchecked_capacity := default_unchecked_capacity;
    BatchScheduler.args_checked_capacity := default_checked_capacity;
    BatchScheduler.args_bundle_capacity := default_bundle_capacity;
    BatchScheduler.args_runtime := shipped_runtime |} shipped_jito)) ∧
  hosted auction_toml = Some (Ok (HostedAuction {|
    AuctionScheduler.args_tip := shipped_tip;
    AuctionScheduler.args_keypair := keypair;
    AuctionScheduler.args_filter_keys := ∅;
    AuctionScheduler.args_unchecked_capacity := default_unchecked_capacity;
    AuctionScheduler.args_checked_capacity := default_checked_capacity;
    AuctionScheduler.args_bundle_capacity := default_bundle_capacity;
    AuctionScheduler.args_runtime := shipped_runtime;
    AuctionScheduler.args_scoring := {| min_score := default_min_score |} |} shipped_jito)).
Proof using All.
  split; unfold hosted.
  - change (ConfigData_from_toml batch_toml) with (Some {|
      logs_server := Some "127.0.0.1:9000"; config_filter_keys := ∅;
      scheduler := {| batch := BatchSchedulerConfigData_from_toml (TomlTable shipped_scheduler); auction := None |} |}).
    simpl. unfold setup. simpl. unfold batch_args, tip_args. simpl. by rewrite keypair_file, vote_key, merkle_key.
  - change (ConfigData_from_toml auction_toml) with (Some {|
      logs_server := Some "127.0.0.1:9000"; config_filter_keys := ∅;
      scheduler := {| batch := None; auction := AuctionBatchSchedulerConfigData_from_toml
        (TomlTable (shipped_scheduler ++ [("scoring", TomlTable [("min_score", TomlInt 0)])])) |} |}).
    simpl. unfold setup. simpl. unfold auction_args, tip_args. simpl. by rewrite keypair_file, vote_key, merkle_key.
Qed.
End ShippedLaws.

(** Every setting is required, though the code has defaults for seven of them. *)
Lemma settings_required :
  Forall (λ k, BatchSchedulerConfigData_from_toml (TomlTable (filter (λ kv, kv.1 ≠ k) shipped_scheduler)) = None)
    shipped_scheduler.*1.
Proof. repeat constructor. Qed.
