(* ===== verification/AuctionWitness.v ===== *)
(** * A run of the auction scheduler

    Concrete states in the world of [ModelWorld], computed by the scheduler's
    own definitions: three transactions are checked, the best of them starts.
    The properties of the auction are instantiated on them, and what modelling
    showed is proved on them by computation. *)

From S2P Require Import Prelude F64 BTreeSet Types Events Externals TipProgram Costs Common.
From S2P Require Import ModelWorld AuctionLocks AuctionEngine AuctionBatches AuctionState.
From S2P Require Import AuctionScheduler AuctionScoring AuctionHandlers AuctionExecute.

(** The logarithm and the power are arbitrary functions here; a map gives its
    values in the order of its keys. *)
#[export] Instance model_libm : LibM := {| f64_ln x := f64_sub x f64_one; f64_powf x _ := x |}.

#[export] Instance model_order : HashMapOrder := {| hash_values m := (map_to_list m).*2 |}.

#[export] Instance model_order_laws : HashMapOrderLaws.
Proof. by split. Qed.

Abbreviation DemoSched := (AuctionBatchScheduler (list PriorityId) (list_set PriorityId)).
Abbreviation DemoSt := (St DemoSched ModelWorld).

Definition auction_progress : ProgressMessage := {|
  leader_state := 2; current_slot := 5; next_leader_slot := 5;
  remaining_cost_units := 60000000; current_slot_progress := 10 |}.

Definition auction_world : ModelWorld := {|
  mw_progress := auction_progress;
  mw_pending_progress := true;
  mw_workers := [(0, 8); (0, 8); (0, 8)]%nat;
  mw_tpu := [];
  mw_responses := [];
  mw_table := list_to_map ((λ kp, (kp.1, model_transaction kp.1 kp.2)) <$>
    [(1%N, [100; 5000; 41; 42; 1001]); (2%N, [200; 5000; 42]); (3%N, [50; 5000; 43; 1001]);
     (4%N, [70; 5000; 44; 1001]); (5%N, [70; 5000; 45; 1001]); (6%N, [70; 5000; 44])]);
  mw_sent := [];
  mw_clock := 1000;
  mw_jito := [JBuilderConfig {| builder_key := 9%N; commission := 5 |}];
  mw_cancelled := false;
  mw_counters := [];
|}.

Definition auction_args : AuctionBatchSchedulerArgs := {|
  args_tip := {| vote_account := 50%N; merkle_authority := 51%N; commission_bps := 100 |};
  args_keypair := 52%N;
  args_filter_keys := ∅;
  args_unchecked_capacity := 4;
  args_checked_capacity := 4;
  args_bundle_capacity := 2;
  args_runtime := RuntimeConfig_default;
  args_scoring := AuctionBatchConfig_default;
|}.

Definition auction0 : DemoSt :=
  ltac:(let r := eval vm_compute in (new_with_jito (Heap := list PriorityId)
          (DSet := list_set PriorityId) None auction_args auction_world) in
        lazymatch r with Ok (?s, ?w) => exact (mk s w) end).

Definition passed : CheckResponse := {|
  parsing_and_sanitization_flags := 0; resolve_flags := 3; status_check_flags := 3;
  fee_payer_balance_flags := 3 |}.

Definition auction_m (k : TransactionKey) (prio c : Z) : PriorityId :=
  {| priority := prio; cost := c; key := k |}.
Definition m1 : PriorityId := auction_m 1 30 100.
Definition m2 : PriorityId := auction_m 2 25 200.
Definition m3 : PriorityId := auction_m 3 20 50.

(** Three checks, and the start of a recheck. *)
Definition auction1 : DemoSt :=
  ltac:(end_state ((on_check m1 passed None ;; on_check m2 passed None ;; on_check m3 passed None ;;
                   start_recheck) auction0)).

(** The best transaction starts on the first worker; the second best conflicts
    with it. *)
Definition auction2 : DemoSt := ltac:(end_state (schedule_execute_worker 1 1000 auction1)).

(** A bundle whose second transaction waits, and one that conflicts with
    itself. *)
Definition good_bundle : BundleId := {| b_priority := 50; b_cost := 140; received_at := 0; keys := [4%N; 5%N] |}.
Definition bad_bundle : BundleId := {| b_priority := 50; b_cost := 140; received_at := 0; keys := [4%N; 6%N] |}.

Lemma holds_nothing_empty k : holds_nothing ∅ k.
Proof. intros a w (l & Hl & _). by rewrite lookup_empty in Hl. Qed.

Lemma auction2_exclusive : exclusive (table auction2).
Proof.
  assert (table auction2 = grant 1 (tx_locks (wld auction1) 1) ∅) as -> by by vm_compute.
  apply exclusive_acquire; [apply exclusive_empty|]. intros a w k' w' _ Hh.
  by apply holds_nothing_empty in Hh.
Qed.

Lemma auction2_live k : (k ∈ [1%N; 2%N; 3%N; 4%N; 5%N; 6%N]) → live (wld auction2) k.
Proof.
  intros Hk. repeat (apply elem_of_cons in Hk as [->|Hk]; [by eexists; split; [vm_compute; reflexivity|]|]).
  by apply elem_of_nil in Hk.
Qed.

Lemma auction2_ready : ready 900 auction2.
Proof.
  split; [exact auction2_exclusive| | | |].
  - repeat constructor.
  - intros m Hm. split; [apply auction2_live|].
    + repeat (apply elem_of_cons in Hm as [->|Hm]; [vm_compute; set_solver|]). by apply elem_of_nil in Hm.
    + repeat (apply elem_of_cons in Hm as [->|Hm]; [simpl; lia|]). by apply elem_of_nil in Hm.
  - decided.
  - vm_compute. split; [done|]. by intros ?.
Qed.

(** ** The engine *)

Lemma lock_manager_release_acquire_witness :
  LockManager.release 1 [(41%N, true); (41%N, false)]
    (LockManager.acquire 1 [(41%N, true); (41%N, false)] LockManager.default_) = LockManager.default_.
Proof.
  apply (lock_manager_release_acquire 1 [(41%N, true); (41%N, false)] LockManager.default_).
  - exact exclusive_empty.
  - intros a w _. exact (holds_nothing_empty 1 a w).
Defined.

Lemma dequeue_queue_transaction_witness :
  LockManager.dequeue_transaction [(41%N, true); (42%N, false)]
    (LockManager.queue_transaction [(41%N, true); (42%N, false)] LockManager.default_) = LockManager.default_.
Proof.
  apply (dequeue_queue_transaction [(41%N, true); (42%N, false)] LockManager.default_).
  - decided.
  - intros a _. apply lookup_empty.
Defined.

Lemma acquire_locks_spec_witness :
  let '(granted, e') := AuctionEngine.acquire_locks 3 [(43%N, true); (1001%N, false)]
    (auction_engine (sch auction2)) in
  (granted = true ↔ ∀ a w k' w', (a, w) ∈ [(43%N, true); (1001%N, false)] →
     holder (table auction2) a k' w' → w = false ∧ w' = false) ∧
  if granted then
    (∀ a w, (a, w) ∈ [(43%N, true); (1001%N, false)] → holder (locks_of e') a 3%N w) ∧
    (∀ a k' w, ¬ (k' = 3%N ∧ a ∈ [(43%N, true); (1001%N, false)].*1) →
       holder (locks_of e') a k' w ↔ holder (table auction2) a k' w)
  else e' = auction_engine (sch auction2).
Proof.
  apply (acquire_locks_spec 3 [(43%N, true); (1001%N, false)] (auction_engine (sch auction2))).
  - exact auction2_exclusive.
  - decided.
Defined.

Lemma cu_allocation_inv_witness :
  ∃ a, run_allocs [Reserve 60; Commit; Reserve 50; Reserve 40; Release]
         (CUAllocation.new 100 f64_one f64_one) = Ok a ∧
    0 ≤ committed a ∧ 0 ≤ tentative a ∧ committed a + tentative a ≤ 100 ∧
    CUAllocation.available_cu a = Ok (100 - committed a - tentative a).
Proof.
  apply (cu_allocation_inv 100 f64_one f64_one [Reserve 60; Commit; Reserve 50; Reserve 40; Release]).
  - decided.
  - intros cus Hin. repeat (apply elem_of_cons in Hin as [Heq|Hin];
      [first [discriminate Heq | injection Heq; lia]|]). by apply elem_of_nil in Hin.
Defined.

(** Candidates of a block of 100 CUs: a writer and a later reader of account 7
    fit together, the third has no room with them. *)
Definition candidate (cus : Z) (ls : list (Pubkey * bool)) : TransactionCandidate :=
  {| cu_limit := cus; all_locks := ls; priority_fee := 10000 |}.
Definition c_write : TransactionCandidate := candidate 30 [(7%N, true)].
Definition c_read : TransactionCandidate := candidate 30 [(7%N, false)].
Definition c_big : TransactionCandidate := candidate 60 [(8%N, true)].
Definition c_huge : TransactionCandidate := candidate 200 [(9%N, true)].

Definition demo_engine : AuctionEngine := AuctionEngine.new AuctionEngineConfig_default 100.

Definition batch_of (o : Res TransactionBatch) : TransactionBatch :=
  match o with Ok b => b | _ => TransactionBatch.new end.
Definition b_write : TransactionBatch := batch_of (TransactionBatch.add c_write TransactionBatch.new).

Lemma b_write_ok : batch_ok 100 b_write.
Proof.
  apply (batch_ok_added c_write 100 TransactionBatch.new); [by apply batch_ok_new|by simpl|by vm_compute].
Qed.

Lemma candidates_admissible l :
  (∀ c, c ∈ l → 0 ≤ cu_limit c ≤ 200) → Forall (admissible 100) l.
Proof.
  intros Hl. apply Forall_forall. intros c Hc%Hl. unfold admissible, U64_MAX. lia.
Qed.

Ltac admissible_list :=
  apply candidates_admissible; intros c Hc;
  repeat (apply elem_of_cons in Hc as [->|Hc]; [simpl; lia|]); by apply elem_of_nil in Hc.

Lemma find_best_batch_first_fit_witness :
  BatchScorer.find_best_batch c_read [b_write] (prices demo_engine) 100 BatchScorer_default
    = Ok (first_fit c_read [b_write] (prices demo_engine) 100 BatchScorer_default).
Proof.
  apply (find_best_batch_first_fit c_read [b_write] (prices demo_engine) 100 BatchScorer_default).
  repeat constructor; simpl; unfold U64_MAX; lia.
Defined.

Lemma build_batches_spec_witness :
  ∃ batches out, AuctionEngine.build_batches [c_write; c_read; c_big; c_huge] 100 demo_engine = Ok batches ∧
    [c_write; c_read; c_big; c_huge] ≡ₚ concat (transactions <$> batches) ++ out ∧
    Forall (rejected_by 100 demo_engine) out ∧
    Forall (λ b, transactions b ≠ [] ∧ transactions b `sublist_of` [c_write; c_read; c_big; c_huge] ∧
      cu_used b = cus_of (transactions b) ∧ cu_used b ≤ 100 ∧
      write_exclusive (transactions b)) batches.
Proof.
  apply (build_batches_spec [c_write; c_read; c_big; c_huge] 100 demo_engine); [done|admissible_list].
Defined.

Lemma build_bundle_batch_spec_witness :
  ∃ o batches', AuctionEngine.build_bundle_batch [c_read; c_big] [b_write] 100 demo_engine = Ok (o, batches') ∧
    match o with
    | None => batches' = [b_write]
    | Some b =>
        (batches' = [b_write] ++ [b] ∧ transactions b = [c_read; c_big] ∧ batch_ok 100 b) ∨
        ∃ idx b0, [b_write] !! idx = Some b0 ∧ batches' = <[idx := b]> [b_write] ∧
          transactions b = transactions b0 ++ [c_read; c_big]
    end.
Proof.
  apply (build_bundle_batch_spec [c_read; c_big] [b_write] 100 demo_engine); [done|done|done|admissible_list|].
  apply Forall_singleton, b_write_ok.
Defined.

(** A reader joins the batch of an earlier writer: [can_add] only looks at the
    new transaction's writes. *)
Lemma build_batches_read_after_write :
  match AuctionEngine.build_batches [c_write; c_read] 100 demo_engine with
  | Ok bs => transactions <$> bs | _ => [] end = [[c_write; c_read]].
Proof. by vm_compute. Qed.

(** Only the bundle's first transaction is tried against an existing batch: the
    batch ends up with 120 of 100 CUs. *)
Lemma build_bundle_batch_overfills :
  match AuctionEngine.build_bundle_batch [c_read; c_big] [b_write] 100 demo_engine with
  | Ok (o, _) => cu_used <$> o | _ => None end = Some 120.
Proof. by vm_compute. Qed.

(** ** The scheduler *)

(** More CUs in flight than remain. *)
Lemma effective_remaining_cu_spec_witness :
  effective_remaining_cu {| leader_state := 2; current_slot := 5; next_leader_slot := 5;
      remaining_cost_units := 40; current_slot_progress := 90 |} (sch auction2)
    = Panicked (POverflow "effective_remaining_cu: in_flight_cus").
Proof.
  refine (eq_trans (effective_remaining_cu_spec {| leader_state := 2; current_slot := 5; next_leader_slot := 5;
    remaining_cost_units := 40; current_slot_progress := 90 |} (sch auction2) _ _ _) _).
  - decided.
  - simpl. lia.
  - decided.
  - by vm_compute.
Defined.

Definition auction_rep : ExecutionResponse := {| execution_slot := 5; not_included_reason := 1 |}.

Lemma auction2_in_flight : in_flight m1 (model_transaction 1 [100; 5000; 41; 42; 1001]) auction2.
Proof.
  split.
  - vm_compute. set_solver.
  - by vm_compute.
  - done.
  - decided.
  - simpl. lia.
  - exact auction2_exclusive.
  - simpl. apply not_elem_of_nil.
  - intros m Hm. apply (rd_checked _ _ auction2_ready m Hm).
Qed.

Lemma auction_on_execute_witness :
  let tx := model_transaction 1 [100; 5000; 41; 42; 1001] in
  wp benign (on_execute m1 auction_rep) (λ d st',
    ended m1 tx (sch auction2) (sch st') ∧
    d = Keep ∧ deferred_tx (sch st') = deferred_tx (sch auction2) ∧
    evicted_from (insert_sorted m1 (checked_tx (sch auction2))) (sch st')) auction2.
Proof.
  exact (auction_on_execute m1 _ auction_rep auction2 auction2_in_flight).
Defined.

Lemma auction_on_unprocessed_witness :
  let tx := model_transaction 1 [100; 5000; 41; 42; 1001] in
  wp benign (on_unprocessed m1) (λ d st',
    ended m1 tx (sch auction2) (sch st') ∧ deferred_tx (sch st') = deferred_tx (sch auction2) ∧
    d = Keep ∧ checked_tx (sch st') = insert_sorted m1 (checked_tx (sch auction2))) auction2.
Proof.
  exact (auction_on_unprocessed m1 _ auction2 auction2_in_flight).
Defined.

Lemma auction_try_schedule_transaction_witness :
  wp benign (try_schedule_transaction 900 2) (λ '(scheduled, budget') st',
    if scheduled then ∃ m, m ∈ checked_tx (sch auction2) ∧ schedulable 900 auction2 m ∧
      (∀ m', m' ∈ checked_tx (sch auction2) → schedulable 900 auction2 m' → rle m' m) ∧
      budget' = 900 - cost m ∧ sent_transaction m auction2 st'
    else (∀ m, m ∈ checked_tx (sch auction2) → ¬ schedulable 900 auction2 m) ∧ budget' = 900 ∧ st' = auction2)
    auction2.
Proof. exact (auction_try_schedule_transaction 900 2 auction2 auction2_ready). Defined.

(** The scheduler with the bundle [b]. *)
Definition with_bundle (b : BundleId) : DemoSt := mk ((sch auction2) <| bundles := [b] |>) (wld auction2).

Lemma with_bundle_ready b : ready 900 (with_bundle b).
Proof. destruct auction2_ready. by split. Qed.

Lemma good_bundle_fresh : fresh_keys (wld auction2) (table (with_bundle good_bundle)) (keys good_bundle).
Proof.
  split; [decided|]. intros k Hk. split_and!.
  - apply auction2_live. simpl in Hk. set_solver.
  - repeat (apply elem_of_cons in Hk as [->|Hk]; [decided|]). by apply elem_of_nil in Hk.
  - assert (table (with_bundle good_bundle) = grant 1 (tx_locks (wld auction2) 1) ∅) as -> by by vm_compute.
    apply holds_nothing_grant; [|apply holds_nothing_empty]. simpl in Hk. set_solver.
Qed.

Lemma auction_try_schedule_bundle_witness :
  wp benign (try_schedule_bundle 900 2) (λ budget' st',
    (startable 900 (with_bundle good_bundle) good_bundle ∧ budget' = 760 ∧
       sent_bundle good_bundle (with_bundle good_bundle) st') ∨
    (¬ startable 900 (with_bundle good_bundle) good_bundle ∧ budget' = 900 ∧
       only_engine (with_bundle good_bundle) st' ∧ table st' = table (with_bundle good_bundle)))
    (with_bundle good_bundle).
Proof.
  apply (auction_try_schedule_bundle 900 2 good_bundle (with_bundle good_bundle)).
  - apply with_bundle_ready.
  - reflexivity.
  - exact good_bundle_fresh.
  - by simpl.
Defined.

(** The good bundle starts. *)
Lemma good_bundle_starts :
  match try_schedule_bundle 900 2 (with_bundle good_bundle) with
  | Ok (budget, st') => (budget, bundles (sch st')) | _ => (0, [good_bundle]) end = (760, []).
Proof. by vm_compute. Qed.

(** A bundle that writes an account in two transactions cannot start, even
    alone, although nobody else holds the account; and each attempt makes the
    queue of the account longer. *)
Lemma self_conflicting_bundle :
  match try_schedule_bundle 900 2 (with_bundle bad_bundle) with
  | Ok (budget, st') =>
      (budget, bundles (sch st'), bool_decide (table st' = table auction2),
       LockManager.queue_depth 44 (lock_manager (auction_engine (sch st'))))
  | _ => (0, [], false, f64_zero) end = (900, [bad_bundle], true, f64_one).
Proof. by vm_compute. Qed.

(** The queue depth of account 41 after its only transaction left the checked
    ones: it queued once when it was checked and once when it was scheduled, and
    left the queue once. *)
Lemma queue_depth_leak :
  LockManager.queue_depth 41 (lock_manager (auction_engine (sch auction2))) = f64_one ∧
  existsb (λ m, existsb (λ aw, N.eqb aw.1 41) (tx_locks (wld auction2) (key m))) (checked_tx (sch auction2)) = false.
Proof. split; by vm_compute. Qed.
