(* ===== verification/AuctionReachWitness.v ===== *)
(** * The run of the auction scheduler, step by step

    The states of [AuctionWitness] are reachable; the properties of the
    reachable states, of rounds and of check requests are instantiated on
    them. *)

From S2P Require Import Prelude F64 BTreeSet Types Events Externals TipProgram Costs Common.
From S2P Require Import Outstanding Drains Polling ModelWorld AuctionLocks AuctionEngine AuctionState AuctionScheduler AuctionScoring.
From S2P Require Import AuctionHandlers AuctionExecute AuctionInvariant AuctionReturns.
From S2P Require Import AuctionIngest AuctionSlot AuctionChecks AuctionRounds AuctionReach AuctionPoll AuctionWitness.
From S2P Require Import Strays AuctionLeaks.

(** ** The steps *)

Lemma auction_start : new_with_jito None auction_args auction_world = Ok (sch auction0, wld auction0).
Proof. by vm_compute. Qed.

(** A check of a new transaction, run on [st]. *)
Lemma auction_check m (st st' : DemoSt) packet :
  auction_reachable [] st →
  w_transaction (wld st) (key m) = Some (model_transaction (key m) packet) →
  is_u64 (cost m) → bool_decide (key m ∈ held_keys [] (sch st)) = false →
  checked_capacity (sch st) = 4%nat → (pending_len (sch st) < 4)%nat →
  on_check m passed None st = Ok (Keep, st') →
  auction_reachable [] st'.
Proof.
  intros Hr Htx Hc Hk Hcap Hlen Heq. eapply (areach_step [] st [] (after_decision (key m) Keep st')); [done|].
  eapply (astep_check _ _ m passed None); [|exact Heq]. split; [|done|decided| | |].
  - eexists. split; [exact Htx|apply model_transaction_signed].
  - intros _. unfold lockable, tx_locks. rewrite Htx. apply model_transaction_accounts.
  - right; left. by apply bool_decide_eq_false_1 in Hk.
  - by rewrite Hcap.
Qed.

Definition checked_1 : DemoSt := ltac:(end_state (on_check m1 passed None auction0)).
Definition checked_2 : DemoSt := ltac:(end_state (on_check m2 passed None checked_1)).
Definition checked_3 : DemoSt := ltac:(end_state (on_check m3 passed None checked_2)).

Lemma checked_reachable : auction_reachable [] checked_3.
Proof.
  assert (auction_reachable [] auction0) as H0 by exact (areach_start _ _ _ _ _ auction_start).
  assert (auction_reachable [] checked_1) as H1.
  { apply (auction_check m1 auction0 checked_1 [100; 5000; 41; 42; 1001]); done || decided. }
  assert (auction_reachable [] checked_2) as H2.
  { apply (auction_check m2 checked_1 checked_2 [200; 5000; 42]); done || decided. }
  apply (auction_check m3 checked_2 checked_3 [50; 5000; 43; 1001]); done || decided.
Qed.

Lemma auction1_reachable : auction_reachable [] auction1.
Proof. eapply areach_step; [exact checked_reachable|]. apply astep_recheck. by vm_compute. Qed.

Definition auction_O1 : list (bool * PriorityId) := [(true, m1)].
Definition auction_O2 : list (bool * PriorityId) := [(true, m3); (true, m1)].

Lemma auction2_reachable : auction_reachable auction_O1 auction2.
Proof.
  assert (auction_reachable (entries (started 1 1000 auction1 auction2) ++ []) auction2) as Hr.
  { eapply areach_step; [exact auction1_reachable|].
    eapply (astep_start _ _ 1 1000); [decided|decided|by vm_compute]. }
  replace auction_O1 with (entries (started 1 1000 auction1 auction2) ++ []); [exact Hr|by vm_compute].
Qed.

(** The third transaction conflicts with the first one nowhere. *)
Definition auction3 : DemoSt := ltac:(end_state (schedule_execute_worker 2 900 auction2)).

Lemma auction3_reachable : auction_reachable auction_O2 auction3.
Proof.
  assert (auction_reachable (entries (started 2 900 auction2 auction3) ++ auction_O1) auction3) as Hr.
  { eapply areach_step; [exact auction2_reachable|].
    eapply (astep_start _ _ 2 900); [decided|decided|by vm_compute]. }
  replace auction_O2 with (entries (started 2 900 auction2 auction3) ++ auction_O1); [exact Hr|by vm_compute].
Qed.

(** ** The properties on this run *)

(** Both transactions read account 1001. *)
Lemma auction_reachable_conflict_free_witness :
  (∀ m m' addr w w', (true, m) ∈ auction_O2 → (true, m') ∈ auction_O2 → key m ≠ key m' →
    (addr, w) ∈ tx_locks (wld auction3) (key m) → (addr, w') ∈ tx_locks (wld auction3) (key m') →
    w = false ∧ w' = false) ∧
  ∀ m, (false, m) ∈ auction_O2 → m = tip_meta (key m).
Proof. exact (auction_reachable_conflict_free auction_O2 auction3 auction3_reachable). Defined.

Lemma auction_reachable_accounted_witness :
  in_flight_cus (sch auction3) = 150 ∧
  (∀ k, k ∈ executing_tx (sch auction3) ↔ ∃ b m, (b, m) ∈ auction_O2 ∧ key m = k) ∧
  (∀ addr k w, holder (table auction3) addr k w ↔
     (∃ m, (true, m) ∈ auction_O2 ∧ key m = k) ∧ (addr, w) ∈ tx_locks (wld auction3) k) ∧
  (auction_O2 = [] → account_locks (lock_manager (auction_engine (sch auction3))) = ∅).
Proof. exact (auction_reachable_accounted auction_O2 auction3 auction3_reachable). Defined.

Lemma auction_reachable_typed_witness :
  sorted (checked_tx (sch auction3)) ∧
  NoDup ((key <$> heap_elements (unchecked_tx (sch auction3))) ++ (key <$> checked_tx (sch auction3)) ++
         (key <$> iset_elements (deferred_tx (sch auction3))) ++ okeys auction_O2 ++
         concat (keys <$> bundles (sch auction3))).
Proof.
  destruct (auction_reachable_typed auction_O2 auction3 auction3_reachable) as (Hs & _ & _ & _ & _ & Hnd & _).
  split; [exact Hs|exact Hnd].
Defined.

(** A round as leader starts both at once, and the second one conflicts. *)
Lemma auction_schedule_execute_budget_witness :
  wp benign schedule_execute (λ _ st', ∃ ms,
    AInv (entries ms ++ []) st' ∧ 0 ≤ in_flight_cus (sch st') ∧
    0 + in_flight_cus (sch st') ≤ 18000000) checked_3.
Proof.
  refine (auction_schedule_execute_budget [] checked_3 (auction_reachable_inv [] checked_3 checked_reachable) _ _);
    [decided|].
  unfold budget_in_range. repeat split; decided.
Defined.

Lemma auction_schedule_checks_ends_witness :
  wp benign (schedule_checks 5) (λ _ st',
    AInv [] st' ∧ ¬ recheck_gone (sch st') ∧ checked_tx (sch st') = [m3; m2; m1] ∧
    (heap_len (unchecked_tx (sch st')) ≤ 0)%nat ∧
    ((max_check_batches (runtime (sch st')) ≤ w_worker_len (wld st') CHECK_WORKER)%nat ∨
     w_worker_rem (wld st') CHECK_WORKER = 0%nat ∨ exhausted (sch st'))) auction1.
Proof.
  refine (auction_schedule_checks_ends [] 5 auction1 (auction_reachable_inv [] auction1 auction1_reachable) _ _).
  - intros (c & Hc & Hg). injection Hc as <-. by vm_compute in Hg.
  - vm_compute. lia.
Defined.

(** A reachable state that is never left: the transaction to recheck is the one
    that was just scheduled. *)
Lemma schedule_checks_spins_witness :
  auction_reachable auction_O1 auction2 ∧ ∀ fuel, schedule_checks fuel auction2 = Hang.
Proof.
  split; [exact auction2_reachable|]. intros fuel. apply (schedule_checks_spins fuel auction2).
  - exists m1. split; by vm_compute.
  - by vm_compute.
  - vm_compute. lia.
  - vm_compute. lia.
Defined.

(** ** A poll *)

(** Two transactions start before any recheck; then both executions end, and
    transactions, a packet and a bundle arrive. *)
Definition started_1 : DemoSt := ltac:(end_state (schedule_execute_worker 1 1000 checked_3)).
Definition started_2 : DemoSt := ltac:(end_state (schedule_execute_worker 2 900 started_1)).

Lemma started_2_inv : AInv auction_O2 started_2.
Proof.
  apply auction_reachable_inv.
  assert (auction_reachable auction_O1 started_1) as Hr1.
  { replace auction_O1 with (entries (started 1 1000 checked_3 started_1) ++ []) by by vm_compute.
    eapply areach_step; [exact checked_reachable|].
    eapply (astep_start _ _ 1 1000); [decided|decided|by vm_compute]. }
  replace auction_O2 with (entries (started 2 900 started_1 started_2) ++ auction_O1) by by vm_compute.
  eapply areach_step; [exact Hr1|]. eapply (astep_start _ _ 2 900); [decided|decided|by vm_compute].
Qed.

Definition wide : DemoSt :=
  mk (set_runtime_config 2048 4 2 20 4 (from_millis 200) (from_secs 5)
        ((sch started_2) <| tip_config := Some {| tip_receiver := 60%N; block_builder := 61%N |} |>
                         <| recent_blockhash := 7%N |>)) (wld started_2).

Definition executed (m : PriorityId) (reason : Z) : WorkerResponse :=
  {| wr_meta := m; wr_response := Execute_ {| execution_slot := 5; not_included_reason := reason |} |}.

Definition busy : DemoSt :=
  mk (sch wide)
     ((wld wide) <| mw_responses := [[]; [executed m1 0]; [executed m3 2]] |>
                 <| mw_tpu := [[60; 5000; 41]; [61; 5000; 47]] |>
                 <| mw_jito := [JPacket [10; 10; 45]; JBundle [[10; 10; 45]; [20; 20; 46]]] |>).

Lemma busy_inv : AInv auction_O2 busy.
Proof.
  apply (auction_environment_inv auction_O2 wide (wld busy)); [|done].
  by apply (pools_inv auction_O2 started_2); [exact started_2_inv|..].
Qed.

(** After its slot roll, and before the checks. *)
Definition rolled : DemoSt := ltac:(end_state (check_slot_roll busy)).
Definition unchecked : DemoSt := ltac:(end_state (before_checks 10 busy)).

Lemma busy_roll : check_slot_roll busy = Ok (tt, rolled).
Proof. by vm_compute. Qed.

Lemma busy_before_checks : before_checks 10 busy = Ok (true, unchecked).
Proof. by vm_compute. Qed.

Lemma rolled_responses :
  responses (wld rolled) (seq 0 (w_worker_count (wld rolled))) = [executed m1 0; executed m3 2].
Proof. by vm_compute. Qed.

Lemma busy_honest (new : list (bool * PriorityId)) :
  honest [executed m1 0; executed m3 2] (new ++ auction_O2) rolled.
Proof.
  assert ((true, m3) ∈ new ++ auction_O2 ∧ (true, m1) ∈ new ++ auction_O2) as [Hm3 Hm1]
    by (split; apply elem_of_app; right; decided).
  split; [by exists true|]. intros w d st' _ _. split; [|done].
  exists true. apply list_elem_of_filter. by split.
Qed.

(** The transaction to recheck, if any, is checked. *)
Definition recheck_there (s : DemoSched) : bool :=
  match next_recheck s with
  | Some c => btree_contains c (checked_tx s) && bool_decide (key c ∉ executing_tx s)
  | None => true
  end.

Lemma recheck_there_not_gone s : recheck_there s = true → ¬ recheck_gone s.
Proof. unfold recheck_there. intros Hr (c & Hc & Hg). by rewrite Hc, Hg in Hr. Qed.

Lemma unchecked_recheck : recheck_there (sch unchecked) = true.
Proof. by vm_compute. Qed.

Lemma auction_packet_lockable packet : lockable_packet packet.
Proof.
  intros w k w' Hi. destruct packet; [done|]. injection Hi as <- <-.
  unfold lockable, tx_locks. simpl. rewrite lookup_insert_eq. apply model_transaction_accounts.
Qed.

Lemma busy_ready : poll_ready auction_O2 busy.
Proof.
  split; [exact busy_inv|decided| | |decided|done|done| | |].
  - split; [simpl; lia|done].
  - intros [Hnone _]. by vm_compute in Hnone.
  - repeat constructor; [done|apply auction_packet_lockable..].
  - intros new st1 Heq _. rewrite busy_roll in Heq. injection Heq as <-. rewrite rolled_responses. apply busy_honest.
  - intros fuel b st1 Heq. pose proof (stable_agree _ _ _ _ _ _ before_checks_stable busy_before_checks Heq) as Hst.
    injection Hst as _ <-. exact (recheck_there_not_gone _ unchecked_recheck).
Qed.


(** ** A history from an empty bridge

    Two packets arrive and are sent to the check workers; one check comes back
    unprocessed, the other is answered. *)

Definition leak_world : ModelWorld := auction_world <| mw_table := ∅ |>.
Definition leak0 : DemoSt :=
  ltac:(let r := eval vm_compute in (new_with_jito None auction_args leak_world : Res (_ * ModelWorld)) in
        lazymatch r with Ok (?s, ?w) => exact (mk s w) end).
Definition leak1 : DemoSt := ltac:(end_state (on_packet [60; 5000; 41] leak0)).
Definition leak2 : DemoSt := ltac:(end_state (on_packet [200; 5000; 42] leak1)).
Definition leak3 : DemoSt := ltac:(end_state (schedule_checks 10 leak2)).
Definition leak_m : PriorityId := {| priority := 1000; cost := 60; key := 0%N |}.
Definition leak_m1 : PriorityId := {| priority := 1000; cost := 200; key := 1%N |}.
Definition leak4 : DemoSt := ltac:(end_state (on_check leak_m passed None leak3)).
(** The Jito thread has told the tip accounts, and the capacity is raised. *)
Definition leak_tip : DemoSt :=
  mk ((sch leak4) <| tip_config := Some {| tip_receiver := 60%N; block_builder := 61%N |} |>
                  <| recent_blockhash := 7%N |>) (wld leak4).
Definition leak5 : DemoSt :=
  mk (set_runtime_config 2048 4 2 20 4 (from_millis 200) (from_secs 5) (sch leak_tip)) (wld leak_tip).

Definition leak_keys (ks : list TransactionKey) : gset TransactionKey := list_to_set ks.

Lemma auction_leak_requested : run (leak_keys [0; 1]%N, ∅, leak3).
Proof.
  exists (∅, ∅, leak0). split.
  { exists None, auction_args, leak_world, (sch leak0), (wld leak0). by vm_compute. }
  eapply rtc_l; [by apply (run_packet _ _ [60; 5000; 41] _ leak1); vm_compute|].
  eapply rtc_l; [by apply (run_packet _ _ [200; 5000; 42] _ leak2); vm_compute|].
  replace (leak_keys [0; 1]%N) with (∅ ∪ first_checks held check_flags leak2 leak3) by by vm_compute.
  apply rtc_once, (run_checks _ _ 10). by vm_compute.
Qed.

Lemma auction_leak_answered : rtc run_step (leak_keys [0; 1]%N, ∅, leak3) (leak_keys [], leak_keys [1]%N, leak5).
Proof.
  eapply rtc_l; [by apply (run_unprocessed_check _ _ leak_m1 _ Keep leak3); vm_compute|].
  replace (leak_keys [0; 1]%N ∖ {[key leak_m1]}) with (leak_keys [0]%N) by by vm_compute.
  replace (∅ ∪ leak_keys [0; 1]%N ∩ {[key leak_m1]}) with (leak_keys [1]%N) by by vm_compute.
  eapply rtc_l; [by apply (run_check _ _ leak_m passed None _ Keep leak4); vm_compute|].
  replace (leak_keys [0]%N ∖ {[key leak_m]}) with (leak_keys []) by by vm_compute.
  apply rtc_once. unfold leak5, leak_tip. cbn [sch wld]. apply run_still; [by vm_compute|done].
Qed.

Lemma auction_leak_run : run (leak_keys [], leak_keys [1]%N, leak5).
Proof.
  destruct auction_leak_requested as (r0 & H0 & Hr). exists r0. split; [done|].
  etrans; [exact Hr|exact auction_leak_answered].
Qed.

Lemma auction_leak3_reachable : auction_reachable [] leak3.
Proof.
  assert (auction_reachable [] leak0) as H0.
  { apply (areach_start None auction_args leak_world). by vm_compute. }
  assert (auction_reachable [] leak1) as H1.
  { eapply areach_step; [exact H0|]. by apply (astep_packet _ _ [60; 5000; 41]); [|vm_compute]. }
  assert (auction_reachable [] leak2) as H2.
  { eapply areach_step; [exact H1|]. by apply (astep_packet _ _ [200; 5000; 42]); [|vm_compute]. }
  eapply areach_step; [exact H2|]. by apply (astep_checks _ _ 10); vm_compute.
Qed.

Lemma auction_leak5_inv : AInv [] leak5.
Proof.
  apply auction_reachable_inv. eapply areach_step; [|apply astep_set_config].
  eapply areach_step; [|apply astep_jito_config].
  apply (auction_check leak_m leak3 leak4 [60; 5000; 41]); try exact auction_leak3_reachable; done || decided.
Qed.

Definition leak_rolled : DemoSt := ltac:(end_state (check_slot_roll leak5)).
Definition leak_unchecked : DemoSt := ltac:(end_state (before_checks 10 leak5)).
Definition leak_leader : bool :=
  ltac:(let r := eval vm_compute in (before_checks 10 leak5) in lazymatch r with Ok (?b, _) => exact b end).

Lemma leak5_computed :
  check_slot_roll leak5 = Ok (tt, leak_rolled) ∧ before_checks 10 leak5 = Ok (leak_leader, leak_unchecked).
Proof. by vm_compute. Qed.

Lemma leak5_quiet :
  responses (wld leak_rolled) (seq 0 (w_worker_count (wld leak_rolled))) = [] ∧
  recheck_there (sch leak_unchecked) = true.
Proof. by vm_compute. Qed.

Lemma auction_leak5_ready : poll_ready [] leak5.
Proof.
  split; [exact auction_leak5_inv|decided| | |decided|done|done|constructor| |].
  - split; [simpl; lia|done].
  - intros [Hn _]. by vm_compute in Hn.
  - intros new st1 Heq _. rewrite (proj1 leak5_computed) in Heq. injection Heq as <-. by rewrite (proj1 leak5_quiet).
  - intros fuel b st1 Heq.
    pose proof (stable_agree _ _ _ _ _ _ before_checks_stable (proj2 leak5_computed) Heq) as Hst.
    injection Hst as _ <-. exact (recheck_there_not_gone _ (proj2 leak5_quiet)).
Qed.

Lemma auction_no_transaction_lost_witness :
  (w_transaction (wld leak5) 0%N ≠ None ∧ w_transaction (wld leak5) 1%N ≠ None) ∧
  (∀ k, w_transaction (wld leak5) k ≠ None → k = 0%N ∨ k = 1%N) ∧
  eventually poll_panic poll (λ _ st', ∃ out' lost',
    rtc run_step (leak_keys [], leak_keys [1]%N, leak5) (out', lost', st')) leak5.
Proof.
  destruct (auction_no_transaction_lost _ _ _ auction_leak_run) as [Hk Hpoll].
  split; [split; decided|]. split; [|exact (Hpoll [] auction_leak5_ready)].
  intros k Ht. destruct (Hk k Ht) as [(m & Hm & <-)|[(m & Hm & <-)|[(m & Hm & <-)|[He|[(b & Hb & _)|[Ho|Hl]]]]]].
  - by apply elem_of_nil in Hm.
  - apply list_elem_of_singleton in Hm as ->. by left.
  - by apply elem_of_nil in Hm.
  - by apply elem_of_empty in He.
  - by apply elem_of_nil in Hb.
  - by apply elem_of_list_to_set, elem_of_nil in Ho.
  - apply elem_of_list_to_set, list_elem_of_singleton in Hl as ->. by right.
Defined.
