(* ===== verification/HostWitness.v ===== *)
(** * Runs of the host, the Jito thread and the interval stream

    Concrete instances of the interfaces of [JitoThread], [IntervalStream] and
    [Host], and their properties on concrete inputs. *)

From stdpp Require Import pretty.
From S2P Require Import Prelude F64 BTreeSet Types Events Externals EventJson LockTable TipProgram Costs Common.
From S2P Require Import JitoThread IntervalStream JitoSession BatchScheduler BatchInvariant BatchReach.
From S2P Require Import ModelWorld.
From S2P Require Import AuctionLocks AuctionEngine AuctionScheduler Host Startup Process ConfigFile Exporter.
From S2P Require BatchWitness AuctionWitness.

#[export] Existing Instance AuctionWitness.model_libm.
#[export] Existing Instance AuctionWitness.model_order.

(** ** The Jito thread *)

#[export] Instance model_jito : JitoCrates := {|
  PACKET_DATA_SIZE := 4; UiAccountData := u8s; ui_decode d := Some d;
  pubkey_from_str s := if String.eqb s "" then None else Some 9%N |}.

(** A channel for three messages. *)
#[export] Instance model_channel : UpdateChannel (list JitoUpdate) := {|
  ch_try_send u c := if (length c <? 3)%nat then Some (c ++ [u]) else None;
  ch_sent c := c |}.

#[export] Instance model_channel_laws : UpdateChannelLaws (list JitoUpdate).
Proof. split. simpl. intros u c c'. destruct (length c <? 3)%nat; [|done]. by intros [= <-]. Qed.

Definition packet (l : u8s) : Packet := {| packet_data := l |}.

(** An empty bundle, a missing one, and one of two packets. *)
Definition demo_bundles : SubscribeBundlesResponse := {| resp_bundles :=
  [{| bundle := Some {| packets := [] |} |}; {| bundle := None |};
   {| bundle := Some {| packets := [packet [1; 2]; packet [3]] |} |}] |}.

Lemma demo_bundles_sent : on_bundles demo_bundles [] = Ok (tt, [JBundle [[1; 2]; [3]]]).
Proof. by vm_compute. Qed.

(** A packet that is too long stops the thread. *)
Lemma long_packet_panics :
  on_bundles {| resp_bundles := [{| bundle := Some {| packets := [packet [1; 2; 3; 4; 5]] |} |}] |} []
    = Panicked (PAssert "on_bundles: packet size").
Proof. by vm_compute. Qed.

(** ** The interval stream *)

(** Time passes with every poll; a tick is due at even times, a future takes as
    many polls as it says. *)
Record Clock := { clock : nat; woken : nat }.

#[export] Instance model_async : Async Clock nat nat := {|
  poll_tick w :=
    if Nat.even (clock w) then (Ready tt, {| clock := S (clock w); woken := woken w |})
    else (Pending, {| clock := S (clock w); woken := S (woken w) |});
  new_fut w := (2%nat, w);
  fut_poll fut w :=
    match fut with
    | O => (Ready (clock w), O, w)
    | S n => (Pending, n, {| clock := S (clock w); woken := S (woken w) |})
    end;
  wakeups := woken;
|}.

#[export] Instance model_async_laws : AsyncLaws Clock nat nat.
Proof.
  split; simpl.
  - intros w w'. destruct (Nat.even (clock w)); [done|]. intros [= <-]. simpl. lia.
  - intros w w'. destruct (Nat.even (clock w)); [|done]. by intros [= <-].
  - by intros w fut w' [= _ <-].
  - intros [|n] w fut' w'; [done|]. intros [= _ <-]. simpl. lia.
Qed.

Definition clock0 : Clock := {| clock := 0; woken := 0 |}.

Lemma demo_polls :
  (poll_times 5 IntervalStream_new clock0).1.1 = [Started; Idle; Idle; Yielded 3%nat; Idle].
Proof. by vm_compute. Qed.

(** The first poll is pending, and nothing will wake the task. *)
Lemma interval_stream_wakeup_witness :
  let '(p, s', w') := poll_next IntervalStream_new clock0 in
  (event_of IntervalStream_new p s' = Started ∧ wakeups w' = wakeups clock0) ∨
  (event_of IntervalStream_new p s' = Idle ∧ (wakeups clock0 < wakeups w')%nat).
Proof.
  apply (interval_stream_wakeup IntervalStream_new clock0 Pending {| in_progress := Some 2%nat |}
    {| clock := 1; woken := 0 |}); reflexivity.
Defined.

(** ** A session *)

(** A network that gives what is queued; the first blockhash poll starts the
    request. *)
Record ModelNet := {
  net_connects : bool;
  net_hash : option (Hash * Z);
  net_tip : list u8s;
  net_bundles : list (option SubscribeBundlesResponse);
}.

#[export] Instance net_async : Async ModelNet unit (option (Hash * Z)) := {|
  poll_tick n := (Ready tt, n);
  new_fut n := (tt, n);
  fut_poll fut n := (Ready (net_hash n), fut, n);
  wakeups _ := O;
|}.

#[export] Instance model_network : JitoNetwork ModelNet := {|
  HeaderValue := string;
  header_parse s := Some s;
  pubkey_to_string _ := "key";
  keypair_sign_message _ _ := [1];
  n_connect n := (if net_connects n then Some tt else None, n);
  n_generate_auth_challenge _ n := (Some "challenge", n);
  n_generate_auth_tokens _ _ _ n :=
    let t := Some {| token_value := "token"; expires_at_utc := Some 10 |} in
    (Some {| access_token := t; refresh_token := t |}, n);
  n_get_block_builder_fee_info _ n := (Some {| info_pubkey := "builder"; info_commission := 5 |}, n);
  n_subscribe_bundles _ n := (Some tt, n);
  n_subscribe_packets _ n := (Some tt, n);
  n_pubsub_connect _ n := (Some tt, n);
  n_account_subscribe _ n := (Some tt, n);
  n_poll_tip_config n :=
    match net_tip n with
    | [] => (Pending, n)
    | d :: l => (Ready (Some d), {| net_connects := net_connects n; net_hash := net_hash n;
                                    net_tip := l; net_bundles := net_bundles n |})
    end;
  n_poll_bundles n :=
    match net_bundles n with
    | [] => (Pending, n)
    | b :: l => (Ready (Some b), {| net_connects := net_connects n; net_hash := net_hash n;
                                    net_tip := net_tip n; net_bundles := l |})
    end;
  n_poll_packets n := (Pending, n);
|}%string.

Definition net0 : ModelNet := {| net_connects := true; net_hash := Some (7%N, 100); net_tip := [];
  net_bundles := [Some demo_bundles; None] |}.

Definition demo_key : @Keypair model_crates := 52%N.

Definition demo_session : Res (unit * St (list JitoUpdate) ModelNet) := run [4%nat; 0%nat] demo_key "ws" (mk [] net0).

(** The configuration, a bundle, a blockhash; then the bundle stream is closed,
    and the next session's configuration does not fit in the channel of three
    messages: the thread dies. *)
Lemma demo_session_sent :
  demo_session = Panicked (PUnwrap "update_tx.try_send").
Proof. by vm_compute. Qed.

Definition demo_short : Res (unit * St (list JitoUpdate) ModelNet) := run [2%nat] demo_key "ws" (mk [] net0).

Definition demo_short_end : St (list JitoUpdate) ModelNet :=
  ltac:(end_state demo_short).

Lemma demo_short_sent :
  ch_sent (sch demo_short_end) =
    [JBuilderConfig {| builder_key := 9%N; commission := 5 |}; JBundle [[1; 2]; [3]]; JRecentBlockhash 7%N].
Proof. by vm_compute. Qed.

Lemma jito_thread_sends_witness :
  wp session_panic (run [2%nat] demo_key "ws") (λ _ st', ∃ traces,
    ch_sent (sch st') = concat traces ∧
    (∀ msgs, msgs ∈ traces → msgs = [] ∨
       ∃ c rest, msgs = JBuilderConfig c :: rest ∧ Forall stream_message rest) ∧
    (∀ u, hd_error (concat traces) = Some u → ∃ c, u = JBuilderConfig c)) (mk ([] : list JitoUpdate) net0).
Proof. exact (jito_thread_sends [2%nat] demo_key "ws" (mk [] net0)). Defined.

(** ** The host *)

#[export] Instance model_host : HostCrates := {|
  keypair_read_from_file _ := Some 52%N |}.

Definition demo_tip : Config.TipDistributionConfigData :=
  {| Config.vote_account := "a"; Config.merkle_authority := "b"; Config.commission_bps := 100 |}.

Definition demo_jito : Config.JitoConfigData := {|
  Config.http_rpc := "http://rpc"; Config.ws_rpc := "ws://rpc"; Config.block_engine := "https://engine" |}.

Definition demo_batch : Config.BatchSchedulerConfigData := {|
  Config.batch_keypair_path := "key"; Config.batch_tip := demo_tip;
  Config.batch_jito := demo_jito;
  Config.batch_unchecked_capacity := 4; Config.batch_checked_capacity := 3;
  Config.batch_bundle_capacity := 2; Config.batch_block_fill_cutoff := 20;
  Config.batch_max_check_batches := 4; Config.batch_bundle_expiry_ms := 200;
  Config.batch_progress_timeout_sec := 5 |}.

Definition demo_auction : Config.AuctionBatchSchedulerConfigData := {|
  Config.auction_keypair_path := "key"; Config.auction_tip := demo_tip;
  Config.auction_jito := demo_jito;
  Config.auction_unchecked_capacity := 4; Config.auction_checked_capacity := 3;
  Config.auction_bundle_capacity := 2; Config.auction_block_fill_cutoff := 20;
  Config.auction_max_check_batches := 4; Config.auction_bundle_expiry_ms := 200;
  Config.auction_progress_timeout_sec := 5; Config.auction_scoring := None |}.

Definition demo_config (b : option Config.BatchSchedulerConfigData)
    (a : option Config.AuctionBatchSchedulerConfigData) : Config.ConfigData := {|
  Config.logs_server := None; Config.config_filter_keys := ∅;
  Config.scheduler := {| Config.batch := b; Config.auction := a |} |}.

(** The default configuration has no addresses. *)
Lemma default_config_panics :
  setup (demo_config (Some Config.BatchSchedulerConfigData_default) None)
    = Panicked (PUnwrap "Pubkey::from_str: vote_account").
Proof. by vm_compute. Qed.

(** Both schedulers can be set up from a configuration; the auction one wins. *)
Definition demo_batch_args : BatchSchedulerArgs * JitoArgs :=
  ltac:(let r := eval vm_compute in (batch_args (demo_config (Some demo_batch) None) demo_batch) in
        lazymatch r with Ok ?a => exact a end).

Definition demo_auction_args : AuctionBatchSchedulerArgs * JitoArgs :=
  ltac:(let r := eval vm_compute in (auction_args (demo_config None (Some demo_auction)) demo_auction) in
        lazymatch r with Ok ?a => exact a end).

Lemma demo_setup :
  setup (demo_config (Some demo_batch) (Some demo_auction))
    = Ok (HostedAuction demo_auction_args.1 demo_auction_args.2).
Proof. by vm_compute. Qed.

Definition batch_started : BatchWitness.DemoSt :=
  ltac:(let r := eval vm_compute in (BatchScheduler.new_with_jito (Heap := list PriorityId)
          (DSet := list_set PriorityId) None demo_batch_args.1 BatchWitness.demo_world) in
        lazymatch r with Ok (?s, ?w) => exact (mk s w) end).

Definition auction_started : AuctionWitness.DemoSt :=
  ltac:(let r := eval vm_compute in (AuctionScheduler.new_with_jito (Heap := list PriorityId)
          (DSet := list_set PriorityId) None demo_auction_args.1 AuctionWitness.auction_world) in
        lazymatch r with Ok (?s, ?w) => exact (mk s w) end).

Lemma config_applied_witness :
  apply_batch_config (demo_config (Some demo_batch) None) (sch batch_started) = sch batch_started ∧
  apply_auction_config (demo_config None (Some demo_auction)) (sch auction_started) = sch auction_started.
Proof.
  split.
  - apply (proj1 (config_applied (demo_config (Some demo_batch) None) demo_batch_args.2 None
      BatchWitness.demo_world (wld batch_started)) demo_batch_args.1); vm_compute; reflexivity.
  - apply (proj2 (config_applied (demo_config None (Some demo_auction)) demo_auction_args.2 None
      AuctionWitness.auction_world (wld auction_started)) demo_auction_args.1); vm_compute; reflexivity.
Defined.

(** An endpoint is its text. *)
#[local] Instance text_endpoint : TonicEndpoint := {|
  Endpoint := string;
  from_shared s := if String.eqb s "" then None else Some s;
  tcp_keepalive _ e := e;
  tls_config e := Some e |}.

Lemma startup_witness :
  (∃ s, configured (demo_config (Some demo_batch) None) = Some s ∧ can_start BatchWitness.demo_world s) ∧
  start_state (demo_config (Some demo_batch) None) (RunningBatch (sch batch_started)) (wld batch_started).
Proof.
  pose proof (startup (Heap := list PriorityId) (DSet := list_set PriorityId) None
    (demo_config (Some demo_batch) None) BatchWitness.demo_world) as Hs.
  replace (start _ _ _) with (Ok (RunningBatch (sch batch_started), wld batch_started)) in Hs; [exact Hs|].
  vm_compute. reflexivity.
Defined.

(** Without a scheduler there is nothing to start. *)
Lemma no_scheduler_panics :
  start (Heap := list PriorityId) (DSet := list_set PriorityId) None Config.ConfigData_default BatchWitness.demo_world
    = Panicked (PUnreachable "No scheduler configuration found").
Proof. by vm_compute. Qed.

(** A configuration that arrives while two executions are out. *)
Lemma demo_config_reachable :
  reachable BatchWitness.demo_O2 (mk
    (apply_batch_config (demo_config (Some demo_batch) None) (sch BatchWitness.demo5))
    (wld BatchWitness.demo5)).
Proof. apply batch_config_reachable, BatchWitness.demo5_reachable. Qed.

(** The second thread to end has failed. *)
Lemma await_shutdown_first_error_witness :
  await_shutdown true [Joined None; Joined (Some PayloadOther); Joined (Some (PayloadStr "late"))]
    = Ok (Some PayloadOther).
Proof.
  apply (await_shutdown_first_error true); [done|]. repeat constructor; by eexists.
Defined.

Lemma jito_startup_witness :
  ∃ c, JBuilderConfig {| builder_key := 9%N; commission := 5 |} = JBuilderConfig c ∧
    (∃ (s : BatchScheduler.BatchScheduler (list PriorityId) (list_set PriorityId)) w'',
       BatchScheduler.new_with_jito None demo_batch_args.1 BatchWitness.demo_world = Ok (s, w'') ∧
       BatchScheduler.builder_config s = c) ∧
    (∃ (s : AuctionBatchScheduler (list PriorityId) (list_set PriorityId)) w'',
       AuctionScheduler.new_with_jito None demo_auction_args.1 BatchWitness.demo_world = Ok (s, w'') ∧
       AuctionScheduler.builder_config s = c).
Proof.
  apply (jito_startup [2%nat] demo_key "ws" [] net0 demo_short_end None demo_batch_args.1 demo_auction_args.1
    BatchWitness.demo_world (BatchWitness.demo_world <| mw_jito := [] |>)); vm_compute; reflexivity.
Defined.

(** ** The threads of the process

    The scheduler's thread (0) may panic at any time, the Jito thread (1) ends
    when it is told to. *)

Definition demo_may_end (i : nat) (cancelled : bool) (o : JoinOutcome) : Prop :=
  (cancelled = true ∧ o = Joined None) ∨ (i = 0%nat ∧ o = Joined (Some (PayloadStr "scheduler panicked"))).

Definition demo_threads : gset nat := {[0; 1]}%nat.

Definition panicked : JoinOutcome := Joined (Some (PayloadStr "scheduler panicked")).
Definition process_up : Process := process_start <| task := TaskSelecting |> <| awaited := demo_threads |>.
Definition process_panicked : Process :=
  process_up <| awaited ::= λ l, l ∖ {[0%nat]} |> <| joined ::= λ l, l ++ [panicked] |>.
Definition process_draining : Process :=
  process_panicked <| task := TaskDraining (first_exit panicked) |> <| token := true |>
    <| joined := [] |> <| taken ::= λ l, l ++ [panicked] |>.
Definition process_drained : Process :=
  process_draining <| awaited ::= λ l, l ∖ {[1%nat]} |> <| joined ::= λ l, l ++ [Joined None] |>
    <| task := next_exit (first_exit panicked) (Joined None) |> <| joined := [] |> <| taken ::= λ l, l ++ [Joined None] |>.
Definition process_over : Process :=
  process_drained <| task := TaskDone (first_exit panicked) |> <| token := true |>
    <| main := MainDone (main_exit (Some (inr (first_exit panicked)))) |>.

Lemma process_panicked_reachable : process_reachable demo_threads demo_may_end process_panicked.
Proof.
  eapply rtc_l; [left; right; left; by apply setup_done|].
  eapply rtc_l; [|apply rtc_refl]. left. left. apply (thread_exits _ process_up 0 panicked); [by vm_compute|by right].
Qed.

Lemma process_draining_reachable : process_reachable demo_threads demo_may_end process_draining.
Proof.
  unfold process_reachable. etrans; [exact process_panicked_reachable|].
  eapply rtc_l; [left; right; left; by apply (select_exit _ _ panicked [])|]. apply rtc_refl.
Qed.

Lemma process_over_reachable : process_reachable demo_threads demo_may_end process_over.
Proof.
  unfold process_reachable. etrans; [exact process_draining_reachable|].
  eapply rtc_l; [left; left; apply (thread_exits _ process_draining 1 (Joined None)); [by vm_compute|by left]|].
  eapply rtc_l; [left; right; left; by apply (drain_exit _ _ (first_exit panicked) (Joined None) [])|].
  eapply rtc_l; [left; right; left; by apply (drain_done _ process_drained (first_exit panicked))|].
  eapply rtc_l; [left; right; right; by apply (main_task_done _ (first_exit panicked))|]. apply rtc_refl.
Qed.

Lemma process_outcome_witness :
  (∃ message, TaskDone (Some (PayloadStr "scheduler panicked")) = TaskPanicked message ∧
     Some "scheduler panicked"%string = Some message) ∨
  ∃ error, Some "scheduler panicked"%string = Some (panic_result_to_error error) ∧
    await_shutdown false [panicked; Joined None] = Ok (Some error) ∧
    awaited process_over = ∅ ∧ joined process_over = [] ∧
    ∃ o rest, taken process_over = o :: rest ∧ early demo_may_end o ∧ first_exit o = Some error.
Proof. apply (process_outcome demo_threads demo_may_end process_over); [exact process_over_reachable|reflexivity]. Defined.

(** From the panic on, every run ends in the exit of the process. *)
Lemma process_ends_witness :
  (∀ p', process_step demo_threads demo_may_end process_panicked p' → (steps_left demo_threads p' < 7)%nat) ∧
  ((∀ p', ¬ inner_step demo_threads demo_may_end process_over p') → exited process_over ∨ healthy demo_threads process_over) ∧
  (∀ p', rtc (process_step demo_threads demo_may_end) process_draining p' →
     (∀ p'', ¬ inner_step demo_threads demo_may_end p' p'') → exited p').
Proof.
  assert (∀ i, i ∈ demo_threads → ∃ o, demo_may_end i true o) as Hends by (intros i _; exists (Joined None); by left).
  split; [|split].
  - by apply (process_ends demo_threads demo_may_end Hends _ process_panicked_reachable).
  - by apply (process_ends demo_threads demo_may_end Hends _ process_over_reachable).
  - by apply (process_ends demo_threads demo_may_end Hends _ process_draining_reachable).
Defined.

(** ** Events *)

#[local] Instance decimal_serde : Serde := {| rfc3339 := pretty; to_string_pretty _ := "json"%string |}.

Lemma event_json_injective_witness :
  let e := {| timestamp := 7; stamped_slot := 5; event := Transaction {|
                te_signature := 9%N; te_slot := 5; te_priority := 3; te_action := CheckOk |} |} in
  e = {| timestamp := 3 + 4; stamped_slot := 5; event := event e |}.
Proof.
  apply (event_json_injective (H := model_crates)); [apply pretty_Z_inj|apply pretty_N_inj|reflexivity].
Defined.

(** ** The configuration files *)

(** A parser that knows the two files. *)
#[local] Instance model_toml : TomlCrates := {|
  toml_parse s := if String.eqb s "batch" then Some batch_toml
    else if String.eqb s "auction" then Some auction_toml else None;
  pubkey_from_toml t := match t with TomlString s => pubkey_from_str s | _ => None end;
|}%string.

Lemma unknown_file : from_file (Some "other"%string) = None ∧ from_file None = None.
Proof. by vm_compute. Qed.

Lemma shipped_configs_witness :
  hosted batch_toml = Some (Ok (HostedBatch {|
    BatchScheduler.args_tip := shipped_tip 9%N 9%N;
    BatchScheduler.args_keypair := 52%N;
    BatchScheduler.args_filter_keys := ∅;
    BatchScheduler.args_unchecked_capacity := Z.to_nat 65536;
    BatchScheduler.args_checked_capacity := Z.to_nat 65536;
    BatchScheduler.args_bundle_capacity := 1024;
    BatchScheduler.args_runtime := shipped_runtime |} shipped_jito)).
Proof. refine (proj1 (shipped_configs 52%N 9%N 9%N _ _ _)); reflexivity. Defined.

(** ** The export of events *)

(** A log server behind a connection that fails when the script says so. *)
Record ScriptedNet := {
  net_queue : list StampedEvent;
  net_faults : list bool;
  net_received : list StampedEvent;
  net_written : list u8s;
  net_connections : nat;
}.

(** Whether the next operation succeeds. *)
Definition next_fault (n : ScriptedNet) : bool * ScriptedNet :=
  (hd true (net_faults n), {| net_queue := net_queue n; net_faults := tl (net_faults n);
    net_received := net_received n; net_written := net_written n; net_connections := net_connections n |}).

#[local] Instance scripted_net : ExportNetwork ScriptedNet := {|
  is_cancelled n := bool_decide (net_queue n = []) && bool_decide (net_faults n = []);
  tcp_connect n :=
    let '(ok, n) := next_fault n in
    (ok, {| net_queue := net_queue n; net_faults := net_faults n; net_received := net_received n;
            net_written := net_written n; net_connections := net_connections n + (if ok then 1 else 0) |});
  event_recv n :=
    match net_queue n with
    | [] => (None, n)
    | e :: q => (Some e, {| net_queue := q; net_faults := net_faults n; net_received := net_received n ++ [e];
                            net_written := net_written n; net_connections := net_connections n |})
    end;
  to_vec e := Some [timestamp e];
  write_all d n :=
    let '(ok, n) := next_fault n in
    (ok, {| net_queue := net_queue n; net_faults := net_faults n; net_received := net_received n;
            net_written := net_written n ++ (if ok then [d] else []); net_connections := net_connections n |});
  sleep_1s n := n;
|}.

#[local] Instance scripted_log : ExportLog ScriptedNet := {|
  received := net_received; written := net_written; connections := net_connections |}.

#[local] Instance scripted_laws : ExportLogLaws ScriptedNet.
Proof.
  split; simpl.
  - intros n e n'. destruct (net_queue n) as [|e' q]; [done|]. by intros [= <- <-].
  - intros n n'. destruct (net_queue n) as [|e' q]; [|done]. by intros [= <-].
  - done.
  - done.
  - done.
Qed.

Definition demo_event (t : Z) : StampedEvent :=
  {| timestamp := t; stamped_slot := 1; event := SlotStart |}.

(** The second event's write fails. *)
Definition demo_net : ScriptedNet := {| net_queue := demo_event <$> [1; 2; 3; 4];
  net_faults := [false; true; true; false]; net_received := []; net_written := []; net_connections := 0 |}.

Definition exported_net : ScriptedNet :=
  ltac:(let r := eval vm_compute in (exporter 6 6 demo_net) in
        lazymatch r with Ok (?u, ?n) => exact n end).

Lemma exporter_loses_one : net_written exported_net = [[1; 10]; [3; 10]] ∧ net_connections exported_net = 2%nat.
Proof. by vm_compute. Qed.

Lemma to_vec_written (e : StampedEvent) : is_Some (to_vec (Net := ScriptedNet) e).
Proof. by eexists. Qed.

Lemma exporter_demo : exporter 6 6 demo_net = Ok (tt, exported_net).
Proof. by vm_compute. Qed.

Lemma exporter_log_witness :
  is_cancelled exported_net = true ∧
  ∃ got out, received exported_net = received demo_net ++ got ∧
    written exported_net = written demo_net ++ (wire <$> out) ∧
    out `sublist_of` got ∧
    (length got ≤ length out + (connections exported_net - connections demo_net))%nat.
Proof.
  destruct (exporter_log to_vec_written demo_net) as (Hlog & Hrun & _).
  specialize (Hrun 6%nat 6%nat). rewrite exporter_demo in Hrun. destruct Hrun as [Hs Hc].
  split; [exact Hc|exact (Hlog exported_net Hs)].
Defined.
